(* ===== verification/_CoqProject ===== *)
-Q . S2P
Prelude.v
RecordId.v
Paths.v
Scope.v
Allocation.v
BTree.v
FlowDefinition.v
FlowSelector.v
FlowCoordinator.v
TaskStore.v
Conversation.v
ContextBudget.v
ImageRecovery.v
ProviderHistory.v
Tool.v
Timeline.v
Scheme.v
Gemini.v
OpenAIChat.v
Anthropic.v
OpenAIResponses.v
EngineCore.v
ToolExecution.v
EarlyTools.v
Streaming.v
TurnLoop.v
Providers.v
TextEdit.v
Subscription.v
Permission.v
TicketParents.v
SessionLog.v
CompactControl.v
WorkerRuns.v
InFlight.v
SessionStore.v
FsStore.v
