(* ===== verification/Prelude.v ===== *)
(** * Verification of the Yoi agent platform

    Yoi runs agents ("Workers") in sessions.  A Worker holds a scope of paths it may touch,
    delegates parts of it to children, talks to a model provider through a conversation that
    is budgeted, pruned and compacted, follows Flows, keeps a task list, links tickets, and
    records everything in an append-only log from which it is restored.  This library models
    the decision-making parts of that system, whole functions with their error paths, and
    proves what the rest of the system relies on.

    ** Files

    - [Prelude]: results and the [?] operator, machine-width arithmetic, UTF-8 strings and
      characters, list searches; the hint database and tactics of the development.
    - [BTree]: ordered maps and sets of the standard library, and sorted lists of strings.
    - [Paths]: [std::path] by components.
    - [RecordId]: [project-record/src/lib.rs], ids of records.
    - [Scope]: [manifest/src/scope.rs], rules, effective permission, attenuation, deny layers.
    - [Allocation]: [worker/src/runtime/worker_allocation/], who may write what; it calls
      [Scope] for the overlap and containment of rules.
    - [FlowDefinition], [FlowSelector], [FlowCoordinator]: [flow/src/], compilation of a Flow
      document, its selectors, and the instances and attempts that execute it.
    - [TaskStore]: [worker/src/feature/builtin/task/], the task list, its tools, replay,
      snapshot and reminders.
    - [Conversation], [ContextBudget], [ImageRecovery]: [agen/src/] and
      [worker/src/compact/], items of a conversation, token estimates, pruning, the cut of a
      compaction, and the retries after a rejected image.
    - [ProviderHistory]: [agen/src/engine.rs], the order of the items in a request.
    - [Tool]: [agen/src/tool.rs], outputs and results of tools and their byte limits.
    - [Timeline]: [agen/src/timeline/], dispatch of a response's events to the collectors.
    - [Scheme], [Gemini], [OpenAIChat], [Anthropic], [OpenAIResponses]:
      [agen/src/llm_client/scheme/] and [transport.rs], how the frames of a provider's stream
      become events.  [Scheme] has the trait as a class, the loop of the transport, and what a
      stream must be for the engine; each other file is an instance with its stream state.
    - [EngineCore], [ToolExecution], [EarlyTools], [Streaming], [TurnLoop]:
      [agen/src/engine.rs], the engine of a Worker.  [EngineCore] has its state, its
      environment, the fence of attempts and the commit of a result; [ToolExecution] is
      [execute_tools]; [EarlyTools] admits and drains calls while a response streams;
      [Streaming] opens a response, with the retries of [llm_client/retry.rs], and reads it;
      [TurnLoop] is [run_turn_loop] between the entry and the exit of a run.  The loop calls
      all of the others and the three files of the conversation.
    - [Providers]: [worker/src/model_client.rs], the engine over a client of each scheme.
    - [TextEdit]: [fs-operation/src/text.rs], checked edits and numbered rendering.
    - [Subscription]: [protocol/src/subscription.rs], validation of subscription traffic.
    - [Permission]: [worker/src/permission.rs], the policy that allows tool calls.
    - [TicketParents]: [ticket/src/parent_links.rs] over the tables of [ticket/src/lib.rs].
    - [SessionLog]: [session-store/src/segment_log.rs], the log and its two replays.
    - [CompactControl]: [worker/src/compact/state.rs] and [usage_tracker.rs] with their calls
      in [worker.rs] and [ipc/interceptor.rs], when a Worker compacts by itself, and the
      accounting of usage in the log.
    - [WorkerRuns]: [worker/src/worker.rs] with [interrupt_prep.rs] and the commits of
      [ipc/interceptor.rs], the runs of a Worker over its log: input, notification, resumption,
      cancellation, rollback, rewinding, and the switch to a compacted Segment.
    - [InFlight]: [worker/src/in_flight.rs], what a client that reconnects is shown.
    - [SessionStore]: [session-store/src/segment.rs] over the [Store] trait of [store.rs].
    - [FsStore]: [session-store/src/fs_store.rs], the store on the bytes of files.

    (Paths are below [src/crates/].)  Each file has a Module of its name.  Structs are
    records, enums inductive types, functions definitions of the same name; where two methods
    share a name the type is prefixed or suffixed.

    ** Conventions

    A [Result] is [result]; a panic, or an answer that never comes, is [None] or a
    constructor of its own.  Machine integers are [Z] with wrap-around, saturation and checks
    written out, lengths and indices [nat].  Strings are their UTF-8 bytes.  [HashMap] is
    [gmap]; ordered maps are sorted association lists, because iteration order is visible.
    State is passed explicitly; operations that touch a file or a database also take what
    they meet there: [Allocation] consumes a list of outcomes of file operations,
    [TicketParents] lets every statement fail, [FsStore] has a record of faults that includes
    writes that stop half-way.  The engine's asynchronous code is sequential: one task owns
    the state, and what it waits for (tools, signals, timers, interceptors, host callbacks,
    the provider) is a record of functions of a clock that advances with every question, so
    it answers anything at any time; an unbiased [select!] takes its choice from there too.
    The state keeps a trace of what the outside saw, and the theorems about the engine
    are about traces.  Clocks, random ids, digests, JSON codecs, the evaluator of
    Flow documents, the image header parser and the provider's answers are arguments; what a
    theorem needs of one is a hypothesis of it, instantiated in its witness.

    ** What the theorems show

    - Authority.  The permission of a path is the one of the specification
      ([effective_permission_spec]); a rule accepted for a child lies within the parent's
      ([allows_rule_sound]); along every run of the table, with failing file operations and
      deny rules, two Workers that may write one path are ancestor and descendant
      ([write_exclusivity]) and no Segment has two writers ([segment_writers_unique]).  Three
      conditions of a step are not checked by the code: the spawner of a delegated Worker covers
      what it gets ([covered_by_spawner]), the rules blamed for a conflict with a request that has deny
      rules contain all that overlap it ([blame_suffices];
      [one_blamed_rule_breaks_exclusivity] shows that they need not), and what a Worker takes
      back is held by nobody but itself and the child ([returns_freely]).  A tool call gets the first matching
      rule ([policy_first_match], [wildcard_match_exact]), except that a text that begins with
      asterisks escapes a pattern of asterisks ([asterisk_bypasses_deny]).
    - Flows.  Exactly the valid documents compile, to well-formed definitions; every reachable
      Runtime state is consistent with its event log ([flow_execution_invariant]).
    - Conversation.  Requests contain what they should, compaction never separates a call from
      its result, and recovery from rejected images ends ([split_keeps_tool_pairs],
      [request_context_exact], [recovery_loop_terminates]).
    - Requests and responses.  The projection of a history into a request is a permutation
      with results behind their calls ([projection_exact], [results_follow_calls]); the calls
      of a response are collected as they were streamed ([collected_calls_exact]).
    - Wire schemes.  Gemini's function calls are collected exactly ([gemini_calls_exact]); so
      are the texts, thoughts and calls of an Anthropic message whose blocks do not interleave
      ([anthropic_message_collected]); the events of the Responses API obey the protocol of
      blocks whatever comes ([responses_blocks_follow]), and its calls run with the input
      declared final ([responses_calls_exact]), as long as no item of another type is done at
      the output of a call ([other_item_ends_call]).  The Chat scheme closes no call
      ([chat_calls_never_complete]), so the engine passes over them ([chat_calls_passed_over]).
      Numbers of the provider can overflow ([usage_sum_overflows], [summary_index_panics]).
    - The engine.  A batch of calls ends with one result for every started call
      ([tool_batch_settles]) and without a cancellation left over ([batch_leaves_no_cancel]);
      through whole runs, every request carries the answer of every call in it
      ([requests_carry_answers]), every started tool is settled when the run ends
      ([started_tools_settle]), the limit on turns ends a run ([turn_limit_ends_run]), a
      resumption does not start a call that may have run ([resume_repeats_nothing]), and a
      broken response is continued only if none of its tools was started
      ([continued_response_ran_nothing]).  What they assume of the environment is named: the
      host adds no tool items of its own ([host_ok]), a complete response closes its blocks
      and names its calls differently ([tidy]), no policy skips a call ([may_skip]), waits
      before a retry do not overflow ([waits_bounded]), and preparing a request does not panic.
      [skipped_call_stays_unanswered] and [refused_result_runs_again] show what happens when a
      policy skips a call or the host refuses a result, [aborted_text_resurfaces] that text of
      an aborted response can reappear in a later one, [retry_after_overflows] that a provider
      can make a wait overflow.  [served_runs_settle] puts the schemes under the engine: the
      condition on responses becomes one on frames, which for Gemini is void.
    - Compaction and usage.  Usage is neither lost nor logged twice, memory, log and replay
      agree, a rolled back turn leaves no usage, and compaction is rearmed exactly by a logged
      request that completed before it was logged ([usage_accounted],
      [usage_written_early_does_not_rearm]); a logical
      run sends no request above its threshold and does not compact in circles
      ([compaction_disciplined]).
    - Runs and their log.  Whatever the controller does to a Worker and wherever an append
      fails, the log restores the Worker ([log_restores_worker]), except after an input that a
      hook refused, a rollback that cannot cut the log, a rollback behind a pause, a rewound Flow, and a resumption that the guard of
      compaction blocked ([refused_input_comes_back], [rolled_back_after_pause],
      [rewound_flow_stays], [blocked_resume_stays_interrupted]).
    - Reconnecting clients.  A snapshot has the end of what commands wrote, at the right
      offsets if these count bytes ([command_output_kept]), and no block of a response once it is committed
      ([commit_clears_response]), unless a response has several texts
      ([several_texts_linger]).
    - Durability.  [SessionStore] states the contract of a store as the class [StoreLaws] and
      proves forks, truncation and the check for other writers against it; [FsStore] proves
      that the file format keeps the contract under torn writes and crashes
      ([append_all_or_nothing], [tail_scan_exact], [segment_survives_faults]); [SessionLog]
      shows that replay does not panic, that the two replays agree, and, together with
      [ImageRecovery], that corrections in memory are on record ([recovery_is_durable]).
      The task list replayed from a history, across a compaction, is a finite map under the
      operations of the recorded calls, and the live list if these were executed
      ([restored_tasks_exact]).
    - Tickets.  Parent links never form a cycle, changes are compare-and-set and idempotent,
      pages of children are exact.
    - Text and traffic.  Edits never panic and do what they say ([edit_outcome]);
      subscription traffic is what was subscribed to; record ids round-trip and sort by time.

    ** Fuel

    Where the source loops, the model recurses on fuel and a theorem shows it is enough: the
    conflict search over the delegation forest takes the number of allocations
    ([conflict_search_total]); the retries after rejected images take one more than the
    images of the history ([recovery_loop_terminates]); the wildcard matcher takes a product
    of the lengths ([wildcard_match_exact]); the walk up the parents takes the number of links
    ([set_parent_link_outcome] states that an answer always comes); the backward scan takes
    the length of the file ([tail_scan_exact]); the two graph searches of a Flow take its
    states and transitions ([compile_accepts_exactly_valid]); the binary search of a worker
    selection takes its length ([worker_selection_canonical]); writing usage takes the number of
    records that wait ([usage_accounted] states that it ends); the search for a character
    boundary takes the length of the text ([command_output_kept]).  In the engine, the loop over a
    batch takes its tasks and two signals ([tool_batch_settles]), the drain its tasks and one
    pause, the wait for an event its tasks, the opening of a stream one more than the policy's
    attempts and one more than the images of the history (lemmas [execute_loop_ok],
    [drain_loop_ok] and those of [Streaming]); the turn loop takes its fuel as an argument, and
    four times the turns left plus one is enough under a turn limit ([turn_limit_ends_run]).
    Without a limit the loop may run forever, and its safety theorems hold for every fuel.
    Other recursion is structural.

    ** Not modelled

    Network, process and terminal I/O, creation and restoration of Workers, Feature
    invocations and uploads, the supervision of Workers, HTTP handlers and the rest of the SQL, macros and generated code, encrypted
    secrets, plugins.  Of the schemes and the transport: the bodies of requests, endpoints,
    headers, credentials and compression, and the JSON decoding of frames, an argument.  Of
    compaction: the summary a model writes and the compare-and-swap that activates the new
    Segment, whose outcomes are arguments.  In [WorkerRuns] the engine is any sequence of its
    effects on the Worker.  Of the modelled files: the engine's observers, registration of tools, configuration setters and
    the conversion between mutable and locked engines; display texts of most errors, prompt
    summaries of scopes, uploaded files and schema migrations of the session store, and the
    fork into a new session. *)
From Stdlib Require Import ZArith String Ascii List Lia OrdersEx.
From stdpp Require Import base tactics numbers list strings pretty sorting.

Set Default Proof Using "Type".
Open Scope string_scope.
Open Scope list_scope.
Open Scope Z_scope.

(** ** Results

    [Result<A, E>] of the Rust standard library. *)
Inductive result (A E : Type) : Type :=
| Ok (a : A)
| Err (e : E).
Arguments Ok {A E} a.
Arguments Err {A E} e.

Declare Scope rust_scope.
Delimit Scope rust_scope with rust.
Open Scope rust_scope.

(** The [?] operator: propagate the error, continue with the value. *)
Notation "'let?' x ':=' c 'in' k" :=
  (match c with Ok x => k | Err e => Err e end)
  (at level 10, x pattern, c at level 100, k at level 200) : rust_scope.

(** [Result::map_err]. *)
Definition map_err {A E F} (f : E → F) (r : result A E) : result A F :=
  match r with Ok a => Ok a | Err e => Err (f e) end.

(** [Result::is_ok]. *)
Definition is_ok {A E} (r : result A E) : bool :=
  match r with Ok _ => true | Err _ => false end.

(** [Option::ok_or]. *)
Definition ok_or {A E} (o : option A) (e : E) : result A E :=
  match o with Some a => Ok a | None => Err e end.

(** [iter.map(f).collect::<Result<Vec<_>, _>>()]: stops at the first error. *)
Fixpoint collect_results {A B E} (f : A → result B E) (l : list A)
  : result (list B) E :=
  match l with
  | [] => Ok []
  | x :: r => let? y := f x in let? ys := collect_results f r in Ok (y :: ys)
  end.

(** ** Iterators over slices *)

(** [iter().position(p)]. *)
Fixpoint position {A} (p : A → bool) (l : list A) : option nat :=
  match l with
  | [] => None
  | x :: r => if p x then Some 0%nat else S <$> position p r
  end.

(** [Vec::remove(idx)] for an index known to be in range. *)
Fixpoint vec_remove {A} (i : nat) (l : list A) : list A :=
  match l, i with
  | [], _ => []
  | _ :: r, O => r
  | x :: r, S i => x :: vec_remove i r
  end.

(** ** Machine integers *)

Definition U64_MAX : Z := 2 ^ 64 - 1.

(** [u64::checked_add] and [u64::checked_mul]. *)
Definition checked_add_u64 (a b : Z) : option Z :=
  if a + b <=? U64_MAX then Some (a + b) else None.

Definition checked_mul_u64 (a b : Z) : option Z :=
  if a * b <=? U64_MAX then Some (a * b) else None.

(** [u64::saturating_add] and [u64::saturating_sub]. *)
Definition saturating_add_u64 (a b : Z) : Z := Z.min (a + b) U64_MAX.

Definition saturating_sub_u64 (a b : Z) : Z := Z.max (a - b) 0.

(** ** UTF-8 strings

    A Rust [str] is its sequence of UTF-8 bytes, one [ascii] per byte; [str::len]
    is [String.length]. *)

Definition byte_of (c : ascii) : Z := Z.of_N (N_of_ascii c).

(** [u8::is_utf8_char_boundary], negated: a continuation byte 0b10xxxxxx. *)
Definition is_continuation (c : ascii) : bool :=
  (128 <=? byte_of c) && (byte_of c <? 192).

(** [str::is_char_boundary]. *)
Definition is_char_boundary (s : string) (i : nat) : bool :=
  if (i =? 0)%nat then true
  else match String.get i s with
       | Some c => negb (is_continuation c)
       | None => (i =? String.length s)%nat
       end.

(** [while !s.is_char_boundary(i) { i -= 1 }]: the last character boundary up to [i]. *)
Fixpoint floor_boundary (s : string) (i : nat) : nat :=
  if is_char_boundary s i then i
  else match i with O => O | S i => floor_boundary s i end.

(** The payload bits of a continuation byte, and the scalar value of a two-, three-
    and four-byte sequence. *)
Definition cont_bits (c : ascii) : Z := Z.land (byte_of c) 63.

Definition scalar2 (b0 b1 : ascii) : Z :=
  Z.lor (Z.shiftl (Z.land (byte_of b0) 31) 6) (cont_bits b1).

Definition scalar3 (b0 b1 b2 : ascii) : Z :=
  Z.lor (Z.shiftl (Z.land (byte_of b0) 15) 12)
    (Z.lor (Z.shiftl (cont_bits b1) 6) (cont_bits b2)).

Definition scalar4 (b0 b1 b2 b3 : ascii) : Z :=
  Z.lor (Z.shiftl (Z.land (byte_of b0) 7) 18)
    (Z.lor (Z.shiftl (cont_bits b1) 12)
      (Z.lor (Z.shiftl (cont_bits b2) 6) (cont_bits b3))).

(** [str::chars], as Unicode scalar values.  The byte sequence of a [str] is valid
    UTF-8, so a truncated multi-byte sequence does not occur. *)
Fixpoint chars (s : string) : list Z :=
  match s with
  | EmptyString => []
  | String b0 s0 =>
      if byte_of b0 <? 128 then byte_of b0 :: chars s0
      else match s0 with
      | EmptyString => []
      | String b1 s1 =>
          if byte_of b0 <? 224 then scalar2 b0 b1 :: chars s1
          else match s1 with
          | EmptyString => []
          | String b2 s2 =>
              if byte_of b0 <? 240 then scalar3 b0 b1 b2 :: chars s2
              else match s2 with
              | EmptyString => []
              | String b3 s3 => scalar4 b0 b1 b2 b3 :: chars s3
              end
          end
      end
  end.

(** [char::is_whitespace]: the Unicode [White_Space] property. *)
Definition is_whitespace (c : Z) : bool :=
  ((9 <=? c) && (c <=? 13)) || (c =? 32) || (c =? 133) || (c =? 160)
  || (c =? 5760) || ((8192 <=? c) && (c <=? 8202)) || (c =? 8232) || (c =? 8233)
  || (c =? 8239) || (c =? 8287) || (c =? 12288).

(** [s.trim().is_empty()]: every character is white space. *)
Definition trim_is_empty (s : string) : bool := forallb is_whitespace (chars s).

(** [char::is_ascii_alphanumeric]. *)
Definition is_ascii_alphanumeric (c : Z) : bool :=
  ((48 <=? c) && (c <=? 57)) || ((65 <=? c) && (c <=? 90))
  || ((97 <=? c) && (c <=? 122)).

(** [s.starts_with(c)] for a single-byte character. *)
Definition starts_with_char (c : ascii) (s : string) : bool :=
  match s with
  | String d _ => Ascii.eqb c d
  | EmptyString => false
  end.

(** A lower-case hexadecimal digit. *)
Definition hex_digit (d : Z) : ascii :=
  if d <? 10 then ascii_of_N (Z.to_N (48 + d)) else ascii_of_N (Z.to_N (87 + d)).

(** [{:x}] of a byte: no leading zero. *)
Definition hex_byte (v : Z) : string :=
  if v <? 16 then String (hex_digit v) EmptyString
  else String (hex_digit (v / 16)) (String (hex_digit (v mod 16)) EmptyString).

(** The [Debug] rendering of a [str]: double quotes, backslashes and ASCII control
    characters are escaped.  Bytes of multi-byte characters are passed through, so the
    few of them that Rust escapes as unprintable are not. *)
Definition debug_char (c : ascii) : string :=
  let v := byte_of c in
  if v =? 34 then String "\" (String c EmptyString)
  else if v =? 92 then "\\"
  else if v =? 9 then "\t"
  else if v =? 10 then "\n"
  else if v =? 13 then "\r"
  else if v =? 0 then "\0"
  else if (v <? 32) || (v =? 127) then "\u{" +:+ hex_byte v +:+ "}"
  else String c EmptyString.

Definition double_quote : string := String (ascii_of_nat 34) EmptyString.

Fixpoint debug_body (s : string) : string :=
  match s with
  | EmptyString => EmptyString
  | String c r => debug_char c +:+ debug_body r
  end.

Definition debug_str (s : string) : string :=
  double_quote +:+ debug_body s +:+ double_quote.

(** The UTF-8 validity invariant of [str]: no truncated, overlong or surrogate
    sequence. *)
Fixpoint valid_utf8 (s : string) : bool :=
  match s with
  | EmptyString => true
  | String b0 s0 =>
      let v0 := byte_of b0 in
      if v0 <? 128 then valid_utf8 s0
      else match s0 with
      | EmptyString => false
      | String b1 s1 =>
          if v0 <? 224 then (194 <=? v0) && is_continuation b1 && valid_utf8 s1
          else match s1 with
          | EmptyString => false
          | String b2 s2 =>
              if v0 <? 240 then
                is_continuation b1 && is_continuation b2
                && (negb (v0 =? 224) || (160 <=? byte_of b1))
                && (negb (v0 =? 237) || (byte_of b1 <? 160))
                && valid_utf8 s2
              else match s2 with
              | EmptyString => false
              | String b3 s3 =>
                  (v0 <? 245) && is_continuation b1 && is_continuation b2
                  && is_continuation b3
                  && (negb (v0 =? 240) || (144 <=? byte_of b1))
                  && (negb (v0 =? 244) || (byte_of b1 <? 144))
                  && valid_utf8 s3
              end
          end
      end
  end.

(** Every byte satisfies [f]. *)
Fixpoint all_chars (f : ascii → bool) (s : string) : bool :=
  match s with
  | EmptyString => true
  | String c r => f c && all_chars f r
  end.

(** Every byte is below 128. *)
Fixpoint ascii_only (s : string) : bool :=
  match s with
  | EmptyString => true
  | String c r => (byte_of c <? 128) && ascii_only r
  end.

(** The bytes of a string. *)
Fixpoint bytes (s : string) : list Z :=
  match s with
  | EmptyString => []
  | String c r => byte_of c :: bytes r
  end.

(** ** Automation *)

Create HintDb yoi.

(** Split the boolean conjunctions of the context. *)
Ltac split_andb :=
  repeat match goal with
  | H : (_ && _)%bool = true |- _ => apply andb_true_iff in H as [??]
  | H : (_ || _)%bool = false |- _ => apply orb_false_iff in H as [??]
  | H : negb _ = true |- _ => apply negb_true_iff in H
  | H : negb _ = false |- _ => apply negb_false_iff in H
  end.

(** Turn the boolean comparisons on integers of the context into propositions. *)
Ltac zbool :=
  split_andb;
  repeat match goal with
  | H : (_ <? _) = true |- _ => apply Z.ltb_lt in H
  | H : (_ <? _) = false |- _ => apply Z.ltb_ge in H
  | H : (_ <=? _) = true |- _ => apply Z.leb_le in H
  | H : (_ <=? _) = false |- _ => apply Z.leb_gt in H
  | H : (_ =? _) = true |- _ => apply Z.eqb_eq in H
  | H : (_ =? _) = false |- _ => apply Z.eqb_neq in H
  end.

(** Case analysis on the first [match] of the goal, keeping its equation. *)
Ltac case_on :=
  match goal with
  | |- context [match ?x with _ => _ end] => destruct x eqn:?
  end.

(** Case analysis on the first [match] of a hypothesis. *)
Ltac case_in H :=
  match type of H with
  | context [match ?x with _ => _ end] => destruct x eqn:?
  end.

(** ** Lemmas on results and iterators *)

Lemma collect_results_Forall2 {A B E} (f : A → result B E) l ys :
  collect_results f l = Ok ys ↔ Forall2 (λ x y, f x = Ok y) l ys.
Proof.
  revert ys; induction l as [|x l IH]; intros ys; simpl.
  - split; [by intros [= <-]|]. by inversion 1.
  - split.
    + destruct (f x) eqn:Hf; [|done].
      destruct (collect_results f l) as [zs|] eqn:Hc; [|done].
      intros [= <-]. constructor; [done|]. by apply IH.
    + inversion 1 as [|?? ? zs Hfx Hrest]; subst. rewrite Hfx.
      apply IH in Hrest. by rewrite Hrest.
Qed.

Lemma position_Some {A} (p : A → bool) l i :
  position p l = Some i →
  ∃ x, l !! i = Some x ∧ p x = true ∧
       ∀ j y, (j < i)%nat → l !! j = Some y → p y = false.
Proof.
  revert i; induction l as [|a l IH]; intros i; simpl; [done|].
  destruct (p a) eqn:Hp.
  - intros [= <-]. exists a. repeat split; [done|]. intros; lia.
  - destruct (position p l) as [k|] eqn:Hk; simpl; [|done].
    intros [= <-]. destruct (IH k eq_refl) as (x & Hx & Hpx & Hbefore).
    exists x. repeat split; [done|done|].
    intros [|j] y Hj Hy; simpl in *; [by simplify_eq|].
    eapply Hbefore; [|done]. lia.
Qed.

Lemma position_None {A} (p : A → bool) l :
  position p l = None ↔ ∀ x, x ∈ l → p x = false.
Proof.
  induction l as [|a l IH]; simpl.
  - split; [|done]. intros _ x Hx. by apply not_elem_of_nil in Hx.
  - destruct (p a) eqn:Hp.
    + split; [done|]. intros H. specialize (H a ltac:(by left)). congruence.
    + destruct (position p l); simpl.
      * split; [done|]. intros H. assert (Some n = None); [|done].
        apply IH. intros x Hx. apply H. by right.
      * split; [|done]. intros _ x [->|Hx]%elem_of_cons; [done|]. by apply IH.
Qed.

Lemma existsb_elem_of {A} (p : A → bool) l :
  existsb p l = true ↔ ∃ x, x ∈ l ∧ p x = true.
Proof.
  rewrite existsb_exists. split; intros (x & Hx & Hp); exists x;
    (split; [|done]); by apply list_elem_of_In.
Qed.

Lemma existsb_false {A} (p : A → bool) l :
  existsb p l = false ↔ ∀ x, x ∈ l → p x = false.
Proof.
  split.
  - intros H x Hx. apply not_true_is_false. intros Hp.
    assert (existsb p l = true) by (apply existsb_elem_of; eauto). congruence.
  - intros H. apply not_true_is_false. rewrite existsb_elem_of.
    intros (x & Hx & Hp). rewrite (H x Hx) in Hp. done.
Qed.

Lemma list_filter_elem_of {A} (p : A → bool) l x :
  x ∈ List.filter p l ↔ x ∈ l ∧ p x = true.
Proof. by rewrite !list_elem_of_In, filter_In. Qed.

(** ** Lemmas on strings and UTF-8 *)

Lemma string_app_nil_r s : s +:+ EmptyString = s.
Proof. induction s as [|c s IH]; [done|]. exact (f_equal (String c) IH). Qed.

Lemma byte_of_range c : 0 <= byte_of c < 256.
Proof.
  unfold byte_of. pose proof (N_ascii_bounded c). lia.
Qed.

Lemma chars_cons_ascii c s : byte_of c < 128 → chars (String c s) = byte_of c :: chars s.
Proof. intros H. simpl. by rewrite (proj2 (Z.ltb_lt _ _) H). Qed.

Lemma chars_ascii_only s : ascii_only s = true → chars s = bytes s.
Proof.
  induction s as [|c s IH]; intros H; [done|].
  simpl in H. zbool. rewrite chars_cons_ascii by done. simpl. by rewrite IH.
Qed.

Lemma lor_ge_l a b : 0 <= a → 0 <= b → a <= Z.lor a b.
Proof.
  intros Ha Hb. pose proof (Z.add_lor_land a b) as H.
  assert (Z.land a b <= b); [|lia].
  rewrite <- (Z2N.id a), <- (Z2N.id b), <- N2Z.inj_land by done.
  apply N2Z.inj_le, N.land_le_r.
Qed.

(** The lead byte bits of a valid multi-byte sequence are never all zero. *)
Lemma lead_bits_2 c : 194 <= byte_of c → byte_of c < 224 → 2 <= Z.land (byte_of c) 31.
Proof. destruct c as [[] [] [] [] [] [] [] []]; vm_compute; intros; congruence. Qed.

Lemma lead_bits_3 c : 224 < byte_of c → byte_of c < 240 → 1 <= Z.land (byte_of c) 15.
Proof. destruct c as [[] [] [] [] [] [] [] []]; vm_compute; intros; congruence. Qed.

Lemma lead_bits_4 c : 240 < byte_of c → byte_of c < 245 → 1 <= Z.land (byte_of c) 7.
Proof. destruct c as [[] [] [] [] [] [] [] []]; vm_compute; intros; congruence. Qed.

Lemma cont_bits_160 c : 160 <= byte_of c → byte_of c < 192 → 32 <= cont_bits c.
Proof. destruct c as [[] [] [] [] [] [] [] []]; vm_compute; intros; congruence. Qed.

Lemma cont_bits_144 c : 144 <= byte_of c → byte_of c < 192 → 16 <= cont_bits c.
Proof. destruct c as [[] [] [] [] [] [] [] []]; vm_compute; intros; congruence. Qed.

Lemma shiftl_lor_large a b k n :
  0 <= a → 0 <= b → 0 <= n → k <= a → k * 2 ^ n <= Z.lor (Z.shiftl a n) b.
Proof.
  intros Ha Hb Hn Hk.
  etrans; [|apply lor_ge_l; [by apply Z.shiftl_nonneg|done]].
  rewrite Z.shiftl_mul_pow2 by done. apply Z.mul_le_mono_nonneg_r; [|done].
  by apply Z.pow_nonneg.
Qed.

Lemma land_nonneg_r a b : 0 <= b → 0 <= Z.land a b.
Proof. intros. apply Z.land_nonneg. by right. Qed.

Lemma cont_bits_nonneg c : 0 <= cont_bits c.
Proof. by apply land_nonneg_r. Qed.

Lemma shiftl_lor_nonneg a b n : 0 <= a → 0 <= b → 0 <= Z.lor (Z.shiftl a n) b.
Proof. intros. apply Z.lor_nonneg. split; [by apply Z.shiftl_nonneg|done]. Qed.

#[export] Hint Resolve land_nonneg_r byte_of_range cont_bits_nonneg
  shiftl_lor_nonneg : yoi.

(** Valid sequences are not overlong: two bytes encode at least 128. *)
Lemma scalar2_large b0 b1 : 194 <= byte_of b0 < 224 → 128 <= scalar2 b0 b1.
Proof.
  intros []. trans (2 * 2 ^ 6); [done|].
  apply shiftl_lor_large; auto with yoi; [by apply land_nonneg_r|done|].
  by apply lead_bits_2.
Qed.

Lemma scalar3_large b0 b1 b2 :
  224 <= byte_of b0 < 240 → is_continuation b1 = true →
  negb (byte_of b0 =? 224) || (160 <=? byte_of b1) = true →
  128 <= scalar3 b0 b1 b2.
Proof.
  unfold is_continuation; intros Hb Hc H; zbool.
  assert (0 <= Z.land (byte_of b0) 15) by (by apply land_nonneg_r).
  destruct (byte_of b0 =? 224) eqn:He; simpl in H; zbool.
  - unfold scalar3. rewrite Z.lor_comm. etrans; [|apply lor_ge_l; auto with yoi].
    + trans (32 * 2 ^ 6); [done|]. apply shiftl_lor_large; auto with yoi; [done|].
      by apply cont_bits_160.
    + by apply Z.shiftl_nonneg.
  - trans (1 * 2 ^ 12); [done|]. apply shiftl_lor_large; auto with yoi; [done|].
    apply lead_bits_3; lia.
Qed.

Lemma scalar4_large b0 b1 b2 b3 :
  240 <= byte_of b0 < 245 → is_continuation b1 = true →
  negb (byte_of b0 =? 240) || (144 <=? byte_of b1) = true →
  128 <= scalar4 b0 b1 b2 b3.
Proof.
  unfold is_continuation; intros Hb Hc H; zbool.
  assert (0 <= Z.land (byte_of b0) 7) by (by apply land_nonneg_r).
  destruct (byte_of b0 =? 240) eqn:He; simpl in H; zbool.
  - unfold scalar4. rewrite Z.lor_comm. etrans; [|apply lor_ge_l; auto with yoi].
    + trans (16 * 2 ^ 12); [done|]. apply shiftl_lor_large; auto with yoi; [done|].
      by apply cont_bits_144.
    + by apply Z.shiftl_nonneg.
  - trans (1 * 2 ^ 18); [done|]. apply shiftl_lor_large; auto with yoi; [done|].
    apply lead_bits_4; lia.
Qed.

(** A valid string whose characters are all below 128 is made of single bytes. *)
Lemma valid_chars_ascii s :
  valid_utf8 s = true → Forall (λ c, c < 128) (chars s) → ascii_only s = true.
Proof.
  remember (String.length s) as n eqn:Hn.
  revert s Hn; induction (lt_wf n) as [n _ IH]; intros s Hn Hv Hc; subst n.
  destruct s as [|b0 s0]; [done|]. simpl in *.
  destruct (byte_of b0 <? 128) eqn:H0.
  { apply Forall_cons in Hc as [_ Hc]. simpl. eapply IH; [|done|done|done]. lia. }
  exfalso. destruct s0 as [|b1 s1]; [done|].
  destruct (byte_of b0 <? 224) eqn:H1.
  { apply Forall_cons in Hc as [Hc _]. zbool.
    pose proof (scalar2_large b0 b1 ltac:(lia)). lia. }
  destruct s1 as [|b2 s2]; [done|].
  destruct (byte_of b0 <? 240) eqn:H2.
  { apply Forall_cons in Hc as [Hc _]. split_andb. zbool.
    pose proof (scalar3_large b0 b1 b2 ltac:(lia) ltac:(done) ltac:(done)). lia. }
  destruct s2 as [|b3 s3]; [done|].
  apply Forall_cons in Hc as [Hc _]. split_andb. zbool.
  pose proof (scalar4_large b0 b1 b2 b3 ltac:(lia) ltac:(done) ltac:(done)). lia.
Qed.

(** ** Character boundaries *)

(** The boundaries of a string without the special case of position 0. *)
Definition boundary_at (s : string) (i : nat) : bool :=
  match String.get i s with
  | Some c => negb (is_continuation c)
  | None => (i =? String.length s)%nat
  end.

Lemma is_char_boundary_at s i :
  valid_utf8 s = true → is_char_boundary s i = boundary_at s i.
Proof.
  intros Hv. unfold is_char_boundary, boundary_at. destruct i as [|i]; [|done].
  destruct s as [|c s]; [done|]. simpl. unfold is_continuation. simpl in Hv.
  destruct (byte_of c <? 128) eqn:H0.
  { zbool. symmetry. apply negb_true_iff, andb_false_iff. left. lia. }
  destruct s as [|b1 s]; [done|]. symmetry. apply negb_true_iff, andb_false_iff. right.
  destruct (byte_of c <? 224) eqn:H1; zbool; lia.
Qed.

Lemma valid_utf8_prefix s i :
  valid_utf8 s = true → boundary_at s i = true → valid_utf8 (String.substring 0 i s) = true.
Proof.
  remember (String.length s) as n eqn:Hn.
  revert s i Hn; induction (lt_wf n) as [n _ IH]; intros s i Hn Hv Hb; subst n.
  destruct i as [|i]; [by destruct s|]. destruct s as [|b0 s0]; [done|].
  cbn [String.substring valid_utf8] in *.
  assert (∀ r j, (String.length r < String.length (String b0 s0))%nat → valid_utf8 r = true →
    boundary_at r j = true → valid_utf8 (String.substring 0 j r) = true) as IH' by eauto.
  change (boundary_at s0 i = true) in Hb. clear IH. cbn [String.length] in IH'.
  destruct (byte_of b0 <? 128); [apply IH'; [lia|done|done]|].
  destruct s0 as [|b1 s1]; [done|]. destruct (byte_of b0 <? 224).
  { split_andb. destruct i as [|i]; [by cbn in Hb; rewrite H1 in Hb|].
    cbn [String.substring]. rewrite H, H1. apply IH'; [simpl; lia|done|done]. }
  destruct s1 as [|b2 s2]; [done|]. destruct (byte_of b0 <? 240).
  { split_andb. destruct i as [|[|i]]; [by cbn in Hb; rewrite H in Hb|by cbn in Hb; rewrite H3 in Hb|].
    cbn [String.substring]. rewrite H, H3, H2, H1. apply IH'; [simpl; lia|done|done]. }
  destruct s2 as [|b3 s3]; [done|]. split_andb.
  destruct i as [|[|[|i]]];
    [by cbn in Hb; rewrite H5 in Hb|by cbn in Hb; rewrite H4 in Hb|by cbn in Hb; rewrite H3 in Hb|].
  cbn [String.substring]. rewrite H, H5, H4, H3, H2, H1. apply IH'; [simpl; lia|done|done].
Qed.

(** A boundary is at most three bytes before any position. *)
Lemma boundary_near s i :
  valid_utf8 s = true → (i <= String.length s)%nat →
  ∃ j, (j <= i)%nat ∧ (i - j <= 3)%nat ∧ boundary_at s j = true.
Proof.
  remember (String.length s) as n eqn:Hn.
  revert s i Hn; induction (lt_wf n) as [n _ IH]; intros s i Hn Hv Hi; subst n.
  destruct i as [|i].
  { exists 0%nat. split_and!; [lia|lia|]. by rewrite <- is_char_boundary_at. }
  destruct s as [|b0 s0]; [simpl in Hi; lia|].
  assert (boundary_at (String b0 s0) 0 = true) as H0 by (by rewrite <- is_char_boundary_at).
  assert (∀ r k, (String.length r < String.length (String b0 s0))%nat → valid_utf8 r = true →
    (k <= String.length r)%nat →
    ∃ j, (j <= k)%nat ∧ (k - j <= 3)%nat ∧ boundary_at r j = true) as IH' by eauto.
  clear IH. cbn [valid_utf8 String.length] in *.
  assert (∀ r k n, (∃ j, (j <= k)%nat ∧ (k - j <= 3)%nat ∧ boundary_at r j = true) →
    (∀ j, boundary_at r j = boundary_at (String b0 s0) (n + j)) → S i = (n + k)%nat →
    ∃ j, (j <= S i)%nat ∧ (S i - j <= 3)%nat ∧ boundary_at (String b0 s0) j = true) as Hshift.
  { intros r k m (j & Hj & Hd & Hb) Hs He. exists (m + j)%nat. rewrite <- Hs. split_and!; [lia|lia|done]. }
  destruct (byte_of b0 <? 128).
  { apply (Hshift s0 i 1%nat); [apply IH'; [lia|done|lia]|done|lia]. }
  destruct s0 as [|b1 s1]; [done|]. cbn [String.length] in *. destruct (byte_of b0 <? 224).
  { split_andb. destruct i as [|i]; [exists 0%nat; split_and!; [lia|lia|done]|].
    apply (Hshift s1 i 2%nat); [apply IH'; [lia|done|lia]|done|lia]. }
  destruct s1 as [|b2 s2]; [done|]. cbn [String.length] in *. destruct (byte_of b0 <? 240).
  { split_andb. destruct i as [|[|i]]; [exists 0%nat; split_and!; [lia|lia|done]..|].
    apply (Hshift s2 i 3%nat); [apply IH'; [lia|done|lia]|done|lia]. }
  destruct s2 as [|b3 s3]; [done|]. cbn [String.length] in *. split_andb.
  destruct i as [|[|[|i]]]; [exists 0%nat; split_and!; [lia|lia|done]..|].
  apply (Hshift s3 i 4%nat); [apply IH'; [lia|done|lia]|done|lia].
Qed.

Lemma floor_boundary_spec s i :
  (floor_boundary s i <= i)%nat ∧ is_char_boundary s (floor_boundary s i) = true ∧
  ∀ j, (floor_boundary s i < j <= i)%nat → is_char_boundary s j = false.
Proof.
  induction i as [|i IH]; simpl.
  - split_and!; [lia|done|lia].
  - destruct (is_char_boundary s (S i)) eqn:Hb; [split_and!; [lia|done|lia]|].
    destruct IH as (Hle & Hat & Hmax). split_and!; [lia|done|].
    intros j Hj. destruct (decide (j = S i)) as [->|]; [done|]. apply Hmax. lia.
Qed.

Lemma char_boundary_end s : is_char_boundary s (String.length s) = true.
Proof.
  unfold is_char_boundary. destruct (String.length s =? 0)%nat; [done|].
  assert (String.get (String.length s) s = None) as ->; [|apply Nat.eqb_refl].
  induction s; simpl; auto.
Qed.

Lemma floor_boundary_end s : floor_boundary s (String.length s) = String.length s.
Proof.
  pose proof (char_boundary_end s) as He.
  destruct (String.length s) as [|k]; [done|]. cbn [floor_boundary]. by rewrite He.
Qed.

(** Cutting a string at the boundary keeps it valid and drops at most three more bytes. *)
Lemma floor_boundary_cut s i :
  valid_utf8 s = true → (i <= String.length s)%nat →
  valid_utf8 (String.substring 0 (floor_boundary s i) s) = true
  ∧ (i - floor_boundary s i <= 3)%nat.
Proof.
  intros Hv Hi. destruct (floor_boundary_spec s i) as (Hle & Hb & Hmax). split.
  - apply valid_utf8_prefix; [done|]. by rewrite <- is_char_boundary_at.
  - destruct (boundary_near s i Hv Hi) as (j & Hj1 & Hj2 & Hj).
    rewrite <- is_char_boundary_at in Hj by done.
    destruct (decide (j <= floor_boundary s i)%nat); [lia|]. by rewrite Hmax in Hj by lia.
Qed.

Lemma substring_length s n : (n <= String.length s)%nat → String.length (String.substring 0 n s) = n.
Proof.
  revert n. induction s as [|c s IH]; intros [|n] Hn; simpl in *; try done; [lia|].
  rewrite IH; lia.
Qed.

Lemma string_app_cons c a b : String c a +:+ b = String c (a +:+ b).
Proof. done. Qed.

Lemma valid_utf8_app a b :
  valid_utf8 a = true → valid_utf8 b = true → valid_utf8 (a +:+ b) = true.
Proof.
  remember (String.length a) as n eqn:Hn.
  revert a Hn; induction (lt_wf n) as [n _ IH]; intros a Hn Ha Hb; subst n.
  assert (∀ r, (String.length r < String.length a)%nat → valid_utf8 r = true →
    valid_utf8 (r +:+ b) = true) as IH' by eauto. clear IH.
  destruct a as [|b0 a0]; [done|]. cbn [String.length] in IH'.
  rewrite string_app_cons. cbn [valid_utf8] in *.
  destruct (byte_of b0 <? 128); [apply IH'; [lia|done]|].
  destruct a0 as [|b1 a1]; [done|]. rewrite string_app_cons. destruct (byte_of b0 <? 224).
  { split_andb. rewrite H, H1. apply IH'; [simpl; lia|done]. }
  destruct a1 as [|b2 a2]; [done|]. rewrite string_app_cons. destruct (byte_of b0 <? 240).
  { split_andb. rewrite H, H3, H2, H1. apply IH'; [simpl; lia|done]. }
  destruct a2 as [|b3 a3]; [done|]. rewrite string_app_cons. split_andb.
  rewrite H, H5, H4, H3, H2, H1. apply IH'; [simpl; lia|done].
Qed.

Lemma string_length_app a b :
  String.length (a +:+ b) = (String.length a + String.length b)%nat.
Proof. induction a as [|c a IH]; [done|]. rewrite string_app_cons. simpl. by rewrite IH. Qed.

Lemma string_app_assoc a b c : a +:+ (b +:+ c) = (a +:+ b) +:+ c.
Proof. induction a as [|d a IH]; [done|]. rewrite !string_app_cons. by rewrite IH. Qed.

(** ** Cutting strings *)

Lemma string_get_app a b : String.get (String.length a) (a +:+ b) = String.get 0 b.
Proof. induction a as [|c a IH]; [done|]. rewrite string_app_cons. exact IH. Qed.

Lemma substring_full s : String.substring 0 (String.length s) s = s.
Proof. induction s as [|c s IH]; simpl; [done|]. by rewrite IH. Qed.

Lemma substring_app_l a b : String.substring 0 (String.length a) (a +:+ b) = a.
Proof. induction a as [|c a IH]; [by destruct b|]. rewrite string_app_cons. simpl. by rewrite IH. Qed.

Lemma substring_middle a b c :
  String.substring (String.length a) (String.length b) (a +:+ (b +:+ c)) = b.
Proof.
  induction a as [|d a IH]; [exact (substring_app_l b c)|]. rewrite string_app_cons. simpl. done.
Qed.

Lemma substring_cut n s : ∃ t, s = String.substring 0 n s +:+ t.
Proof.
  revert n. induction s as [|c s IH]; intros [|n]; [by exists EmptyString..|by eexists|].
  destruct (IH n) as [t Ht]. exists t. simpl. rewrite string_app_cons. by rewrite <- Ht.
Qed.

Lemma substring_ge n s : (String.length s <= n)%nat → String.substring 0 n s = s.
Proof.
  revert n. induction s as [|c s IH]; intros [|n] Hn; simpl in *; try done; [lia|].
  rewrite IH; [done|lia].
Qed.

Lemma string_app_inj a b c : a +:+ b = a +:+ c → b = c.
Proof. induction a as [|d a IH]; [done|]. rewrite !string_app_cons. intros [= ?]. auto. Qed.

Lemma string_prefix_app p s : String.prefix p s = true ↔ ∃ t, s = p +:+ t.
Proof.
  revert s. induction p as [|c p IH]; intros s.
  { split; [exists s; done|by destruct s]. }
  destruct s as [|d s]; simpl.
  { split; [done|]. intros [t Ht]. by rewrite string_app_cons in Ht. }
  destruct (ascii_dec c d) as [->|Hne].
  - rewrite IH. split; intros [t Ht]; exists t; rewrite string_app_cons in *; congruence.
  - split; [done|]. intros [t Ht]. rewrite string_app_cons in Ht. congruence.
Qed.

Lemma valid_utf8_app_inv a b :
  valid_utf8 a = true → valid_utf8 (a +:+ b) = true → valid_utf8 b = true.
Proof.
  remember (String.length a) as n eqn:Hn.
  revert a Hn; induction (lt_wf n) as [n _ IH]; intros a Hn Ha Hab; subst n.
  assert (∀ r, (String.length r < String.length a)%nat → valid_utf8 r = true →
    valid_utf8 (r +:+ b) = true → valid_utf8 b = true) as IH' by eauto. clear IH.
  destruct a as [|b0 a0]; [done|]. cbn [String.length] in IH'.
  rewrite string_app_cons in Hab. cbn [valid_utf8] in *.
  destruct (byte_of b0 <? 128); [by apply (IH' a0); [lia|..]|].
  destruct a0 as [|b1 a1]; [done|]. rewrite string_app_cons in Hab. destruct (byte_of b0 <? 224).
  { split_andb. by apply (IH' a1); [simpl; lia|..]. }
  destruct a1 as [|b2 a2]; [done|]. rewrite string_app_cons in Hab. destruct (byte_of b0 <? 240).
  { split_andb. by apply (IH' a2); [simpl; lia|..]. }
  destruct a2 as [|b3 a3]; [done|]. rewrite string_app_cons in Hab. split_andb.
  by apply (IH' a3); [simpl; lia|..].
Qed.

(** A valid string is valid on both sides of a single-byte character. *)
Lemma valid_utf8_split a c b :
  byte_of c < 128 → valid_utf8 (a +:+ String c b) = true →
  valid_utf8 a = true ∧ valid_utf8 b = true.
Proof.
  intros Hc. remember (String.length a) as n eqn:Hn.
  revert a Hn; induction (lt_wf n) as [n _ IH]; intros a Hn Ha; subst n.
  assert (∀ r, (String.length r < String.length a)%nat →
    valid_utf8 (r +:+ String c b) = true → valid_utf8 r = true ∧ valid_utf8 b = true)
    as IH' by eauto. clear IH.
  assert (Hcont : is_continuation c = false).
  { unfold is_continuation. destruct (Z.leb_spec 128 (byte_of c)); [lia|done]. }
  destruct a as [|b0 a0].
  { change (valid_utf8 (String c b) = true) in Ha. cbn [valid_utf8] in Ha.
    rewrite (proj2 (Z.ltb_lt _ _) Hc) in Ha. done. }
  cbn [String.length] in IH'. rewrite string_app_cons in Ha. cbn [valid_utf8] in *.
  destruct (byte_of b0 <? 128); [apply IH'; [lia|done]|].
  destruct a0 as [|b1 a1];
    [change (EmptyString +:+ String c b) with (String c b) in Ha|rewrite string_app_cons in Ha].
  { exfalso. destruct (byte_of b0 <? 224); rewrite Hcont in Ha; [by rewrite andb_false_r in Ha|].
    destruct b as [|d b]; [done|]. destruct (byte_of b0 <? 240); [done|].
    destruct b; [done|]. by rewrite andb_false_r in Ha. }
  destruct (byte_of b0 <? 224).
  { split_andb. rewrite H, H1. apply IH'; [simpl; lia|done]. }
  destruct a1 as [|b2 a2];
    [change (EmptyString +:+ String c b) with (String c b) in Ha|rewrite string_app_cons in Ha].
  { exfalso. destruct (byte_of b0 <? 240); [rewrite Hcont, andb_false_r in Ha; done|].
    destruct b; [done|]. rewrite Hcont, andb_false_r in Ha. done. }
  destruct (byte_of b0 <? 240).
  { split_andb. rewrite H, H3, H2, H1. apply IH'; [simpl; lia|done]. }
  destruct a2 as [|b3 a3];
    [change (EmptyString +:+ String c b) with (String c b) in Ha|rewrite string_app_cons in Ha].
  { exfalso. cbv beta iota in Ha. rewrite Hcont, andb_false_r in Ha. done. }
  split_andb. rewrite H, H5, H4, H3, H2, H1. apply IH'; [simpl; lia|done].
Qed.

(** The characters of a concatenation. *)
Lemma chars_app a b : valid_utf8 a = true → chars (a +:+ b) = chars a ++ chars b.
Proof.
  remember (String.length a) as n eqn:Hn.
  revert a Hn; induction (lt_wf n) as [n _ IH]; intros a Hn Ha; subst n.
  assert (∀ r, (String.length r < String.length a)%nat → valid_utf8 r = true →
    chars (r +:+ b) = chars r ++ chars b) as IH' by eauto. clear IH.
  destruct a as [|b0 a0]; [done|]. cbn [String.length] in IH'.
  rewrite string_app_cons. cbn [valid_utf8 chars] in *.
  destruct (byte_of b0 <? 128); [rewrite IH'; [done|lia|done]|].
  destruct a0 as [|b1 a1]; [done|]. rewrite string_app_cons. destruct (byte_of b0 <? 224).
  { split_andb. rewrite IH'; [done|simpl; lia|done]. }
  destruct a1 as [|b2 a2]; [done|]. rewrite string_app_cons. destruct (byte_of b0 <? 240).
  { split_andb. rewrite IH'; [done|simpl; lia|done]. }
  destruct a2 as [|b3 a3]; [done|]. rewrite string_app_cons. split_andb.
  rewrite IH'; [done|simpl; lia|done].
Qed.

(** A valid string begins at a boundary wherever it is embedded. *)
Lemma boundary_app a b : valid_utf8 b = true → boundary_at (a +:+ b) (String.length a) = true.
Proof.
  intros Hb. unfold boundary_at. rewrite string_get_app.
  pose proof (is_char_boundary_at b 0 Hb) as H0. change (true = boundary_at b 0) in H0.
  unfold boundary_at in H0. destruct b as [|c b]; [|done].
  simpl. rewrite string_app_nil_r. by rewrite Nat.eqb_refl.
Qed.

Lemma char_boundary_app a b :
  valid_utf8 b = true → is_char_boundary (a +:+ b) (String.length a) = true.
Proof.
  intros Hb. pose proof (boundary_app a b Hb) as H. unfold is_char_boundary.
  destruct (String.length a =? 0)%nat; [done|]. exact H.
Qed.

(** Cutting a valid string before a valid non-empty one leaves valid parts. *)
Lemma valid_utf8_cut a n b :
  valid_utf8 n = true → n ≠ EmptyString → valid_utf8 (a +:+ (n +:+ b)) = true →
  valid_utf8 a = true ∧ valid_utf8 b = true.
Proof.
  intros Hn Hne H.
  assert (Hb : boundary_at (a +:+ (n +:+ b)) (String.length a) = true).
  { unfold boundary_at. rewrite string_get_app. destruct n as [|c n]; [done|].
    rewrite string_app_cons.
    pose proof (is_char_boundary_at (String c n) 0 Hn) as H0. symmetry. exact H0. }
  assert (Ha : valid_utf8 a = true).
  { pose proof (valid_utf8_prefix _ _ H Hb) as Hp. by rewrite substring_app_l in Hp. }
  split; [done|]. eauto using valid_utf8_app_inv.
Qed.

(** ** Decimal numbers *)

Lemma pretty_N_all f (n : N) :
  (∀ d, (d < 10)%N → f (pretty_N_char d) = true) → all_chars f (pretty n) = true.
Proof.
  intros Hd. unfold pretty, pretty_N. destruct (decide (n = 0)%N) as [|Hn].
  { cbn [all_chars]. change "0"%char with (pretty_N_char 0). by rewrite Hd. }
  assert (all_chars f EmptyString = true) as H0 by done. revert H0. generalize EmptyString as s.
  induction (N.lt_wf_0 n) as [n _ IH]. intros s Hs.
  destruct (decide (n = 0)%N) as [->|]; [by rewrite pretty_N_go_0|].
  rewrite pretty_N_go_step by lia.
  assert (all_chars f (String (pretty_N_char (n `mod` 10)) s) = true) as Hs'.
  { cbn [all_chars]. rewrite Hd; [done|]. apply N.mod_lt. lia. }
  destruct (decide (n / 10 = 0)%N) as [->|]; [by rewrite pretty_N_go_0|].
  apply IH; [apply N.div_lt; lia|done|done].
Qed.

Lemma decimal_digits (f : ascii → bool) (d : N) :
  forallb f ["0"; "1"; "2"; "3"; "4"; "5"; "6"; "7"; "8"; "9"]%char = true → (d < 10)%N →
  f (pretty_N_char d) = true.
Proof.
  intros Hf Hd. assert (d ∈ [0; 1; 2; 3; 4; 5; 6; 7; 8; 9])%N as Hin.
  { apply list_elem_of_In. simpl. lia. }
  rewrite forallb_forall in Hf. apply Hf.
  repeat (apply elem_of_cons in Hin as [->|Hin]; [simpl; tauto|]). by apply not_elem_of_nil in Hin.
Qed.

(** The decimal text of a natural number consists of digits. *)
Lemma pretty_digits (f : ascii → bool) (z : Z) :
  forallb f ["0"; "1"; "2"; "3"; "4"; "5"; "6"; "7"; "8"; "9"]%char = true → 0 <= z →
  all_chars f (pretty z) = true.
Proof.
  intros Hf Hz. assert (∀ m : N, all_chars f (pretty m) = true) as HN.
  { intros m. apply pretty_N_all. intros d. by apply decimal_digits. }
  unfold pretty, pretty_Z. destruct z as [|p|p]; [|apply (HN (Npos p))|lia].
  exact (HN 0%N).
Qed.

Lemma ascii_only_valid s : ascii_only s = true → valid_utf8 s = true.
Proof.
  induction s as [|c s IH]; [done|]. cbn [ascii_only valid_utf8]. intros H. split_andb.
  rewrite H. auto.
Qed.

Lemma ascii_only_app a b : ascii_only (a +:+ b) = ascii_only a && ascii_only b.
Proof.
  induction a as [|c a IH]; [done|]. rewrite string_app_cons. cbn [ascii_only].
  by rewrite IH, andb_assoc.
Qed.

Lemma ascii_only_all s : ascii_only s = all_chars (λ c, byte_of c <? 128) s.
Proof. induction s as [|c s IH]; [done|]. cbn [ascii_only all_chars]. by rewrite IH. Qed.
