(* ===== verification/RecordId.v ===== *)
(** * Record identifiers ([src/crates/project-record/src/lib.rs])

    Record ids are Unix epoch milliseconds written as thirteen Crockford base-32
    digits.  The file models the encoder, the decoder with its error cases and the
    bounded collision-avoiding allocation, and shows that decoding inverts encoding,
    that the accepted ids are exactly the encodings, that lexical order is timestamp
    order, and what the allocation loop returns. *)
From Stdlib Require Import ZArith String Ascii List Lia.
From stdpp Require Import base tactics numbers list strings.
From S2P Require Import Prelude.

Module RecordId.

(** ** Constants and errors *)

Definition RECORD_ID_WIDTH : nat := 13.
Definition ALPHABET_BYTES : string := "0123456789ABCDEFGHJKMNPQRSTVWXYZ".
Definition MAX_COLLISION_PROBES : nat := 1000.

Inductive RecordIdError :=
| InvalidLength (value : string)
| InvalidCharacter (value : string) (ch : Z)
| TimestampOverflow
| TimeBeforeUnixEpoch
| ExcessiveCollisions (base_millis attempts : Z).

(** ** Operations *)

(** [unix_epoch_millis_now]: [clock] is what [duration_since(UNIX_EPOCH)] returned,
    in milliseconds ([u128]); [None] is a clock set before the epoch. *)
Definition unix_epoch_millis_now (clock : option Z) : result Z RecordIdError :=
  let? millis := ok_or clock TimeBeforeUnixEpoch in
  if millis <=? U64_MAX then Ok millis else Err TimestampOverflow.

(** [ALPHABET_BYTES[i]]. *)
Definition alphabet_at (i : Z) : ascii :=
  match String.get (Z.to_nat i) ALPHABET_BYTES with
  | Some c => c
  | None => "0"%char
  end.

(** The loop over [out.iter_mut().rev()]: slots are filled from the last one. *)
Fixpoint encode_slots (slots : nat) (value : Z) (filled : string) : string :=
  match slots with
  | O => filled
  | S slots =>
      encode_slots slots (Z.shiftr value 5)
        (String (alphabet_at (Z.land value 31)) filled)
  end.

Definition encode_unix_epoch_millis (millis : Z) : string :=
  encode_slots RECORD_ID_WIDTH millis EmptyString.

(** Character ranges of the source's [match ch]. *)
Definition in_range (lo hi : ascii) (ch : Z) : bool :=
  (byte_of lo <=? ch) && (ch <=? byte_of hi).

Definition decode_digit (ch : Z) (value : string) : result Z RecordIdError :=
  if in_range "0" "9" ch then Ok (ch - byte_of "0")
  else if in_range "A" "H" ch then Ok (ch - byte_of "A" + 10)
  else if in_range "J" "K" ch then Ok (ch - byte_of "J" + 18)
  else if in_range "M" "N" ch then Ok (ch - byte_of "M" + 20)
  else if in_range "P" "T" ch then Ok (ch - byte_of "P" + 22)
  else if in_range "V" "Z" ch then Ok (ch - byte_of "V" + 27)
  else Err (InvalidCharacter value ch).

(** The loop of [decode_unix_epoch_millis] over [id.chars()]. *)
Fixpoint decode_chars (cs : list Z) (id : string) (value : Z) : result Z RecordIdError :=
  match cs with
  | [] => Ok value
  | ch :: cs =>
      let? digit := decode_digit ch id in
      let? value :=
        ok_or (checked_mul_u64 value 32 ≫= λ v, checked_add_u64 v digit)
          TimestampOverflow in
      decode_chars cs id value
  end.

Definition decode_unix_epoch_millis (id : string) : result Z RecordIdError :=
  if negb (String.length id =? RECORD_ID_WIDTH)%nat then Err (InvalidLength id)
  else decode_chars (chars id) id 0.

Definition validate_record_id (id : string) : result unit RecordIdError :=
  let? _ := decode_unix_epoch_millis id in Ok tt.

(** [allocate_record_id]: [exists_] is the caller's [FnMut(&str) -> bool], with its
    captured state passed explicitly.  [todo] probes remain, [offset] is the loop
    variable. *)
Fixpoint allocate_loop {S} (exists_ : S → string → S * bool)
    (todo : nat) (base_millis offset : Z) (s : S) : S * result string RecordIdError :=
  match todo with
  | O => (s, Err (ExcessiveCollisions base_millis (Z.of_nat MAX_COLLISION_PROBES)))
  | S todo =>
      match checked_add_u64 base_millis offset with
      | None => (s, Err TimestampOverflow)
      | Some millis =>
          let id := encode_unix_epoch_millis millis in
          let '(s, taken) := exists_ s id in
          if taken then allocate_loop exists_ todo base_millis (offset + 1) s
          else (s, Ok id)
      end
  end.

Definition allocate_record_id {S} (exists_ : S → string → S * bool)
    (base_millis : Z) (s : S) : S * result string RecordIdError :=
  allocate_loop exists_ MAX_COLLISION_PROBES base_millis 0 s.

(** A [u64] value. *)
Definition u64 (v : Z) : Prop := 0 <= v <= U64_MAX.

(** What the allocation promises, for a stateless [taken] predicate: the first free
    candidate among the probed timestamps, or the reason there is none. *)
Inductive allocation_outcome (taken : string → bool) (base : Z)
  : result string RecordIdError → Prop :=
| alloc_free k :
    0 <= k < Z.of_nat MAX_COLLISION_PROBES → base + k <= U64_MAX →
    (∀ j, 0 <= j < k → taken (encode_unix_epoch_millis (base + j)) = true) →
    taken (encode_unix_epoch_millis (base + k)) = false →
    allocation_outcome taken base (Ok (encode_unix_epoch_millis (base + k)))
| alloc_overflow k :
    0 <= k < Z.of_nat MAX_COLLISION_PROBES → base + k = U64_MAX + 1 →
    (∀ j, 0 <= j < k → taken (encode_unix_epoch_millis (base + j)) = true) →
    allocation_outcome taken base (Err TimestampOverflow)
| alloc_exhausted :
    base + Z.of_nat MAX_COLLISION_PROBES - 1 <= U64_MAX →
    (∀ j, 0 <= j < Z.of_nat MAX_COLLISION_PROBES →
       taken (encode_unix_epoch_millis (base + j)) = true) →
    allocation_outcome taken base
      (Err (ExcessiveCollisions base (Z.of_nat MAX_COLLISION_PROBES))).

(** ** The digit tables agree *)

Lemma alphabet_decodes k id :
  0 <= k < 32 →
  decode_digit (byte_of (alphabet_at k)) id = Ok k ∧ byte_of (alphabet_at k) < 128.
Proof.
  intros Hk. assert (k ∈ Z.of_nat <$> seq 0 32) as Hin.
  { apply list_elem_of_fmap. exists (Z.to_nat k). rewrite elem_of_seq. lia. }
  repeat (apply elem_of_cons in Hin as [->|Hin]; [by split|]).
  by apply not_elem_of_nil in Hin.
Qed.

Lemma decode_digit_alphabet c id k :
  decode_digit (byte_of c) id = Ok k → 0 <= k < 32 ∧ alphabet_at k = c.
Proof.
  destruct c as [[] [] [] [] [] [] [] []]; vm_compute; intros H;
    first [discriminate H | injection H as <-; repeat split; discriminate].
Qed.

Lemma decode_digit_ascii ch id k : decode_digit ch id = Ok k → 0 <= ch < 128.
Proof.
  unfold decode_digit, in_range.
  change (byte_of "0") with 48. change (byte_of "9") with 57.
  change (byte_of "A") with 65. change (byte_of "H") with 72.
  change (byte_of "J") with 74. change (byte_of "K") with 75.
  change (byte_of "M") with 77. change (byte_of "N") with 78.
  change (byte_of "P") with 80. change (byte_of "T") with 84.
  change (byte_of "V") with 86. change (byte_of "Z") with 90.
  intros H. repeat case_in H; simplify_eq; zbool; lia.
Qed.

Lemma alphabet_compare i j :
  0 <= i < 32 → 0 <= j < 32 →
  Ascii.compare (alphabet_at i) (alphabet_at j) = (i ?= j).
Proof.
  intros Hi Hj.
  assert (∀ k, 0 <= k < 32 → k ∈ Z.of_nat <$> seq 0 32) as Hall.
  { intros k Hk. apply list_elem_of_fmap. exists (Z.to_nat k).
    rewrite elem_of_seq. lia. }
  assert (forallb (λ a, forallb (λ b,
    bool_decide (Ascii.compare (alphabet_at a) (alphabet_at b) = (a ?= b)))
    (Z.of_nat <$> seq 0 32)) (Z.of_nat <$> seq 0 32) = true) as Hcheck
    by (vm_compute; reflexivity).
  rewrite forallb_forall in Hcheck.
  specialize (Hcheck i (proj1 (list_elem_of_In _ _) (Hall i Hi))).
  rewrite forallb_forall in Hcheck.
  specialize (Hcheck j (proj1 (list_elem_of_In _ _) (Hall j Hj))).
  by apply bool_decide_eq_true in Hcheck.
Qed.

(** ** Positional arithmetic *)

Lemma low_digit_range v : 0 <= Z.land v 31 < 32.
Proof. change 31 with (Z.ones 5). rewrite Z.land_ones by lia. by apply Z.mod_pos_bound. Qed.

Lemma low_digit_mod v : Z.land v 31 = v mod 32.
Proof. change 31 with (Z.ones 5). by rewrite Z.land_ones. Qed.

Lemma next_digits_div v : Z.shiftr v 5 = v / 32.
Proof. by rewrite Z.shiftr_div_pow2. Qed.

Lemma pow32_pos (n : nat) : 0 < 32 ^ Z.of_nat n.
Proof. apply Z.pow_pos_nonneg; lia. Qed.

Lemma pow32_S (n : nat) : 32 ^ Z.of_nat (S n) = 32 * 32 ^ Z.of_nat n.
Proof. rewrite Nat2Z.inj_succ, Z.pow_succ_r; lia. Qed.

(** Splitting off the least significant digit. *)
Lemma mod_low_digit v n :
  v mod 32 ^ Z.of_nat (S n) = v mod 32 + 32 * ((v / 32) mod 32 ^ Z.of_nat n).
Proof. rewrite pow32_S. apply Z.rem_mul_r; [lia|]. pose proof (pow32_pos n). lia. Qed.

(** Splitting off the most significant digit. *)
Lemma mod_high_digit v n :
  v mod 32 ^ Z.of_nat (S n)
  = v mod 32 ^ Z.of_nat n + 32 ^ Z.of_nat n * ((v / 32 ^ Z.of_nat n) mod 32).
Proof.
  rewrite pow32_S, Z.mul_comm. pose proof (pow32_pos n). apply Z.rem_mul_r; lia.
Qed.

(** The encoder, read from the most significant digit. *)
Lemma encode_slots_high n v s :
  encode_slots (S n) v s
  = String (alphabet_at ((v / 32 ^ Z.of_nat n) mod 32)) (encode_slots n v s).
Proof.
  revert v s; induction n as [|n IH]; intros v s.
  - simpl. rewrite low_digit_mod, Z.pow_0_r, Z.div_1_r. done.
  - change (encode_slots (S (S n)) v s) with
      (encode_slots (S n) (Z.shiftr v 5) (String (alphabet_at (Z.land v 31)) s)).
    rewrite IH.
    replace (Z.shiftr v 5 / 32 ^ Z.of_nat n) with (v / 32 ^ Z.of_nat (S n)); [done|].
    pose proof (pow32_pos n). by rewrite next_digits_div, pow32_S, Z.div_div by lia.
Qed.

Lemma encode_slots_length n v s :
  String.length (encode_slots n v s) = (n + String.length s)%nat.
Proof.
  revert v s; induction n as [|n IH]; intros v s; simpl; [done|].
  rewrite IH. simpl. lia.
Qed.

Lemma encode_length v : String.length (encode_unix_epoch_millis v) = RECORD_ID_WIDTH.
Proof. unfold encode_unix_epoch_millis. by rewrite encode_slots_length. Qed.

(** ** Decoding an encoding *)

Lemma decode_encode_slots n v s id a :
  0 <= a → a * 32 ^ Z.of_nat n + v mod 32 ^ Z.of_nat n <= U64_MAX →
  decode_chars (chars (encode_slots n v s)) id a
  = decode_chars (chars s) id (a * 32 ^ Z.of_nat n + v mod 32 ^ Z.of_nat n).
Proof.
  revert v s; induction n as [|n IH]; intros v s Ha Hmax.
  - simpl. f_equal. rewrite Z.pow_0_r, Z.mod_1_r. lia.
  - pose proof (low_digit_range v) as Hd. pose proof (pow32_pos n) as Hpos.
    pose proof (Z.mod_pos_bound (v / 32) _ Hpos) as Hm.
    destruct (alphabet_decodes _ id Hd) as [Hdec Hlt].
    rewrite mod_low_digit, pow32_S, <- low_digit_mod in *.
    assert (a * 32 ^ Z.of_nat n + (v / 32) mod 32 ^ Z.of_nat n <= U64_MAX) by nia.
    simpl encode_slots. rewrite next_digits_div, IH by done.
    rewrite chars_cons_ascii by done. simpl. rewrite Hdec.
    unfold checked_mul_u64, checked_add_u64.
    rewrite (proj2 (Z.leb_le _ _)) by lia. simpl.
    rewrite (proj2 (Z.leb_le _ _)) by lia. simpl. f_equal. lia.
Qed.

Lemma u64_mod_width v : u64 v → v mod 32 ^ Z.of_nat RECORD_ID_WIDTH = v.
Proof.
  unfold u64, U64_MAX. change (32 ^ Z.of_nat RECORD_ID_WIDTH) with (2 ^ 65).
  intros. apply Z.mod_small. lia.
Qed.

Lemma decode_encode v : u64 v → decode_unix_epoch_millis (encode_unix_epoch_millis v) = Ok v.
Proof.
  intros Hv. unfold decode_unix_epoch_millis. rewrite encode_length. cbn [negb Nat.eqb].
  unfold encode_unix_epoch_millis. pose proof (u64_mod_width v Hv) as Hmod.
  unfold u64 in Hv.
  rewrite decode_encode_slots; rewrite ?Hmod; [simpl; f_equal; lia|lia|lia].
Qed.

(** ** Accepted ids are encodings *)

Lemma decode_chars_canonical s id a v :
  ascii_only s = true → 0 <= a →
  decode_chars (chars s) id a = Ok v →
  v <= Z.max a U64_MAX ∧ v / 32 ^ Z.of_nat (String.length s) = a ∧
  ∀ t, encode_slots (String.length s) v t = s +:+ t.
Proof.
  revert a; induction s as [|c s IH]; intros a Hs Ha Hdec.
  - injection Hdec as ->. rewrite Z.pow_0_r, Z.div_1_r. repeat split; lia.
  - simpl in Hs. zbool. rewrite chars_cons_ascii in Hdec by done. simpl in Hdec.
    destruct (decode_digit (byte_of c) id) as [d|] eqn:Hd; [|done].
    apply decode_digit_alphabet in Hd as [Hd Hc].
    unfold checked_mul_u64, checked_add_u64 in Hdec.
    destruct (a * 32 <=? U64_MAX) eqn:?; simpl in Hdec; [|done].
    destruct (a * 32 + d <=? U64_MAX) eqn:?; simpl in Hdec; [|done]. zbool.
    apply IH in Hdec as (Hle & Hdiv & Henc); [|done|lia].
    pose proof (pow32_pos (String.length s)).
    repeat split; [lia| |intros t].
    + simpl String.length. rewrite pow32_S, Z.mul_comm, <- Z.div_div by lia.
      rewrite Hdiv, Z.add_comm, Z.div_add by lia. rewrite Z.div_small; lia.
    + simpl String.length. rewrite encode_slots_high, Hdiv, Henc.
      replace ((a * 32 + d) mod 32) with d; [by rewrite Hc|].
      rewrite Z.add_comm, Z.mod_add by lia. by rewrite Z.mod_small.
Qed.

Lemma decode_chars_nonneg cs id a v : 0 <= a → decode_chars cs id a = Ok v → 0 <= v.
Proof.
  revert a; induction cs as [|ch cs IH]; intros a Ha; simpl; [by intros [= <-]|].
  destruct (decode_digit ch id) as [d|] eqn:Hd; [|done].
  pose proof (decode_digit_ascii _ _ _ Hd) as Hch.
  unfold checked_mul_u64, checked_add_u64.
  destruct (a * 32 <=? U64_MAX); simpl; [|done].
  destruct (a * 32 + d <=? U64_MAX); simpl; [|done].
  apply IH. assert (0 <= d); [|lia].
  unfold decode_digit, in_range in Hd. repeat case_in Hd; simplify_eq; zbool; lia.
Qed.

Lemma decode_chars_ascii cs id a v :
  decode_chars cs id a = Ok v → Forall (λ c, c < 128) cs.
Proof.
  revert a; induction cs as [|ch cs IH]; intros a; simpl; [done|].
  destruct (decode_digit ch id) as [d|] eqn:Hd; [|done].
  apply decode_digit_ascii in Hd.
  destruct (ok_or _ _) as [w|]; [|done]. intros. constructor; [lia|eauto].
Qed.

(** ** Lexical order *)

Lemma encode_slots_compare n v1 v2 s :
  String.compare (encode_slots n v1 s) (encode_slots n v2 s)
  = (v1 mod 32 ^ Z.of_nat n ?= v2 mod 32 ^ Z.of_nat n).
Proof.
  induction n as [|n IH].
  - simpl encode_slots. rewrite Z.pow_0_r, !Z.mod_1_r.
    induction s as [|c s IHs]; [done|]. simpl.
    by replace (Ascii.compare c c) with Eq by
      (by unfold Ascii.compare; rewrite N.compare_refl).
  - rewrite !encode_slots_high. simpl String.compare.
    pose proof (pow32_pos n) as Hp.
    pose proof (Z.mod_pos_bound (v1 / 32 ^ Z.of_nat n) 32 ltac:(lia)).
    pose proof (Z.mod_pos_bound (v2 / 32 ^ Z.of_nat n) 32 ltac:(lia)).
    pose proof (Z.mod_pos_bound v1 _ Hp). pose proof (Z.mod_pos_bound v2 _ Hp).
    rewrite alphabet_compare, IH, (mod_high_digit v1), (mod_high_digit v2) by done.
    destruct (Z.compare_spec ((v1 / 32 ^ Z.of_nat n) mod 32) ((v2 / 32 ^ Z.of_nat n) mod 32))
      as [->|Hlt|Hgt].
    + by rewrite Z.add_comm, (Z.add_comm (v2 mod _)), Z.add_compare_mono_l.
    + symmetry. apply Z.compare_lt_iff. nia.
    + symmetry. apply Z.compare_gt_iff. nia.
Qed.

(** ** Allocation *)

Lemma allocate_loop_outcome (taken : string → bool) todo base offset :
  0 <= base → 0 <= offset →
  Z.of_nat todo + offset = Z.of_nat MAX_COLLISION_PROBES →
  base + offset <= U64_MAX + 1 →
  (∀ j, 0 <= j < offset → taken (encode_unix_epoch_millis (base + j)) = true) →
  allocation_outcome taken base
    (snd (allocate_loop (λ (_ : unit) id, (tt, taken id)) todo base offset tt)).
Proof.
  revert offset; induction todo as [|todo IH]; intros offset Hb Ho Hsum Hmax Htaken.
  - simpl allocate_loop. apply alloc_exhausted; [lia|].
    intros j Hj. apply Htaken. lia.
  - simpl allocate_loop. unfold checked_add_u64.
    destruct (base + offset <=? U64_MAX) eqn:Hle; zbool.
    + destruct (taken _) eqn:Ht.
      * apply IH; [lia..|]. intros j Hj.
        destruct (decide (j = offset)) as [->|]; [done|]. apply Htaken. lia.
      * simpl. apply alloc_free; [lia|done|done|done].
    + simpl. apply (alloc_overflow _ _ offset); [lia|lia|done].
Qed.

(** ** Properties *)

(** C38.  Decoding inverts encoding on the whole range of 64-bit timestamps. *)
Theorem decode_encode_roundtrip (millis : Z) :
  u64 millis →
  decode_unix_epoch_millis (encode_unix_epoch_millis millis) = Ok millis.
Proof. apply decode_encode. Qed.

Lemma decode_encode_roundtrip_witness :
  decode_unix_epoch_millis (encode_unix_epoch_millis 1782554447000) = Ok 1782554447000.
Proof. apply (decode_encode_roundtrip 1782554447000). unfold u64, U64_MAX. lia. Defined.

(** The decoder accepts exactly the encodings of 64-bit timestamps: an accepted id
    is the encoding of the value returned, and the value fits in a [u64]. *)
Theorem decode_accepts_encodings_only (id : string) (v : Z) :
  valid_utf8 id = true →
  decode_unix_epoch_millis id = Ok v ↔ u64 v ∧ id = encode_unix_epoch_millis v.
Proof.
  intros Hvalid. split; [|intros [Hv ->]; by apply decode_encode].
  unfold decode_unix_epoch_millis.
  destruct (String.length id =? RECORD_ID_WIDTH)%nat eqn:Hlen; [|done].
  apply Nat.eqb_eq in Hlen. simpl negb. intros Hdec. cbn match in Hdec.
  pose proof (valid_chars_ascii _ Hvalid (decode_chars_ascii _ _ _ _ Hdec)) as Hasc.
  pose proof (decode_chars_nonneg _ _ _ _ ltac:(done) Hdec).
  apply decode_chars_canonical in Hdec as (Hle & _ & Henc); [|done|done].
  split; [unfold u64, U64_MAX in *; lia|].
  unfold encode_unix_epoch_millis. rewrite <- Hlen, Henc. by rewrite string_app_nil_r.
Qed.

Lemma decode_accepts_encodings_only_witness :
  u64 32 ∧ "0000000000010" = encode_unix_epoch_millis 32.
Proof.
  apply (decode_accepts_encodings_only "0000000000010" 32); vm_compute; reflexivity.
Defined.

(** Lexical order of ids is timestamp order: comparing two ids byte by byte gives
    the comparison of the encoded timestamps. *)
Theorem encode_order_preserving (m1 m2 : Z) :
  u64 m1 → u64 m2 →
  String.compare (encode_unix_epoch_millis m1) (encode_unix_epoch_millis m2) = (m1 ?= m2).
Proof.
  intros H1 H2. unfold encode_unix_epoch_millis.
  by rewrite encode_slots_compare, !u64_mod_width.
Qed.

Lemma encode_order_preserving_witness :
  String.compare (encode_unix_epoch_millis 33) (encode_unix_epoch_millis 1024) = Lt.
Proof. apply (encode_order_preserving 33 1024); unfold u64, U64_MAX; lia. Defined.

(** The allocation loop returns the first free candidate among the thousand
    timestamps from the base on; it reports [TimestampOverflow] only when the
    candidates run past the largest [u64], and [ExcessiveCollisions] only when all
    thousand candidates are taken. *)
Theorem allocate_first_free (taken : string → bool) (base : Z) :
  u64 base →
  allocation_outcome taken base
    (snd (allocate_record_id (λ (_ : unit) id, (tt, taken id)) base tt)).
Proof.
  intros [Hb Hm]. apply allocate_loop_outcome; [done|done|done|lia|]. intros; lia.
Qed.

Lemma allocate_first_free_witness :
  allocation_outcome (λ id, bool_decide (id = encode_unix_epoch_millis 41)) 41
    (snd (allocate_record_id
      (λ (_ : unit) id, (tt, bool_decide (id = encode_unix_epoch_millis 41))) 41 tt)).
Proof.
  apply (allocate_first_free (λ id, bool_decide (id = encode_unix_epoch_millis 41)) 41).
  unfold u64, U64_MAX. lia.
Defined.

End RecordId.
