(* ===== verification/Paths.v ===== *)
(** * Paths of the Rust standard library ([std::path] on Unix)

    Scope rules and Worker allocations compare paths by component, which is also how
    [Path::eq], [Path::starts_with], [Path::parent] and [Path::file_name] are defined:
    a path is modelled by its sequence of components.  [parse_path] is
    [Path::components] on the textual form. *)
From Stdlib Require Import ZArith String Ascii List Lia.
From stdpp Require Import base tactics numbers list strings.
From S2P Require Import Prelude.

(** [std::path::Component]; Unix paths have no prefix component. *)
Inductive component :=
| RootDir
| CurDir
| ParentDir
| Normal (name : string).

#[export] Instance component_eq_dec : EqDecision component.
Proof. solve_decision. Defined.

Abbreviation path := (list component).

(** ** Operations *)

(** Splitting the textual form at the separators. *)
Fixpoint split_slash (s cur : string) : list string :=
  match s with
  | EmptyString => [cur]
  | String c r =>
      if Ascii.eqb c "/" then cur :: split_slash r EmptyString
      else split_slash r (cur +:+ String c EmptyString)
  end.

(** One segment of the textual form; [first] is whether a leading ["."] is kept. *)
Definition segment_component (first : bool) (seg : string) : list component :=
  if bool_decide (seg = EmptyString) then []
  else if bool_decide (seg = ".") then (if first then [CurDir] else [])
  else if bool_decide (seg = "..") then [ParentDir]
  else [Normal seg].

(** [Path::components]. *)
Definition parse_path (s : string) : path :=
  match split_slash s EmptyString with
  | [] => []
  | seg :: rest =>
      (if starts_with_char "/" s then [RootDir] else segment_component true seg)
      ++ flat_map (segment_component false) rest
  end.

(** [Path::is_absolute]. *)
Definition is_absolute (p : path) : bool :=
  match p with RootDir :: _ => true | _ => false end.

(** [self.starts_with(base)]. *)
Fixpoint starts_with (self base : path) {struct base} : bool :=
  match base, self with
  | [], _ => true
  | b :: base, c :: self => bool_decide (c = b) && starts_with self base
  | _ :: _, [] => false
  end.

(** [Path::parent]: all but the last component; the root and the empty path have
    none. *)
Definition parent (p : path) : option path :=
  match last p with
  | None | Some RootDir => None
  | Some _ => Some (removelast p)
  end.

(** [Path::file_name]. *)
Definition file_name (p : path) : option string :=
  match last p with
  | Some (Normal name) => Some name
  | _ => None
  end.

(** [PathBuf::push] of a relative component. *)
Definition push (p : path) (name : string) : path := p ++ [Normal name].

(** [PathBuf::pop]: whether a component was removed, and the path after it. *)
Definition pop (p : path) : bool * path :=
  match parent p with
  | Some q => (true, q)
  | None => (false, p)
  end.

(** A normalized absolute path: the root followed by names. *)
Definition is_normal (c : component) : bool :=
  match c with Normal _ => true | _ => false end.

Definition normalized (p : path) : bool :=
  match p with
  | RootDir :: r => forallb is_normal r
  | _ => false
  end.

(** ** Lemmas *)

Lemma starts_with_prefix self base : starts_with self base = true ↔ base `prefix_of` self.
Proof.
  revert self; induction base as [|b base IH]; intros self; simpl.
  - split; [|done]. intros _. apply prefix_nil.
  - destruct self as [|c self].
    + split; [done|]. by intros [k Hk].
    + rewrite andb_true_iff, bool_decide_eq_true, IH. split.
      * intros [-> H]. by apply prefix_cons.
      * intros H. split; [symmetry; by eapply prefix_cons_inv_1|by eapply prefix_cons_inv_2].
Qed.

Lemma starts_with_refl p : starts_with p p = true.
Proof. by apply starts_with_prefix. Qed.

Lemma starts_with_trans a b c :
  starts_with a b = true → starts_with b c = true → starts_with a c = true.
Proof. rewrite !starts_with_prefix. intros. by etrans. Qed.

Lemma parent_Some p q : parent p = Some q ↔ ∃ c, c ≠ RootDir ∧ p = q ++ [c].
Proof.
  unfold parent. destruct p as [|c p' _] using rev_ind; simpl.
  { split; [done|]. intros (c & _ & H). by apply app_cons_not_nil in H. }
  rewrite last_snoc, removelast_last. split.
  - destruct c; intros [= <-]; eexists; (split; [|done]); done.
  - intros (d & Hd & [-> [= ->]]%app_inj_tail_iff). by destruct d.
Qed.

Lemma parent_push p name : parent (push p name) = Some p.
Proof. apply parent_Some. by exists (Normal name). Qed.

Lemma parent_starts_with p q : parent p = Some q → starts_with p q = true.
Proof.
  intros (c & _ & ->)%parent_Some. apply starts_with_prefix. by apply prefix_app_r.
Qed.

Lemma parent_ne p : parent p ≠ Some p.
Proof.
  intros (c & _ & H)%parent_Some. apply (f_equal length) in H.
  rewrite length_app in H. simpl in H. lia.
Qed.

Lemma push_starts_with p q name : starts_with p q = true → starts_with (push p name) q = true.
Proof. rewrite !starts_with_prefix. intros. by apply prefix_app_r. Qed.

Lemma push_ne p name : push p name ≠ p.
Proof. intros H. apply (f_equal length) in H. unfold push in H. rewrite length_app in H. simpl in H. lia. Qed.

(** A path below [base] is [base] itself or has a parent below [base]. *)
Lemma starts_with_cases p base :
  starts_with p base = true →
  p = base ∨ ∃ q c, p = q ++ [c] ∧ starts_with q base = true.
Proof.
  rewrite starts_with_prefix. intros [k ->].
  destruct k as [|c k _] using rev_ind; [left; by rewrite app_nil_r|].
  right. exists (base ++ k), c. rewrite app_assoc. split; [done|].
  apply starts_with_prefix. by apply prefix_app_r.
Qed.

#[export] Hint Resolve starts_with_refl starts_with_trans parent_starts_with
  parent_push push_starts_with : yoi.
