(* ===== verification/Scope.v ===== *)
(** * Path authority and delegation scopes

    Models [src/crates/manifest/src/scope.rs] with the rule types of
    [src/crates/protocol/src/lib.rs]: rule resolution against a filesystem, the
    effective permission of a path, the containment and overlap tests used to
    attenuate authority, and the operations that layer rules on a live scope. *)
From Stdlib Require Import ZArith String Ascii List Lia.
From stdpp Require Import base tactics numbers list strings.
From S2P Require Import Prelude Paths.

(** ** Rule types *)

(** [Permission], ordered [Read < Write]. *)
Inductive Permission := Read | Write.

(** [SymlinkPolicy], ordered [Resolved < Logical]; [Resolved] is the default. *)
Inductive SymlinkPolicy := Resolved | Logical.

Record ScopeRule := mkScopeRule {
  target : path;
  permission : Permission;
  recursive : bool;
  symlink_policy : SymlinkPolicy
}.

Record ScopeConfig := mkScopeConfig {
  config_allow : list ScopeRule;
  config_deny : list ScopeRule
}.

(** [ResolvedRule]: both identities of the target are retained. *)
Record ResolvedRule := mkResolvedRule {
  logical_target : path;
  resolved_target : path;
  r_permission : Permission;
  r_recursive : bool;
  r_symlink_policy : SymlinkPolicy
}.

#[export] Instance Permission_eq_dec : EqDecision Permission.
Proof. solve_decision. Defined.
#[export] Instance SymlinkPolicy_eq_dec : EqDecision SymlinkPolicy.
Proof. solve_decision. Defined.
#[export] Instance ScopeRule_eq_dec : EqDecision ScopeRule.
Proof. solve_decision. Defined.
#[export] Instance ResolvedRule_eq_dec : EqDecision ResolvedRule.
Proof. solve_decision. Defined.

(** The derived orderings. *)
Definition perm_leb (a b : Permission) : bool :=
  match a, b with Write, Read => false | _, _ => true end.
Definition perm_max (a b : Permission) : Permission := if perm_leb a b then b else a.
Definition perm_min (a b : Permission) : Permission := if perm_leb a b then a else b.
Definition policy_leb (a b : SymlinkPolicy) : bool :=
  match a, b with Logical, Resolved => false | _, _ => true end.

(** ** The filesystem the rules are resolved against

    Parameters of the model: what [std::fs::canonicalize] and
    [std::fs::symlink_metadata] answer on the host. *)
Inductive io_error := NotFound | InvalidInput | OtherIo (code : Z).

Record Fs := mkFs {
  canonicalize : path → result path io_error;
  is_symlink : path → bool
}.

Inductive ScopeError :=
| EmptyAllow
| RelativeTarget (p : path)
| ResolveTarget (p : path) (source : io_error).

Module Scope.

(** ** Path normalization and resolution *)

Definition normalize_step (acc : option path) (c : component) : option path :=
  match acc with
  | None => None
  | Some normalized =>
      match c with
      | RootDir => Some [RootDir]
      | CurDir => Some normalized
      | ParentDir => let '(popped, rest) := pop normalized in
                     if popped then Some rest else None
      | Normal part => Some (push normalized part)
      end
  end.

Definition normalize_path (p : path) : option path :=
  if negb (is_absolute p) then None
  else match foldl normalize_step (Some []) p with
       | Some normalized => if is_absolute normalized then Some normalized else None
       | None => None
       end.

(** The loop of [resolve_path]; the cursor is kept with its last component first, so
    that [cursor.parent()] is its tail. *)
Fixpoint resolve_loop (fs : Fs) (rcursor : list component) (missing : list string)
  : result path io_error :=
  match canonicalize fs (rev rcursor) with
  | Ok resolved =>
      ok_or (normalize_path (foldl push resolved (rev missing))) InvalidInput
  | Err NotFound =>
      if is_symlink fs (rev rcursor) then Err NotFound
      else match rcursor with
           | Normal name :: up => resolve_loop fs up (missing ++ [name])
           | _ => Err NotFound
           end
  | Err e => Err e
  end.

Definition resolve_path (fs : Fs) (p : path) : result path io_error :=
  resolve_loop fs (rev p) [].

Definition resolve_rule (fs : Fs) (rule : ScopeRule) : result ResolvedRule ScopeError :=
  if negb (is_absolute (target rule)) then Err (RelativeTarget (target rule))
  else
    let? logical := ok_or (normalize_path (target rule))
                      (ResolveTarget (target rule) (OtherIo 0)) in
    let? resolved := map_err (ResolveTarget (target rule)) (resolve_path fs logical) in
    Ok (mkResolvedRule logical resolved (permission rule) (recursive rule)
          (symlink_policy rule)).

(** ** Rule geometry *)

Inductive RuleIdentity := IdLogical | IdResolved.

Definition rule_target (rule : ResolvedRule) (identity : RuleIdentity) : path :=
  match identity with
  | IdLogical => logical_target rule
  | IdResolved => resolved_target rule
  end.

(** The identity an allow rule is matched in. *)
Definition policy_identity (policy : SymlinkPolicy) : RuleIdentity :=
  match policy with Resolved => IdResolved | Logical => IdLogical end.

(** [ResolvedRule::matches]. *)
Definition matches (rule : ResolvedRule) (p : path) (identity : SymlinkPolicy) : bool :=
  let tgt := rule_target rule (policy_identity identity) in
  if r_recursive rule then starts_with p tgt
  else bool_decide (p = tgt) || bool_decide (parent p = Some tgt).

Definition permission_covers (available requested : Permission) : bool :=
  match available, requested with
  | Write, Write | Write, Read | Read, Read => true
  | Read, Write => false
  end.

Definition permission_denies_requested (denied requested : Permission) : bool :=
  match denied, requested with
  | Write, Write | Read, Read | Read, Write => true
  | Write, Read => false
  end.

Definition direct_child (child parent_ : path) : bool :=
  match parent child with
  | Some candidate => bool_decide (candidate = parent_)
  | None => false
  end.

Definition recursive_and_non_recursive_sets_overlap
    (recursive_target non_recursive_target : path) : bool :=
  starts_with non_recursive_target recursive_target
  || bool_decide (recursive_target = non_recursive_target)
  || direct_child recursive_target non_recursive_target.

Definition rule_path_set_contains (available requested : ResolvedRule)
    (identity : RuleIdentity) : bool :=
  let available_target := rule_target available identity in
  let requested_target := rule_target requested identity in
  match r_recursive available, r_recursive requested with
  | true, _ => starts_with requested_target available_target
  | false, true => false
  | false, false => bool_decide (requested_target = available_target)
  end.

Definition rule_path_sets_overlap (left_ right_ : ResolvedRule)
    (identity : RuleIdentity) : bool :=
  let left_target := rule_target left_ identity in
  let right_target := rule_target right_ identity in
  match r_recursive left_, r_recursive right_ with
  | true, true =>
      starts_with left_target right_target || starts_with right_target left_target
  | true, false => recursive_and_non_recursive_sets_overlap left_target right_target
  | false, true => recursive_and_non_recursive_sets_overlap right_target left_target
  | false, false =>
      bool_decide (left_target = right_target)
      || direct_child left_target right_target
      || direct_child right_target left_target
  end.

Definition rule_covers (available requested : ResolvedRule) : bool :=
  permission_covers (r_permission available) (r_permission requested)
  && policy_leb (r_symlink_policy requested) (r_symlink_policy available)
  && rule_path_set_contains available requested
       (policy_identity (r_symlink_policy available)).

Definition denial_overlaps_requested (deny requested : ResolvedRule) : bool :=
  permission_denies_requested (r_permission deny) (r_permission requested)
  && (rule_path_sets_overlap deny requested IdLogical
      || rule_path_sets_overlap deny requested IdResolved).

(** ** Scopes *)

Record Scope := mkScope { allow : list ResolvedRule; deny : list ResolvedRule }.

Record DelegationScope := mkDelegationScope {
  d_allow : list ResolvedRule;
  d_deny : list ResolvedRule
}.

Definition empty : Scope := mkScope [] [].

Definition from_config (fs : Fs) (config : ScopeConfig) : result Scope ScopeError :=
  match config_allow config with
  | [] => Err EmptyAllow
  | _ =>
      let? allow := collect_results (resolve_rule fs) (config_allow config) in
      let? deny := collect_results (resolve_rule fs) (config_deny config) in
      Ok (mkScope allow deny)
  end.

Definition delegation_from_config (fs : Fs) (config : ScopeConfig)
  : result DelegationScope ScopeError :=
  let? allow := collect_results (resolve_rule fs) (config_allow config) in
  let? deny := collect_results (resolve_rule fs) (config_deny config) in
  Ok (mkDelegationScope allow deny).

(** [Scope::writable]. *)
Definition writable (fs : Fs) (root : path) : result Scope io_error :=
  let? root := ok_or (normalize_path root) InvalidInput in
  let? resolved_root := resolve_path fs root in
  Ok (mkScope [mkResolvedRule root resolved_root Write true Resolved] []).

(** [Scope::resolved_target]. *)
Definition rule_resolved_target (fs : Fs) (rule : ScopeRule) : result path ScopeError :=
  let? rule := resolve_rule fs rule in
  Ok (match r_symlink_policy rule with
      | Resolved => resolved_target rule
      | Logical => logical_target rule
      end).

(** The body shared by [Scope::allows_rule] and [DelegationScope::allows_rule]. *)
Definition rules_allow (allow deny : list ResolvedRule) (requested : ResolvedRule) : bool :=
  existsb (λ candidate, rule_covers candidate requested) allow
  && negb (existsb (λ d, denial_overlaps_requested d requested) deny).

Definition allows_rule (fs : Fs) (s : Scope) (requested : ScopeRule)
  : result bool ScopeError :=
  let? requested := resolve_rule fs requested in
  Ok (rules_allow (allow s) (deny s) requested).

Definition delegation_allows_rule (fs : Fs) (s : DelegationScope) (requested : ScopeRule)
  : result bool ScopeError :=
  let? requested := resolve_rule fs requested in
  Ok (rules_allow (d_allow s) (d_deny s) requested).

(** ** Effective permissions *)

(** The first loop of [permission_at_paths]: the largest matching allow. *)
Definition allow_step (logical resolved : path) (effective : option Permission)
    (rule : ResolvedRule) : option Permission :=
  let candidate := match r_symlink_policy rule with
                   | Resolved => resolved
                   | Logical => logical
                   end in
  if matches rule candidate (r_symlink_policy rule) then
    match effective with
    | None => Some (r_permission rule)
    | Some cur => Some (perm_max cur (r_permission rule))
    end
  else effective.

(** The second loop: the smallest matching deny, in either identity. *)
Definition deny_step (logical resolved : path) (min_deny : option Permission)
    (rule : ResolvedRule) : option Permission :=
  if matches rule logical Logical || matches rule resolved Resolved then
    match min_deny with
    | None => Some (r_permission rule)
    | Some cur => Some (perm_min cur (r_permission rule))
    end
  else min_deny.

Definition permission_at_paths (s : Scope) (logical resolved : path) : option Permission :=
  match normalize_path logical, normalize_path resolved with
  | Some logical, Some resolved =>
      match foldl (allow_step logical resolved) None (allow s) with
      | None => None
      | Some effective =>
          match foldl (deny_step logical resolved) None (deny s) with
          | Some Read => None
          | Some Write => Some (perm_min effective Read)
          | None => Some effective
          end
      end
  | _, _ => None
  end.

Definition permission_at (fs : Fs) (s : Scope) (p : path) : option Permission :=
  match normalize_path p with
  | None => None
  | Some logical =>
      match resolve_path fs logical with
      | Ok resolved => permission_at_paths s logical resolved
      | Err _ => None
      end
  end.

Definition is_readable (fs : Fs) (s : Scope) (p : path) : bool :=
  match permission_at fs s p with Some _ => true | None => false end.

Definition is_writable (fs : Fs) (s : Scope) (p : path) : bool :=
  match permission_at fs s p with Some Write => true | _ => false end.

(** ** Layering rules on a live scope *)

(** A resolved rule as it is listed by [allow_rules] and [deny_rules]. *)
Definition unresolve (r : ResolvedRule) : ScopeRule :=
  mkScopeRule (logical_target r) (r_permission r) (r_recursive r) (r_symlink_policy r).

Definition allow_rules (s : Scope) : list ScopeRule := unresolve <$> allow s.

Definition deny_rules (s : Scope) : list ScopeRule := unresolve <$> deny s.

Definition with_added_allow_rules (fs : Fs) (s : Scope) (extra_allow : list ScopeRule)
  : result Scope ScopeError :=
  from_config fs (mkScopeConfig (allow_rules s ++ extra_allow) (deny_rules s)).

Definition with_added_deny_rules (fs : Fs) (s : Scope) (extra_deny : list ScopeRule)
  : result Scope ScopeError :=
  from_config fs (mkScopeConfig (allow_rules s) (deny_rules s ++ extra_deny)).

(** The loop of [with_removed_deny_rules]: one exact match is removed per rule. *)
Fixpoint remove_denies (fs : Fs) (deny : list ResolvedRule) (remove : list ScopeRule)
  : result (list ResolvedRule) ScopeError :=
  match remove with
  | [] => Ok deny
  | rule :: remove =>
      let? resolved := resolve_rule fs rule in
      match position (λ existing, bool_decide (existing = resolved)) deny with
      | Some idx => remove_denies fs (vec_remove idx deny) remove
      | None => remove_denies fs deny remove
      end
  end.

Definition with_removed_deny_rules (fs : Fs) (s : Scope) (remove_deny : list ScopeRule)
  : result Scope ScopeError :=
  let? deny := remove_denies fs (deny s) remove_deny in
  Ok (mkScope (allow s) deny).

(** [SharedScope::update]: the stored scope is replaced only when the producer
    succeeds.  The write lock serialises updates, so a run of updates is a fold. *)
Definition shared_update (f : Scope → result Scope ScopeError) (current : Scope)
  : Scope * result unit ScopeError :=
  match f current with
  | Ok new => (new, Ok tt)
  | Err e => (current, Err e)
  end.

(** ** Specification vocabulary *)

(** Some allow rule grants at least [perm] on the path with these two identities. *)
Definition granted (s : Scope) (logical resolved : path) (perm : Permission) : Prop :=
  ∃ rule, rule ∈ allow s ∧ perm_leb perm (r_permission rule) = true ∧
    matches rule (match r_symlink_policy rule with
                  | Resolved => resolved | Logical => logical end)
      (r_symlink_policy rule) = true.

(** Some deny rule caps the path strictly below [perm], through either identity. *)
Definition denied (s : Scope) (logical resolved : path) (perm : Permission) : Prop :=
  ∃ rule, rule ∈ deny s ∧ perm_leb (r_permission rule) perm = true ∧
    (matches rule logical Logical = true ∨ matches rule resolved Resolved = true).

(** The effective permission is at least [perm]. *)
Definition at_least (o : option Permission) (perm : Permission) : Prop :=
  ∃ q, o = Some q ∧ perm_leb perm q = true.

(** The paths a rule claims in one identity. *)
Definition claims (rule : ResolvedRule) (identity : RuleIdentity) (p : path) : Prop :=
  matches rule p (match identity with IdLogical => Logical | IdResolved => Resolved end)
  = true.

(** ** Normalization *)

Lemma normalize_names (q : path) (names : list component) :
  forallb is_normal names = true →
  foldl normalize_step (Some q) names = Some (q ++ names).
Proof.
  revert q; induction names as [|c names IH]; intros q H; simpl in *.
  - by rewrite app_nil_r.
  - destruct c as [| | |name]; simpl in H; try done.
    unfold push. rewrite IH by done. by rewrite <- app_assoc.
Qed.

Lemma normalize_path_id p : normalized p = true → normalize_path p = Some p.
Proof.
  destruct p as [|[] r]; simpl; try done. intros H.
  unfold normalize_path. simpl. by rewrite normalize_names.
Qed.

Lemma normalized_snoc p name : normalized p = true → normalized (p ++ [Normal name]) = true.
Proof.
  destruct p as [|[] r]; simpl; try done. intros. by rewrite forallb_app, H.
Qed.

Lemma normalized_parent p q : normalized p = true → parent p = Some q → normalized q = true.
Proof.
  intros Hp (c & Hc & ->)%parent_Some. destruct q as [|[] q]; simpl in *; try done.
  - by destruct c.
  - rewrite forallb_app in Hp. by apply andb_true_iff in Hp as [??].
Qed.

Lemma normalize_step_normalized cs q r :
  normalized q = true → foldl normalize_step (Some q) cs = Some r → normalized r = true.
Proof.
  revert q; induction cs as [|c cs IH]; intros q Hq; simpl; [by intros [= <-]|].
  destruct c as [| | |name].
  - by apply IH.
  - by apply IH.
  - unfold pop. destruct (parent q) as [q'|] eqn:Hpar.
    + apply IH. by eapply normalized_parent.
    + intros H. exfalso. clear IH. induction cs; simpl in H; [done|]. by apply IHcs.
  - apply IH. by apply normalized_snoc.
Qed.

Lemma normalize_path_normalized p q : normalize_path p = Some q → normalized q = true.
Proof.
  unfold normalize_path. destruct p as [|[] cs]; simpl; try done.
  destruct (foldl normalize_step _ cs) as [r|] eqn:Hf; [|done].
  destruct (is_absolute r); [|done]. intros [= <-].
  by apply (normalize_step_normalized cs [RootDir]).
Qed.

Lemma normalized_absolute p : normalized p = true → is_absolute p = true.
Proof. by destruct p as [|[] r]. Qed.

Lemma normalize_path_idemp p q : normalize_path p = Some q → normalize_path q = Some q.
Proof. intros. eapply normalize_path_id, normalize_path_normalized; eauto. Qed.

#[local] Hint Resolve normalize_path_normalized normalize_path_idemp
  normalized_absolute : yoi.

(** ** Rules re-resolve to themselves *)

Definition fresh (fs : Fs) (r : ResolvedRule) : Prop := resolve_rule fs (unresolve r) = Ok r.

Lemma resolve_rule_fresh fs rule r : resolve_rule fs rule = Ok r → fresh fs r.
Proof.
  unfold fresh, resolve_rule.
  destruct (is_absolute (target rule)); simpl; [|done].
  destruct (normalize_path (target rule)) as [l|] eqn:Hl; simpl; [|done].
  destruct (resolve_path fs l) as [q|] eqn:Hq; simpl; [|done].
  intros [= <-]; simpl.
  rewrite normalized_absolute by eauto with yoi. simpl.
  by rewrite (normalize_path_idemp _ _ Hl); simpl; rewrite Hq.
Qed.

Lemma collect_fresh fs rules rs : collect_results (resolve_rule fs) rules = Ok rs → Forall (fresh fs) rs.
Proof.
  rewrite collect_results_Forall2.
  induction 1; constructor; eauto using resolve_rule_fresh.
Qed.

Lemma collect_unresolve fs rs :
  Forall (fresh fs) rs → collect_results (resolve_rule fs) (unresolve <$> rs) = Ok rs.
Proof.
  intros H. apply collect_results_Forall2.
  induction H; simpl; constructor; done.
Qed.

Lemma collect_results_app {A B E} (f : A → result B E) l1 l2 ys1 ys2 :
  collect_results f l1 = Ok ys1 → collect_results f l2 = Ok ys2 →
  collect_results f (l1 ++ l2) = Ok (ys1 ++ ys2).
Proof. rewrite !collect_results_Forall2. apply Forall2_app. Qed.

Lemma collect_results_app_inv {A B E} (f : A → result B E) l1 l2 ys :
  collect_results f (l1 ++ l2) = Ok ys →
  ∃ ys1 ys2, ys = ys1 ++ ys2 ∧ collect_results f l1 = Ok ys1 ∧ collect_results f l2 = Ok ys2.
Proof.
  rewrite collect_results_Forall2. intros (ys1 & ys2 & ? & ? & ->)%Forall2_app_inv_l.
  exists ys1, ys2. by rewrite !collect_results_Forall2.
Qed.

Lemma from_config_inv fs cfg s :
  from_config fs cfg = Ok s →
  config_allow cfg ≠ [] ∧
  collect_results (resolve_rule fs) (config_allow cfg) = Ok (allow s) ∧
  collect_results (resolve_rule fs) (config_deny cfg) = Ok (deny s).
Proof.
  unfold from_config. destruct (config_allow cfg) as [|r rs] eqn:Ha; [done|].
  destruct (collect_results _ (r :: rs)) as [al|]; [|done].
  destruct (collect_results _ (config_deny cfg)) as [dl|]; [|done].
  by intros [= <-].
Qed.

Lemma from_config_fresh fs cfg s :
  from_config fs cfg = Ok s → Forall (fresh fs) (allow s) ∧ Forall (fresh fs) (deny s).
Proof. intros (_ & ? & ?)%from_config_inv. eauto using collect_fresh. Qed.

(** ** Rule geometry is exact *)

Lemma matches_target r id : matches r (rule_target r (policy_identity id)) id = true.
Proof.
  unfold matches. destruct (r_recursive r); [apply starts_with_refl|].
  by rewrite bool_decide_true.
Qed.

Lemma claims_unfold r id p :
  claims r id p ↔
  if r_recursive r then starts_with p (rule_target r id) = true
  else p = rule_target r id ∨ parent p = Some (rule_target r id).
Proof.
  unfold claims, matches. destruct id; simpl; destruct (r_recursive r); try done;
    by rewrite orb_true_iff, !bool_decide_eq_true.
Qed.

Lemma claims_target r id : claims r id (rule_target r id).
Proof. rewrite claims_unfold. destruct (r_recursive r); eauto with yoi. Qed.

Lemma direct_child_true c p : direct_child c p = true ↔ parent c = Some p.
Proof.
  unfold direct_child. destruct (parent c); [|done].
  rewrite bool_decide_eq_true. naive_solver.
Qed.

(** A recursive subtree meets a shallow set exactly in the three ways the source
    lists. *)
Lemma mixed_overlap_exact rt nt :
  recursive_and_non_recursive_sets_overlap rt nt = true ↔
  ∃ p, starts_with p rt = true ∧ (p = nt ∨ parent p = Some nt).
Proof.
  unfold recursive_and_non_recursive_sets_overlap.
  rewrite !orb_true_iff, bool_decide_eq_true, direct_child_true. split.
  - intros [[H|H]|H]; [exists nt|exists rt|exists rt]; subst; eauto with yoi.
  - intros (p & Hp & [->|(c & Hc & ->)%parent_Some]); [by left; left|].
    apply starts_with_cases in Hp as [Hp|(q & d & Heq & Hq)].
    + right. subst rt. apply parent_Some. by exists c.
    + apply app_inj_tail_iff in Heq as [<- _]. by left; left.
Qed.

Lemma common_extension p a b :
  starts_with p a = true → starts_with p b = true →
  starts_with a b = true ∨ starts_with b a = true.
Proof.
  rewrite !starts_with_prefix. intros Ha Hb.
  destruct (prefix_weak_total a b p Ha Hb); auto.
Qed.

Lemma overlap_exact left_ right_ id :
  rule_path_sets_overlap left_ right_ id = true ↔ ∃ p, claims left_ id p ∧ claims right_ id p.
Proof.
  setoid_rewrite claims_unfold. unfold rule_path_sets_overlap.
  destruct (r_recursive left_), (r_recursive right_).
  - rewrite orb_true_iff. split.
    + intros [H|H]; eauto with yoi.
    + intros (p & H1 & H2). by eapply common_extension.
  - apply mixed_overlap_exact.
  - rewrite mixed_overlap_exact. split; intros (p & H1 & H2); eauto.
  - rewrite !orb_true_iff, bool_decide_eq_true, !direct_child_true. split.
    + intros [[H|H]|H]; eauto.
    + intros (p & [H1|H1] & [H2|H2]);
        [left; left|left; right|right|left; left]; congruence.
Qed.

Lemma shallow_never_contains_subtree a b :
  ¬ ∀ p, starts_with p b = true → p = a ∨ parent p = Some a.
Proof.
  intros H. pose proof (H b ltac:(auto with yoi)) as H0.
  pose proof (H (push (push b "x") "x") ltac:(auto with yoi)) as H2.
  assert (length a ≤ length b)%nat.
  { destruct H0 as [->|(c & _ & ->)%parent_Some]; [done|]. rewrite length_app. lia. }
  destruct H2 as [<-|H2].
  - unfold push in *. rewrite !length_app in *. simpl in *. lia.
  - rewrite parent_push in H2. injection H2 as <-. unfold push in *.
    rewrite !length_app in *. simpl in *. lia.
Qed.

Lemma shallow_contains_shallow a b :
  (∀ p, p = b ∨ parent p = Some b → p = a ∨ parent p = Some a) → b = a.
Proof.
  intros H. destruct (H b ltac:(by left)) as [->|(c & _ & ->)%parent_Some]; [done|].
  destruct (H (push (a ++ [c]) "x") ltac:(right; apply parent_push)) as [Heq|Heq].
  - apply (f_equal length) in Heq. unfold push in Heq. rewrite !length_app in Heq.
    simpl in Heq. lia.
  - rewrite parent_push in Heq. by injection Heq as ->.
Qed.

Lemma contains_exact available requested id :
  rule_path_set_contains available requested id = true ↔
  ∀ p, claims requested id p → claims available id p.
Proof.
  setoid_rewrite claims_unfold. unfold rule_path_set_contains.
  destruct (r_recursive available), (r_recursive requested).
  - split; [eauto with yoi|]. intros H. apply H. auto with yoi.
  - split; [|intros H; apply H; by left].
    intros H p [->|Hp]; eauto with yoi.
  - split; [done|]. intros H. by apply shallow_never_contains_subtree in H.
  - rewrite bool_decide_eq_true. split; [by intros ->|apply shallow_contains_shallow].
Qed.

(** ** Effective permissions *)

Lemma perm_leb_refl p : perm_leb p p = true.
Proof. by destruct p. Qed.

Lemma perm_leb_max p a b :
  perm_leb p (perm_max a b) = true ↔ perm_leb p a = true ∨ perm_leb p b = true.
Proof. destruct p, a, b; vm_compute; naive_solver. Qed.

Lemma perm_leb_min p a b :
  perm_leb (perm_min a b) p = true ↔ perm_leb a p = true ∨ perm_leb b p = true.
Proof. destruct p, a, b; vm_compute; naive_solver. Qed.

Lemma allow_fold l r rules o perm :
  at_least (foldl (allow_step l r) o rules) perm ↔
  at_least o perm ∨ granted (mkScope rules []) l r perm.
Proof.
  revert o; induction rules as [|rule rules IH]; intros o; simpl.
  - split; [auto|]. intros [?|(rule & Hin & _)]; [done|]. by apply not_elem_of_nil in Hin.
  - rewrite IH. unfold granted, allow_step; simpl.
    setoid_rewrite elem_of_cons.
    destruct (matches rule _ (r_symlink_policy rule)) eqn:Hm.
    + unfold at_least. destruct o as [cur|]; split.
      * intros [(q & [= <-] & Hq)|?]; [|naive_solver].
        apply perm_leb_max in Hq as [?|?]; [left; eauto|right; exists rule; auto].
      * intros [(q & [= <-] & Hq)|(rule' & [->|?] & ? & ?)]; [left|left|right; eauto];
          eexists; (split; [done|]); apply perm_leb_max; auto.
      * intros [(q & [= <-] & Hq)|?]; [right; exists rule; auto|naive_solver].
      * intros [(q & [=] & Hq)|(rule' & [->|?] & ? & ?)]; [left|right]; eauto.
    + naive_solver congruence.
Qed.

Lemma deny_fold l r rules o perm :
  (∃ q, foldl (deny_step l r) o rules = Some q ∧ perm_leb q perm = true) ↔
  (∃ q, o = Some q ∧ perm_leb q perm = true) ∨ denied (mkScope [] rules) l r perm.
Proof.
  revert o; induction rules as [|rule rules IH]; intros o; simpl.
  - split; [auto|]. intros [?|(rule & Hin & _)]; [done|]. by apply not_elem_of_nil in Hin.
  - rewrite IH. unfold denied, deny_step; simpl. setoid_rewrite elem_of_cons.
    destruct (matches rule l Logical || matches rule r Resolved) eqn:Hm.
    + apply orb_true_iff in Hm. destruct o as [cur|]; split.
      * intros [(q & [= <-] & Hq)|?]; [|naive_solver].
        apply perm_leb_min in Hq as [?|?]; [left; eauto|right; exists rule; auto].
      * intros [(q & [= <-] & Hq)|(rule' & [->|?] & ? & ?)]; [left|left|right; eauto];
          eexists; (split; [done|]); apply perm_leb_min; auto.
      * intros [(q & [= <-] & Hq)|?]; [right; exists rule; auto|naive_solver].
      * intros [(q & [=] & Hq)|(rule' & [->|?] & ? & ?)]; [left|right]; eauto.
    + apply orb_false_iff in Hm as [Hl Hr]. split; [naive_solver|].
      intros [?|(rule' & [->|?] & ? & [?|?])]; [by left|congruence|congruence| |];
        right; eauto.
Qed.

Lemma at_least_ext o1 o2 : (∀ perm, at_least o1 perm ↔ at_least o2 perm) → o1 = o2.
Proof.
  unfold at_least. intros H.
  destruct o1 as [p1|], o2 as [p2|]; [| | |done].
  - destruct (proj1 (H p1)) as (q & [= <-] & Hq); [eauto using perm_leb_refl|].
    destruct (proj2 (H p2)) as (q & [= <-] & Hq'); [eauto using perm_leb_refl|].
    by destruct p1, p2.
  - destruct (proj1 (H p1)) as (q & [=] & Hq). eauto using perm_leb_refl.
  - destruct (proj2 (H p2)) as (q & [=] & Hq). eauto using perm_leb_refl.
Qed.

Lemma permission_at_paths_at_least s l r l' r' perm :
  normalize_path l = Some l' → normalize_path r = Some r' →
  at_least (permission_at_paths s l r) perm ↔
  granted s l' r' perm ∧ ¬ denied s l' r' perm.
Proof.
  intros Hl Hr. unfold permission_at_paths. rewrite Hl, Hr.
  pose proof (allow_fold l' r' (allow s) None perm) as Ha.
  pose proof (deny_fold l' r' (deny s) None perm) as Hd.
  change (granted (mkScope (allow s) []) l' r' perm) with (granted s l' r' perm) in Ha.
  change (denied (mkScope [] (deny s)) l' r' perm) with (denied s l' r' perm) in Hd.
  assert (granted s l' r' perm ↔ at_least (foldl (allow_step l' r') None (allow s)) perm)
    as -> by (rewrite Ha; unfold at_least; naive_solver).
  assert (denied s l' r' perm ↔ ∃ q, foldl (deny_step l' r') None (deny s) = Some q ∧
    perm_leb q perm = true) as -> by (rewrite Hd; naive_solver).
  unfold at_least. destruct (foldl (allow_step _ _) _ _) as [[]|];
    destruct (foldl (deny_step _ _) _ _) as [[]|]; destruct perm; naive_solver.
Qed.

(** ** Attenuation *)

Lemma permission_covers_leb a q : permission_covers a q = perm_leb q a.
Proof. by destruct a, q. Qed.

Lemma permission_denies_leb d q : permission_denies_requested d q = perm_leb d q.
Proof. by destruct d, q. Qed.

Lemma rules_allow_granted s requested l r :
  rules_allow (allow s) (deny s) requested = true →
  claims requested IdLogical l → claims requested IdResolved r →
  granted s l r (r_permission requested) ∧ ¬ denied s l r (r_permission requested).
Proof.
  unfold rules_allow. rewrite andb_true_iff, negb_true_iff, existsb_elem_of, existsb_false.
  intros [(a & Ha & Hcov) Hden] Hl Hr. split.
  - unfold rule_covers in Hcov. split_andb.
    match goal with H : rule_path_set_contains _ _ _ = true |- _ =>
      rewrite contains_exact in H; rename H into Hsub end.
    exists a. split; [done|]. rewrite <- permission_covers_leb. split; [done|].
    destruct (r_symlink_policy a) eqn:Hpol; [apply (Hsub r Hr)|apply (Hsub l Hl)].
  - intros (d & Hd & Hperm & Hmatch). specialize (Hden d Hd).
    unfold denial_overlaps_requested in Hden.
    rewrite permission_denies_leb, Hperm in Hden. simpl in Hden.
    apply orb_false_iff in Hden as [Hnl Hnr].
    destruct Hmatch as [Hm|Hm].
    + apply not_true_iff_false in Hnl. apply Hnl. apply overlap_exact. exists l. done.
    + apply not_true_iff_false in Hnr. apply Hnr. apply overlap_exact. exists r. done.
Qed.

(** ** Layered denies can be taken back *)

Lemma vec_remove_Permutation {A} (l : list A) i x : l !! i = Some x → l ≡ₚ x :: vec_remove i l.
Proof.
  revert i; induction l as [|y l IH]; intros [|i] H; simpl in *; simplify_eq; [done|].
  rewrite (IH i H) at 1. apply Permutation_swap.
Qed.

Lemma remove_one (x : ResolvedRule) deny base :
  deny ≡ₚ x :: base →
  ∃ i, position (λ existing, bool_decide (existing = x)) deny = Some i ∧
       vec_remove i deny ≡ₚ base.
Proof.
  intros Hp. destruct (position _ deny) as [i|] eqn:Hpos.
  - exists i. split; [done|]. apply position_Some in Hpos as (y & Hy & Heq & _).
    apply bool_decide_eq_true in Heq as ->.
    pose proof (vec_remove_Permutation deny i x Hy) as Hq.
    apply (Permutation.Permutation_cons_inv (a := x)). by rewrite <- Hq, Hp.
  - exfalso. assert (x ∈ deny) as Hin by (rewrite Hp; by left).
    pose proof (proj1 (position_None _ _) Hpos x Hin) as Hb.
    by apply bool_decide_eq_false in Hb.
Qed.

Lemma remove_denies_added fs deny base rules rs :
  collect_results (resolve_rule fs) rules = Ok rs →
  deny ≡ₚ base ++ rs →
  ∃ deny', remove_denies fs deny rules = Ok deny' ∧ deny' ≡ₚ base.
Proof.
  revert deny rs; induction rules as [|rule rules IH]; intros deny rs; simpl.
  - intros [= <-]. rewrite app_nil_r. eauto.
  - destruct (resolve_rule fs rule) as [r|] eqn:Hr; [|done].
    destruct (collect_results _ rules) as [rs'|]; [|done]. intros [= <-] Hp.
    rewrite <- Permutation_middle in Hp.
    destruct (remove_one _ _ _ Hp) as (i & -> & Hrest). by apply (IH _ rs').
Qed.

Lemma denied_Permutation al d1 d2 l r perm :
  d1 ≡ₚ d2 → denied (mkScope al d1) l r perm → denied (mkScope al d2) l r perm.
Proof. intros Hp (rule & Hin & H). exists rule. simpl in *. by rewrite <- Hp. Qed.

Lemma permission_at_paths_Permutation al d1 d2 l r :
  d1 ≡ₚ d2 → permission_at_paths (mkScope al d1) l r = permission_at_paths (mkScope al d2) l r.
Proof.
  intros Hp. destruct (normalize_path l) as [l'|] eqn:Hl.
  - destruct (normalize_path r) as [r'|] eqn:Hr.
    + apply at_least_ext. intros perm.
      rewrite !(permission_at_paths_at_least _ _ _ _ _ _ Hl Hr).
      assert (denied (mkScope al d1) l' r' perm ↔ denied (mkScope al d2) l' r' perm) as ->.
      { split; by apply denied_Permutation. }
      done.
    + unfold permission_at_paths. by rewrite Hl, Hr.
  - unfold permission_at_paths. by rewrite Hl.
Qed.

(** ** Resolution *)

Lemma foldl_push p names : foldl push p names = p ++ (Normal <$> names).
Proof.
  revert p; induction names as [|n names IH]; intros p; simpl; [by rewrite app_nil_r|].
  rewrite IH. unfold push. by rewrite <- app_assoc.
Qed.

(** The longest resolvable ancestor is canonicalized and the missing tail kept; no
    component of the missing tail is itself a dangling link. *)
Lemma resolve_loop_spec fs rcursor missing q :
  resolve_loop fs rcursor missing = Ok q →
  ∃ tail ancestor c,
    rev rcursor = ancestor ++ (Normal <$> tail) ∧
    canonicalize fs ancestor = Ok c ∧
    (∀ k, (0 < k ≤ length tail)%nat →
       canonicalize fs (ancestor ++ (Normal <$> take k tail)) = Err NotFound ∧
       is_symlink fs (ancestor ++ (Normal <$> take k tail)) = false) ∧
    normalize_path (c ++ (Normal <$> (tail ++ rev missing))) = Some q.
Proof.
  revert missing; induction rcursor as [|comp up IH]; intros missing H.
  - simpl in H. destruct (canonicalize fs []) as [c|[]] eqn:Hc;
      [|by destruct (is_symlink fs [])|done|done].
    destruct (normalize_path _) as [q'|] eqn:Hn; [|done]. injection H as <-.
    exists [], [], c. rewrite foldl_push in Hn.
    repeat split; [done| |simpl in *; lia..|]; [intros; simpl in *; lia|done].
  - cbn [resolve_loop] in H.
    destruct (canonicalize fs (rev (comp :: up))) as [c|[]] eqn:Hc; [| |done|done].
    + destruct (normalize_path _) as [q'|] eqn:Hn; [|done]. injection H as <-.
      exists [], (rev (comp :: up)), c. rewrite foldl_push in Hn. simpl fmap.
      rewrite app_nil_r. repeat split; [done|simpl in *; lia..|done].
    + destruct (is_symlink fs (rev (comp :: up))) eqn:Hs; [done|].
      destruct comp as [| | |name]; try done.
      apply IH in H as (tail & anc & c & Hrev & Hcan & Hmid & Hnorm).
      exists (tail ++ [name]), anc, c. simpl. rewrite Hrev, fmap_app, app_assoc.
      assert (anc ++ (Normal <$> tail ++ [name]) = rev (Normal name :: up)) as Hfull.
      { simpl. by rewrite Hrev, fmap_app, app_assoc. }
      repeat split; [done| | |].
      * rewrite length_app in *. simpl in *.
        destruct (decide (k = length tail + 1)%nat) as [->|].
        -- rewrite take_ge by (rewrite length_app; simpl; lia). by rewrite Hfull.
        -- rewrite take_app_le by lia. apply Hmid. lia.
      * rewrite length_app in *. simpl in *.
        destruct (decide (k = length tail + 1)%nat) as [->|].
        -- rewrite take_ge by (rewrite length_app; simpl; lia). by rewrite Hfull.
        -- rewrite take_app_le by lia. apply Hmid. lia.
      * rewrite rev_unit in Hnorm. by rewrite <- app_assoc.
Qed.

(** ** Properties *)

(** C14.  The effective permission of a path is at least [perm] exactly when some allow
    rule grants [perm] in that rule's own identity and no deny rule caps the path
    strictly below [perm] through its logical or its resolved identity. *)
Theorem effective_permission_spec (s : Scope) (logical resolved : path) (perm : Permission) :
  normalized logical = true → normalized resolved = true →
  at_least (permission_at_paths s logical resolved) perm ↔
  granted s logical resolved perm ∧ ¬ denied s logical resolved perm.
Proof.
  intros Hl Hr. by apply permission_at_paths_at_least; apply normalize_path_id.
Qed.

(** A filesystem without links, and one where [/w/link] points at [/out]. *)
Definition plain_fs : Fs := mkFs (λ p, Ok p) (λ _, false).

Definition link_fs : Fs :=
  mkFs (λ p, if starts_with p (parse_path "/w/link")
             then Ok (parse_path "/out" ++ drop 3 p) else Ok p) (λ _, false).

Definition example_scope : Scope :=
  mkScope [mkResolvedRule (parse_path "/w") (parse_path "/w") Write true Resolved]
          [mkResolvedRule (parse_path "/w/secret") (parse_path "/w/secret") Read true Resolved].

Lemma effective_permission_spec_witness :
  granted example_scope (parse_path "/w/a") (parse_path "/w/a") Write ∧
  ¬ denied example_scope (parse_path "/w/a") (parse_path "/w/a") Write.
Proof.
  apply (effective_permission_spec example_scope (parse_path "/w/a") (parse_path "/w/a") Write);
    [reflexivity|reflexivity|]. exists Write. split; reflexivity.
Defined.

(** The overlap test used for denies decides whether two rules claim a common path,
    for every combination of recursive and shallow rules. *)
Theorem rule_overlap_exact (left_ right_ : ResolvedRule) (id : RuleIdentity) :
  rule_path_sets_overlap left_ right_ id = true ↔
  ∃ p, claims left_ id p ∧ claims right_ id p.
Proof. apply overlap_exact. Qed.

(** The containment test used for allows decides whether every path claimed by the
    requested rule is claimed by the available one. *)
Theorem rule_containment_exact (available requested : ResolvedRule) (id : RuleIdentity) :
  rule_path_set_contains available requested id = true ↔
  ∀ p, claims requested id p → claims available id p.
Proof. apply contains_exact. Qed.

(** C36.  Attenuation is sound: when a scope accepts a requested rule, every path that
    lies under the requested target in both identities has at least the requested
    permission in the scope. *)
Theorem allows_rule_sound (fs : Fs) (s : Scope) (rule : ScopeRule) (req : ResolvedRule)
    (logical resolved : path) :
  allows_rule fs s rule = Ok true → resolve_rule fs rule = Ok req →
  claims req IdLogical logical → claims req IdResolved resolved →
  normalized logical = true → normalized resolved = true →
  at_least (permission_at_paths s logical resolved) (permission rule).
Proof.
  unfold allows_rule. intros Hallow Hreq Hl Hr Hnl Hnr. rewrite Hreq in Hallow.
  injection Hallow as Hallow.
  assert (permission rule = r_permission req) as ->.
  { unfold resolve_rule in Hreq. repeat case_in Hreq; by simplify_eq. }
  apply (permission_at_paths_at_least _ _ _ logical resolved);
    eauto using normalize_path_id, rules_allow_granted.
Qed.

Lemma allows_rule_sound_witness :
  at_least (permission_at_paths example_scope (parse_path "/w/a/b") (parse_path "/w/a/b")) Read.
Proof.
  apply (allows_rule_sound plain_fs example_scope
    (mkScopeRule (parse_path "/w/a") Read true Resolved)
    (mkResolvedRule (parse_path "/w/a") (parse_path "/w/a") Read true Resolved));
    vm_compute; reflexivity.
Defined.

(** Layering deny rules for a delegation and removing the same rules when it is
    taken back restores the scope: the allow rules are unchanged, the deny rules are a
    permutation of the original ones, and every path has its original permission.  In
    particular an explicit base deny equal to a delegated rule survives. *)
Theorem deny_layer_roundtrip (fs : Fs) (cfg : ScopeConfig) (s s1 : Scope)
    (rules : list ScopeRule) :
  from_config fs cfg = Ok s → with_added_deny_rules fs s rules = Ok s1 →
  ∃ s2, with_removed_deny_rules fs s1 rules = Ok s2 ∧ allow s2 = allow s ∧
    deny s2 ≡ₚ deny s ∧
    ∀ l r, permission_at_paths s2 l r = permission_at_paths s l r.
Proof.
  intros [Hfa Hfd]%from_config_fresh (_ & Ha & Hd)%from_config_inv. simpl in *.
  unfold allow_rules, deny_rules in *.
  rewrite (collect_unresolve _ _ Hfa) in Ha. injection Ha as Ha.
  apply collect_results_app_inv in Hd as (d0 & rs & Hs1 & Hd0 & Hrs).
  rewrite (collect_unresolve _ _ Hfd) in Hd0. injection Hd0 as <-.
  destruct (remove_denies_added fs (deny s1) (deny s) rules rs Hrs) as (d' & Hrem & Hperm);
    [by rewrite Hs1|].
  exists (mkScope (allow s1) d'). unfold with_removed_deny_rules. rewrite Hrem. simpl.
  rewrite <- Ha. repeat split; [done|]. intros l r.
  destruct s as [al dn]. simpl in *. by apply permission_at_paths_Permutation.
Qed.

Lemma deny_layer_roundtrip_witness :
  ∃ s s1, from_config plain_fs
      (mkScopeConfig [mkScopeRule (parse_path "/w") Write true Resolved]
                     [mkScopeRule (parse_path "/w/x") Write true Resolved]) = Ok s ∧
    with_added_deny_rules plain_fs s [mkScopeRule (parse_path "/w/x") Write true Resolved]
      = Ok s1 ∧
    ∃ s2, with_removed_deny_rules plain_fs s1
            [mkScopeRule (parse_path "/w/x") Write true Resolved] = Ok s2 ∧
      allow s2 = allow s ∧ deny s2 ≡ₚ deny s ∧
      ∀ l r, permission_at_paths s2 l r = permission_at_paths s l r.
Proof.
  eexists; eexists; split; [vm_compute; reflexivity|split; [vm_compute; reflexivity|]].
  eapply (deny_layer_roundtrip plain_fs
    (mkScopeConfig [mkScopeRule (parse_path "/w") Write true Resolved]
                   [mkScopeRule (parse_path "/w/x") Write true Resolved]));
    vm_compute; reflexivity.
Defined.

(** A resolved target is the canonical form of the longest existing ancestor with
    the missing components appended; a dangling link is never taken for a missing
    component. *)
Theorem resolve_path_spec (fs : Fs) (p q : path) :
  resolve_path fs p = Ok q →
  ∃ tail ancestor c,
    p = ancestor ++ (Normal <$> tail) ∧
    canonicalize fs ancestor = Ok c ∧
    (∀ k, (0 < k ≤ length tail)%nat →
       canonicalize fs (ancestor ++ (Normal <$> take k tail)) = Err NotFound ∧
       is_symlink fs (ancestor ++ (Normal <$> take k tail)) = false) ∧
    normalize_path (c ++ (Normal <$> tail)) = Some q ∧ normalized q = true.
Proof.
  intros H. apply resolve_loop_spec in H as (tail & anc & c & Hp & Hc & Hmid & Hn).
  rewrite rev_involutive in Hp. rewrite app_nil_r in Hn.
  exists tail, anc, c. repeat split; eauto with yoi; by apply Hmid.
Qed.

Lemma resolve_path_spec_witness :
  ∃ tail ancestor c,
    parse_path "/w/link/new" = ancestor ++ (Normal <$> tail) ∧
    canonicalize link_fs ancestor = Ok c ∧
    (∀ k, (0 < k ≤ length tail)%nat →
       canonicalize link_fs (ancestor ++ (Normal <$> take k tail)) = Err NotFound ∧
       is_symlink link_fs (ancestor ++ (Normal <$> take k tail)) = false) ∧
    normalize_path (c ++ (Normal <$> tail)) = Some (parse_path "/out/new") ∧
    normalized (parse_path "/out/new") = true.
Proof. apply (resolve_path_spec link_fs). vm_compute. reflexivity. Defined.

(** A [Logical] allow accepts a [Resolved] request through a link, and the rule so
    delegated grants paths the delegating scope does not: the [Resolved] policy is not
    the weaker one in general. *)
Theorem resolved_request_can_widen :
  ∃ (fs : Fs) (s child : Scope) (rule : ScopeRule) (p : path),
    allows_rule fs s rule = Ok true ∧
    from_config fs (mkScopeConfig [rule] []) = Ok child ∧
    permission_at fs child p = Some Write ∧ permission_at fs s p = None.
Proof.
  exists link_fs,
    (mkScope [mkResolvedRule (parse_path "/w") (parse_path "/w") Write true Logical] []),
    (mkScope [mkResolvedRule (parse_path "/w/link") (parse_path "/out") Write true Resolved] []),
    (mkScopeRule (parse_path "/w/link") Write true Resolved), (parse_path "/out/secret").
  by vm_compute.
Qed.

End Scope.
