(* ===== verification/Allocation.v ===== *)
(** * The Worker allocation table

    Models [src/crates/worker/src/runtime/worker_allocation/]: the lock-protected
    table of scope allocations ([table.rs]), the conflict search over the delegation
    forest ([conflict.rs]), the mutating operations ([mutate.rs]), and the owned
    allocations and Segment activation built on them ([lifecycle.rs]).

    File operations are modelled by their outcome: the world is the table on disk and
    the outcomes the host will give to the next file operations. *)
From Stdlib Require Import ZArith String Ascii List Lia.
From stdpp Require Import base tactics numbers list strings relations.
From S2P Require Import Prelude Paths Scope.

(** ** The table ([table.rs]) *)

(** [session_store::SegmentId] is a UUID, kept as its 128-bit value. *)
Abbreviation SegmentId := Z.

Record Allocation := mkAllocation {
  worker_name : string;
  pid : Z;
  socket : path;
  scope_allow : list ScopeRule;
  scope_deny : list ScopeRule;
  delegated_from : option string;
  segment_id : option SegmentId
}.

#[export] Instance Allocation_eq_dec : EqDecision Allocation.
Proof. solve_decision. Defined.

Record LockFile := mkLockFile { allocations : list Allocation }.

(** The outcome of a file operation; a save fails before or after its rename. *)
Inductive io_outcome :=
| IoOk
| FailBeforeRename (e : io_error)
| FailAfterRename (e : io_error).

Record World := mkWorld {
  disk : LockFile;
  upcoming : list io_outcome
}.

Record LockFileGuard := mkGuard {
  data : LockFile;
  world : World
}.

Module Allocation.

Definition find (lock : LockFile) (name : string) : option Allocation :=
  List.find (λ a, bool_decide (worker_name a = name)) (allocations lock).

(** [find_mut] followed by an update of the allocation it borrows. *)
Fixpoint update_first {A} (p : A → bool) (f : A → A) (l : list A) : list A :=
  match l with
  | [] => []
  | x :: r => if p x then f x :: r else x :: update_first p f r
  end.

Definition find_mut (lock : LockFile) (name : string) (f : Allocation → Allocation)
  : LockFile :=
  mkLockFile (update_first (λ a, bool_decide (worker_name a = name)) f (allocations lock)).

Definition find_by_segment (lock : LockFile) (seg : SegmentId) : option Allocation :=
  List.find (λ a, bool_decide (segment_id a = Some seg)) (allocations lock).

(** The next outcome of a file operation. *)
Definition next_io (w : World) : io_outcome * World :=
  match upcoming w with
  | [] => (IoOk, w)
  | o :: rest => (o, mkWorld (disk w) rest)
  end.

(** [LockFileGuard::open]: lock, then parse the table on disk. *)
Definition open_table (w : World) : World * result LockFileGuard io_error :=
  let '(o, w) := next_io w in
  match o with
  | IoOk => (w, Ok (mkGuard (disk w) w))
  | FailBeforeRename e | FailAfterRename e => (w, Err e)
  end.

Definition set_data (g : LockFileGuard) (d : LockFile) : LockFileGuard :=
  mkGuard d (world g).

(** [save_with_publication]: the table on disk is replaced at the rename; the second
    component is [published]. *)
Definition save_with_publication (g : LockFileGuard)
  : LockFileGuard * bool * result unit io_error :=
  let '(o, w) := next_io (world g) in
  match o with
  | IoOk => (mkGuard (data g) (mkWorld (data g) (upcoming w)), true, Ok tt)
  | FailBeforeRename e => (mkGuard (data g) w, false, Err e)
  | FailAfterRename e =>
      (mkGuard (data g) (mkWorld (data g) (upcoming w)), true, Err e)
  end.

Definition save (g : LockFileGuard) : LockFileGuard * result unit io_error :=
  let '(g, _, r) := save_with_publication g in (g, r).

(** ** Conflicts ([conflict.rs]) *)

Definition rules_overlap (a b : ScopeRule) : bool :=
  match recursive a, recursive b with
  | true, true => starts_with (target a) (target b) || starts_with (target b) (target a)
  | true, false =>
      starts_with (target b) (target a) || bool_decide (parent (target a) = Some (target b))
  | false, true =>
      starts_with (target a) (target b) || bool_decide (parent (target b) = Some (target a))
  | false, false =>
      bool_decide (target a = target b)
      || bool_decide (parent (target a) = Some (target b))
      || bool_decide (parent (target b) = Some (target a))
  end.

Definition covers_fully (cover inner : ScopeRule) : bool :=
  if negb (perm_leb (permission inner) (permission cover)) then false
  else if recursive cover then starts_with (target inner) (target cover)
  else bool_decide (target inner = target cover) && negb (recursive inner).

Definition is_write (r : ScopeRule) : bool := bool_decide (permission r = Write).

(** The allow, or deny, rules of an allocation with [Write] permission. *)
Definition write_allow (a : Allocation) : list ScopeRule := List.filter is_write (scope_allow a).
Definition write_deny (a : Allocation) : list ScopeRule := List.filter is_write (scope_deny a).

Definition children (lock : LockFile) (name : string) : list Allocation :=
  List.filter (λ a, bool_decide (delegated_from a = Some name)) (allocations lock).

Definition is_within_effective_write (lock : LockFile) (parent : string) (rule : ScopeRule)
  : bool :=
  match find lock parent with
  | None => false
  | Some alloc =>
      if negb (is_write rule) then existsb (λ r, covers_fully r rule) (scope_allow alloc)
      else if negb (existsb (λ r, covers_fully r rule) (write_allow alloc)) then false
      else if existsb (λ r, rules_overlap r rule) (write_deny alloc) then false
      else negb (existsb (λ r, rules_overlap r rule)
                   (flat_map write_allow (children lock parent)))
  end.

Record ConflictOwner := mkConflictOwner { owner_name : string; owner_rule : ScopeRule }.

(** The first child for which the search returns an owner; [None] of the outer option
    is an exhausted recursion budget. *)
Fixpoint search_children (search : Allocation → option (option ConflictOwner))
    (l : list Allocation) : option (option ConflictOwner) :=
  match l with
  | [] => Some None
  | child :: rest =>
      match search child with
      | None => None
      | Some (Some owner) => Some (Some owner)
      | Some None => search_children search rest
      end
  end.

(** [find_conflict_in_subtree]; [fuel] bounds the depth of the recursion over the
    delegation tree. *)
Fixpoint find_conflict_in_subtree (fuel : nat) (lock : LockFile) (alloc : Allocation)
    (rule : ScopeRule) : option (option ConflictOwner) :=
  match fuel with
  | O => None
  | S fuel =>
      match List.find (λ r, rules_overlap r rule) (write_allow alloc) with
      | None => Some None
      | Some overlapping_rule =>
          if existsb (λ r, covers_fully r rule) (write_deny alloc) then Some None
          else
            match search_children (λ child, find_conflict_in_subtree fuel lock child rule)
                    (children lock (worker_name alloc)) with
            | None => None
            | Some (Some owner) => Some (Some owner)
            | Some None => Some (Some (mkConflictOwner (worker_name alloc) overlapping_rule))
            end
      end
  end.

Definition roots (lock : LockFile) : list Allocation :=
  List.filter (λ a, bool_decide (delegated_from a = None)) (allocations lock).

(** The depth of the delegation forest is at most its number of allocations. *)
Definition search_fuel (lock : LockFile) : nat := S (length (allocations lock)).

(** The [filter_map] over the root allocations. *)
Fixpoint collect_owners (fuel : nat) (lock : LockFile) (rule : ScopeRule)
    (l : list Allocation) : option (list ConflictOwner) :=
  match l with
  | [] => Some []
  | a :: rest =>
      match find_conflict_in_subtree fuel lock a rule, collect_owners fuel lock rule rest with
      | Some (Some owner), Some owners => Some (owner :: owners)
      | Some None, Some owners => Some owners
      | _, _ => None
      end
  end.

(** [find_conflict_owners], [None] when the recursion does not end within the budget;
    [conflict_search_total] below shows that it always ends on a well-formed table. *)
Definition search_owners (lock : LockFile) (rule : ScopeRule) (exempt : option string)
  : option (list ConflictOwner) :=
  if negb (is_write rule) then Some []
  else match collect_owners (search_fuel lock) lock rule (roots lock) with
       | None => None
       | Some owners =>
           Some (List.filter (λ o, negb (bool_decide (Some (owner_name o) = exempt))) owners)
       end.

Definition find_conflict_owners (lock : LockFile) (rule : ScopeRule)
    (exempt : option string) : list ConflictOwner :=
  default [] (search_owners lock rule exempt).

Definition find_conflict_owner (lock : LockFile) (rule : ScopeRule)
    (exempt : option string) : option ConflictOwner :=
  head (find_conflict_owners lock rule exempt).

(** ** Errors ([error.rs]) and owned allocations ([lifecycle.rs]) *)

(** [ScopeAllocationOwner] with its mutex-protected state. *)
Record ScopeAllocationOwner := mkOwner {
  o_worker_name : string;
  guard_attached : bool;
  released : bool
}.

Inductive ScopeLockError :=
| LockIo (source : io_error)
| AllocationGuardAttached (name : string)
| AcquisitionSaveFailed (source : io_error) (cleanup : ScopeAllocationOwner)
| DuplicateWorkerName (name : string)
| WriteConflict (competitor : string) (rule competitor_rule : ScopeRule)
| NotSubset (spawner : string) (rule : ScopeRule)
| InvalidScope (source : ScopeError)
| UnknownWorker (name : string)
| SegmentConflict (seg : SegmentId) (name : string) (sock : path)
| SegmentChanged (name : string) (expected : SegmentId) (actual : option SegmentId).

(** ** Mutating operations ([mutate.rs]) *)

(** [pid_alive]: [kill] is what [kill(pid, 0)] reports, 0 or an [errno]. *)
Definition ESRCH : Z := 3.

Definition pid_alive (kill : Z → Z) (p : Z) : bool :=
  if p =? 0 then false
  else if kill p =? 0 then true
  else negb (kill p =? ESRCH).

(** Children of [name] are handed to [to]. *)
Definition reparent (name : string) (to : option string) (a : Allocation) : Allocation :=
  if bool_decide (delegated_from a = Some name)
  then mkAllocation (worker_name a) (pid a) (socket a) (scope_allow a) (scope_deny a) to
         (segment_id a)
  else a.

(** Reparent the children of the allocation at [idx], then remove it. *)
Definition remove_at (idx : nat) (l : list Allocation) : list Allocation :=
  match l !! idx with
  | Some removed =>
      vec_remove idx
        (reparent (worker_name removed) (delegated_from removed) <$> l)
  | None => l
  end.

Definition name_position (name : string) (l : list Allocation) : option nat :=
  position (λ a, bool_decide (worker_name a = name)) l.

(** One iteration of the loop of [reclaim_stale_with]. *)
Definition remove_named (l : list Allocation) (name : string) : list Allocation :=
  match name_position name l with
  | Some idx => remove_at idx l
  | None => l
  end.

Definition dead_names (is_alive : Z → bool) (l : list Allocation) : list string :=
  worker_name <$> List.filter (λ a, negb (is_alive (pid a))) l.

Definition reclaim_stale_with (is_alive : Z → bool) (g : LockFileGuard) : LockFileGuard :=
  match dead_names is_alive (allocations (data g)) with
  | [] => g
  | dead =>
      fst (save (set_data g
        (mkLockFile (foldl remove_named (allocations (data g)) dead))))
  end.

Definition reclaim_stale (kill : Z → Z) (g : LockFileGuard) : LockFileGuard :=
  reclaim_stale_with (pid_alive kill) g.

Definition push_allocation (g : LockFileGuard) (a : Allocation) : LockFileGuard :=
  set_data g (mkLockFile (allocations (data g) ++ [a])).

(** The loop of [prepare_worker_with_deny] over the requested write rules: the first
    one with a conflict that the deny rules do not suppress. *)
Fixpoint check_write_rules (lock : LockFile) (deny : list ScopeRule) (rules : list ScopeRule)
  : result unit ScopeLockError :=
  match rules with
  | [] => Ok tt
  | rule :: rest =>
      let conflicts := find_conflict_owners lock rule None in
      let all_denied :=
        negb (bool_decide (conflicts = []))
        && forallb (λ owner, existsb (λ d, covers_fully d (owner_rule owner))
                                (List.filter is_write deny)) conflicts in
      if all_denied then check_write_rules lock deny rest
      else match conflicts with
           | competitor :: _ =>
               Err (WriteConflict (owner_name competitor) rule (owner_rule competitor))
           | [] => check_write_rules lock deny rest
           end
  end.

Definition prepare_worker_with_deny (kill : Z → Z) (g : LockFileGuard) (name : string)
    (p : Z) (sock : path) (allow deny : list ScopeRule) (seg : SegmentId)
  : LockFileGuard * result unit ScopeLockError :=
  let g := reclaim_stale kill g in
  match find (data g) name with
  | Some _ => (g, Err (DuplicateWorkerName name))
  | None =>
      match find_by_segment (data g) seg with
      | Some existing =>
          (g, Err (SegmentConflict seg (worker_name existing) (socket existing)))
      | None =>
          match check_write_rules (data g) deny (List.filter is_write allow) with
          | Err e => (g, Err e)
          | Ok _ =>
              (push_allocation g (mkAllocation name p sock allow deny None (Some seg)), Ok tt)
          end
      end
  end.

Definition register_worker_with_deny (kill : Z → Z) (g : LockFileGuard) (name : string)
    (p : Z) (sock : path) (allow deny : list ScopeRule) (seg : SegmentId)
  : LockFileGuard * result unit ScopeLockError :=
  let '(g, r) := prepare_worker_with_deny kill g name p sock allow deny seg in
  match r with
  | Err e => (g, Err e)
  | Ok _ => let '(g, saved) := save g in (g, map_err LockIo saved)
  end.

Definition register_worker (kill : Z → Z) (g : LockFileGuard) (name : string) (p : Z)
    (sock : path) (allow : list ScopeRule) (seg : SegmentId)
  : LockFileGuard * result unit ScopeLockError :=
  register_worker_with_deny kill g name p sock allow [] seg.

(** The loop of [delegate_scope] over the requested rules. *)
Fixpoint check_delegated_rules (fs : Fs) (lock : LockFile) (spawner : string)
    (delegation_scope : Scope.DelegationScope) (rules : list ScopeRule)
  : result unit ScopeLockError :=
  match rules with
  | [] => Ok tt
  | rule :: rest =>
      let? allowed := map_err InvalidScope
                        (Scope.delegation_allows_rule fs delegation_scope rule) in
      if negb allowed then Err (NotSubset spawner rule)
      else
        match (if is_write rule then find_conflict_owner lock rule (Some spawner) else None) with
        | Some competitor =>
            Err (WriteConflict (owner_name competitor) rule (owner_rule competitor))
        | None => check_delegated_rules fs lock spawner delegation_scope rest
        end
  end.

Definition delegate_scope (kill : Z → Z) (fs : Fs) (g : LockFileGuard)
    (spawner spawned : string) (p : Z) (sock : path) (allow : list ScopeRule)
    (delegation_scope : Scope.DelegationScope)
  : LockFileGuard * result unit ScopeLockError :=
  let g := reclaim_stale kill g in
  match find (data g) spawned with
  | Some _ => (g, Err (DuplicateWorkerName spawned))
  | None =>
      match find (data g) spawner with
      | None => (g, Err (UnknownWorker spawner))
      | Some _ =>
          match check_delegated_rules fs (data g) spawner delegation_scope allow with
          | Err e => (g, Err e)
          | Ok _ =>
              let g := push_allocation g
                         (mkAllocation spawned p sock allow [] (Some spawner) None) in
              let '(g, saved) := save g in (g, map_err LockIo saved)
          end
      end
  end.

Definition release_worker (g : LockFileGuard) (name : string)
  : LockFileGuard * result unit ScopeLockError :=
  match name_position name (allocations (data g)) with
  | None => (g, Err (UnknownWorker name))
  | Some idx =>
      let '(g, saved) :=
        save (set_data g (mkLockFile (remove_at idx (allocations (data g))))) in
      (g, map_err LockIo saved)
  end.

(** One exact match is removed from the deny rules per reclaimed write rule. *)
Definition remove_first_deny (deny : list ScopeRule) (rule : ScopeRule) : list ScopeRule :=
  match position (λ d, bool_decide (d = rule)) deny with
  | Some idx => vec_remove idx deny
  | None => deny
  end.

Definition set_scope_deny (a : Allocation) (deny : list ScopeRule) : Allocation :=
  mkAllocation (worker_name a) (pid a) (socket a) (scope_allow a) deny (delegated_from a)
    (segment_id a).

Definition reclaim_delegated_scope (g : LockFileGuard) (parent child : string)
    (delegated_scope : list ScopeRule) : LockFileGuard * result unit ScopeLockError :=
  let child_idx := name_position child (allocations (data g)) in
  let lock := find_mut (data g) parent (λ a,
    set_scope_deny a (foldl remove_first_deny (scope_deny a)
                        (List.filter is_write delegated_scope))) in
  let lock := match child_idx with
              | Some idx => mkLockFile (remove_at idx (allocations lock))
              | None => lock
              end in
  let '(g, saved) := save (set_data g lock) in
  (g, map_err LockIo saved).

(** ** Owned allocations ([lifecycle.rs]) *)

(** [ScopeAllocationOwner::release], also run by its [Drop]. *)
Definition owner_release (w : World) (o : ScopeAllocationOwner)
  : World * ScopeAllocationOwner * result unit ScopeLockError :=
  if guard_attached o then (w, o, Err (AllocationGuardAttached (o_worker_name o)))
  else if released o then (w, o, Ok tt)
  else
    let '(w, opened) := open_table w in
    match opened with
    | Err e => (w, o, Err (LockIo e))
    | Ok g =>
        let '(g, r) :=
          match find (data g) (o_worker_name o) with
          | Some _ => release_worker g (o_worker_name o)
          | None => let '(g, saved) := save g in (g, map_err LockIo saved)
          end in
        match r with
        | Err e => (world g, o, Err e)
        | Ok _ => (world g, mkOwner (o_worker_name o) false true, Ok tt)
        end
    end.

(** [Drop for ScopeAllocationGuard]. *)
Definition detach_guard (o : ScopeAllocationOwner) : ScopeAllocationOwner :=
  mkOwner (o_worker_name o) false (released o).

(** [ScopeAllocationGuard::new] followed by [commit_acquisition]. *)
Definition commit_acquisition (g : LockFileGuard) (name : string)
  : LockFileGuard * result ScopeAllocationOwner ScopeLockError :=
  let o := mkOwner name true false in
  let '(g, published, r) := save_with_publication g in
  match r with
  | Ok _ => (g, Ok o)
  | Err source =>
      if published then (g, Err (AcquisitionSaveFailed source (detach_guard o)))
      else
        (* disarmed before detaching: the owner's drop releases nothing *)
        let o := mkOwner (o_worker_name o) (guard_attached o) true in
        let '(w, _, _) := owner_release (world g) (detach_guard o) in
        (mkGuard (data g) w, Err (LockIo source))
  end.

Definition install_top_level_with_deny (kill : Z → Z) (w : World) (name : string) (p : Z)
    (sock : path) (allow deny : list ScopeRule) (seg : SegmentId)
  : World * result ScopeAllocationOwner ScopeLockError :=
  let '(w, opened) := open_table w in
  match opened with
  | Err e => (w, Err (LockIo e))
  | Ok g =>
      let '(g, r) := prepare_worker_with_deny kill g name p sock allow deny seg in
      match r with
      | Err e => (world g, Err e)
      | Ok _ => let '(g, r) := commit_acquisition g name in (world g, r)
      end
  end.

Definition install_top_level (kill : Z → Z) (w : World) (name : string) (p : Z)
    (sock : path) (allow : list ScopeRule) (seg : SegmentId)
  : World * result ScopeAllocationOwner ScopeLockError :=
  install_top_level_with_deny kill w name p sock allow [] seg.

Definition set_adopted (new_pid : Z) (seg : SegmentId) (a : Allocation) : Allocation :=
  mkAllocation (worker_name a) new_pid (socket a) (scope_allow a) (scope_deny a)
    (delegated_from a) (Some seg).

Definition adopt_allocation_at (w : World) (name : string) (new_pid : Z) (seg : SegmentId)
  : World * result ScopeAllocationOwner ScopeLockError :=
  let '(w, opened) := open_table w in
  match opened with
  | Err e => (w, Err (LockIo e))
  | Ok g =>
      match find (data g) name with
      | None => (world g, Err (UnknownWorker name))
      | Some _ =>
          let g := set_data g (find_mut (data g) name (set_adopted new_pid seg)) in
          let '(g, r) := commit_acquisition g name in (world g, r)
      end
  end.

(** [SegmentActivationGuard]: the table lock is held between validation and commit. *)
Record SegmentActivationGuard := mkActivation {
  act_guard : LockFileGuard;
  act_worker : string;
  act_expected : SegmentId;
  act_replacement : SegmentId
}.

Definition current_segment (lock : LockFile) (name : string) : option SegmentId :=
  find lock name ≫= segment_id.

Definition begin_segment_activation (w : World) (o : ScopeAllocationOwner)
    (expected replacement : SegmentId)
  : World * result SegmentActivationGuard ScopeLockError :=
  let '(w, opened) := open_table w in
  match opened with
  | Err e => (w, Err (LockIo e))
  | Ok g =>
      let name := o_worker_name o in
      let actual := current_segment (data g) name in
      if negb (bool_decide (actual = Some expected))
      then (w, Err (SegmentChanged name expected actual))
      else
        match List.find (λ a, bool_decide (segment_id a = Some replacement)
                              && negb (bool_decide (worker_name a = name)))
                (allocations (data g)) with
        | Some existing =>
            (w, Err (SegmentConflict replacement (worker_name existing) (socket existing)))
        | None => (w, Ok (mkActivation g name expected replacement))
        end
  end.

Definition set_segment (seg : SegmentId) (a : Allocation) : Allocation :=
  mkAllocation (worker_name a) (pid a) (socket a) (scope_allow a) (scope_deny a)
    (delegated_from a) (Some seg).

(** [SegmentActivationGuard::commit]; a failure returns the authority still held. *)
Definition commit_activation (a : SegmentActivationGuard)
  : LockFileGuard * result unit (ScopeLockError * SegmentActivationGuard) :=
  let actual := current_segment (data (act_guard a)) (act_worker a) in
  match find (data (act_guard a)) (act_worker a) with
  | None => (act_guard a,
             Err (SegmentChanged (act_worker a) (act_expected a) actual, a))
  | Some _ =>
      let g := set_data (act_guard a)
                 (find_mut (data (act_guard a)) (act_worker a)
                    (set_segment (act_replacement a))) in
      let '(g, saved) := save g in
      match saved with
      | Ok _ => (g, Ok tt)
      | Err e => (g, Err (LockIo e, mkActivation g (act_worker a) (act_expected a)
                                     (act_replacement a)))
      end
  end.

Record SegmentLockInfo := mkSegmentLockInfo {
  info_worker_name : string;
  info_socket : path;
  info_pid : Z
}.

Definition lookup_segment (kill : Z → Z) (w : World) (seg : SegmentId)
  : World * result (option SegmentLockInfo) ScopeLockError :=
  let '(w, opened) := open_table w in
  match opened with
  | Err e => (w, Err (LockIo e))
  | Ok g =>
      let g := reclaim_stale kill g in
      (world g,
       Ok ((λ a, mkSegmentLockInfo (worker_name a) (socket a) (pid a))
             <$> find_by_segment (data g) seg))
  end.

(** ** Specification vocabulary *)

(** Names are unique and every delegating Worker precedes the ones it delegated to. *)
Fixpoint parents_first (seen : list string) (l : list Allocation) : bool :=
  match l with
  | [] => true
  | a :: r =>
      negb (bool_decide (worker_name a ∈ seen))
      && match delegated_from a with
         | None => true
         | Some p => bool_decide (p ∈ seen)
         end
      && parents_first (worker_name a :: seen) r
  end.

Definition wf_table (lock : LockFile) : Prop := parents_first [] (allocations lock) = true.

(** The paths a rule claims. *)
Definition rule_claims (r : ScopeRule) (p : path) : Prop :=
  if recursive r then starts_with p (target r) = true
  else p = target r ∨ parent p = Some (target r).

#[global] Instance rule_claims_dec r p : Decision (rule_claims r p).
Proof. unfold rule_claims. destruct (recursive r); apply _. Defined.

(** A write rule of the allocation claims the path, and no write deny rule does. *)
Definition denies (a : Allocation) (p : path) : Prop := ∃ d, d ∈ write_deny a ∧ rule_claims d p.
Definition may_write (a : Allocation) (p : path) : Prop :=
  (∃ r, r ∈ write_allow a ∧ rule_claims r p) ∧ ¬ denies a p.

(** Two allocations hold a common writable path. *)
Definition write_overlap (a b : Allocation) : Prop := ∃ p, may_write a p ∧ may_write b p.

(** The Worker named [y] was delegated to by the Worker named [x]; the closure [tc] of
    this relation is ancestry in the delegation forest. *)
Definition delegates (lock : LockFile) (x y : string) : Prop :=
  ∃ b, b ∈ allocations lock ∧ worker_name b = y ∧ delegated_from b = Some x.

(** Every write rule handed down is covered by a write rule of the delegating Worker and
    clear of its deny rules, and what was handed down carries no deny rules. *)
Definition nested (lock : LockFile) : Prop :=
  (∀ a b r, a ∈ allocations lock → b ∈ allocations lock →
     delegated_from b = Some (worker_name a) → r ∈ write_allow b →
     ∃ r', r' ∈ write_allow a ∧ covers_fully r' r = true) ∧
  (∀ a b r d, a ∈ allocations lock → b ∈ allocations lock →
     delegated_from b = Some (worker_name a) → r ∈ write_allow b → d ∈ write_deny a →
     rules_overlap d r = false) ∧
  (∀ a, a ∈ allocations lock → delegated_from a ≠ None → scope_deny a = []).

(** Write ownership is exclusive: only a Worker and one it delegated to, directly or
    not, may hold a common writable path. *)
Definition exclusive (lock : LockFile) : Prop :=
  ∀ a b, a ∈ allocations lock → b ∈ allocations lock →
    worker_name a ≠ worker_name b → write_overlap a b →
    tc (delegates lock) (worker_name a) (worker_name b) ∨
    tc (delegates lock) (worker_name b) (worker_name a).

(** The invariant of the table. *)
Definition table_inv (lock : LockFile) : Prop :=
  wf_table lock ∧ nested lock ∧ exclusive lock.

(** No two allocations write to one Segment. *)
Definition segments_unique (lock : LockFile) : Prop :=
  NoDup (omap segment_id (allocations lock)).

(** ** Rule geometry *)

Definition as_resolved (r : ScopeRule) : ResolvedRule :=
  mkResolvedRule (target r) (target r) (permission r) (recursive r) (symlink_policy r).

Lemma rule_claims_resolved r p :
  rule_claims r p ↔ Scope.claims (as_resolved r) Scope.IdLogical p.
Proof. by rewrite Scope.claims_unfold. Qed.

Lemma direct_child_bool c p : Scope.direct_child c p = bool_decide (parent c = Some p).
Proof.
  apply eq_bool_prop_intro. rewrite !Is_true_true.
  by rewrite Scope.direct_child_true, bool_decide_eq_true.
Qed.

Lemma starts_with_or_eq a b :
  starts_with a b || bool_decide (b = a) = starts_with a b.
Proof.
  destruct (starts_with a b) eqn:H; [done|]. simpl. apply bool_decide_eq_false.
  intros ->. by rewrite starts_with_refl in H.
Qed.

Lemma rules_overlap_resolved a b :
  rules_overlap a b
  = Scope.rule_path_sets_overlap (as_resolved a) (as_resolved b) Scope.IdLogical.
Proof.
  unfold rules_overlap, Scope.rule_path_sets_overlap,
    Scope.recursive_and_non_recursive_sets_overlap. simpl.
  destruct (recursive a), (recursive b); rewrite ?direct_child_bool, ?starts_with_or_eq;
    done.
Qed.

Lemma rules_overlap_exact a b :
  rules_overlap a b = true ↔ ∃ p, rule_claims a p ∧ rule_claims b p.
Proof.
  rewrite rules_overlap_resolved, Scope.overlap_exact.
  by setoid_rewrite rule_claims_resolved.
Qed.

Lemma rules_overlap_sym a b : rules_overlap a b = true → rules_overlap b a = true.
Proof. rewrite !rules_overlap_exact. intros (p & ? & ?). eauto. Qed.

Lemma covers_fully_exact cover inner :
  covers_fully cover inner = true ↔
  perm_leb (permission inner) (permission cover) = true ∧
  ∀ p, rule_claims inner p → rule_claims cover p.
Proof.
  setoid_rewrite rule_claims_resolved. rewrite <- Scope.contains_exact.
  unfold covers_fully, Scope.rule_path_set_contains. simpl.
  destruct (perm_leb _ _); simpl; [|naive_solver].
  destruct (recursive cover); [naive_solver|].
  rewrite andb_true_iff, bool_decide_eq_true, negb_true_iff.
  destruct (recursive inner); [naive_solver|].
  rewrite bool_decide_eq_true. naive_solver.
Qed.

Lemma covers_fully_overlap cover inner r :
  covers_fully cover inner = true → rules_overlap inner r = true →
  rules_overlap cover r = true.
Proof.
  rewrite covers_fully_exact, !rules_overlap_exact. intros [_ H] (p & ? & ?). eauto.
Qed.

Lemma covers_fully_trans a b c :
  covers_fully a b = true → covers_fully b c = true → covers_fully a c = true.
Proof.
  rewrite !covers_fully_exact. intros [Hp1 H1] [Hp2 H2]. split; [|auto].
  by destruct (permission a), (permission b), (permission c).
Qed.

Lemma write_allow_spec a r : r ∈ write_allow a ↔ r ∈ scope_allow a ∧ permission r = Write.
Proof. unfold write_allow, is_write. by rewrite list_filter_elem_of, bool_decide_eq_true. Qed.

(** ** Well-formed tables *)

Lemma parents_first_app seen l1 l2 :
  parents_first seen (l1 ++ l2)
  = parents_first seen l1 && parents_first (rev (worker_name <$> l1) ++ seen) l2.
Proof.
  revert seen; induction l1 as [|a l1 IH]; intros seen; simpl; [done|].
  rewrite IH, <- app_assoc. simpl. by rewrite !andb_assoc.
Qed.

Lemma parents_first_names seen l :
  parents_first seen l = true →
  NoDup (worker_name <$> l) ∧ ∀ x, x ∈ worker_name <$> l → x ∉ seen.
Proof.
  revert seen; induction l as [|a l IH]; intros seen; simpl.
  - intros _. split; [constructor|]. intros x Hx. by apply not_elem_of_nil in Hx.
  - rewrite !andb_true_iff, negb_true_iff, bool_decide_eq_false.
    intros [[Hn _] Hrest]. apply IH in Hrest as [Hnd Hfresh]. split.
    + constructor; [|done]. intros Hin. apply (Hfresh _ Hin). by left.
    + intros x [->|Hx]%elem_of_cons; [done|]. intros Hs. apply (Hfresh _ Hx). by right.
Qed.

Lemma wf_names lock : wf_table lock → NoDup (worker_name <$> allocations lock).
Proof. intros H. by apply parents_first_names in H as [? _]. Qed.

Lemma names_inj l a b :
  NoDup (worker_name <$> l) → a ∈ l → b ∈ l → worker_name a = worker_name b → a = b.
Proof.
  intros Hnd (i & Hi)%list_elem_of_lookup (j & Hj)%list_elem_of_lookup Heq.
  assert (i = j) as <-; [|congruence].
  eapply NoDup_lookup; [exact Hnd| |]; rewrite list_lookup_fmap.
  - by rewrite Hi.
  - rewrite Hj. simpl. by rewrite Heq.
Qed.

Lemma wf_name_inj lock a b :
  wf_table lock → a ∈ allocations lock → b ∈ allocations lock →
  worker_name a = worker_name b → a = b.
Proof. intros H. apply names_inj. by apply wf_names. Qed.

(** Every delegating Worker of a table is itself an earlier entry. *)
Lemma parents_first_split seen l1 b l2 :
  parents_first seen (l1 ++ b :: l2) = true →
  match delegated_from b with
  | None => True
  | Some p => p ∈ worker_name <$> l1 ∨ p ∈ seen
  end.
Proof.
  rewrite parents_first_app. simpl. rewrite !andb_true_iff. intros [_ [[_ H] _]].
  destruct (delegated_from b) as [p|]; [|done]. apply bool_decide_eq_true in H.
  apply elem_of_app in H as [H|H]; [left|by right].
  apply list_elem_of_In. apply in_rev. by apply list_elem_of_In.
Qed.

Lemma wf_parent_earlier lock j b p :
  wf_table lock → allocations lock !! j = Some b → delegated_from b = Some p →
  ∃ i a, (i < j)%nat ∧ allocations lock !! i = Some a ∧ worker_name a = p.
Proof.
  unfold wf_table. intros Hwf Hj Hp.
  rewrite <- (take_drop_middle _ _ _ Hj) in Hwf.
  apply parents_first_split in Hwf. rewrite Hp in Hwf.
  destruct Hwf as [Hin|Hin]; [|by apply not_elem_of_nil in Hin].
  apply list_elem_of_fmap in Hin as (a & -> & Hin).
  apply list_elem_of_lookup in Hin as (i & Hi).
  apply lookup_take_Some in Hi as [Hi ?]. eauto.
Qed.

Lemma wf_child_later lock i j a b :
  wf_table lock → allocations lock !! i = Some a → allocations lock !! j = Some b →
  delegated_from b = Some (worker_name a) → (i < j)%nat.
Proof.
  intros Hwf Hi Hj Hp.
  destruct (wf_parent_earlier _ _ _ _ Hwf Hj Hp) as (k & a' & Hk & Ha' & Hn).
  assert (k = i) as <-; [|done].
  eapply NoDup_lookup; [by apply wf_names| |]; rewrite list_lookup_fmap.
  - by rewrite Ha'.
  - rewrite Hi. simpl. by rewrite Hn.
Qed.

Lemma wf_same_index lock i j a b :
  wf_table lock → allocations lock !! i = Some a → allocations lock !! j = Some b →
  worker_name a = worker_name b → i = j.
Proof.
  intros Hwf Hi Hj Hn. eapply NoDup_lookup; [by apply wf_names| |]; rewrite list_lookup_fmap.
  - by rewrite Hi.
  - rewrite Hj. simpl. by rewrite Hn.
Qed.

(** Ancestry follows the order of the table, hence has no cycle. *)
Lemma delegates_order lock x y i j a b :
  wf_table lock → tc (delegates lock) x y →
  allocations lock !! i = Some a → worker_name a = x →
  allocations lock !! j = Some b → worker_name b = y → (i < j)%nat.
Proof.
  intros Hwf Htc. revert i a. induction Htc as [x y (c & Hc & Hcy & Hcp)|x y z Hxy Hyz IH];
    intros i a Hi Hx Hj Hy.
  - apply list_elem_of_lookup in Hc as (k & Hk).
    rewrite <- (wf_same_index lock k j c b) by (done || congruence).
    eapply wf_child_later; eauto. congruence.
  - destruct Hxy as (c & Hc & Hcz & Hcp). apply list_elem_of_lookup in Hc as (k & Hk).
    trans k; [|by eapply IH]. eapply wf_child_later; eauto. congruence.
Qed.

Lemma delegates_irrefl lock a :
  wf_table lock → a ∈ allocations lock → ¬ tc (delegates lock) (worker_name a) (worker_name a).
Proof.
  intros Hwf (i & Hi)%list_elem_of_lookup Htc.
  pose proof (delegates_order _ _ _ _ _ _ _ Hwf Htc Hi eq_refl Hi eq_refl). lia.
Qed.

Lemma children_spec lock name b :
  b ∈ children lock name ↔ b ∈ allocations lock ∧ delegated_from b = Some name.
Proof. unfold children. by rewrite list_filter_elem_of, bool_decide_eq_true. Qed.

Lemma roots_spec lock a : a ∈ roots lock ↔ a ∈ allocations lock ∧ delegated_from a = None.
Proof. unfold roots. by rewrite list_filter_elem_of, bool_decide_eq_true. Qed.

(** ** The conflict search *)

Lemma search_children_total search l :
  (∀ c, c ∈ l → is_Some (search c)) → is_Some (search_children search l).
Proof.
  induction l as [|c l IH]; intros H; simpl; [eauto|].
  destruct (H c ltac:(by left)) as [[o|] ->]; [eauto|].
  apply IH. intros. apply H. by right.
Qed.

Lemma find_conflict_total lock i a rule fuel :
  wf_table lock → allocations lock !! i = Some a →
  (length (allocations lock) - i < fuel)%nat →
  is_Some (find_conflict_in_subtree fuel lock a rule).
Proof.
  intros Hwf. revert i a. induction fuel as [|fuel IH]; intros i a Hi Hfuel; [lia|]. simpl.
  destruct (List.find _ _); [|eauto]. destruct (existsb _ _); [eauto|].
  destruct (search_children_total (λ c, find_conflict_in_subtree fuel lock c rule)
    (children lock (worker_name a))) as [[o|] ->]; eauto.
  intros c [(j & Hj)%list_elem_of_lookup Hp]%children_spec. apply (IH j); [done|].
  pose proof (wf_child_later _ _ _ _ _ Hwf Hi Hj Hp). apply lookup_lt_Some in Hj. lia.
Qed.

Lemma collect_owners_total lock rule l :
  wf_table lock → (∀ a, a ∈ l → a ∈ allocations lock) →
  is_Some (collect_owners (search_fuel lock) lock rule l).
Proof.
  intros Hwf. induction l as [|a l IH]; intros Hl; cbn [collect_owners]; [eauto|].
  pose proof (Hl a ltac:(by left)) as (i & Hi)%list_elem_of_lookup.
  destruct (find_conflict_total lock i a rule (search_fuel lock) Hwf Hi) as [o Ho].
  { unfold search_fuel. lia. }
  rewrite Ho. destruct IH as [os ->]; [intros; apply Hl; by right|].
  destruct o; eauto.
Qed.

Lemma search_owners_total lock rule exempt :
  wf_table lock → is_Some (search_owners lock rule exempt).
Proof.
  intros Hwf. unfold search_owners. destruct (is_write rule); simpl; [|eauto].
  destruct (collect_owners_total lock rule (roots lock) Hwf) as [os ->]; [|eauto].
  by intros a [? _]%roots_spec.
Qed.

(** An allocation with a write rule overlapping [rule]. *)
Definition overlaps (a : Allocation) (rule : ScopeRule) : Prop :=
  ∃ r, r ∈ write_allow a ∧ rules_overlap r rule = true.

Lemma find_rule_None a rule :
  List.find (λ r, rules_overlap r rule) (write_allow a) = None ↔ ¬ overlaps a rule.
Proof.
  split.
  - intros H (r & Hr & Ho). apply list_elem_of_In in Hr.
    pose proof (find_none _ _ H r Hr). simpl in *. congruence.
  - intros H. destruct (List.find _ _) as [r|] eqn:Hf; [|done].
    apply find_some in Hf as [Hin Ho]. apply list_elem_of_In in Hin.
    exfalso. apply H. by exists r.
Qed.

Lemma search_None lock a rule fuel :
  find_conflict_in_subtree fuel lock a rule = Some None → overlaps a rule →
  ∃ d, d ∈ write_deny a ∧ covers_fully d rule = true.
Proof.
  destruct fuel as [|fuel]; simpl; [done|].
  destruct (List.find _ _) eqn:Hf; [|by intros _ ?%find_rule_None].
  destruct (existsb _ _) eqn:He.
  - intros _ _. apply existsb_exists in He as (d & Hd%list_elem_of_In & Hc). by exists d.
  - destruct (search_children _ _) as [[]|]; done.
Qed.

Lemma write_deny_nil a : scope_deny a = [] → write_deny a = [].
Proof. unfold write_deny. by intros ->. Qed.

Lemma search_children_None search l :
  search_children search l = Some None → ∀ c, c ∈ l → search c = Some None.
Proof.
  induction l as [|c l IH]; intros H c' Hc'; [by apply not_elem_of_nil in Hc'|].
  simpl in H. destruct (search c) as [[]|] eqn:Hs; try done.
  apply elem_of_cons in Hc' as [->|?]; eauto.
Qed.

Lemma search_children_Some search l o :
  search_children search l = Some (Some o) → ∃ c, c ∈ l ∧ search c = Some (Some o).
Proof.
  induction l as [|c l IH]; simpl; [done|].
  destruct (search c) as [[o'|]|] eqn:Hs; [| |done].
  - intros [= ->]. exists c. split; [by left|done].
  - intros (c' & ? & ?)%IH. exists c'. split; [by right|done].
Qed.

(** The owner reported is an allocation of the subtree none of whose children
    overlaps the rule: the deepest owner on its branch. *)
Lemma search_owner lock a rule fuel o :
  (∀ b, b ∈ allocations lock → delegated_from b ≠ None → scope_deny b = []) →
  a ∈ allocations lock → find_conflict_in_subtree fuel lock a rule = Some (Some o) →
  ∃ b, b ∈ allocations lock ∧ worker_name b = owner_name o ∧
    owner_rule o ∈ write_allow b ∧ rules_overlap (owner_rule o) rule = true ∧
    (b = a ∨ tc (delegates lock) (worker_name a) (worker_name b)) ∧
    ∀ c, c ∈ children lock (worker_name b) → ¬ overlaps c rule.
Proof.
  intros Hd. revert a. induction fuel as [|fuel IH]; intros a Ha; simpl; [done|].
  destruct (List.find _ _) as [r|] eqn:Hf; [|done].
  destruct (existsb _ _); [done|].
  destruct (search_children _ _) as [[o'|]|] eqn:Hs; [| |done]; intros [= <-].
  - apply search_children_Some in Hs as (c & [Hc Hp]%children_spec & Hsc).
    destruct (IH c Hc Hsc) as (b & Hb & Hn & Hr & Ho & Hanc & Hch).
    exists b. repeat split; try done. right.
    assert (delegates lock (worker_name a) (worker_name c)) by (by exists c).
    destruct Hanc as [->|?]; [by apply tc_once|by eapply tc_l].
  - exists a. apply find_some in Hf as [Hin Ho]. apply list_elem_of_In in Hin.
    repeat split; try done; [by left|].
    intros c Hc Hco. pose proof (search_children_None _ _ Hs c Hc) as Hnone.
    destruct (search_None _ _ _ _ Hnone Hco) as (d & Hdd & _).
    apply children_spec in Hc as [Hc Hp]. rewrite write_deny_nil in Hdd; [by apply not_elem_of_nil in Hdd|].
    apply Hd; [done|]. by rewrite Hp.
Qed.

Lemma search_owner_sound lock a rule fuel o :
  a ∈ allocations lock → find_conflict_in_subtree fuel lock a rule = Some (Some o) →
  ∃ b, b ∈ allocations lock ∧ worker_name b = owner_name o ∧
    owner_rule o ∈ write_allow b ∧ rules_overlap (owner_rule o) rule = true.
Proof.
  revert a. induction fuel as [|fuel IH]; intros a Ha; simpl; [done|].
  destruct (List.find _ _) as [r|] eqn:Hf; [|done].
  destruct (existsb _ _); [done|].
  destruct (search_children _ _) as [[o'|]|] eqn:Hs; [| |done]; intros [= <-].
  - apply search_children_Some in Hs as (c & [Hc _]%children_spec & Hsc). by apply (IH c).
  - exists a. apply find_some in Hf as [Hin Ho]. by apply list_elem_of_In in Hin.
Qed.

(** ** Nested tables *)

Lemma nested_overlaps_parent lock a b rule :
  nested lock → a ∈ allocations lock → b ∈ allocations lock →
  delegated_from b = Some (worker_name a) → overlaps b rule → overlaps a rule.
Proof.
  intros [Hn _] Ha Hb Hp (r & Hr & Ho).
  destruct (Hn a b r Ha Hb Hp Hr) as (r' & Hr' & Hc). exists r'.
  split; [done|]. by eapply covers_fully_overlap.
Qed.

(** In a nested table an overlap anywhere shows at the root of its tree. *)
Lemma nested_overlaps_root lock b rule :
  wf_table lock → nested lock → b ∈ allocations lock → overlaps b rule →
  ∃ a, a ∈ roots lock ∧ overlaps a rule ∧
    (a = b ∨ tc (delegates lock) (worker_name a) (worker_name b)).
Proof.
  intros Hwf Hn (j & Hj)%list_elem_of_lookup. revert b Hj.
  induction (lt_wf j) as [j _ IH]; intros b Hj Ho.
  pose proof (list_elem_of_lookup_2 _ _ _ Hj) as Hb.
  destruct (delegated_from b) as [p|] eqn:Hp.
  - destruct (wf_parent_earlier _ _ _ _ Hwf Hj Hp) as (i & a & Hi & Ha & <-).
    pose proof (list_elem_of_lookup_2 _ _ _ Ha) as Hain.
    destruct (IH i Hi a Ha) as (root & Hr & Hro & Hanc).
    { by apply (nested_overlaps_parent lock a b). }
    exists root. repeat split; [done..|]. right.
    assert (delegates lock (worker_name a) (worker_name b)) by (by exists b).
    destruct Hanc as [->|?]; [by apply tc_once|by eapply tc_r].
  - exists b. repeat split; [by apply roots_spec|done|by left].
Qed.

Lemma collect_owners_spec fuel lock rule l os :
  collect_owners fuel lock rule l = Some os →
  ∀ o, o ∈ os ↔ ∃ a, a ∈ l ∧ find_conflict_in_subtree fuel lock a rule = Some (Some o).
Proof.
  revert os; induction l as [|a l IH]; intros os; cbn [collect_owners].
  - intros [= <-] o. split; [by intros ?%not_elem_of_nil|].
    intros (a & Ha & _). by apply not_elem_of_nil in Ha.
  - destruct (find_conflict_in_subtree fuel lock a rule) as [[o'|]|] eqn:Hf; [| |done];
      (destruct (collect_owners fuel lock rule l) as [os'|]; [|done]);
      intros [= <-] o; specialize (IH os' eq_refl o).
    + rewrite elem_of_cons, IH. setoid_rewrite elem_of_cons. split.
      * intros [->|(b & ? & ?)]; eauto.
      * intros (b & [->|?] & ?); [left; congruence|eauto].
    + rewrite IH. setoid_rewrite elem_of_cons. split; [naive_solver|].
      intros (b & [->|?] & ?); [congruence|eauto].
Qed.

(** What the conflict search promises on a nested table: an overlap at a root that does not
    deny the rule is reported, unless the only owner is exempt. *)
Lemma conflict_reported lock rule exempt a :
  wf_table lock → nested lock → permission rule = Write → a ∈ roots lock → overlaps a rule →
  (∀ d, d ∈ write_deny a → covers_fully d rule ≠ true) →
  ∃ o c, c ∈ allocations lock ∧ worker_name c = owner_name o ∧
    (∀ d, d ∈ children lock (worker_name c) → ¬ overlaps d rule) ∧
    (Some (owner_name o) ≠ exempt → o ∈ find_conflict_owners lock rule exempt).
Proof.
  intros Hwf (_ & _ & Hn) Hw Har Hao Hden.
  pose proof (proj1 (roots_spec _ _) Har) as [Ha _].
  destruct (collect_owners_total lock rule (roots lock) Hwf) as [os Hos].
  { by intros x [? _]%roots_spec. }
  apply list_elem_of_lookup in Ha as (i & Hi).
  destruct (find_conflict_total lock i a rule (search_fuel lock) Hwf Hi) as [[o|] Hf].
  { unfold search_fuel. lia. }
  - destruct (search_owner lock a rule _ o Hn (list_elem_of_lookup_2 _ _ _ Hi) Hf)
      as (c & Hc & Hcn & _ & _ & _ & Hch).
    exists o, c. repeat split; [done..|]. intros Hex.
    unfold find_conflict_owners, search_owners, is_write.
    rewrite (bool_decide_true _ Hw), Hos. simpl.
    apply list_filter_elem_of. split.
    + eapply collect_owners_spec; eauto.
    + by rewrite negb_true_iff, bool_decide_eq_false.
  - exfalso. destruct (search_None _ _ _ _ Hf Hao) as (d & Hd & Hc). by apply (Hden d).
Qed.

(** A descendant that overlaps a rule has an ancestor that does among the children. *)
Lemma descendant_child_overlaps lock x y rule :
  wf_table lock → nested lock → tc (delegates lock) x y →
  ∀ b, b ∈ allocations lock → worker_name b = y → overlaps b rule →
  ∃ d, d ∈ children lock x ∧ overlaps d rule.
Proof.
  intros Hwf Hn. induction 1 as [x y (c & Hc & Hcn & Hcp)|x m y (c & Hc & Hcn & Hcp) _ IH];
    intros b Hb Hbn Ho; exists c; (split; [by apply children_spec|]).
  - by rewrite (wf_name_inj lock c b) by (done || congruence).
  - destruct (IH b Hb Hbn Ho) as (d & [Hd Hdp]%children_spec & Hdo).
    apply (nested_overlaps_parent lock c d); try done. by rewrite Hcn.
Qed.

(** Nothing below an allocation reaches into its deny rules. *)
Lemma descendant_clear lock a b d :
  wf_table lock → nested lock → a ∈ allocations lock → b ∈ allocations lock →
  tc (delegates lock) (worker_name a) (worker_name b) → d ∈ write_deny a → ¬ overlaps b d.
Proof.
  intros Hwf Hn Ha Hb Htc Hd Ho.
  destruct (descendant_child_overlaps lock _ _ d Hwf Hn Htc b Hb eq_refl Ho)
    as (c & [Hc Hp]%children_spec & r & Hr & Hov).
  destruct Hn as (_ & Hclear & _). apply rules_overlap_sym in Hov.
  by rewrite (Hclear a c r d) in Hov.
Qed.

Lemma claims_overlaps a r rule p :
  r ∈ write_allow a → rule_claims r p → rule_claims rule p → overlaps a rule.
Proof. intros Hr Hp Hq. exists r. split; [done|]. apply rules_overlap_exact. eauto. Qed.

(** A rule that some Worker may already write is reported. *)
Lemma writable_reported lock rule b p :
  wf_table lock → nested lock → permission rule = Write →
  b ∈ allocations lock → may_write b p → rule_claims rule p →
  find_conflict_owners lock rule None ≠ [].
Proof.
  intros Hwf Hn Hw Hb [(r & Hr & Hp) Hnd] Hrule Hnil.
  pose proof (claims_overlaps b r rule p Hr Hp Hrule) as Ho.
  destruct (nested_overlaps_root lock b rule Hwf Hn Hb Ho) as (a & Har & Hao & Hanc).
  destruct (conflict_reported lock rule None a) as (o & c & _ & _ & _ & Hin); auto.
  - intros d Hd [_ Hc]%covers_fully_exact. specialize (Hc p Hrule).
    destruct Hanc as [->|Htc]; [by apply Hnd; exists d|].
    apply (descendant_clear lock a b d); try done; [by apply roots_spec in Har as [? _]|].
    by eapply claims_overlaps.
  - specialize (Hin ltac:(done)). rewrite Hnil in Hin. by apply not_elem_of_nil in Hin.
Qed.

(** ** Removing an allocation *)

Lemma vec_remove_app {A} (l1 : list A) x l2 : vec_remove (length l1) (l1 ++ x :: l2) = l1 ++ l2.
Proof. induction l1 as [|y l1 IH]; simpl; [done|]. by rewrite IH. Qed.

Lemma name_position_Some name l idx :
  name_position name l = Some idx →
  ∃ l1 a l2, l = l1 ++ a :: l2 ∧ length l1 = idx ∧ worker_name a = name.
Proof.
  intros (a & Ha & Hn & _)%position_Some. apply bool_decide_eq_true in Hn.
  exists (take idx l), a, (drop (S idx) l).
  rewrite take_drop_middle by done. apply lookup_lt_Some in Ha.
  rewrite length_take. split; [done|]. split; [lia|done].
Qed.

Lemma name_position_None name l : name_position name l = None → name ∉ worker_name <$> l.
Proof.
  intros Hp (a & -> & Ha)%list_elem_of_fmap.
  pose proof (proj1 (position_None _ _) Hp a Ha) as H. by apply bool_decide_eq_false in H.
Qed.

Lemma remove_at_app l1 a l2 :
  remove_at (length l1) (l1 ++ a :: l2)
  = reparent (worker_name a) (delegated_from a) <$> (l1 ++ l2).
Proof.
  unfold remove_at. rewrite list_lookup_middle by done.
  rewrite !fmap_app, fmap_cons. rewrite <- (length_fmap (reparent (worker_name a) (delegated_from a)) l1).
  by rewrite vec_remove_app.
Qed.

Lemma reparent_name n q a : worker_name (reparent n q a) = worker_name a.
Proof. unfold reparent. by case_bool_decide. Qed.

Lemma reparent_write n q a : write_allow (reparent n q a) = write_allow a.
Proof. unfold reparent. by case_bool_decide. Qed.

Lemma reparent_deny n q a : scope_deny (reparent n q a) = scope_deny a.
Proof. unfold reparent. by case_bool_decide. Qed.

Lemma reparent_pid n q a : pid (reparent n q a) = pid a.
Proof. unfold reparent. by case_bool_decide. Qed.

Lemma reparent_parent n q a :
  delegated_from (reparent n q a)
  = if bool_decide (delegated_from a = Some n) then q else delegated_from a.
Proof. unfold reparent. by case_bool_decide. Qed.


Lemma parents_first_reparent s1 s2 n q l :
  match q with None => True | Some q => q ∈ s2 end →
  parents_first (s1 ++ n :: s2) l = true →
  parents_first (s1 ++ s2) (reparent n q <$> l) = true.
Proof.
  intros Hq. revert s1; induction l as [|a l IH]; intros s1; simpl; [done|].
  rewrite reparent_name, reparent_parent, !andb_true_iff, !negb_true_iff, !bool_decide_eq_false.
  intros [[Hn Hp] Hrest]. repeat split.
  - intros Hin. apply Hn. apply elem_of_app in Hin as [?|?]; apply elem_of_app; [by left|].
    right. by right.
  - case_bool_decide as Hfrom.
    + destruct q as [q|]; [|done]. apply bool_decide_eq_true, elem_of_app. by right.
    + destruct (delegated_from a) as [p|]; [|done].
      apply bool_decide_eq_true in Hp. apply bool_decide_eq_true.
      apply elem_of_app in Hp as [?|[->|?]%elem_of_cons]; apply elem_of_app; [by left|done|by right].
  - apply (IH (worker_name a :: s1)). done.
Qed.

Lemma reparent_unrelated n q (l : list Allocation) :
  (∀ a, a ∈ l → delegated_from a ≠ Some n) → reparent n q <$> l = l.
Proof.
  intros H. rewrite <- (list_fmap_id l) at 2. apply list_fmap_ext. intros i a Hi.
  unfold reparent. rewrite bool_decide_false; [done|].
  apply H. by eapply list_elem_of_lookup_2.
Qed.

Lemma wf_remove l1 a l2 :
  wf_table (mkLockFile (l1 ++ a :: l2)) →
  wf_table (mkLockFile (reparent (worker_name a) (delegated_from a) <$> (l1 ++ l2))).
Proof.
  intros Hwf. pose proof Hwf as Hwf'. unfold wf_table in *. simpl in *.
  rewrite fmap_app, reparent_unrelated.
  - rewrite parents_first_app in *. simpl in Hwf. rewrite app_nil_r in *. split_andb.
    apply andb_true_iff. split; [done|].
    apply (parents_first_reparent [] (rev (worker_name <$> l1))); [|done].
    destruct (delegated_from a); [|done]. by eapply bool_decide_eq_true_1.
  - intros b Hb Hp. apply list_elem_of_lookup in Hb as (i & Hi).
    pose proof (lookup_lt_Some _ _ _ Hi).
    assert ((length l1 < i)%nat); [|lia].
    eapply (wf_child_later (mkLockFile (l1 ++ a :: l2)) (length l1) i a b); simpl;
      [done|by rewrite list_lookup_middle|by rewrite lookup_app_l|done].
Qed.

(** Ancestry between surviving Workers survives: children of the removed Worker are
    handed to its own parent. *)
Lemma delegates_remove l1 a l2 x y :
  wf_table (mkLockFile (l1 ++ a :: l2)) →
  tc (delegates (mkLockFile (l1 ++ a :: l2))) x y → y ≠ worker_name a →
  let lock' := mkLockFile (reparent (worker_name a) (delegated_from a) <$> (l1 ++ l2)) in
  (x ≠ worker_name a → tc (delegates lock') x y) ∧
  (x = worker_name a → ∀ q, delegated_from a = Some q → tc (delegates lock') q y).
Proof.
  intros Hwf Htc Hy lock'.
  assert (∀ c, c ∈ l1 ++ a :: l2 → worker_name c ≠ worker_name a →
    reparent (worker_name a) (delegated_from a) c ∈ allocations lock') as Hkeep.
  { intros c Hc Hne. apply list_elem_of_fmap. exists c. split; [done|].
    apply elem_of_app in Hc as [?|[->|?]%elem_of_cons]; [|done|]; apply elem_of_app; auto. }
  assert (∀ u v, delegates (mkLockFile (l1 ++ a :: l2)) u v → v ≠ worker_name a →
    u ≠ worker_name a → delegates lock' u v) as Hstep.
  { intros u v (c & Hc & <- & Hp) Hv Hu. eexists. split; [by apply Hkeep|].
    rewrite reparent_name, reparent_parent, bool_decide_false; [done|congruence]. }
  assert (∀ v q, delegates (mkLockFile (l1 ++ a :: l2)) (worker_name a) v →
    v ≠ worker_name a → delegated_from a = Some q → delegates lock' q v) as Hjump.
  { intros v q (c & Hc & <- & Hp) Hv Hq. eexists. split; [by apply Hkeep|].
    rewrite reparent_name, reparent_parent, bool_decide_true; done. }
  assert (∀ v, delegates (mkLockFile (l1 ++ a :: l2)) (worker_name a) v → v ≠ worker_name a)
    as Hirr.
  { intros v Hv ->. eapply (delegates_irrefl _ a Hwf); [|by apply tc_once].
    apply elem_of_app. right. by left. }
  induction Htc as [x y Hxy|x m y Hxm Hmy IH].
  - split; intros; [apply tc_once|subst x; apply tc_once]; eauto.
  - destruct (IH Hy) as [IH1 IH2]. split.
    + intros Hx. destruct (decide (m = worker_name a)) as [->|Hm].
      * destruct Hxm as (c & Hc & Hcn & Hcp).
        assert (c = a) as ->; [|by apply IH2].
        eapply (wf_name_inj _ _ _ Hwf); simpl; [done| |done]. apply elem_of_app. right. by left.
      * eapply tc_l; eauto.
    + intros -> q Hq. pose proof (Hirr m Hxm) as Hm. eapply tc_l; eauto.
Qed.

Lemma elem_of_removed l1 a l2 b' :
  wf_table (mkLockFile (l1 ++ a :: l2)) →
  b' ∈ reparent (worker_name a) (delegated_from a) <$> (l1 ++ l2) →
  ∃ b, b ∈ l1 ++ a :: l2 ∧ worker_name b ≠ worker_name a ∧
    b' = reparent (worker_name a) (delegated_from a) b.
Proof.
  intros Hwf (b & -> & Hb)%list_elem_of_fmap. exists b.
  assert (b ∈ l1 ++ a :: l2).
  { apply elem_of_app in Hb as [?|?]; apply elem_of_app; [by left|right; by right]. }
  repeat split; [done|]. intros Hn. apply wf_names in Hwf. simpl in Hwf.
  rewrite fmap_app, fmap_cons in Hwf. apply NoDup_app in Hwf as (_ & Hdis & Hcons).
  apply NoDup_cons in Hcons as [Hnot _].
  apply elem_of_app in Hb as [Hb|Hb].
  - apply (Hdis (worker_name b)); [by apply list_elem_of_fmap_2|]. rewrite Hn. by left.
  - apply Hnot. rewrite <- Hn. by apply list_elem_of_fmap_2.
Qed.

Lemma inv_remove l1 a l2 :
  table_inv (mkLockFile (l1 ++ a :: l2)) →
  table_inv (mkLockFile (reparent (worker_name a) (delegated_from a) <$> (l1 ++ l2))).
Proof.
  intros (Hwf & (Hn & Hc & Hd) & Hex). simpl in *.
  assert (a ∈ l1 ++ a :: l2) as Hain by (apply elem_of_app; right; by left).
  split_and!; [by apply wf_remove|split_and!; simpl|].
  - intros p' b' r (p & Hp & Hpn & ->)%elem_of_removed (b & Hb & Hbn & ->)%elem_of_removed; try done.
    rewrite reparent_name, reparent_parent, !reparent_write. intros Hfrom Hr.
    case_bool_decide as Hba.
    + destruct (Hn a b r Hain Hb Hba Hr) as (r1 & Hr1 & Hc1).
      destruct (Hn p a r1 Hp Hain Hfrom Hr1) as (r2 & Hr2 & Hc2).
      exists r2. split; [done|]. by eapply covers_fully_trans.
    + by apply (Hn p b).
  - intros p' b' r d (p & Hp & Hpn & ->)%elem_of_removed (b & Hb & Hbn & ->)%elem_of_removed; try done.
    unfold write_deny. rewrite reparent_name, reparent_parent, reparent_write, reparent_deny.
    intros Hfrom Hr Hdp. case_bool_decide as Hba; [|by apply (Hc p b)].
    destruct (Hn a b r Hain Hb Hba Hr) as (r1 & Hr1 & Hc1).
    apply not_true_iff_false. intros Ho%rules_overlap_sym.
    eapply covers_fully_overlap, rules_overlap_sym in Ho; [|done].
    by rewrite (Hc p a r1 d) in Ho.
  - intros b' (b & Hb & _ & ->)%elem_of_removed; [|done]. rewrite reparent_deny, reparent_parent.
    intros Hf. apply Hd; [done|]. case_bool_decide; congruence.
  - intros x' y' (x & Hx & Hxn & ->)%elem_of_removed (y & Hy & Hyn & ->)%elem_of_removed; try done.
    rewrite !reparent_name. intros Hne Ho.
    assert (write_overlap x y) as Ho'.
    { destruct Ho as (p & Hpx & Hpy). exists p. unfold may_write, denies, write_deny in *.
      by rewrite !reparent_write, !reparent_deny in *. }
    destruct (Hex x y Hx Hy Hne Ho') as [Htc|Htc]; [left|right];
      by eapply (proj1 (delegates_remove l1 a l2 _ _ Hwf Htc ltac:(done))).
Qed.

Lemma inv_remove_named l name :
  table_inv (mkLockFile l) → table_inv (mkLockFile (remove_named l name)).
Proof.
  intros Hinv. unfold remove_named. destruct (name_position name l) as [idx|] eqn:Hp; [|done].
  apply name_position_Some in Hp as (l1 & a & l2 & -> & <- & <-).
  rewrite remove_at_app. by apply inv_remove.
Qed.

Lemma inv_reclaim alive l :
  table_inv (mkLockFile l) →
  table_inv (mkLockFile (foldl remove_named l (dead_names alive l))).
Proof.
  generalize (dead_names alive l). intros names. revert l.
  induction names as [|n names IH]; intros l Hinv; simpl; [done|].
  apply IH. by apply inv_remove_named.
Qed.

(** ** Adding an allocation *)

Lemma find_None lock name :
  find lock name = None ↔ name ∉ worker_name <$> allocations lock.
Proof.
  unfold find. split.
  - intros H (a & -> & Ha)%list_elem_of_fmap. apply list_elem_of_In in Ha.
    pose proof (find_none _ _ H a Ha) as Hb. simpl in Hb.
    by apply bool_decide_eq_false in Hb.
  - intros H. destruct (List.find _ _) as [a|] eqn:Hf; [|done].
    apply find_some in Hf as [Ha Hn]. apply list_elem_of_In in Ha.
    apply bool_decide_eq_true in Hn as <-. exfalso. apply H. by apply list_elem_of_fmap_2.
Qed.

Lemma find_Some lock name a :
  find lock name = Some a → a ∈ allocations lock ∧ worker_name a = name.
Proof.
  unfold find. intros [Ha Hn]%find_some. apply list_elem_of_In in Ha.
  by apply bool_decide_eq_true in Hn.
Qed.

Lemma delegates_mono l l' x y :
  (∀ a, a ∈ l → a ∈ l') → tc (delegates (mkLockFile l)) x y → tc (delegates (mkLockFile l')) x y.
Proof.
  intros Hsub. induction 1 as [x y (c & Hc & ?)|x m y (c & Hc & ?) _ IH];
    [apply tc_once|eapply tc_l; [|done]]; exists c; simpl in *; auto.
Qed.

Lemma no_dangling lock b p :
  wf_table lock → b ∈ allocations lock → delegated_from b = Some p →
  p ∈ worker_name <$> allocations lock.
Proof.
  intros Hwf (j & Hj)%list_elem_of_lookup Hp.
  destruct (wf_parent_earlier _ _ _ _ Hwf Hj Hp) as (i & a & _ & Ha & <-).
  apply list_elem_of_fmap_2. by eapply list_elem_of_lookup_2.
Qed.

Lemma wf_push l n :
  wf_table (mkLockFile l) → worker_name n ∉ worker_name <$> l →
  match delegated_from n with None => True | Some p => p ∈ worker_name <$> l end →
  wf_table (mkLockFile (l ++ [n])).
Proof.
  unfold wf_table. simpl. intros Hwf Hfresh Hp.
  rewrite parents_first_app, Hwf. simpl. rewrite app_nil_r, andb_true_r.
  apply andb_true_iff. split.
  - apply negb_true_iff, bool_decide_eq_false. intros Hin. apply Hfresh.
    apply list_elem_of_In, in_rev, list_elem_of_In. done.
  - destruct (delegated_from n); [|done]. apply bool_decide_eq_true.
    apply list_elem_of_In. rewrite <- in_rev. by apply list_elem_of_In.
Qed.

(** Adding an allocation keeps the invariant when it is covered by the Worker that
    delegates to it and clear of its deny rules, and every Worker that may write one of its
    paths is an ancestor. *)
Lemma inv_push l n :
  table_inv (mkLockFile l) → worker_name n ∉ worker_name <$> l →
  match delegated_from n with
  | None => True
  | Some p => scope_deny n = [] ∧ p ∈ worker_name <$> l ∧
      ∀ a r, a ∈ l → worker_name a = p → r ∈ write_allow n →
        (∃ r', r' ∈ write_allow a ∧ covers_fully r' r = true)
        ∧ ∀ d, d ∈ write_deny a → rules_overlap d r = false
  end →
  (∀ b p, b ∈ l → may_write b p → may_write n p →
     ∃ q, delegated_from n = Some q ∧
       (worker_name b = q ∨ tc (delegates (mkLockFile l)) (worker_name b) q)) →
  table_inv (mkLockFile (l ++ [n])).
Proof.
  intros (Hwf & (Hn & Hc & Hd) & Hex) Hfresh Hpar Hover. simpl in *.
  assert (wf_table (mkLockFile (l ++ [n]))) as Hwf'.
  { apply wf_push; [done|done|]. destruct (delegated_from n); [by destruct Hpar as (_ & ? & _)|done]. }
  assert (∀ b, b ∈ l → delegated_from b ≠ Some (worker_name n)) as Hnochild.
  { intros b Hb Hbp. apply Hfresh. by apply (no_dangling _ _ _ Hwf Hb Hbp). }
  assert (∀ b, b ∈ l → write_overlap b n →
    tc (delegates (mkLockFile (l ++ [n]))) (worker_name b) (worker_name n)) as Hnew.
  { intros b Hb (p & Hbp & Hnp).
    destruct (Hover b p Hb Hbp Hnp) as (q & Hq & Hanc).
    assert (delegates (mkLockFile (l ++ [n])) q (worker_name n)) as Hstep.
    { exists n. split; [apply elem_of_app; right; by left|done]. }
    destruct Hanc as [->|Htc]; [by apply tc_once|].
    eapply tc_r; [|done]. eapply delegates_mono; [|done]. intros; apply elem_of_app; by left. }
  assert (∀ a b r, a ∈ l ++ [n] → b ∈ l ++ [n] → delegated_from b = Some (worker_name a) →
    r ∈ write_allow b → (∃ r', r' ∈ write_allow a ∧ covers_fully r' r = true)
      ∧ ∀ d, d ∈ write_deny a → rules_overlap d r = false) as Hnest.
  { intros a b r Ha Hb Hab Hr.
    apply elem_of_app in Ha as [Ha|Ha%list_elem_of_singleton];
      apply elem_of_app in Hb as [Hb|Hb%list_elem_of_singleton]; subst.
    - split; [by apply (Hn a b)|]. intros d Hda. by apply (Hc a b).
    - rewrite Hab in Hpar. destruct Hpar as (_ & _ & Hpar). by apply Hpar.
    - by apply Hnochild in Hab.
    - rewrite Hab in Hpar. by destruct Hpar as (_ & ? & _). }
  split_and!; [done|split_and!; simpl|].
  - intros a b r Ha Hb Hab Hr. by apply (Hnest a b r).
  - intros a b r d Ha Hb Hab Hr. by apply (Hnest a b r).
  - intros a [Ha| ->%list_elem_of_singleton]%elem_of_app Hfrom; [by apply Hd|].
    destruct (delegated_from n); [by destruct Hpar|done].
  - intros x y Hx Hy Hne Ho.
    apply elem_of_app in Hx as [Hx|Hx%list_elem_of_singleton];
      apply elem_of_app in Hy as [Hy|Hy%list_elem_of_singleton]; subst; [| | |done].
    + destruct (Hex x y Hx Hy Hne Ho); [left|right];
        (eapply delegates_mono; [|done]); intros; apply elem_of_app; by left.
    + left. by apply Hnew.
    + right. apply Hnew; [done|]. destruct Ho as (p & ? & ?). by exists p.
Qed.

(** A rule inside the spawner's own effective write scope that conflicts with no one else is
    writable by the spawner and its ancestors only. *)
Lemma no_conflict_ancestors lock rule s r' b p :
  table_inv lock → permission rule = Write →
  s ∈ allocations lock → r' ∈ write_allow s → covers_fully r' rule = true →
  (∀ d, d ∈ write_deny s → rules_overlap d rule = false) →
  find_conflict_owners lock rule (Some (worker_name s)) = [] →
  b ∈ allocations lock → may_write b p → rule_claims rule p →
  worker_name b = worker_name s ∨ tc (delegates lock) (worker_name b) (worker_name s).
Proof.
  intros (Hwf & Hn & Hex) Hw Hs Hr' Hcov Hclear Hnil Hb Hbp Hp.
  destruct (decide (worker_name b = worker_name s)) as [|Hne]; [by left|].
  pose proof (proj2 (proj1 (covers_fully_exact _ _) Hcov) p Hp) as Hsp.
  assert (∀ d, d ∈ write_deny s → ¬ rule_claims d p) as Hsd.
  { intros d Hd Hdp. specialize (Hclear d Hd). apply not_true_iff_false in Hclear.
    apply Hclear, rules_overlap_exact. eauto. }
  assert (write_overlap b s) as Hwo.
  { exists p. split; [done|]. split; [by exists r'|]. intros (d & Hd & Hdp). by apply (Hsd d). }
  destruct (Hex b s Hb Hs Hne Hwo) as [?|Htc]; [by right|exfalso].
  destruct Hbp as [(r & Hr & Hrp) _].
  destruct (descendant_child_overlaps lock _ _ rule Hwf Hn Htc b Hb eq_refl) as (d & Hd & Hdo).
  { by eapply claims_overlaps. }
  destruct (nested_overlaps_root lock s rule Hwf Hn Hs) as (a & Har & Hao & Hanc).
  { by eapply claims_overlaps. }
  destruct (conflict_reported lock rule (Some (worker_name s)) a) as (o & c & Hc & Hcn & Hno & Hin);
    try done.
  - intros d' Hd' [_ Hc]%covers_fully_exact. specialize (Hc p Hp).
    destruct Hanc as [->|Hanc]; [by apply (Hsd d')|].
    apply (descendant_clear lock a s d'); try done; [by apply roots_spec in Har as [? _]|].
    by eapply claims_overlaps.
  - destruct (decide (owner_name o = worker_name s)) as [Heq|Hneq].
    + apply (Hno d); [|done]. by rewrite Hcn, Heq.
    + rewrite Hnil in Hin. apply (not_elem_of_nil o). apply Hin. congruence.
Qed.

(** Every reported owner is covered by a deny rule of the request. *)
Lemma check_write_rules_Ok lock deny rules :
  check_write_rules lock deny rules = Ok tt →
  ∀ rule o, rule ∈ rules → o ∈ find_conflict_owners lock rule None →
    ∃ d, d ∈ List.filter is_write deny ∧ covers_fully d (owner_rule o) = true.
Proof.
  induction rules as [|r rules IH]; intros Hok rule o Hin Ho; [by apply not_elem_of_nil in Hin|].
  cbn [check_write_rules] in Hok.
  assert (check_write_rules lock deny rules = Ok tt
    ∧ ∀ o, o ∈ find_conflict_owners lock r None →
        existsb (λ d, covers_fully d (owner_rule o)) (List.filter is_write deny) = true) as [Hrest Hr].
  { destruct (negb _ && forallb _ _) eqn:Hall.
    - apply andb_true_iff in Hall as [_ Hall]. split; [done|]. intros x Hx%list_elem_of_In.
      by apply (proj1 (forallb_forall _ _) Hall x).
    - destruct (find_conflict_owners lock r None); [|done]. split; [done|].
      intros x Hx. by apply not_elem_of_nil in Hx. }
  apply elem_of_cons in Hin as [->|?]; [|by eapply IH].
  apply Hr, existsb_exists in Ho as (d & Hd%list_elem_of_In & Hc). by exists d.
Qed.

Lemma check_write_rules_Err lock deny rules e :
  check_write_rules lock deny rules = Err e → ∃ n r r', e = WriteConflict n r r'.
Proof.
  induction rules as [|r rules IH]; simpl; [done|].
  destruct (_ && _); [done|]. destruct (find_conflict_owners lock r None); [done|].
  intros [= <-]. eauto.
Qed.

Lemma check_delegated_rules_Ok fs lock s ds rules :
  check_delegated_rules fs lock s ds rules = Ok tt →
  ∀ rule, rule ∈ rules →
    Scope.delegation_allows_rule fs ds rule = Ok true ∧
    (permission rule = Write → find_conflict_owners lock rule (Some s) = []).
Proof.
  induction rules as [|r rules IH]; intros Hok rule Hin; [by apply not_elem_of_nil in Hin|].
  simpl in Hok. destruct (Scope.delegation_allows_rule fs ds r) as [allowed|] eqn:Ha; [|done].
  simpl in Hok. destruct allowed; simpl in Hok; [|done].
  unfold is_write, find_conflict_owner in Hok.
  apply elem_of_cons in Hin as [->|?].
  - split; [done|]. intros Hw. rewrite (bool_decide_true _ Hw) in Hok.
    by destruct (find_conflict_owners lock r (Some s)).
  - apply IH; [|done]. by repeat case_match.
Qed.

(** ** Updates that keep names, rules and delegation *)

(** The same allocation, but that the Worker [parent] may have lost some deny rules. *)
Definition same_view (parent : string) (lost : list ScopeRule) (a b : Allocation) : Prop :=
  worker_name b = worker_name a ∧ scope_allow b = scope_allow a ∧
  delegated_from b = delegated_from a ∧ (∀ d, d ∈ scope_deny b → d ∈ scope_deny a) ∧
  (∀ d, d ∈ scope_deny a → d ∈ scope_deny b ∨ (worker_name a = parent ∧ d ∈ lost)).

Section view.
Context (parent : string) (lost : list ScopeRule).

Lemma same_view_parents_first seen l l' :
  Forall2 (same_view parent lost) l l' → parents_first seen l' = parents_first seen l.
Proof.
  intros H. revert seen. induction H as [|a b l l' (Hn & _ & Hf & _) _ IH]; intros seen; [done|].
  simpl. by rewrite Hn, Hf, IH.
Qed.

Lemma same_view_delegates l l' x y :
  Forall2 (same_view parent lost) l l' → delegates (mkLockFile l) x y → delegates (mkLockFile l') x y.
Proof.
  intros H (c & Hc & Hcn & Hcf). apply list_elem_of_lookup in Hc as (i & Hi).
  destruct (Forall2_lookup_l _ _ _ _ _ H Hi) as (c' & Hi' & (Hn & _ & Hf & _)).
  exists c'. split; [by eapply list_elem_of_lookup_2|]. simpl in *. by rewrite Hn, Hf.
Qed.

Lemma same_view_elem l l' b' :
  Forall2 (same_view parent lost) l l' → b' ∈ l' → ∃ b, b ∈ l ∧ same_view parent lost b b'.
Proof.
  intros H (i & Hi)%list_elem_of_lookup.
  destruct (Forall2_lookup_r _ _ _ _ _ H Hi) as (b & ? & ?).
  exists b. split; [by eapply list_elem_of_lookup_2|done].
Qed.

Lemma same_view_write a b : same_view parent lost a b → write_allow b = write_allow a.
Proof. intros (_ & Ha & _). unfold write_allow. by rewrite Ha. Qed.

Lemma write_deny_spec a d : d ∈ write_deny a ↔ d ∈ scope_deny a ∧ permission d = Write.
Proof. unfold write_deny, is_write. by rewrite list_filter_elem_of, bool_decide_eq_true. Qed.

(** What a Worker may write after the update, it could write before, or a lost deny rule
    claims it. *)
Lemma same_view_may_write a b p :
  same_view parent lost a b → may_write b p →
  may_write a p ∨ ∃ d, worker_name a = parent ∧ d ∈ lost ∧ d ∈ write_deny a ∧ rule_claims d p.
Proof.
  intros Hv [Hr Hnd]. rewrite (same_view_write _ _ Hv) in Hr. destruct Hv as (_ & _ & _ & _ & Hl).
  destruct (decide (Exists (λ d, worker_name a = parent ∧ d ∈ lost ∧ rule_claims d p) (write_deny a)))
    as [(d & Hd & ? & ? & ?)%Exists_exists|Hno].
  - right. by exists d.
  - left. split; [done|]. intros (d & [Hd Hw]%write_deny_spec & Hp).
    destruct (Hl d Hd) as [Hd'|[Hpar Hlost]].
    + apply Hnd. exists d. by rewrite write_deny_spec.
    + apply Hno, Exists_exists. exists d. by rewrite write_deny_spec.
Qed.

Lemma inv_same_view l l' :
  Forall2 (same_view parent lost) l l' →
  (∀ a b d, a ∈ l → b ∈ l → worker_name a = parent → worker_name b ≠ parent →
     d ∈ lost → d ∈ write_deny a → ¬ overlaps b d) →
  table_inv (mkLockFile l) → table_inv (mkLockFile l').
Proof.
  intros HF Hlost (Hwf & (Hn & Hc & Hd) & Hex).
  assert (∀ x y, tc (delegates (mkLockFile l)) x y → tc (delegates (mkLockFile l')) x y) as Htc.
  { intros x y. induction 1; [apply tc_once|eapply tc_l; [|done]];
      by apply (same_view_delegates l). }
  split_and!; [|split_and!; simpl|].
  - unfold wf_table. simpl. by rewrite (same_view_parents_first _ l l').
  - intros a' b' r (a & Ha & Hva)%(same_view_elem l) (b & Hb & Hvb)%(same_view_elem l); try done.
    rewrite (same_view_write _ _ Hva), (same_view_write _ _ Hvb).
    destruct Hva as (-> & _), Hvb as (_ & _ & -> & _). by apply (Hn a b).
  - intros a' b' r d (a & Ha & Hva)%(same_view_elem l) (b & Hb & Hvb)%(same_view_elem l); try done.
    rewrite (same_view_write _ _ Hvb), write_deny_spec.
    destruct Hva as (-> & _ & _ & Hsub & _), Hvb as (_ & _ & -> & _). intros ? ? [Hda Hw].
    apply (Hc a b); try done. apply write_deny_spec. auto.
  - intros a' (a & Ha & (_ & _ & Hf & Hsub & _))%(same_view_elem l) Hfrom; [|done].
    rewrite Hf in Hfrom. specialize (Hd a Ha Hfrom). destruct (scope_deny a') as [|d ?]; [done|].
    specialize (Hsub d ltac:(by left)). rewrite Hd in Hsub. by apply not_elem_of_nil in Hsub.
  - intros a' b' (a & Ha & Hva)%(same_view_elem l) (b & Hb & Hvb)%(same_view_elem l); try done.
    intros Hne (p & Hpa & Hpb). pose proof Hva as (Hna & _). pose proof Hvb as (Hnb & _).
    rewrite Hna, Hnb in *.
    assert (∀ x y, x ∈ l → y ∈ l → worker_name x ≠ worker_name y → (∃ r, r ∈ write_allow y ∧ rule_claims r p) →
      ¬ ∃ d, worker_name x = parent ∧ d ∈ lost ∧ d ∈ write_deny x ∧ rule_claims d p) as Hno.
    { intros x y Hx Hy Hxy (r & Hr & Hrp) (d & Hpar & Hdl & Hdx & Hdp).
      apply (Hlost x y d); try done; [congruence|]. by eapply claims_overlaps. }
    pose proof (proj1 Hpa) as Hra. pose proof (proj1 Hpb) as Hrb.
    rewrite (same_view_write _ _ Hva) in Hra. rewrite (same_view_write _ _ Hvb) in Hrb.
    destruct (same_view_may_write _ _ _ Hva Hpa) as [Hpa'|Hl]; [|by apply (Hno a b) in Hl].
    destruct (same_view_may_write _ _ _ Hvb Hpb) as [Hpb'|Hl]; [|by apply (Hno b a) in Hl].
    destruct (Hex a b Ha Hb Hne) as [|]; [by exists p|eauto..].
Qed.

Lemma update_first_view p f l :
  (∀ a, same_view parent lost a a) → (∀ a, p a = true → same_view parent lost a (f a)) →
  Forall2 (same_view parent lost) l (update_first p f l).
Proof.
  intros Hrefl Hf. induction l as [|a l IH]; simpl; [done|].
  destruct (p a) eqn:Hp; constructor; auto. by apply Forall_Forall2_diag, Forall_true.
Qed.

Lemma same_view_reparent n q a b :
  same_view parent lost a b → same_view parent lost (reparent n q a) (reparent n q b).
Proof.
  intros (Hn & Ha & Hf & Hs & Hl). unfold reparent. rewrite Hf.
  case_bool_decide; by split_and!.
Qed.

Lemma remove_at_view idx l l' :
  Forall2 (same_view parent lost) l l' →
  Forall2 (same_view parent lost) (remove_at idx l) (remove_at idx l').
Proof.
  intros HF. destruct (l !! idx) as [a|] eqn:Hi.
  - destruct (Forall2_lookup_l _ _ _ _ _ HF Hi) as (a' & Hi' & (Hn & _ & Hf & _)).
    unfold remove_at. rewrite Hi, Hi', Hn, Hf.
    assert (∀ k k' i, Forall2 (same_view parent lost) k k' →
      Forall2 (same_view parent lost) (vec_remove i k) (vec_remove i k')) as Hvec.
    { intros k k' i Hk. revert i. induction Hk; intros [|i]; simpl; try constructor; auto. }
    apply Hvec, Forall2_fmap. eapply Forall2_impl; [done|]. intros ??. apply same_view_reparent.
  - unfold remove_at. rewrite Hi. apply lookup_ge_None in Hi. rewrite (Forall2_length _ _ _ HF) in Hi.
    apply lookup_ge_None in Hi. by rewrite Hi.
Qed.
End view.

Lemma same_view_refl parent lost a : same_view parent lost a a.
Proof. split_and!; auto. Qed.

(** ** The operations keep the invariant, in memory and on disk *)

Definition both (I : LockFile → Prop) (g : LockFileGuard) : Prop :=
  I (data g) ∧ I (disk (world g)).

Abbreviation inv_guard := (both table_inv).

Lemma next_io_disk w : disk (snd (next_io w)) = disk w.
Proof. unfold next_io. by destruct (upcoming w). Qed.

Lemma open_disk w w' r : open_table w = (w', r) → disk w' = disk w.
Proof.
  unfold open_table. pose proof (next_io_disk w) as Hd.
  destruct (next_io w) as [[] w1]; intros [= <- _]; done.
Qed.

Lemma open_data w w' g : open_table w = (w', Ok g) → data g = disk w ∧ world g = w'.
Proof.
  unfold open_table. pose proof (next_io_disk w) as Hd.
  destruct (next_io w) as [[] w1]; intros [= <- <-]; done.
Qed.

Lemma open_inv I w w' g : I (disk w) → open_table w = (w', Ok g) → both I g.
Proof.
  intros Hinv Ho. pose proof (open_disk _ _ _ Ho) as Hd.
  apply open_data in Ho as [Hdata <-]. split; by rewrite ?Hdata, ?Hd.
Qed.

Lemma save_pub_data g : data (fst (fst (save_with_publication g))) = data g.
Proof. unfold save_with_publication. by destruct (next_io (world g)) as [[] w]. Qed.

Lemma save_pub_disk g :
  let '(g', published, r) := save_with_publication g in
  disk (world g') = (if published then data g else disk (world g)) ∧
  (r = Ok tt → published = true).
Proof.
  unfold save_with_publication. pose proof (next_io_disk (world g)) as Hd.
  by destruct (next_io (world g)) as [[] w].
Qed.

Lemma save_pub_inv I g : both I g → both I (fst (fst (save_with_publication g))).
Proof.
  intros [Hd Hw]. split; [by rewrite save_pub_data|].
  pose proof (save_pub_disk g) as H. destruct (save_with_publication g) as [[g' []] r];
    simpl; by destruct H as [-> _].
Qed.

Lemma save_inv I g : both I g → both I (fst (save g)).
Proof.
  intros H%save_pub_inv. unfold save. by destruct (save_with_publication g) as [[g' pb] r].
Qed.

Lemma set_data_inv I g d : both I g → I d → both I (set_data g d).
Proof. intros [_ ?] ?. by split. Qed.

Lemma reclaim_inv alive g : inv_guard g → inv_guard (reclaim_stale_with alive g).
Proof.
  intros Hg. unfold reclaim_stale_with.
  destruct (dead_names alive (allocations (data g))) eqn:Hd; [done|].
  apply save_inv, set_data_inv; [done|]. rewrite <- Hd. apply inv_reclaim.
  by destruct Hg as [[] _], (data g).
Qed.

Lemma remove_at_inv idx l : table_inv (mkLockFile l) → table_inv (mkLockFile (remove_at idx l)).
Proof.
  intros Hinv. destruct (l !! idx) as [a|] eqn:Hi.
  - apply list_elem_of_split_length in Hi as (l1 & l2 & -> & ->).
    rewrite remove_at_app. by apply inv_remove.
  - unfold remove_at. by rewrite Hi.
Qed.

(** The allocations left by a reclaim are the ones of the table, some reparented. *)
Lemma remove_named_elem l name b :
  b ∈ remove_named l name → ∃ a, a ∈ l ∧ worker_name b = worker_name a ∧
    write_allow b = write_allow a ∧ segment_id b = segment_id a ∧ pid b = pid a ∧
    scope_deny b = scope_deny a.
Proof.
  unfold remove_named. destruct (name_position name l) as [idx|] eqn:Hp; [|by eauto 10].
  apply name_position_Some in Hp as (l1 & a & l2 & -> & <- & _). rewrite remove_at_app.
  intros (c & -> & Hc)%list_elem_of_fmap. exists c. split.
  - apply elem_of_app in Hc as [?|?]; apply elem_of_app; [by left|right; by right].
  - rewrite reparent_name, reparent_write, reparent_pid, reparent_deny. repeat split.
    unfold reparent. by case_bool_decide.
Qed.

Lemma reclaimed_elem names l b :
  b ∈ foldl remove_named l names → ∃ a, a ∈ l ∧ worker_name b = worker_name a ∧
    write_allow b = write_allow a ∧ segment_id b = segment_id a ∧ pid b = pid a ∧
    scope_deny b = scope_deny a.
Proof.
  revert l. induction names as [|n names IH]; intros l; simpl; [by eauto 10|].
  intros (c & Hc & -> & -> & -> & -> & ->)%IH. by apply remove_named_elem in Hc.
Qed.

Lemma reclaim_data alive g :
  data (reclaim_stale_with alive g)
  = mkLockFile (foldl remove_named (allocations (data g))
                  (dead_names alive (allocations (data g)))).
Proof.
  unfold reclaim_stale_with.
  destruct (dead_names alive (allocations (data g))) eqn:Hd; [by destruct g as [[] ?]|].
  unfold save. rewrite (surjective_pairing (save_with_publication _)).
  rewrite (surjective_pairing (fst (save_with_publication _))). simpl.
  by rewrite save_pub_data.
Qed.

(** What the conflict search reports stands for all it should: each write rule that overlaps
    the request lies in a rule some reported owner is blamed for, unless the request denies it
    anyway or its Worker denies the request.  The search names one owner and one rule for each tree of delegations, and the
    deny rules of the request are compared with those only. *)
Definition blame_suffices (lock : LockFile) (allow deny : list ScopeRule) : Prop :=
  deny = [] ∨
  ∀ rule b r, rule ∈ allow → permission rule = Write → b ∈ allocations lock →
    r ∈ write_allow b → rules_overlap r rule = true →
    (∃ d, d ∈ write_deny b ∧ covers_fully d rule = true)
    ∨ (∃ d, d ∈ List.filter is_write deny ∧ covers_fully d r = true)
    ∨ ∃ o, o ∈ find_conflict_owners lock rule None ∧ covers_fully (owner_rule o) r = true.

Lemma prepare_inv kill g name p sock allow deny seg :
  blame_suffices (data (reclaim_stale kill g)) allow deny → inv_guard g →
  inv_guard (fst (prepare_worker_with_deny kill g name p sock allow deny seg)).
Proof.
  intros Hblame Hg%(reclaim_inv (pid_alive kill)). unfold prepare_worker_with_deny, reclaim_stale in *.
  set (g' := reclaim_stale_with (pid_alive kill) g) in *.
  destruct (find (data g') name) eqn:Hf; [done|].
  destruct (find_by_segment (data g') seg); [done|].
  destruct (check_write_rules (data g') deny _) as [[]|] eqn:Hc; [|done].
  apply set_data_inv; [done|]. destruct Hg as [Hinv _].
  destruct (data g') as [l]. apply inv_push; simpl; try done; [by apply find_None in Hf|].
  intros b q Hb Hbq [(rule & Hrule & Hq) Hnd]. exfalso. destruct Hinv as (Hwf & Hn & _).
  pose proof (proj1 (write_allow_spec _ _) Hrule) as [Hallow Hw]. simpl in Hallow.
  pose proof (check_write_rules_Ok _ _ _ Hc) as Hok.
  pose proof (writable_reported (mkLockFile l) rule b q Hwf Hn Hw Hb Hbq Hq) as Hne.
  destruct Hblame as [->|Hblame].
  { destruct (find_conflict_owners _ rule None) as [|o os] eqn:Hos; [done|].
    destruct (Hok rule o) as (d & Hd & _); [done|rewrite Hos; by left|by apply not_elem_of_nil in Hd]. }
  destruct Hbq as [(r & Hr & Hrq) Hbd].
  destruct (Hblame rule b r Hallow Hw Hb Hr) as [(d & Hd & Hdc)|[(d & Hd & Hdr)|(o & Ho & Hor)]].
  { apply rules_overlap_exact. eauto. }
  - apply Hbd. exists d. split; [done|]. by apply (proj2 (proj1 (covers_fully_exact _ _) Hdc)).
  - apply Hnd. exists d. split; [done|]. by apply (proj2 (proj1 (covers_fully_exact _ _) Hdr)).
  - destruct (Hok rule o Hrule Ho) as (d & Hd & Hdo). apply Hnd. exists d. split; [done|].
    by apply (proj2 (proj1 (covers_fully_exact _ _) (covers_fully_trans _ _ _ Hdo Hor))).
Qed.

Lemma register_inv kill g name p sock allow deny seg :
  blame_suffices (data (reclaim_stale kill g)) allow deny → inv_guard g →
  inv_guard (fst (register_worker_with_deny kill g name p sock allow deny seg)).
Proof.
  intros Hb Hg. apply (prepare_inv kill g name p sock allow deny seg Hb) in Hg.
  unfold register_worker_with_deny.
  destruct (prepare_worker_with_deny _ _ _ _ _ _ _ _) as [g' [[]|]]; [|done].
  apply save_inv in Hg. simpl in Hg. by destruct (save g').
Qed.

(** The rules handed down lie inside write rules of the spawner and outside its deny rules. *)
Definition covered_by_spawner (lock : LockFile) (spawner : string) (allow : list ScopeRule)
  : Prop :=
  ∀ s rule, s ∈ allocations lock → worker_name s = spawner →
    rule ∈ allow → permission rule = Write →
    (∃ r', r' ∈ write_allow s ∧ covers_fully r' rule = true)
    ∧ ∀ d, d ∈ write_deny s → rules_overlap d rule = false.

Lemma covered_after_reclaim alive g spawner allow :
  covered_by_spawner (data g) spawner allow →
  covered_by_spawner (data (reclaim_stale_with alive g)) spawner allow.
Proof.
  intros Hc s rule. rewrite reclaim_data. simpl. unfold write_deny.
  intros (a & Ha & Hn & -> & _ & _ & ->)%reclaimed_elem Hs. apply Hc; [done|congruence].
Qed.

Lemma delegate_inv kill fs g spawner spawned p sock allow ds :
  covered_by_spawner (data g) spawner allow → inv_guard g →
  inv_guard (fst (delegate_scope kill fs g spawner spawned p sock allow ds)).
Proof.
  intros Hcov%(covered_after_reclaim (pid_alive kill)) Hg%(reclaim_inv (pid_alive kill)).
  unfold delegate_scope, reclaim_stale.
  set (g' := reclaim_stale_with (pid_alive kill) g) in *.
  destruct (find (data g') spawned) eqn:Hf; [done|].
  destruct (find (data g') spawner) as [s|] eqn:Hs; [|done].
  destruct (check_delegated_rules _ _ _ _ _) as [[]|] eqn:Hc; [|done].
  apply find_Some in Hs as [Hs <-].
  set (n := mkAllocation _ _ _ _ _ _ _).
  assert (inv_guard (push_allocation g' n)) as Hpush.
  { apply set_data_inv; [done|]. destruct Hg as [Hinv _], (data g') as [l].
    apply inv_push; simpl in *; try done; [by apply find_None in Hf|split; [done|split]|].
    - by apply list_elem_of_fmap_2.
    - intros a r Ha Hn [Hr Hw]%write_allow_spec. by apply Hcov.
    - intros b q Hb Hbq [(rule & [Hr Hw]%write_allow_spec & Hq) _]. exists (worker_name s).
      split; [done|]. destruct (Hcov s rule Hs eq_refl Hr Hw) as [(r' & Hr' & Hcr) Hclear].
      apply (no_conflict_ancestors (mkLockFile l) rule s r' b q); try done.
      by apply (check_delegated_rules_Ok _ _ _ _ _ Hc rule Hr). }
  apply save_inv in Hpush. by destruct (save (push_allocation g' n)).
Qed.

Lemma release_inv g name : inv_guard g → inv_guard (fst (release_worker g name)).
Proof.
  intros Hg. unfold release_worker. destruct (name_position _ _) as [idx|]; [|done].
  assert (inv_guard (set_data g (mkLockFile (remove_at idx (allocations (data g)))))) as H%save_inv.
  { apply set_data_inv; [done|]. apply remove_at_inv. by destruct Hg as [? _], (data g). }
  by destruct (save _).
Qed.

Lemma remove_first_denies rules : ∀ deny d,
  (d ∈ foldl remove_first_deny deny rules → d ∈ deny) ∧
  (d ∈ deny → d ∈ foldl remove_first_deny deny rules ∨ d ∈ rules).
Proof.
  assert (∀ (l : list ScopeRule) i d, (d ∈ vec_remove i l → d ∈ l) ∧
    (d ∈ l → d ∈ vec_remove i l ∨ l !! i = Some d)) as Hvec.
  { induction l as [|x l IH]; intros [|i] d; simpl; rewrite ?elem_of_cons; naive_solver. }
  induction rules as [|r rules IH]; intros deny d; simpl; [by auto|].
  destruct (IH (remove_first_deny deny r) d) as [IH1 IH2]. unfold remove_first_deny in *.
  destruct (position _ deny) as [i|] eqn:Hp; [|rewrite elem_of_cons; naive_solver].
  apply position_Some in Hp as (x & Hx & Heq%bool_decide_eq_true & _). subst x.
  destruct (Hvec deny i d) as [H1 H2]. rewrite elem_of_cons. split; [by auto|].
  intros [?|Hi]%H2; [naive_solver|]. right. left. congruence.
Qed.

Lemma find_mut_inv lock name f :
  (∀ a, same_view name [] a (f a)) → table_inv lock → table_inv (find_mut lock name f).
Proof.
  intros Hf Hinv. destruct lock as [l]. eapply (inv_same_view name []); [| |done].
  - apply update_first_view; [apply same_view_refl|by auto].
  - intros a b d _ _ _ _ Hd. by apply not_elem_of_nil in Hd.
Qed.

(** What a Worker takes back is, besides itself and the child it takes it from, held by
    nobody. *)
Definition returns_freely (lock : LockFile) (parent child : string) (rules : list ScopeRule) : Prop :=
  ∀ a b d, a ∈ allocations lock → b ∈ allocations lock → worker_name a = parent →
    worker_name b ≠ parent → worker_name b ≠ child → d ∈ rules → d ∈ write_deny a → ¬ overlaps b d.

Lemma reclaim_delegated_inv g parent child rules :
  returns_freely (data g) parent child rules →
  inv_guard g → inv_guard (fst (reclaim_delegated_scope g parent child rules)).
Proof.
  intros Hfree Hg. unfold reclaim_delegated_scope.
  set (f := λ a, set_scope_deny _ _).
  set (lock := match name_position _ _ with Some idx => _ | None => _ end).
  assert (table_inv lock) as Hlock.
  { destruct Hg as [Hinv _], (data g) as [l]. subst lock. simpl in *.
    set (lost := List.filter is_write rules) in f.
    assert (∀ d, d ∈ lost → d ∈ rules) as Hsub by (by intros d [? _]%list_filter_elem_of).
    assert (Forall2 (same_view parent lost) l
      (update_first (λ a, bool_decide (worker_name a = parent)) f l)) as Hview.
    { apply update_first_view; [apply same_view_refl|]. intros a Ha%bool_decide_eq_true.
      split_and!; simpl; try done; intros d; destruct (remove_first_denies lost (scope_deny a) d); [by auto|].
      naive_solver. }
    destruct (name_position child l) as [idx|] eqn:Hp; unfold find_mut; simpl.
    - eapply inv_same_view; [by apply remove_at_view| |by apply remove_at_inv].
      apply name_position_Some in Hp as (l1 & c & l2 & -> & <- & Hcn). rewrite remove_at_app.
      destruct Hinv as (Hwf & _).
      intros a b d (a' & Ha & _ & ->)%elem_of_removed (b' & Hb & Hbn & ->)%elem_of_removed; try done.
      unfold overlaps, write_deny. rewrite !reparent_name, reparent_deny, reparent_write.
      intros. apply (Hfree a' b' d); try done; [congruence|by auto].
    - eapply inv_same_view; [done| |done]. apply name_position_None in Hp.
      intros a b d Ha Hb Hna Hnb Hd. apply Hfree; try done; [|by auto].
      intros <-. apply Hp. by apply list_elem_of_fmap_2. }
  assert (inv_guard (set_data g lock)) as H%save_inv by (by apply set_data_inv).
  by destruct (save _).
Qed.

Lemma owner_release_inv w o :
  table_inv (disk w) → table_inv (disk (fst (fst (owner_release w o)))).
Proof.
  intros Hinv. unfold owner_release.
  destruct (guard_attached o); [done|]. destruct (released o); [done|].
  destruct (open_table w) as [w' [g|e]] eqn:Ho; simpl.
  2: { by rewrite (open_disk _ _ _ Ho). }
  pose proof (open_inv table_inv _ _ _ Hinv Ho) as Hg.
  destruct (find (data g) (o_worker_name o)).
  - apply (release_inv g (o_worker_name o)) in Hg.
    destruct (release_worker g (o_worker_name o)) as [g' [[]|]]; by destruct Hg.
  - apply save_inv in Hg. destruct (save g) as [g' [[]|]]; by destruct Hg.
Qed.

(** An acquisition that was not published leaves the disk as it was: the disarmed
    owner's drop releases nothing. *)
Lemma commit_acquisition_disk g name :
  let '(g', r) := commit_acquisition g name in
  match r with
  | Ok o => disk (world g') = data g ∧ o = mkOwner name true false
  | Err (AcquisitionSaveFailed _ o) => disk (world g') = data g ∧ o = mkOwner name false false
  | Err (LockIo _) => disk (world g') = disk (world g)
  | Err _ => False
  end.
Proof.
  unfold commit_acquisition. pose proof (save_pub_disk g) as H.
  destruct (save_with_publication g) as [[g' []] [[]|]]; simpl in *;
    destruct H as [-> H]; try done. by specialize (H eq_refl).
Qed.

Lemma commit_acquisition_inv (I : LockFile → Prop) g name :
  both I g → I (disk (world (fst (commit_acquisition g name)))).
Proof.
  intros [Hd Hw]. pose proof (commit_acquisition_disk g name) as H.
  destruct (commit_acquisition g name) as [g' [o|e]]; simpl; [by destruct H as [-> _]|].
  destruct e; try done; [by rewrite H|by destruct H as [-> _]].
Qed.

Lemma install_inv kill w name p sock allow deny seg :
  (∀ w' g, open_table w = (w', Ok g) → blame_suffices (data (reclaim_stale kill g)) allow deny) →
  table_inv (disk w) →
  table_inv (disk (fst (install_top_level_with_deny kill w name p sock allow deny seg))).
Proof.
  intros Hblame Hinv. unfold install_top_level_with_deny.
  destruct (open_table w) as [w' [g|e]] eqn:Ho; simpl.
  2: { by rewrite (open_disk _ _ _ Ho). }
  pose proof (open_inv table_inv _ _ _ Hinv Ho) as Hg.
  apply (prepare_inv kill g name p sock allow deny seg (Hblame _ _ eq_refl)) in Hg.
  destruct (prepare_worker_with_deny _ _ _ _ _ _ _ _) as [g' [[]|]]; simpl in *; [|by destruct Hg].
  apply (commit_acquisition_inv table_inv _ name) in Hg. by destruct (commit_acquisition g' name).
Qed.

Lemma adopt_inv w name p seg :
  table_inv (disk w) → table_inv (disk (fst (adopt_allocation_at w name p seg))).
Proof.
  intros Hinv. unfold adopt_allocation_at.
  destruct (open_table w) as [w' [g|e]] eqn:Ho; simpl.
  2: { by rewrite (open_disk _ _ _ Ho). }
  pose proof (open_inv table_inv _ _ _ Hinv Ho) as Hg.
  destruct (find (data g) name); [|by destruct Hg].
  set (g' := set_data g _).
  assert (inv_guard g') as H%(commit_acquisition_inv table_inv _ name).
  { apply set_data_inv; [done|]. apply find_mut_inv; [intros c; apply (same_view_refl _ _ c)|by destruct Hg]. }
  by destruct (commit_acquisition g' name).
Qed.

Lemma activation_inv a :
  inv_guard (act_guard a) → inv_guard (fst (commit_activation a)).
Proof.
  intros Hg. unfold commit_activation.
  destruct (find (data (act_guard a)) (act_worker a)); [|done].
  set (g' := set_data _ _).
  assert (inv_guard g') as H%save_inv.
  { apply set_data_inv; [done|]. apply find_mut_inv; [intros c; apply (same_view_refl _ _ c)|by destruct Hg]. }
  by destruct (save g') as [g'' [[]|]].
Qed.

Lemma begin_activation_open w o expected replacement w' a :
  begin_segment_activation w o expected replacement = (w', Ok a) →
  open_table w = (w', Ok (act_guard a)) ∧
  act_worker a = o_worker_name o ∧ act_replacement a = replacement ∧
  ∀ b, b ∈ allocations (data (act_guard a)) → segment_id b = Some replacement →
    worker_name b = o_worker_name o.
Proof.
  unfold begin_segment_activation. destruct (open_table w) as [w1 [g|e]] eqn:Ho; [|done].
  destruct (negb _); [done|]. destruct (List.find _ _) eqn:Hf; [done|].
  intros [= <- <-]. split_and!; [done..|]. intros b Hb Hs. simpl in *.
  apply list_elem_of_In in Hb. pose proof (find_none _ _ Hf b Hb) as Hn. simpl in Hn.
  rewrite (bool_decide_true _ Hs) in Hn. simpl in Hn.
  by apply negb_false_iff, bool_decide_eq_true in Hn.
Qed.

(** ** The operations on the shared table, as steps of the world

    [adoptable] is what the caller of [adopt_allocation] guarantees of the Segment it
    adopts an allocation with; the operation checks nothing about it. *)

Section steps.
Context (adoptable : World → string → SegmentId → Prop).

Inductive table_step : World → World → Prop :=
| step_install kill w name p sock allow seg :
    table_step w (fst (install_top_level kill w name p sock allow seg))
| step_register kill w w' g name p sock allow seg :
    open_table w = (w', Ok g) →
    table_step w (world (fst (register_worker kill g name p sock allow seg)))
| step_install_with_deny kill w name p sock allow deny seg :
    (∀ w' g, open_table w = (w', Ok g) → blame_suffices (data (reclaim_stale kill g)) allow deny) →
    table_step w (fst (install_top_level_with_deny kill w name p sock allow deny seg))
| step_register_with_deny kill w w' g name p sock allow deny seg :
    open_table w = (w', Ok g) → blame_suffices (data (reclaim_stale kill g)) allow deny →
    table_step w (world (fst (register_worker_with_deny kill g name p sock allow deny seg)))
| step_delegate kill fs w w' g spawner spawned p sock allow ds :
    open_table w = (w', Ok g) → covered_by_spawner (data g) spawner allow →
    table_step w (world (fst (delegate_scope kill fs g spawner spawned p sock allow ds)))
| step_release w w' g name :
    open_table w = (w', Ok g) → table_step w (world (fst (release_worker g name)))
| step_reclaim_delegated w w' g parent child rules :
    open_table w = (w', Ok g) → returns_freely (data g) parent child rules →
    table_step w (world (fst (reclaim_delegated_scope g parent child rules)))
| step_owner_release w o : table_step w (fst (fst (owner_release w o)))
| step_adopt w name p seg :
    adoptable w name seg → table_step w (fst (adopt_allocation_at w name p seg))
| step_activate w w' o expected replacement a :
    begin_segment_activation w o expected replacement = (w', Ok a) →
    table_step w (world (fst (commit_activation a)))
| step_lookup kill w seg : table_step w (fst (lookup_segment kill w seg)).

Lemma step_inv w w' : table_step w w' → table_inv (disk w) → table_inv (disk w').
Proof.
  intros Hs Hinv. destruct Hs;
    try (match goal with Ho : open_table _ = _ |- _ => apply (open_inv table_inv _ _ _ Hinv) in Ho end).
  - apply install_inv; [by left|done].
  - apply register_inv; [by left|done].
  - by apply install_inv.
  - by apply register_inv.
  - by apply delegate_inv.
  - by apply release_inv.
  - by apply reclaim_delegated_inv.
  - by apply owner_release_inv.
  - by apply adopt_inv.
  - apply begin_activation_open in H as (Ho & _). by eapply activation_inv, open_inv.
  - unfold lookup_segment. destruct (open_table w) as [w1 [g|e]] eqn:Ho; simpl;
      [|by rewrite (open_disk _ _ _ Ho)].
    by apply reclaim_inv, (open_inv table_inv w w1).
Qed.

Lemma steps_inv w w' : rtc table_step w w' → table_inv (disk w) → table_inv (disk w').
Proof. induction 1; eauto using step_inv. Qed.

End steps.

Lemma empty_inv : table_inv (mkLockFile []).
Proof. split_and!; [done|split_and!; simpl|]; intros ? *; by rewrite elem_of_nil. Qed.

(** ** Segments *)

Lemma segs_reparent n q (l : list Allocation) :
  omap segment_id (reparent n q <$> l) = omap segment_id l.
Proof.
  induction l as [|a l IH]; [done|].
  rewrite fmap_cons. cbn. fold (omap (M:=list) segment_id).
  assert (segment_id (reparent n q a) = segment_id a) as ->;
    [unfold reparent; by case_bool_decide|].
  by destruct (segment_id a); [f_equal|].
Qed.

Lemma segs_remove_at idx (l : list Allocation) :
  NoDup (omap segment_id l) → NoDup (omap segment_id (remove_at idx l)).
Proof.
  intros Hnd. destruct (l !! idx) as [a|] eqn:Hi.
  - apply list_elem_of_split_length in Hi as (l1 & l2 & -> & ->).
    rewrite remove_at_app, segs_reparent, omap_app. rewrite omap_app in Hnd. simpl in Hnd.
    destruct (segment_id a); [|done].
    apply NoDup_app in Hnd as (? & Hdis & [_ ?]%NoDup_cons). apply NoDup_app.
    split_and!; [done| |done]. intros x Hx1 Hx2. apply (Hdis x Hx1). by right.
  - unfold remove_at. by rewrite Hi.
Qed.

Lemma segs_reclaim names (l : list Allocation) :
  NoDup (omap segment_id l) → NoDup (omap segment_id (foldl remove_named l names)).
Proof.
  revert l. induction names as [|n names IH]; intros l Hl; simpl; [done|].
  apply IH. unfold remove_named. destruct (name_position n l); [|done]. by apply segs_remove_at.
Qed.

Lemma segs_push (l : list Allocation) n :
  NoDup (omap segment_id l) →
  (∀ b seg, b ∈ l → segment_id n = Some seg → segment_id b ≠ Some seg) →
  NoDup (omap segment_id (l ++ [n])).
Proof.
  intros Hl Hn. rewrite omap_app. simpl. destruct (segment_id n) as [seg|] eqn:Hs.
  - apply NoDup_app. split_and!; [done| |by apply NoDup_singleton].
    intros x (b & Hb & Hx)%list_elem_of_omap ->%list_elem_of_singleton. by apply (Hn b seg).
  - by rewrite app_nil_r.
Qed.

Lemma find_by_segment_None lock seg b :
  find_by_segment lock seg = None → b ∈ allocations lock → segment_id b ≠ Some seg.
Proof.
  unfold find_by_segment. intros Hf Hb%list_elem_of_In.
  by apply (find_none _ _ Hf), bool_decide_eq_false in Hb.
Qed.

(** Setting the Segment of one Worker, when no other Worker holds it. *)
Lemma segs_find_mut lock name f seg :
  wf_table lock → segments_unique lock → (∀ a, segment_id (f a) = Some seg) →
  (∀ b, b ∈ allocations lock → segment_id b = Some seg → worker_name b = name) →
  segments_unique (find_mut lock name f).
Proof.
  intros Hwf%wf_names Hu Hf Hother. unfold segments_unique, find_mut in *. simpl.
  set (P := λ a : Allocation, bool_decide (worker_name a = name)).
  induction (allocations lock) as [|a l IH]; simpl in *; [done|].
  apply NoDup_cons in Hwf as [Hna Hwf].
  assert (P a = true ↔ worker_name a = name) as HP by (subst P; apply bool_decide_eq_true).
  destruct (P a).
  - simpl. rewrite Hf. apply NoDup_cons. split.
    + intros (b & Hb & Hs)%list_elem_of_omap. apply Hna.
      rewrite (proj1 HP eq_refl), <- (Hother b); [by apply list_elem_of_fmap_2|by right|done].
    + destruct (segment_id a); [by apply NoDup_cons in Hu as [_ ?]|done].
  - assert (worker_name a ≠ name) as Hne by (intros ?; naive_solver).
    assert (NoDup (omap segment_id l)) as Hl.
    { destruct (segment_id a); [by apply NoDup_cons in Hu as [_ ?]|done]. }
    simpl. assert (∀ b, b ∈ l → segment_id b = Some seg → worker_name b = name) as Hother'.
    { intros b Hb. apply Hother. by right. }
    specialize (IH Hwf Hl Hother'). destruct (segment_id a) as [sa|] eqn:Hsa; [|done].
    apply NoDup_cons. apply NoDup_cons in Hu as [Hnot _]. split; [|done].
    intros (b & Hb & Hs)%list_elem_of_omap.
    assert (b ∈ l ∨ segment_id b = Some seg) as [Hbl|Hbs].
    { clear -Hb Hf. induction l as [|c l IH]; simpl in Hb; [by left|].
      destruct (P c); apply elem_of_cons in Hb as [->|Hb];
        [right; apply Hf|left; by right|left; by left|].
      destruct (IH Hb); [left; by right|by right]. }
    + apply Hnot. apply list_elem_of_omap. eauto.
    + rewrite Hs in Hbs. injection Hbs as ->. apply Hne. by apply (Hother a); [left|].
Qed.

Lemma segs_reclaim_stale alive g :
  both segments_unique g → both segments_unique (reclaim_stale_with alive g).
Proof.
  intros Hg. unfold reclaim_stale_with.
  destruct (dead_names alive (allocations (data g))); [done|].
  apply save_inv, set_data_inv; [done|]. apply segs_reclaim. by destruct Hg.
Qed.

Lemma segs_prepare kill g name p sock allow deny seg :
  both segments_unique g →
  both segments_unique (fst (prepare_worker_with_deny kill g name p sock allow deny seg)).
Proof.
  intros Hg%(segs_reclaim_stale (pid_alive kill)). unfold prepare_worker_with_deny, reclaim_stale.
  set (g' := reclaim_stale_with (pid_alive kill) g) in *.
  destruct (find (data g') name); [done|].
  destruct (find_by_segment (data g') seg) eqn:Hs; [done|].
  destruct (check_write_rules _ _ _) as [[]|]; [|done].
  apply set_data_inv; [done|]. apply segs_push; [by destruct Hg|].
  intros b s Hb [= <-]. by apply (find_by_segment_None (data g')).
Qed.

Lemma segs_install kill w name p sock allow deny seg :
  segments_unique (disk w) →
  segments_unique (disk (fst (install_top_level_with_deny kill w name p sock allow deny seg))).
Proof.
  intros Hu. unfold install_top_level_with_deny.
  destruct (open_table w) as [w' [g|e]] eqn:Ho; simpl; [|by rewrite (open_disk _ _ _ Ho)].
  pose proof (open_inv _ _ _ _ Hu Ho) as Hg%(segs_prepare kill _ name p sock allow deny seg).
  destruct (prepare_worker_with_deny _ _ _ _ _ _ _ _) as [g' [[]|]]; [|by destruct Hg].
  apply (commit_acquisition_inv segments_unique _ name) in Hg.
  by destruct (commit_acquisition _ _).
Qed.

Lemma segs_register kill g name p sock allow deny seg :
  both segments_unique g →
  segments_unique (disk (world (fst (register_worker_with_deny kill g name p sock allow deny seg)))).
Proof.
  intros Hg%(segs_prepare kill g name p sock allow deny seg). unfold register_worker_with_deny.
  destruct (prepare_worker_with_deny _ _ _ _ _ _ _ _) as [g' [[]|]]; [|by destruct Hg].
  apply save_inv in Hg. simpl in Hg. by destruct (save g'), Hg.
Qed.

Lemma segs_delegate kill fs g spawner spawned p sock allow ds :
  both segments_unique g →
  both segments_unique (fst (delegate_scope kill fs g spawner spawned p sock allow ds)).
Proof.
  intros Hg%(segs_reclaim_stale (pid_alive kill)). unfold delegate_scope, reclaim_stale.
  set (g' := reclaim_stale_with (pid_alive kill) g) in *.
  destruct (find (data g') spawned); [done|]. destruct (find (data g') spawner); [|done].
  destruct (check_delegated_rules _ _ _ _ _) as [[]|]; [|done].
  set (n := mkAllocation _ _ _ _ _ _ _).
  assert (both segments_unique (push_allocation g' n)) as H%save_inv.
  { apply set_data_inv; [done|]. apply segs_push; [by destruct Hg|done]. }
  by destruct (save _).
Qed.

Lemma segs_release g name :
  both segments_unique g → both segments_unique (fst (release_worker g name)).
Proof.
  intros Hg. unfold release_worker. destruct (name_position _ _) as [idx|]; [|done].
  assert (both segments_unique (set_data g (mkLockFile (remove_at idx (allocations (data g))))))
    as H%save_inv.
  { apply set_data_inv; [done|]. apply segs_remove_at. by destruct Hg. }
  by destruct (save _).
Qed.

Lemma segs_set_deny name rules l :
  omap segment_id (update_first (λ a, bool_decide (worker_name a = name))
    (λ a, set_scope_deny a (foldl remove_first_deny (scope_deny a) rules)) l)
  = omap segment_id l.
Proof.
  induction l as [|a l IH]; simpl; [done|]. case_bool_decide; simpl; [done|].
  by destruct (segment_id a); [f_equal|].
Qed.

Lemma segs_reclaim_delegated g parent child rules :
  both segments_unique g →
  both segments_unique (fst (reclaim_delegated_scope g parent child rules)).
Proof.
  intros Hg. unfold reclaim_delegated_scope.
  set (lock := match name_position _ _ with Some idx => _ | None => _ end).
  assert (both segments_unique (set_data g lock)) as H%save_inv.
  { apply set_data_inv; [done|]. subst lock. unfold segments_unique.
    destruct (name_position _ _); simpl; [apply segs_remove_at|];
      rewrite segs_set_deny; by destruct Hg. }
  by destruct (save _).
Qed.

Lemma segs_owner_release w o :
  segments_unique (disk w) → segments_unique (disk (fst (fst (owner_release w o)))).
Proof.
  intros Hu. unfold owner_release.
  destruct (guard_attached o); [done|]. destruct (released o); [done|].
  destruct (open_table w) as [w' [g|e]] eqn:Ho; simpl; [|by rewrite (open_disk _ _ _ Ho)].
  pose proof (open_inv _ _ _ _ Hu Ho) as Hg.
  destruct (find (data g) (o_worker_name o)).
  - apply (segs_release g (o_worker_name o)) in Hg.
    destruct (release_worker g (o_worker_name o)) as [g' [[]|]]; by destruct Hg.
  - apply save_inv in Hg. destruct (save g) as [g' [[]|]]; by destruct Hg.
Qed.

(** The adopted Segment is held by no other Worker. *)
Definition adopts_fresh (w : World) (name : string) (seg : SegmentId) : Prop :=
  ∀ b, b ∈ allocations (disk w) → segment_id b = Some seg → worker_name b = name.

Lemma segs_adopt w name p seg :
  wf_table (disk w) → adopts_fresh w name seg → segments_unique (disk w) →
  segments_unique (disk (fst (adopt_allocation_at w name p seg))).
Proof.
  intros Hwf Hfresh Hu. unfold adopt_allocation_at.
  destruct (open_table w) as [w' [g|e]] eqn:Ho; simpl; [|by rewrite (open_disk _ _ _ Ho)].
  pose proof (open_inv _ _ _ _ Hu Ho) as Hg. apply open_data in Ho as [Hd _].
  destruct (find (data g) name); [|by destruct Hg].
  set (g' := set_data g _).
  assert (both segments_unique g') as H%(commit_acquisition_inv _ _ name).
  { apply set_data_inv; [done|]. rewrite Hd. by eapply segs_find_mut. }
  by destruct (commit_acquisition g' name).
Qed.

Lemma step_segs w w' :
  table_step adopts_fresh w w' → table_inv (disk w) → segments_unique (disk w) →
  segments_unique (disk w').
Proof.
  intros Hs (Hwf & _) Hu. destruct Hs;
    try (match goal with Ho : open_table _ = _ |- _ =>
           apply (open_inv segments_unique _ _ _ Hu) in Ho end).
  - by apply segs_install.
  - by apply segs_register.
  - by apply segs_install.
  - by apply segs_register.
  - by apply segs_delegate.
  - by apply segs_release.
  - by apply segs_reclaim_delegated.
  - by apply segs_owner_release.
  - by apply segs_adopt.
  - apply begin_activation_open in H as (Ho & Hn & Hr & Hother).
    pose proof (open_inv _ _ _ _ Hu Ho) as Hg. apply open_data in Ho as [Hd _].
    unfold commit_activation. destruct (find _ (act_worker a)); [|by destruct Hg].
    set (g' := set_data _ _).
    assert (both segments_unique g') as H%save_inv.
    { apply set_data_inv; [done|]. eapply segs_find_mut; [by rewrite Hd|by destruct Hg|done|].
      by rewrite Hn, Hr. }
    by destruct (save g') as [g'' [[]|]], H.
  - unfold lookup_segment. destruct (open_table w) as [w1 [g|e]] eqn:Ho; simpl;
      [|by rewrite (open_disk _ _ _ Ho)].
    by apply segs_reclaim_stale, (open_inv segments_unique w w1).
Qed.

Lemma steps_segs w w' :
  rtc (table_step adopts_fresh) w w' → table_inv (disk w) → segments_unique (disk w) →
  segments_unique (disk w').
Proof. induction 1; eauto using step_inv, step_segs. Qed.

(** ** What a removal keeps *)

(** An allocation without its place in the delegation forest. *)
Definition forget (a : Allocation) : Allocation :=
  mkAllocation (worker_name a) (pid a) (socket a) (scope_allow a) (scope_deny a) None
    (segment_id a).

Lemma forget_reparent n q a : forget (reparent n q a) = forget a.
Proof. unfold reparent. by case_bool_decide. Qed.

Lemma forget_reparents n q (l : list Allocation) : forget <$> (reparent n q <$> l) = forget <$> l.
Proof.
  rewrite <- list_fmap_compose. apply list_fmap_ext. intros ???. apply forget_reparent.
Qed.

Lemma filter_all {A} (f : A → bool) l : (∀ x, x ∈ l → f x = true) → List.filter f l = l.
Proof.
  induction l as [|x l IH]; intros H; simpl; [done|].
  rewrite H by (by left). f_equal. apply IH. intros y Hy. apply H. by right.
Qed.

Lemma remove_named_keeps l name :
  NoDup (worker_name <$> l) →
  forget <$> remove_named l name
  = forget <$> List.filter (λ a, negb (bool_decide (worker_name a = name))) l.
Proof.
  intros Hnd. unfold remove_named. destruct (name_position name l) as [idx|] eqn:Hp.
  - apply name_position_Some in Hp as (l1 & a & l2 & -> & <- & <-).
    rewrite remove_at_app, forget_reparents, List.filter_app. simpl.
    rewrite bool_decide_true by done. simpl.
    rewrite fmap_app, fmap_cons in Hnd. apply NoDup_app in Hnd as (_ & Hdis & [Hn _]%NoDup_cons).
    rewrite !filter_all; [done| |]; intros x Hx; apply negb_true_iff, bool_decide_eq_false;
      intros Heq.
    + apply Hn. rewrite <- Heq. by apply list_elem_of_fmap_2.
    + apply (Hdis (worker_name x)); [by apply list_elem_of_fmap_2|]. rewrite Heq. by left.
  - apply name_position_None in Hp. rewrite filter_all; [done|].
    intros a Ha. apply negb_true_iff, bool_decide_eq_false. intros <-.
    apply Hp. by apply list_elem_of_fmap_2.
Qed.

Lemma wf_remove_named l name :
  wf_table (mkLockFile l) → wf_table (mkLockFile (remove_named l name)).
Proof.
  intros Hwf. unfold remove_named. destruct (name_position name l) as [idx|] eqn:Hp; [|done].
  apply name_position_Some in Hp as (l1 & a & l2 & -> & <- & <-).
  rewrite remove_at_app. by apply wf_remove.
Qed.

Lemma filter_forget (f : Allocation → bool) l1 l2 :
  (∀ a b, forget a = forget b → f a = f b) → forget <$> l1 = forget <$> l2 →
  forget <$> List.filter f l1 = forget <$> List.filter f l2.
Proof.
  intros Hf. revert l2. induction l1 as [|a l1 IH]; intros [|b l2]; simpl; try done.
  intros [= H1 H2 H3 H4 H5 H6 Hl]. rewrite (Hf a b) by (unfold forget; congruence).
  destruct (f b); simpl; [f_equal; [unfold forget; congruence|]|]; by apply IH.
Qed.

Lemma filter_names_cons n names l :
  List.filter (λ a, negb (bool_decide (worker_name a ∈ names)))
    (List.filter (λ a, negb (bool_decide (worker_name a = n))) l)
  = List.filter (λ a, negb (bool_decide (worker_name a ∈ n :: names))) l.
Proof.
  induction l as [|a l IH]; simpl; [done|].
  rewrite (bool_decide_ext (worker_name a ∈ n :: names)
             (worker_name a = n ∨ worker_name a ∈ names)) by apply elem_of_cons.
  rewrite bool_decide_or. destruct (bool_decide (worker_name a = n)); simpl; [done|].
  by destruct (bool_decide (worker_name a ∈ names)); simpl; rewrite IH.
Qed.

Lemma reclaimed_keeps names l :
  wf_table (mkLockFile l) →
  wf_table (mkLockFile (foldl remove_named l names)) ∧
  forget <$> foldl remove_named l names
  = forget <$> List.filter (λ a, negb (bool_decide (worker_name a ∈ names))) l.
Proof.
  revert l. induction names as [|n names IH]; intros l Hwf; simpl.
  - split; [done|]. by rewrite filter_all.
  - destruct (IH _ (wf_remove_named l n Hwf)) as [Hw ->]. split; [done|].
    rewrite (filter_forget _ _ (List.filter (λ a, negb (bool_decide (worker_name a = n))) l));
      [|intros a b [= ->]; done|by apply remove_named_keeps, (wf_names (mkLockFile l))].
    by rewrite filter_names_cons.
Qed.

Lemma reclaim_keeps_live alive l :
  wf_table (mkLockFile l) →
  wf_table (mkLockFile (foldl remove_named l (dead_names alive l))) ∧
  forget <$> foldl remove_named l (dead_names alive l)
  = forget <$> List.filter (λ a, alive (pid a)) l.
Proof.
  intros Hwf. destruct (reclaimed_keeps (dead_names alive l) l Hwf) as [? ->].
  split; [done|]. f_equal. apply filter_ext_in. intros a Ha%list_elem_of_In.
  destruct (alive (pid a)) eqn:Hal.
  - apply negb_true_iff, bool_decide_eq_false.
    intros (b & Hn & [Hb Hd]%list_filter_elem_of)%list_elem_of_fmap.
    rewrite (wf_name_inj (mkLockFile l) a b Hwf Ha Hb Hn) in Hal. by rewrite Hal in Hd.
  - apply negb_false_iff, bool_decide_eq_true. apply list_elem_of_fmap_2.
    apply list_filter_elem_of. by rewrite Hal.
Qed.

Lemma remove_at_absent l name idx :
  wf_table (mkLockFile l) → name_position name l = Some idx →
  name ∉ worker_name <$> remove_at idx l.
Proof.
  intros Hwf (l1 & a & l2 & -> & <- & <-)%name_position_Some. rewrite remove_at_app.
  intros (b' & Hn & (b & Hb & Hne & ->)%elem_of_removed)%list_elem_of_fmap; [|done].
  rewrite reparent_name in Hn. done.
Qed.

Lemma save_spec g :
  data (fst (save g)) = data g ∧
  match snd (save g) with
  | Ok _ => disk (world (fst (save g))) = data g
  | Err _ => upcoming (world g) ≠ []
  end.
Proof.
  unfold save, save_with_publication, next_io.
  destruct (upcoming (world g)) as [|[] io]; done.
Qed.

Lemma open_healthy w : upcoming w = [] → open_table w = (w, Ok (mkGuard (disk w) w)).
Proof. unfold open_table, next_io. by intros ->. Qed.

Lemma find_position lock name a :
  find lock name = Some a → ∃ idx, name_position name (allocations lock) = Some idx.
Proof.
  intros [Ha Hn]%find_Some. destruct (name_position name _) eqn:Hp; [eauto|].
  apply name_position_None in Hp. destruct Hp. rewrite <- Hn. by apply list_elem_of_fmap_2.
Qed.

Lemma owner_release_healthy d o :
  guard_attached o = false → ∃ w' o', owner_release (mkWorld d []) o = (w', o', Ok tt).
Proof.
  intros Hg. unfold owner_release. rewrite Hg. destruct (released o); [eauto|].
  rewrite open_healthy by done. simpl.
  destruct (find d (o_worker_name o)) eqn:Hf; [|eauto].
  unfold release_worker. destruct (find_position _ _ _ Hf) as [idx Hp]. simpl in *. rewrite Hp. simpl. eauto.
Qed.

Lemma release_worker_absent g name :
  wf_table (data g) → snd (release_worker g name) = Ok tt →
  name ∉ worker_name <$> allocations (disk (world (fst (release_worker g name)))).
Proof.
  intros Hwf. unfold release_worker. destruct (name_position _ _) as [idx|] eqn:Hp; [|done].
  set (g1 := set_data _ _). pose proof (save_spec g1) as [_ Hs].
  destruct (save g1) as [g2 [[]|e]]; simpl in *; [|done]. rewrite Hs. intros _.
  subst g1. simpl. apply remove_at_absent; [|done]. by destruct (data g).
Qed.

Lemma push_find lock n :
  find lock (worker_name n) = None →
  find (mkLockFile (allocations lock ++ [n])) (worker_name n) = Some n.
Proof.
  unfold find. simpl. induction (allocations lock) as [|a l IH]; simpl.
  - by rewrite bool_decide_true by done.
  - by destruct (bool_decide (worker_name a = worker_name n)).
Qed.

Lemma reclaim_disk alive g :
  disk (world (reclaim_stale_with alive g)) = disk (world g) ∨
  disk (world (reclaim_stale_with alive g)) = data (reclaim_stale_with alive g).
Proof.
  unfold reclaim_stale_with. destruct (dead_names _ _); [by left|].
  set (g1 := set_data _ _). pose proof (save_pub_disk g1) as Hs.
  pose proof (save_pub_data g1) as Hd. unfold save.
  destruct (save_with_publication g1) as [[g2 []] r]; simpl in *; destruct Hs as [-> _];
    [right; by rewrite Hd|by left].
Qed.

(** ** Properties of the Worker allocation table *)

(** C1.  Write ownership is exclusive.  Starting from an empty table, after any sequence of
    installations and registrations, with deny rules or without, delegations, releases,
    reclaims, adoptions, Segment activations and lookups, with any of their file operations
    failing before or after the rename, two Workers that may both write a path (a write rule of
    theirs claims it and no deny rule does) are an ancestor and a descendant in the delegation
    forest.  Three conditions are on the steps: a rule that is delegated lies inside the write
    rules of the spawner and outside its deny rules ([covered_by_spawner]); the rules the conflict
    search blames contain all that overlap a request with deny rules ([blame_suffices]); and
    what a Worker takes back is held by nobody but itself and the child
    ([returns_freely]).  None of them is checked by the code:
    [read_only_spawner_breaks_exclusivity] and [one_blamed_rule_breaks_exclusivity] show what
    happens without the first and the second. *)
Theorem write_exclusivity (io : list io_outcome) (w : World) (a b : Allocation) (p : path) :
  rtc (table_step (λ _ _ _, True)) (mkWorld (mkLockFile []) io) w →
  a ∈ allocations (disk w) → b ∈ allocations (disk w) → worker_name a ≠ worker_name b →
  may_write a p → may_write b p →
  tc (delegates (disk w)) (worker_name a) (worker_name b) ∨
  tc (delegates (disk w)) (worker_name b) (worker_name a).
Proof.
  intros Hrun Ha Hb Hne Hpa Hpb.
  destruct (steps_inv _ _ _ Hrun empty_inv) as (_ & _ & Hex). apply Hex; [done..|]. by exists p.
Qed.

Definition example_rule (p : string) (perm : Permission) : ScopeRule :=
  mkScopeRule (parse_path p) perm true Resolved.

Definition example_delegation (p : string) : Scope.DelegationScope :=
  Scope.mkDelegationScope
    [mkResolvedRule (parse_path p) (parse_path p) Write true Resolved] [].

(** A run: a Worker on [/w], which delegates [/w/src]. *)
Definition example_root : World :=
  fst (install_top_level (λ _, 0) (mkWorld (mkLockFile []) []) "root" 10 (parse_path "/s/root")
         [example_rule "/w" Write] 1).

Definition example_child : World :=
  world (fst (delegate_scope (λ _, 0) Scope.plain_fs (mkGuard (disk example_root) example_root)
                "root" "child" 11 (parse_path "/s/child") [example_rule "/w/src" Write]
                (example_delegation "/w"))).

Lemma example_covered : covered_by_spawner (disk example_root) "root" [example_rule "/w/src" Write].
Proof.
  intros s rule Hs _ Hr _. vm_compute in Hs.
  apply list_elem_of_singleton in Hs as ->. apply list_elem_of_singleton in Hr as ->.
  split; [|by intros d Hd%not_elem_of_nil].
  exists (example_rule "/w" Write). split; [by vm_compute; left|reflexivity].
Defined.

(** A third Worker, restored on everything but what the first two hold. *)
Definition example_restored : World :=
  fst (install_top_level_with_deny (λ _, 0) example_child "restored" 12 (parse_path "/s/r")
         [example_rule "/" Write] [example_rule "/w" Write] 2).

Lemma write_exclusivity_witness :
  ∃ a b, a ∈ allocations (disk example_restored) ∧ b ∈ allocations (disk example_restored) ∧
    (tc (delegates (disk example_restored)) (worker_name a) (worker_name b) ∨
     tc (delegates (disk example_restored)) (worker_name b) (worker_name a)).
Proof.
  exists (mkAllocation "root" 10 (parse_path "/s/root") [example_rule "/w" Write] [] None (Some 1)),
    (mkAllocation "child" 11 (parse_path "/s/child") [example_rule "/w/src" Write] []
       (Some "root") None).
  split_and!; [by vm_compute; left|by vm_compute; right; left|].
  apply (write_exclusivity [] example_restored _ _ (parse_path "/w/src")).
  - eapply rtc_l; [|eapply rtc_l; [|eapply rtc_l; [|apply rtc_refl]]].
    + apply (step_install _ (λ _, 0) _ "root" 10 (parse_path "/s/root")
               [example_rule "/w" Write] 1).
    + apply (step_delegate _ (λ _, 0) Scope.plain_fs example_root example_root
               (mkGuard (disk example_root) example_root)); [reflexivity|apply example_covered].
    + apply (step_install_with_deny _ (λ _, 0) example_child "restored" 12 (parse_path "/s/r")
               [example_rule "/" Write] [example_rule "/w" Write] 2).
      intros w' g Ho. right. intros rule b r _ _ Hb Hr _. right. left.
      exists (example_rule "/w" Write). split; [by vm_compute; left|].
      vm_compute in Ho. injection Ho as _ <-. vm_compute in Hb.
      apply elem_of_cons in Hb as [->|[->|Hb%not_elem_of_nil]%elem_of_cons]; [| |done];
        vm_compute in Hr; apply list_elem_of_singleton in Hr as ->; reflexivity.
  - by vm_compute; left.
  - by vm_compute; right; left.
  - discriminate.
  - split; [|by intros (d & Hd%not_elem_of_nil & _)].
    exists (example_rule "/w" Write). split; [by vm_compute; left|reflexivity].
  - split; [|by intros (d & Hd%not_elem_of_nil & _)].
    exists (example_rule "/w/src" Write). split; [by vm_compute; left|reflexivity].
Defined.

(** No two Workers write to one Segment.  Along every such run in which a spawned
    Worker adopts its allocation with a Segment no other Worker holds, the Segments of
    the allocations on disk are pairwise distinct. *)
Theorem segment_writers_unique (io : list io_outcome) (w : World) :
  rtc (table_step adopts_fresh) (mkWorld (mkLockFile []) io) w → segments_unique (disk w).
Proof. intros Hrun. eapply steps_segs; [done|apply empty_inv|constructor]. Qed.

Lemma segment_writers_unique_witness :
  segments_unique (disk (fst (adopt_allocation_at example_child "child" 12 2))).
Proof.
  apply (segment_writers_unique []).
  eapply rtc_l; [|eapply rtc_l; [|eapply rtc_l; [|apply rtc_refl]]].
  - apply (step_install _ (λ _, 0) _ "root" 10 (parse_path "/s/root")
             [example_rule "/w" Write] 1).
  - apply (step_delegate _ (λ _, 0) Scope.plain_fs example_root example_root
             (mkGuard (disk example_root) example_root) "root" "child" 11
             (parse_path "/s/child") [example_rule "/w/src" Write] (example_delegation "/w"));
      [reflexivity|apply example_covered].
  - apply step_adopt. intros b Hb Hs. vm_compute in Hb.
    apply elem_of_cons in Hb as [->|Hb%list_elem_of_singleton]; [|subst b]; by vm_compute in Hs.
Defined.

(** The recursive conflict search always ends, whatever the rule and the exempt
    Worker, and every owner it reports is an allocation with a write rule that shares a
    path with the requested rule. *)
Theorem conflict_search_total (lock : LockFile) (rule : ScopeRule) (exempt : option string) :
  wf_table lock →
  ∃ owners, search_owners lock rule exempt = Some owners ∧
    ∀ o, o ∈ owners → Some (owner_name o) ≠ exempt ∧
      ∃ a p, a ∈ allocations lock ∧ worker_name a = owner_name o ∧
        owner_rule o ∈ write_allow a ∧ rule_claims (owner_rule o) p ∧ rule_claims rule p.
Proof.
  intros Hwf. destruct (search_owners_total lock rule exempt Hwf) as [os Hos].
  exists os. split; [done|]. unfold search_owners in Hos. intros o Ho.
  destruct (is_write rule); simpl in Hos; [|injection Hos as <-; by apply not_elem_of_nil in Ho].
  destruct (collect_owners _ _ _ _) as [all|] eqn:Hall; [|done]. injection Hos as <-.
  apply list_filter_elem_of in Ho as [Ho Hex]. apply negb_true_iff, bool_decide_eq_false in Hex.
  split; [done|]. apply (collect_owners_spec _ _ _ _ _ Hall) in Ho as (a & [Ha _]%roots_spec & Hf).
  destruct (search_owner_sound lock a rule _ o Ha Hf) as (b & Hb & Hn & Hr & Hov).
  apply rules_overlap_exact in Hov as (p & ? & ?). eauto 10.
Qed.

Lemma conflict_search_total_witness :
  ∃ owners, search_owners (disk example_child) (example_rule "/w/src/x" Write) None = Some owners ∧
    ∀ o, o ∈ owners → Some (owner_name o) ≠ None ∧
      ∃ a p, a ∈ allocations (disk example_child) ∧ worker_name a = owner_name o ∧
        owner_rule o ∈ write_allow a ∧ rule_claims (owner_rule o) p ∧
        rule_claims (example_rule "/w/src/x" Write) p.
Proof. apply conflict_search_total. reflexivity. Defined.

(** Reclaiming removes exactly the allocations of dead processes.  The others keep
    their order and everything but their parent, and the table stays well formed: every
    parent is still listed, before its children. *)
Theorem reclaim_removes_exactly_dead (kill : Z → Z) (g : LockFileGuard) :
  wf_table (data g) →
  wf_table (data (reclaim_stale kill g)) ∧
  forget <$> allocations (data (reclaim_stale kill g))
  = forget <$> List.filter (λ a, pid_alive kill (pid a)) (allocations (data g)).
Proof.
  intros Hwf. unfold reclaim_stale. rewrite reclaim_data.
  apply reclaim_keeps_live. by destruct (data g).
Qed.

Lemma reclaim_removes_exactly_dead_witness :
  let g := mkGuard (disk example_child) example_child in
  let kill p := if p =? 10 then ESRCH else 0 in
  wf_table (data (reclaim_stale kill g)) ∧
  forget <$> allocations (data (reclaim_stale kill g))
  = forget <$> List.filter (λ a, pid_alive kill (pid a)) (allocations (data g)).
Proof. intros g kill. apply reclaim_removes_exactly_dead. reflexivity. Defined.

(** The outcome of installing a top-level Worker says what is on disk.  On success,
    and when the save failed after it was published, the allocation is on disk exactly
    as requested and the owner returned is still responsible for it; after any other
    error nothing was added: the table is the one before, or that one with the dead
    allocations reclaimed. *)
Theorem install_outcome (kill : Z → Z) (w w' : World) (name : string) (p : Z) (sock : path)
    (allow deny : list ScopeRule) (seg : SegmentId)
    (r : result ScopeAllocationOwner ScopeLockError) :
  install_top_level_with_deny kill w name p sock allow deny seg = (w', r) →
  match r with
  | Ok o | Err (AcquisitionSaveFailed _ o) =>
      o_worker_name o = name ∧ released o = false ∧
      find (disk w') name = Some (mkAllocation name p sock allow deny None (Some seg))
  | Err _ =>
      disk w' = disk w ∨
      disk w' = mkLockFile (foldl remove_named (allocations (disk w))
                  (dead_names (pid_alive kill) (allocations (disk w))))
  end.
Proof.
  unfold install_top_level_with_deny. destruct (open_table w) as [w1 [g|e]] eqn:Ho.
  2: { intros [= <- <-]. left. by apply open_disk in Ho. }
  pose proof (open_disk _ _ _ Ho) as Hdisk. apply open_data in Ho as [Hdata Hworld].
  unfold prepare_worker_with_deny, reclaim_stale.
  pose proof (reclaim_disk (pid_alive kill) g) as Hrd. rewrite reclaim_data in Hrd.
  rewrite Hworld, Hdisk, Hdata in Hrd.
  set (g1 := reclaim_stale_with (pid_alive kill) g) in *.
  destruct (find (data g1) name) eqn:Hf; [by intros [= <- <-]|].
  destruct (find_by_segment (data g1) seg); [by intros [= <- <-]|].
  destruct (check_write_rules _ _ _) as [[]|e] eqn:Hc.
  2: { intros [= <- <-]. by destruct (check_write_rules_Err _ _ _ _ Hc) as (?&?&?&->). }
  set (n := mkAllocation _ _ _ _ _ _ _).
  pose proof (commit_acquisition_disk (push_allocation g1 n) name) as Hcommit.
  destruct (commit_acquisition _ _) as [g2 r2]. intros [= <- <-].
  assert (disk (world g2) = data (push_allocation g1 n) →
    find (disk (world g2)) name = Some n) as Hfind.
  { intros ->. by apply (push_find (data g1) n). }
  destruct r2 as [o|[]]; try done; simpl in *.
  - destruct Hcommit as [Hd ->]. auto.
  - by rewrite Hcommit.
  - destruct Hcommit as [Hd ->]. auto.
Qed.

Lemma install_outcome_witness :
  let r := install_top_level_with_deny (λ _, 0)
             (mkWorld (disk example_child) [IoOk; FailAfterRename (OtherIo 5)]) "other" 20
             (parse_path "/s/other") [example_rule "/v" Write] [] 7 in
  o_worker_name (mkOwner "other" false false) = "other" ∧ false = false ∧
  find (disk (fst r)) "other"
  = Some (mkAllocation "other" 20 (parse_path "/s/other") [example_rule "/v" Write] [] None
            (Some 7)).
Proof.
  intros r. apply (install_outcome (λ _, 0)
    (mkWorld (disk example_child) [IoOk; FailAfterRename (OtherIo 5)]) (fst r) "other" 20
    (parse_path "/s/other") [example_rule "/v" Write] [] 7
    (Err (AcquisitionSaveFailed (OtherIo 5) (mkOwner "other" false false)))).
  vm_compute. reflexivity.
Defined.

(** Releasing an owned allocation that has no guard.  On success the Worker is on no
    line of the table on disk and a further release does nothing; on failure the owner is
    unchanged, so the release can be tried again, and it succeeds as soon as the file
    operations do. *)
Theorem owner_release_outcome (w w' : World) (o o' : ScopeAllocationOwner)
    (r : result unit ScopeLockError) :
  wf_table (disk w) → guard_attached o = false → released o = false →
  owner_release w o = (w', o', r) →
  match r with
  | Ok _ => ¬ (o_worker_name o ∈ worker_name <$> allocations (disk w')) ∧
            owner_release w' o' = (w', o', Ok tt)
  | Err _ => o' = o ∧ ∃ w'' o'', owner_release (mkWorld (disk w') []) o' = (w'', o'', Ok tt)
  end.
Proof.
  intros Hwf Hg Hr. unfold owner_release at 1. rewrite Hg, Hr.
  assert (∀ d, ∃ w'' o'', owner_release (mkWorld d []) o = (w'', o'', Ok tt)) as Hagain.
  { intros d. by apply owner_release_healthy. }
  destruct (open_table w) as [w1 [g|e]] eqn:Ho; [|by intros [= <- <- <-]].
  apply open_data in Ho as [Hd _].
  destruct (find (data g) (o_worker_name o)) eqn:Hf.
  - pose proof (release_worker_absent g (o_worker_name o)) as Habs.
    destruct (release_worker g (o_worker_name o)) as [g1 [[]|e]]; intros [= <- <- <-]; [|done].
    simpl in *. split; [|done]. apply Habs; [by rewrite Hd|done].
  - pose proof (save_spec g) as [_ Hs].
    destruct (save g) as [g1 [[]|e]]; intros [= <- <- <-]; [|done].
    simpl in *. rewrite Hs. split; [|done]. by apply find_None.
Qed.

Lemma owner_release_outcome_witness :
  let o := mkOwner "root" false false in
  let w := mkWorld (disk example_child) [IoOk; FailBeforeRename (OtherIo 5)] in
  o = o ∧ ∃ w'' o'', owner_release (mkWorld (disk w) []) o = (w'', o'', Ok tt).
Proof.
  intros o w. apply (owner_release_outcome w (mkWorld (disk w) []) o o (Err (LockIo (OtherIo 5))));
    vm_compute; reflexivity.
Defined.

(** The delegation of write authority that the spawner does not itself hold escapes
    the conflict search.  An orchestrator that may only read [/w] delegates writing
    [/w/x], as its delegation scope allows; the search stops at the orchestrator, which
    holds no overlapping write rule, so a second top-level Worker is then granted the
    same region, although neither Worker delegated to the other. *)
Theorem read_only_spawner_breaks_exclusivity :
  ∃ (w1 w2 w3 : World) (r : ScopeRule),
    w1 = fst (install_top_level (λ _, 0) (mkWorld (mkLockFile []) []) "orchestrator" 10
                (parse_path "/s/o") [example_rule "/w" Read] 1) ∧
    (w2, Ok tt)
    = (let '(g, res) := delegate_scope (λ _, 0) Scope.plain_fs (mkGuard (disk w1) w1)
                          "orchestrator" "coder" 11 (parse_path "/s/c") [r]
                          (example_delegation "/w") in (world g, res)) ∧
    (w3, Ok (mkOwner "second" true false))
    = install_top_level (λ _, 0) w2 "second" 12 (parse_path "/s/t") [r] 2 ∧
    is_write r = true ∧
    (∃ a, find (disk w3) "coder" = Some a ∧ r ∈ write_allow a ∧
       delegated_from a = Some "orchestrator") ∧
    (∃ b, find (disk w3) "second" = Some b ∧ r ∈ write_allow b ∧ delegated_from b = None).
Proof.
  eexists _, _, _, (example_rule "/w/x" Write).
  split_and!; [reflexivity|vm_compute; reflexivity|vm_compute; reflexivity|reflexivity| |];
    (eexists; split_and!; [vm_compute; reflexivity|by vm_compute; left|reflexivity]).
Qed.

(** The conflict search blames a tree of delegations for one rule, and the deny rules of a
    request are compared with that rule only.  A Worker that holds [/w] and [/v] is blamed for
    [/w]; a second one that asks for everything but [/w] is let in, and both may write [/v]. *)
Theorem one_blamed_rule_breaks_exclusivity :
  ∃ (w1 w2 : World) (a b : Allocation),
    w1 = fst (install_top_level (λ _, 0) (mkWorld (mkLockFile []) []) "first" 10 (parse_path "/s/f")
                [example_rule "/w" Write; example_rule "/v" Write] 1) ∧
    (w2, Ok (mkOwner "second" true false))
    = install_top_level_with_deny (λ _, 0) w1 "second" 11 (parse_path "/s/t")
        [example_rule "/" Write] [example_rule "/w" Write] 2 ∧
    find (disk w2) "first" = Some a ∧ find (disk w2) "second" = Some b ∧
    delegated_from a = None ∧ delegated_from b = None ∧
    may_write a (parse_path "/v/x") ∧ may_write b (parse_path "/v/x").
Proof.
  eexists _, _, _, _. split; [reflexivity|]. split; [vm_compute; reflexivity|].
  split; [vm_compute; reflexivity|]. split; [vm_compute; reflexivity|].
  split; [reflexivity|]. split; [reflexivity|]. split; split.
  - exists (example_rule "/v" Write). split; [by vm_compute; right; left|reflexivity].
  - by intros (d & Hd%not_elem_of_nil & _).
  - exists (example_rule "/" Write). split; [by vm_compute; left|reflexivity].
  - intros (d & Hd & Hp). vm_compute in Hd. apply list_elem_of_singleton in Hd as ->. discriminate Hp.
Qed.

(** Two rules of the table are reported as overlapping exactly when some path is
    claimed by both, and one covers the other exactly when its permission is no smaller
    and it claims every path the other claims. *)
Theorem table_rules_exact (a b : ScopeRule) :
  (rules_overlap a b = true ↔ ∃ p, rule_claims a p ∧ rule_claims b p) ∧
  (covers_fully a b = true ↔
     perm_leb (permission b) (permission a) = true ∧ ∀ p, rule_claims b p → rule_claims a p).
Proof. split; [apply rules_overlap_exact|apply covers_fully_exact]. Qed.

End Allocation.
