(* ===== verification/BTree.v ===== *)
(** * Ordered maps and sets keyed by strings

    [std::collections::BTreeMap] and [BTreeSet] with [String] keys, as association lists
    sorted by [String.compare], which is the byte order of Rust strings.  Iteration is
    the list itself, so that code whose output depends on it is modelled exactly. *)
From Stdlib Require Import ZArith String Ascii List Lia OrdersEx.
From stdpp Require Import base tactics numbers sets list strings sorting.
From S2P Require Import Prelude.

Definition btree (V : Type) : Type := list (string * V).

(** [BTreeMap::get]. *)
Fixpoint bt_get {V} (m : btree V) (k : string) : option V :=
  match m with
  | [] => None
  | (k', v) :: r => if bool_decide (k = k') then Some v else bt_get r k
  end.

Definition bt_contains_key {V} (m : btree V) (k : string) : bool := bool_decide (is_Some (bt_get m k)).

(** [BTreeMap::insert]: an equal key keeps its place and gets the new value. *)
Fixpoint bt_insert {V} (k : string) (v : V) (m : btree V) : btree V :=
  match m with
  | [] => [(k, v)]
  | (k', v') :: r =>
      match String.compare k k' with
      | Lt => (k, v) :: m
      | Eq => (k', v) :: r
      | Gt => (k', v') :: bt_insert k v r
      end
  end.

(** [BTreeMap::remove]. *)
Definition bt_remove {V} (k : string) (m : btree V) : btree V :=
  List.filter (λ e, negb (bool_decide (fst e = k))) m.

Definition bt_keys {V} (m : btree V) : list string := fst <$> m.
Definition bt_values {V} (m : btree V) : list V := snd <$> m.

(** [BTreeSet]: a map to the unit type. *)
Definition bset : Type := btree unit.

Definition bs_contains (s : bset) (x : string) : bool := bt_contains_key s x.

(** [BTreeSet::insert]: whether the element is new, and the set with it. *)
Definition bs_insert (x : string) (s : bset) : bool * bset :=
  if bs_contains s x then (false, s) else (true, bt_insert x tt s).

(** [collect::<BTreeSet<_>>]. *)
Definition bs_collect (l : list string) : bset := foldl (λ s x, snd (bs_insert x s)) [] l.

Definition str_lt (a b : string) : Prop := String.compare a b = Lt.

(** The representation invariant: keys are strictly increasing. *)
Definition bt_sorted {V} (m : btree V) : Prop := StronglySorted str_lt (bt_keys m).

(** ** The order *)

Lemma ascii_compare_refl a : Ascii.compare a a = Eq.
Proof. apply N.compare_refl. Qed.

Lemma str_compare_refl a : String.compare a a = Eq.
Proof. induction a as [|c a IH]; simpl; [done|]. by rewrite ascii_compare_refl. Qed.

Lemma str_compare_eq a b : String.compare a b = Eq ↔ a = b.
Proof. split; [apply String.compare_eq_iff|intros ->; apply str_compare_refl]. Qed.

Lemma str_compare_gt a b : String.compare a b = Gt ↔ str_lt b a.
Proof.
  unfold str_lt. rewrite (String.compare_antisym a b).
  by destruct (String.compare b a).
Qed.

Lemma str_lt_irrefl a : ¬ str_lt a a.
Proof. unfold str_lt. by rewrite str_compare_refl. Qed.

Lemma str_lt_trans a b c : str_lt a b → str_lt b c → str_lt a c.
Proof.
  unfold str_lt. revert b c. induction a as [|x a IH]; intros [|y b] [|z c]; simpl; try done.
  unfold Ascii.compare.
  destruct (N.compare_spec (N_of_ascii x) (N_of_ascii y)) as [Hxy|Hxy|Hxy]; try done;
  destruct (N.compare_spec (N_of_ascii y) (N_of_ascii z)) as [Hyz|Hyz|Hyz]; try done;
  destruct (N.compare_spec (N_of_ascii x) (N_of_ascii z)) as [Hxz|Hxz|Hxz]; try done;
    intros; try lia. by apply (IH b).
Qed.

(** ** Lookup and insertion *)

Section btree.
Context {V : Type}.
Implicit Types (m : btree V) (k : string) (v : V).

Lemma bt_get_elem m k v : bt_get m k = Some v → (k, v) ∈ m.
Proof.
  induction m as [|[k' v'] m IH]; simpl; [done|].
  case_bool_decide; [intros [= ->]; subst; by left|]. intros ?. right. auto.
Qed.

Lemma bt_get_is_Some m k : is_Some (bt_get m k) ↔ k ∈ bt_keys m.
Proof.
  induction m as [|[k' v'] m IH]; simpl.
  - split; [by intros [? ?]|by intros ?%not_elem_of_nil].
  - rewrite elem_of_cons. case_bool_decide; [naive_solver|]. rewrite IH. naive_solver.
Qed.

Lemma bt_get_None m k : bt_get m k = None ↔ k ∉ bt_keys m.
Proof. by rewrite <- bt_get_is_Some, <- eq_None_not_Some. Qed.

Lemma bt_contains_key_true m k : bt_contains_key m k = true ↔ k ∈ bt_keys m.
Proof. unfold bt_contains_key. by rewrite bool_decide_eq_true, bt_get_is_Some. Qed.

Lemma bt_get_insert m k v : bt_get (bt_insert k v m) k = Some v.
Proof.
  induction m as [|[k' v'] m IH]; simpl; [by rewrite bool_decide_true by done|].
  destruct (String.compare k k') eqn:Hc; simpl.
  - apply str_compare_eq in Hc as ->. by rewrite bool_decide_true by done.
  - by rewrite bool_decide_true by done.
  - rewrite bool_decide_false; [done|]. intros ->. by rewrite str_compare_refl in Hc.
Qed.

Lemma bt_get_insert_ne m k k0 v : k0 ≠ k → bt_get (bt_insert k v m) k0 = bt_get m k0.
Proof.
  intros Hne. induction m as [|[k' v'] m IH]; simpl; [by rewrite bool_decide_false by done|].
  destruct (String.compare k k') eqn:Hc; simpl.
  - apply str_compare_eq in Hc as ->. by rewrite !(bool_decide_false (k0 = k')) by done.
  - by rewrite (bool_decide_false (k0 = k)) by done.
  - by rewrite IH.
Qed.

Lemma bt_keys_insert m k v x : x ∈ bt_keys (bt_insert k v m) ↔ x = k ∨ x ∈ bt_keys m.
Proof.
  rewrite <- !bt_get_is_Some. destruct (decide (x = k)) as [->|Hne].
  - rewrite bt_get_insert. naive_solver.
  - rewrite bt_get_insert_ne by done. naive_solver.
Qed.

Lemma bt_sorted_insert m k v : bt_sorted m → bt_sorted (bt_insert k v m).
Proof.
  unfold bt_sorted. induction m as [|[k' v'] m IH]; simpl; intros Hs; [by repeat constructor|].
  apply StronglySorted_inv in Hs as [Hs Hall].
  destruct (String.compare k k') eqn:Hc; simpl.
  - by constructor.
  - constructor; [by constructor|]. constructor; [done|].
    eapply Forall_impl; [done|]. intros x Hx. by eapply str_lt_trans.
  - apply str_compare_gt in Hc. constructor; [by apply IH|]. apply Forall_forall.
    intros x [->|Hx]%bt_keys_insert; [done|]. by eapply Forall_forall in Hall.
Qed.

Lemma bt_sorted_NoDup m : bt_sorted m → NoDup (bt_keys m).
Proof.
  unfold bt_sorted. induction (bt_keys m) as [|k l IH]; intros Hs; [constructor|].
  apply StronglySorted_inv in Hs as [Hs Hall]. constructor; [|by apply IH].
  intros Hin. eapply Forall_forall in Hall; [|done]. by apply str_lt_irrefl in Hall.
Qed.

Lemma bt_elem_get m k v : bt_sorted m → (k, v) ∈ m → bt_get m k = Some v.
Proof.
  intros Hnd%bt_sorted_NoDup. induction m as [|[k' v'] m IH]; [by intros ?%not_elem_of_nil|].
  simpl in *. apply NoDup_cons in Hnd as [Hnot Hnd].
  intros [[= -> ->]|Hin]%elem_of_cons; [by rewrite bool_decide_true by done|].
  rewrite bool_decide_false; [by apply IH|]. intros ->. apply Hnot.
  by apply (list_elem_of_fmap_2 fst m (k', v)).
Qed.

End btree.

(** ** Sets *)

Lemma bs_contains_true s x : bs_contains s x = true ↔ x ∈ bt_keys s.
Proof. apply bt_contains_key_true. Qed.

Lemma bs_insert_spec x s :
  fst (bs_insert x s) = negb (bs_contains s x) ∧
  ∀ y, y ∈ bt_keys (snd (bs_insert x s)) ↔ y = x ∨ y ∈ bt_keys s.
Proof.
  unfold bs_insert. destruct (bs_contains s x) eqn:Hc; simpl; (split; [done|]); intros y.
  - apply bs_contains_true in Hc. split; [auto|]. by intros [->|].
  - apply bt_keys_insert.
Qed.

Lemma bs_insert_keys x s y : y ∈ bt_keys (snd (bs_insert x s)) ↔ y = x ∨ y ∈ bt_keys s.
Proof. apply bs_insert_spec. Qed.

Lemma bs_insert_sorted x s : bt_sorted s → bt_sorted (snd (bs_insert x s)).
Proof.
  unfold bs_insert. destruct (bs_contains s x); simpl; [done|]. apply bt_sorted_insert.
Qed.

Lemma bs_collect_keys l x : x ∈ bt_keys (bs_collect l) ↔ x ∈ l.
Proof.
  unfold bs_collect. assert (∀ s, x ∈ bt_keys (foldl (λ s x, snd (bs_insert x s)) s l)
    ↔ x ∈ l ∨ x ∈ bt_keys s) as H; [|rewrite H; set_solver].
  induction l as [|y l IH]; intros s; simpl; [set_solver|].
  rewrite IH, bs_insert_keys, elem_of_cons. tauto.
Qed.

Lemma bs_collect_sorted l : bt_sorted (bs_collect l).
Proof.
  unfold bs_collect. assert (bt_sorted (V:=unit) []) as H by constructor. revert H.
  generalize (@nil (string * unit)) as s.
  induction l as [|y l IH]; intros s H; simpl; [done|]. by apply IH, bs_insert_sorted.
Qed.

(** Sorted lists with the same elements are equal, so equality of ordered sets is
    extensional. *)
Lemma sorted_ext (l1 l2 : list string) :
  StronglySorted str_lt l1 → StronglySorted str_lt l2 →
  (∀ x, x ∈ l1 ↔ x ∈ l2) → l1 = l2.
Proof.
  revert l2. induction l1 as [|a l1 IH]; intros [|b l2] H1 H2 Hext; [done| | |].
  - exfalso. by apply (not_elem_of_nil b), Hext; left.
  - exfalso. by apply (not_elem_of_nil a), Hext; left.
  - apply StronglySorted_inv in H1 as [H1 F1], H2 as [H2 F2].
    rewrite Forall_forall in F1, F2.
    assert (a = b) as <-.
    { destruct (proj1 (elem_of_cons _ _ _) (proj1 (Hext a) ltac:(by left))) as [|Ha]; [done|].
      destruct (proj1 (elem_of_cons _ _ _) (proj2 (Hext b) ltac:(by left))) as [|Hb]; [done|].
      exfalso. apply (str_lt_irrefl a). eapply str_lt_trans; eauto. }
    f_equal. apply IH; [done..|]. intros x. specialize (Hext x).
    rewrite !elem_of_cons in Hext. split; intros Hx.
    + destruct (proj1 Hext (or_intror Hx)) as [->|]; [|done].
      by apply F1, str_lt_irrefl in Hx.
    + destruct (proj2 Hext (or_intror Hx)) as [->|]; [|done].
      by apply F2, str_lt_irrefl in Hx.
Qed.

(** ** Building a map from ordered entries *)

Lemma bt_insert_last {V} (m : btree V) k v :
  Forall (λ k', str_lt k' k) (bt_keys m) → bt_insert k v m = m ++ [(k, v)].
Proof.
  induction m as [|[k' v'] m IH]; simpl; intros H; [done|].
  apply Forall_cons in H as [Hk Hm]. apply str_compare_gt in Hk. by rewrite Hk, IH.
Qed.

Lemma bt_collect_sorted {V} (m l : btree V) :
  bt_sorted (m ++ l) → foldl (λ acc e, bt_insert (fst e) (snd e) acc) m l = m ++ l.
Proof.
  revert m. induction l as [|[k v] l IH]; intros m Hs; simpl; [by rewrite app_nil_r|].
  rewrite bt_insert_last.
  - rewrite IH; [by rewrite <- app_assoc|]. by rewrite <- app_assoc.
  - unfold bt_sorted, bt_keys in *. rewrite fmap_app, fmap_cons in Hs.
    apply Forall_forall. intros x Hx. clear IH.
    induction (fst <$> m) as [|y ks IHk]; [by apply not_elem_of_nil in Hx|].
    simpl in Hs. apply StronglySorted_inv in Hs as [Hs Hall].
    apply elem_of_cons in Hx as [->|Hx]; [|by apply IHk].
    apply Forall_app in Hall as [_ Hall]. by apply Forall_cons in Hall as [? _].
Qed.

Lemma bt_get_fmap {V W} (f : string * V → W) (m : btree V) k :
  bt_get ((λ e, (fst e, f e)) <$> m) k = (λ v, f (k, v)) <$> bt_get m k.
Proof.
  induction m as [|[k' v] m IH]; [done|]. rewrite fmap_cons. cbn [bt_get fst].
  case_bool_decide; [by subst|done].
Qed.

Lemma bt_keys_fmap {V W} (f : string * V → W) (m : btree V) :
  bt_keys ((λ e, (fst e, f e)) <$> m) = bt_keys m.
Proof. unfold bt_keys. by rewrite <- list_fmap_compose. Qed.

(** ** Sorted strings *)

(** [sort_unstable] of strings; equal strings cannot be told apart. *)
Fixpoint insert_sorted (x : string) (l : list string) : list string :=
  match l with
  | [] => [x]
  | y :: r => match String.compare x y with
              | Gt => y :: insert_sorted x r
              | _ => x :: l
              end
  end.

Fixpoint sort_unstable (l : list string) : list string :=
  match l with
  | [] => []
  | x :: r => insert_sorted x (sort_unstable r)
  end.

Definition str_le (a b : string) : Prop := String.compare a b ≠ Gt.

Lemma str_le_cases a b : str_le a b ↔ a = b ∨ str_lt a b.
Proof.
  unfold str_le, str_lt. rewrite <- str_compare_eq. destruct (String.compare a b); naive_solver.
Qed.

#[export] Instance str_le_trans : Transitive str_le.
Proof.
  intros a b c. rewrite !str_le_cases. intros [->|Hab]; [done|].
  intros [<-|Hbc]; [by right|]. right. by eapply str_lt_trans.
Qed.

#[export] Instance str_le_antisymm : AntiSymm (=) str_le.
Proof.
  intros a b. rewrite !str_le_cases. intros [|Hab]; [done|]. intros [|Hba]; [done|].
  exfalso. eapply str_lt_irrefl, str_lt_trans; done.
Qed.

Lemma insert_sorted_perm x l : insert_sorted x l ≡ₚ x :: l.
Proof.
  induction l as [|y l IH]; simpl; [done|]. destruct (String.compare x y); [done..|].
  rewrite IH. apply Permutation_swap.
Qed.

Lemma sort_perm l : sort_unstable l ≡ₚ l.
Proof. induction l as [|x l IH]; simpl; [done|]. by rewrite insert_sorted_perm, IH. Qed.

Lemma insert_sorted_sorted x l :
  StronglySorted str_le l → StronglySorted str_le (insert_sorted x l).
Proof.
  induction 1 as [|y l Hl IH Hy]; simpl; [by repeat constructor|].
  destruct (String.compare x y) eqn:Hc.
  1,2: assert (Hxy : str_le x y) by (unfold str_le; congruence);
    constructor; [by constructor|constructor; [done|]];
    eapply Forall_impl; [exact Hy|]; intros z Hz; by trans y.
  constructor; [done|]. rewrite insert_sorted_perm. constructor; [|done].
  apply str_compare_gt in Hc. apply str_le_cases. by right.
Qed.

Lemma sort_sorted l : StronglySorted str_le (sort_unstable l).
Proof. induction l; simpl; [constructor|by apply insert_sorted_sorted]. Qed.

Lemma sort_perm_eq l k : l ≡ₚ k → sort_unstable l = sort_unstable k.
Proof.
  intros Hp. apply (StronglySorted_unique str_le); [apply sort_sorted..|].
  by rewrite !sort_perm.
Qed.

Lemma sorted_NoDup l : StronglySorted str_lt l → NoDup l.
Proof.
  induction 1 as [|x l Hl IH Hx]; constructor; [|done]. intros Hin.
  rewrite Forall_forall in Hx. by apply (str_lt_irrefl x), Hx.
Qed.

Lemma sort_strict l : NoDup l → StronglySorted str_lt (sort_unstable l).
Proof.
  intros Hnd. rewrite <- (sort_perm l) in Hnd. revert Hnd.
  induction (sort_sorted l) as [|x k Hk IH Hx]; intros Hnd; [constructor|].
  apply NoDup_cons in Hnd as [Hn Hnd]. constructor; [by apply IH|].
  apply Forall_forall. intros y Hy. rewrite Forall_forall in Hx.
  destruct (proj1 (str_le_cases x y) (Hx y Hy)) as [->|]; done.
Qed.
