(* ===== verification/FlowDefinition.v ===== *)
(** * Flow definitions

    Models [src/crates/flow/src/definition.rs]: the source document, identifier and text
    validation, compilation to a [CompiledFlowDefinition] with its diagnostics, and the
    two graph searches that reject unreachable states and closed paths.  The DCDL
    engine, the JSON decoder derived by serde and SHA-256 are arguments. *)
From Stdlib Require Import ZArith String Ascii List Lia.
From stdpp Require Import base tactics numbers sets list strings pretty relations.
From S2P Require Import Prelude BTree.

(** [StateId] and [TransitionId] are transparent wrappers of a string. *)
Abbreviation StateId := string.
Abbreviation TransitionId := string.

Record CompiledTransition := mkCompiledTransition {
  t_id : TransitionId;
  t_target : StateId;
  t_condition : string;
  synthetic : bool
}.

Record CompiledState := mkCompiledState {
  s_id : StateId;
  s_instructions : string;
  s_terminal : bool;
  s_transitions : list CompiledTransition
}.

Record CompiledFlowDefinition := mkCompiledFlowDefinition {
  schema_version : Z;
  d_name : string;
  d_initial : StateId;
  d_states : btree CompiledState;
  content_digest : string
}.

Record FlowDiagnostic := mkDiagnostic {
  code : string;
  diag_path : string;
  message : string
}.

Record FlowCompileError := mkFlowCompileError { diagnostics : list FlowDiagnostic }.

Record TransitionSource := mkTransitionSource {
  src_target : string;
  src_condition : string
}.

Record StateSource := mkStateSource {
  src_instructions : string;
  src_terminal : bool;
  src_transitions : btree TransitionSource
}.

Record FlowSource := mkFlowSource {
  src_schema_version : Z;
  src_name : string;
  src_initial : string;
  src_states : btree StateSource
}.

#[export] Instance CompiledTransition_eq_dec : EqDecision CompiledTransition.
Proof. solve_decision. Defined.
#[export] Instance CompiledState_eq_dec : EqDecision CompiledState.
Proof. solve_decision. Defined.
#[export] Instance CompiledFlowDefinition_eq_dec : EqDecision CompiledFlowDefinition.
Proof. solve_decision. Defined.

(** Values of the DCDL engine and of serde_json; floats and JSON numbers made of them
    are the libraries' own. *)
#[warnings="-register-all"]
Inductive Data (F : Type) : Type :=
| DBool (b : bool)
| DInt (i : Z)
| DFloat (f : F)
| DString (s : string)
| DArray (l : list (Data F))
| DObject (fields : list (string * Data F)).
Arguments DBool {F} b.
Arguments DInt {F} i.
Arguments DFloat {F} f.
Arguments DString {F} s.
Arguments DArray {F} l.
Arguments DObject {F} fields.

#[warnings="-register-all"]
Inductive Json (N : Type) : Type :=
| JNull
| JBool (b : bool)
| JInt (i : Z)
| JNumber (n : N)
| JString (s : string)
| JArray (l : list (Json N))
| JObject (m : list (string * Json N)).
Arguments JNull {N}.
Arguments JBool {N} b.
Arguments JInt {N} i.
Arguments JNumber {N} n.
Arguments JString {N} s.
Arguments JArray {N} l.
Arguments JObject {N} m.

Module FlowDefinition.

Definition FLOW_SCHEMA_VERSION : Z := 1.
Definition CANCELLED_STATE_ID : string := "$cancelled".
Definition CANCEL_TRANSITION_ID : string := "$cancel".
Definition CANCEL_CONDITION : string :=
  "An exceptional condition makes it impossible to continue the current instructions and reach a normal terminal state with the available tools, scope, and session context.".
Definition MAX_SOURCE_BYTES : Z := 256 * 1024.
Definition MAX_STATES : Z := 128.
Definition MAX_TRANSITIONS_PER_STATE : Z := 32.
Definition MAX_TEXT_BYTES : Z := 32 * 1024.

(** [str::len] and [len] as [usize] values. *)
Definition str_len (s : string) : Z := Z.of_nat (String.length s).
Definition len {A} (l : list A) : Z := Z.of_nat (length l).

Definition state (d : CompiledFlowDefinition) (id : StateId) : option CompiledState :=
  bt_get (d_states d) id.

Definition outgoing (d : CompiledFlowDefinition) (id : StateId)
  : option (list CompiledTransition) := s_transitions <$> state d id.

Definition identifier_char (c : Z) : bool :=
  is_ascii_alphanumeric c || (c =? 45) || (c =? 95).

Definition validate_identifier (kind value : string) : result unit string :=
  if bool_decide (value = EmptyString) then Err (kind +:+ " identifier must not be empty")
  else if str_len value >? 128 then Err (kind +:+ " identifier exceeds 128 bytes")
  else if starts_with_char "$" value then
    Err (kind +:+ " identifier beginning with '$' is reserved")
  else if negb (forallb identifier_char (chars value)) then
    Err (kind +:+ " identifier must contain only ASCII letters, digits, '-' or '_'")
  else Ok tt.

(** [StateId::new] and [TransitionId::new]. *)
Definition state_id_new (value : string) : result StateId string :=
  let? _ := validate_identifier "state" value in Ok value.
Definition transition_id_new (value : string) : result TransitionId string :=
  let? _ := validate_identifier "transition" value in Ok value.

(** [new(value).unwrap_or_else(push; wrap)]: the diagnostics pushed and the id. *)
Definition or_diagnose (r : result string string) (code path value : string)
  : list FlowDiagnostic * string :=
  match r with
  | Ok id => ([], id)
  | Err m => ([mkDiagnostic code path m], value)
  end.

(** [{id:?}] of the derived [Debug]. *)
Definition debug_state_id (id : StateId) : string := "StateId(" +:+ debug_str id +:+ ")".

(** One diagnostic when the condition holds. *)
Definition diagnose_if (b : bool) (code path message : string) : list FlowDiagnostic :=
  if b then [mkDiagnostic code path message] else [].

Definition validate_text (field path value : string) (allow_empty : bool)
  : list FlowDiagnostic :=
  diagnose_if (negb allow_empty && trim_is_empty value) (field +:+ "_empty") path
    (field +:+ " must not be empty")
  ++ diagnose_if (str_len value >? MAX_TEXT_BYTES) (field +:+ "_too_large") path
       (field +:+ " exceeds 32768 bytes").

(** The body of the loop over the transitions of a state. *)
Definition compile_transition (declared_names : bset) (state_path : string)
    (entry : string * TransitionSource) : list FlowDiagnostic * CompiledTransition :=
  let '(transition_name, transition_source) := entry in
  let transition_path := state_path +:+ ".transitions." +:+ transition_name in
  let d1 := diagnose_if
    (bool_decide (transition_name = CANCEL_TRANSITION_ID) || starts_with_char "$" transition_name)
    "reserved_transition" transition_path
    "transition identifiers beginning with '$' are reserved by the Flow runtime" in
  let '(d2, transition_id) := or_diagnose (transition_id_new transition_name)
    "invalid_transition_id" transition_path transition_name in
  let d3 := diagnose_if
    (bool_decide (src_target transition_source = CANCELLED_STATE_ID)
     || starts_with_char "$" (src_target transition_source))
    "reserved_transition_target" (transition_path +:+ ".target")
    "definition authors cannot target runtime-reserved states" in
  let '(d4, target) := or_diagnose (state_id_new (src_target transition_source))
    "invalid_transition_target" (transition_path +:+ ".target") (src_target transition_source) in
  let d5 := diagnose_if (negb (bs_contains declared_names target))
    "transition_target_not_found" (transition_path +:+ ".target")
    ("transition target " +:+ debug_state_id target +:+ " is not declared") in
  let d6 := validate_text "condition" (transition_path +:+ ".condition")
              (src_condition transition_source) false in
  (d1 ++ d2 ++ d3 ++ d4 ++ d5 ++ d6,
   mkCompiledTransition transition_id target (src_condition transition_source) false).

Definition cancel_transition : CompiledTransition :=
  mkCompiledTransition CANCEL_TRANSITION_ID CANCELLED_STATE_ID CANCEL_CONDITION true.

(** The body of the loop over the states. *)
Definition compile_state (declared_names : bset) (entry : string * StateSource)
  : list FlowDiagnostic * CompiledState :=
  let '(state_name, state_source) := entry in
  let state_path := "states." +:+ state_name in
  let '(d1, state_id) := or_diagnose (state_id_new state_name)
    "invalid_state_id" state_path state_name in
  let d2 := validate_text "instructions" (state_path +:+ ".instructions")
              (src_instructions state_source) (src_terminal state_source) in
  let d3 := diagnose_if
    (src_terminal state_source && negb (len (src_transitions state_source) =? 0))
    "terminal_has_transitions" (state_path +:+ ".transitions")
    "terminal states must not declare outgoing transitions" in
  let d4 := diagnose_if
    (negb (src_terminal state_source) && (len (src_transitions state_source) =? 0))
    "non_terminal_without_transition" (state_path +:+ ".transitions")
    "non-terminal states must declare at least one transition" in
  let d5 := diagnose_if (len (src_transitions state_source) >? MAX_TRANSITIONS_PER_STATE)
    "too_many_transitions" (state_path +:+ ".transitions")
    "state declares more than 32 transitions" in
  let compiled := compile_transition declared_names state_path <$> src_transitions state_source in
  let transitions := snd <$> compiled in
  let transitions :=
    if negb (src_terminal state_source) then transitions ++ [cancel_transition]
    else transitions in
  (d1 ++ d2 ++ d3 ++ d4 ++ d5 ++ List.concat (fst <$> compiled),
   mkCompiledState state_id (src_instructions state_source) (src_terminal state_source)
     transitions).

(** ** Graph validation *)

Definition authored (s : CompiledState) : list CompiledTransition :=
  List.filter (λ t, negb (synthetic t)) (s_transitions s).

(** The first [while] loop of [validate_graph]: breadth-first search from the initial
    state; [None] when the iteration budget is exhausted. *)
Fixpoint forward_search (fuel : nat) (states : btree CompiledState) (reachable : bset)
    (pending : list StateId) : option bset :=
  match fuel with
  | O => None
  | S fuel =>
      match pending with
      | [] => Some reachable
      | current :: pending =>
          let '(inserted, reachable') := bs_insert current reachable in
          if negb inserted then forward_search fuel states reachable pending
          else
            match bt_get states current with
            | Some st => forward_search fuel states reachable'
                           (pending ++ (t_target <$> authored st))
            | None => forward_search fuel states reachable' pending
            end
      end
  end.

(** Every state is expanded once, so at most one pop per authored transition plus the
    initial one. *)
Definition forward_fuel (states : btree CompiledState) : nat :=
  S (S (sum_list ((λ s, length (authored s)) <$> bt_values states))).

(** [reverse.entry(target).or_default().push(id)]. *)
Definition push_reverse (reverse : btree (list StateId)) (edge : StateId * StateId)
  : btree (list StateId) :=
  let '(id, target) := edge in
  bt_insert target (default [] (bt_get reverse target) ++ [id]) reverse.

(** The authored edges in the order of the two nested loops. *)
Definition authored_edges (states : btree CompiledState) : list (StateId * StateId) :=
  List.concat ((λ s, (λ t, (s_id s, t_target t)) <$> authored s) <$> bt_values states).

Definition reverse_edges (states : btree CompiledState) : btree (list StateId) :=
  foldl push_reverse [] (authored_edges states).

(** The inner loop of the backward search over the predecessors of a state. *)
Fixpoint add_predecessors (preds : list StateId) (can_reach : bset) (pending : list StateId)
  : bset * list StateId :=
  match preds with
  | [] => (can_reach, pending)
  | p :: rest =>
      let '(inserted, can_reach') := bs_insert p can_reach in
      add_predecessors rest can_reach' (if inserted then pending ++ [p] else pending)
  end.

Fixpoint backward_search (fuel : nat) (reverse : btree (list StateId)) (can_reach : bset)
    (pending : list StateId) : option bset :=
  match fuel with
  | O => None
  | S fuel =>
      match pending with
      | [] => Some can_reach
      | current :: pending =>
          let '(can_reach, pending) :=
            add_predecessors (default [] (bt_get reverse current)) can_reach pending in
          backward_search fuel reverse can_reach pending
      end
  end.

(** A state is queued at most once more than the terminal states. *)
Definition backward_fuel (states : btree CompiledState) (terminals : bset) : nat :=
  S (length terminals + length states).

(** The diagnostics of [validate_graph]; [None] when a search exhausts its budget. *)
Definition validate_graph (states : btree CompiledState) (initial : StateId)
  : option (list FlowDiagnostic) :=
  if negb (bt_contains_key states initial) then Some []
  else
    match forward_search (forward_fuel states) states [] [initial] with
    | None => None
    | Some reachable =>
        let unreachable :=
          List.concat ((λ id, diagnose_if (negb (bs_contains reachable id)) "unreachable_state"
              ("states." +:+ id)
              ("state " +:+ debug_state_id id +:+ " is unreachable from initial state "
               +:+ debug_state_id initial)) <$> bt_keys states) in
        let terminal_states :=
          bs_collect (s_id <$> List.filter s_terminal (bt_values states)) in
        if len terminal_states =? 0 then
          Some (unreachable ++ [mkDiagnostic "terminal_missing" "states"
                                  "Flow must declare at least one terminal state"])
        else
          match backward_search (backward_fuel states terminal_states) (reverse_edges states)
                  terminal_states (bt_keys terminal_states) with
          | None => None
          | Some can_reach_terminal =>
              Some (unreachable ++
                List.concat ((λ id, diagnose_if (negb (bs_contains can_reach_terminal id))
                  "terminal_unreachable" ("states." +:+ id)
                  ("state " +:+ debug_state_id id +:+
                   " cannot reach a user-declared terminal state; the graph contains a closed non-terminal path"))
                  <$> bt_keys reachable))
          end
    end.

(** ** Compilation *)

Definition one_diagnostic (code path message : string) : FlowCompileError :=
  mkFlowCompileError [mkDiagnostic code path message].

(** [{byte:02x}]. *)
Definition hex2 (v : Z) : string :=
  String (hex_digit (v / 16)) (String (hex_digit (v mod 16)) EmptyString).

Definition content_digest_of (sha256 : list Z → list Z) (content : string) : string :=
  foldl (λ encoded byte, encoded +:+ hex2 byte) "sha256:" (sha256 (bytes content)).

(** The diagnostics before the graph check and the compiled states. *)
Definition check_source (source : FlowSource) : list FlowDiagnostic * btree CompiledState :=
  let d1 := diagnose_if (negb (src_schema_version source =? FLOW_SCHEMA_VERSION))
    "unsupported_schema_version" "schema_version"
    ("unsupported Flow schema version " +:+ pretty (src_schema_version source)
     +:+ "; expected 1") in
  let d2 := match validate_identifier "Flow" (src_name source) with
            | Err m => [mkDiagnostic "invalid_name" "name" m]
            | Ok _ => []
            end in
  let d3 := diagnose_if (len (src_states source) =? 0) "states_empty" "states"
    "Flow must declare at least one state" in
  let d4 := diagnose_if (len (src_states source) >? MAX_STATES) "too_many_states" "states"
    "Flow declares more than 128 states" in
  let d5 := diagnose_if (bool_decide (src_initial source = CANCELLED_STATE_ID))
    "reserved_state" "initial" (CANCELLED_STATE_ID +:+ " is reserved by the Flow runtime") in
  let '(d6, initial) := or_diagnose (state_id_new (src_initial source))
    "invalid_initial" "initial" (src_initial source) in
  let declared_names := bs_collect (bt_keys (src_states source)) in
  let d7 := diagnose_if (negb (bs_contains declared_names initial)) "initial_not_found" "initial"
    ("initial state " +:+ debug_state_id initial +:+ " is not declared") in
  let d8 := diagnose_if (bs_contains declared_names CANCELLED_STATE_ID) "reserved_state"
    ("states." +:+ CANCELLED_STATE_ID) (CANCELLED_STATE_ID +:+ " is reserved by the Flow runtime") in
  let compiled := compile_state declared_names <$> src_states source in
  (d1 ++ d2 ++ d3 ++ d4 ++ d5 ++ d6 ++ d7 ++ d8 ++ List.concat (fst <$> compiled),
   foldl (λ states s, bt_insert (s_id s) s states) [] (snd <$> compiled)).

Definition cancelled_state : CompiledState :=
  mkCompiledState CANCELLED_STATE_ID EmptyString true [].

(** [compile_typed_source]; the outer option is the iteration budget of the searches. *)
Definition compile_typed_source (sha256 : list Z → list Z) (source : FlowSource)
    (content : string) : option (result CompiledFlowDefinition FlowCompileError) :=
  let '(diags, states) := check_source source in
  let initial := src_initial source in
  let checked :=
    match diags with
    | [] => validate_graph states initial
    | _ => Some diags
    end in
  match checked with
  | None => None
  | Some [] =>
      Some (Ok (mkCompiledFlowDefinition (src_schema_version source) (src_name source) initial
                  (bt_insert CANCELLED_STATE_ID cancelled_state states)
                  (content_digest_of sha256 content)))
  | Some diags => Some (Err (mkFlowCompileError diags))
  end.

Section engine.
Context {Float Number Module_ Value : Type}.
Context (sha256 : list Z → list Z).
Context (from_f64 : Float → option Number).
(** The DCDL engine and the serde decoder; an error is its rendering. *)
Context (add_root_source : string → string → string → result Module_ string).
Context (eval_module : Module_ → result Value string).
Context (materialize : Value → result (Data Float) string).
Context (from_value : Json Number → result FlowSource string).

Fixpoint decodal_data_to_json (data : Data Float) : Json Number :=
  match data with
  | DBool b => JBool b
  | DInt i => JInt i
  | DFloat f => match from_f64 f with Some n => JNumber n | None => JNull end
  | DString s => JString s
  | DArray values => JArray (map decodal_data_to_json values)
  | DObject fields =>
      JObject (fold_left (λ m e, bt_insert (fst e) (snd e) m)
                 (map (λ field, (fst field, decodal_data_to_json (snd field))) fields) [])
  end.

Definition compile_flow_source (content : string)
  : option (result CompiledFlowDefinition FlowCompileError) :=
  if str_len content >? MAX_SOURCE_BYTES then
    Some (Err (one_diagnostic "source_too_large" "$" "Flow source exceeds 262144 bytes"))
  else
    match
      let? module := map_err (λ e, one_diagnostic "dcdl_parse" "$" ("DCDL parsing failed: " +:+ e))
                       (add_root_source "flow.dcdl" "flow.dcdl" content) in
      let? value := map_err (λ e, one_diagnostic "dcdl_evaluation" "$"
                                    ("DCDL evaluation failed: " +:+ e)) (eval_module module) in
      let? data := map_err (λ e, one_diagnostic "dcdl_materialization" "$"
                                   ("DCDL materialization failed: " +:+ e)) (materialize value) in
      map_err (λ e, one_diagnostic "schema_decode" "$"
                      ("Flow source does not match schema: " +:+ e))
        (from_value (decodal_data_to_json data))
    with
    | Err e => Some (Err e)
    | Ok source => compile_typed_source sha256 source content
    end.

End engine.

(** ** Specification *)

(** An authored transition between two states of a compiled graph. *)
Definition edge (states : btree CompiledState) (x y : StateId) : Prop :=
  ∃ s t, bt_get states x = Some s ∧ t ∈ s_transitions s ∧ synthetic t = false ∧
    t_target t = y.

(** A state that reaches a terminal state over authored transitions. *)
Definition reaches_terminal (states : btree CompiledState) (x : StateId) : Prop :=
  ∃ y s, rtc (edge states) x y ∧ bt_get states y = Some s ∧ s_terminal s = true.

(** A map of states keyed by their own ids. *)
Definition keyed (states : btree CompiledState) : Prop :=
  bt_sorted states ∧ ∀ k s, (k, s) ∈ states → s_id s = k.

(** The grammar of identifiers. *)
Definition valid_identifier (value : string) : Prop :=
  0 < str_len value <= 128 ∧ forallb identifier_char (chars value) = true.

Definition valid_text (value : string) (allow_empty : bool) : Prop :=
  (allow_empty = false → trim_is_empty value = false) ∧ str_len value <= MAX_TEXT_BYTES.

(** An authored transition of a source document. *)
Definition source_edge (source : FlowSource) (x y : string) : Prop :=
  ∃ st name t, bt_get (src_states source) x = Some st ∧ (name, t) ∈ src_transitions st ∧
    src_target t = y.

Definition valid_state_source (source : FlowSource) (name : string) (st : StateSource) : Prop :=
  valid_identifier name ∧
  valid_text (src_instructions st) (src_terminal st) ∧
  (src_terminal st = true ↔ src_transitions st = []) ∧
  len (src_transitions st) <= MAX_TRANSITIONS_PER_STATE ∧
  ∀ tname t, (tname, t) ∈ src_transitions st →
    valid_identifier tname ∧ src_target t ∈ bt_keys (src_states source) ∧
    valid_text (src_condition t) false.

(** What the documentation requires of a source document. *)
Definition valid_source (source : FlowSource) : Prop :=
  src_schema_version source = FLOW_SCHEMA_VERSION ∧
  valid_identifier (src_name source) ∧
  0 < len (src_states source) <= MAX_STATES ∧
  src_initial source ∈ bt_keys (src_states source) ∧
  (∀ name st, (name, st) ∈ src_states source → valid_state_source source name st) ∧
  (∀ name, name ∈ bt_keys (src_states source) →
     rtc (source_edge source) (src_initial source) name ∧
     ∃ term st, rtc (source_edge source) name term ∧
       bt_get (src_states source) term = Some st ∧ src_terminal st = true).

(** What a compiled definition promises to the Runtime. *)
Record well_formed (d : CompiledFlowDefinition) : Prop := {
  wf_initial : is_Some (state d (d_initial d)) ∧ d_initial d ≠ CANCELLED_STATE_ID;
  wf_cancelled : state d CANCELLED_STATE_ID = Some cancelled_state;
  wf_terminal : ∀ id s, state d id = Some s → s_terminal s = true → s_transitions s = [];
  (** a state that is not terminal has authored transitions, then the way out *)
  wf_active : ∀ id s, state d id = Some s → s_terminal s = false →
    ∃ own, own ≠ [] ∧ s_transitions s = own ++ [cancel_transition] ∧
      ∀ t, t ∈ own → synthetic t = false ∧ t_target t ≠ CANCELLED_STATE_ID;
  wf_targets : ∀ id s t, state d id = Some s → t ∈ s_transitions s →
    is_Some (state d (t_target t));
  wf_distinct : ∀ id s, state d id = Some s → NoDup (t_id <$> s_transitions s);
  wf_reachable : ∀ id, id ≠ CANCELLED_STATE_ID → is_Some (state d id) →
    rtc (edge (d_states d)) (d_initial d) id;
  (** a normal end, not the cancelled state, can be reached *)
  wf_completes : ∀ id, id ≠ CANCELLED_STATE_ID → is_Some (state d id) →
    ∃ y s, rtc (edge (d_states d)) id y ∧ y ≠ CANCELLED_STATE_ID ∧
      state d y = Some s ∧ s_terminal s = true
}.

(** ** Breadth-first search from the initial state *)

Lemma authored_spec s t : t ∈ authored s ↔ t ∈ s_transitions s ∧ synthetic t = false.
Proof. unfold authored. by rewrite list_filter_elem_of, negb_true_iff. Qed.

(** Transitions still to be queued: those of the states not yet expanded. *)
Definition remaining (states : btree CompiledState) (reachable : bset) : nat :=
  sum_list ((λ e, if bs_contains reachable (fst e) then 0%nat else length (authored (snd e)))
              <$> states).

Lemma remaining_insert (states : btree CompiledState) reachable current :
  bs_contains reachable current = false → NoDup (bt_keys states) →
  (remaining states (snd (bs_insert current reachable))
   + match bt_get states current with Some s => length (authored s) | None => 0 end
   = remaining states reachable)%nat.
Proof.
  intros Hnew. unfold remaining. induction states as [|[k s] states IH]; [done|].
  intros [Hk Hnd]%NoDup_cons. specialize (IH Hnd). rewrite !fmap_cons.
  cbn [sum_list_with fst snd bt_get id].
  assert (bs_contains (snd (bs_insert current reachable)) k
          = bool_decide (k = current) || bs_contains reachable k) as ->.
  { apply eq_bool_prop_intro. rewrite !Is_true_true, orb_true_iff, bool_decide_eq_true,
      !bs_contains_true. apply bs_insert_keys. }
  rewrite (bool_decide_ext (current = k) (k = current)) by naive_solver.
  case_bool_decide as Heq; simpl.
  - subst k. rewrite Hnew. apply bt_get_None in Hk. simpl in Hk. rewrite Hk in IH. lia.
  - lia.
Qed.

Lemma forward_search_total fuel states reachable pending :
  NoDup (bt_keys states) →
  (length pending + remaining states reachable < fuel)%nat →
  is_Some (forward_search fuel states reachable pending).
Proof.
  intros Hnd. revert reachable pending.
  induction fuel as [|fuel IH]; intros reachable pending Hlt; [lia|]. simpl.
  destruct pending as [|current pending]; [eauto|]. simpl in Hlt.
  pose proof (bs_insert_spec current reachable) as [Hfst _].
  destruct (bs_insert current reachable) as [inserted reachable'] eqn:Hins. simpl in Hfst.
  destruct inserted; simpl; [|apply IH; lia].
  symmetry in Hfst. apply negb_true_iff in Hfst.
  pose proof (remaining_insert states reachable current Hfst Hnd) as Hr.
  rewrite Hins in Hr. simpl in Hr.
  destruct (bt_get states current) as [s|]; apply IH; [|lia].
  rewrite length_app, length_fmap. lia.
Qed.

(** A set closed under a relation contains what it reaches. *)
Lemma rtc_closed {A} (R : relation A) (P : A → Prop) x y :
  (∀ u v, P u → R u v → P v) → P x → rtc R x y → P y.
Proof. intros Hc Hx Hr. revert Hx. induction Hr; eauto. Qed.

(** The invariant of the search. *)
Lemma forward_search_sound fuel states reachable pending r initial :
  forward_search fuel states reachable pending = Some r →
  bt_sorted reachable →
  (∀ x, x ∈ bt_keys reachable ∨ x ∈ pending → rtc (edge states) initial x) →
  (∀ x y, x ∈ bt_keys reachable → edge states x y → y ∈ bt_keys reachable ∨ y ∈ pending) →
  (initial ∈ bt_keys reachable ∨ initial ∈ pending) →
  bt_sorted r ∧ ∀ x, x ∈ bt_keys r ↔ rtc (edge states) initial x.
Proof.
  revert reachable pending. induction fuel as [|fuel IH]; intros reachable pending; simpl; [done|].
  destruct pending as [|current pending].
  - intros [= <-] Hs Hreach Hclosed Hinit. split; [done|]. intros x. split; [auto|].
    assert (initial ∈ bt_keys reachable) as Hi by (destruct Hinit as [|Hn]; [done|by apply not_elem_of_nil in Hn]).
    apply rtc_closed with (P := λ x, x ∈ bt_keys reachable); [|done]. intros u v Hu Huv.
    destruct (Hclosed _ _ Hu Huv) as [|Hn]; [done|by apply not_elem_of_nil in Hn].
  - pose proof (bs_insert_spec current reachable) as [Hfst Hkeys].
    pose proof (bs_insert_sorted current reachable) as Hsorted.
    destruct (bs_insert current reachable) as [inserted reachable'] eqn:Hins. simpl in *.
    intros Hrun Hs Hreach Hclosed Hinit. destruct inserted; simpl in Hrun.
    + set (next := match bt_get states current with
                   | Some s => pending ++ (t_target <$> authored s) | None => pending end).
      assert (forward_search fuel states reachable' next = Some r) as Hrun'.
      { subst next. by destruct (bt_get states current). }
      assert (∀ y, y ∈ next ↔ y ∈ pending ∨ edge states current y) as Hnext.
      { intros y. subst next. unfold edge. destruct (bt_get states current) as [s|].
        - rewrite elem_of_app, list_elem_of_fmap. setoid_rewrite authored_spec.
          split; [intros [?|(t & -> & ? & ?)]; eauto 10|].
          intros [?|(s' & t & [= <-] & ? & ? & <-)]; eauto 10.
        - split; [auto|]. by intros [?|(s' & t & ? & ?)]. }
      apply (IH reachable' next Hrun'); [by apply Hsorted| | |].
      * intros x. rewrite Hkeys, Hnext. intros [[->|Hx]|[Hx|Hx]].
        -- apply Hreach. right. by left.
        -- apply Hreach. by left.
        -- apply Hreach. right. by right.
        -- eapply rtc_r; [apply Hreach; right; by left|done].
      * intros x y. rewrite !Hkeys, Hnext. intros [->|Hx] Hxy; [auto|].
        destruct (Hclosed x y Hx Hxy) as [?|[->|?]%elem_of_cons]; auto.
      * rewrite Hkeys, Hnext. destruct Hinit as [?|[->|?]%elem_of_cons]; auto.
    + symmetry in Hfst. apply negb_false_iff, bs_contains_true in Hfst.
      apply (IH reachable pending Hrun); [done| | |].
      * intros x [Hx|Hx]; apply Hreach; [by left|right; by right].
      * intros x y Hx Hxy. destruct (Hclosed x y Hx Hxy) as [?|[->|?]%elem_of_cons]; auto.
      * destruct Hinit as [?|[->|?]%elem_of_cons]; auto.
Qed.

(** ** Backward search from the terminal states *)

Lemma reverse_edges_spec (edges : list (StateId * StateId)) (m : btree (list StateId)) x y :
  x ∈ default [] (bt_get (foldl push_reverse m edges) y) ↔
  (x, y) ∈ edges ∨ x ∈ default [] (bt_get m y).
Proof.
  revert m. induction edges as [|[a b] edges IH]; intros m; cbn [foldl].
  - split; [auto|]. intros [H|]; [by apply not_elem_of_nil in H|done].
  - rewrite IH. unfold push_reverse. rewrite elem_of_cons.
    destruct (decide (y = b)) as [->|Hne].
    + rewrite bt_get_insert. simpl. rewrite elem_of_app, list_elem_of_singleton. naive_solver.
    + rewrite bt_get_insert_ne by done. naive_solver.
Qed.

Lemma predecessors_spec (states : btree CompiledState) x y :
  keyed states → x ∈ default [] (bt_get (reverse_edges states) y) ↔ edge states x y.
Proof.
  intros [Hs Hk]. unfold reverse_edges. rewrite reverse_edges_spec. simpl.
  rewrite elem_of_nil. unfold authored_edges, edge. rewrite list_elem_of_In, in_concat.
  setoid_rewrite <- list_elem_of_In. setoid_rewrite list_elem_of_fmap. split.
  - intros [(l & (s & -> & ([k s'] & -> & Hin)%list_elem_of_fmap) & Hl)|[]].
    apply list_elem_of_fmap in Hl as (t & [= -> ->] & [Ht Hsyn]%authored_spec).
    simpl in *. rewrite (Hk k s' Hin). exists s', t. split_and!; [|done..].
    by apply bt_elem_get.
  - intros (s & t & Hg & Ht & Hsyn & <-). left. apply bt_get_elem in Hg.
    eexists. split; [exists s; split; [done|]|].
    + apply list_elem_of_fmap. by exists (x, s).
    + apply list_elem_of_fmap. exists t. rewrite (Hk x s Hg). split; [done|].
      by apply authored_spec.
Qed.

(** States not yet known to reach a terminal state. *)
Definition unknown (states : btree CompiledState) (can_reach : bset) : nat :=
  length (List.filter (λ k, negb (bs_contains can_reach k)) (bt_keys states)).

Lemma filter_length_lt {A} (f g : A → bool) l x :
  (∀ y, g y = true → f y = true) → x ∈ l → f x = true → g x = false →
  (length (List.filter g l) < length (List.filter f l))%nat.
Proof.
  intros Hfg. assert (∀ l, (length (List.filter g l) <= length (List.filter f l))%nat) as Hle.
  { clear l. induction l as [|y l IH]; simpl; [lia|].
    destruct (g y) eqn:Hg; [rewrite (Hfg y Hg); simpl; lia|]. destruct (f y); simpl; lia. }
  induction l as [|y l IH]; intros Hx Hf Hg; [by apply not_elem_of_nil in Hx|].
  simpl. apply elem_of_cons in Hx as [->|Hx].
  - rewrite Hf, Hg. simpl. specialize (Hle l). lia.
  - specialize (IH Hx Hf Hg). destruct (g y) eqn:Hgy; [rewrite (Hfg y Hgy); simpl; lia|].
    destruct (f y); simpl; lia.
Qed.

Lemma unknown_insert states can_reach p :
  p ∈ bt_keys states → bs_contains can_reach p = false →
  (unknown states (snd (bs_insert p can_reach)) < unknown states can_reach)%nat.
Proof.
  intros Hp Hnew. apply (filter_length_lt _ _ _ p); [|done|by rewrite Hnew|].
  - intros y. rewrite !negb_true_iff, <- !not_true_iff_false, !bs_contains_true, bs_insert_keys.
    tauto.
  - rewrite negb_false_iff, bs_contains_true, bs_insert_keys. by left.
Qed.

Lemma unknown_ext states s1 s2 :
  (∀ x, x ∈ bt_keys s1 ↔ x ∈ bt_keys s2) → unknown states s1 = unknown states s2.
Proof.
  intros H. unfold unknown. f_equal. apply List.filter_ext. intros k. f_equal.
  apply eq_bool_prop_intro. by rewrite !Is_true_true, !bs_contains_true.
Qed.

Lemma add_predecessors_spec states preds can_reach pending :
  let '(can', pending') := add_predecessors preds can_reach pending in
  (bt_sorted can_reach → bt_sorted can') ∧
  (∀ x, x ∈ bt_keys can' ↔ x ∈ preds ∨ x ∈ bt_keys can_reach) ∧
  (∀ x, x ∈ pending' → x ∈ preds ∨ x ∈ pending) ∧
  (∀ x, x ∈ pending → x ∈ pending') ∧
  (∀ x, x ∈ bt_keys can' → x ∈ bt_keys can_reach ∨ x ∈ pending') ∧
  ((∀ x, x ∈ preds → x ∈ bt_keys states) →
   (length pending' + unknown states can' <= length pending + unknown states can_reach)%nat).
Proof.
  revert can_reach pending. induction preds as [|p preds IH]; intros can pending; simpl.
  { split_and!; auto; intros ?; rewrite elem_of_nil; tauto. }
  pose proof (bs_insert_spec p can) as [Hfst Hkeys].
  pose proof (bs_insert_sorted p can) as Hsorted.
  pose proof (unknown_insert states can p) as Hlt.
  destruct (bs_insert p can) as [inserted can1]. simpl in *.
  specialize (IH can1 (if inserted then pending ++ [p] else pending)).
  destruct (add_predecessors preds can1 _) as [can' pending'].
  destruct IH as (Is & Ik & Ip & Im & Iq & Il).
  assert (∀ x, x ∈ (if inserted then pending ++ [p] else pending) ↔
               x ∈ pending ∨ (inserted = true ∧ x = p)) as Hpend.
  { intros x. destruct inserted; [rewrite elem_of_app, list_elem_of_singleton|]; naive_solver. }
  setoid_rewrite elem_of_cons. split_and!.
  - auto.
  - intros x. rewrite Ik, Hkeys. tauto.
  - intros x Hx. apply Ip in Hx as [?|Hx%Hpend]; [auto|]. naive_solver.
  - intros x Hx. apply Im, Hpend. auto.
  - intros x Hx. apply Iq in Hx as [Hx%Hkeys|?]; [|auto]. destruct Hx as [->|]; [|auto].
    destruct (bs_contains can p) eqn:Hc; [left; by apply bs_contains_true|].
    right. apply Im, Hpend. right. by rewrite Hfst.
  - intros Hsub. specialize (Il ltac:(auto)). destruct inserted.
    + rewrite length_app in Il. simpl in Il.
      specialize (Hlt (Hsub p (or_introl eq_refl)) ltac:(by apply negb_true_iff)). lia.
    + rewrite <- (unknown_ext states can1 can); [lia|].
      symmetry in Hfst. apply negb_false_iff, bs_contains_true in Hfst. naive_solver.
Qed.

Lemma edge_key states x y : edge states x y → x ∈ bt_keys states.
Proof. intros (s & t & Hg & _). apply bt_get_is_Some. eauto. Qed.

Lemma backward_search_total fuel states can_reach pending :
  keyed states → (length pending + unknown states can_reach < fuel)%nat →
  is_Some (backward_search fuel (reverse_edges states) can_reach pending).
Proof.
  intros Hk. revert can_reach pending.
  induction fuel as [|fuel IH]; intros can pending Hlt; [lia|]. simpl.
  destruct pending as [|current pending]; [eauto|].
  set (preds := default [] (bt_get (reverse_edges states) current)).
  pose proof (add_predecessors_spec states preds can pending) as Hadd.
  destruct (add_predecessors preds can pending) as [can' pending'].
  destruct Hadd as (_ & _ & _ & _ & _ & Hle). apply IH. simpl in Hlt.
  assert (∀ x, x ∈ preds → x ∈ bt_keys states) as Hsub; [|specialize (Hle Hsub); lia].
  intros x Hx. apply (edge_key states x current). by apply predecessors_spec.
Qed.

Lemma backward_search_sound fuel states can_reach pending r :
  keyed states →
  backward_search fuel (reverse_edges states) can_reach pending = Some r →
  (∀ x, x ∈ bt_keys can_reach → reaches_terminal states x) →
  (∀ x, x ∈ pending → x ∈ bt_keys can_reach) →
  (∀ x y, y ∈ bt_keys can_reach → y ∉ pending → edge states x y → x ∈ bt_keys can_reach) →
  (∀ x s, bt_get states x = Some s → s_terminal s = true → x ∈ bt_keys can_reach) →
  ∀ x, x ∈ bt_keys r ↔ reaches_terminal states x.
Proof.
  intros Hk. revert can_reach pending.
  induction fuel as [|fuel IH]; intros can pending; simpl; [done|].
  destruct pending as [|current pending].
  - intros [= <-] Hsound _ Hclosed Hterm x. split; [auto|].
    intros (y & s & Hxy & Hs & Ht). pose proof (Hterm y s Hs Ht) as Hy. clear Hs Ht Hsound.
    revert Hy. clear IH. induction Hxy as [|x y z Hxy _ IHr]; intros Hz; [done|].
    apply (Hclosed x y); [auto|apply not_elem_of_nil|done].
  - set (preds := default [] (bt_get (reverse_edges states) current)).
    assert (∀ x, x ∈ preds ↔ edge states x current) as Hpreds
      by (intros x; by apply predecessors_spec).
    pose proof (add_predecessors_spec states preds can pending) as Hadd.
    destruct (add_predecessors preds can pending) as [can' pending'].
    destruct Hadd as (_ & Hcan & Hp1 & Hp2 & Hnew & _).
    intros Hrun Hsound Hsub Hclosed Hterm.
    assert (current ∈ bt_keys can) as Hcur by (apply Hsub; by left).
    apply (IH can' pending' Hrun).
    + intros x [Hx%Hpreds|Hx]%Hcan; [|auto].
      destruct (Hsound current Hcur) as (y & s & Hr & Hs & Ht).
      exists y, s. split; [by eapply rtc_l|done].
    + intros x [Hx|Hx]%Hp1; apply Hcan; [auto|]. right. apply Hsub. by right.
    + intros x y Hy Hny Hxy. apply Hcan. destruct (decide (y = current)) as [->|Hne].
      * left. by apply Hpreds.
      * right. apply (Hclosed x y); [|intros [?|?]%elem_of_cons; auto|done].
        apply Hnew in Hy as [?|?]; [done|]. by destruct Hny.
    + intros x s Hs Ht. apply Hcan. right. eauto.
Qed.

(** ** The graph check *)

Lemma concat_nil {A B} (f : A → list B) (l : list A) :
  List.concat (f <$> l) = [] ↔ ∀ x, x ∈ l → f x = [].
Proof.
  induction l as [|y l IH]; simpl.
  - split; [|done]. intros _ x Hx. by apply not_elem_of_nil in Hx.
  - split.
    + intros [Hy Hl]%app_eq_nil x [->|Hx]%elem_of_cons; [done|]. by apply IH.
    + intros H. rewrite (H y) by (by left). apply IH. intros x Hx. apply H. by right.
Qed.

Lemma diagnose_if_nil b c p m : diagnose_if b c p m = [] ↔ b = false.
Proof. by destruct b. Qed.

(** The states a graph check accepts. *)
Definition good_graph (states : btree CompiledState) (initial : StateId) : Prop :=
  ∀ x, x ∈ bt_keys states → rtc (edge states) initial x ∧ reaches_terminal states x.

Lemma remaining_nil (states : btree CompiledState) :
  remaining states [] = sum_list ((λ s, length (authored s)) <$> bt_values states).
Proof.
  unfold remaining, bt_values. rewrite <- list_fmap_compose. done.
Qed.

Lemma unknown_le states can : (unknown states can <= length states)%nat.
Proof.
  unfold unknown. etransitivity; [apply filter_length_le|].
  unfold bt_keys. by rewrite length_fmap.
Qed.

Lemma terminals_spec (states : btree CompiledState) x :
  keyed states →
  x ∈ bt_keys (bs_collect (s_id <$> List.filter s_terminal (bt_values states))) ↔
  ∃ s, bt_get states x = Some s ∧ s_terminal s = true.
Proof.
  intros [Hs Hk]. rewrite bs_collect_keys, list_elem_of_fmap.
  setoid_rewrite list_filter_elem_of. split.
  - intros (s & -> & ([k s'] & -> & Hin)%list_elem_of_fmap & Ht). simpl in *.
    exists s'. rewrite (Hk k s' Hin). split; [by apply bt_elem_get|done].
  - intros (s & Hg%bt_get_elem & Ht). exists s. rewrite (Hk x s Hg).
    split_and!; [done| |done]. by apply (list_elem_of_fmap_2 snd states (x, s)).
Qed.

(** The searches end, and no diagnostic is reported exactly for a good graph. *)
Lemma validate_graph_spec states initial :
  keyed states → initial ∈ bt_keys states →
  (∀ x y, edge states x y → y ∈ bt_keys states) →
  ∃ ds, validate_graph states initial = Some ds ∧ (ds = [] ↔ good_graph states initial).
Proof.
  intros Hk Hi Htgt. pose proof (proj1 Hk) as Hsort. unfold validate_graph.
  rewrite (proj2 (bt_contains_key_true _ _) Hi). cbn [negb].
  destruct (forward_search_total (forward_fuel states) states [] [initial]) as [reach Hreach].
  { by apply bt_sorted_NoDup. } { rewrite remaining_nil. unfold forward_fuel. simpl. lia. }
  rewrite Hreach.
  destruct (forward_search_sound _ _ _ _ _ initial Hreach) as [_ Hreachable]; [constructor|..].
  { intros x [Hx|Hx]; [by apply not_elem_of_nil in Hx|]. by apply list_elem_of_singleton in Hx as ->. }
  { intros x y Hx. by apply not_elem_of_nil in Hx. } { right. by left. }
  assert (∀ x, x ∈ bt_keys reach → x ∈ bt_keys states) as Hrsub.
  { intros x Hx%Hreachable. apply (rtc_closed (edge states) (λ x, x ∈ bt_keys states) initial x); eauto. }
  set (terms := bs_collect _).
  assert (∀ x, x ∈ bt_keys terms ↔ ∃ s, bt_get states x = Some s ∧ s_terminal s = true) as Hterms
    by (intros; by apply terminals_spec).
  destruct (len terms =? 0) eqn:Hlen.
  - eexists. split; [done|]. split; [by intros [_ ?]%app_eq_nil|]. intros Hgood.
    destruct (Hgood initial Hi) as [_ (y & s & _ & Hs & Ht)].
    assert (y ∈ bt_keys terms) as Hy by (apply Hterms; eauto).
    unfold len in Hlen. destruct terms; [by apply not_elem_of_nil in Hy|done].
  - destruct (backward_search_total (backward_fuel states terms) states terms (bt_keys terms) Hk)
      as [can Hcan].
    { pose proof (unknown_le states terms). unfold backward_fuel, bt_keys. rewrite length_fmap. lia. }
    rewrite Hcan. eexists. split; [done|].
    pose proof (backward_search_sound _ _ _ _ _ Hk Hcan) as Hterm.
    assert (∀ x, x ∈ bt_keys can ↔ reaches_terminal states x) as Hc.
    { apply Hterm; [|done|done|].
      - intros x (s & Hs & Ht)%Hterms. exists x, s. by split.
      - intros x s Hs Ht. apply Hterms. eauto. }
    split.
    + intros [H1 H2]%app_eq_nil x Hx. rewrite concat_nil in H1, H2.
      specialize (H1 x Hx). apply diagnose_if_nil, negb_false_iff, bs_contains_true in H1.
      specialize (H2 x H1). apply diagnose_if_nil, negb_false_iff, bs_contains_true in H2.
      split; [by apply Hreachable|by apply Hc].
    + intros Hgood. rewrite (proj2 (concat_nil _ _)), (proj2 (concat_nil _ _)); [done| |];
        intros x Hx; apply diagnose_if_nil, negb_false_iff, bs_contains_true.
      * by apply Hc, Hgood, Hrsub.
      * by apply Hreachable, Hgood.
Qed.

(** ** The checks of a source document *)

Lemma chars_dollar value :
  starts_with_char "$" value = true → forallb identifier_char (chars value) = false.
Proof.
  destruct value as [|c value]; [done|]. unfold starts_with_char. by intros <-%Ascii.eqb_eq.
Qed.

Lemma str_len_pos value : 0 < str_len value ↔ value ≠ EmptyString.
Proof. unfold str_len. destruct value; simpl; [done|]. split; [done|lia]. Qed.

Lemma validate_identifier_Ok kind value :
  validate_identifier kind value = Ok tt ↔ valid_identifier value.
Proof.
  unfold validate_identifier, valid_identifier. pose proof (chars_dollar value) as Hd.
  rewrite str_len_pos. case_bool_decide as He; [split; [done|naive_solver]|].
  destruct (str_len value >? 128) eqn:Hl; [split; [done|lia]|].
  destruct (starts_with_char "$" value); [rewrite Hd by done; split; [done|naive_solver]|].
  destruct (forallb _ _); simpl; [|split; [done|naive_solver]].
  split; [|done]. intros _. repeat split; [done|lia].
Qed.

Lemma or_diagnose_new kind code path value :
  let r := (let? _ := validate_identifier kind value in Ok value) in
  snd (or_diagnose r code path value) = value ∧
  (fst (or_diagnose r code path value) = [] ↔ valid_identifier value).
Proof.
  pose proof (validate_identifier_Ok kind value) as H. cbv zeta.
  destruct (validate_identifier kind value) as [[]|]; simpl; naive_solver.
Qed.

Lemma validate_text_nil field path value allow_empty :
  validate_text field path value allow_empty = [] ↔ valid_text value allow_empty.
Proof.
  unfold validate_text, valid_text, diagnose_if. split.
  - intros [H1 H2]%app_eq_nil. destruct (str_len value >? MAX_TEXT_BYTES) eqn:Hl; [done|].
    split; [|lia]. intros ->. by destruct (trim_is_empty value).
  - intros [H1 H2]. assert ((str_len value >? MAX_TEXT_BYTES) = false) as -> by lia.
    destruct allow_empty; [done|]. by rewrite H1.
Qed.

Lemma reserved_false value (reserved : string) :
  valid_identifier value → starts_with_char "$" reserved = true →
  bool_decide (value = reserved) || starts_with_char "$" value = false.
Proof.
  intros [_ Hc] Hr. rewrite orb_false_iff, bool_decide_eq_false. split.
  - intros ->. by rewrite chars_dollar in Hc.
  - destruct (starts_with_char "$" value) eqn:Hs; [|done]. by rewrite chars_dollar in Hc.
Qed.

Lemma compile_transition_spec declared path name t :
  snd (compile_transition declared path (name, t))
  = mkCompiledTransition name (src_target t) (src_condition t) false ∧
  (fst (compile_transition declared path (name, t)) = [] ↔
   valid_identifier name ∧ valid_identifier (src_target t) ∧
   src_target t ∈ bt_keys declared ∧ valid_text (src_condition t) false).
Proof.
  unfold compile_transition, transition_id_new, state_id_new.
  set (tpath := path +:+ ".transitions." +:+ name).
  pose proof (or_diagnose_new "transition" "invalid_transition_id" tpath name) as [Hn1 Hn2].
  pose proof (or_diagnose_new "state" "invalid_transition_target" (tpath +:+ ".target")
                (src_target t)) as [Ht1 Ht2].
  destruct (or_diagnose _ "invalid_transition_id" _ _) as [d2 id].
  destruct (or_diagnose _ "invalid_transition_target" _ _) as [d4 tgt]. simpl in *. subst id tgt.
  split; [done|]. rewrite <- (validate_text_nil "condition" (tpath +:+ ".condition")).
  rewrite <- bs_contains_true. split.
  - intros [_ [H2 [_ [H4 [H5 H6]%app_eq_nil]%app_eq_nil]%app_eq_nil]%app_eq_nil]%app_eq_nil.
    rewrite diagnose_if_nil, negb_false_iff in H5. naive_solver.
  - intros (Hi & Hti & Hd & Htext). rewrite !reserved_false, Htext, Hd by done.
    rewrite (proj2 Hn2 Hi), (proj2 Ht2 Hti). done.
Qed.

Lemma len_nil {A} (l : list A) : (len l =? 0) = true ↔ l = [].
Proof. unfold len. destruct l; simpl; [done|]. split; [lia|done]. Qed.

Lemma app_nil_iff {A} (l1 l2 : list A) : l1 ++ l2 = [] ↔ l1 = [] ∧ l2 = [].
Proof. split; [apply app_eq_nil|by intros [-> ->]]. Qed.

Lemma terminal_checks (terminal empty : bool) :
  terminal && negb empty = false ∧ negb terminal && empty = false ↔
  (terminal = true ↔ empty = true).
Proof. destruct terminal, empty; simpl; naive_solver. Qed.

Lemma compile_state_spec declared name st :
  snd (compile_state declared (name, st))
  = mkCompiledState name (src_instructions st) (src_terminal st)
      (((λ e, mkCompiledTransition (fst e) (src_target (snd e)) (src_condition (snd e)) false)
          <$> src_transitions st)
       ++ (if src_terminal st then [] else [cancel_transition])) ∧
  (fst (compile_state declared (name, st)) = [] ↔
   valid_identifier name ∧ valid_text (src_instructions st) (src_terminal st) ∧
   (src_terminal st = true ↔ src_transitions st = []) ∧
   len (src_transitions st) <= MAX_TRANSITIONS_PER_STATE ∧
   ∀ tname t, (tname, t) ∈ src_transitions st →
     valid_identifier tname ∧ valid_identifier (src_target t) ∧
     src_target t ∈ bt_keys declared ∧ valid_text (src_condition t) false).
Proof.
  unfold compile_state, state_id_new. set (path := "states." +:+ name).
  pose proof (or_diagnose_new "state" "invalid_state_id" path name) as [Hn1 Hn2].
  destruct (or_diagnose _ "invalid_state_id" _ _) as [d1 id]. simpl in Hn1, Hn2. subst id.
  cbn [fst snd]. split.
  - f_equal. rewrite <- list_fmap_compose.
    assert ((snd ∘ compile_transition declared path) <$> src_transitions st =
      (λ e, mkCompiledTransition (fst e) (src_target (snd e)) (src_condition (snd e)) false)
        <$> src_transitions st) as ->.
    { apply list_fmap_ext. intros i [tn t] _. apply compile_transition_spec. }
    destruct (src_terminal st); [by rewrite app_nil_r|done].
  - assert (List.concat (fst <$> (compile_transition declared path <$> src_transitions st)) = [] ↔
      ∀ tname t, (tname, t) ∈ src_transitions st →
        valid_identifier tname ∧ valid_identifier (src_target t) ∧
        src_target t ∈ bt_keys declared ∧ valid_text (src_condition t) false) as Hts.
    { rewrite <- list_fmap_compose, concat_nil. split.
      - intros H tn t Hin. by apply (compile_transition_spec declared path), (H (tn, t)).
      - intros H [tn t] Hin. by apply compile_transition_spec, H. }
    rewrite <- Hts, <- (validate_text_nil "instructions" (path +:+ ".instructions")), <- Hn2.
    rewrite <- (len_nil (src_transitions st)), !app_nil_iff, !diagnose_if_nil.
    rewrite <- (terminal_checks (src_terminal st) (len (src_transitions st) =? 0)).
    assert ((len (src_transitions st) >? MAX_TRANSITIONS_PER_STATE) = false ↔
      len (src_transitions st) <= MAX_TRANSITIONS_PER_STATE) as <- by lia.
    tauto.
Qed.

(** The state a source state compiles to. *)
Definition compiled_state (name : string) (st : StateSource) : CompiledState :=
  mkCompiledState name (src_instructions st) (src_terminal st)
    (((λ e, mkCompiledTransition (fst e) (src_target (snd e)) (src_condition (snd e)) false)
        <$> src_transitions st)
     ++ (if src_terminal st then [] else [cancel_transition])).

Definition compiled_states (source : FlowSource) : btree CompiledState :=
  (λ e, (fst e, compiled_state (fst e) (snd e))) <$> src_states source.

Lemma check_source_states source :
  bt_sorted (src_states source) → snd (check_source source) = compiled_states source.
Proof.
  intros Hs. unfold check_source.
  destruct (or_diagnose _ _ _ _) as [d6 initial]. cbn [snd].
  set (declared := bs_collect _).
  assert (snd <$> (compile_state declared <$> src_states source)
          = (λ e, compiled_state (fst e) (snd e)) <$> src_states source) as ->.
  { rewrite <- list_fmap_compose. apply list_fmap_ext. intros i [n st] _.
    apply compile_state_spec. }
  assert (∀ l m, foldl (λ states s, bt_insert (s_id s) s states) m
      ((λ e : string * StateSource, compiled_state (fst e) (snd e)) <$> l)
    = foldl (λ acc e, bt_insert (fst e) (snd e) acc) m
        ((λ e, (fst e, compiled_state (fst e) (snd e))) <$> l)) as Hfold.
  { induction l as [|[n st] l IH]; intros m; simpl; [done|]. apply IH. }
  rewrite Hfold. apply (bt_collect_sorted []). simpl. unfold bt_sorted.
  by rewrite (bt_keys_fmap (λ e, compiled_state (fst e) (snd e))).
Qed.

Lemma cancelled_reserved : ¬ valid_identifier CANCELLED_STATE_ID.
Proof. by intros [_ ?]. Qed.

Lemma check_source_diagnostics source :
  fst (check_source source) = [] ↔
  src_schema_version source = FLOW_SCHEMA_VERSION ∧ valid_identifier (src_name source) ∧
  0 < len (src_states source) <= MAX_STATES ∧
  src_initial source ∈ bt_keys (src_states source) ∧
  (∀ name st, (name, st) ∈ src_states source → valid_state_source source name st).
Proof.
  unfold check_source, state_id_new.
  pose proof (or_diagnose_new "state" "invalid_initial" "initial" (src_initial source)) as [Hi1 Hi2].
  destruct (or_diagnose _ "invalid_initial" _ _) as [d6 initial]. simpl in Hi1, Hi2. subst initial.
  cbn [fst]. pose proof (validate_identifier_Ok "Flow" (src_name source)) as Hname.
  set (declared := bs_collect _).
  assert (∀ x, x ∈ bt_keys declared ↔ x ∈ bt_keys (src_states source)) as Hdecl
    by (intros; apply bs_collect_keys).
  assert (∀ x, x ∈ bt_keys (src_states source) → ∃ st, (x, st) ∈ src_states source) as Hkey.
  { intros x ([k st] & -> & ?)%list_elem_of_fmap. eauto. }
  rewrite <- list_fmap_compose. split.
  - rewrite !app_nil_iff, !diagnose_if_nil, concat_nil.
    intros (H1 & H2 & H3 & H4 & _ & _ & H7 & _ & H8).
    assert (∀ name st, (name, st) ∈ src_states source → valid_identifier name) as Hids.
    { intros n st Hin. by apply (compile_state_spec declared n st), (H8 (n, st)). }
    split_and!.
    + apply Z.eqb_eq. by apply negb_false_iff.
    + apply Hname. by destruct (validate_identifier _ _) as [[]|].
    + unfold len in *. lia.
    + unfold len in *. lia.
    + by apply Hdecl, bs_contains_true, negb_false_iff.
    + intros n st Hin. specialize (H8 (n, st) Hin).
      apply (compile_state_spec declared n st) in H8 as (? & ? & ? & ? & Hts).
      split_and!; [done..|]. intros tn t Ht. destruct (Hts tn t Ht) as (? & _ & ?%Hdecl & ?). auto.
  - intros (-> & Hn & Hlen & Hini & Hst).
    assert (∀ x, x ∈ bt_keys (src_states source) → valid_identifier x) as Hids.
    { intros x (st & Hin)%Hkey. by apply (Hst x st). }
    rewrite (proj2 Hname Hn), (proj2 Hi2 (Hids _ Hini)).
    rewrite (proj2 (bs_contains_true declared _) (proj2 (Hdecl _) Hini)).
    assert (bs_contains declared CANCELLED_STATE_ID = false) as ->.
    { apply not_true_iff_false. rewrite bs_contains_true, Hdecl. intros ?%Hids.
      by apply cancelled_reserved. }
    assert ((len (src_states source) =? 0) = false) as -> by lia.
    assert ((len (src_states source) >? MAX_STATES) = false) as -> by lia.
    rewrite (bool_decide_false (src_initial source = CANCELLED_STATE_ID)).
    2: { intros He. apply cancelled_reserved. rewrite <- He. by apply Hids. }
    simpl. apply concat_nil. intros [n st] Hin. apply compile_state_spec.
    destruct (Hst n st Hin) as (? & ? & ? & ? & Hts). split_and!; [done..|].
    intros tn t Ht. destruct (Hts tn t Ht) as (? & Hk & ?).
    split_and!; [done|by apply Hids|by apply Hdecl|done].
Qed.

(** ** The compiled graph *)

Lemma compiled_get source name :
  bt_get (compiled_states source) name = compiled_state name <$> bt_get (src_states source) name.
Proof. unfold compiled_states. by rewrite (bt_get_fmap (λ e, compiled_state (fst e) (snd e))). Qed.

Lemma compiled_keys source : bt_keys (compiled_states source) = bt_keys (src_states source).
Proof. apply (bt_keys_fmap (λ e, compiled_state (fst e) (snd e))). Qed.

Lemma compiled_keyed source : bt_sorted (src_states source) → keyed (compiled_states source).
Proof.
  intros Hs. split; [unfold bt_sorted; by rewrite compiled_keys|].
  intros k s ([n st] & [= -> ->] & _)%list_elem_of_fmap. done.
Qed.

Lemma compiled_edge source x y : edge (compiled_states source) x y ↔ source_edge source x y.
Proof.
  unfold edge, source_edge. rewrite compiled_get.
  destruct (bt_get (src_states source) x) as [st|]; simpl; [|naive_solver]. split.
  - intros (s & t & [= <-] & [Ht|Ht]%elem_of_app & Hsyn & <-); simpl in *.
    + apply list_elem_of_fmap in Ht as ([n ts] & -> & ?). by exists st, n, ts.
    + destruct (src_terminal st); [by apply not_elem_of_nil in Ht|].
      by apply list_elem_of_singleton in Ht as ->.
  - intros (st' & n & t & [= <-] & Hin & <-).
    exists (compiled_state x st), (mkCompiledTransition n (src_target t) (src_condition t) false).
    split_and!; [done| |done|done].
    apply elem_of_app. left. apply list_elem_of_fmap. by exists (n, t).
Qed.

Lemma rtc_compiled_edge source x y :
  rtc (edge (compiled_states source)) x y ↔ rtc (source_edge source) x y.
Proof.
  split; (eapply rtc_congruence with (f := id)); intros ??; by rewrite compiled_edge.
Qed.

Lemma compiled_good source :
  good_graph (compiled_states source) (src_initial source) ↔
  ∀ name, name ∈ bt_keys (src_states source) →
    rtc (source_edge source) (src_initial source) name ∧
    ∃ term st, rtc (source_edge source) name term ∧
      bt_get (src_states source) term = Some st ∧ src_terminal st = true.
Proof.
  unfold good_graph, reaches_terminal. rewrite compiled_keys.
  setoid_rewrite rtc_compiled_edge. setoid_rewrite compiled_get.
  split; intros H name Hn; destruct (H name Hn) as [Hr (y & s & Hy & Hg & Ht)]; (split; [done|]).
  - apply fmap_Some in Hg as (st & Hst & ->). eauto.
  - exists y, (compiled_state y s). rewrite Hg. eauto.
Qed.

Lemma validate_compiled source :
  bt_sorted (src_states source) → fst (check_source source) = [] →
  ∃ ds, validate_graph (compiled_states source) (src_initial source) = Some ds ∧
    (ds = [] ↔ valid_source source).
Proof.
  intros Hs Hd. pose proof Hd as (Hv & Hn & Hl & Hi & Hst)%check_source_diagnostics.
  destruct (validate_graph_spec (compiled_states source) (src_initial source)) as (ds & -> & Hds).
  - by apply compiled_keyed.
  - by rewrite compiled_keys.
  - intros x y (st & n & t & Hg%bt_get_elem & Hin & <-)%compiled_edge. rewrite compiled_keys.
    by destruct (Hst x st Hg) as (_ & _ & _ & _ & [_ [? _]]%(λ H, H n t Hin)).
  - exists ds. split; [done|]. rewrite Hds, compiled_good. unfold valid_source. naive_solver.
Qed.

Lemma compile_typed_source_Ok sha256 source content d :
  bt_sorted (src_states source) →
  compile_typed_source sha256 source content = Some (Ok d) →
  valid_source source ∧
  d = mkCompiledFlowDefinition (src_schema_version source) (src_name source) (src_initial source)
        (bt_insert CANCELLED_STATE_ID cancelled_state (compiled_states source))
        (content_digest_of sha256 content).
Proof.
  intros Hs. unfold compile_typed_source.
  pose proof (check_source_states source Hs) as Hstates.
  pose proof (validate_compiled source Hs) as Hval.
  destruct (check_source source) as [diags states]. simpl in *. subst states.
  destruct diags as [|? ?]; [|done]. destruct (Hval eq_refl) as (ds & -> & Hds).
  destruct ds; [|done]. intros [= <-]. split; [by apply Hds|done].
Qed.

Lemma compile_typed_total sha256 source content :
  bt_sorted (src_states source) →
  ∃ r, compile_typed_source sha256 source content = Some r ∧
    match r with Ok _ => True | Err e => diagnostics e ≠ [] end.
Proof.
  intros Hs. unfold compile_typed_source.
  pose proof (check_source_states source Hs) as Hstates.
  pose proof (validate_compiled source Hs) as Hval.
  destruct (check_source source) as [diags states]. simpl in *. subst states.
  destruct diags as [|e diags]; [|by eexists].
  destruct (Hval eq_refl) as (ds & -> & _). destruct ds; by eexists.
Qed.

(** The compiled states seen through the definition. *)
Lemma state_cases source id s :
  bt_get (bt_insert CANCELLED_STATE_ID cancelled_state (compiled_states source)) id = Some s →
  (id = CANCELLED_STATE_ID ∧ s = cancelled_state) ∨
  (id ≠ CANCELLED_STATE_ID ∧ ∃ st, bt_get (src_states source) id = Some st ∧
     s = compiled_state id st).
Proof.
  destruct (decide (id = CANCELLED_STATE_ID)) as [->|Hne].
  - rewrite bt_get_insert. intros [= <-]. by left.
  - rewrite bt_get_insert_ne, compiled_get by done. intros (st & Hg & ->)%fmap_Some. eauto 10.
Qed.

Lemma state_source source id st :
  id ≠ CANCELLED_STATE_ID → bt_get (src_states source) id = Some st →
  bt_get (bt_insert CANCELLED_STATE_ID cancelled_state (compiled_states source)) id
  = Some (compiled_state id st).
Proof. intros Hne Hg. by rewrite bt_get_insert_ne, compiled_get, Hg. Qed.

Lemma definition_edge source x y :
  (∀ name, name ∈ bt_keys (src_states source) → name ≠ CANCELLED_STATE_ID) →
  rtc (source_edge source) x y →
  rtc (edge (bt_insert CANCELLED_STATE_ID cancelled_state (compiled_states source))) x y.
Proof.
  intros Hne. apply rtc_subrel. intros u v Huv%compiled_edge.
  destruct Huv as (s & t & Hg & Hrest). exists s, t. split; [|done].
  rewrite bt_get_insert_ne; [done|]. apply Hne. rewrite <- compiled_keys.
  apply bt_get_is_Some. eauto.
Qed.

Lemma cancel_reserved : ¬ valid_identifier CANCEL_TRANSITION_ID.
Proof. by intros [_ ?]. Qed.

(** The ids of a state's transitions are distinct, the synthetic one included. *)
Lemma compiled_ids_distinct source id st :
  valid_state_source source id st → bt_sorted (src_transitions st) →
  NoDup (t_id <$> s_transitions (compiled_state id st)).
Proof.
  intros (_ & _ & _ & _ & Htr) Hsorted. simpl. rewrite fmap_app, <- list_fmap_compose.
  apply NoDup_app. split_and!.
  - by apply bt_sorted_NoDup.
  - intros x ([n t] & -> & Hin)%list_elem_of_fmap Hx. simpl in Hx.
    destruct (src_terminal st); [by apply not_elem_of_nil in Hx|].
    apply list_elem_of_singleton in Hx. simpl in Hx. apply cancel_reserved.
    rewrite <- Hx. by apply (Htr n t).
  - destruct (src_terminal st); [constructor|apply NoDup_singleton].
Qed.

Lemma compile_well_formed (sha256 : list Z → list Z) (source : FlowSource)
    (content : string) (d : CompiledFlowDefinition) :
  bt_sorted (src_states source) →
  (∀ name st, (name, st) ∈ src_states source → bt_sorted (src_transitions st)) →
  compile_typed_source sha256 source content = Some (Ok d) → well_formed d.
Proof.
  intros Hs Hts Hc.
  destruct (compile_typed_source_Ok _ _ _ _ Hs Hc) as [(_ & _ & _ & Hi & Hst & Hg) ->].
  assert (∀ name, name ∈ bt_keys (src_states source) → name ≠ CANCELLED_STATE_ID) as Hne.
  { intros name ([n st] & -> & Hin)%list_elem_of_fmap He. simpl in He. subst n.
    apply cancelled_reserved. by apply (Hst _ _ Hin). }
  pose proof (proj2 (bt_get_is_Some _ _) Hi) as [st0 Hst0].
  split; unfold state; cbn [d_states d_initial].
  - rewrite (state_source source _ st0) by auto. eauto.
  - apply bt_get_insert.
  - intros id s [[-> ->]|(_ & st & Hg' & ->)]%state_cases; [done|]. simpl. intros Ht.
    rewrite Ht, app_nil_r. apply bt_get_elem, Hst in Hg' as (_ & _ & [Hnil _] & _).
    by rewrite (Hnil Ht).
  - intros id s [[-> ->]|(_ & st & Hg' & ->)]%state_cases; [done|]. simpl. intros Ht.
    rewrite Ht. eexists. split_and!; [|done|].
    + apply bt_get_elem, Hst in Hg' as (_ & _ & [_ Hnil] & _). intros Hf%fmap_nil_inv.
      by rewrite (Hnil Hf) in Ht.
    + intros t ([n ts] & -> & Hin)%list_elem_of_fmap. split; [done|]. simpl. apply Hne.
      apply bt_get_elem, Hst in Hg' as (_ & _ & _ & _ & Htr). by apply (Htr n ts).
  - intros id s t [[-> ->]|(_ & st & Hg' & ->)]%state_cases Ht;
      [by apply not_elem_of_nil in Ht|]. apply elem_of_app in Ht as [Ht|Ht].
    + apply list_elem_of_fmap in Ht as ([n ts] & -> & Hin). simpl.
      apply bt_get_elem, Hst in Hg' as (_ & _ & _ & _ & Htr).
      destruct (Htr n ts Hin) as (_ & Hk & _). pose proof (Hne _ Hk).
      apply bt_get_is_Some in Hk as [st' Hst']. rewrite (state_source source _ st'); eauto.
    + destruct (src_terminal st); [by apply not_elem_of_nil in Ht|].
      apply list_elem_of_singleton in Ht as ->. simpl. rewrite bt_get_insert. eauto.
  - intros id s [[-> ->]|(_ & st & Hg' & ->)]%state_cases; [constructor|].
    apply bt_get_elem in Hg'. by apply (compiled_ids_distinct source id st);
      [apply Hst|apply (Hts id)].
  - intros id Hid [s [[? _]|(_ & st & Hg' & _)]%state_cases]; [done|].
    apply definition_edge; [done|]. apply Hg. apply bt_get_is_Some. eauto.
  - intros id Hid [s [[? _]|(_ & st & Hg' & _)]%state_cases]; [done|].
    destruct (Hg id) as (_ & y & sy & Hr & Hy & Ht); [apply bt_get_is_Some; eauto|].
    assert (y ≠ CANCELLED_STATE_ID) by (apply Hne, bt_get_is_Some; eauto).
    exists y, (compiled_state y sy). split_and!; [by apply definition_edge|done| |done].
    by apply state_source.
Qed.

(** ** Properties of Flow definitions *)

(** C15.  Compilation ends on every decoded document and accepts exactly the documents the
    format allows: the schema version, identifiers, bounds, targets and texts are valid,
    terminal states are those without transitions, every state is reachable from the
    initial one and every state reaches a terminal state. *)
Theorem compile_accepts_exactly_valid (sha256 : list Z → list Z) (source : FlowSource)
    (content : string) :
  bt_sorted (src_states source) →
  ∃ r, compile_typed_source sha256 source content = Some r ∧
    ((∃ d, r = Ok d) ↔ valid_source source).
Proof.
  intros Hs. unfold compile_typed_source.
  pose proof (check_source_states source Hs) as Hstates.
  pose proof (validate_compiled source Hs) as Hval.
  pose proof (check_source_diagnostics source) as Hdiag.
  destruct (check_source source) as [diags states]. simpl in *. subst states.
  destruct diags as [|e diags].
  - destruct (Hval eq_refl) as (ds & -> & Hds). destruct ds as [|e ds].
    + eexists. split; [done|]. split; [intros _; by apply Hds|eauto].
    + eexists. split; [done|]. split; [by intros [? ?]|]. intros ?%Hds. done.
  - eexists. split; [done|]. split; [by intros [? ?]|].
    intros (? & ? & ? & ? & ? & _). by discriminate (proj2 Hdiag ltac:(done)).
Qed.

Definition example_source : FlowSource :=
  mkFlowSource 1 "coder-review" "code"
    [("code", mkStateSource "Implement." false
        [("review", mkTransitionSource "review" "Evidence is present.")]);
     ("done", mkStateSource EmptyString true []);
     ("fix", mkStateSource "Resolve." false
        [("review", mkTransitionSource "review" "Resolved.")]);
     ("review", mkStateSource "Read the result." false
        [("done", mkTransitionSource "done" "Approved.");
         ("fix", mkTransitionSource "fix" "Changes were requested.")])].

Lemma compile_accepts_exactly_valid_witness :
  ∃ r, compile_typed_source (λ b, b) example_source "x" = Some r ∧
    ((∃ d, r = Ok d) ↔ valid_source example_source).
Proof.
  apply (compile_accepts_exactly_valid (λ b, b) example_source "x").
  unfold bt_sorted. simpl. repeat constructor.
Defined.

(** A definition that compiles is well formed: the initial and the cancelled state
    exist, terminal states have no transitions, every other state has authored
    transitions followed by the one to the cancelled state, all with distinct ids and
    existing targets, and every authored state is reachable and can reach a normal end
    without using the cancellation. *)
Theorem compiled_well_formed (sha256 : list Z → list Z) (source : FlowSource)
    (content : string) (d : CompiledFlowDefinition) :
  bt_sorted (src_states source) →
  (∀ name st, (name, st) ∈ src_states source → bt_sorted (src_transitions st)) →
  compile_typed_source sha256 source content = Some (Ok d) → well_formed d.
Proof. apply compile_well_formed. Qed.

Lemma compiled_well_formed_witness :
  ∃ d, compile_typed_source (λ b, b) example_source "x" = Some (Ok d) ∧ well_formed d.
Proof.
  eexists. split; [vm_compute; reflexivity|].
  apply (compiled_well_formed (λ b, b) example_source "x").
  - unfold bt_sorted. simpl. repeat constructor.
  - intros name st Hin. unfold example_source in Hin. simpl in Hin.
    repeat (apply elem_of_cons in Hin as [[= -> ->]|Hin];
            [unfold bt_sorted; simpl; repeat constructor|]).
    by apply not_elem_of_nil in Hin.
  - vm_compute. reflexivity.
Defined.

(** Compiling a document whose decoder builds ordered maps always returns: an
    oversized document is rejected without evaluating it, a failing stage is reported
    under its own code, and otherwise the answer is that of the typed source, so that a
    definition is returned only for a valid source. *)
Theorem compile_flow_source_outcome {Float Number Module_ Value : Type}
    (sha256 : list Z → list Z) (from_f64 : Float → option Number)
    (add_root_source : string → string → string → result Module_ string)
    (eval_module : Module_ → result Value string)
    (materialize : Value → result (Data Float) string)
    (from_value : Json Number → result FlowSource string) (content : string) :
  (∀ v source, from_value v = Ok source → bt_sorted (src_states source)) →
  ∃ r, compile_flow_source sha256 from_f64 add_root_source eval_module materialize from_value
         content = Some r ∧
    match r with
    | Ok d => str_len content <= MAX_SOURCE_BYTES ∧
        ∃ m v data source, add_root_source "flow.dcdl" "flow.dcdl" content = Ok m ∧
          eval_module m = Ok v ∧ materialize v = Ok data ∧
          from_value (decodal_data_to_json from_f64 data) = Ok source ∧ valid_source source ∧
          d_name d = src_name source ∧ content_digest d = content_digest_of sha256 content
    | Err e => diagnostics e ≠ []
    end.
Proof.
  intros Hsorted. unfold compile_flow_source, one_diagnostic.
  destruct (str_len content >? MAX_SOURCE_BYTES) eqn:Hl; [by eexists|].
  destruct (add_root_source _ _ _) as [m|] eqn:Hm; simpl; [|by eexists].
  destruct (eval_module m) as [v|] eqn:Hv; simpl; [|by eexists].
  destruct (materialize v) as [data|] eqn:Hd; simpl; [|by eexists].
  destruct (from_value _) as [source|] eqn:Hf; simpl; [|by eexists].
  specialize (Hsorted _ _ Hf).
  destruct (compile_typed_total sha256 source content Hsorted) as ([d|e] & Hc & Hr); rewrite Hc.
  - eexists. split; [done|]. split; [lia|].
    destruct (compile_typed_source_Ok _ _ _ _ Hsorted Hc) as [Hvalid ->].
    by exists m, v, data, source.
  - by eexists.
Qed.

Lemma compile_flow_source_outcome_witness :
  ∃ r, compile_flow_source (λ b, b) (λ _ : unit, @None unit) (λ _ _ c, Ok c) (λ c, Ok c)
         (λ c, Ok (DString c)) (λ _, Ok example_source) "doc" = Some r ∧
    match r with
    | Ok d => str_len "doc" <= MAX_SOURCE_BYTES ∧
        ∃ m v data source, (λ _ _ c : string, @Ok string string c) "flow.dcdl" "flow.dcdl" "doc" = Ok m ∧
          @Ok string string m = Ok v ∧ @Ok (Data unit) string (DString v) = Ok data ∧
          @Ok FlowSource string example_source = Ok source ∧ valid_source source ∧
          d_name d = src_name source ∧ content_digest d = content_digest_of (λ b, b) "doc"
    | Err e => diagnostics e ≠ []
    end.
Proof.
  apply (compile_flow_source_outcome (λ b, b) (λ _ : unit, @None unit) (λ _ _ c, Ok c)
    (λ c, Ok c) (λ c, Ok (DString c)) (λ _, Ok example_source) "doc").
  intros v source [= <-]. unfold bt_sorted. simpl. repeat constructor.
Defined.

End FlowDefinition.
