(* ===== verification/FlowSelector.v ===== *)
(** * Flow selectors

    Models [src/crates/flow/src/selector.rs]: source-qualified selectors, their textual
    form, which is also their serialized form, and resolved source snapshots. *)
From Stdlib Require Import ZArith String Ascii List Lia.
From stdpp Require Import base tactics numbers list strings.
From S2P Require Import Prelude BTree FlowDefinition.

Inductive FlowSelector :=
| Builtin (slug : string)
| Workspace (slug : string).

Inductive FlowSourceKind := BuiltinKind | WorkspaceKind.

Inductive FlowSelectorError :=
| InvalidFormat (message : string)
| UnknownSource (source : string)
| InvalidSlug (message : string).

Record ResolvedFlowSource := mkResolvedFlowSource {
  selector : FlowSelector;
  workspace_id : string;
  flow_id : string;
  source_digest : string;
  definition : CompiledFlowDefinition
}.

Module FlowSelector.

Definition validate_slug (slug : string) : result unit FlowSelectorError :=
  if bool_decide (slug = EmptyString) then Err (InvalidSlug "slug must not be empty")
  else if FlowDefinition.str_len slug >? 128 then Err (InvalidSlug "slug exceeds 128 bytes")
  else if negb (forallb FlowDefinition.identifier_char (chars slug)) then
    Err (InvalidSlug "slug must contain only ASCII letters, digits, '-' or '_'")
  else Ok tt.

Definition builtin (slug : string) : result FlowSelector FlowSelectorError :=
  let? _ := validate_slug slug in Ok (Builtin slug).

Definition workspace (slug : string) : result FlowSelector FlowSelectorError :=
  let? _ := validate_slug slug in Ok (Workspace slug).

Definition slug_of (s : FlowSelector) : string :=
  match s with Builtin slug | Workspace slug => slug end.

Definition source_kind (s : FlowSelector) : FlowSourceKind :=
  match s with Builtin _ => BuiltinKind | Workspace _ => WorkspaceKind end.

Definition kind_as_str (k : FlowSourceKind) : string :=
  match k with BuiltinKind => "builtin" | WorkspaceKind => "workspace" end.

(** [Display]. *)
Definition to_string (s : FlowSelector) : string :=
  match s with
  | Builtin slug => "builtin:" +:+ slug
  | Workspace slug => "workspace:" +:+ slug
  end.

(** [str::split_once(':')]. *)
Fixpoint split_once (c : ascii) (s : string) : option (string * string) :=
  match s with
  | EmptyString => None
  | String d r =>
      if Ascii.eqb d c then Some (EmptyString, r)
      else match split_once c r with
           | Some (a, b) => Some (String d a, b)
           | None => None
           end
  end.

(** [str::contains(c)]. *)
Definition contains_char (c : ascii) (s : string) : bool :=
  match split_once c s with Some _ => true | None => false end.

(** [FromStr]. *)
Definition from_str (value : string) : result FlowSelector FlowSelectorError :=
  match split_once ":" value with
  | None => Err (InvalidFormat
      "Flow selector must be source-qualified as builtin:<slug> or workspace:<slug>")
  | Some (source, slug) =>
      if contains_char ":" slug then
        Err (InvalidFormat "Flow selector must contain exactly one ':' separator")
      else if bool_decide (source = "builtin") then builtin slug
      else if bool_decide (source = "workspace") then workspace slug
      else Err (UnknownSource source)
  end.

(** A selector whose slug is a valid one; both constructors check it. *)
Definition valid_selector (s : FlowSelector) : Prop :=
  FlowDefinition.valid_identifier (slug_of s).

Lemma validate_slug_Ok slug :
  validate_slug slug = Ok tt ↔ FlowDefinition.valid_identifier slug.
Proof.
  unfold validate_slug, FlowDefinition.valid_identifier.
  rewrite FlowDefinition.str_len_pos. case_bool_decide; [split; [done|naive_solver]|].
  destruct (_ >? 128) eqn:Hl; [split; [done|lia]|].
  destruct (forallb _ _); simpl; [|split; [done|naive_solver]].
  split; [|done]. intros _. repeat split; [done|lia].
Qed.

(** A slug has no separator: ':' is not an identifier character. *)
Lemma slug_no_colon slug :
  valid_utf8 slug = true → forallb FlowDefinition.identifier_char (chars slug) = true →
  split_once ":" slug = None.
Proof.
  intros Hv H. assert (ascii_only slug = true) as Ha.
  { apply valid_chars_ascii; [done|]. apply Forall_forall. intros c Hc%list_elem_of_In.
    pose proof (proj1 (forallb_forall _ _) H c Hc) as Hi.
    unfold FlowDefinition.identifier_char, is_ascii_alphanumeric in Hi. lia. }
  clear Hv.
  induction slug as [|c slug IH]; [done|]. cbn [ascii_only] in Ha. zbool.
  rewrite chars_cons_ascii in H by lia. cbn [forallb] in H. split_andb.
  cbn [split_once]. destruct (Ascii.eqb c ":") eqn:Hc.
  - apply Ascii.eqb_eq in Hc as ->. done.
  - by rewrite IH.
Qed.

Lemma split_once_app (c : ascii) a b :
  split_once c a = None → split_once c (a +:+ String c b) = Some (a, b).
Proof.
  induction a as [|d a IH]; simpl; [by rewrite Ascii.eqb_refl|].
  destruct (Ascii.eqb d c); [done|]. destruct (split_once c a) as [[]|]; [done|].
  intros _. by rewrite IH.
Qed.

Lemma split_once_Some (c : ascii) s a b : split_once c s = Some (a, b) → s = a +:+ String c b.
Proof.
  revert a. induction s as [|d s IH]; intros a; simpl; [done|].
  destruct (Ascii.eqb d c) eqn:Hd.
  - intros [= <- <-]. by apply Ascii.eqb_eq in Hd as ->.
  - destruct (split_once c s) as [[a' b']|]; [|done]. intros [= <- <-]. simpl. by rewrite (IH a').
Qed.

(** ** Properties of Flow selectors *)

(** The textual form of a selector is unambiguous: parsing the text of a selector
    gives it back, so selectors with one slug and different sources stay distinct. *)
Theorem selector_print_parse (s : FlowSelector) :
  valid_selector s → valid_utf8 (slug_of s) = true → from_str (to_string s) = Ok s.
Proof.
  intros Hs Hv. pose proof (proj2 (validate_slug_Ok _) Hs) as Hok.
  pose proof (slug_no_colon _ Hv (proj2 Hs)) as Hc. destruct s as [slug|slug]; cbn [slug_of] in *;
    unfold from_str.
  - change (to_string _) with ("builtin" +:+ String ":" slug).
    rewrite (split_once_app ":" "builtin" slug) by done. unfold contains_char. rewrite Hc.
    rewrite bool_decide_true by done. unfold builtin. by rewrite Hok.
  - change (to_string _) with ("workspace" +:+ String ":" slug).
    rewrite (split_once_app ":" "workspace" slug) by done. unfold contains_char. rewrite Hc.
    rewrite bool_decide_false, bool_decide_true by done. unfold workspace. by rewrite Hok.
Qed.

Lemma selector_print_parse_witness :
  from_str "workspace:coder-review" = Ok (Workspace "coder-review").
Proof.
  apply (selector_print_parse (Workspace "coder-review")); [|reflexivity].
  by repeat split.
Defined.

(** Every accepted text is the canonical text of the selector it denotes, and its
    slug is a valid one. *)
Theorem selector_parse_print (value : string) (s : FlowSelector) :
  from_str value = Ok s → to_string s = value ∧ valid_selector s.
Proof.
  unfold from_str. destruct (split_once ":" value) as [[source slug]|] eqn:Hs; [|done].
  apply split_once_Some in Hs. destruct (contains_char ":" slug); [done|].
  unfold builtin, workspace, valid_selector. rewrite <- validate_slug_Ok.
  case_bool_decide; [|case_bool_decide; [|done]]; subst;
    destruct (validate_slug slug) as [[]|] eqn:Hv; [|done| |done]; by intros [= <-].
Qed.

Lemma selector_parse_print_witness :
  to_string (Builtin "a_b") = "builtin:a_b" ∧ valid_selector (Builtin "a_b").
Proof. apply selector_parse_print. vm_compute. reflexivity. Defined.

End FlowSelector.
