(* ===== verification/FlowCoordinator.v ===== *)
(** * The Flow coordinator

    Models [src/crates/flow/src/coordinator.rs]: Flow instances, transition attempts,
    the verdicts of a verifier and the Runtime state that owns them, with its event log.
    Each operation is the whole function: its checks in order, the state it leaves and
    the value or error it returns. *)
From Stdlib Require Import ZArith String Ascii List Lia.
From stdpp Require Import base tactics numbers sets list strings relations.
From S2P Require Import Prelude BTree FlowDefinition FlowSelector.

Inductive FlowInstanceStatus := Active | Completed | InstanceCancelled.

#[export] Instance FlowInstanceStatus_eq_dec : EqDecision FlowInstanceStatus.
Proof. solve_decision. Defined.

Record FlowInstance := mkFlowInstance {
  i_instance_id : string;
  i_definition_id : string;
  i_definition_digest : string;
  i_current_state : StateId;
  i_status : FlowInstanceStatus;
  i_active_attempt_id : option string
}.

Record FlowTransitionRequest := mkRequest {
  rq_attempt_id : string;
  rq_reason : string
}.

Record TransitionCheckSnapshot := mkSnapshot {
  sn_transition_id : TransitionId;
  sn_target : StateId;
  sn_condition : string;
  sn_synthetic : bool
}.

Inductive FlowAttemptStatus := Verifying | Entered | Rejected | AttemptCancelled | Failed.

Record FlowTransitionAttempt := mkAttempt {
  a_attempt_id : string;
  a_instance_id : string;
  a_definition_digest : string;
  a_from_state : StateId;
  a_reason : string;
  a_transitions : list TransitionCheckSnapshot;
  a_status : FlowAttemptStatus
}.

Inductive ConditionVerdict := Met | NotMet | Indeterminate.

#[export] Instance ConditionVerdict_eq_dec : EqDecision ConditionVerdict.
Proof. solve_decision. Defined.

Record TransitionConditionResult := mkResult {
  cr_transition_id : TransitionId;
  cr_verdict : ConditionVerdict;
  cr_rationale : string
}.

Inductive FlowVerifierOutcome :=
| OutcomeCompleted (results : list TransitionConditionResult)
| OutcomeCancelled
| OutcomeFailed (message : string).

Inductive FlowRejectionCode :=
| NoConditionMet | MultipleConditionsMet | IndeterminateCode | InvalidVerifierOutput
| VerifierCancelled | VerifierFailed | StaleState.

Record FlowTransitionRejection := mkRejection {
  rj_code : FlowRejectionCode;
  rj_message : string
}.

Inductive FlowEventKind :=
| TransitionRequested (attempt_id : string) (state_id : StateId) (reason : string)
    (transitions : list TransitionCheckSnapshot)
| TransitionVerifying (attempt_id : string)
| TransitionCheckPassed (attempt_id : string) (transition_id : TransitionId)
    (results : list TransitionConditionResult)
| TransitionCheckRejected (attempt_id : string) (rejection : FlowTransitionRejection)
    (results : list TransitionConditionResult)
| TransitionVerificationCancelled (attempt_id : string)
| TransitionVerificationFailed (attempt_id : string) (message : string)
| StateEntered (attempt_id : string) (state_id : StateId) (status : FlowInstanceStatus).

Record FlowRuntimeEvent := mkEvent {
  sequence : Z;
  event : FlowEventKind
}.

Record FlowTransitionResolution := mkResolution {
  rs_attempt : FlowTransitionAttempt;
  rs_entered_state : option StateId;
  rs_state_instructions : option string;
  rs_rejection : option FlowTransitionRejection;
  rs_events : list FlowEventKind
}.

Record FlowRuntimeState := mkRuntimeState {
  rt_definition : CompiledFlowDefinition;
  rt_instance : FlowInstance;
  rt_active_attempt : option FlowTransitionAttempt;
  rt_events : list FlowRuntimeEvent
}.

Inductive FlowTransitionError :=
| NotActive
| AttemptInProgress
| DefinitionMismatch
| InvalidRequest (message : string)
| Invariant (message : string).

Module FlowCoordinator.
Import FlowDefinition.

Definition MAX_REASON_BYTES : Z := 16 * 1024.
Definition MAX_RATIONALE_BYTES : Z := 32 * 1024.

Definition ensure_non_empty (field value : string) : result unit string :=
  if trim_is_empty value then Err (field +:+ " must not be empty") else Ok tt.

Definition validate_reason (reason : string) : result unit FlowTransitionError :=
  if trim_is_empty reason then Err (InvalidRequest "reason must not be empty")
  else if str_len reason >? MAX_REASON_BYTES then
    Err (InvalidRequest "reason exceeds 16384 bytes")
  else Ok tt.

(** The [while] loop is [floor_boundary]. *)
Definition bounded_message (message : string) : string :=
  if str_len message <=? MAX_RATIONALE_BYTES then message
  else
    let end_ := floor_boundary message (Z.to_nat MAX_RATIONALE_BYTES) in
    String.substring 0 end_ message +:+ "…".

(** [FlowInstance::start]. *)
Definition instance_start (instance_id definition_id : string) (d : CompiledFlowDefinition)
  : result FlowInstance FlowTransitionError :=
  let? _ := map_err InvalidRequest
              (let? _ := ensure_non_empty "instance_id" instance_id in
               ensure_non_empty "definition_id" definition_id) in
  let? initial_state := ok_or (state d (d_initial d))
                          (Invariant "compiled initial state is missing") in
  let status := if s_terminal initial_state then Completed else Active in
  Ok (mkFlowInstance instance_id definition_id (content_digest d) (d_initial d) status None).

(** [From<&CompiledTransition> for TransitionCheckSnapshot]. *)
Definition snapshot_of (t : CompiledTransition) : TransitionCheckSnapshot :=
  mkSnapshot (t_id t) (t_target t) (t_condition t) (synthetic t).

Definition set_active_attempt (i : FlowInstance) (a : option string) : FlowInstance :=
  mkFlowInstance (i_instance_id i) (i_definition_id i) (i_definition_digest i)
    (i_current_state i) (i_status i) a.

Definition enter_state (i : FlowInstance) (s : StateId) (st : FlowInstanceStatus) : FlowInstance :=
  mkFlowInstance (i_instance_id i) (i_definition_id i) (i_definition_digest i) s st
    (i_active_attempt_id i).

Definition set_attempt_status (a : FlowTransitionAttempt) (st : FlowAttemptStatus)
  : FlowTransitionAttempt :=
  mkAttempt (a_attempt_id a) (a_instance_id a) (a_definition_digest a) (a_from_state a)
    (a_reason a) (a_transitions a) st.

(** [begin_transition]: on success, the instance with its reservation. *)
Definition begin_transition (i : FlowInstance) (d : CompiledFlowDefinition)
    (request : FlowTransitionRequest)
  : result (FlowInstance * FlowTransitionAttempt * list FlowEventKind) FlowTransitionError :=
  if negb (bool_decide (i_status i = Active)) then Err NotActive
  else if bool_decide (is_Some (i_active_attempt_id i)) then Err AttemptInProgress
  else if negb (bool_decide (content_digest d = i_definition_digest i)) then
    Err DefinitionMismatch
  else
    let? _ := map_err InvalidRequest (ensure_non_empty "attempt_id" (rq_attempt_id request)) in
    let? _ := validate_reason (rq_reason request) in
    let? st := ok_or (state d (i_current_state i))
                 (Invariant ("current state " +:+ debug_state_id (i_current_state i)
                             +:+ " is missing from the pinned definition")) in
    if s_terminal st || (len (s_transitions st) =? 0) then
      Err (Invariant "active instance points at a state without transitions")
    else
      let attempt := mkAttempt (rq_attempt_id request) (i_instance_id i)
                       (i_definition_digest i) (i_current_state i) (rq_reason request)
                       (snapshot_of <$> s_transitions st) Verifying in
      let events := [TransitionRequested (a_attempt_id attempt) (a_from_state attempt)
                       (a_reason attempt) (a_transitions attempt);
                     TransitionVerifying (a_attempt_id attempt)] in
      Ok (set_active_attempt i (Some (a_attempt_id attempt)), attempt, events).

Definition rejected_resolution (attempt : FlowTransitionAttempt) (code : FlowRejectionCode)
    (message : string) (results : list TransitionConditionResult)
    (events : list FlowEventKind) : FlowTransitionResolution :=
  let rejection := mkRejection code message in
  mkResolution attempt None None (Some rejection)
    (events ++ [TransitionCheckRejected (a_attempt_id attempt) rejection results]).

(** [{id:?}] of a transition id. *)
Definition debug_transition_id (id : TransitionId) : string :=
  "TransitionId(" +:+ debug_str id +:+ ")".

(** The loop over the verdicts: the verdicts by id, and why the output is invalid. *)
Fixpoint scan_results (results : list TransitionConditionResult)
    (by_id : btree ConditionVerdict) : btree ConditionVerdict * option string :=
  match results with
  | [] => (by_id, None)
  | r :: rest =>
      if str_len (cr_rationale r) >? MAX_RATIONALE_BYTES then
        (by_id, Some ("rationale for transition " +:+ debug_transition_id (cr_transition_id r)
                      +:+ " exceeds 32768 bytes"))
      else if bt_contains_key by_id (cr_transition_id r) then
        (bt_insert (cr_transition_id r) (cr_verdict r) by_id,
         Some ("verifier returned transition " +:+ debug_transition_id (cr_transition_id r)
               +:+ " more than once"))
      else scan_results rest (bt_insert (cr_transition_id r) (cr_verdict r) by_id)
  end.

Definition is_met (r : TransitionConditionResult) : bool := bool_decide (cr_verdict r = Met).

(** The rejection of a complete set of verdicts, or the only condition that is met. *)
Definition select_verdict (results : list TransitionConditionResult)
  : FlowTransitionRejection + TransitionConditionResult :=
  match List.filter is_met results with
  | [] =>
      if existsb (λ r, bool_decide (cr_verdict r = Indeterminate)) results then
        inl (mkRejection IndeterminateCode
          "No transition condition was met and at least one condition could not be determined")
      else inl (mkRejection NoConditionMet "No outgoing transition condition was met")
  | [selected] => inr selected
  | _ => inl (mkRejection MultipleConditionsMet
                "More than one outgoing transition condition was met")
  end.

(** [resolve_completed_results]: the instance it leaves and the resolution; an error
    leaves the instance as it was. *)
Definition resolve_completed_results (i : FlowInstance) (d : CompiledFlowDefinition)
    (attempt : FlowTransitionAttempt) (results : list TransitionConditionResult)
    (events : list FlowEventKind)
  : result (FlowInstance * FlowTransitionResolution) FlowTransitionError :=
  let expected := bs_collect (sn_transition_id <$> a_transitions attempt) in
  let '(by_id, invalid_reason) := scan_results results [] in
  let invalid_reason :=
    match invalid_reason with
    | Some m => Some m
    | None =>
        if negb (bool_decide (bt_keys by_id = bt_keys expected)) then
          Some "verifier must return exactly one result for every captured outgoing transition"
        else None
    end in
  match invalid_reason with
  | Some m =>
      Ok (i, rejected_resolution (set_attempt_status attempt Rejected) InvalidVerifierOutput m
               results events)
  | None =>
      match select_verdict results with
      | inl rejection =>
          Ok (i, rejected_resolution (set_attempt_status attempt Rejected) (rj_code rejection)
                   (rj_message rejection) results events)
      | inr selected =>
          let? t := ok_or
            (List.find (λ t, bool_decide (sn_transition_id t = cr_transition_id selected))
               (a_transitions attempt))
            (Invariant "selected transition is missing from the captured attempt") in
          let? target_state := ok_or (state d (sn_target t))
            (Invariant ("target state " +:+ debug_state_id (sn_target t)
                        +:+ " is missing from the pinned definition")) in
          let attempt := set_attempt_status attempt Entered in
          let status :=
            if bool_decide (sn_target t = CANCELLED_STATE_ID) then InstanceCancelled
            else if s_terminal target_state then Completed else Active in
          let i := enter_state i (sn_target t) status in
          let events := events
            ++ [TransitionCheckPassed (a_attempt_id attempt) (sn_transition_id t) results]
            ++ [StateEntered (a_attempt_id attempt) (i_current_state i) (i_status i)] in
          Ok (i, mkResolution attempt (Some (i_current_state i))
                   (Some (s_instructions target_state)) None events)
      end
  end.

Definition resolve_transition (i : FlowInstance) (d : CompiledFlowDefinition)
    (attempt : FlowTransitionAttempt) (outcome : FlowVerifierOutcome)
  : result (FlowInstance * FlowTransitionResolution) FlowTransitionError :=
  if negb (bool_decide (i_instance_id i = a_instance_id attempt))
     || negb (bool_decide (i_active_attempt_id i = Some (a_attempt_id attempt))) then
    Err (InvalidRequest "attempt is not the active/latest attempt for this Flow instance")
  else if negb (bool_decide (content_digest d = i_definition_digest i))
          || negb (bool_decide (a_definition_digest attempt = i_definition_digest i)) then
    Err DefinitionMismatch
  else
    let? resolved :=
      match outcome with
      | OutcomeCancelled =>
          let attempt := set_attempt_status attempt AttemptCancelled in
          Ok (i, rejected_resolution attempt VerifierCancelled
                   "Flow verifier was cancelled before producing a complete verdict" []
                   [TransitionVerificationCancelled (a_attempt_id attempt)])
      | OutcomeFailed message =>
          let message := bounded_message message in
          let attempt := set_attempt_status attempt Failed in
          Ok (i, rejected_resolution attempt VerifierFailed
                   ("Flow verifier failed: " +:+ message) []
                   [TransitionVerificationFailed (a_attempt_id attempt) message])
      | OutcomeCompleted results =>
          if negb (bool_decide (i_status i = Active))
             || negb (bool_decide (i_current_state i = a_from_state attempt)) then
            Ok (i, rejected_resolution (set_attempt_status attempt Rejected) StaleState
                     "Flow state changed after verification began" results [])
          else resolve_completed_results i d attempt results []
      end in
    Ok (set_active_attempt (fst resolved) None, snd resolved).

(** [append_events]: the sequence number of an event is its position. *)
Fixpoint append_events (log : list FlowRuntimeEvent) (events : list FlowEventKind)
  : list FlowRuntimeEvent * result unit FlowTransitionError :=
  match events with
  | [] => (log, Ok tt)
  | e :: rest =>
      if len log >? U64_MAX then (log, Err (Invariant "Flow event sequence overflowed"))
      else append_events (log ++ [mkEvent (len log) e]) rest
  end.

(** [FlowRuntimeState::start]. *)
Definition start (source : ResolvedFlowSource) (instance_id : string)
  : result (FlowRuntimeState * string) FlowTransitionError :=
  let d := definition source in
  if negb (bool_decide (source_digest source = content_digest d)) then
    Err (InvalidRequest "resolved Flow source digest does not match compiled definition")
  else if negb (bool_decide (FlowSelector.slug_of (selector source) = d_name d)) then
    Err (InvalidRequest "resolved Flow selector does not match compiled definition name")
  else
    let? i := instance_start instance_id (flow_id source) d in
    let? initial := ok_or (state d (d_initial d))
                      (Invariant "compiled initial state is missing") in
    Ok (mkRuntimeState d i None
          [mkEvent 0 (StateEntered EmptyString (i_current_state i) (i_status i))],
        s_instructions initial).

Definition requested_with (attempt_id : string) (e : FlowRuntimeEvent) : bool :=
  match event e with
  | TransitionRequested used _ _ _ => bool_decide (used = attempt_id)
  | _ => false
  end.

(** [begin_or_recover_transition]: the state it leaves, and the attempt or the error. *)
Definition begin_or_recover_transition (s : FlowRuntimeState) (attempt_id reason : string)
  : FlowRuntimeState * result FlowTransitionAttempt FlowTransitionError :=
  match rt_active_attempt s with
  | Some attempt => (s, Ok attempt)
  | None =>
      if existsb (requested_with attempt_id) (rt_events s) then
        (s, Err (InvalidRequest "transition attempt ID has already been used"))
      else
        match begin_transition (rt_instance s) (rt_definition s) (mkRequest attempt_id reason) with
        | Err e => (s, Err e)
        | Ok (i, attempt, events) =>
            let '(log, appended) := append_events (rt_events s) events in
            match appended with
            | Err e => (mkRuntimeState (rt_definition s) i (rt_active_attempt s) log, Err e)
            | Ok _ => (mkRuntimeState (rt_definition s) i (Some attempt) log, Ok attempt)
            end
        end
  end.

Definition resolve_active_transition (s : FlowRuntimeState) (attempt_id : string)
    (outcome : FlowVerifierOutcome)
  : FlowRuntimeState * result FlowTransitionResolution FlowTransitionError :=
  match rt_active_attempt s with
  | None => (s, Err (InvalidRequest "Flow has no active transition attempt"))
  | Some attempt =>
      if negb (bool_decide (a_attempt_id attempt = attempt_id)) then
        (s, Err (InvalidRequest "attempt is not the active/latest attempt for this Flow instance"))
      else
        match resolve_transition (rt_instance s) (rt_definition s) attempt outcome with
        | Err e => (s, Err e)
        | Ok (i, resolution) =>
            let '(log, appended) := append_events (rt_events s) (rs_events resolution) in
            match appended with
            | Err e => (mkRuntimeState (rt_definition s) i (rt_active_attempt s) log, Err e)
            | Ok _ => (mkRuntimeState (rt_definition s) i None log, Ok resolution)
            end
        end
  end.

(** ** Specification *)

(** The status an instance has in a state. *)
Definition status_in (id : StateId) (st : CompiledState) : FlowInstanceStatus :=
  if bool_decide (id = CANCELLED_STATE_ID) then InstanceCancelled
  else if s_terminal st then Completed else Active.

(** The attempt ids requested by a log, and the states it entered. *)
Definition requested_ids (log : list FlowRuntimeEvent) : list string :=
  omap (λ e, match event e with TransitionRequested id _ _ _ => Some id | _ => None end) log.

Definition entered (log : list FlowRuntimeEvent) : list (StateId * FlowInstanceStatus) :=
  omap (λ e, match event e with StateEntered _ id st => Some (id, st) | _ => None end) log.

(** One transition of the definition, authored or synthetic. *)
Definition moves (d : CompiledFlowDefinition) (x y : StateId) : Prop :=
  ∃ s t, state d x = Some s ∧ t ∈ s_transitions s ∧ t_target t = y.

(** Consecutive elements are related. *)
Fixpoint chain {A} (R : A → A → Prop) (l : list A) : Prop :=
  match l with
  | x :: (y :: _) as r => R x y ∧ chain R r
  | _ => True
  end.

(** The attempt the instance holds a reservation for. *)
Definition attempt_matches (s : FlowRuntimeState) (a : FlowTransitionAttempt) : Prop :=
  i_active_attempt_id (rt_instance s) = Some (a_attempt_id a) ∧
  a_instance_id a = i_instance_id (rt_instance s) ∧
  a_definition_digest a = i_definition_digest (rt_instance s) ∧
  a_from_state a = i_current_state (rt_instance s) ∧
  i_status (rt_instance s) = Active ∧
  a_attempt_id a ∈ requested_ids (rt_events s) ∧
  ∃ st, state (rt_definition s) (a_from_state a) = Some st ∧ s_terminal st = false ∧
    a_transitions a = snapshot_of <$> s_transitions st.

(** The invariant of the Runtime state. *)
Record flow_inv (s : FlowRuntimeState) : Prop := {
  inv_definition : well_formed (rt_definition s);
  inv_digest : i_definition_digest (rt_instance s) = content_digest (rt_definition s);
  inv_status : ∃ st, state (rt_definition s) (i_current_state (rt_instance s)) = Some st ∧
    i_status (rt_instance s) = status_in (i_current_state (rt_instance s)) st;
  inv_attempt : match rt_active_attempt s with
                | None => i_active_attempt_id (rt_instance s) = None
                | Some a => attempt_matches s a
                end;
  (** the log: positions are sequence numbers, attempt ids are used once *)
  inv_sequence : ∀ n e, rt_events s !! n = Some e → sequence e = Z.of_nat n;
  inv_requested : NoDup (requested_ids (rt_events s));
  (** the states entered are a path of the definition ending in the current one *)
  inv_path : chain (moves (rt_definition s)) (fst <$> entered (rt_events s));
  inv_last : last (entered (rt_events s))
             = Some (i_current_state (rt_instance s), i_status (rt_instance s))
}.

(** Room for the events of one more operation. *)
Definition fits (s : FlowRuntimeState) : Prop := len (rt_events s) + 4 <= U64_MAX.

Inductive flow_step : FlowRuntimeState → FlowRuntimeState → Prop :=
| step_begin s attempt_id reason :
    fits s → flow_step s (fst (begin_or_recover_transition s attempt_id reason))
| step_resolve s attempt_id outcome :
    fits s → flow_step s (fst (resolve_active_transition s attempt_id outcome)).

(** Exactly one verdict for each captured transition, none with an oversized rationale. *)
Definition complete_verdicts (a : FlowTransitionAttempt)
    (results : list TransitionConditionResult) : Prop :=
  (cr_transition_id <$> results) ≡ₚ (sn_transition_id <$> a_transitions a) ∧
  Forall (λ r, str_len (cr_rationale r) <= MAX_RATIONALE_BYTES) results.

(** The verdicts select a captured transition: they are complete and its condition is
    the only one that is met. *)
Definition selects (a : FlowTransitionAttempt) (results : list TransitionConditionResult)
    (t : TransitionCheckSnapshot) : Prop :=
  complete_verdicts a results ∧ t ∈ a_transitions a ∧
  ∃ r, List.filter is_met results = [r] ∧ cr_transition_id r = sn_transition_id t.

(** ** The event log *)

Lemma append_events_Ok log events :
  len log + len events <= U64_MAX + 1 →
  ∃ new, append_events log events = (log ++ new, Ok tt) ∧ event <$> new = events ∧
    ∀ n e, new !! n = Some e → sequence e = Z.of_nat (length log + n).
Proof.
  revert log. induction events as [|e events IH]; intros log Hl; simpl.
  - exists []. by rewrite app_nil_r.
  - unfold len in *. simpl in Hl. assert ((Z.of_nat (length log) >? U64_MAX) = false) as -> by lia.
    destruct (IH (log ++ [mkEvent (Z.of_nat (length log)) e])) as (new & -> & Hev & Hseq).
    { rewrite length_app. simpl. lia. }
    exists (mkEvent (Z.of_nat (length log)) e :: new). rewrite <- app_assoc.
    split_and!; [done|by rewrite fmap_cons, Hev|]. intros [|n] e'; simpl.
    + intros [= <-]. simpl. lia.
    + intros Hn. rewrite (Hseq n e' Hn), length_app. simpl. lia.
Qed.

Lemma requested_ids_app l1 l2 : requested_ids (l1 ++ l2) = requested_ids l1 ++ requested_ids l2.
Proof. apply omap_app. Qed.

Lemma entered_app l1 l2 : entered (l1 ++ l2) = entered l1 ++ entered l2.
Proof. apply omap_app. Qed.

(** What new events mean does not depend on their sequence numbers. *)
Lemma requested_ids_events new events :
  event <$> new = events →
  requested_ids new
  = omap (λ e, match e with TransitionRequested id _ _ _ => Some id | _ => None end) events.
Proof.
  intros <-. unfold requested_ids. induction new as [|e new IH]; [done|]. cbn.
  by destruct (event e); rewrite <- IH.
Qed.

Lemma entered_events new events :
  event <$> new = events →
  entered new
  = omap (λ e, match e with StateEntered _ id st => Some (id, st) | _ => None end) events.
Proof.
  intros <-. unfold entered. induction new as [|e new IH]; [done|]. cbn.
  by destruct (event e); rewrite <- IH.
Qed.

Lemma chain_snoc {A} (R : A → A → Prop) l x y :
  chain R l → last l = Some x → R x y → chain R (l ++ [y]).
Proof.
  induction l as [|a [|b l] IH]; intros Hc Hl Hr; [done| |].
  - injection Hl as ->. by split.
  - destruct Hc as [? Hc]. split; [done|]. by apply IH.
Qed.

Lemma requested_with_spec id log :
  existsb (requested_with id) log = true ↔ id ∈ requested_ids log.
Proof.
  unfold requested_ids. rewrite existsb_exists, list_elem_of_omap.
  split; intros (e & He & Hid); exists e; rewrite list_elem_of_In in *; (split; [done|]);
    unfold requested_with in *; destruct (event e); try done.
  - by apply bool_decide_eq_true in Hid as ->.
  - injection Hid as ->. by apply bool_decide_eq_true.
Qed.

(** ** Beginning an attempt *)

Lemma begin_transition_Ok i d rq i' a evs :
  begin_transition i d rq = Ok (i', a, evs) →
  i_status i = Active ∧ i_active_attempt_id i = None ∧ content_digest d = i_definition_digest i ∧
  i' = set_active_attempt i (Some (rq_attempt_id rq)) ∧
  ∃ st, state d (i_current_state i) = Some st ∧ s_terminal st = false ∧
    a = mkAttempt (rq_attempt_id rq) (i_instance_id i) (i_definition_digest i)
          (i_current_state i) (rq_reason rq) (snapshot_of <$> s_transitions st) Verifying ∧
    evs = [TransitionRequested (rq_attempt_id rq) (i_current_state i) (rq_reason rq)
             (snapshot_of <$> s_transitions st); TransitionVerifying (rq_attempt_id rq)].
Proof.
  unfold begin_transition. case_bool_decide as Hs; [|done]. simpl.
  case_bool_decide as Ha; [done|]. case_bool_decide as Hd; [|done]. simpl.
  destruct (ensure_non_empty _ _); simpl; [|done].
  destruct (validate_reason _); [|done].
  destruct (state d (i_current_state i)) as [st|] eqn:Hst; simpl; [|done].
  destruct (s_terminal st) eqn:Ht; simpl; [done|].
  destruct (len (s_transitions st) =? 0); [done|]. intros [= <- <- <-].
  apply eq_None_not_Some in Ha. split_and!; [done..|]. eauto 10.
Qed.

Lemma begin_inv s attempt_id reason :
  flow_inv s → fits s → flow_inv (fst (begin_or_recover_transition s attempt_id reason)).
Proof.
  intros Hinv Hfits. unfold begin_or_recover_transition.
  destruct (rt_active_attempt s) as [a|] eqn:Ha; [done|].
  destruct (existsb _ _) eqn:Hused; [done|].
  assert (attempt_id ∉ requested_ids (rt_events s)) as Hnew
    by (intros ?%requested_with_spec; congruence).
  destruct (begin_transition _ _ _) as [[[i a] evs]|] eqn:Hb; [|done].
  apply begin_transition_Ok in Hb as (Hact & Hnone & Hdig & -> & st & Hst & Ht & -> & ->).
  set (evs := [_; _]).
  destruct (append_events_Ok (rt_events s) evs) as (new & -> & Hev & Hseq).
  { unfold fits, len in *. subst evs. simpl. lia. }
  pose proof (requested_ids_events _ _ Hev) as Hreq. simpl in Hreq.
  pose proof (entered_events _ _ Hev) as Hent. simpl in Hent.
  destruct Hinv as [I1 I2 I3 I4 I5 I6 I7 I8]. split; simpl; try done.
  - split_and!; [done..| |by exists st]. simpl. rewrite requested_ids_app, Hreq.
    apply elem_of_app. right. by left.
  - intros n e [Hn|[Hle Hn]]%lookup_app_Some; [by apply I5|].
    rewrite (Hseq _ _ Hn). lia.
  - rewrite requested_ids_app, Hreq. apply NoDup_app. split_and!; [done| |apply NoDup_singleton].
    by intros x Hx ->%list_elem_of_singleton.
  - by rewrite entered_app, Hent, app_nil_r.
  - by rewrite entered_app, Hent, app_nil_r.
Qed.

(** ** The verdicts *)

Lemma scan_results_spec results by_id :
  bt_sorted by_id →
  let '(m, invalid) := scan_results results by_id in
  (invalid = None ↔
     Forall (λ r, str_len (cr_rationale r) <= MAX_RATIONALE_BYTES) results ∧
     NoDup (cr_transition_id <$> results) ∧
     ∀ x, x ∈ cr_transition_id <$> results → x ∉ bt_keys by_id) ∧
  (invalid = None → bt_sorted m ∧
     ∀ x, x ∈ bt_keys m ↔ x ∈ cr_transition_id <$> results ∨ x ∈ bt_keys by_id).
Proof.
  revert by_id. induction results as [|r results IH]; intros by_id Hs.
  { simpl. split; [|by intros _; split; [done|set_solver]]. split; [|done]. intros _.
    split_and!; [constructor|constructor|]. intros x Hx. by apply not_elem_of_nil in Hx. }
  cbn [scan_results].
  destruct (str_len (cr_rationale r) >? MAX_RATIONALE_BYTES) eqn:Hl;
    [|destruct (bt_contains_key by_id (cr_transition_id r)) eqn:Hc;
      [|specialize (IH (bt_insert (cr_transition_id r) (cr_verdict r) by_id)
                      (bt_sorted_insert _ _ _ Hs)); destruct (scan_results _ _) as [m invalid]]];
    rewrite fmap_cons, Forall_cons, NoDup_cons; setoid_rewrite elem_of_cons.
  { split; [|done]. split; [done|]. intros ([? _] & _). lia. }
  { apply bt_contains_key_true in Hc. split; [|done]. split; [done|].
    intros (_ & _ & Hnew). exfalso. eapply Hnew; [by left|done]. }
  assert (cr_transition_id r ∉ bt_keys by_id) as Hnot
    by (intros ?%bt_contains_key_true; congruence).
  destruct IH as [IH1 IH2].
  setoid_rewrite bt_keys_insert in IH1. setoid_rewrite bt_keys_insert in IH2. split.
  - rewrite IH1. split.
    + intros (Hf & Hnd & Hx). split_and!; [lia|done| |done|].
      * intros Hin. apply (Hx _ Hin). by left.
      * intros x [->|Hin]; [done|]. intros ?. apply (Hx _ Hin). by right.
    + intros ([_ Hf] & [Hni Hnd] & Hx). split_and!; [done..|].
      intros x Hin [->|?]; [done|]. by apply (Hx x); [right|].
  - intros Hn. destruct (IH2 Hn) as [? Hk]. split; [done|]. intros x. rewrite Hk. tauto.
Qed.

Lemma complete_verdicts_scan a results :
  NoDup (sn_transition_id <$> a_transitions a) →
  complete_verdicts a results ↔
  ∃ m, scan_results results [] = (m, None) ∧
    bt_keys m = bt_keys (bs_collect (sn_transition_id <$> a_transitions a)).
Proof.
  intros Hnd. pose proof (scan_results_spec results [] ltac:(constructor)) as Hs.
  destruct (scan_results results []) as [m invalid]. destruct Hs as [H1 H2].
  unfold complete_verdicts. set (ids := sn_transition_id <$> a_transitions a) in *.
  assert (∀ x, x ∈ bt_keys (bs_collect ids) ↔ x ∈ ids) as Hexp by (intros; apply bs_collect_keys).
  split.
  - intros [Hp Hf]. assert (invalid = None) as Hn.
    { apply H1. split_and!; [done| |intros; apply not_elem_of_nil]. by rewrite Hp. }
    exists m. split; [by rewrite Hn|]. destruct (H2 Hn) as [Hm Hk].
    apply sorted_ext; [done|apply bs_collect_sorted|]. intros x. rewrite Hk, Hexp, Hp. set_solver.
  - intros (m' & [= <- Hn] & Hk). destruct (proj1 H1 Hn) as (Hf & Hnd' & _).
    destruct (H2 Hn) as [Hm Hmk]. split; [|done].
    apply NoDup_Permutation; [done|done|]. intros x. rewrite <- Hexp, <- Hk, Hmk. set_solver.
Qed.

Lemma snapshot_find (l : list TransitionCheckSnapshot) id :
  id ∈ sn_transition_id <$> l →
  ∃ t, List.find (λ t, bool_decide (sn_transition_id t = id)) l = Some t ∧ t ∈ l ∧
    sn_transition_id t = id.
Proof.
  intros (t & -> & Ht)%list_elem_of_fmap.
  destruct (List.find _ l) as [t'|] eqn:Hf.
  - pose proof (find_some _ _ Hf) as [Hin Hid]. apply list_elem_of_In in Hin.
    apply bool_decide_eq_true in Hid. eauto.
  - apply list_elem_of_In in Ht. pose proof (find_none _ _ Hf t Ht) as Hn. simpl in Hn.
    by rewrite bool_decide_true in Hn.
Qed.

Lemma selects_unique a results t t' :
  NoDup (sn_transition_id <$> a_transitions a) →
  selects a results t → selects a results t' → t = t'.
Proof.
  intros Hnd (_ & Ht & r & Hr & Hid) (_ & Ht' & r' & Hr' & Hid').
  rewrite Hr in Hr'. injection Hr' as <-. rewrite Hid in Hid'.
  apply list_elem_of_lookup in Ht as (i & Hi), Ht' as (j & Hj).
  assert (i = j) as <-; [|congruence].
  eapply NoDup_lookup; [done| |]; rewrite list_lookup_fmap; [by rewrite Hi|].
  rewrite Hj. simpl. congruence.
Qed.

Lemma resolve_completed_spec i d a results evs :
  NoDup (sn_transition_id <$> a_transitions a) →
  (∀ t, t ∈ a_transitions a → is_Some (state d (sn_target t))) →
  (∃ t st, selects a results t ∧ state d (sn_target t) = Some st ∧
     resolve_completed_results i d a results evs
     = Ok (enter_state i (sn_target t) (status_in (sn_target t) st),
           mkResolution (set_attempt_status a Entered) (Some (sn_target t))
             (Some (s_instructions st)) None
             (evs ++ [TransitionCheckPassed (a_attempt_id a) (sn_transition_id t) results]
                  ++ [StateEntered (a_attempt_id a) (sn_target t)
                        (status_in (sn_target t) st)]))) ∨
  ((∀ t, ¬ selects a results t) ∧ ∃ rj,
     resolve_completed_results i d a results evs
     = Ok (i, mkResolution (set_attempt_status a Rejected) None None (Some rj)
                (evs ++ [TransitionCheckRejected (a_attempt_id a) rj results]))).
Proof.
  intros Hnd Htgt. pose proof (complete_verdicts_scan a results Hnd) as Hscan.
  unfold resolve_completed_results.
  destruct (scan_results results []) as [m invalid].
  set (reason := match invalid with Some m => Some m | None => _ end).
  assert (reason = None ↔ complete_verdicts a results) as Hreason.
  { rewrite Hscan. subst reason. destruct invalid; [naive_solver|].
    case_bool_decide; simpl; naive_solver. }
  destruct reason as [msg|].
  { right. split; [|by eexists]. intros t [Hc _]. by apply Hreason in Hc. }
  pose proof (proj1 Hreason eq_refl) as Hcomplete. unfold select_verdict, rejected_resolution.
  destruct (List.filter is_met results) as [|r [|r' rest]] eqn:Hmet.
  - right. split; [|destruct (existsb _ results); by eexists].
    intros t (_ & _ & r & Hr & _). by rewrite Hmet in Hr.
  - assert (r ∈ results) as Hr.
    { assert (r ∈ List.filter is_met results) as Hin by (rewrite Hmet; by left).
      by apply list_filter_elem_of in Hin as [? _]. }
    destruct (snapshot_find (a_transitions a) (cr_transition_id r)) as (t & -> & Ht & Hid).
    { destruct Hcomplete as [<- _]. by apply list_elem_of_fmap_2. }
    destruct (Htgt t Ht) as [st Hst]. cbn [ok_or]. rewrite Hst. cbn [ok_or].
    left. exists t, st. split_and!; [|done|done]. split_and!; [done..|]. by exists r.
  - right. split; [|by eexists]. intros t (_ & _ & r0 & Hr0 & _). by rewrite Hmet in Hr0.
Qed.

(** ** Resolving an attempt *)

Lemma attempt_facts s a :
  flow_inv s → rt_active_attempt s = Some a →
  attempt_matches s a ∧ NoDup (sn_transition_id <$> a_transitions a) ∧
  ∀ t, t ∈ a_transitions a → is_Some (state (rt_definition s) (sn_target t)) ∧
    moves (rt_definition s) (i_current_state (rt_instance s)) (sn_target t).
Proof.
  intros Hinv Ha. pose proof (inv_attempt _ Hinv) as Hm. rewrite Ha in Hm.
  split; [done|]. destruct Hm as (_ & _ & _ & Hfrom & _ & _ & st & Hst & _ & Htr).
  pose proof (inv_definition _ Hinv) as Hwf. rewrite Htr. split.
  - rewrite <- list_fmap_compose. apply (wf_distinct _ Hwf _ _ Hst).
  - intros t (c & -> & Hc)%list_elem_of_fmap. simpl.
    split; [by apply (wf_targets _ Hwf _ _ _ Hst)|]. exists st, c. by rewrite <- Hfrom.
Qed.

(** The events of a resolution that enters no state. *)
Definition quiet (evs : list FlowEventKind) : Prop :=
  omap (λ e, match e with TransitionRequested id _ _ _ => Some id | _ => None end) evs = [] ∧
  omap (λ e, match e with StateEntered _ id st => Some (id, st) | _ => None end) evs = [] ∧
  (length evs <= 2)%nat.

(** Resolving the active attempt of a state that satisfies the invariant. *)
Lemma resolve_transition_spec s a outcome :
  flow_inv s → rt_active_attempt s = Some a →
  let i := rt_instance s in
  (∃ results t st, outcome = OutcomeCompleted results ∧ selects a results t ∧
     state (rt_definition s) (sn_target t) = Some st ∧
     resolve_transition i (rt_definition s) a outcome
     = Ok (set_active_attempt (enter_state i (sn_target t) (status_in (sn_target t) st)) None,
           mkResolution (set_attempt_status a Entered) (Some (sn_target t))
             (Some (s_instructions st)) None
             [TransitionCheckPassed (a_attempt_id a) (sn_transition_id t) results;
              StateEntered (a_attempt_id a) (sn_target t) (status_in (sn_target t) st)])) ∨
  ((∀ results t, outcome = OutcomeCompleted results → ¬ selects a results t) ∧
   ∃ a' rj evs, quiet evs ∧
     resolve_transition i (rt_definition s) a outcome
     = Ok (set_active_attempt i None, mkResolution a' None None (Some rj) evs)).
Proof.
  intros Hinv Ha i. destruct (attempt_facts s a Hinv Ha) as (Hm & Hnd & Ht).
  destruct Hm as (Hid & Hinst & Hdig & Hfrom & Hact & _).
  pose proof (inv_digest _ Hinv) as Hpin. unfold resolve_transition. subst i.
  rewrite !bool_decide_true by congruence. cbn [negb orb].
  destruct outcome as [results| |msg].
  - destruct (resolve_completed_spec (rt_instance s) (rt_definition s) a results [] Hnd)
      as [(t & st & Hsel & Hst & ->)|[Hno [rj ->]]]; [intros t Hin; by apply Ht| |].
    + left. exists results, t, st. by split_and!.
    + right. split; [by intros results' t [= <-]|]. eexists _, _, _. split; [|done].
      split_and!; [done|done|simpl; lia].
  - right. split; [done|]. eexists _, _, _. split; [|done]. split_and!; [done|done|simpl; lia].
  - right. split; [done|]. eexists _, _, _. split; [|done]. split_and!; [done|done|simpl; lia].
Qed.

Lemma log_extends log new evs :
  (∀ n e, log !! n = Some e → sequence e = Z.of_nat n) →
  (∀ n e, new !! n = Some e → sequence e = Z.of_nat (length log + n)) →
  event <$> new = evs → ∀ n e, (log ++ new) !! n = Some e → sequence e = Z.of_nat n.
Proof.
  intros Hlog Hnew _ n e [Hn|[Hle Hn]]%lookup_app_Some; [by apply Hlog|].
  rewrite (Hnew _ _ Hn). lia.
Qed.

Lemma resolve_inv s attempt_id outcome :
  flow_inv s → fits s → flow_inv (fst (resolve_active_transition s attempt_id outcome)).
Proof.
  intros Hinv Hfits. unfold resolve_active_transition.
  destruct (rt_active_attempt s) as [a|] eqn:Ha; [|done].
  case_bool_decide as Hid; [|done]. cbn [negb].
  destruct (attempt_facts s a Hinv Ha) as (Hm & Hnd & Ht).
  pose proof Hinv as [I1 I2 I3 I4 I5 I6 I7 I8].
  destruct (resolve_transition_spec s a outcome Hinv Ha)
    as [(results & t & st & -> & Hsel & Hst & ->)|[_ (a' & rj & evs & (Q1 & Q2 & Q3) & ->)]];
    cbn [rs_events].
  - set (evs := [_; _]).
    destruct (append_events_Ok (rt_events s) evs) as (new & -> & Hev & Hseq).
    { unfold fits, len in *. subst evs. simpl. lia. }
    pose proof (requested_ids_events _ _ Hev) as Hreq. simpl in Hreq.
    pose proof (entered_events _ _ Hev) as Hent. simpl in Hent.
    assert (t ∈ a_transitions a) as Htin by (by destruct Hsel as (_ & ? & _)).
    split; simpl; try done.
    + eauto.
    + by eapply log_extends.
    + by rewrite requested_ids_app, Hreq, app_nil_r.
    + rewrite entered_app, Hent, fmap_app. eapply chain_snoc; [done|by rewrite fmap_last, I8|].
      by apply Ht.
    + by rewrite entered_app, Hent, last_snoc.
  - destruct (append_events_Ok (rt_events s) evs) as (new & -> & Hev & Hseq).
    { unfold fits, len in *. lia. }
    pose proof (requested_ids_events _ _ Hev) as Hreq. rewrite Q1 in Hreq.
    pose proof (entered_events _ _ Hev) as Hent. rewrite Q2 in Hent.
    split; simpl; try done.
    + by eapply log_extends.
    + by rewrite requested_ids_app, Hreq, app_nil_r.
    + by rewrite entered_app, Hent, app_nil_r.
    + by rewrite entered_app, Hent, app_nil_r.
Qed.

Lemma start_inv source instance_id s instructions :
  well_formed (definition source) → start source instance_id = Ok (s, instructions) → flow_inv s.
Proof.
  intros Hwf. unfold start, instance_start.
  case_bool_decide; [|done]. case_bool_decide; [|done]. simpl.
  destruct (ensure_non_empty "instance_id" instance_id); [|done].
  destruct (ensure_non_empty "definition_id" _); simpl; [|done].
  destruct (state (definition source) (d_initial (definition source))) as [st|] eqn:Hst; [|done].
  simpl. intros [= <- _]. destruct (wf_initial _ Hwf) as [_ Hne]. split; simpl; try done.
  - exists st. unfold status_in. by rewrite bool_decide_false.
  - intros [|n] e; [|done]. by intros [= <-].
  - constructor.
Qed.

Lemma flow_steps_inv s s' : rtc flow_step s s' → flow_inv s → flow_inv s'.
Proof.
  induction 1 as [|x y z Hxy _ IH]; [done|]. intros Hx. apply IH.
  destruct Hxy; [by apply begin_inv|by apply resolve_inv].
Qed.

(** Why beginning can fail in a state that satisfies the invariant. *)
Lemma begin_transition_Err s rq e :
  flow_inv s → rt_active_attempt s = None →
  begin_transition (rt_instance s) (rt_definition s) rq = Err e →
  e = NotActive ∨ ∃ m, e = InvalidRequest m.
Proof.
  intros [I1 I2 (st & Hst & Hstatus) I4 _ _ _ _] Ha. rewrite Ha in I4.
  unfold begin_transition. case_bool_decide as Hact; [|intros [= <-]; by left]. simpl.
  rewrite I4, (bool_decide_false (is_Some None)) by (by intros [? ?]).
  rewrite bool_decide_true by done. simpl.
  destruct (ensure_non_empty _ _); simpl; [|intros [= <-]; eauto].
  unfold validate_reason. destruct (trim_is_empty _); [intros [= <-]; eauto|].
  destruct (_ >? MAX_REASON_BYTES); [intros [= <-]; eauto|].
  rewrite Hst. simpl. rewrite Hact in Hstatus. unfold status_in in Hstatus.
  case_bool_decide; [done|]. destruct (s_terminal st) eqn:Ht; [done|]. simpl.
  destruct (wf_active _ I1 _ _ Hst Ht) as (own & Hown & -> & _).
  unfold len. rewrite length_app. destruct own; [done|]. simpl. done.
Qed.

(** ** Properties of the Flow coordinator *)

(** C4.  From a document to any state of its execution.  A Flow started from a compiled
    definition keeps its invariant through every sequence of begun, recovered and
    resolved attempts, whatever the verifier answers: the status follows from the
    current state, the reserved attempt is the one captured from that state, the event
    log numbers its events by position, uses an attempt id once, and its entered states
    form a path of the definition that ends in the current state. *)
Theorem flow_execution_invariant (sha256 : list Z → list Z) (doc : FlowSource)
    (content : string) (source : ResolvedFlowSource) (instance_id instructions : string)
    (s0 s : FlowRuntimeState) :
  bt_sorted (src_states doc) →
  (∀ name st, (name, st) ∈ src_states doc → bt_sorted (src_transitions st)) →
  compile_typed_source sha256 doc content = Some (Ok (definition source)) →
  start source instance_id = Ok (s0, instructions) → rtc flow_step s0 s → flow_inv s.
Proof.
  intros Hs Hts Hc Hstart Hrun. eapply flow_steps_inv; [done|].
  eapply start_inv; [|done]. by eapply compile_well_formed.
Qed.

(** A concrete Flow: the compiled example, started. *)
Definition example_definition : CompiledFlowDefinition :=
  match compile_typed_source (λ b, b) example_source "x" with
  | Some (Ok d) => d
  | _ => mkCompiledFlowDefinition 0 EmptyString EmptyString [] EmptyString
  end.

Definition example_resolved : ResolvedFlowSource :=
  mkResolvedFlowSource (Builtin "coder-review") "ws" "flow" (content_digest example_definition)
    example_definition.

Definition example_started : FlowRuntimeState :=
  match start example_resolved "i1" with
  | Ok (s, _) => s
  | Err _ => mkRuntimeState example_definition
               (mkFlowInstance EmptyString EmptyString EmptyString EmptyString Active None) None []
  end.

Definition example_begun : FlowRuntimeState :=
  fst (begin_or_recover_transition example_started "a1" "ready").

Lemma flow_execution_invariant_witness : flow_inv example_begun.
Proof.
  apply (flow_execution_invariant (λ b, b) example_source "x" example_resolved "i1" "Implement."
           example_started).
  - unfold bt_sorted. simpl. repeat constructor.
  - intros name st Hin. unfold example_source in Hin. simpl in Hin.
    repeat (apply elem_of_cons in Hin as [[= -> ->]|Hin];
            [unfold bt_sorted; simpl; repeat constructor|]).
    by apply not_elem_of_nil in Hin.
  - vm_compute. reflexivity.
  - vm_compute. reflexivity.
  - eapply rtc_once, (step_begin example_started "a1" "ready"). by vm_compute.
Defined.

Lemma example_started_inv : flow_inv example_started.
Proof.
  apply (start_inv example_resolved "i1" _ "Implement."); [|by vm_compute].
  apply (compile_well_formed (λ b, b) example_source "x"); [| |by vm_compute].
  - unfold bt_sorted. simpl. repeat constructor.
  - intros name st Hin. unfold example_source in Hin. simpl in Hin.
    repeat (apply elem_of_cons in Hin as [[= -> ->]|Hin];
            [unfold bt_sorted; simpl; repeat constructor|]).
    by apply not_elem_of_nil in Hin.
Qed.

Lemma example_begun_inv : flow_inv example_begun.
Proof. apply begin_inv; [apply example_started_inv|by vm_compute]. Qed.

(** A state is entered exactly when the verdicts are complete, one for each captured
    transition and none oversized, and exactly one condition is met: then the target of
    that transition becomes the current state.  Every other outcome, a cancelled or
    failed verifier included, is a rejection that leaves the instance as it was but for
    the released reservation. *)
Theorem entry_needs_exactly_one_met (s : FlowRuntimeState) (a : FlowTransitionAttempt)
    (outcome : FlowVerifierOutcome) :
  flow_inv s → fits s → rt_active_attempt s = Some a →
  ∃ s' res, resolve_active_transition s (a_attempt_id a) outcome = (s', Ok res) ∧
    rt_active_attempt s' = None ∧ rt_definition s' = rt_definition s ∧
    (∀ x, rs_entered_state res = Some x ↔
       ∃ results t, outcome = OutcomeCompleted results ∧ selects a results t ∧ sn_target t = x) ∧
    match rs_entered_state res with
    | Some x => i_current_state (rt_instance s') = x ∧ rs_rejection res = None
    | None => rt_instance s' = set_active_attempt (rt_instance s) None ∧
              is_Some (rs_rejection res)
    end.
Proof.
  intros Hinv Hfits Ha. destruct (attempt_facts s a Hinv Ha) as (_ & Hnd & _).
  unfold resolve_active_transition. rewrite Ha, bool_decide_true by done. cbn [negb].
  destruct (resolve_transition_spec s a outcome Hinv Ha)
    as [(results & t & st & -> & Hsel & Hst & ->)|[Hno (a' & rj & evs & (_ & _ & Hl) & ->)]];
    cbn [rs_events].
  - set (evs := [_; _]). destruct (append_events_Ok (rt_events s) evs) as (new & -> & _).
    { unfold fits, len in *. subst evs. simpl. lia. }
    eexists _, _. split; [done|]. simpl. split_and!; [done|done| |done|done].
    intros x. split; [intros [= <-]; eauto|].
    intros (results' & t' & [= <-] & Hsel' & <-). by rewrite (selects_unique a results t t').
  - destruct (append_events_Ok (rt_events s) evs) as (new & -> & _).
    { unfold fits, len in *. lia. }
    eexists _, _. split; [done|]. simpl. split_and!; [done|done| |done|eauto].
    intros x. split; [done|]. intros (results & t & Ho & Hsel & _). by destruct (Hno results t Ho).
Qed.

Lemma entry_needs_exactly_one_met_witness :
  ∃ a, rt_active_attempt example_begun = Some a ∧
  ∃ s' res, resolve_active_transition example_begun (a_attempt_id a)
      (OutcomeCompleted [mkResult "review" Met "ok"; mkResult "$cancel" NotMet "no"]) = (s', Ok res) ∧
    rt_active_attempt s' = None ∧ rt_definition s' = rt_definition example_begun ∧
    (∀ x, rs_entered_state res = Some x ↔
       ∃ results t, OutcomeCompleted [mkResult "review" Met "ok"; mkResult "$cancel" NotMet "no"]
           = OutcomeCompleted results ∧ selects a results t ∧ sn_target t = x) ∧
    match rs_entered_state res with
    | Some x => i_current_state (rt_instance s') = x ∧ rs_rejection res = None
    | None => rt_instance s' = set_active_attempt (rt_instance example_begun) None ∧
              is_Some (rs_rejection res)
    end.
Proof.
  eexists. split; [vm_compute; reflexivity|].
  apply entry_needs_exactly_one_met; [apply example_begun_inv|by vm_compute|by vm_compute].
Defined.

(** The internal checks never fail.  In every state that satisfies the invariant,
    beginning an attempt only fails because the Flow has finished or the request is
    invalid, resolving only fails because the request is, and resolving the active
    attempt succeeds whatever the verifier answered. *)
Theorem no_internal_error (s : FlowRuntimeState) :
  flow_inv s → fits s →
  (∀ attempt_id reason e, snd (begin_or_recover_transition s attempt_id reason) = Err e →
     e = NotActive ∨ ∃ m, e = InvalidRequest m) ∧
  (∀ attempt_id outcome e, snd (resolve_active_transition s attempt_id outcome) = Err e →
     ∃ m, e = InvalidRequest m) ∧
  (∀ a outcome, rt_active_attempt s = Some a →
     ∃ res, snd (resolve_active_transition s (a_attempt_id a) outcome) = Ok res).
Proof.
  intros Hinv Hfits.
  assert (∀ a outcome, rt_active_attempt s = Some a →
     ∃ res, snd (resolve_active_transition s (a_attempt_id a) outcome) = Ok res) as Hres.
  { intros a outcome Ha. unfold resolve_active_transition.
    rewrite Ha, bool_decide_true by done. cbn [negb].
    destruct (resolve_transition_spec s a outcome Hinv Ha)
      as [(results & t & st & -> & _ & _ & ->)|[_ (a' & rj & evs & (_ & _ & Hl) & ->)]];
      cbn [rs_events].
    - set (evs := [_; _]). destruct (append_events_Ok (rt_events s) evs) as (new & -> & _);
        [unfold fits, len in *; subst evs; simpl; lia|eauto].
    - destruct (append_events_Ok (rt_events s) evs) as (new & -> & _);
        [unfold fits, len in *; lia|eauto]. }
  split_and!; [|intros id outcome e He|done].
  - intros id reason e He. unfold begin_or_recover_transition in He.
    destruct (rt_active_attempt s) eqn:Ha; [done|].
    destruct (existsb _ _); [injection He as <-; eauto|].
    destruct (begin_transition _ _ _) as [[[i a] evs]|e'] eqn:Hb.
    + apply begin_transition_Ok in Hb as (_ & _ & _ & _ & st & _ & _ & _ & ->).
      set (evs := [_; _]) in He.
      destruct (append_events_Ok (rt_events s) evs) as (new & Happ & _).
      { unfold fits, len in *. subst evs. simpl. lia. }
      by rewrite Happ in He.
    + injection He as <-. by apply (begin_transition_Err s _ _ Hinv Ha Hb).
  - destruct (rt_active_attempt s) as [a|] eqn:Ha.
    + destruct (decide (a_attempt_id a = id)) as [<-|Hne].
      * destruct (Hres a outcome eq_refl) as [res Hr]. congruence.
      * unfold resolve_active_transition in He. rewrite Ha, bool_decide_false in He by done.
        injection He as <-. eauto.
    + unfold resolve_active_transition in He. rewrite Ha in He. injection He as <-. eauto.
Qed.

Lemma no_internal_error_witness :
  ∃ res, snd (resolve_active_transition example_begun "a1" OutcomeCancelled) = Ok res.
Proof.
  destruct (no_internal_error example_begun example_begun_inv ltac:(by vm_compute)) as (_ & _ & H).
  apply (H (match rt_active_attempt example_begun with
            | Some a => a | None => mkAttempt EmptyString EmptyString EmptyString EmptyString
                                      EmptyString [] Verifying end)).
  vm_compute. reflexivity.
Defined.

(** A result only ever applies to the attempt it was made for.  An attempt id that
    was requested before and is not the active one is refused, both as a new attempt and
    as the attempt a result belongs to, and the refusal changes nothing. *)
Theorem late_result_is_refused (s : FlowRuntimeState) (id reason : string)
    (outcome : FlowVerifierOutcome) :
  id ∈ requested_ids (rt_events s) →
  (∀ a, rt_active_attempt s = Some a → a_attempt_id a ≠ id) →
  (∃ e, resolve_active_transition s id outcome = (s, Err e)) ∧
  (rt_active_attempt s = None → ∃ e, begin_or_recover_transition s id reason = (s, Err e)).
Proof.
  intros Hid Hne. split.
  - unfold resolve_active_transition. destruct (rt_active_attempt s) as [a|] eqn:Ha; [|eauto].
    rewrite bool_decide_false by auto. simpl. eauto.
  - intros Ha. unfold begin_or_recover_transition.
    rewrite Ha, (proj2 (requested_with_spec id (rt_events s)) Hid). eauto.
Qed.

Definition example_cancelled : FlowRuntimeState :=
  fst (resolve_active_transition example_begun "a1" OutcomeCancelled).

Lemma late_result_is_refused_witness :
  (∃ e, resolve_active_transition example_cancelled "a1"
          (OutcomeCompleted [mkResult "review" Met "late"]) = (example_cancelled, Err e)) ∧
  (rt_active_attempt example_cancelled = None →
     ∃ e, begin_or_recover_transition example_cancelled "a1" "again" = (example_cancelled, Err e)).
Proof.
  apply late_result_is_refused.
  - vm_compute. by left.
  - intros a Ha. vm_compute in Ha. discriminate Ha.
Defined.

(** A finished Flow is final: once the status is not active, no operation changes
    the state any more. *)
Theorem finished_flow_is_final (s s' : FlowRuntimeState) :
  flow_inv s → i_status (rt_instance s) ≠ Active → rtc flow_step s s' → s' = s.
Proof.
  intros Hinv Hstatus Hrun. revert Hinv Hstatus.
  induction Hrun as [|x y z Hxy _ IH]; intros Hinv Hstatus; [done|].
  assert (y = x) as ->; [|by apply IH].
  pose proof (inv_attempt _ Hinv) as Hatt. destruct (rt_active_attempt x) as [a|] eqn:Ha.
  { by destruct Hatt as (_ & _ & _ & _ & ? & _). }
  destruct Hxy.
  - unfold begin_or_recover_transition. rewrite Ha. destruct (existsb _ _); [done|].
    unfold begin_transition. by rewrite bool_decide_false.
  - unfold resolve_active_transition. by rewrite Ha.
Qed.

(** The example, cancelled by the verifier's verdict on the synthetic transition. *)
Definition example_finished : FlowRuntimeState :=
  fst (resolve_active_transition example_begun "a1"
         (OutcomeCompleted [mkResult "$cancel" Met "stuck"; mkResult "review" NotMet "no"])).

Lemma finished_flow_is_final_witness :
  i_status (rt_instance example_finished) = InstanceCancelled ∧
  fst (begin_or_recover_transition example_finished "a2" "again") = example_finished.
Proof.
  split; [vm_compute; reflexivity|]. apply finished_flow_is_final.
  - apply resolve_inv; [apply example_begun_inv|by vm_compute].
  - by vm_compute.
  - apply rtc_once, step_begin. by vm_compute.
Defined.

(** A verifier's error message is stored within its bound without breaking a
    character: a short message is stored as it is, a longer one loses its end, at most
    three bytes more than the bound requires, and gains an ellipsis. *)
Theorem bounded_message_spec (message : string) :
  valid_utf8 message = true →
  valid_utf8 (bounded_message message) = true ∧
  str_len (bounded_message message) <= MAX_RATIONALE_BYTES + 3 ∧
  (str_len message <= MAX_RATIONALE_BYTES → bounded_message message = message) ∧
  (MAX_RATIONALE_BYTES < str_len message →
   ∃ n, bounded_message message = String.substring 0 n message +:+ "…" ∧
     MAX_RATIONALE_BYTES - 3 <= Z.of_nat n <= MAX_RATIONALE_BYTES).
Proof.
  intros Hv. unfold bounded_message.
  destruct (str_len message <=? MAX_RATIONALE_BYTES) eqn:Hl.
  { split_and!; [done|unfold str_len in *; lia|done|lia]. }
  assert (Z.of_nat (Z.to_nat MAX_RATIONALE_BYTES) = MAX_RATIONALE_BYTES) as Hi
    by (apply Z2Nat.id; unfold MAX_RATIONALE_BYTES; lia).
  revert Hi. generalize (Z.to_nat MAX_RATIONALE_BYTES) as i. intros i Hi.
  destruct (floor_boundary_spec message i) as (Hle & _ & _).
  assert (i <= String.length message)%nat as Hlen by (unfold str_len in Hl; lia).
  destruct (floor_boundary_cut message i Hv Hlen) as [Hcut Hnear]. split_and!.
  - by apply valid_utf8_app.
  - unfold str_len. rewrite string_length_app, substring_length by lia. simpl. lia.
  - lia.
  - intros _. exists (floor_boundary message i). split; [done|lia].
Qed.

Lemma bounded_message_spec_witness :
  let m := "x" +:+ "…" in
  valid_utf8 (bounded_message m) = true ∧
  str_len (bounded_message m) <= MAX_RATIONALE_BYTES + 3 ∧
  (str_len m <= MAX_RATIONALE_BYTES → bounded_message m = m) ∧
  (MAX_RATIONALE_BYTES < str_len m →
   ∃ n, bounded_message m = String.substring 0 n m +:+ "…" ∧
     MAX_RATIONALE_BYTES - 3 <= Z.of_nat n <= MAX_RATIONALE_BYTES).
Proof. intros m. apply bounded_message_spec. vm_compute. reflexivity. Defined.

(** An indeterminate verdict does not prevent an entry: with one condition met and
    another one indeterminate the state is entered, where the module documentation
    requires that there be no indeterminate result. *)
Theorem indeterminate_does_not_block :
  ∃ (s' : FlowRuntimeState) (res : FlowTransitionResolution),
    resolve_active_transition example_begun "a1"
      (OutcomeCompleted [mkResult "review" Met "ok"; mkResult "$cancel" Indeterminate "unsure"])
    = (s', Ok res) ∧
    rs_entered_state res = Some "review" ∧ i_current_state (rt_instance s') = "review".
Proof. eexists _, _. split; [vm_compute; reflexivity|]. split; reflexivity. Qed.

End FlowCoordinator.
