(* ===== verification/TaskStore.v ===== *)
(** * The session task store

    Models [src/crates/worker/src/feature/builtin/task/]: the store with its replay from
    history and its compaction snapshot ([store.rs]), the task tools ([tool_impl.rs]) and
    the feature with its reminder hooks ([mod.rs]), and the message in which compaction
    stores the snapshot ([worker.rs]).  The serde decoders and encoders are arguments. *)
From Stdlib Require Import ZArith String Ascii List Lia.
From stdpp Require Import base tactics numbers list strings pretty sorting gmap.
From S2P Require Import Prelude.

Inductive TaskStatus := Pending | Inprogress | TaskCompleted | Deleted.

#[export] Instance TaskStatus_eq_dec : EqDecision TaskStatus.
Proof. solve_decision. Defined.

Record TaskEntry := mkTask {
  taskid : Z;
  status : TaskStatus;
  subject : string;
  description : string
}.

#[export] Instance TaskEntry_eq_dec : EqDecision TaskEntry.
Proof. solve_decision. Defined.

(** [TaskStore] with its mutex-protected [Inner]. *)
Record TaskStore := mkTaskStore {
  next_taskid : Z;
  tasks : list TaskEntry
}.

Inductive TaskStoreError := Missing (id : Z) | NoFields.

(** The history items the replay looks at; a message is the texts of its parts. *)
Inductive Item :=
| Message (content : list string)
| ToolCall (name arguments : string)
| OtherItem.

Record TaskUpdateParams := mkUpdateParams {
  p_taskid : Z;
  p_status : option TaskStatus;
  p_subject : option string;
  p_description : option string
}.

Record ToolOutput := mkToolOutput { summary : string; content : option string }.

Inductive ToolError := InvalidArgument (message : string) | ExecutionFailed (message : string).

(** [TaskReminderState]: two atomic counters. *)
Record TaskReminderState := mkReminderState {
  requests_since_last_task_management : Z;
  requests_since_last_reminder : Z
}.

Module TaskStore.

Definition DEFAULT_TASK_LIST_LIMIT : nat := 20.

Definition is_retained (s : TaskStatus) : bool := negb (bool_decide (s = Deleted)).

(** [Display] of a status. *)
Definition status_str (s : TaskStatus) : string :=
  match s with
  | Pending => "pending"
  | Inprogress => "inprogress"
  | TaskCompleted => "completed"
  | Deleted => "deleted"
  end.

Definition new : TaskStore := mkTaskStore 1 [].

Definition create (s : TaskStore) (subj desc : string) : TaskStore * TaskEntry :=
  let task := mkTask (next_taskid s) Pending subj desc in
  (mkTaskStore (saturating_add_u64 (next_taskid s) 1) (tasks s ++ [task]), task).

Definition get (s : TaskStore) (id : Z) : option TaskEntry :=
  List.find (λ t, taskid t =? id) (tasks s).

(** The fields an update sets. *)
Definition apply_fields (t : TaskEntry) (st : option TaskStatus) (subj desc : option string)
  : TaskEntry :=
  mkTask (taskid t) (default (status t) st) (default (subject t) subj)
    (default (description t) desc).

Definition update (s : TaskStore) (id : Z) (st : option TaskStatus) (subj desc : option string)
  : TaskStore * result TaskEntry TaskStoreError :=
  match st, subj, desc with
  | None, None, None => (s, Err NoFields)
  | _, _, _ =>
      match position (λ t, taskid t =? id) (tasks s) with
      | None => (s, Err (Missing id))
      | Some task_position =>
          match tasks s !! task_position with
          | None => (s, Err (Missing id))
          | Some task =>
              let updated := apply_fields task st subj desc in
              let ts := <[task_position := updated]> (tasks s) in
              let ts := if negb (is_retained (status updated))
                        then vec_remove task_position ts else ts in
              (mkTaskStore (next_taskid s) ts, Ok updated)
          end
      end
  end.

Definition snapshot_limited (s : TaskStore) (limit : nat) : list TaskEntry := take limit (tasks s).

Definition snapshot (s : TaskStore) : list TaskEntry :=
  snapshot_limited s DEFAULT_TASK_LIST_LIMIT.

(** [iter().map(..).max()]. *)
Definition max_taskid (ts : list TaskEntry) : option Z :=
  foldl (λ acc t, Some (match acc with Some m => Z.max m (taskid t) | None => taskid t end))
    None ts.

Definition replace_with (new_tasks : list TaskEntry) : TaskStore :=
  let ts := List.filter (λ t, is_retained (status t)) new_tasks in
  let next := Z.max (saturating_add_u64 (default 0 (max_taskid ts)) 1) 1 in
  mkTaskStore next ts.

Definition count_status (st : TaskStatus) (ts : list TaskEntry) : Z :=
  Z.of_nat (length (List.filter (λ t, bool_decide (status t = st)) ts)).

Definition snapshot_overview (ts : list TaskEntry) : string :=
  "TaskStore: " +:+ pretty (Z.of_nat (length ts)) +:+ " task(s) (pending: "
  +:+ pretty (count_status Pending ts) +:+ ", inprogress: "
  +:+ pretty (count_status Inprogress ts) +:+ ", completed: "
  +:+ pretty (count_status TaskCompleted ts) +:+ ")".

(** A line feed; [json_fence] and [end_fence] are the two markers of the snapshot. *)
Definition nl : string := String (ascii_of_nat 10) EmptyString.
Definition json_fence : string := "```json" +:+ nl.
Definition end_fence : string := nl +:+ "```".

(** [str::strip_prefix]. *)
Fixpoint strip_prefix (p s : string) : option string :=
  match p, s with
  | EmptyString, _ => Some s
  | String c p, String d s => if Ascii.eqb c d then strip_prefix p s else None
  | String _ _, EmptyString => None
  end.

(** [s.find(pat)] as the text before the first occurrence and the text after it. *)
Fixpoint split_at_first (pat s : string) : option (string * string) :=
  match strip_prefix pat s with
  | Some rest => Some (EmptyString, rest)
  | None =>
      match s with
      | EmptyString => None
      | String c s =>
          match split_at_first pat s with
          | Some (before, after) => Some (String c before, after)
          | None => None
          end
      end
  end.

Definition SNAPSHOT_HEADER : string := "[Session TaskStore snapshot]".

Section codecs.
(** The derived decoders of [ReplayTaskCreateParams] and [ReplayTaskUpdateParams], whose
    errors the replay drops. *)
Context (replay_create_params : string → option (string * string)).
Context (replay_update_params : string → option TaskUpdateParams).
(** The derived decoders of the tool parameters, an error being its rendering. *)
Context (create_params : string → result (string * string) string).
Context (update_params : string → result TaskUpdateParams string).
Context (list_params : string → result (option nat) string).
Context (get_params : string → result Z string).
(** [serde_json::to_string_pretty] of a task, of a list and of a snapshot. *)
Context (task_json : TaskEntry → string).
Context (tasks_json snapshot_json : list TaskEntry → string).
(** [serde_json::from_str::<TaskSnapshot>]. *)
Context (snapshot_decode : string → option (list TaskEntry)).

Definition render_snapshot (ts : list TaskEntry) : string :=
  let retained := List.filter (λ t, is_retained (status t)) ts in
  snapshot_overview retained +:+ nl +:+ nl +:+ json_fence +:+ snapshot_json retained
  +:+ end_fence +:+ nl.

Definition snapshot_text (s : TaskStore) : string := render_snapshot (snapshot s).

(** The system message compaction introduces. *)
Definition compaction_message (task_snapshot_text : string) : string :=
  SNAPSHOT_HEADER +:+ nl +:+ nl +:+ task_snapshot_text +:+ nl +:+ nl
  +:+ "This is the retained session task list preserved across compaction. The following TaskList tool result presents the same state through the tool lane.".

Definition parse_compact_snapshot_text (text : string) : option (list TaskEntry) :=
  match strip_prefix SNAPSHOT_HEADER text with
  | None => None
  | Some _ =>
      match split_at_first json_fence text with
      | None => None
      | Some (_, rest) =>
          match split_at_first end_fence rest with
          | None => None
          | Some (json, _) =>
              List.filter (λ t, is_retained (status t)) <$> snapshot_decode json
          end
      end
  end.

(** The body of the loop of [replay_history]. *)
Definition replay_item (s : TaskStore) (item : Item) : TaskStore :=
  match item with
  | Message content =>
      foldl (λ s text, match parse_compact_snapshot_text text with
                       | Some snap => replace_with snap
                       | None => s
                       end) s content
  | ToolCall name arguments =>
      if bool_decide (name = "TaskCreate") then
        match replay_create_params arguments with
        | Some (subj, desc) => fst (create s subj desc)
        | None => s
        end
      else if bool_decide (name = "TaskUpdate") then
        match replay_update_params arguments with
        | Some p => fst (update s (p_taskid p) (p_status p) (p_subject p) (p_description p))
        | None => s
        end
      else s
  | OtherItem => s
  end.

Definition replay_history (s : TaskStore) (history : list Item) : TaskStore :=
  foldl replay_item s history.

Definition from_history (history : list Item) : TaskStore := replay_history new history.

(** [TaskFeature::restore_from_history], used when a session is rewound. *)
Definition restore_from_history (history : list Item) : TaskStore :=
  replace_with (tasks (from_history history)).

(** ** Tools *)

Definition error_str (e : TaskStoreError) : string :=
  match e with
  | Missing id => "taskid " +:+ pretty id +:+ " not found"
  | NoFields => "at least one of status, subject, description is required"
  end.

Definition task_output (summ : string) (t : TaskEntry) : ToolOutput :=
  mkToolOutput summ (Some (task_json t)).

Definition create_tool (s : TaskStore) (input : string)
  : TaskStore * result ToolOutput ToolError :=
  match create_params input with
  | Err e => (s, Err (InvalidArgument ("invalid TaskCreate input: " +:+ e)))
  | Ok (subj, desc) =>
      let '(s, created) := create s subj desc in
      (s, Ok (task_output ("Created task " +:+ pretty (taskid created) +:+ " ("
                           +:+ status_str (status created) +:+ ")" +:+ nl
                           +:+ snapshot_overview (tasks s)) created))
  end.

Definition list_overview (total returned : nat) : string :=
  if (returned <? total)%nat then
    "TaskStore: " +:+ pretty (Z.of_nat returned) +:+ " task(s) shown; "
    +:+ pretty (Z.of_nat (total - returned)) +:+ " omitted."
  else "TaskStore: " +:+ pretty (Z.of_nat returned) +:+ " task(s)".

Definition list_tool (s : TaskStore) (input : string) : result ToolOutput ToolError :=
  let? limit := map_err (λ e, InvalidArgument ("invalid TaskList input: " +:+ e))
                  (list_params input) in
  let shown := take (default DEFAULT_TASK_LIST_LIMIT limit) (tasks s) in
  Ok (mkToolOutput (list_overview (length (tasks s)) (length shown)) (Some (tasks_json shown))).

Definition get_tool (s : TaskStore) (input : string) : result ToolOutput ToolError :=
  let? id := map_err (λ e, InvalidArgument ("invalid TaskGet input: " +:+ e))
               (get_params input) in
  let? task := ok_or (get s id) (ExecutionFailed ("taskid " +:+ pretty id +:+ " not found")) in
  Ok (mkToolOutput ("Task " +:+ pretty (taskid task) +:+ " (" +:+ status_str (status task)
                    +:+ ") " +:+ subject task) (Some (task_json task))).

Definition update_tool (s : TaskStore) (input : string)
  : TaskStore * result ToolOutput ToolError :=
  match update_params input with
  | Err e => (s, Err (InvalidArgument ("invalid TaskUpdate input: " +:+ e)))
  | Ok p =>
      let '(s, r) := update s (p_taskid p) (p_status p) (p_subject p) (p_description p) in
      match r with
      | Err e => (s, Err (ExecutionFailed (error_str e)))
      | Ok updated =>
          (s, Ok (task_output ("Updated task " +:+ pretty (taskid updated) +:+ " ("
                               +:+ status_str (status updated) +:+ ")" +:+ nl
                               +:+ snapshot_overview (tasks s)) updated))
      end
  end.

(** The effect on the store of executing a task tool by name. *)
Definition execute (s : TaskStore) (name input : string) : TaskStore :=
  if bool_decide (name = "TaskCreate") then fst (create_tool s input)
  else if bool_decide (name = "TaskUpdate") then fst (update_tool s input)
  else s.

End codecs.

(** ** Reminders *)

Definition TASK_REMINDER_REQUEST_THRESHOLD : Z := 24.
Definition TASK_REMINDER_COOLDOWN_REQUESTS : Z := 24.

Definition reminder_default : TaskReminderState := mkReminderState 0 TASK_REMINDER_COOLDOWN_REQUESTS.

(** [fetch_add(1)] wraps; the value used is the previous one plus one, saturating. *)
Definition fetch_add_1 (v : Z) : Z * Z := ((v + 1) mod 2 ^ 64, saturating_add_u64 v 1).

Definition note_request (r : TaskReminderState) : TaskReminderState * (Z * Z) :=
  let '(m, since_task_management) := fetch_add_1 (requests_since_last_task_management r) in
  let '(n, since_reminder) := fetch_add_1 (requests_since_last_reminder r) in
  (mkReminderState m n, (since_task_management, since_reminder)).

Definition note_task_management (r : TaskReminderState) : TaskReminderState :=
  mkReminderState 0 (requests_since_last_reminder r).

Definition note_reminder (r : TaskReminderState) : TaskReminderState :=
  mkReminderState (requests_since_last_task_management r) 0.

Definition is_task_management_tool (name : string) : bool :=
  bool_decide (name ∈ ["TaskCreate"; "TaskUpdate"]).

(** [TaskReminderPreRequestHook::call]: the state it leaves and the tasks it reminds of,
    if it does; [can_append] is whether the request accepts system items. *)
Definition pre_request_hook (r : TaskReminderState) (s : TaskStore) (can_append : bool)
  : TaskReminderState * option (list TaskEntry) :=
  match tasks s with
  | [] => (r, None)
  | ts =>
      let '(r, (since_task_management, since_reminder)) := note_request r in
      if (since_task_management <? TASK_REMINDER_REQUEST_THRESHOLD)
         || (since_reminder <? TASK_REMINDER_COOLDOWN_REQUESTS) then (r, None)
      else if can_append then (note_reminder r, Some ts)
      else (r, None)
  end.

(** [TaskReminderToolUsageHook::call]. *)
Definition tool_usage_hook (r : TaskReminderState) (name : string) : TaskReminderState :=
  if is_task_management_tool name then note_task_management r else r.

(** ** Specification *)

Definition id_lt (a b : TaskEntry) : Prop := taskid a < taskid b.

(** Ids increase in the order of the list, stay below the next one, and every task kept
    is a retained one. *)
Definition store_inv (s : TaskStore) : Prop :=
  StronglySorted id_lt (tasks s) ∧
  Forall (λ t, 1 <= taskid t < next_taskid s) (tasks s) ∧
  Forall (λ t, is_retained (status t) = true) (tasks s) ∧
  1 <= next_taskid s.

(** The operations that change a store. *)
Inductive op :=
| OpCreate (subj desc : string)
| OpUpdate (id : Z) (st : option TaskStatus) (subj desc : option string).

Definition run_op (s : TaskStore) (o : op) : TaskStore :=
  match o with
  | OpCreate subj desc => fst (create s subj desc)
  | OpUpdate id st subj desc => fst (update s id st subj desc)
  end.

(** The ids given to the tasks a run creates. *)
Fixpoint issued (s : TaskStore) (ops : list op) : list Z :=
  match ops with
  | [] => []
  | o :: rest =>
      match o with
      | OpCreate subj desc => [taskid (snd (create s subj desc))]
      | OpUpdate _ _ _ _ => []
      end ++ issued (run_op s o) rest
  end.

(** The tool calls a history records, in order. *)
Definition tool_calls (history : list Item) : list (string * string) :=
  omap (λ i, match i with ToolCall name arguments => Some (name, arguments) | _ => None end)
    history.

(** [Result::ok]. *)
Definition result_ok {A E} (r : result A E) : option A :=
  match r with Ok a => Some a | Err _ => None end.

(** The operation a recorded or executed call is, for given decoders of its arguments. *)
Definition op_of (decode_create : string → option (string * string))
    (decode_update : string → option TaskUpdateParams) (call : string * string) : option op :=
  if bool_decide (call.1 = "TaskCreate") then
    '(subj, desc) ← decode_create call.2; Some (OpCreate subj desc)
  else if bool_decide (call.1 = "TaskUpdate") then
    p ← decode_update call.2; Some (OpUpdate (p_taskid p) (p_status p) (p_subject p) (p_description p))
  else None.

(** A task list as a finite map with the next id. *)
Definition TaskMap : Type := gmap Z TaskEntry * Z.

Definition map_op (m : TaskMap) (o : op) : TaskMap :=
  match o with
  | OpCreate subj desc => (<[m.2 := mkTask m.2 Pending subj desc]> m.1, m.2 + 1)
  | OpUpdate id st subj desc =>
      match m.1 !! id with
      | Some t =>
          if bool_decide (st = Some Deleted) then (delete id m.1, m.2)
          else (<[id := apply_fields t st subj desc]> m.1, m.2)
      | None => m
      end
  end.

Definition map_of (s : TaskStore) : TaskMap :=
  (list_to_map ((λ t, (taskid t, t)) <$> tasks s), next_taskid s).

(** The store lists the map in the order of the ids. *)
Definition represents (s : TaskStore) (m : TaskMap) : Prop :=
  StronglySorted id_lt (tasks s) ∧ next_taskid s = m.2 ∧ ∀ id, get s id = m.1 !! id.

(** What the hooks see: a request to the model, or a call of a tool. *)
Inductive hook_event :=
| Request (s : TaskStore) (can_append : bool)
| ToolUse (name : string).

Definition is_request (e : hook_event) : bool := match e with Request _ _ => true | _ => false end.

(** The reminder state after a sequence of hook calls, and the reminders given. *)
Fixpoint run_hooks (r : TaskReminderState) (events : list hook_event)
  : TaskReminderState * list (list TaskEntry) :=
  match events with
  | [] => (r, [])
  | Request s can_append :: rest =>
      let '(r, reminder) := pre_request_hook r s can_append in
      let '(r, reminders) := run_hooks r rest in
      (r, option_list reminder ++ reminders)
  | ToolUse name :: rest => run_hooks (tool_usage_hook r name) rest
  end.

Lemma position_split {A} (p : A → bool) l i :
  position p l = Some i →
  ∃ l1 x l2, l = l1 ++ x :: l2 ∧ length l1 = i ∧ p x = true ∧ ∀ y, y ∈ l1 → p y = false.
Proof.
  revert i. induction l as [|x l IH]; intros i; simpl; [done|].
  destruct (p x) eqn:Hp.
  - intros [= <-]. exists [], x, l. split_and!; [done..|]. intros y Hy. by apply not_elem_of_nil in Hy.
  - intros (j & Hj & ->)%fmap_Some. destruct (IH j Hj) as (l1 & y & l2 & -> & <- & Hy & Hl).
    exists (x :: l1), y, l2. split_and!; [done..|]. intros z [->|Hz]%elem_of_cons; auto.
Qed.

Lemma vec_remove_middle {A} (l1 : list A) x l2 : vec_remove (length l1) (l1 ++ x :: l2) = l1 ++ l2.
Proof. induction l1 as [|y l1 IH]; simpl; [done|]. by rewrite IH. Qed.

(** Every branch of an update. *)
Lemma update_cases s id st subj desc :
  let '(s', r) := update s id st subj desc in
  match r with
  | Err NoFields => s' = s ∧ st = None ∧ subj = None ∧ desc = None
  | Err (Missing m) => s' = s ∧ m = id ∧ get s id = None
  | Ok u => ∃ l1 t l2, tasks s = l1 ++ t :: l2 ∧ taskid t = id ∧
      (∀ x, x ∈ l1 → taskid x ≠ id) ∧ u = apply_fields t st subj desc ∧
      s' = mkTaskStore (next_taskid s)
             (l1 ++ (if is_retained (status u) then [u] else []) ++ l2)
  end.
Proof.
  assert (∀ l, position (λ t, taskid t =? id) l = None → List.find (λ t, taskid t =? id) l = None)
    as Hnone.
  { induction l as [|t l IH]; simpl; [done|]. destruct (taskid t =? id); [done|].
    intros Hn%fmap_None. by apply IH. }
  assert (∀ r, r = match position (λ t, taskid t =? id) (tasks s) with
      | None => (s, Err (Missing id))
      | Some i => match tasks s !! i with
          | None => (s, Err (Missing id))
          | Some task =>
              let u := apply_fields task st subj desc in
              let ts := <[i := u]> (tasks s) in
              let ts := if negb (is_retained (status u)) then vec_remove i ts else ts in
              (mkTaskStore (next_taskid s) ts, Ok u)
          end
      end →
    let '(s', r) := r in
    match r with
    | Err NoFields => False
    | Err (Missing m) => s' = s ∧ m = id ∧ get s id = None
    | Ok u => ∃ l1 t l2, tasks s = l1 ++ t :: l2 ∧ taskid t = id ∧
        (∀ x, x ∈ l1 → taskid x ≠ id) ∧ u = apply_fields t st subj desc ∧
        s' = mkTaskStore (next_taskid s)
               (l1 ++ (if is_retained (status u) then [u] else []) ++ l2)
    end) as Hmain.
  { intros r ->. destruct (position _ (tasks s)) as [i|] eqn:Hp;
      [|split_and!; [done|done|by apply Hnone]].
    apply position_split in Hp as (l1 & t & l2 & Hl & <- & Ht & Hl1). rewrite Hl.
    rewrite list_lookup_middle by done. cbv zeta. exists l1, t, l2.
    apply Z.eqb_eq in Ht. split_and!; [done|done| |done|].
    - intros x Hx. apply Hl1 in Hx. by apply Z.eqb_neq.
    - f_equal. rewrite insert_app_r_alt, Nat.sub_diag by lia. simpl.
      destruct (is_retained _); simpl; [done|]. by rewrite vec_remove_middle. }
  unfold update. destruct st, subj, desc;
    first [by split_and!
          |specialize (Hmain _ eq_refl); destruct (match position _ _ with Some _ => _ | None => _ end)
             as [s' [u|[m|]]]; done].
Qed.

Lemma ids_app_inv l1 t l2 u :
  StronglySorted id_lt (l1 ++ t :: l2) → taskid u = taskid t →
  StronglySorted id_lt (l1 ++ u :: l2) ∧ StronglySorted id_lt (l1 ++ l2).
Proof.
  intros Hs He. induction l1 as [|x l1 IH]; simpl in *.
  - apply StronglySorted_inv in Hs as [Hs Hf]. split; [|done]. constructor; [done|].
    eapply Forall_impl; [done|]. unfold id_lt. intros y. by rewrite He.
  - apply StronglySorted_inv in Hs as [Hs Hf]. destruct (IH Hs) as [H1 H2].
    rewrite Forall_app, Forall_cons in Hf. destruct Hf as (Hf1 & Hft & Hf2).
    split; constructor; try done.
    + rewrite Forall_app, Forall_cons. split_and!; [done| |done]. unfold id_lt in *. by rewrite He.
    + by rewrite Forall_app.
Qed.

Lemma update_inv s id st subj desc : store_inv s → store_inv (fst (update s id st subj desc)).
Proof.
  intros Hinv. pose proof (update_cases s id st subj desc) as Hu.
  destruct (update s id st subj desc) as [s' [u|[m|]]]; simpl.
  - destruct Hu as (l1 & t & l2 & Hl & Ht & _ & Hu & ->). subst id.
    destruct Hinv as (Hs & Hb & Hr & Hn). rewrite Hl in Hs, Hb, Hr.
    assert (taskid u = taskid t) as Hut by (by rewrite Hu).
    destruct (ids_app_inv l1 t l2 u Hs Hut) as [H1 H2].
    rewrite Forall_app, Forall_cons in Hb, Hr. destruct Hb as (? & ? & ?), Hr as (? & ? & ?).
    unfold store_inv. simpl. destruct (is_retained (status u)) eqn:Hret; simpl;
      rewrite ?Forall_app, ?Forall_cons; split_and!; try done; rewrite Hut; lia.
  - by destruct Hu as [-> _].
  - by destruct Hu as [-> _].
Qed.

Lemma create_inv s subj desc :
  store_inv s → next_taskid s < U64_MAX →
  store_inv (fst (create s subj desc)) ∧
  next_taskid (fst (create s subj desc)) = next_taskid s + 1.
Proof.
  intros (Hs & Hb & Hr & Hn) Hlt. unfold store_inv. simpl.
  assert (saturating_add_u64 (next_taskid s) 1 = next_taskid s + 1) as ->
    by (unfold saturating_add_u64; lia).
  split; [|done]. split_and!.
  - clear Hr. induction (tasks s) as [|x l IH]; simpl; [by repeat constructor|].
    apply StronglySorted_inv in Hs as [Hs Hf]. apply Forall_cons in Hb as [Hx Hb].
    constructor; [by apply IH|]. apply Forall_app. split; [done|]. constructor; [|done].
    unfold id_lt. simpl. lia.
  - apply Forall_app. split; [|by constructor; [cbn [taskid]; lia|constructor]].
    eapply Forall_impl; [exact Hb|]. intros t. simpl. lia.
  - apply Forall_app. split; [done|]. by constructor.
  - lia.
Qed.

Lemma run_inv ops s :
  store_inv s → next_taskid s + Z.of_nat (length ops) <= U64_MAX →
  store_inv (foldl run_op s ops) ∧
  next_taskid s <= next_taskid (foldl run_op s ops) <= next_taskid s + Z.of_nat (length ops).
Proof.
  revert s. induction ops as [|o ops IH]; intros s Hinv Hb; simpl in *; [split; [done|lia]|].
  assert (store_inv (run_op s o) ∧
    next_taskid s <= next_taskid (run_op s o) <= next_taskid s + 1) as [Hi Hn].
  { destruct o as [subj desc|id st subj desc]; simpl.
    - destruct (create_inv s subj desc Hinv ltac:(lia)) as [? Hnext].
      split; [done|]. simpl in Hnext. lia.
    - split; [by apply update_inv|]. pose proof (update_cases s id st subj desc) as Hu.
      destruct (update s id st subj desc) as [s' [u|[m|]]]; simpl.
      + destruct Hu as (l1 & t & l2 & _ & _ & _ & _ & ->). simpl. lia.
      + destruct Hu as [-> _]. lia.
      + destruct Hu as [-> _]. lia. }
  destruct (IH (run_op s o) Hi ltac:(lia)) as [? ?]. split; [done|lia].
Qed.

(** ** The snapshot text *)

Fixpoint no_char (c : ascii) (s : string) : bool :=
  match s with
  | EmptyString => true
  | String d s => negb (Ascii.eqb c d) && no_char c s
  end.

Lemma no_char_app c a b : no_char c (a +:+ b) = no_char c a && no_char c b.
Proof.
  induction a as [|d a IH]; [done|]. rewrite string_app_cons. cbn [no_char].
  by rewrite IH, andb_assoc.
Qed.

Lemma strip_prefix_app p s : strip_prefix p (p +:+ s) = Some s.
Proof.
  induction p as [|c p IH]; [done|]. rewrite string_app_cons. cbn [strip_prefix].
  by rewrite Ascii.eqb_refl.
Qed.

(** A pattern starting with a character the text before does not have is found right
    after that text. *)
Lemma split_after_no_char c pat a b :
  no_char c a = true → split_at_first (String c pat) (a +:+ String c pat +:+ b) = Some (a, b).
Proof.
  induction a as [|d a IH]; intros Ha.
  - change (EmptyString +:+ ?x) with x. rewrite string_app_cons. cbn [split_at_first].
    pose proof (strip_prefix_app (String c pat) b) as Hs. rewrite string_app_cons in Hs.
    by rewrite Hs.
  - rewrite !string_app_cons. cbn [no_char] in Ha. split_andb. cbn [split_at_first strip_prefix].
    rewrite H. rewrite <- string_app_cons. by rewrite IH.
Qed.

(** The end marker is found right after a text that does not contain it: the marker does
    not overlap itself and the text that follows starts with it. *)
Lemma split_at_end_fence a b :
  split_at_first end_fence a = None → split_at_first end_fence (a +:+ end_fence +:+ b) = Some (a, b).
Proof.
  induction a as [|d a IH]; intros Ha.
  - change (EmptyString +:+ ?x) with x. change end_fence with (String "010" "```").
    rewrite string_app_cons. cbn [split_at_first].
    pose proof (strip_prefix_app (String "010" "```") b) as Hs. rewrite string_app_cons in Hs.
    by rewrite Hs.
  - rewrite string_app_cons. cbn [split_at_first] in *.
    destruct (strip_prefix end_fence (String d a)) eqn:Hs; [done|].
    destruct (split_at_first end_fence a) as [[]|]; [done|]. rewrite IH by done.
    assert (strip_prefix end_fence (String d (a +:+ end_fence +:+ b)) = None) as ->; [|done].
    revert Hs. clear. change end_fence with (String "010" "```"). cbn [strip_prefix].
    destruct (Ascii.eqb "010" d); [|done].
    destruct a as [|c1 a]; [done|]. rewrite string_app_cons. cbn [strip_prefix].
    destruct (Ascii.eqb "`" c1); [|done].
    destruct a as [|c2 a]; [done|]. rewrite string_app_cons. cbn [strip_prefix].
    destruct (Ascii.eqb "`" c2); [|done].
    destruct a as [|c3 a]; [done|]. rewrite string_app_cons. cbn [strip_prefix].
    by destruct (Ascii.eqb "`" c3).
Qed.

Lemma no_char_all c s : no_char c s = all_chars (λ d, negb (Ascii.eqb c d)) s.
Proof. induction s as [|d s IH]; [done|]. cbn [no_char all_chars]. by rewrite IH. Qed.

Lemma pretty_nat_no_backtick (n : nat) : no_char "`" (pretty (Z.of_nat n)) = true.
Proof. rewrite no_char_all. apply pretty_digits; [done|lia]. Qed.

Lemma overview_no_backtick ts : no_char "`" (snapshot_overview ts) = true.
Proof.
  unfold snapshot_overview, count_status. rewrite !no_char_app, !pretty_nat_no_backtick. done.
Qed.

Lemma filter_retained_id (ts : list TaskEntry) :
  Forall (λ t, is_retained (status t) = true) ts →
  List.filter (λ t, is_retained (status t)) ts = ts.
Proof. induction 1 as [|t ts Ht _ IH]; simpl; [done|]. by rewrite Ht, IH. Qed.

Lemma filter_retained_twice (ts : list TaskEntry) :
  List.filter (λ t, is_retained (status t)) (List.filter (λ t, is_retained (status t)) ts)
  = List.filter (λ t, is_retained (status t)) ts.
Proof.
  apply filter_retained_id. apply Forall_forall. intros t Ht.
  by apply list_filter_elem_of in Ht as [_ ?].
Qed.

Section roundtrip.
Context (snapshot_json : list TaskEntry → string).
Context (snapshot_decode : string → option (list TaskEntry)).

(** serde_json reads back the snapshot it wrote, and its pretty printer escapes line
    feeds inside strings, so that a fence never starts a line of its output. *)
Definition faithful_json (ts : list TaskEntry) : Prop :=
  snapshot_decode (snapshot_json ts) = Some ts ∧
  split_at_first end_fence (snapshot_json ts) = None.

Lemma snapshot_message_roundtrip ts :
  faithful_json (List.filter (λ t, is_retained (status t)) ts) →
  parse_compact_snapshot_text snapshot_decode
    (compaction_message (render_snapshot snapshot_json ts))
  = Some (List.filter (λ t, is_retained (status t)) ts).
Proof.
  intros [decode_json json_has_no_fence].
  unfold parse_compact_snapshot_text, compaction_message, render_snapshot.
  set (rest := nl +:+ nl +:+ _). rewrite strip_prefix_app. subst rest.
  set (retained := List.filter _ ts) in *.
  assert (∀ tail, split_at_first json_fence
      (SNAPSHOT_HEADER +:+ nl +:+ nl +:+
       (snapshot_overview retained +:+ nl +:+ nl +:+ json_fence +:+ snapshot_json retained
        +:+ end_fence +:+ nl) +:+ tail)
    = Some (SNAPSHOT_HEADER +:+ nl +:+ nl +:+ snapshot_overview retained +:+ nl +:+ nl,
            snapshot_json retained +:+ end_fence +:+ nl +:+ tail)) as Hfind.
  { intros tail. rewrite <- !string_app_assoc.
    rewrite (string_app_assoc nl nl (json_fence +:+ _)),
      (string_app_assoc (snapshot_overview _) (nl +:+ nl)), (string_app_assoc nl _ (json_fence +:+ _)),
      (string_app_assoc nl _ (json_fence +:+ _)), (string_app_assoc SNAPSHOT_HEADER _ (json_fence +:+ _)).
    apply (split_after_no_char "`" ("``json" +:+ nl)).
    rewrite !no_char_app, overview_no_backtick. done. }
  rewrite Hfind, split_at_end_fence by done.
  rewrite decode_json. simpl. f_equal. apply filter_retained_twice.
Qed.

End roundtrip.

Lemma issued_spec ops s :
  1 <= next_taskid s → next_taskid s + Z.of_nat (length ops) <= U64_MAX →
  ∃ n, issued s ops = seqZ (next_taskid s) n ∧ 0 <= n <= Z.of_nat (length ops) ∧
    next_taskid (foldl run_op s ops) = next_taskid s + n.
Proof.
  revert s. induction ops as [|o ops IH]; intros s Hn Hb; cbn [issued foldl length] in *.
  { exists 0. split_and!; [done|lia..]. }
  assert (next_taskid (run_op s o) =
    next_taskid s + match o with OpCreate _ _ => 1 | _ => 0 end) as Hnext.
  { destruct o as [subj desc|id st subj desc]; simpl.
    - unfold saturating_add_u64. lia.
    - pose proof (update_cases s id st subj desc) as Hu.
      destruct (update s id st subj desc) as [s' [u|[m|]]]; simpl.
      + destruct Hu as (l1 & t & l2 & _ & _ & _ & _ & ->). simpl. lia.
      + destruct Hu as [-> _]. lia.
      + destruct Hu as [-> _]. lia. }
  destruct (IH (run_op s o)) as (n & -> & Hle & ->); [destruct o; lia..|]. rewrite Hnext.
  destruct o as [subj desc|id st subj desc].
  - exists (n + 1). split_and!; [|lia..]. simpl. rewrite (seqZ_cons (next_taskid s) (n + 1)) by lia.
    do 2 f_equal; lia.
  - exists n. rewrite Z.add_0_r. split_and!; [done|lia..].
Qed.

Lemma get_app_ne l1 t l2 id (mid : list TaskEntry) :
  taskid t ≠ id → Forall (λ u, taskid u = taskid t) mid →
  List.find (λ t, taskid t =? id) (l1 ++ mid ++ l2)
  = List.find (λ t, taskid t =? id) (l1 ++ t :: l2).
Proof.
  intros Hne Hmid. induction l1 as [|x l1 IH]; simpl; [|by destruct (taskid x =? id)].
  assert ((taskid t =? id) = false) as -> by lia.
  induction Hmid as [|u mid Hu _ IHm]; simpl; [done|].
  assert ((taskid u =? id) = false) as -> by lia. done.
Qed.

Lemma find_absent id l : (∀ x, x ∈ l → taskid x ≠ id) → List.find (λ t, taskid t =? id) l = None.
Proof.
  induction l as [|x l IH]; intros H; simpl; [done|].
  assert ((taskid x =? id) = false) as -> by (apply Z.eqb_neq, H; by left).
  apply IH. intros y Hy. apply H. by right.
Qed.

Lemma find_app_absent id l1 l2 :
  (∀ x, x ∈ l1 → taskid x ≠ id) →
  List.find (λ t, taskid t =? id) (l1 ++ l2) = List.find (λ t, taskid t =? id) l2.
Proof.
  induction l1 as [|x l1 IH]; intros H; simpl; [done|].
  assert ((taskid x =? id) = false) as -> by (apply Z.eqb_neq, H; by left).
  apply IH. intros y Hy. apply H. by right.
Qed.

Lemma sorted_tail_above l1 t l2 :
  StronglySorted id_lt (l1 ++ t :: l2) → ∀ x, x ∈ l2 → taskid x ≠ taskid t.
Proof.
  induction l1 as [|y l1 IH]; simpl; intros Hs x Hx.
  - apply StronglySorted_inv in Hs as [_ Hf]. eapply Forall_forall in Hf; [|done].
    unfold id_lt in Hf. lia.
  - apply StronglySorted_inv in Hs as [Hs _]. by apply IH.
Qed.

(** ** Reminders *)

(** A request raises a counter by one, up to the wrap-around. *)
Lemma pre_request_counters r s c :
  0 <= requests_since_last_task_management r < 2 ^ 64 - 1 →
  0 <= requests_since_last_reminder r < 2 ^ 64 - 1 →
  let '(r', reminder) := pre_request_hook r s c in
  (0 <= requests_since_last_task_management r' <= requests_since_last_task_management r + 1) ∧
  (0 <= requests_since_last_reminder r' <= requests_since_last_reminder r + 1) ∧
  (is_Some reminder → 24 <= requests_since_last_task_management r + 1 ∧
     24 <= requests_since_last_reminder r + 1).
Proof.
  intros Hm Hr. unfold pre_request_hook, note_request, fetch_add_1, saturating_add_u64, U64_MAX.
  rewrite !Z.mod_small by lia. destruct (tasks s); simpl; [split_and!; [lia..|by intros [? ?]]|].
  destruct (_ || _) eqn:Hc; simpl; [split_and!; [lia..|by intros [? ?]]|].
  unfold TASK_REMINDER_REQUEST_THRESHOLD, TASK_REMINDER_COOLDOWN_REQUESTS in Hc. zbool.
  destruct c; simpl; split_and!; try lia; by intros [? ?].
Qed.

Lemma run_hooks_quiet events r :
  0 <= requests_since_last_task_management r →
  0 <= requests_since_last_reminder r →
  requests_since_last_task_management r + Z.of_nat (length events) < 2 ^ 64 - 1 →
  requests_since_last_reminder r + Z.of_nat (length events) < 2 ^ 64 - 1 →
  (requests_since_last_reminder r + Z.of_nat (length (List.filter is_request events)) < 24 ∨
   requests_since_last_task_management r + Z.of_nat (length (List.filter is_request events)) < 24) →
  snd (run_hooks r events) = [].
Proof.
  revert r. induction events as [|[s c|name] events IH]; intros r H1 H2 H3 H4 Hq;
    cbn [run_hooks List.filter is_request length] in *; [done| |].
  - pose proof (pre_request_counters r s c ltac:(lia) ltac:(lia)) as Hc.
    destruct (pre_request_hook r s c) as [r' reminder]. destruct Hc as (Hm & Hr & Hrem).
    assert (reminder = None) as ->.
    { destruct reminder; [|done]. destruct (Hrem ltac:(eauto)). lia. }
    specialize (IH r' ltac:(lia) ltac:(lia) ltac:(lia) ltac:(lia) ltac:(lia)).
    by destruct (run_hooks r' events).
  - apply IH; unfold tool_usage_hook; destruct (is_task_management_tool name); simpl; lia.
Qed.

(** ** Properties of the task store *)

(** Task ids are never reused.  However tasks are created, updated and deleted, the
    ids given out are 1, 2, 3 and so on, the tasks kept are in the order of their ids,
    all retained, and below the next id. *)
Theorem task_ids_never_reused (ops : list op) :
  Z.of_nat (length ops) < U64_MAX →
  (∃ n, issued new ops = seqZ 1 n) ∧ store_inv (foldl run_op new ops).
Proof.
  intros Hb. split.
  - destruct (issued_spec ops new) as (n & H & _); [simpl; lia..|]. by exists n.
  - apply run_inv; [|simpl; lia]. repeat split; try constructor; simpl; lia.
Qed.

Lemma task_ids_never_reused_witness :
  let ops := [OpCreate "a" "x"; OpUpdate 1 (Some Deleted) None None; OpCreate "b" "y"] in
  (∃ n, issued new ops = seqZ 1 n) ∧ store_inv (foldl run_op new ops).
Proof. intros ops. apply task_ids_never_reused. vm_compute. reflexivity. Defined.

Lemma get_map_of s : StronglySorted id_lt (tasks s) → ∀ id, get s id = (map_of s).1 !! id.
Proof.
  intros Hs id. unfold get, map_of. simpl. induction (tasks s) as [|t l IH]; [done|].
  apply StronglySorted_inv in Hs as [Hs _]. simpl. destruct (Z.eqb_spec (taskid t) id) as [<-|Hne].
  - by rewrite lookup_insert_eq.
  - rewrite lookup_insert_ne by done. by apply IH.
Qed.

Lemma get_snoc s t id next :
  Forall (λ u, taskid u < taskid t) (tasks s) →
  get (mkTaskStore next (tasks s ++ [t])) id = if decide (id = taskid t) then Some t else get s id.
Proof.
  intros Hf. unfold get. simpl. induction Hf as [|u l Hu _ IH]; simpl.
  - destruct (Z.eqb_spec (taskid t) id), (decide (id = taskid t)); congruence.
  - rewrite IH. destruct (Z.eqb_spec (taskid u) id); [|done]. case_decide; [lia|done].
Qed.

Lemma represents_create s m subj desc :
  store_inv s → next_taskid s < U64_MAX → represents s m →
  represents (run_op s (OpCreate subj desc)) (map_op m (OpCreate subj desc)).
Proof.
  intros Hinv Hlt (Hs & Hn & Hg). destruct (create_inv s subj desc Hinv Hlt) as [(Hs' & _) Hn'].
  split; [exact Hs'|]. split; [cbn [run_op map_op snd]; by rewrite Hn', Hn|]. intros id. simpl.
  rewrite get_snoc; cbn [taskid].
  - rewrite <-Hn. case_decide as Hid; [by rewrite Hid, lookup_insert_eq|].
    by rewrite lookup_insert_ne.
  - destruct Hinv as (_ & Hb & _). eapply Forall_impl; [exact Hb|]. simpl. lia.
Qed.

(** An update changes the task it names and no other. *)
Lemma update_get s id st subj desc :
  store_inv s →
  let '(s', r) := update s id st subj desc in
  next_taskid s' = next_taskid s ∧
  match r with
  | Ok u => ∃ t, get s id = Some t ∧ u = apply_fields t st subj desc ∧
      get s' id = (if is_retained (status u) then Some u else None) ∧
      ∀ id', id' ≠ id → get s' id' = get s id'
  | Err e => s' = s ∧ (get s id = None ∨ st = None ∧ subj = None ∧ desc = None)
  end.
Proof.
  intros (Hs & _). pose proof (update_cases s id st subj desc) as Hu.
  destruct (update s id st subj desc) as [s' [u|[m|]]].
  - destruct Hu as (l1 & t & l2 & Hl & Ht & Hl1 & Hu & ->). subst id. unfold get. simpl.
    rewrite Hl in *. pose proof (sorted_tail_above _ _ _ Hs) as Hl2.
    assert (taskid u = taskid t) as Hut by (by rewrite Hu). split; [done|]. exists t. split_and!.
    + rewrite find_app_absent by done. simpl. by rewrite Z.eqb_refl.
    + done.
    + rewrite find_app_absent by done. destruct (is_retained (status u)); simpl.
      * by rewrite Hut, Z.eqb_refl.
      * by apply find_absent.
    + intros id' Hne. apply (get_app_ne l1 t l2 id'); [done|].
      destruct (is_retained (status u)); by repeat constructor.
  - destruct Hu as (-> & _ & ?). by auto.
  - destruct Hu as (-> & ? & ? & ?). by auto 6.
Qed.

Lemma get_retained s id t :
  store_inv s → get s id = Some t → status t ≠ Deleted ∧ taskid t = id.
Proof.
  intros (_ & _ & Hr & _) [Hin Ht]%List.find_some. apply list_elem_of_In in Hin.
  rewrite Forall_forall in Hr. specialize (Hr t Hin). split; [by destruct (status t)|by apply Z.eqb_eq].
Qed.

Lemma represents_update s m id st subj desc :
  store_inv s → represents s m →
  represents (run_op s (OpUpdate id st subj desc)) (map_op m (OpUpdate id st subj desc)).
Proof.
  intros Hinv (Hs & Hn & Hg). pose proof (update_inv s id st subj desc Hinv) as (Hs' & _).
  pose proof (update_get s id st subj desc Hinv) as Hu. cbn [run_op map_op].
  rewrite <-(Hg id). destruct (update s id st subj desc) as [s' [u|e]]; simpl in *.
  - destruct Hu as (Hnext & t & Ht & -> & Hsame & Hother). rewrite Ht.
    destruct (get_retained s id t Hinv Ht) as [Hkept _].
    assert (is_retained (status (apply_fields t st subj desc)) = negb (bool_decide (st = Some Deleted)))
      as Hret.
    { unfold is_retained. f_equal. apply bool_decide_ext. destruct st; simpl; [by split; congruence|].
      by split. }
    rewrite Hret in Hsame. split; [done|]. case_bool_decide; (split; [simpl; congruence|]); intros id';
      simpl; (destruct (decide (id' = id)) as [->|Hne];
        [|by rewrite Hother, Hg, ?lookup_delete_ne, ?lookup_insert_ne by done]).
    + by rewrite Hsame, lookup_delete_eq.
    + by rewrite Hsame, lookup_insert_eq.
  - destruct Hu as (_ & -> & Hwhy). destruct (get s id) as [t|] eqn:Ht; [|by split_and!].
    destruct Hwhy as [?|(-> & -> & ->)]; [done|]. rewrite bool_decide_eq_false_2 by done.
    split_and!; [done..|]. intros id'. simpl. replace (apply_fields t None None None) with t by (by destruct t).
    destruct (decide (id' = id)) as [->|]; [by rewrite lookup_insert_eq|by rewrite lookup_insert_ne].
Qed.

Lemma represents_run ops s m :
  store_inv s → next_taskid s + Z.of_nat (length ops) <= U64_MAX → represents s m →
  represents (foldl run_op s ops) (foldl map_op m ops).
Proof.
  revert s m. induction ops as [|o ops IH]; intros s m Hinv Hb Hrep; [done|]. cbn [foldl].
  cbn [length] in Hb. destruct (run_inv [o] s Hinv) as [Hinv1 Hn1]; [simpl; lia|].
  cbn [foldl length] in Hinv1, Hn1. apply IH; [done|lia|].
  destruct o; [apply represents_create|apply represents_update]; try done; lia.
Qed.

(** A replay of items that hold no snapshot runs the operations of their calls. *)
Lemma replay_runs (replay_create_params : string → option (string * string))
    (replay_update_params : string → option TaskUpdateParams)
    (snapshot_decode : string → option (list TaskEntry)) (history : list Item) : ∀ s,
  (∀ content text, Message content ∈ history → text ∈ content →
     parse_compact_snapshot_text snapshot_decode text = None) →
  replay_history replay_create_params replay_update_params snapshot_decode s history
  = foldl run_op s (omap (op_of replay_create_params replay_update_params) (tool_calls history)).
Proof.
  unfold replay_history. induction history as [|item history IH]; intros s Hm; [done|]. cbn [foldl].
  rewrite IH by (intros content text Hin; apply Hm; by right).
  destruct item as [content|name arguments|]; cbn [replay_item]; [| |done].
  - f_equal. assert (∀ text, text ∈ content → parse_compact_snapshot_text snapshot_decode text = None)
      as Hc by (intros; eapply Hm; [by left|done]).
    clear -Hc. induction content as [|text content IHc]; [done|]. cbn [foldl].
    rewrite Hc by (by left). apply IHc. intros t Ht. apply Hc. by right.
  - cbn. unfold op_of. cbn [fst snd]. case_bool_decide.
    { by destruct (replay_create_params arguments) as [[subj desc]|]. }
    case_bool_decide; [|done]. by destruct (replay_update_params arguments) as [p|].
Qed.

Lemma length_omap_le {A B} (f : A → option B) l : (length (omap f l) <= length l)%nat.
Proof.
  induction l as [|x l IH]; [done|]. change (omap f (x :: l)) with (match f x with Some y => y :: omap f l | None => omap f l end).
  destruct (f x); cbn [length]; lia.
Qed.

(** Executing calls live runs their operations. *)
Lemma execute_runs (create_params : string → result (string * string) string)
    (update_params : string → result TaskUpdateParams string) (task_json : TaskEntry → string)
    (calls : list (string * string)) : ∀ s,
  foldl (λ s call, execute create_params update_params task_json s call.1 call.2) s calls
  = foldl run_op s (omap (op_of (result_ok ∘ create_params) (result_ok ∘ update_params)) calls).
Proof.
  induction calls as [|[name input] calls IH]; intros s; [done|]. cbn [foldl]. rewrite IH. clear IH.
  cbn. unfold op_of, execute, create_tool, update_tool. cbn [fst snd compose].
  case_bool_decide; [by destruct (create_params input) as [[subj desc]|]|].
  case_bool_decide; [|done]. destruct (update_params input) as [p|]; [|done]. cbn.
  by destruct (update s _ _ _ _) as [s' [u|e]].
Qed.

(** Compaction keeps a small task list.  When at most twenty tasks are retained and
    the newest one is among them, the snapshot message compaction writes makes a replay
    resume with exactly the store that was live, whatever was replayed before it. *)
Lemma compaction_keeps_small_store (replay_create_params : string → option (string * string))
    (replay_update_params : string → option TaskUpdateParams)
    (snapshot_json : list TaskEntry → string) (snapshot_decode : string → option (list TaskEntry))
    (before s : TaskStore) :
  faithful_json snapshot_json snapshot_decode (tasks s) → store_inv s →
  (length (tasks s) <= DEFAULT_TASK_LIST_LIMIT)%nat →
  next_taskid s = default 0 (max_taskid (tasks s)) + 1 → next_taskid s <= U64_MAX →
  replay_item replay_create_params replay_update_params snapshot_decode before
    (Message [compaction_message (snapshot_text snapshot_json s)]) = s.
Proof.
  intros Hjson (Hsorted & Hb & Hr & Hn) Hlen Hnext Hmax. cbn [replay_item foldl].
  assert (snapshot s = tasks s) as Hsnap.
  { unfold snapshot, snapshot_limited. by rewrite take_ge. }
  pose proof (filter_retained_id _ Hr) as Hf.
  unfold snapshot_text. rewrite Hsnap, snapshot_message_roundtrip; rewrite Hf; [|done].
  unfold replace_with. rewrite Hf. destruct s as [next ts]. simpl in *. f_equal.
  unfold saturating_add_u64. lia.
Qed.

(** How the part of a history that a replay still needs may begin: with the session, or after
    anything else with the snapshot that a compaction wrote of the store [s0]. *)
Inductive starts_at (snapshot_json : list TaskEntry → string) : list Item → TaskStore → Prop :=
| starts_new : starts_at snapshot_json [] new
| starts_compacted before s0 :
    store_inv s0 → (length (tasks s0) <= DEFAULT_TASK_LIST_LIMIT)%nat →
    next_taskid s0 = default 0 (max_taskid (tasks s0)) + 1 → next_taskid s0 <= U64_MAX →
    starts_at snapshot_json (before ++ [Message [compaction_message (snapshot_text snapshot_json s0)]]) s0.

Lemma starts_at_replayed replay_create_params replay_update_params snapshot_json snapshot_decode prefix s0 :
  starts_at snapshot_json prefix s0 → faithful_json snapshot_json snapshot_decode (tasks s0) →
  store_inv s0 ∧ from_history replay_create_params replay_update_params snapshot_decode prefix = s0.
Proof.
  intros [|before s Hinv Hl Hn Hm] Hj.
  - split; [|done]. repeat split; try constructor; simpl; lia.
  - split; [done|]. unfold from_history, replay_history. rewrite foldl_app. cbn [foldl].
    by apply compaction_keeps_small_store.
Qed.

(** C10.  A session restored from its history has the tasks it had.  Take a history that goes
    on, from the start of the session or from the snapshot of a compaction, with calls of the
    task tools among items that hold no further snapshot.  The restored store is the finite map
    from ids to tasks in which a creation adds a pending task under the next id, an update
    replaces the given fields of the task it names, a deletion removes it, and a call whose
    arguments do not decode or whose task is missing changes nothing; its list is in the order of
    the ids.  And it is the store that executing calls live from the same start left, when these
    decode to the operations the recorded ones decode to.  The snapshot has at most twenty tasks,
    the newest task among them. *)
Theorem restored_tasks_exact (replay_create_params : string → option (string * string))
    (replay_update_params : string → option TaskUpdateParams)
    (create_params : string → result (string * string) string)
    (update_params : string → result TaskUpdateParams string) (task_json : TaskEntry → string)
    (snapshot_json : list TaskEntry → string) (snapshot_decode : string → option (list TaskEntry))
    (prefix rest : list Item) (s0 : TaskStore) (live : list (string * string)) :
  starts_at snapshot_json prefix s0 → faithful_json snapshot_json snapshot_decode (tasks s0) →
  (∀ content text, Message content ∈ rest → text ∈ content →
     parse_compact_snapshot_text snapshot_decode text = None) →
  next_taskid s0 + Z.of_nat (length rest) <= U64_MAX →
  let ops := omap (op_of replay_create_params replay_update_params) (tool_calls rest) in
  let restored := from_history replay_create_params replay_update_params snapshot_decode (prefix ++ rest) in
  represents restored (foldl map_op (map_of s0) ops)
  ∧ (omap (op_of (result_ok ∘ create_params) (result_ok ∘ update_params)) live = ops →
     foldl (λ s call, execute create_params update_params task_json s call.1 call.2) s0 live = restored).
Proof.
  intros Hstart Hjson Hno Hmax ops restored.
  destruct (starts_at_replayed replay_create_params replay_update_params _ _ _ _ Hstart Hjson) as [Hinv H0].
  assert (restored = foldl run_op s0 ops) as ->.
  { unfold restored, from_history, replay_history. rewrite foldl_app.
    change (foldl _ new prefix) with (from_history replay_create_params replay_update_params snapshot_decode prefix).
    rewrite H0. by apply replay_runs. }
  split; [|intros <-; by rewrite execute_runs].
  apply represents_run; [done| |].
  - enough (length ops <= length rest)%nat by lia. unfold ops, tool_calls.
    etrans; apply length_omap_le.
  - split_and!; [by destruct Hinv|done|]. apply get_map_of. by destruct Hinv.
Qed.

Definition example_create (input : string) : option (string * string) := Some (input, input).
Definition example_update (input : string) : option TaskUpdateParams :=
  if bool_decide (input = "done") then Some (mkUpdateParams 1 (Some TaskCompleted) None None) else None.
Definition example_create_tool (input : string) : result (string * string) string := Ok (input, input).
Definition example_update_tool (input : string) : result TaskUpdateParams string :=
  ok_or (example_update input) "bad input".

(** A tiny codec for the example store. *)
Definition example_store : TaskStore :=
  mkTaskStore 3 [mkTask 1 TaskCompleted "A" "a"; mkTask 2 Inprogress "B" "b"].
Definition example_json (ts : list TaskEntry) : string :=
  if bool_decide (ts = tasks example_store) then "{AB}" else "{}".
Definition example_decode (json : string) : option (list TaskEntry) :=
  if bool_decide (json = "{AB}") then Some (tasks example_store) else None.

(** A history with a compaction: a task is created before it, and created and completed after. *)
Definition example_prefix : list Item :=
  [ToolCall "TaskCreate" "old"; Message [compaction_message (snapshot_text example_json example_store)]].
Definition example_rest : list Item :=
  [ToolCall "TaskCreate" "plan"; Message ["hello"]; ToolCall "TaskUpdate" "oops";
   ToolCall "TaskUpdate" "done"; OtherItem].

Lemma restored_tasks_exact_witness :
  let restored := from_history example_create example_update example_decode (example_prefix ++ example_rest) in
  represents restored
    (foldl map_op (map_of example_store)
       [OpCreate "plan" "plan"; OpUpdate 1 (Some TaskCompleted) None None])
  ∧ foldl (λ s call, execute example_create_tool example_update_tool subject s call.1 call.2) example_store
      [("TaskCreate", "plan"); ("TaskUpdate", "done")] = restored.
Proof.
  destruct (restored_tasks_exact example_create example_update example_create_tool example_update_tool subject
    example_json example_decode example_prefix example_rest example_store
    [("TaskCreate", "plan"); ("TaskUpdate", "done")]) as [H1 H2].
  - apply (starts_compacted _ [_]).
    + repeat split; repeat constructor; try (vm_compute; congruence); unfold id_lt; simpl; lia.
    + vm_compute. lia.
    + vm_compute. reflexivity.
    + vm_compute. congruence.
  - split; vm_compute; reflexivity.
  - intros content text Hin Ht. unfold example_rest in Hin.
    repeat (apply elem_of_cons in Hin as [Hin|Hin]; [try discriminate Hin|]).
    + injection Hin as ->. by apply list_elem_of_singleton in Ht as ->.
    + by apply not_elem_of_nil in Hin.
  - vm_compute. congruence.
  - split; [exact H1|]. apply H2. vm_compute. reflexivity.
Defined.

(** Reminders are rare.  Whatever the model does, no reminder is given within the
    next 23 requests after a reminder, nor within the next 23 requests after a task was
    created or updated. *)
Theorem reminders_respect_cooldown (r : TaskReminderState) (events : list hook_event) :
  0 <= requests_since_last_task_management r < 2 ^ 32 →
  0 <= requests_since_last_reminder r < 2 ^ 32 → Z.of_nat (length events) < 2 ^ 32 →
  (length (List.filter is_request events) < 24)%nat →
  snd (run_hooks (note_reminder r) events) = [] ∧
  ∀ name, is_task_management_tool name = true →
    snd (run_hooks (tool_usage_hook r name) events) = [].
Proof.
  intros Hm Hr Hl Hreq. split; [|intros name Hname].
  - apply run_hooks_quiet; simpl; try lia.
  - unfold tool_usage_hook. rewrite Hname. apply run_hooks_quiet; simpl; lia.
Qed.

Lemma reminders_respect_cooldown_witness :
  let events := replicate 23 (Request example_store true) in
  snd (run_hooks (note_reminder reminder_default) events) = [] ∧
  ∀ name, is_task_management_tool name = true →
    snd (run_hooks (tool_usage_hook reminder_default name) events) = [].
Proof.
  intros events. apply reminders_respect_cooldown; vm_compute; try lia; try (split; congruence).
Defined.

(** A reminder does come: when tasks are pending and the model calls no task tool,
    the 24th request of a session gives the first one. *)
Theorem reminder_comes (s : TaskStore) :
  tasks s ≠ [] →
  snd (run_hooks reminder_default (replicate 24 (Request s true))) = [tasks s].
Proof.
  intros Hne. destruct (tasks s) as [|t ts] eqn:Hts; [done|].
  cbn [replicate run_hooks]. unfold pre_request_hook. rewrite Hts. vm_compute. reflexivity.
Qed.

Lemma reminder_comes_witness :
  snd (run_hooks reminder_default (replicate 24 (Request example_store true)))
  = [tasks example_store].
Proof. apply reminder_comes. discriminate. Defined.

(** The compaction snapshot loses tasks past the twentieth: of a store with 21 tasks
    it holds 20, so a replay resumes without the last task and gives its id to the next
    task created. *)
Theorem compaction_drops_the_21st_task :
  ∃ s, s = foldl run_op new (replicate 21 (OpCreate "t" "d")) ∧ length (tasks s) = 21%nat ∧
    get s 21 = Some (mkTask 21 Pending "t" "d") ∧
    get (replace_with (snapshot s)) 21 = None ∧
    taskid (snd (create (replace_with (snapshot s)) "other" "d")) = 21.
Proof. eexists. split; [reflexivity|]. vm_compute. done. Qed.

(** Rewinding a session can reuse a task id.  After two tasks are created and the
    second is deleted, the restored store gives the id 2 to the next task, where the
    recorded history gives it the id 3: a later update of task 3 is lost on one side. *)
Theorem rewind_reuses_task_id :
  ∃ history,
    let live := restore_from_history example_create
                  (λ _, Some (mkUpdateParams 2 (Some Deleted) None None)) (λ _, None) history in
    let replayed := from_history example_create
                      (λ _, Some (mkUpdateParams 2 (Some Deleted) None None)) (λ _, None) history in
    tasks live = tasks replayed ∧
    taskid (snd (create live "c" "c")) = 2 ∧ taskid (snd (create replayed "c" "c")) = 3.
Proof.
  exists [ToolCall "TaskCreate" "a"; ToolCall "TaskCreate" "b"; ToolCall "TaskUpdate" "delete 2"].
  vm_compute. done.
Qed.

End TaskStore.
