(* ===== verification/Conversation.v ===== *)
(** * Conversation items

    The data of [src/crates/agen/src/llm_client/types.rs] and [src/crates/agen/src/tool.rs]
    that the request pipeline works on, and the two scans of a history the components share:
    which items carry details, and where the input the model has accepted ends
    ([src/crates/agen/src/image_recovery.rs]). *)
From Stdlib Require Import ZArith String Ascii List Lia.
From stdpp Require Import base tactics numbers list strings.
From S2P Require Import Prelude.

Module Conversation.

Inductive Role := User | Assistant | System.

Inductive ItemStatus := InProgress | Completed | Incomplete.

Inductive ContentPart := Text (text : string) | Refusal (refusal : string).

Inductive ToolResultDisposition :=
| Success | Error | Interrupted | Cancelled | OutcomeUnknown.

(** [data] is the bytes of the image. *)
Record ImageAttachment := mkImageAttachment { mime_type : string; data : string }.

Inductive Attachment := Image (image : ImageAttachment).

Record MessageItem := mkMessage {
  msg_id : option string;
  role : Role;
  msg_content : list ContentPart;
  msg_status : option ItemStatus
}.

Record ToolCallItem := mkToolCall {
  tc_id : option string;
  tc_call_id : string;
  tc_name : string;
  tc_arguments : string;
  tc_call_index : option nat;
  tc_execution_id : option string;
  tc_status : option ItemStatus
}.

Record ToolResultItem := mkToolResult {
  tr_id : option string;
  tr_call_id : string;
  tr_summary : string;
  tr_content : option string;
  tr_disposition : ToolResultDisposition;
  tr_is_error : bool;
  tr_attachments : list Attachment
}.

Record ReasoningItem := mkReasoning {
  r_id : option string;
  r_text : string;
  r_summary : list string;
  r_encrypted_content : option string;
  r_signature : option string;
  r_status : option ItemStatus
}.

Inductive Item :=
| Message (m : MessageItem)
| AssistantResponseBoundary (response_id : string)
| ToolCall (c : ToolCallItem)
| ToolResult (r : ToolResultItem)
| Reasoning (r : ReasoningItem).

#[export] Instance ImageAttachment_eq_dec : EqDecision ImageAttachment.
Proof. solve_decision. Defined.
#[export] Instance Attachment_eq_dec : EqDecision Attachment.
Proof. solve_decision. Defined.

(** Assignments to fields of a tool result. *)
Definition with_content (r : ToolResultItem) (c : option string) : ToolResultItem :=
  mkToolResult (tr_id r) (tr_call_id r) (tr_summary r) c (tr_disposition r)
    (tr_is_error r) (tr_attachments r).

Definition with_attachments (r : ToolResultItem) (a : list Attachment) : ToolResultItem :=
  mkToolResult (tr_id r) (tr_call_id r) (tr_summary r) (tr_content r) (tr_disposition r)
    (tr_is_error r) a.

(** [content.is_some() || !attachments.is_empty()]. *)
Definition has_details (r : ToolResultItem) : bool :=
  bool_decide (is_Some (tr_content r)) || negb (bool_decide (tr_attachments r = [])).

(** [accepted_input_end]: the loop, over the items from [index] on. *)
Fixpoint accepted_input_end_from (index : nat) (response_start accepted_prefix : option nat)
    (items : list Item) : option nat :=
  match items with
  | [] => accepted_prefix
  | item :: rest =>
      let '(response_start, accepted_prefix) :=
        match item with
        | AssistantResponseBoundary _ => (Some index, accepted_prefix)
        | ToolCall _ | Reasoning _ => (response_start, Some (default index response_start))
        | Message m =>
            match role m with
            | Assistant => (response_start, Some (default index response_start))
            | User => (None, accepted_prefix)
            | System => (response_start, accepted_prefix)
            end
        | ToolResult _ => (response_start, accepted_prefix)
        end in
      accepted_input_end_from (S index) response_start accepted_prefix rest
  end.

Definition accepted_input_end (items : list Item) : option nat :=
  accepted_input_end_from 0 None None items.

(** ** Lemmas *)

(** What a request projection may change of an item: details of a tool result. *)
Definition same_but_details (i j : Item) : Prop :=
  match i, j with
  | ToolResult r, ToolResult s =>
      tr_id s = tr_id r ∧ tr_call_id s = tr_call_id r ∧ tr_summary s = tr_summary r
      ∧ tr_disposition s = tr_disposition r ∧ tr_is_error s = tr_is_error r
      ∧ (tr_content s = tr_content r ∨ tr_content s = None)
      ∧ (tr_attachments s = tr_attachments r ∨ tr_attachments s = [])
  | _, _ => j = i
  end.

Lemma same_but_details_refl i : same_but_details i i.
Proof. destruct i; naive_solver. Qed.

Lemma same_but_details_trans i j k :
  same_but_details i j → same_but_details j k → same_but_details i k.
Proof.
  destruct i, j; simpl; try congruence; destruct k; simpl; try congruence;
    naive_solver congruence.
Qed.

#[export] Instance same_but_details_preorder : PreOrder same_but_details.
Proof. split; [exact same_but_details_refl|exact same_but_details_trans]. Qed.

Lemma accepted_input_end_from_bound items : ∀ index rs ap,
  (∀ b, rs = Some b → (b < index)%nat) → (∀ b, ap = Some b → (b < index)%nat) →
  ∀ b, accepted_input_end_from index rs ap items = Some b → (b < index + length items)%nat.
Proof.
  induction items as [|item rest IH]; intros index rs ap Hrs Hap b; simpl.
  { intros ?%Hap. lia. }
  assert (∀ b, rs = Some b → (b < S index)%nat) by (intros ? ?%Hrs; lia).
  assert (∀ b, ap = Some b → (b < S index)%nat) by (intros ? ?%Hap; lia).
  assert (∀ b, Some (default index rs) = Some b → (b < S index)%nat).
  { intros ? [= <-]. destruct rs as [r|]; simpl; [specialize (Hrs r eq_refl)|]; lia. }
  assert (∀ b, Some index = Some b → (b < S index)%nat) by (intros ? [= <-]; lia).
  assert (∀ b, @None nat = Some b → (b < S index)%nat) by done.
  destruct item as [m| | | |]; [destruct (role m)|..]; simpl; intros Hb;
    apply IH in Hb; try done; lia.
Qed.

Lemma accepted_input_end_bound items b :
  accepted_input_end items = Some b → (b < length items)%nat.
Proof. apply (accepted_input_end_from_bound items 0 None None); done. Qed.

(** Tool results play no part in where the accepted input ends. *)
Lemma accepted_input_end_from_ext items items' : ∀ index rs ap,
  Forall2 (λ i j, match i, j with ToolResult _, ToolResult _ => True | _, _ => i = j end)
    items items' →
  accepted_input_end_from index rs ap items' = accepted_input_end_from index rs ap items.
Proof.
  revert items'. induction items as [|i items IH]; intros items' index rs ap H;
    inversion H as [|? j ? l Hij Hl]; subst; [done|].
  destruct i, j; try discriminate; simplify_eq; simpl; auto.
  destruct (role _); auto.
Qed.

Lemma accepted_input_end_ext items items' :
  Forall2 (λ i j, match i, j with ToolResult _, ToolResult _ => True | _, _ => i = j end)
    items items' →
  accepted_input_end items' = accepted_input_end items.
Proof. apply accepted_input_end_from_ext. Qed.

End Conversation.
