(* ===== verification/ContextBudget.v ===== *)
(** * Request context and its token budget

    Models the token estimates of [src/crates/agen/src/token_counter.rs], the request-only
    omission of old tool results of [src/crates/agen/src/prune.rs] with the block of
    [src/crates/agen/src/engine.rs] that applies it, and the compaction cut and the
    estimators of [src/crates/worker/src/compact/].  A panic (an index out of range, the
    [unreachable!] of [tokens_at]) is [None].  The length of an item's JSON text is an
    argument. *)
From Stdlib Require Import ZArith String Ascii List Lia.
From stdpp Require Import base tactics numbers list strings gmap.
From S2P Require Import Prelude Conversation.
Import Conversation.

Module ContextBudget.

Inductive EstimateSource := Measured | Interpolated | Extrapolated | NoData.

#[export] Instance EstimateSource_eq_dec : EqDecision EstimateSource.
Proof. solve_decision. Defined.

Record TokenEstimate := mkEstimate { tokens : Z; source : EstimateSource }.

Record UsageRecord := mkUsage {
  history_len : nat;
  input_total_tokens : Z;
  cache_read_tokens : Z;
  cache_write_tokens : Z;
  output_tokens : Z
}.

Record PruneConfig := mkPruneConfig { protected_tokens : Z; min_savings : Z }.

Inductive PruneDecision :=
| SkippedNoCandidates
| SkippedBelowMinSavings
| Fired (pruned_count : Z).

Record PruneEvaluation := mkEvaluation {
  candidate_count : Z;
  estimated_savings : Z;
  ev_protected_start : option nat;
  decision : PruneDecision
}.

Record SplitPoint := mkSplit { split_index : nat; split_source : EstimateSource }.

(** A cast [as u64], or an unchecked sum in [u64]. *)
Definition as_u64 (v : Z) : Z := v mod 2 ^ 64.

(** ** Omission of details *)

Definition default_protected_tokens : Z := 8000.

Definition default_min_savings : Z := 4096.

Definition default_config : PruneConfig :=
  mkPruneConfig default_protected_tokens default_min_savings.

(** The items [project] leaves and how many of them it changed. *)
Fixpoint project (items : list Item) (indices : list nat) : option (list Item * Z) :=
  match indices with
  | [] => Some (items, 0)
  | i :: rest =>
      match items !! i with
      | None => None
      | Some (ToolResult r) =>
          if has_details r then
            let r := with_attachments (with_content r None) [] in
            '(items, count) ← project (<[i := ToolResult r]> items) rest;
            Some (items, count + 1)
          else project items rest
      | Some _ => project items rest
      end
  end.

(** One round of the loop of [project_consumed_attachments]: the item it leaves, and
    whether it counts as changed. *)
Definition consume_attachments (latest_model_output : option nat) (index : nat) (item : Item)
  : Item * bool :=
  let is_fresh :=
    match latest_model_output with Some boundary => (boundary <? index)%nat | None => false end in
  if is_fresh then (item, false)
  else match item with
       | ToolResult r =>
           if negb (bool_decide (tr_attachments r = []))
           then (ToolResult (with_attachments r []), true) else (item, false)
       | _ => (item, false)
       end.

Definition project_consumed_attachments (items : list Item) : list Item * Z :=
  let latest_model_output := accepted_input_end items in
  let projected := imap (consume_attachments latest_model_output) items in
  (projected.*1, Z.of_nat (length (List.filter snd projected))).

(** The loop of [protected_start_index] over the indices [n - 1], ..., [0]. *)
Fixpoint protected_start_loop (n : nat) (protected total : Z)
    (estimates : list TokenEstimate) : option nat :=
  match n with
  | O => Some 0%nat
  | S i =>
      match estimates !! i with
      | None => None
      | Some prefix =>
          if bool_decide (source prefix = NoData) then None
          else let tail_tokens := saturating_sub_u64 total (tokens prefix) in
               if protected <=? tail_tokens then Some i
               else protected_start_loop i protected total estimates
      end
  end.

Definition protected_start_index (items : list Item) (protected : Z)
    (estimates : list TokenEstimate) : option nat :=
  if negb (length estimates =? length items + 1)%nat then None
  else match estimates !! length items with
       | None => None
       | Some total =>
           if bool_decide (source total = NoData) then None
           else if protected =? 0 then Some (length items)
           else protected_start_loop (length items) protected (tokens total) estimates
       end.

(** The positions, counted from [base], of the tool results with details. *)
Fixpoint detailed_from (base : nat) (items : list Item) : list nat :=
  match items with
  | [] => []
  | ToolResult r :: rest =>
      if has_details r then base :: detailed_from (S base) rest
      else detailed_from (S base) rest
  | _ :: rest => detailed_from (S base) rest
  end.

Definition evaluate_candidates (items : list Item) (protected : Z)
    (estimates : list TokenEstimate) : list nat * option nat :=
  match protected_start_index items protected estimates with
  | None => ([], None)
  | Some protected_start => (detailed_from 0 (take protected_start items), Some protected_start)
  end.

Definition prunable_indices (items : list Item) (protected : Z)
    (estimates : list TokenEstimate) : list nat :=
  fst (evaluate_candidates items protected estimates).

(** What the engine has configured: [prune_config], [token_estimator], [savings_estimator]. *)
Record Pruning := mkPruning {
  prune_config : option PruneConfig;
  token_estimator : option (list Item → option (list TokenEstimate));
  savings_estimator : option (list Item → list nat → option Z)
}.

(** The block of the engine's turn loop between cloning the history and the request
    interceptor: the request context and the evaluation handed to the observer. *)
Definition prepare_request (p : Pruning) (history : list Item)
  : option (list Item * option PruneEvaluation) :=
  let request_context := fst (project_consumed_attachments history) in
  match prune_config p, token_estimator p, savings_estimator p with
  | Some config, Some token_estimator, Some savings_estimator =>
      token_estimates ← token_estimator request_context;
      let '(candidates, protected_start) :=
        evaluate_candidates request_context (protected_tokens config) token_estimates in
      if bool_decide (candidates = []) then
        Some (request_context, Some (mkEvaluation 0 0 protected_start SkippedNoCandidates))
      else
        savings ← savings_estimator request_context candidates;
        let n := Z.of_nat (length candidates) in
        if min_savings config <=? savings then
          '(context, pruned) ← project request_context candidates;
          Some (context, Some (mkEvaluation n savings protected_start (Fired pruned)))
        else Some (request_context,
                   Some (mkEvaluation n savings protected_start SkippedBelowMinSavings))
  | _, _, _ => Some (request_context, None)
  end.

(** ** Token estimates *)

Section estimates.
(** [serde_json::to_string(item).len()], or 0 when serialization fails. *)
Context (json_len : Item → Z).

Definition item_bytes (item : Item) : Z :=
  json_len match item with
           | ToolResult r => ToolResult (with_attachments r [])
           | _ => item
           end.

(** The sums the loop of [prefix_bytes] pushes, from an accumulated [acc] on. *)
Fixpoint prefix_from (acc : Z) (items : list Item) : list Z :=
  match items with
  | [] => []
  | item :: rest =>
      let acc := saturating_add_u64 acc (item_bytes item) in acc :: prefix_from acc rest
  end.

Definition prefix_bytes (items : list Item) : list Z := 0 :: prefix_from 0 items.

Definition tokens_at (history : list Item) (records : list UsageRecord) (index : nat)
    (prefix : list Z) : option TokenEstimate :=
  if (index =? 0)%nat then Some (mkEstimate 0 Measured)
  else if bool_decide (length records = 0%nat) then
    b ← prefix !! index; Some (mkEstimate (b / 4) NoData)
  else
  match List.find (λ r, (history_len r =? index)%nat) (rev records) with
  | Some r => Some (mkEstimate (input_total_tokens r) Measured)
  | None =>
      let lower := List.find (λ r, (history_len r <? index)%nat) (rev records) in
      let upper := List.find (λ r, (index <? history_len r)%nat) records in
      let cap := length history in
      match lower, upper with
      | Some lo, Some up =>
          lo_bytes ← prefix !! (history_len lo `min` cap)%nat;
          up_bytes ← prefix !! (history_len up `min` cap)%nat;
          at_bytes ← prefix !! index;
          let span_bytes := saturating_sub_u64 up_bytes lo_bytes in
          let span_tokens :=
            saturating_sub_u64 (input_total_tokens up) (input_total_tokens lo) in
          if (span_bytes =? 0) || (span_tokens =? 0) then
            Some (mkEstimate (input_total_tokens lo) Interpolated)
          else
            let delta_bytes := saturating_sub_u64 at_bytes lo_bytes in
            let delta_tokens := as_u64 (delta_bytes * span_tokens / span_bytes) in
            Some (mkEstimate (as_u64 (input_total_tokens lo + delta_tokens)) Interpolated)
      | Some lo, None =>
          lo_bytes ← prefix !! (history_len lo `min` cap)%nat;
          at_bytes ← prefix !! index;
          let delta_bytes := saturating_sub_u64 at_bytes lo_bytes in
          Some (mkEstimate (saturating_add_u64 (input_total_tokens lo) (delta_bytes / 4))
                  Extrapolated)
      | None, Some up =>
          up_bytes ← prefix !! (history_len up `min` cap)%nat;
          at_bytes ← prefix !! index;
          if up_bytes =? 0 then Some (mkEstimate 0 Interpolated)
          else Some (mkEstimate (as_u64 (at_bytes * input_total_tokens up / up_bytes))
                       Interpolated)
      | None, None => None
      end
  end.

Definition total_tokens (history : list Item) (records : list UsageRecord)
  : option TokenEstimate :=
  tokens_at history records (length history) (prefix_bytes history).

Definition total_tokens_at (history : list Item) (records : list UsageRecord) (len : nat)
  : option TokenEstimate :=
  tokens_at history records (len `min` length history) (prefix_bytes history).

(** ** The compaction cut *)

Definition ceil_div_u128 (n d : Z) : Z := if n =? 0 then 0 else (n - 1) / d + 1.

(** The loop over the boundaries: [idx] is the next index, [cut] the last one kept. *)
Fixpoint cut_loop (total_bytes target : Z) (idx cut : nat) (prefix : list Z) : nat :=
  match prefix with
  | [] => cut
  | bytes_before :: rest =>
      let suffix_bytes := saturating_sub_u64 total_bytes bytes_before in
      if target <=? suffix_bytes then cut_loop total_bytes target (S idx) idx rest else cut
  end.

(** The bytes the retained tail must keep. *)
Definition target_retained_bytes (total_bytes total_tokens retained_tokens : Z) : Z :=
  let raw_fallback_tokens := as_u64 (ceil_div_u128 total_bytes 4) in
  let rate_tokens := Z.max total_tokens raw_fallback_tokens in
  as_u64 (Z.min (ceil_div_u128 (retained_tokens * total_bytes) rate_tokens) total_bytes).

Definition split_index_by_retained_bytes (prefix : list Z) (total_tokens retained_tokens : Z)
  : nat :=
  let len := (length prefix - 1)%nat in
  if (len =? 0)%nat then 0%nat
  else if retained_tokens =? 0 then len
  else
    let total_bytes := default 0 (last prefix) in
    if (total_bytes =? 0) || (total_tokens =? 0) then 0%nat
    else
      let target := target_retained_bytes total_bytes total_tokens retained_tokens in
      cut_loop total_bytes target 0 0 (take (len + 1) prefix).

(** The map from a call id to its position; a later call with the same id replaces an
    earlier one. *)
Fixpoint call_positions_from (base : nat) (positions : gmap string nat) (items : list Item)
  : gmap string nat :=
  match items with
  | [] => positions
  | ToolCall c :: rest => call_positions_from (S base) (<[tc_call_id c := base]> positions) rest
  | _ :: rest => call_positions_from (S base) positions rest
  end.

Definition call_positions (history : list Item) : gmap string nat :=
  call_positions_from 0 ∅ history.

(** The backward scan over the positions [k - 1], ..., [0]. *)
Fixpoint balance_loop (history : list Item) (positions : gmap string nat) (k idx : nat) : nat :=
  match k with
  | O => idx
  | S k =>
      let idx :=
        if (idx <=? k)%nat then
          match history !! k with
          | Some (ToolResult r) =>
              match positions !! tr_call_id r with
              | Some call_pos => if (call_pos <? idx)%nat then call_pos else idx
              | None => idx
              end
          | _ => idx
          end
        else idx in
      balance_loop history positions k idx
  end.

Definition balance_to_pair_boundary (history : list Item) (cut : nat) : nat :=
  let idx := (cut `min` length history)%nat in
  if (idx =? 0)%nat then 0%nat
  else balance_loop history (call_positions history) (length history) idx.

Definition split_for_retained_impl (history : list Item) (records : list UsageRecord)
    (retained : Z) : option SplitPoint :=
  let prefix := prefix_bytes history in
  current ← tokens_at history records (length history) prefix;
  if tokens current <=? retained then Some (mkSplit 0 (source current))
  else
    let cut_index := split_index_by_retained_bytes prefix (tokens current) retained in
    Some (mkSplit (balance_to_pair_boundary history cut_index) (source current)).

(** ** The worker's estimators *)

Definition tool_result_content_bytes (item : Item) : Z :=
  match item with
  | ToolResult r =>
      match tr_content r with
      | Some _ =>
          saturating_sub_u64 (item_bytes item) (item_bytes (ToolResult (with_content r None)))
      | None => 0
      end
  | _ => 0
  end.

Definition token_estimates_for_prune_impl (history : list Item) (records : list UsageRecord)
  : option (list TokenEstimate) :=
  let prefix := prefix_bytes history in
  mapM (λ idx, tokens_at history records idx prefix) (seq 0 (length history + 1)).

Definition savings_for_prune_impl (history : list Item) (records : list UsageRecord)
    (indices : list nat) : option TokenEstimate :=
  let removed_bytes :=
    as_u64 (foldr Z.add 0
              (tool_result_content_bytes <$> omap (λ i, history !! i) indices)) in
  if removed_bytes =? 0 then Some (mkEstimate 0 Measured)
  else match last records with
  | None => Some (mkEstimate (removed_bytes / 4) NoData)
  | Some last =>
      let prefix := prefix_bytes history in
      ref_bytes ← prefix !! (history_len last `min` length history)%nat;
      if (ref_bytes =? 0) || (input_total_tokens last =? 0) then
        Some (mkEstimate 0 Extrapolated)
      else
        let tokens := as_u64 (removed_bytes * input_total_tokens last / ref_bytes) in
        let source :=
          if (history_len last =? length history)%nat then Measured else Extrapolated in
        Some (mkEstimate tokens source)
  end.

(** [attach_prune]: the closures it installs, over the persisted and in-flight records. *)
Definition worker_savings (usage_history in_flight : list UsageRecord) (history : list Item)
    (indices : list nat) : option Z :=
  est ← savings_for_prune_impl history (usage_history ++ in_flight) indices;
  Some match source est with NoData => 0 | _ => tokens est end.

Definition attach_prune (config : PruneConfig) (usage_history in_flight : list UsageRecord)
  : Pruning :=
  mkPruning (Some config)
    (Some (λ history, token_estimates_for_prune_impl history (usage_history ++ in_flight)))
    (Some (worker_savings usage_history in_flight)).

End estimates.

(** ** What an estimate rests on *)

(** Counts in [u64]. *)
Definition records_ok (records : list UsageRecord) : Prop :=
  Forall (λ r, 0 ≤ input_total_tokens r ≤ U64_MAX) records.

(** An estimate for the first [index] items agrees with the measurements: a measured one is
    a measurement of exactly that prefix, an interpolated one lies between a measurement
    (or 0) below and a measurement above, an extrapolated one is at least the measurement
    below it and nothing above was measured, and there is no data only without records. *)
Definition justified (records : list UsageRecord) (index : nat) (e : TokenEstimate) : Prop :=
  match source e with
  | Measured =>
      (index = 0%nat ∧ tokens e = 0) ∨
      ∃ r, r ∈ records ∧ history_len r = index ∧ input_total_tokens r = tokens e
  | Interpolated =>
      ∃ low up, (low = 0 ∨ ∃ lo, lo ∈ records ∧ (history_len lo < index)%nat
                                 ∧ low = input_total_tokens lo)
        ∧ up ∈ records ∧ (index < history_len up)%nat
        ∧ low ≤ tokens e ≤ Z.max low (input_total_tokens up)
  | Extrapolated =>
      ∃ lo, lo ∈ records ∧ (history_len lo < index)%nat ∧ input_total_tokens lo ≤ tokens e
        ∧ Forall (λ r, (history_len r < index)%nat) records
  | NoData => records = [] ∧ index ≠ 0%nat
  end.

(** ** Byte counts and estimates: lemmas *)

Lemma mul_div_le d s t : 0 ≤ d ≤ s → 0 < s → 0 ≤ t → 0 ≤ d * t / s ≤ t.
Proof.
  intros. split; [apply Z.div_pos; nia|]. apply Z.div_le_upper_bound; nia.
Qed.

Lemma as_u64_id v : 0 ≤ v ≤ U64_MAX → as_u64 v = v.
Proof. intros. unfold as_u64. apply Z.mod_small. unfold U64_MAX in *. lia. Qed.

Lemma find_Some_elem {A} (f : A → bool) l x : List.find f l = Some x → x ∈ l ∧ f x = true.
Proof. intros [??]%find_some. by rewrite list_elem_of_In. Qed.

Lemma find_rev_Some {A} (f : A → bool) l x :
  List.find f (rev l) = Some x → x ∈ l ∧ f x = true.
Proof. intros [Hx ?]%find_some. by rewrite <- in_rev, <- list_elem_of_In in Hx. Qed.

Lemma find_None_Forall {A} (f : A → bool) l :
  List.find f l = None → Forall (λ x, f x = false) l.
Proof.
  intros H. apply Forall_forall. intros x Hx. eapply find_none; [done|].
  by apply list_elem_of_In.
Qed.

Lemma find_rev_None {A} (f : A → bool) l :
  List.find f (rev l) = None → Forall (λ x, f x = false) l.
Proof.
  intros H%find_None_Forall. apply Forall_forall. intros x Hx.
  rewrite Forall_forall in H. apply H. by rewrite list_elem_of_In, <- in_rev, <- list_elem_of_In.
Qed.

Section estimate_lemmas.
Context (json_len : Item → Z).
(** A string length is not negative. *)
Context (json_len_nonneg : ∀ i, 0 ≤ json_len i).

Lemma prefix_from_length acc items : length (prefix_from json_len acc items) = length items.
Proof. revert acc. induction items; intros; simpl; auto. Qed.

Lemma prefix_bytes_length items : length (prefix_bytes json_len items) = S (length items).
Proof. simpl. by rewrite prefix_from_length. Qed.

Lemma prefix_lookup_some items i :
  (i ≤ length items)%nat → is_Some (prefix_bytes json_len items !! i).
Proof. intros. apply lookup_lt_is_Some. rewrite prefix_bytes_length. lia. Qed.

Lemma prefix_from_range items : ∀ acc i b,
  0 ≤ acc ≤ U64_MAX → (acc :: prefix_from json_len acc items) !! i = Some b →
  acc ≤ b ≤ U64_MAX.
Proof.
  induction items as [|item rest IH]; intros acc [|i] b Hacc; simpl.
  1,3: intros [= <-]; lia.
  { done. }
  intros Hb.
  assert (acc ≤ saturating_add_u64 acc (item_bytes json_len item) ≤ U64_MAX).
  { unfold saturating_add_u64, item_bytes.
    pose proof (json_len_nonneg match item with
      | ToolResult r => ToolResult (with_attachments r []) | _ => item end). lia. }
  destruct (IH (saturating_add_u64 acc (item_bytes json_len item)) i b); [lia| |lia].
  done.
Qed.

Lemma prefix_mono items i j a b :
  prefix_bytes json_len items !! i = Some a → prefix_bytes json_len items !! j = Some b →
  (i ≤ j)%nat → 0 ≤ a ≤ b ∧ b ≤ U64_MAX.
Proof.
  unfold prefix_bytes.
  assert (H : ∀ acc, 0 ≤ acc ≤ U64_MAX → (i ≤ j)%nat →
    (acc :: prefix_from json_len acc items) !! i = Some a →
    (acc :: prefix_from json_len acc items) !! j = Some b → acc ≤ a ≤ b ∧ b ≤ U64_MAX).
  2: { intros. apply (H 0); unfold U64_MAX; done. }
  revert i j. induction items as [|item rest IH]; intros [|i] [|j] acc Hacc Hij; simpl;
    try lia; try done.
  - intros [= <-] [= <-]. lia.
  - intros [= <-] [= <-]. lia.
  - intros [= <-] Hb.
    pose proof (prefix_from_range (item :: rest) acc (S j) b Hacc Hb). lia.
  - intros Ha Hb.
    assert (acc ≤ saturating_add_u64 acc (item_bytes json_len item) ≤ U64_MAX).
    { exact (prefix_from_range (item :: rest) acc 1 _ Hacc eq_refl). }
    destruct (IH i j (saturating_add_u64 acc (item_bytes json_len item))); [lia..|done|done|].
    lia.
Qed.

Lemma interpolate_between lo_b at_b up_b lo up :
  0 ≤ lo_b ≤ at_b → at_b ≤ up_b → lo_b < up_b → 0 ≤ lo ≤ up → up ≤ U64_MAX →
  lo ≤ as_u64 (lo + as_u64 (saturating_sub_u64 at_b lo_b * saturating_sub_u64 up lo
                            / saturating_sub_u64 up_b lo_b)) ≤ up.
Proof.
  intros. unfold saturating_sub_u64. rewrite !Z.max_l by lia.
  destruct (mul_div_le (at_b - lo_b) (up_b - lo_b) (up - lo)); [lia..|].
  rewrite (as_u64_id (_ / _)) by lia. rewrite as_u64_id by lia. lia.
Qed.

Lemma interpolated_at history records index at_b lo up :
  (∀ r, r ∈ records → 0 ≤ input_total_tokens r ≤ U64_MAX) → (index ≤ length history)%nat →
  prefix_bytes json_len history !! index = Some at_b → lo ∈ records → up ∈ records →
  (history_len lo < index)%nat → (index < history_len up)%nat →
  ∃ e, (lo_bytes ← prefix_bytes json_len history !! (history_len lo `min` length history)%nat;
        up_bytes ← prefix_bytes json_len history !! (history_len up `min` length history)%nat;
        at_bytes ← prefix_bytes json_len history !! index;
        let span_bytes := saturating_sub_u64 up_bytes lo_bytes in
        let span_tokens :=
          saturating_sub_u64 (input_total_tokens up) (input_total_tokens lo) in
        if (span_bytes =? 0) || (span_tokens =? 0) then
          Some (mkEstimate (input_total_tokens lo) Interpolated)
        else
          Some (mkEstimate (as_u64 (input_total_tokens lo
            + as_u64 (saturating_sub_u64 at_bytes lo_bytes * span_tokens / span_bytes)))
              Interpolated)) = Some e
    ∧ justified records index e ∧ 0 ≤ tokens e ≤ U64_MAX.
Proof.
  intros Hin Hindex Hat Hlo Hup Hlt Hgt.
  destruct (prefix_lookup_some history (history_len lo `min` length history)) as [lo_b Hlob];
    [lia|].
  destruct (prefix_lookup_some history (history_len up `min` length history)) as [up_b Hupb];
    [lia|].
  destruct (prefix_mono history _ _ lo_b at_b Hlob Hat ltac:(lia)).
  destruct (prefix_mono history _ _ at_b up_b Hat Hupb ltac:(lia)).
  pose proof (Hin lo Hlo). pose proof (Hin up Hup).
  rewrite Hlob, Hupb, Hat. simpl.
  destruct (Z.eqb_spec (saturating_sub_u64 up_b lo_b) 0) as [|Hsb];
    [|destruct (Z.eqb_spec (saturating_sub_u64 (input_total_tokens up)
                              (input_total_tokens lo)) 0) as [|Hst]]; simpl;
    (eexists; split; [done|]; unfold justified; simpl).
  1,2: split; [|lia]; exists (input_total_tokens lo), up; eauto 10 with lia.
  unfold saturating_sub_u64 in Hsb, Hst.
  pose proof (interpolate_between lo_b at_b up_b (input_total_tokens lo)
                (input_total_tokens up) ltac:(lia) ltac:(lia) ltac:(lia) ltac:(lia) ltac:(lia)).
  split; [|lia]. exists (input_total_tokens lo), up. eauto 10 with lia.
Qed.

Lemma extrapolated_at history records index at_b lo :
  (∀ r, r ∈ records → 0 ≤ input_total_tokens r ≤ U64_MAX) → (index ≤ length history)%nat →
  prefix_bytes json_len history !! index = Some at_b → lo ∈ records →
  (history_len lo < index)%nat →
  Forall (λ r, (history_len r =? index)%nat = false) records →
  Forall (λ r, (index <? history_len r)%nat = false) records →
  ∃ e, (lo_bytes ← prefix_bytes json_len history !! (history_len lo `min` length history)%nat;
        at_bytes ← prefix_bytes json_len history !! index;
        Some (mkEstimate (saturating_add_u64 (input_total_tokens lo)
                (saturating_sub_u64 at_bytes lo_bytes / 4)) Extrapolated)) = Some e
    ∧ justified records index e ∧ 0 ≤ tokens e ≤ U64_MAX.
Proof.
  intros Hin Hindex Hat Hlo Hlt Hexact Hup.
  destruct (prefix_lookup_some history (history_len lo `min` length history)) as [lo_b Hlob];
    [lia|].
  destruct (prefix_mono history _ _ lo_b at_b Hlob Hat ltac:(lia)).
  pose proof (Hin lo Hlo). rewrite Hlob, Hat. simpl.
  eexists; split; [done|]. unfold justified; simpl.
  pose proof (Z.div_pos (saturating_sub_u64 at_b lo_b) 4).
  unfold saturating_add_u64, saturating_sub_u64 in *. split; [|lia].
  exists lo. split_and!; [done..|lia|].
  rewrite Forall_forall in Hexact, Hup |- *. intros r Hr.
  specialize (Hexact r Hr). specialize (Hup r Hr).
  apply Nat.eqb_neq in Hexact. apply Nat.ltb_ge in Hup. lia.
Qed.

Lemma proportional_at history records index at_b up :
  (∀ r, r ∈ records → 0 ≤ input_total_tokens r ≤ U64_MAX) → (index ≤ length history)%nat →
  prefix_bytes json_len history !! index = Some at_b → up ∈ records →
  (index < history_len up)%nat →
  ∃ e, (up_bytes ← prefix_bytes json_len history !! (history_len up `min` length history)%nat;
        at_bytes ← prefix_bytes json_len history !! index;
        if up_bytes =? 0 then Some (mkEstimate 0 Interpolated)
        else Some (mkEstimate (as_u64 (at_bytes * input_total_tokens up / up_bytes))
                     Interpolated)) = Some e
    ∧ justified records index e ∧ 0 ≤ tokens e ≤ U64_MAX.
Proof.
  intros Hin Hindex Hat Hup Hgt.
  destruct (prefix_lookup_some history (history_len up `min` length history)) as [up_b Hupb];
    [lia|].
  destruct (prefix_mono history _ _ at_b up_b Hat Hupb ltac:(lia)).
  pose proof (Hin up Hup). rewrite Hupb, Hat. simpl.
  destruct (Z.eqb_spec up_b 0); (eexists; split; [done|]; unfold justified; simpl).
  { split; [|unfold U64_MAX; lia]. exists 0, up. eauto 10 with lia. }
  destruct (mul_div_le at_b up_b (input_total_tokens up)); [lia..|].
  rewrite as_u64_id by lia. split; [|lia]. exists 0, up. eauto 10 with lia.
Qed.

Lemma tokens_at_justified history records index :
  records_ok records → (index ≤ length history)%nat →
  ∃ e, tokens_at history records index (prefix_bytes json_len history) = Some e
    ∧ justified records index e ∧ 0 ≤ tokens e ≤ U64_MAX.
Proof.
  intros Hrec Hindex. unfold tokens_at, justified.
  destruct (Nat.eqb_spec index 0) as [->|Hne].
  { eexists; split; [done|]. simpl. unfold U64_MAX. split; [by left|lia]. }
  destruct (prefix_lookup_some history index Hindex) as [at_b Hat].
  pose proof (prefix_mono history index index at_b at_b Hat Hat (le_n _)).
  case_bool_decide as Hnil.
  { apply length_zero_iff_nil in Hnil as ->. rewrite Hat. eexists; split; [done|]. simpl.
    pose proof (Z.div_le_upper_bound at_b 4 U64_MAX).
    pose proof (Z.div_pos at_b 4). unfold U64_MAX in *. repeat split; try done; lia. }
  assert (Hin : ∀ r, r ∈ records → 0 ≤ input_total_tokens r ≤ U64_MAX)
    by (by apply Forall_forall).
  destruct (List.find _ (rev records)) as [r|] eqn:Hexact.
  { apply find_rev_Some in Hexact as [Hr ?%Nat.eqb_eq]. eexists; split; [done|]. simpl.
    split; [right; eauto|by apply Hin]. }
  apply find_rev_None in Hexact.
  destruct (List.find _ (rev records)) as [lo|] eqn:Hlo,
    (List.find _ records) as [up|] eqn:Hup.
  - apply find_rev_Some in Hlo as [Hlo Hlt%Nat.ltb_lt].
    apply find_Some_elem in Hup as [Hup Hgt%Nat.ltb_lt].
    by apply (interpolated_at history records index at_b lo up).
  - apply find_rev_Some in Hlo as [Hlo Hlt%Nat.ltb_lt]. apply find_None_Forall in Hup.
    by apply (extrapolated_at history records index at_b lo).
  - apply find_Some_elem in Hup as [Hup Hgt%Nat.ltb_lt].
    by apply (proportional_at history records index at_b up).
  - apply find_rev_None in Hlo. apply find_None_Forall in Hup.
    destruct records as [|r ?]; [done|]. inversion_clear Hexact as [|?? He%Nat.eqb_neq].
    inversion_clear Hlo as [|?? Hl%Nat.ltb_ge]. inversion_clear Hup as [|?? Hu%Nat.ltb_ge]. lia.
Qed.

End estimate_lemmas.

(** ** The compaction cut: lemmas *)

Lemma ceil_div_bounds n d : 0 ≤ n → 0 < d →
  0 ≤ ceil_div_u128 n d ∧ n ≤ ceil_div_u128 n d * d ∧ (0 < n → (ceil_div_u128 n d - 1) * d < n).
Proof.
  intros. unfold ceil_div_u128. destruct (Z.eqb_spec n 0); [lia|].
  pose proof (Z.div_mod (n - 1) d). pose proof (Z.mod_pos_bound (n - 1) d).
  pose proof (Z.div_pos (n - 1) d). nia.
Qed.

(** The least number of bytes worth [retained] tokens at the rate of the whole history. *)
Lemma target_bounds total total_tokens retained :
  0 < total ≤ U64_MAX → 0 < retained < total_tokens →
  let rate := Z.max total_tokens (ceil_div_u128 total 4) in
  let target := target_retained_bytes total total_tokens retained in
  0 ≤ target ≤ total ∧ retained * total ≤ target * rate
  ∧ (target - 1) * rate < retained * total.
Proof.
  intros Ht Hr rate target.
  destruct (ceil_div_bounds total 4) as (H1 & H2 & H3); [lia..|]. specialize (H3 ltac:(lia)).
  assert (Hrate : Z.max total_tokens (as_u64 (ceil_div_u128 total 4)) = rate).
  { unfold rate. by rewrite as_u64_id by lia. }
  destruct (ceil_div_bounds (retained * total) rate) as (H4 & H5 & H6); [nia|lia|].
  specialize (H6 ltac:(nia)).
  assert (Htarget : target = Z.min (ceil_div_u128 (retained * total) rate) total).
  { unfold target, target_retained_bytes. rewrite Hrate, as_u64_id; [done|lia]. }
  clearbody target. subst target. destruct (Z.min_spec (ceil_div_u128 (retained * total) rate) total)
    as [[? ->]|[? ->]]; nia.
Qed.

Lemma cut_loop_spec total target l : ∀ k b0,
  target ≤ saturating_sub_u64 total b0 →
  ∃ j b, cut_loop total target (S k) k l = (k + j)%nat ∧ (b0 :: l) !! j = Some b
    ∧ target ≤ saturating_sub_u64 total b
    ∧ ∀ b', l !! j = Some b' → saturating_sub_u64 total b' < target.
Proof.
  induction l as [|b1 l IH]; intros k b0 H0; simpl.
  { exists 0%nat, b0. rewrite Nat.add_0_r. done. }
  destruct (Z.leb_spec target (saturating_sub_u64 total b1)) as [H1|H1].
  - destruct (IH (S k) b1 H1) as (j & b & -> & Hj & Hb & Hnext).
    exists (S j), b. split_and!; [lia|done..].
  - exists 0%nat, b0. rewrite Nat.add_0_r. split_and!; [done..|]. by intros ? [= <-].
Qed.

Lemma balance_loop_le history positions k : ∀ idx,
  (balance_loop history positions k idx ≤ idx)%nat.
Proof.
  induction k as [|k IH]; intros idx; cbn [balance_loop]; [lia|]. etrans; [apply IH|].
  destruct (Nat.leb_spec idx k); [|lia]. destruct (history !! k) as [[]|]; try lia.
  destruct (positions !! _) as [q|]; [destruct (Nat.ltb_spec q idx)|]; lia.
Qed.

Lemma balance_loop_above history positions k : ∀ idx,
  (k ≤ idx)%nat → balance_loop history positions k idx = idx.
Proof.
  induction k as [|k IH]; intros idx Hk; cbn [balance_loop]; [done|].
  destruct (Nat.leb_spec idx k); [lia|]. apply IH. lia.
Qed.

(** Every retained result's call position is retained. *)
Lemma balance_loop_pairs history positions k : ∀ idx j r p,
  (j < k)%nat → (balance_loop history positions k idx ≤ j)%nat →
  history !! j = Some (ToolResult r) → positions !! tr_call_id r = Some p →
  (balance_loop history positions k idx ≤ p)%nat.
Proof.
  induction k as [|k IH]; intros idx j r p Hjk Hle Hj Hp; [lia|]. cbn [balance_loop] in *.
  destruct (decide (j = k)) as [->|Hne]; [|eapply (IH _ j r); [lia|done..]].
  rewrite Hj in *. rewrite Hp in *. destruct (Nat.leb_spec idx k) as [Hik|Hik].
  - etrans; [apply balance_loop_le|]. destruct (Nat.ltb_spec p idx); lia.
  - rewrite balance_loop_above in Hle by lia. lia.
Qed.

Lemma call_positions_from_mono items : ∀ base m id,
  is_Some (m !! id) → is_Some (call_positions_from base m items !! id).
Proof.
  induction items as [|[ | |c| |] items IH]; intros base m' id Hm; simpl; auto.
  apply IH. rewrite lookup_insert_is_Some. destruct (decide (tc_call_id c = id)); auto.
Qed.

Lemma call_positions_from_complete items : ∀ base m j c,
  items !! j = Some (ToolCall c) →
  is_Some (call_positions_from base m items !! tc_call_id c).
Proof.
  induction items as [|i items IH]; intros base m [|j] c Hj; simplify_eq/=; [|destruct i; eauto].
  apply call_positions_from_mono. rewrite lookup_insert_is_Some. by left.
Qed.

Lemma call_positions_from_sound items : ∀ base m id p,
  call_positions_from base m items !! id = Some p →
  m !! id = Some p
  ∨ ∃ j c, p = (base + j)%nat ∧ items !! j = Some (ToolCall c) ∧ tc_call_id c = id.
Proof.
  induction items as [|i items IH]; intros base m id p Hp; simpl in Hp; [by left|].
  assert (Hstep : ∀ m', call_positions_from (S base) m' items !! id = Some p →
    m' !! id = Some p ∨ ∃ j c, p = (base + j)%nat ∧ (i :: items) !! j = Some (ToolCall c)
                             ∧ tc_call_id c = id).
  { intros m' [?|(j & c & -> & ? & ?)]%IH; [by left|]. right. exists (S j), c.
    split_and!; [lia|done..]. }
  destruct i as [| |c| |]; auto. destruct (Hstep _ Hp) as [Hi|]; [|by right].
  rewrite lookup_insert_Some in Hi. destruct Hi as [[<- <-]|[_ ?]]; [|by left].
  right. exists 0%nat, c. split_and!; [lia|done..].
Qed.

Lemma balance_le history cut :
  (balance_to_pair_boundary history cut ≤ cut `min` length history)%nat.
Proof.
  unfold balance_to_pair_boundary. destruct (Nat.eqb_spec (cut `min` length history) 0); [lia|].
  apply balance_loop_le.
Qed.

Lemma balance_keeps_pairs history cut k r p c :
  (balance_to_pair_boundary history cut ≤ k)%nat →
  history !! k = Some (ToolResult r) → history !! p = Some (ToolCall c) →
  tc_call_id c = tr_call_id r →
  ∃ p' c', (balance_to_pair_boundary history cut ≤ p')%nat
    ∧ history !! p' = Some (ToolCall c') ∧ tc_call_id c' = tr_call_id r.
Proof.
  unfold balance_to_pair_boundary. intros Hle Hk Hp Hid.
  destruct (Nat.eqb_spec (cut `min` length history) 0) as [E|E].
  { exists p, c. split_and!; [lia|done..]. }
  destruct (call_positions_from_complete history 0 ∅ p c Hp) as [q Hq].
  rewrite Hid in Hq. pose proof Hq as Hq'.
  apply call_positions_from_sound in Hq as [?|(j & c' & -> & Hj & Hc')];
    [by rewrite lookup_empty in *|].
  exists j, c'. split_and!; [|done..].
  eapply (balance_loop_pairs _ _ _ _ k r); [by eapply lookup_lt_Some|done..].
Qed.

(** ** Omission of details: lemmas *)

(** An item without its details. *)
Definition omit (item : Item) : Item :=
  match item with
  | ToolResult r => ToolResult (with_attachments (with_content r None) [])
  | _ => item
  end.

Definition detailed (item : Item) : Prop :=
  match item with ToolResult r => has_details r = true | _ => False end.

Lemma omit_not_detailed item : ¬ detailed item → omit item = item.
Proof.
  destruct item as [| | |[id c s content d e att]|]; try done. simpl. unfold has_details. simpl.
  rewrite orb_true_iff, negb_true_iff, bool_decide_eq_true, bool_decide_eq_false.
  intros H. destruct content as [t|]; [exfalso; eauto|].
  destruct (decide (att = [])) as [->|]; [done|exfalso; eauto].
Qed.

Lemma omit_consume b i item : omit (fst (consume_attachments b i item)) = omit item.
Proof.
  unfold consume_attachments. case_match; [done|]. destruct item as [| | |r|]; try done.
  by destruct (negb _).
Qed.

Lemma protected_start_loop_spec protected total estimates n : ∀ s,
  protected_start_loop n protected total estimates = Some s →
  (s ≤ n)%nat
  ∧ (s = 0%nat ∨ ∃ e, estimates !! s = Some e ∧ protected ≤ saturating_sub_u64 total (tokens e))
  ∧ ∀ j e, (s < j < n)%nat → estimates !! j = Some e →
           saturating_sub_u64 total (tokens e) < protected.
Proof.
  induction n as [|n IH]; intros s; cbn [protected_start_loop].
  { intros [= <-]. split_and!; [lia|by left|lia]. }
  destruct (estimates !! n) as [e|] eqn:He; [|done]. case_bool_decide; [done|].
  destruct (Z.leb_spec protected (saturating_sub_u64 total (tokens e))) as [Hle|Hlt].
  { intros [= <-]. split_and!; [lia|eauto|lia]. }
  intros (Hs & Hor & Hbelow)%IH. split_and!; [lia|done|]. intros j e' Hj He'.
  destruct (decide (j = n)) as [->|]; [by simplify_eq|]. apply (Hbelow j); [lia|done].
Qed.

Lemma elem_of_detailed_from items : ∀ base i,
  i ∈ detailed_from base items ↔
  ∃ j item, i = (base + j)%nat ∧ items !! j = Some item ∧ detailed item.
Proof.
  induction items as [|item items IH]; intros base i.
  { simpl. rewrite elem_of_nil. split; [done|]. by intros (j & ? & ? & ? & ?). }
  assert (Hs : (∃ j item', i = (base + j)%nat ∧ (item :: items) !! j = Some item'
                           ∧ detailed item')
             ↔ (i = base ∧ detailed item) ∨ i ∈ detailed_from (S base) items).
  { rewrite IH. split.
    - intros ([|j] & item' & -> & Hj & Hd); simplify_eq/=; [left; split; [lia|done]|].
      right. exists j, item'. split_and!; [lia|done..].
    - intros [[-> ?]|(j & item' & -> & ? & ?)]; [exists 0%nat, item|exists (S j), item'];
        (split_and!; [lia|done..]). }
  rewrite Hs. clear IH Hs. destruct item as [| | |r|]; simpl; [tauto..| |tauto].
  destruct (has_details r); [rewrite elem_of_cons|]; intuition congruence.
Qed.

Lemma NoDup_detailed_from items : ∀ base, NoDup (detailed_from base items).
Proof.
  induction items as [|[| | |r|] items IH]; intros base; simpl; auto using NoDup_nil_2.
  destruct (has_details r); auto. apply NoDup_cons_2; auto.
  rewrite elem_of_detailed_from. intros (j & ? & ? & _). lia.
Qed.

Lemma project_spec indices : ∀ items,
  NoDup indices →
  (∀ i, i ∈ indices → ∃ item, items !! i = Some item ∧ detailed item) →
  project items indices =
    Some (imap (λ i item, if decide (i ∈ indices) then omit item else item) items,
          Z.of_nat (length indices)).
Proof.
  induction indices as [|k rest IH]; intros items Hnd Hd; cbn [project].
  { f_equal. f_equal. apply list_eq. intros i. rewrite list_lookup_imap.
    by destruct (items !! i). }
  apply NoDup_cons in Hnd as [Hk Hnd].
  destruct (Hd k) as (item & Hitem & Hdet); [set_solver|]. rewrite Hitem.
  destruct item as [| | |r|]; try done. simpl in Hdet. rewrite Hdet.
  rewrite IH; [|done|].
  2: { intros i Hi. rewrite list_lookup_insert_ne by (intros <-; done). apply Hd. set_solver. }
  simpl. f_equal. f_equal; [|lia]. apply list_eq. intros i. rewrite !list_lookup_imap.
  destruct (decide (i = k)) as [->|Hne].
  - rewrite list_lookup_insert_eq by (by eapply lookup_lt_Some). rewrite Hitem. simpl.
    rewrite decide_False by done. by rewrite decide_True by set_solver.
  - rewrite list_lookup_insert_ne by done. destruct (items !! i); [|done]. simpl. f_equal.
    destruct (decide (i ∈ rest)); [rewrite decide_True by set_solver
                                  |rewrite decide_False by set_solver]; done.
Qed.

Lemma consumed_eq history :
  fst (project_consumed_attachments history)
  = imap (λ i item, fst (consume_attachments (accepted_input_end history) i item)) history.
Proof.
  simpl. apply list_eq. intros i. rewrite list_lookup_fmap, !list_lookup_imap.
  by destruct (history !! i).
Qed.

Lemma imap_ext_lookup {A B} (f g : nat → A → B) l :
  (∀ i x, l !! i = Some x → f i x = g i x) → imap f l = imap g l.
Proof.
  intros H. apply list_eq. intros i. rewrite !list_lookup_imap.
  destruct (l !! i) eqn:E; [simpl; f_equal; auto|done].
Qed.

Lemma project_candidates items s :
  (s ≤ length items)%nat →
  project items (detailed_from 0 (take s items))
  = Some (imap (λ i item, if (i <? s)%nat then omit item else item) items,
          Z.of_nat (length (detailed_from 0 (take s items)))).
Proof.
  intros Hs. rewrite project_spec; [|apply NoDup_detailed_from|].
  2: { intros i (j & item & -> & Hj & Hd)%elem_of_detailed_from. exists item.
       apply lookup_take_Some in Hj as [Hj _]. done. }
  f_equal. f_equal. apply imap_ext_lookup. intros i item Hi.
  destruct (decide (i ∈ _)) as [Hin|Hin].
  - apply elem_of_detailed_from in Hin as (j & ? & -> & Hj & _).
    apply lookup_take_Some in Hj as [_ Hj]. simpl. by apply Nat.ltb_lt in Hj as ->.
  - destruct (Nat.ltb_spec i s) as [Hlt|]; [|done]. rewrite omit_not_detailed; [done|].
    intros Hd. apply Hin. apply elem_of_detailed_from. exists i, item.
    split_and!; [done| |done]. by apply lookup_take_Some.
Qed.

Lemma protected_start_bound items protected estimates s :
  protected_start_index items protected estimates = Some s → (s ≤ length items)%nat.
Proof.
  unfold protected_start_index. destruct (negb _); [done|].
  destruct (estimates !! _); [|done]. case_bool_decide; [done|].
  destruct (protected =? 0); [by intros [= <-]|]. by intros [? _]%protected_start_loop_spec.
Qed.

Lemma estimates_total json_len history records :
  (∀ i, 0 ≤ json_len i) → records_ok records →
  is_Some (token_estimates_for_prune_impl json_len history records).
Proof.
  intros Hj Hr. unfold token_estimates_for_prune_impl. apply mapM_is_Some.
  apply Forall_forall. intros i Hi%elem_of_seq.
  destruct (tokens_at_justified json_len Hj history records i) as (e & He & _);
    [done|lia|]. exists e. exact He.
Qed.

Lemma savings_total json_len history records indices :
  is_Some (savings_for_prune_impl json_len history records indices).
Proof.
  unfold savings_for_prune_impl. destruct (as_u64 _ =? 0); [eauto|].
  destruct (last records) as [l|]; [|eauto].
  destruct (prefix_lookup_some json_len history (history_len l `min` length history)) as [b ->];
    [lia|]. simpl. destruct (_ || _); eauto.
Qed.

(** The unbalanced cut is the last boundary whose tail reaches the target. *)
Lemma split_index_spec json_len history total_tokens retained total :
  (∀ i, 0 ≤ json_len i) → last (prefix_bytes json_len history) = Some total →
  0 < retained < total_tokens → 0 < total →
  let rate := Z.max total_tokens (ceil_div_u128 total 4) in
  let cut := split_index_by_retained_bytes (prefix_bytes json_len history)
               total_tokens retained in
  ∃ b, prefix_bytes json_len history !! cut = Some b
    ∧ retained * total ≤ (total - b) * rate
    ∧ ∀ j b', (cut < j)%nat → prefix_bytes json_len history !! j = Some b' →
              (total - b') * rate < retained * total.
Proof.
  intros Hj Hlast Hr Htotal rate cut. pose proof Hlast as Hlk.
  rewrite last_lookup, prefix_bytes_length in Hlk. simpl in Hlk.
  destruct (target_bounds total total_tokens retained) as (Ht & Hlow & Hhigh); [|done|].
  { by destruct (prefix_mono json_len Hj history _ _ total total Hlk Hlk (le_n _)). }
  fold rate in Hlow, Hhigh.
  set (target := target_retained_bytes total total_tokens retained) in *.
  assert (H0 : target ≤ saturating_sub_u64 total 0) by (unfold saturating_sub_u64; lia).
  assert (Hcut : cut = cut_loop total target 1 0 (prefix_from json_len 0 history)).
  { unfold cut, split_index_by_retained_bytes. rewrite prefix_bytes_length, Hlast.
    cbn [default from_option].
    destruct (Nat.eqb_spec (S (length history) - 1) 0) as [E|E].
    { destruct history; [|simpl in E; lia]. simpl in Hlast. simplify_eq. lia. }
    rewrite (proj2 (Z.eqb_neq retained 0)) by lia. unfold id.
    rewrite (proj2 (Z.eqb_neq total 0)), (proj2 (Z.eqb_neq total_tokens 0)) by lia.
    cbn [orb]. rewrite take_ge by (rewrite prefix_bytes_length; lia).
    unfold prefix_bytes. cbn [cut_loop]. fold target. by rewrite (proj2 (Z.leb_le _ _) H0). }
  clearbody cut. subst cut.
  destruct (cut_loop_spec total target (prefix_from json_len 0 history) 0 0 H0)
    as (k & b & -> & Hb & Hok & Hnext).
  assert (Hmono : ∀ i i' a a', prefix_bytes json_len history !! i = Some a →
    prefix_bytes json_len history !! i' = Some a' → (i ≤ i')%nat → 0 ≤ a ≤ a')
    by (intros; by edestruct (prefix_mono json_len Hj history i i' a a')).
  exists b. split_and!; [done| |].
  - unfold saturating_sub_u64 in Hok. nia.
  - intros j b' Hlt Hb'.
    destruct (lookup_lt_is_Some_2 (prefix_bytes json_len history) (S k)) as [b1 Hb1].
    { apply lookup_lt_Some in Hb'. simpl in Hlt. lia. }
    specialize (Hnext b1 Hb1). unfold saturating_sub_u64 in Hnext.
    specialize (Hmono (S k) j b1 b' Hb1 Hb' ltac:(simpl in Hlt; lia)). nia.
Qed.

(** ** Properties *)

(** An example history: two tool rounds, the second result still unread by the model. *)
Definition user_text (t : string) : Item := Message (mkMessage None User [Text t] None).

Definition example_call (id : string) : Item :=
  ToolCall (mkToolCall None id "Read" "{}" None None None).

Definition example_result (id content : string) : Item :=
  ToolResult (mkToolResult None id "ok" (Some content) Success false
                [Image (mkImageAttachment "image/png" "....")]).

Definition example_history : list Item :=
  [user_text "look"; example_call "a"; example_result "a" "a long listing of a directory";
   example_call "b"; example_call "c"; example_result "b" "some text"; example_result "c" "more"].

Definition example_len (i : Item) : Z :=
  match i with
  | Message m => 40
  | ToolCall c => 60
  | ToolResult r => 30 + match tr_content r with
                         | Some t => Z.of_nat (String.length t) | None => 0 end
  | _ => 20
  end.

Definition example_records : list UsageRecord :=
  [mkUsage 1 100 0 0 0; mkUsage 3 260 0 0 0].

Lemma example_len_nonneg i : 0 ≤ example_len i.
Proof. destruct i as [| | |r|]; simpl; try lia. destruct (tr_content r); lia. Qed.

Lemma example_records_ok : records_ok example_records.
Proof. repeat constructor; unfold U64_MAX; simpl; lia. Qed.

(** Token estimates: [tokens_at] returns for every prefix of a history whatever the
    usage records, its [unreachable!] arm and its indexing cannot fail, the estimate fits
    [u64] without wrapping, and it agrees with the measurements: a measured estimate is a
    measurement of exactly that prefix, an interpolated one lies between the neighbouring
    measurements, an extrapolated one starts from the measurement below. *)
Theorem estimates_justified (json_len : Item → Z) (history : list Item)
    (records : list UsageRecord) (index : nat) :
  (∀ i, 0 ≤ json_len i) → records_ok records → (index ≤ length history)%nat →
  ∃ e, tokens_at history records index (prefix_bytes json_len history) = Some e
    ∧ justified records index e ∧ 0 ≤ tokens e ≤ U64_MAX.
Proof. intros Hj. by apply tokens_at_justified. Qed.

Lemma estimates_justified_witness :
  ∃ e, tokens_at example_history example_records 2 (prefix_bytes example_len example_history)
       = Some e ∧ justified example_records 2 e ∧ 0 ≤ tokens e ≤ U64_MAX.
Proof.
  apply (estimates_justified example_len example_history example_records 2
           example_len_nonneg example_records_ok). simpl. lia.
Defined.

(** Preparing a request never panics with the estimators the worker installs: for every
    configuration, history and persisted and in-flight usage records the engine obtains a
    request context and an evaluation. *)
Theorem worker_request_never_panics (json_len : Item → Z) (config : PruneConfig)
    (usage_history in_flight : list UsageRecord) (history : list Item) :
  (∀ i, 0 ≤ json_len i) → records_ok (usage_history ++ in_flight) →
  ∃ context evaluation,
    prepare_request (attach_prune json_len config usage_history in_flight) history
    = Some (context, Some evaluation).
Proof.
  intros Hj Hr. unfold prepare_request, attach_prune, worker_savings.
  cbn [prune_config token_estimator savings_estimator].
  generalize (fst (project_consumed_attachments history)). intros ctx.
  destruct (estimates_total json_len ctx _ Hj Hr) as [est ->]. cbn [mbind option_bind].
  unfold evaluate_candidates.
  destruct (protected_start_index _ _ est) as [s|] eqn:Hs; [|simpl; eauto].
  apply protected_start_bound in Hs. case_bool_decide; [eauto|].
  destruct (savings_total json_len ctx (usage_history ++ in_flight)
              (detailed_from 0 (take s ctx))) as [sav ->]. cbn [mbind option_bind].
  rewrite project_candidates by done. cbn [mbind option_bind].
  destruct (_ <=? _); eauto.
Qed.

Lemma worker_request_never_panics_witness :
  ∃ context evaluation,
    prepare_request (attach_prune example_len (mkPruneConfig 50 1) example_records [])
      example_history = Some (context, Some evaluation).
Proof.
  apply (worker_request_never_panics example_len (mkPruneConfig 50 1) example_records []
           example_history example_len_nonneg). exact example_records_ok.
Defined.

(** The protected tail: the candidates for omission are exactly the tool results with
    details before the protected start; the tail from there on is worth at least the
    protected budget, unless it is the whole history, and no shorter tail is; and the
    boundary is only found when the whole history has an estimate. *)
Theorem prune_protects_tail (items : list Item) (protected : Z)
    (estimates : list TokenEstimate) (candidates : list nat) (s : nat) :
  0 ≤ protected →
  evaluate_candidates items protected estimates = (candidates, Some s) →
  ∃ total, estimates !! length items = Some total ∧ source total ≠ NoData
    ∧ (s ≤ length items)%nat
    ∧ (∀ i, i ∈ candidates ↔ (i < s)%nat ∧ ∃ item, items !! i = Some item ∧ detailed item)
    ∧ (s = 0%nat ∨ ∃ e, estimates !! s = Some e
                        ∧ protected ≤ saturating_sub_u64 (tokens total) (tokens e))
    ∧ (∀ j e, (s < j ≤ length items)%nat → estimates !! j = Some e →
              saturating_sub_u64 (tokens total) (tokens e) < protected).
Proof.
  intros Hp. unfold evaluate_candidates.
  destruct (protected_start_index _ _ _) as [s'|] eqn:Hs; [|done]. intros [= <- ->].
  pose proof (protected_start_bound _ _ _ _ Hs) as Hle. revert Hs.
  unfold protected_start_index. destruct (negb _); [done|].
  destruct (estimates !! length items) as [total|] eqn:Ht; [|done].
  case_bool_decide as Hsrc; [done|]. intros Hloop. exists total.
  split_and!; [done..| | |].
  - intros i. rewrite elem_of_detailed_from. setoid_rewrite lookup_take_Some. naive_solver.
  - destruct (Z.eqb_spec protected 0) as [->|];
      [|by apply protected_start_loop_spec in Hloop as (_ & H & _)].
    injection Hloop as <-. right. exists total. unfold saturating_sub_u64. split; [done|lia].
  - destruct (Z.eqb_spec protected 0) as [->|]; [injection Hloop as <-; lia|].
    intros j e Hj He. destruct (decide (j = length items)) as [->|].
    + simplify_eq. unfold saturating_sub_u64 in *. lia.
    + apply protected_start_loop_spec in Hloop as (_ & _ & H). apply (H j); [lia|done].
Qed.

Lemma prune_protects_tail_witness :
  ∃ total, [mkEstimate 0 Measured; mkEstimate 100 Measured; mkEstimate 180 Interpolated;
            mkEstimate 260 Measured; mkEstimate 275 Extrapolated; mkEstimate 290 Extrapolated;
            mkEstimate 300 Extrapolated; mkEstimate 308 Extrapolated] !! length example_history
           = Some total ∧ source total ≠ NoData.
Proof.
  edestruct (prune_protects_tail example_history 30
    [mkEstimate 0 Measured; mkEstimate 100 Measured; mkEstimate 180 Interpolated;
     mkEstimate 260 Measured; mkEstimate 275 Extrapolated; mkEstimate 290 Extrapolated;
     mkEstimate 300 Extrapolated; mkEstimate 308 Extrapolated] [2%nat] 4) as (t & ? & ? & _);
    [lia|vm_compute; reflexivity|eauto].
Defined.

(** The request context, item by item, when the tail from [s] on is protected. *)
Definition request_view (history : list Item) (s : nat) : list Item :=
  imap (λ i item, if (i <? s)%nat then omit item
                  else fst (consume_attachments (accepted_input_end history) i item)) history.

Lemma request_view_0 history :
  request_view history 0 = fst (project_consumed_attachments history).
Proof. rewrite consumed_eq. by apply imap_ext_lookup. Qed.

Lemma project_consumed history s :
  imap (λ i item, if (i <? s)%nat then omit item else item)
    (fst (project_consumed_attachments history)) = request_view history s.
Proof.
  rewrite consumed_eq. unfold request_view. apply list_eq. intros i.
  rewrite !list_lookup_imap. destruct (history !! i); [|done]. simpl.
  destruct (i <? s)%nat; [|done]. by rewrite omit_consume.
Qed.

(** C20.  The request context is the history with details omitted and nothing else: up to the
    protected start every tool result loses its text and attachments, after it only the
    attachments the model has already seen go; unless the omission fired, nothing but those
    attachments goes.  It fires only when the savings reach the configured minimum, and the
    reported number of changed items is the number of candidates. *)
Theorem request_context_exact (p : Pruning) (history context : list Item)
    (evaluation : option PruneEvaluation) :
  prepare_request p history = Some (context, evaluation) →
  match evaluation with
  | Some (mkEvaluation n savings start (Fired pruned)) =>
      ∃ config s, prune_config p = Some config ∧ start = Some s
        ∧ context = request_view history s ∧ pruned = n ∧ 0 < n ∧ min_savings config ≤ savings
  | _ => context = request_view history 0
  end
  ∧ Forall2 same_but_details history context.
Proof.
  intros Hprep.
  assert (Hview : ∀ s, Forall2 same_but_details history (request_view history s)).
  { intros s. apply Forall2_lookup. intros i. unfold request_view. rewrite list_lookup_imap.
    destruct (history !! i) as [item|]; constructor. destruct (i <? s)%nat.
    - destruct item as [| | |r|]; simpl; tauto.
    - unfold consume_attachments. case_match; [apply same_but_details_refl|].
      destruct item as [| | |r|]; try apply same_but_details_refl.
      destruct (negb _); simpl; tauto. }
  cut (match evaluation with
       | Some (mkEvaluation n savings start (Fired pruned)) =>
           ∃ config s, prune_config p = Some config ∧ start = Some s
             ∧ context = request_view history s ∧ pruned = n ∧ 0 < n
             ∧ min_savings config ≤ savings
       | _ => context = request_view history 0
       end).
  { intros H. split; [done|]. destruct evaluation as [[n v st []]|]; try (by subst).
    destruct H as (? & ? & ? & ? & -> & _). done. }
  revert Hprep. unfold prepare_request.
  destruct (prune_config p) as [config|], (token_estimator p) as [est|],
    (savings_estimator p) as [sav|]; try (intros [= <- <-]; symmetry; apply request_view_0).
  destruct (est _) as [es|]; [|done]. cbn [mbind option_bind]. unfold evaluate_candidates.
  destruct (protected_start_index _ _ es) as [s|] eqn:Hs.
  2: { intros [= <- <-]. symmetry. apply request_view_0. }
  case_bool_decide as Hc; [intros [= <- <-]; symmetry; apply request_view_0|].
  destruct (sav _ _) as [v|]; [|done]. cbn [mbind option_bind].
  apply protected_start_bound in Hs. rewrite project_candidates, project_consumed by done.
  cbn [mbind option_bind]. destruct (Z.leb_spec (min_savings config) v);
    [|intros [= <- <-]; symmetry; apply request_view_0].
  intros [= <- <-]. exists config, s. split_and!; try done.
  destruct (detailed_from _ _); [done|simpl; lia].
Qed.

Lemma request_context_exact_witness :
  Forall2 same_but_details example_history (request_view example_history 4).
Proof.
  exact (proj2 (request_context_exact
    (attach_prune example_len (mkPruneConfig 30 1) example_records [])
    example_history (request_view example_history 4)
    (Some (mkEvaluation 1 47 (Some 4%nat) (Fired 1))) ltac:(vm_compute; reflexivity))).
Defined.

(** C11.  A compaction never orphans a tool result: for every result in the retained tail
    whose call is anywhere in the history, a call with its id is in the retained tail. *)
Theorem split_keeps_tool_pairs (json_len : Item → Z) (history : list Item)
    (records : list UsageRecord) (retained : Z) (split : SplitPoint) (k p : nat)
    (r : ToolResultItem) (c : ToolCallItem) :
  split_for_retained_impl json_len history records retained = Some split →
  (split_index split ≤ k)%nat →
  history !! k = Some (ToolResult r) → history !! p = Some (ToolCall c) →
  tc_call_id c = tr_call_id r →
  ∃ p' c', (split_index split ≤ p')%nat ∧ history !! p' = Some (ToolCall c')
    ∧ tc_call_id c' = tr_call_id r.
Proof.
  unfold split_for_retained_impl. intros Hsplit Hk Hr Hc Hid.
  destruct (tokens_at _ _ _ _) as [cur|]; [|done]. cbn [mbind option_bind] in Hsplit.
  destruct (_ <=? _); injection Hsplit as <-.
  - exists p, c. split_and!; [simpl; lia|done..].
  - by eapply balance_keeps_pairs.
Qed.

Lemma split_keeps_tool_pairs_witness :
  ∃ p' c', (3 ≤ p')%nat ∧ example_history !! p' = Some (ToolCall c')
    ∧ tc_call_id c' = "c".
Proof.
  exact (split_keeps_tool_pairs example_len example_history example_records 30
           (mkSplit 3 Extrapolated) 6 4 _ _ ltac:(vm_compute; reflexivity) ltac:(simpl; lia)
           eq_refl eq_refl eq_refl).
Defined.

(** The compaction cut keeps the budget: a history within the budget is kept whole;
    otherwise the bytes of the retained tail, priced at the rate of the whole history (its
    token estimate, at least a token per 4 bytes), are worth at least [retained] tokens, and
    any cut beyond the one the scan finds would be worth less. *)
Theorem split_retains_budget (json_len : Item → Z) (history : list Item)
    (records : list UsageRecord) (retained total : Z) :
  (∀ i, 0 ≤ json_len i) → records_ok records → 0 ≤ retained →
  last (prefix_bytes json_len history) = Some total →
  ∃ current split,
    total_tokens json_len history records = Some current
    ∧ split_for_retained_impl json_len history records retained = Some split
    ∧ (tokens current ≤ retained → split_index split = 0%nat)
    ∧ (retained < tokens current →
       let rate := Z.max (tokens current) (ceil_div_u128 total 4) in
       let cut := split_index_by_retained_bytes (prefix_bytes json_len history)
                    (tokens current) retained in
       (split_index split ≤ cut)%nat
       ∧ (∃ before, prefix_bytes json_len history !! split_index split = Some before
                    ∧ retained * total ≤ (total - before) * rate)
       ∧ (0 < total → ∀ j before, (cut < j)%nat →
            prefix_bytes json_len history !! j = Some before →
            (total - before) * rate < retained * total)).
Proof.
  intros Hj Hrec Hret Hlast.
  destruct (tokens_at_justified json_len Hj history records (length history)) as
    (cur & Hcur & _ & Hrange); [done|lia|].
  unfold total_tokens, split_for_retained_impl. rewrite Hcur. cbn [mbind option_bind].
  destruct (Z.leb_spec (tokens cur) retained) as [Hle|Hgt].
  { eexists _, _. split_and!; [done..| |lia]. done. }
  eexists _, _. split; [done|split; [done|split; [lia|]]]. intros _. cbn [split_index].
  set (rate := Z.max (tokens cur) (ceil_div_u128 total 4)).
  set (cut := split_index_by_retained_bytes (prefix_bytes json_len history)
                (tokens cur) retained).
  pose proof (balance_le history cut) as Hbal.
  set (bal := balance_to_pair_boundary history cut) in *.
  destruct (prefix_lookup_some json_len history bal) as [b Hb]; [lia|].
  assert (Htotal : b ≤ total).
  { rewrite last_lookup, prefix_bytes_length in Hlast. simpl in Hlast.
    destruct (prefix_mono json_len Hj history bal (length history) b total Hb Hlast); lia. }
  split_and!; [unfold cut in *; lia| |].
  - exists b. split; [done|].
    pose proof (prefix_mono json_len Hj history bal bal b b Hb Hb (le_n _)).
    destruct (decide (retained = 0)) as [->|]; [nia|].
    destruct (decide (total = 0)) as [->|]; [nia|].
    destruct (split_index_spec json_len history (tokens cur) retained total)
      as (b1 & Hb1 & Hkeep & _); [done..|lia|lia|].
    destruct (prefix_mono json_len Hj history bal cut b b1 Hb Hb1); [lia|].
    fold rate in Hkeep. nia.
  - intros Hpos j b' Hlt Hb'. destruct (decide (retained = 0)) as [->|].
    + apply lookup_lt_Some in Hb' as Hj'. rewrite prefix_bytes_length in Hj'.
      unfold cut, split_index_by_retained_bytes in Hlt.
      rewrite prefix_bytes_length in Hlt. simpl in Hlt.
      destruct (Nat.eqb_spec (length history - 0) 0); lia.
    + destruct (split_index_spec json_len history (tokens cur) retained total)
        as (_ & _ & _ & Hmax); [done..|lia|lia|]. by apply (Hmax j).
Qed.

Lemma split_retains_budget_witness :
  ∃ current, total_tokens example_len example_history example_records = Some current.
Proof.
  destruct (split_retains_budget example_len example_history example_records 30 352
              example_len_nonneg example_records_ok ltac:(lia) ltac:(vm_compute; reflexivity))
    as (current & _ & H & _).
  exact (ex_intro _ current H).
Defined.

End ContextBudget.
