(* ===== verification/ImageRecovery.v ===== *)
(** * Recovery from rejected images

    Models [src/crates/agen/src/image_recovery.rs], the classification of provider errors of
    [src/crates/agen/src/llm_client/error.rs], and [recover_rejected_image] and
    [open_stream_with_image_recovery] of [src/crates/agen/src/engine.rs].  The image header
    parser (the crate imagesize), the host's commit callback and the provider's answer to
    each attempt are arguments. *)
From Stdlib Require Import ZArith String Ascii List Lia.
From stdpp Require Import base tactics numbers list strings.
From S2P Require Import Prelude Conversation.
Import Conversation.

Module ImageRecovery.

(** ** Errors *)

Section errors.
Context {HttpError JsonError OtherError : Type}.

Inductive ClientError :=
| Http (e : HttpError)
| Json (e : JsonError)
| Sse (message : string)
| Api (status : option Z) (code : option string) (message : string) (retry_after : option Z)
| ContextWindowExceeded
| Timeout (phase : string) (timeout : Z)
| Config (message : string).

(** [EngineError]; the variants the recovery passes on unread are one. *)
Inductive EngineError :=
| Client (e : ClientError)
| HistoryAppend (message : string)
| OtherEngineError (e : OtherError).

Definition ascii_lower (c : ascii) : ascii :=
  let n := nat_of_ascii c in
  if (65 <=? n)%nat && (n <=? 90)%nat then ascii_of_nat (n + 32) else c.

(** [str::to_ascii_lowercase]. *)
Fixpoint to_ascii_lowercase (s : string) : string :=
  match s with
  | EmptyString => EmptyString
  | String c s => String (ascii_lower c) (to_ascii_lowercase s)
  end.

(** [str::contains]. *)
Definition contains (s sub : string) : bool :=
  match String.index 0 sub s with Some _ => true | None => false end.

(** [s.split(sep).next()]. *)
Definition before_first (sep s : string) : string :=
  match String.index 0 sep s with Some n => String.substring 0 n s | None => s end.

Definition is_image_size_diagnostic (code : option string) (message : string) : bool :=
  if bool_decide (code = Some "image_too_large") || bool_decide (code = Some "image_size_exceeded")
  then true
  else
    let message := to_ascii_lowercase (before_first " | diagnostic=" message) in
    contains message "image"
    && ((contains message "patches" && contains message "exceed" && contains message "limit")
        || contains message "image is too large"
        || contains message "image too large"
        || (contains message "image dimensions" && contains message "exceed")).

Definition is_image_size_rejection (e : ClientError) : bool :=
  match e with
  | Api (Some status) code message _ =>
      if (status =? 400) || (status =? 413) || (status =? 422)
      then is_image_size_diagnostic code message else false
  | _ => false
  end.

(** [is_retryable], with [is_connect() || is_timeout()] of the HTTP library's error. *)
Definition is_retryable (http_transient : HttpError → bool) (e : ClientError) : bool :=
  match e with
  | Api (Some code) _ _ _ =>
      bool_decide (code ∈ [408; 425; 429; 500; 502; 503; 504; 529])
  | Api None _ _ _ => false
  | Timeout _ _ => true
  | Http e => http_transient e
  | ContextWindowExceeded | Json _ | Sse _ | Config _ => false
  end.

End errors.
Arguments ClientError : clear implicits.
Arguments EngineError : clear implicits.

(** ** The candidate *)

Definition REJECTION_MESSAGE : string :=
  "ViewImage image omitted from model input after the provider rejected image size. This is a recovery candidate, not proof that this particular image caused the rejection. Resize or crop the image and retry ViewImage; do not read the unchanged image again.".

Definition rejected_result (item : Item) : Item :=
  match item with
  | ToolResult r =>
      ToolResult (mkToolResult (tr_id r) (tr_call_id r) REJECTION_MESSAGE None Error true [])
  | _ => item
  end.

Record HistoryEntry (A : Type) := mkEntry { item : Item; annotation : A }.
Arguments mkEntry {A} _ _.
Arguments item {A} _.
Arguments annotation {A} _.

(** [(pixels, image.data().len(), index)], compared as tuples are. *)
Definition rank : Type := Z * Z * Z.

Definition rank_lt (a b : rank) : bool :=
  let '(a1, a2, a3) := a in
  let '(b1, b2, b3) := b in
  (a1 <? b1) || ((a1 =? b1) && ((a2 <? b2) || ((a2 =? b2) && (a3 <? b3)))).

Definition saturating_mul_u64 (a b : Z) : Z := Z.min (a * b) U64_MAX.

Section recovery.
Context {A HttpError JsonError OtherError Stream : Type}.
(** [imagesize::blob_size]: width and height, if the header can be read. *)
Context (blob_size : string → option (Z * Z)).
(** [image_rejection_handler]; [Some] is the error it returns. *)
Context (image_rejection_handler : option (HistoryEntry A → Item → option string)).
(** The result of [open_stream_with_retry] on the n-th attempt with a request. *)
Context (open_stream_with_retry :
  nat → list Item → result Stream (EngineError HttpError JsonError OtherError)).

Definition from_view_image (items : list Item) (call_id : string) : bool :=
  existsb (λ i, match i with
                | ToolCall c => String.eqb (tc_call_id c) call_id
                                && String.eqb (tc_name c) "ViewImage"
                | _ => false
                end) items.

Definition sent_at (request : list Item) (r : ToolResultItem) : option nat :=
  position (λ i, match i with
                 | ToolResult s => String.eqb (tr_call_id s) (tr_call_id r)
                                   && bool_decide (tr_attachments s = tr_attachments r)
                 | _ => false
                 end) request.

(** One round of the loop of [largest_candidate] up to the comparison. *)
Definition candidate_at (h : list (HistoryEntry A)) (request : list Item) (index : nat) (i : Item)
  : option (rank * (nat * nat)) :=
  match i with
  | ToolResult r =>
      match tr_attachments r with
      | [Image image] =>
          if negb (from_view_image (item <$> h) (tr_call_id r)) then None
          else match sent_at request r with
               | None => None
               | Some request_index =>
                   let pixels :=
                     match blob_size (data image) with
                     | Some (width, height) => saturating_mul_u64 width height
                     | None => 0
                     end in
                   Some ((pixels, Z.of_nat (String.length (data image)), Z.of_nat index),
                         (index, request_index))
               end
      | _ => None
      end
  | _ => None
  end.

Fixpoint candidate_loop (h : list (HistoryEntry A)) (request : list Item) (index : nat)
    (entries : list (HistoryEntry A)) (largest : option (rank * (nat * nat))) : option (rank * (nat * nat)) :=
  match entries with
  | [] => largest
  | entry :: rest =>
      let largest :=
        match candidate_at h request index (item entry) with
        | None => largest
        | Some (r, candidate) =>
            match largest with
            | Some (previous, _) => if rank_lt previous r then Some (r, candidate) else largest
            | None => Some (r, candidate)
            end
        end in
      candidate_loop h request (S index) rest largest
  end.

Definition largest_candidate (h : list (HistoryEntry A)) (request : list Item) : option (nat * nat) :=
  let start := default 0%nat (accepted_input_end (item <$> h)) in
  snd <$> candidate_loop h request start (drop start h) None.

(** ** The recovery *)

(** [recover_rejected_image]: its result and the history and request it leaves.  The
    candidate's position is in range ([largest_candidate_spec]). *)
Definition recover_rejected_image (h : list (HistoryEntry A)) (request : list Item)
  : result bool (EngineError HttpError JsonError OtherError) * list (HistoryEntry A) * list Item :=
  match largest_candidate h request with
  | None => (Ok false, h, request)
  | Some (history_index, request_index) =>
      match h !! history_index with
      | None => (Ok false, h, request)
      | Some entry =>
          let replacement := rejected_result (item entry) in
          match (match image_rejection_handler with
                 | Some commit => commit entry replacement
                 | None => None
                 end) with
          | Some error => (Err (HistoryAppend error), h, request)
          | None =>
              (Ok true, <[history_index := mkEntry replacement (annotation entry)]> h,
               <[request_index := replacement]> request)
          end
      end
  end.

(** [open_stream_with_image_recovery]; [None] only when the fuel runs out. *)
Fixpoint open_stream_with_image_recovery (fuel attempt : nat) (h : list (HistoryEntry A))
    (request : list Item)
  : option (result Stream (EngineError HttpError JsonError OtherError) * list (HistoryEntry A) * list Item) :=
  match fuel with
  | O => None
  | S fuel =>
      match open_stream_with_retry attempt request with
      | Ok stream => Some (Ok stream, h, request)
      | Err (Client error) =>
          if is_image_size_rejection error then
            match recover_rejected_image h request with
            | (Err e, h, request) => Some (Err e, h, request)
            | (Ok false, h, request) => Some (Err (Client error), h, request)
            | (Ok true, h, request) =>
                open_stream_with_image_recovery fuel (S attempt) h request
            end
          else Some (Err (Client error), h, request)
      | Err error => Some (Err error, h, request)
      end
  end.

End recovery.

(** ** Lemmas *)

(** An image rejection is final for the transient-error retry. *)
Lemma rejection_not_retryable {H J : Type} (transient : H → bool) (e : ClientError H J) :
  is_image_size_rejection e = true → is_retryable transient e = false.
Proof.
  destruct e as [| | |[status|] ? ?| | |]; try done. unfold is_image_size_rejection.
  destruct (Z.eqb_spec status 400) as [->|]; [done|].
  destruct (Z.eqb_spec status 413) as [->|]; [done|].
  destruct (Z.eqb_spec status 422) as [->|]; done.
Qed.

Lemma rank_lt_asym a b : rank_lt a b = true → rank_lt b a = false.
Proof. destruct a as [[a1 a2] a3], b as [[b1 b2] b3]. unfold rank_lt. lia. Qed.

Lemma rank_ge_trans a b c :
  rank_lt a b = false → rank_lt b c = false → rank_lt a c = false.
Proof.
  destruct a as [[a1 a2] a3], b as [[b1 b2] b3], c as [[c1 c2] c3]. unfold rank_lt. lia.
Qed.

Lemma rank_lt_irrefl a : rank_lt a a = false.
Proof. destruct a as [[a1 a2] a3]. unfold rank_lt. lia. Qed.

Lemma filter_length_insert {A} (f : A → bool) l i x y :
  l !! i = Some y → f y = true → f x = false →
  length (List.filter f l) = S (length (List.filter f (<[i := x]> l))).
Proof.
  intros Hi Hy Hx. revert i Hi. induction l as [|z l IH]; intros [|i] Hi; simplify_eq/=.
  - by rewrite Hy, Hx.
  - destruct (f z); simpl; by rewrite (IH i Hi).
Qed.

Section recovery_lemmas.
Context {A HttpError JsonError OtherError Stream : Type}.
Context (blob_size : string → option (Z * Z)).
Context (image_rejection_handler : option (HistoryEntry A → Item → option string)).
Context (open_stream_with_retry :
  nat → list Item → result Stream (EngineError HttpError JsonError OtherError)).

Lemma candidate_loop_from h request entries : ∀ index largest x,
  candidate_loop blob_size h request index entries largest = Some x →
  largest = Some x
  ∨ ∃ j e, entries !! j = Some e
         ∧ candidate_at (A:=A) blob_size h request (index + j) (item e) = Some x.
Proof.
  induction entries as [|e entries IH]; intros index largest x; simpl; [by left|].
  intros [Hl|(j & e' & Hj & Hc)]%IH.
  2: { right. exists (S j), e'. by rewrite Nat.add_succ_r. }
  assert (Hhere : candidate_at blob_size h request index (item e) = Some x →
    ∃ j e', (e :: entries) !! j = Some e'
            ∧ candidate_at blob_size h request (index + j) (item e') = Some x)
    by (intros; exists 0%nat, e; by rewrite Nat.add_0_r).
  destruct (candidate_at _ _ _ _ _) as [[r c]|] eqn:Hc; [|by left].
  destruct largest as [[pr pc]|]; [destruct (rank_lt pr r)|]; auto.
Qed.

Lemma candidate_loop_keeps h request entries : ∀ index r c,
  ∃ r' c', candidate_loop (A:=A) blob_size h request index entries (Some (r, c))
           = Some (r', c') ∧ rank_lt r' r = false.
Proof.
  induction entries as [|e entries IH]; intros index r c; simpl.
  { eauto using rank_lt_irrefl. }
  destruct (candidate_at _ _ _ _ _) as [[r1 c1]|]; [|apply IH].
  destruct (rank_lt r r1) eqn:Hlt; [|apply IH].
  destruct (IH (S index) r1 c1) as (r' & c' & -> & Hr'). exists r', c'. split; [done|].
  eauto using rank_ge_trans, rank_lt_asym.
Qed.

Lemma candidate_loop_max h request entries : ∀ index largest j e r c,
  entries !! j = Some e →
  candidate_at (A:=A) blob_size h request (index + j) (item e) = Some (r, c) →
  ∃ r' c', candidate_loop blob_size h request index entries largest = Some (r', c')
         ∧ rank_lt r' r = false.
Proof.
  induction entries as [|e entries IH]; intros index largest [|j] e' r c He Hc;
    simplify_eq/=.
  - rewrite Nat.add_0_r in Hc. rewrite Hc.
    destruct largest as [[pr pc]|]; [destruct (rank_lt pr r) eqn:Hlt|];
      try apply candidate_loop_keeps.
    destruct (candidate_loop_keeps h request entries (S index) pr pc) as (r' & c' & -> & ?).
    eauto using rank_ge_trans.
  - rewrite Nat.add_succ_r in Hc. by eapply (IH (S index) _ j).
Qed.

(** An entry that may be corrected: the single image of a [ViewImage] call, after the
    input the model has accepted, sent in the request. *)
Definition eligible (h : list (HistoryEntry A)) (request : list Item) (index : nat)
    (r : ToolResultItem) (image : ImageAttachment) (request_index : nat) : Prop :=
  (∃ e, h !! index = Some e ∧ item e = ToolResult r)
  ∧ (default 0 (accepted_input_end (item <$> h)) ≤ index)%nat
  ∧ tr_attachments r = [Image image]
  ∧ from_view_image (item <$> h) (tr_call_id r) = true
  ∧ sent_at request r = Some request_index.

Definition image_rank (image : ImageAttachment) (index : nat) : rank :=
  (match blob_size (data image) with
   | Some (width, height) => saturating_mul_u64 width height | None => 0 end,
   Z.of_nat (String.length (data image)), Z.of_nat index).

Lemma candidate_at_spec h request index i x :
  candidate_at (A:=A) blob_size h request index i = Some x ↔
  ∃ r image q, i = ToolResult r ∧ tr_attachments r = [Image image]
    ∧ from_view_image (item <$> h) (tr_call_id r) = true ∧ sent_at request r = Some q
    ∧ x = (image_rank image index, (index, q)).
Proof.
  unfold candidate_at, image_rank. split.
  - destruct i as [| | |r|]; try done.
    destruct (tr_attachments r) as [|[image] [|]] eqn:Ha; try done.
    destruct (from_view_image _ _) eqn:Hv; [|done].
    destruct (sent_at request r) as [q|] eqn:Hq; [|done]. intros [= <-]. eauto 10.
  - intros (r & image & q & -> & -> & -> & -> & ->). done.
Qed.

Lemma candidate_in_drop h request start j e x :
  drop start h !! j = Some e →
  candidate_at (A:=A) blob_size h request (start + j) (item e) = Some x →
  start = default 0%nat (accepted_input_end (item <$> h)) →
  ∃ r image q, eligible h request (start + j) r image q
             ∧ x = (image_rank image (start + j), ((start + j)%nat, q)).
Proof.
  rewrite lookup_drop. intros Hj (r & image & q & Hi & Ha & Hv & Hq & ->)%candidate_at_spec ->.
  exists r, image, q. split; [|done]. repeat split; try done; [by eauto|lia].
Qed.

Lemma eligible_in_loop h request i r image q :
  eligible h request i r image q →
  ∃ r' c', candidate_loop blob_size h request (default 0%nat (accepted_input_end (item <$> h)))
             (drop (default 0%nat (accepted_input_end (item <$> h))) h) None = Some (r', c')
         ∧ rank_lt r' (image_rank image i) = false.
Proof.
  intros ((e & He & Hi) & Hstart & Ha & Hv & Hq).
  set (start := default 0%nat (accepted_input_end (item <$> h))) in *.
  eapply (candidate_loop_max h request (drop start h) start None (i - start) e).
  - rewrite lookup_drop. by replace (start + (i - start))%nat with i by lia.
  - apply candidate_at_spec. replace (start + (i - start))%nat with i by lia. eauto 10.
Qed.

Lemma largest_candidate_Some h request i q :
  largest_candidate blob_size h request = Some (i, q) →
  ∃ r image, eligible h request i r image q
    ∧ ∀ i' r' image' q', eligible h request i' r' image' q' →
        rank_lt (image_rank image i) (image_rank image' i') = false.
Proof.
  unfold largest_candidate. destruct (candidate_loop _ _ _ _ _ _) as [[rk c]|] eqn:Hloop; [|done].
  simpl. intros [= ->]. pose proof Hloop as Hfrom.
  apply candidate_loop_from in Hfrom as [|(j & e & Hj & Hc)]; [done|].
  destruct (candidate_in_drop _ _ _ _ _ _ Hj Hc eq_refl) as (r & image & q' & Hel & [= -> -> ->]).
  exists r, image. split; [done|]. intros i' r' image' q'' Hel'.
  apply eligible_in_loop in Hel' as (rk & c & Hmax & Hrank). rewrite Hmax in Hloop. by simplify_eq.
Qed.

Lemma largest_candidate_None h request :
  largest_candidate blob_size h request = None →
  ∀ i r image q, ¬ eligible h request i r image q.
Proof.
  unfold largest_candidate. intros Hnone i r image q (r' & c' & Hl & _)%eligible_in_loop.
  by rewrite Hl in Hnone.
Qed.

(** How an entry may have changed by corrections to the history [h]. *)
Definition corrected_entry (h : list (HistoryEntry A)) (index : nat) (e e' : HistoryEntry A) : Prop :=
  e' = e
  ∨ ∃ r image, item e = ToolResult r ∧ tr_attachments r = [Image image]
      ∧ (default 0 (accepted_input_end (item <$> h)) ≤ index)%nat
      ∧ from_view_image (item <$> h) (tr_call_id r) = true
      ∧ e' = mkEntry (rejected_result (item e)) (annotation e).

Definition corrected (h h' : list (HistoryEntry A)) : Prop :=
  length h' = length h
  ∧ ∀ i e e', h !! i = Some e → h' !! i = Some e' → corrected_entry h i e e'.

(** The entries that hold exactly one image. *)
Definition single_image (e : HistoryEntry A) : bool :=
  match item e with
  | ToolResult r => match tr_attachments r with [Image _] => true | _ => false end
  | _ => false
  end.

Definition images (h : list (HistoryEntry A)) : nat := length (List.filter single_image h).

Lemma corrected_refl h : corrected h h.
Proof. split; [done|]. intros i e e' He He'. simplify_eq. by left. Qed.

Lemma corrected_items h h' : corrected h h' →
  Forall2 (λ i j, match i, j with ToolResult _, ToolResult _ => True | _, _ => i = j end)
    (item <$> h) (item <$> h').
Proof.
  intros [Hlen H]. apply Forall2_fmap. apply Forall2_same_length_lookup. split; [done|].
  intros i e e' He He'. destruct (H i e e' He He') as [->|(r & image & Hi & _ & _ & _ & ->)].
  - by destruct (item e).
  - by rewrite Hi.
Qed.

Lemma from_view_image_ext l l' id :
  Forall2 (λ i j, match i, j with ToolResult _, ToolResult _ => True | _, _ => i = j end) l l' →
  from_view_image l' id = from_view_image l id.
Proof.
  induction 1 as [|i j l l' Hij _ IH]; [done|]. simpl. f_equal; [|done].
  destruct i, j; try discriminate; simplify_eq; done.
Qed.

Lemma corrected_trans h1 h2 h3 : corrected h1 h2 → corrected h2 h3 → corrected h1 h3.
Proof.
  intros H12 H23. pose proof (corrected_items _ _ H12) as Hitems.
  destruct H12 as [L12 H12], H23 as [L23 H23]. split; [congruence|].
  intros i e1 e3 He1 He3.
  destruct (lookup_lt_is_Some_2 h2 i) as [e2 He2]; [rewrite <- L23; by eapply lookup_lt_Some|].
  specialize (H12 i e1 e2 He1 He2). specialize (H23 i e2 e3 He2 He3).
  destruct H23 as [->|(r & image & Hi & Ha & Hs & Hv & ->)]; [done|].
  rewrite (accepted_input_end_ext _ _ Hitems) in Hs.
  rewrite (from_view_image_ext _ _ _ Hitems) in Hv.
  destruct H12 as [->|(r1 & image1 & Hi1 & _ & _ & _ & ->)]; [right; eauto 10|].
  simpl in Hi. rewrite Hi1 in Hi. simpl in Hi. simplify_eq/=.
Qed.

Lemma recover_correction h request i q r image :
  eligible h request i r image q →
  ∀ e, h !! i = Some e →
  corrected h (<[i := mkEntry (rejected_result (item e)) (annotation e)]> h)
  ∧ images h = S (images (<[i := mkEntry (rejected_result (item e)) (annotation e)]> h)).
Proof.
  intros ((e' & He' & Hi) & Hs & Ha & Hv & _) e He. simplify_eq. split.
  - split; [by rewrite length_insert|]. intros k e1 e2 He1 He2.
    destruct (decide (i = k)) as [<-|Hne].
    + rewrite list_lookup_insert_eq in He2 by (by eapply lookup_lt_Some). simplify_eq.
      right. eauto 10.
    + rewrite list_lookup_insert_ne in He2 by done. simplify_eq. by left.
  - eapply filter_length_insert; [done| |].
    + unfold single_image. by rewrite Hi, Ha.
    + unfold single_image. simpl. by rewrite Hi.
Qed.

Lemma recover_cases h request :
  match recover_rejected_image (HttpError:=HttpError) (JsonError:=JsonError)
          (OtherError:=OtherError) blob_size image_rejection_handler h request with
  | (Ok true, h', request') =>
      corrected h h' ∧ images h = S (images h') ∧ length request' = length request
  | (Ok false, h', request') =>
      h' = h ∧ request' = request ∧ ∀ i r image q, ¬ eligible h request i r image q
  | (Err e, h', request') => h' = h ∧ request' = request ∧ ∃ m, e = HistoryAppend m
  end.
Proof.
  unfold recover_rejected_image.
  destruct (largest_candidate blob_size h request) as [[i q]|] eqn:Hl.
  2: { split_and!; [done..|]. by apply largest_candidate_None. }
  destruct (largest_candidate_Some _ _ _ _ Hl) as (r & image & Hel & _).
  destruct Hel as ((e & He & Hi) & Hrest) eqn:E. clear E. rewrite He.
  destruct (match image_rejection_handler with Some _ => _ | None => _ end); [by eauto|].
  destruct (recover_correction h request i q r image) with (e := e) as [??];
    [by split; eauto|done|]. split_and!; [done..|by rewrite length_insert].
Qed.

End recovery_lemmas.

(** ** Properties *)

Section recovery_properties.
Context {A HttpError JsonError OtherError Stream : Type}.
Context (blob_size : string → option (Z * Z)).
Context (image_rejection_handler : option (HistoryEntry A → Item → option string)).
Context (open_stream_with_retry :
  nat → list Item → result Stream (EngineError HttpError JsonError OtherError)).

(** The image a rejection is answered with: an eligible result (the single image of a
    [ViewImage] call, past the input the model has accepted, that was sent in the request)
    and no other eligible result has a larger rank by pixels, then bytes, then position;
    none is chosen only when none is eligible. *)
Theorem largest_candidate_spec (h : list (HistoryEntry A)) (request : list Item) :
  match largest_candidate blob_size h request with
  | Some (i, q) =>
      ∃ r image, eligible h request i r image q
        ∧ ∀ i' r' image' q', eligible h request i' r' image' q' →
            rank_lt (image_rank blob_size image i) (image_rank blob_size image' i') = false
  | None => ∀ i r image q, ¬ eligible h request i r image q
  end.
Proof.
  destruct (largest_candidate blob_size h request) as [[i q]|] eqn:Hl.
  - by apply largest_candidate_Some.
  - by eapply largest_candidate_None.
Qed.

Lemma open_loop_terminates fuel : ∀ attempt h request,
  (images h < fuel)%nat →
  ∃ res h' request' n,
    open_stream_with_image_recovery blob_size image_rejection_handler open_stream_with_retry
      fuel attempt h request = Some (res, h', request')
    ∧ corrected h h' ∧ length request' = length request
    ∧ (attempt ≤ n ≤ attempt + images h)%nat
    ∧ match res with
      | Ok stream => open_stream_with_retry n request' = Ok stream
      | Err (Client e) =>
          open_stream_with_retry n request' = Err (Client e)
          ∧ (is_image_size_rejection e = true →
             ∀ i r image q, ¬ eligible h' request' i r image q)
      | Err (HistoryAppend _) | Err (OtherEngineError _) => True
      end.
Proof.
  induction fuel as [|fuel IH]; intros attempt h request Hfuel; [lia|].
  cbn [open_stream_with_image_recovery].
  destruct (open_stream_with_retry attempt request) as [stream|[error|msg|o]] eqn:Hopen.
  1,3,4: eexists _, _, _, attempt;
    (split_and!; [done|apply corrected_refl|done|lia|lia|done]).
  destruct (is_image_size_rejection error) eqn:Hrej.
  2: { eexists _, _, _, attempt.
       split_and!; [done|apply corrected_refl|done|lia|lia|split; [done|congruence]]. }
  pose proof (recover_cases (HttpError:=HttpError) (JsonError:=JsonError)
                (OtherError:=OtherError) blob_size image_rejection_handler h request) as Hrec.
  destruct (recover_rejected_image _ _ h request) as [[[[]|e] h'] request'].
  - destruct Hrec as (Hcor & Himg & Hlen).
    destruct (IH (S attempt) h' request' ltac:(lia))
      as (res & h2 & request2 & n & -> & Hcor2 & Hlen2 & Hn & Hres).
    exists res, h2, request2, n. split_and!; [done|by eapply corrected_trans|congruence|lia..|done].
  - destruct Hrec as (-> & -> & Hnone). eexists _, _, _, attempt.
    split_and!; [done|apply corrected_refl|done|lia|lia|by split].
  - destruct Hrec as (-> & -> & m & ->). eexists _, _, _, attempt.
    split_and!; [done|apply corrected_refl|done|lia|lia|done].
Qed.

(** C18.  The recovery loop ends: whatever the provider answers to each attempt, opening the
    stream returns after at most one attempt more than the history has single images, and
    the history it leaves differs only in eligible results that were replaced, with their
    annotation, by the rejection notice.  A stream it returns was opened with the request it
    leaves, and an image rejection is passed on only when nothing eligible is left. *)
Theorem recovery_loop_terminates (attempt : nat) (h : list (HistoryEntry A))
    (request : list Item) :
  ∃ res h' request' n,
    open_stream_with_image_recovery blob_size image_rejection_handler open_stream_with_retry
      (S (images h)) attempt h request = Some (res, h', request')
    ∧ corrected h h' ∧ length request' = length request
    ∧ (attempt ≤ n ≤ attempt + images h)%nat
    ∧ match res with
      | Ok stream => open_stream_with_retry n request' = Ok stream
      | Err (Client e) =>
          open_stream_with_retry n request' = Err (Client e)
          ∧ (is_image_size_rejection e = true →
             ∀ i r image q, ¬ eligible h' request' i r image q)
      | Err (HistoryAppend _) | Err (OtherEngineError _) => True
      end.
Proof. apply open_loop_terminates. lia. Qed.

End recovery_properties.

End ImageRecovery.
