(* ===== verification/ProviderHistory.v ===== *)
(** * The order of a request

    A history keeps the results of tools in the order they completed, between the items of a
    response as they were streamed.  [materialize_provider_history] of
    [src/crates/agen/src/engine.rs] puts the items of a request into the order providers
    expect: the calls of a response by their index, then its results in the order of the
    calls.  The theorems: the projection never panics and loses, duplicates or alters nothing,
    its index map leads to the item it came from, and results never precede their calls. *)
From Stdlib Require Import ZArith String List Lia Sorted.
From stdpp Require Import base tactics numbers list strings gmap sorting.
From S2P Require Import Prelude Conversation.

Module ProviderHistory.
Import Conversation.

(** ** [slice::sort_by_key]

    The sort is stable: an element goes before the first one that is not smaller. *)
Section sort.
Context {A K : Type} (le : K → K → bool).

Fixpoint insert_by (key : A → K) (x : A) (l : list A) : list A :=
  match l with
  | [] => [x]
  | y :: r => if le (key x) (key y) then x :: y :: r else y :: insert_by key x r
  end.

Definition sort_by_key (key : A → K) (l : list A) : list A := foldr (insert_by key) [] l.

End sort.

(** The order of pairs of integers. *)
Definition pair_le (a b : Z * Z) : bool :=
  (a.1 <? b.1) || ((a.1 =? b.1) && (a.2 <=? b.2)).

(** A sort with a key that panics: [None] stands for the panic. *)
Definition try_sort_by_key {A K} (le : K → K → bool) (key : A → option K) (l : list A)
  : option (list A) :=
  keyed ← mapM (λ x, k ← key x; Some (k, x)) l;
  Some (snd <$> sort_by_key le fst keyed).

(** ** Normalisation *)

Definition is_call (i : Item) : bool := match i with ToolCall _ => true | _ => false end.
Definition is_result (i : Item) : bool := match i with ToolResult _ => true | _ => false end.
Definition is_tool (i : Item) : bool := is_call i || is_result i.
Definition is_boundary (i : Item) : bool :=
  match i with AssistantResponseBoundary _ => true | _ => false end.

(** [Item::Message { role: User | System, .. }]. *)
Definition is_host_message (i : Item) : bool :=
  match i with
  | Message m => match role m with User | System => true | Assistant => false end
  | _ => false
  end.

(** [call_index.or_else(|| call_order.get(call_id).copied()).unwrap_or(usize::MAX)]. *)
Definition call_key (call_order : gmap string Z) (c : ToolCallItem) : Z :=
  match tc_call_index c with
  | Some i => Z.of_nat i
  | None => default U64_MAX (call_order !! tc_call_id c)
  end.

Definition result_key (call_order : gmap string Z) (r : ToolResultItem) : Z :=
  default U64_MAX (call_order !! tr_call_id r).

Definition tool_run_key (call_order : gmap string Z) (p : nat * Item) : option (Z * Z) :=
  match p.2 with
  | ToolCall c => Some (0, call_key call_order c)
  | ToolResult r => Some (1, result_key call_order r)
  | _ => None
  end.

Definition normalize_tool_run (run : list (nat * Item)) (call_order : gmap string Z)
  : option (list (nat * Item)) :=
  try_sort_by_key pair_le (tool_run_key call_order) run.

(** The scan for maximal runs of calls and results; [run] is the one [start..index] covers. *)
Fixpoint normalize_legacy_from (call_order : gmap string Z) (run materialized : list (nat * Item))
  : option (list (nat * Item)) :=
  match materialized with
  | [] => normalize_tool_run run call_order
  | p :: rest =>
      if is_tool p.2 then normalize_legacy_from call_order (run ++ [p]) rest
      else
        run' ← normalize_tool_run run call_order;
        rest' ← normalize_legacy_from call_order [] rest;
        Some (run' ++ p :: rest')
  end.

Definition normalize_legacy_history (materialized : list (nat * Item))
    (call_order : gmap string Z) : option (list (nat * Item)) :=
  normalize_legacy_from call_order [] materialized.

(** [*item = calls.next().expect(..)] at every call. *)
Fixpoint fill_call_slots (calls : list Item) (response : list (nat * Item))
  : option (list (nat * Item)) :=
  match response with
  | [] => Some []
  | p :: rest =>
      if is_call p.2 then
        match calls with
        | c :: calls => rest' ← fill_call_slots calls rest; Some ((p.1, c) :: rest')
        | [] => None
        end
      else rest' ← fill_call_slots calls rest; Some (p :: rest')
  end.

Definition call_slot_key (call_order : gmap string Z) (i : Item) : option Z :=
  match i with ToolCall c => Some (call_key call_order c) | _ => None end.

Definition region_key (call_order : gmap string Z) (p : nat * Item) : Z * Z :=
  match p.2 with
  | ToolResult r => (1, result_key call_order r)
  | _ => (0, 0)
  end.

(** The loop over [0..=response.len()]; [region] is the one [start..index] covers. *)
Fixpoint sort_regions (call_order : gmap string Z) (region response : list (nat * Item))
  : list (nat * Item) :=
  match response with
  | [] => sort_by_key pair_le (region_key call_order) region
  | p :: rest =>
      if is_host_message p.2
      then sort_by_key pair_le (region_key call_order) region
             ++ p :: sort_regions call_order [] rest
      else sort_regions call_order (region ++ [p]) rest
  end.

Definition normalize_response_history (response : list (nat * Item))
    (call_order : gmap string Z) : option (list (nat * Item)) :=
  let calls := List.filter is_call (snd <$> response) in
  calls ← try_sort_by_key Z.leb (call_slot_key call_order) calls;
  response ← fill_call_slots calls response;
  Some (sort_regions call_order [] response).

(** ** Projection *)

Record ProviderHistoryProjection := mkProjection {
  items : list Item;
  original_to_projected_index : list nat
}.

(** The first loop: the order of calls, by their index or else by their position. *)
Fixpoint collect_call_order (items : list Item) (next_call_order : Z)
    (call_order : gmap string Z) : gmap string Z :=
  match items with
  | [] => call_order
  | ToolCall c :: rest =>
      collect_call_order rest (next_call_order + 1)
        (<[tc_call_id c := default next_call_order (Z.of_nat <$> tc_call_index c)]> call_order)
  | _ :: rest => collect_call_order rest next_call_order call_order
  end.

(** [iter().cloned().enumerate()], counting from [start]. *)
Definition enumerate {A} (start : nat) (l : list A) : list (nat * A) :=
  zip (seq start (length l)) l.

(** The loop over the responses: [rest] are the items from [index] on.  The first of them is a
    boundary, else the [debug_assert!] fails. *)
Fixpoint responses (fuel : nat) (call_order : gmap string Z) (index : nat) (rest : list Item)
    (materialized : list (nat * Item)) (boundary_indices : list nat)
  : option (list (nat * Item) * list nat) :=
  match rest with
  | [] => Some (materialized, boundary_indices)
  | i :: after =>
      match fuel with
      | O => None
      | S fuel =>
          if is_boundary i then
            let n := default (length after) (position is_boundary after) in
            response ← normalize_response_history (enumerate (S index) (take n after)) call_order;
            responses fuel call_order (S index + n) (drop n after) (materialized ++ response)
              (boundary_indices ++ [index])
          else None
      end
  end.

(** [v[i] = x], which panics out of range. *)
Definition vec_set {A} (i : nat) (x : A) (v : list A) : option (list A) :=
  if decide (i < length v)%nat then Some (<[i := x]> v) else None.

(** [original_to_projected_index[*original_index] = projected_index] for each item. *)
Fixpoint index_items (projected : nat) (originals : list nat) (map : list nat)
  : option (list nat) :=
  match originals with
  | [] => Some map
  | o :: rest => map ← vec_set o projected map; index_items (S projected) rest map
  end.

(** [iter().take_while(p)]. *)
Fixpoint take_while {A} (p : A → bool) (l : list A) : list A :=
  match l with
  | [] => []
  | x :: r => if p x then x :: take_while p r else []
  end.

Fixpoint index_boundaries (originals : list nat) (boundary_indices : list nat) (map : list nat)
  : option (list nat) :=
  match boundary_indices with
  | [] => Some map
  | b :: rest =>
      let preceding_projected := (length (take_while (λ o, o <? b)%nat originals) - 1)%nat in
      map ← vec_set b preceding_projected map; index_boundaries originals rest map
  end.

Definition materialize_provider_history (its : list Item) : option ProviderHistoryProjection :=
  let call_order := collect_call_order its 0 ∅ in
  let legacy_end := default (length its) (position is_boundary its) in
  legacy ← normalize_legacy_history (enumerate 0 (take legacy_end its)) call_order;
  '(materialized, boundary_indices) ←
    responses (length its) call_order legacy_end (drop legacy_end its) legacy [];
  let originals := fst <$> materialized in
  map ← index_items 0 originals (replicate (length its) 0%nat);
  map ← index_boundaries originals boundary_indices map;
  Some (mkProjection (snd <$> materialized) map).

(** The part of [build_request] that depends on the context: the items of the request and the
    cache anchor, moved to where its item went. *)
Definition build_request_items (cache_anchor : option nat) (context : list Item)
  : option (list Item * option nat) :=
  projection ← materialize_provider_history context;
  Some (items projection, a ← cache_anchor; original_to_projected_index projection !! a).

(** ** Lemmas on sorting *)
Section sort_lemmas.
Context {A K : Type} (le : K → K → bool) (key : A → K).
Context (le_total : ∀ a b, le a b = false → le b a = true).
Context (le_trans : ∀ a b c, le a b = true → le b c = true → le a c = true).

Lemma insert_by_perm x l : insert_by le key x l ≡ₚ x :: l.
Proof using Type.
  induction l as [|y l IH]; simpl; [done|]. destruct (le _ _); [done|].
  rewrite IH. apply Permutation_swap.
Qed.

Lemma sort_by_perm l : sort_by_key le key l ≡ₚ l.
Proof using Type. induction l as [|x l IH]; simpl; [done|]. by rewrite insert_by_perm, IH. Qed.

Lemma insert_by_sorted x l :
  StronglySorted (λ x y, le (key x) (key y) = true) l →
  StronglySorted (λ x y, le (key x) (key y) = true) (insert_by le key x l).
Proof using le_total le_trans.
  induction 1 as [|y l Hl IH Hy]; simpl; [by repeat constructor|].
  destruct (le (key x) (key y)) eqn:Hxy.
  - constructor; [by constructor|]. constructor; [done|].
    eapply Forall_impl; [exact Hy|]. intros z Hz. by eapply le_trans.
  - constructor; [done|]. rewrite insert_by_perm. constructor; [by apply le_total|done].
Qed.

Lemma sort_by_sorted l : StronglySorted (λ x y, le (key x) (key y) = true) (sort_by_key le key l).
Proof using le_total le_trans.
  induction l as [|x l IH]; simpl; [constructor|]. by apply insert_by_sorted.
Qed.

(** Elements of one class keep their order. *)
Lemma sort_by_stable (P : A → bool) l :
  (∀ x y, P x = true → P y = true → le (key x) (key y) = true) →
  List.filter P (sort_by_key le key l) = List.filter P l.
Proof using Type.
  intros HP. induction l as [|x l IH]; [done|]. cbn [sort_by_key foldr List.filter].
  fold (sort_by_key le key l). rewrite <-IH. generalize (sort_by_key le key l). clear IH l.
  induction l as [|y l IH]; simpl; [by destruct (P x)|].
  destruct (le (key x) (key y)) eqn:Hxy; simpl; [by destruct (P x)|]. rewrite IH.
  destruct (P x) eqn:Hx, (P y) eqn:Hy; try done.
  by rewrite HP in Hxy.
Qed.

(** Sorting commutes with filtering. *)
Lemma sort_by_filter (P : A → bool) l :
  List.filter P (sort_by_key le key l) = sort_by_key le key (List.filter P l).
Proof using le_total le_trans.
  induction l as [|x l IH]; [done|]. cbn [sort_by_key foldr List.filter].
  fold (sort_by_key le key l). pose proof (sort_by_sorted l) as Hs. revert IH Hs.
  generalize (sort_by_key le key l). intros s IH Hs.
  trans (if P x then insert_by le key x (List.filter P s) else List.filter P s).
  2:{ rewrite IH. by destruct (P x). }
  clear IH. induction Hs as [|y s Hs IH Hy]; [simpl; by destruct (P x)|]. simpl.
  destruct (le (key x) (key y)) eqn:Hxy; simpl.
  - destruct (P x) eqn:Hx; [|done]. destruct (P y); simpl; [by rewrite Hxy|].
    assert (Forall (λ z, le (key x) (key z) = true) (List.filter P s)) as Hf.
    { apply Forall_forall. intros z [Hz _]%list_filter_elem_of. rewrite Forall_forall in Hy.
      eapply le_trans; [exact Hxy|]. by apply Hy. }
    destruct (List.filter P s) as [|z r]; [done|]. apply Forall_cons in Hf as [Hz _].
    simpl. by rewrite Hz.
  - rewrite IH. destruct (P x), (P y); simpl; by rewrite ?Hxy.
Qed.

Lemma sort_by_keyed l :
  sort_by_key le fst ((λ x, (key x, x)) <$> l) = (λ x, (key x, x)) <$> sort_by_key le key l.
Proof using Type.
  induction l as [|x l IH]; [done|]. csimpl. fold (sort_by_key le fst ((λ x, (key x, x)) <$> l)).
  rewrite IH. fold (sort_by_key le key l). generalize (sort_by_key le key l). clear IH l.
  induction l as [|y l IH]; [done|]. csimpl. destruct (le _ _); [done|]. by rewrite IH.
Qed.

Lemma try_sort_by_Some (k : A → option K) l :
  (∀ x, x ∈ l → k x = Some (key x)) →
  try_sort_by_key le k l = Some (sort_by_key le key l).
Proof using Type.
  intros Hk. unfold try_sort_by_key.
  assert (mapM (λ x, k0 ← k x; Some (k0, x)) l = Some ((λ x, (key x, x)) <$> l)) as ->.
  { apply mapM_Some_2. clear le_total le_trans. induction l as [|x l IH]; csimpl; constructor.
    - by rewrite Hk by set_solver.
    - apply IH. set_solver. }
  simpl. rewrite sort_by_keyed, <-list_fmap_compose. by rewrite list_fmap_id.
Qed.

End sort_lemmas.

(** The result depends on the comparisons only. *)
Lemma sort_by_ext {A K L} (le : K → K → bool) (le' : L → L → bool) (key : A → K) (key' : A → L) l :
  (∀ x y, x ∈ l → y ∈ l → le (key x) (key y) = le' (key' x) (key' y)) →
  sort_by_key le key l = sort_by_key le' key' l.
Proof.
  induction l as [|x l IH]; intros Heq; [done|]. cbn [sort_by_key foldr].
  fold (sort_by_key le key l) (sort_by_key le' key' l). rewrite IH by set_solver.
  assert (∀ y, y ∈ sort_by_key le' key' l → le (key x) (key y) = le' (key' x) (key' y)) as Hx.
  { intros y Hy. rewrite sort_by_perm in Hy. apply Heq; set_solver. }
  revert Hx. generalize (sort_by_key le' key' l). clear IH Heq.
  induction l0 as [|y l0 IH]; intros Hx; simpl; [done|].
  rewrite Hx by set_solver. destruct (le' _ _); [done|]. f_equal. apply IH. set_solver.
Qed.

Lemma sort_by_fmap {A B K} (le : K → K → bool) (f : A → B) (key : B → K) (l : list A) :
  f <$> sort_by_key le (λ x, key (f x)) l = sort_by_key le key (f <$> l).
Proof.
  induction l as [|x l IH]; [done|]. csimpl. fold (sort_by_key le key (f <$> l)). rewrite <-IH.
  fold (sort_by_key le (λ x, key (f x)) l). generalize (sort_by_key le (λ x, key (f x)) l).
  clear IH l. induction l as [|y l IH]; [done|]. csimpl.
  destruct (le _ _); [done|]. csimpl. by rewrite IH.
Qed.

Lemma pair_le_total a b : pair_le a b = false → pair_le b a = true.
Proof.
  unfold pair_le. rewrite orb_false_iff, orb_true_iff, andb_true_iff, andb_false_iff.
  intros [? [?|?]]; zbool; [left|].
  - apply Z.ltb_lt. lia.
  - destruct (decide (b.1 < a.1)); [left; by apply Z.ltb_lt|].
    right. split; [apply Z.eqb_eq|apply Z.leb_le]; lia.
Qed.

Lemma pair_le_iff a b : pair_le a b = true ↔ a.1 < b.1 ∨ (a.1 = b.1 ∧ a.2 <= b.2).
Proof. unfold pair_le. by rewrite orb_true_iff, andb_true_iff, Z.ltb_lt, Z.eqb_eq, Z.leb_le. Qed.

Lemma pair_le_trans a b c : pair_le a b = true → pair_le b c = true → pair_le a c = true.
Proof. rewrite !pair_le_iff. lia. Qed.

Lemma Zleb_total a b : (a <=? b) = false → (b <=? a) = true.
Proof. intros. zbool. apply Z.leb_le. lia. Qed.

Lemma Zleb_trans a b c : (a <=? b) = true → (b <=? c) = true → (a <=? c) = true.
Proof. intros. zbool. apply Z.leb_le. lia. Qed.

#[local] Hint Resolve pair_le_total pair_le_trans Zleb_total Zleb_trans : yoi.

(** ** Reordered segments

    [l'] has the indices and the items of [l] in another order, the items that are neither
    calls nor results keep theirs, and an index stays with its item, except that calls may
    trade places. *)
Definition slot (x x' : Item) : Prop := if is_call x then is_call x' = true else x' = x.

Record reordered (l l' : list (nat * Item)) : Prop := {
  re_indices : l'.*1 ≡ₚ l.*1;
  re_items : l'.*2 ≡ₚ l.*2;
  re_rest : List.filter (λ p, negb (is_tool p.2)) l' = List.filter (λ p, negb (is_tool p.2)) l;
  re_slot : ∀ i x, (i, x) ∈ l → ∃ x', (i, x') ∈ l' ∧ slot x x'
}.

Lemma slot_refl x : slot x x.
Proof. unfold slot. destruct (is_call x) eqn:?; congruence. Qed.

Lemma slot_trans x y z : slot x y → slot y z → slot x z.
Proof. unfold slot. destruct (is_call x) eqn:Hx; intros H; [by rewrite H|]. subst. by rewrite Hx. Qed.

Lemma reordered_perm l l' :
  l' ≡ₚ l →
  List.filter (λ p, negb (is_tool p.2)) l' = List.filter (λ p, negb (is_tool p.2)) l →
  reordered l l'.
Proof.
  intros Hp Hf. split; [by rewrite Hp|by rewrite Hp|done|].
  intros i x Hin. exists x. split; [by rewrite Hp|apply slot_refl].
Qed.

Lemma reordered_refl l : reordered l l.
Proof. by apply reordered_perm. Qed.

Lemma reordered_trans l1 l2 l3 : reordered l1 l2 → reordered l2 l3 → reordered l1 l3.
Proof.
  intros [A1 B1 C1 D1] [A2 B2 C2 D2]. split; [by rewrite A2|by rewrite B2|by rewrite C2|].
  intros i x (y & Hy & Hs)%D1. destruct (D2 _ _ Hy) as (z & Hz & Hs').
  exists z. split; [done|]. by eapply slot_trans.
Qed.

Lemma reordered_app l1 l1' l2 l2' :
  reordered l1 l1' → reordered l2 l2' → reordered (l1 ++ l2) (l1' ++ l2').
Proof.
  intros [A1 B1 C1 D1] [A2 B2 C2 D2]. split.
  - by rewrite !fmap_app, A1, A2.
  - by rewrite !fmap_app, B1, B2.
  - by rewrite !List.filter_app, C1, C2.
  - intros i x [H|H]%elem_of_app;
      [destruct (D1 _ _ H) as (y&?&?)|destruct (D2 _ _ H) as (y&?&?)];
      exists y; (split; [|done]); apply elem_of_app; auto.
Qed.

Lemma reordered_cons p l l' : reordered l l' → reordered (p :: l) (p :: l').
Proof. apply (reordered_app [p] [p]), reordered_refl. Qed.

#[local] Hint Resolve reordered_refl reordered_app reordered_cons : yoi.

(** ** Calls before results *)

Definition call_id_of (i : Item) : option string :=
  match i with ToolCall c => Some (tc_call_id c) | _ => None end.

Definition result_id_of (i : Item) : option string :=
  match i with ToolResult r => Some (tr_call_id r) | _ => None end.

Definition call_ids (l : list Item) : list string := omap call_id_of l.
Definition result_ids (l : list Item) : list string := omap result_id_of l.

(** Every result comes after a call with its id; [seen] are the ids of earlier calls. *)
Fixpoint results_follow (seen : list string) (l : list Item) : bool :=
  match l with
  | [] => true
  | ToolCall c :: r => results_follow (tc_call_id c :: seen) r
  | ToolResult t :: r => bool_decide (tr_call_id t ∈ seen) && results_follow seen r
  | _ :: r => results_follow seen r
  end.

(** No call comes after a message of the user or the system of its response. *)
Fixpoint calls_lead (blocked : bool) (l : list Item) : bool :=
  match l with
  | [] => true
  | i :: r =>
      if is_boundary i then calls_lead false r
      else if is_host_message i then calls_lead true r
      else negb (is_call i && blocked) && calls_lead blocked r
  end.

(** Every result has its call among [seen] or in the list. *)
Definition covered (seen : list string) (l : list Item) : Prop :=
  ∀ k, k ∈ result_ids l → k ∈ seen ∨ k ∈ call_ids l.

Lemma results_follow_mono l : ∀ seen seen',
  seen ⊆ seen' → results_follow seen l = true → results_follow seen' l = true.
Proof.
  induction l as [|i l IH]; intros seen seen' Hs; simpl; [done|].
  destruct i; try (by apply IH).
  - apply IH. set_solver.
  - rewrite !andb_true_iff, !bool_decide_eq_true. intros [? ?]. split; [set_solver|by eapply IH].
Qed.

Lemma results_follow_app l1 l2 : ∀ seen,
  results_follow seen (l1 ++ l2) = true ↔
  results_follow seen l1 = true ∧ results_follow (call_ids l1 ++ seen) l2 = true.
Proof.
  induction l1 as [|i l1 IH]; intros seen; simpl; [naive_solver|].
  destruct i; simpl; try apply IH.
  - rewrite IH. split; intros [? H]; (split; [done|]); revert H; apply results_follow_mono;
      set_solver.
  - rewrite !andb_true_iff, IH. tauto.
Qed.

Lemma results_follow_covered l : ∀ seen, results_follow seen l = true → covered seen l.
Proof.
  unfold covered. induction l as [|i l IH]; intros seen; simpl; [set_solver|].
  destruct i; simpl; intros H k Hk; try (by apply (IH seen)).
  - destruct (IH _ H k Hk); set_solver.
  - apply andb_true_iff in H as [H%bool_decide_eq_true H'].
    apply elem_of_cons in Hk as [->|Hk]; [by left|]. by apply (IH seen).
Qed.

Lemma covered_perm seen l l' : l' ≡ₚ l → covered seen l → covered seen l'.
Proof. unfold covered, result_ids, call_ids. intros Hp H k. rewrite !Hp. apply H. Qed.

Lemma results_follow_grouped seen l :
  l = List.filter (λ i, negb (is_result i)) l ++ List.filter is_result l →
  covered seen l → results_follow seen l = true.
Proof.
  intros Hl Hc. rewrite Hl. apply results_follow_app. split.
  - clear. revert seen. induction l as [|i l IH]; intros seen; [done|]. by destruct i; simpl.
  - assert (∀ k, k ∈ result_ids (List.filter is_result l) →
      k ∈ call_ids (List.filter (λ i, negb (is_result i)) l) ++ seen) as Hk.
    { intros k Hk. assert (k ∈ result_ids l) as [?|H']%Hc.
      - clear -Hk. induction l as [|i l IH]; [done|]. destruct i; simpl in *; set_solver.
      - set_solver.
      - apply elem_of_app. left. clear -H'. unfold call_ids in *.
        induction l as [|i l IH]; [done|]. destruct i; simpl in *; set_solver. }
    revert Hk. generalize (call_ids (List.filter (λ i, negb (is_result i)) l) ++ seen).
    clear. induction l as [|i l IH]; intros seen Hk; [done|].
    destruct i; simpl in *; try (by apply IH).
    rewrite bool_decide_eq_true_2 by set_solver. apply IH. set_solver.
Qed.

(** Sorting with the results in the last class groups them at the end. *)
Lemma sorted_groups (key : nat * Item → Z * Z) l :
  (∀ p, p ∈ l → (key p).1 = if is_result p.2 then 1 else 0) →
  StronglySorted (λ x y, pair_le (key x) (key y) = true) l →
  l = List.filter (λ p, negb (is_result p.2)) l ++ List.filter (λ p, is_result p.2) l.
Proof.
  intros Hk Hs. induction Hs as [|x l Hl IH Hx]; [done|]. cbn [List.filter].
  rewrite IH at 1 by set_solver.
  destruct (is_result x.2) eqn:Hr; simpl; [|done].
  assert (List.filter (λ p, negb (is_result p.2)) l = []) as ->; [|done].
  clear IH Hl. induction Hx as [|y l Hxy Hx IH]; [done|]. simpl.
  apply pair_le_iff in Hxy. rewrite !Hk, Hr in Hxy by set_solver.
  destruct (is_result y.2); [|lia]. apply IH. set_solver.
Qed.

Lemma snd_filter (f : Item → bool) (l : list (nat * Item)) :
  (List.filter (λ p, f p.2) l).*2 = List.filter f l.*2.
Proof. induction l as [|p l IH]; [done|]. csimpl. destruct (f p.2); csimpl; by rewrite IH. Qed.

(** What sorting a run or a region does. *)
Lemma sort_group_follow key (l : list (nat * Item)) seen :
  (∀ p, p ∈ l → (key p).1 = if is_result p.2 then 1 else 0) →
  covered seen l.*2 → results_follow seen (sort_by_key pair_le key l).*2 = true.
Proof.
  intros Hk Hc. set (l' := sort_by_key pair_le key l).
  assert (l' ≡ₚ l) as Hp by apply sort_by_perm.
  apply results_follow_grouped; [|by apply (covered_perm _ l.*2); [rewrite Hp|]].
  rewrite (sorted_groups key l') at 1.
  - by rewrite fmap_app, (snd_filter is_result), (snd_filter (λ i, negb (is_result i))).
  - intros p Hin. apply Hk. by rewrite <-Hp.
  - apply sort_by_sorted; eauto with yoi.
Qed.

(** ** The parts of the projection *)

(** [l'] keeps what a request needs of [l]; that results follow their calls may depend on
    [P]. *)
Definition normalized (P : Prop) (l l' : list (nat * Item)) : Prop :=
  reordered l l'
  ∧ (P → ∀ seen, results_follow seen l.*2 = true → results_follow seen l'.*2 = true).

Lemma call_ids_perm l l' : l' ≡ₚ l → call_ids l' ≡ₚ call_ids l.
Proof. unfold call_ids. by intros ->. Qed.

Lemma normalized_app P l1 l1' l2 l2' :
  normalized P l1 l1' → normalized P l2 l2' → normalized P (l1 ++ l2) (l1' ++ l2').
Proof.
  intros [H1 F1] [H2 F2]. split; [by apply reordered_app|]. intros HP seen.
  rewrite !fmap_app, !results_follow_app. intros [Ha Hb]. split; [by apply F1|].
  apply F2; [done|]. revert Hb. apply results_follow_mono.
  rewrite (call_ids_perm _ _ (re_items _ _ H1)). set_solver.
Qed.

Lemma normalized_impl (P Q : Prop) l l' : (Q → P) → normalized P l l' → normalized Q l l'.
Proof. intros HPQ [H F]. split; [done|]. intros HQ. apply F. auto. Qed.

Lemma normalized_refl P l : normalized P l l.
Proof. split; [apply reordered_refl|done]. Qed.

Lemma tool_run_normalized co run :
  Forall (λ p, is_tool p.2 = true) run →
  ∃ run', normalize_tool_run run co = Some run' ∧ normalized True run run'.
Proof.
  intros Hrun. set (key := λ p, default (0, 0) (tool_run_key co p)).
  exists (sort_by_key pair_le key run).
  rewrite Forall_forall in Hrun.
  assert (∀ p, p ∈ run → tool_run_key co p = Some (key p)) as Hkey.
  { intros p Hp%Hrun. unfold key, tool_run_key. by destruct p.2. }
  split; [by apply try_sort_by_Some|]. split.
  - apply reordered_perm; [apply sort_by_perm|]. 
    assert (∀ l, (∀ p, p ∈ l → is_tool p.2 = true) →
      List.filter (λ p : nat * Item, negb (is_tool p.2)) l = []) as Hnil.
    { clear. induction l as [|p l IH]; intros H; [done|]. simpl.
      rewrite H by set_solver. apply IH. set_solver. }
    rewrite !Hnil; [done|done|]. intros p. rewrite sort_by_perm. apply Hrun.
  - intros _ seen Hf%results_follow_covered. apply sort_group_follow; [|done].
    intros p Hp%Hrun. unfold key, tool_run_key. by destruct p.2.
Qed.

Lemma legacy_from_normalized co mat : ∀ run,
  Forall (λ p, is_tool p.2 = true) run →
  ∃ out, normalize_legacy_from co run mat = Some out ∧ normalized True (run ++ mat) out.
Proof.
  induction mat as [|p mat IH]; intros run Hrun; simpl.
  - rewrite app_nil_r. by apply tool_run_normalized.
  - destruct (is_tool p.2) eqn:Hp.
    + destruct (IH (run ++ [p])) as (out & -> & Hout); [by apply Forall_app; auto|].
      exists out. by rewrite <-app_assoc in Hout.
    + destruct (tool_run_normalized co run Hrun) as (run' & -> & Hr). simpl.
      destruct (IH [] (Forall_nil_2 _)) as (out & -> & Hout). simpl.
      eexists. split; [done|]. apply normalized_app; [done|].
      apply (normalized_app _ [p] [p]); [apply normalized_refl|done].
Qed.

Lemma region_key_class co p : (region_key co p).1 = if is_result p.2 then 1 else 0.
Proof. unfold region_key. by destruct p.2. Qed.

Lemma region_reordered co l : reordered l (sort_by_key pair_le (region_key co) l).
Proof.
  apply reordered_perm; [apply sort_by_perm|]. apply sort_by_stable. intros x y.
  unfold region_key. destruct x.2, y.2; simpl; try discriminate; by intros.
Qed.

Lemma sort_regions_reordered co rest : ∀ region,
  reordered (region ++ rest) (sort_regions co region rest).
Proof.
  induction rest as [|p rest IH]; intros region; simpl.
  - rewrite app_nil_r. apply region_reordered.
  - destruct (is_host_message p.2).
    + apply reordered_app; [apply region_reordered|]. apply reordered_cons. apply (IH []).
    + specialize (IH (region ++ [p])). by rewrite <-app_assoc in IH.
Qed.

Lemma calls_lead_blocked l :
  Forall (λ i, is_boundary i = false) l → calls_lead true l = true → call_ids l = [].
Proof.
  induction 1 as [|i l Hi Hl IH]; [done|]. simpl. rewrite Hi.
  destruct i as [m| | | |]; simpl; try done; destruct (role m); done.
Qed.

Lemma calls_lead_weaken l : calls_lead true l = true → calls_lead false l = true.
Proof.
  induction l as [|i l IH]; [done|]. simpl. destruct (is_boundary i); [done|].
  destruct (is_host_message i); [done|]. rewrite !andb_true_iff, andb_false_r. naive_solver.
Qed.

Lemma sort_regions_follow co rest : ∀ region seen,
  Forall (λ i, is_boundary i = false) rest.*2 →
  calls_lead false rest.*2 = true → covered seen (region ++ rest).*2 →
  results_follow seen (sort_regions co region rest).*2 = true.
Proof.
  induction rest as [|p rest IH]; intros region seen Hnb Hlead Hcov; simpl.
  { rewrite app_nil_r in Hcov. apply sort_group_follow; [|done].
    intros; apply region_key_class. }
  csimpl in *. apply Forall_cons in Hnb as [Hp Hnb]. rewrite Hp in Hlead.
  destruct (is_host_message p.2) eqn:Hh.
  - assert (call_ids (p.2 :: rest.*2) = []) as Hnone.
    { csimpl. rewrite (calls_lead_blocked _ Hnb Hlead). by destruct p.2. }
    unfold covered in Hcov. rewrite fmap_app in Hcov. csimpl in Hcov.
    unfold result_ids, call_ids in *. rewrite !omap_app in Hcov. rewrite Hnone in Hcov.
    rewrite fmap_app, results_follow_app. csimpl. split.
    { apply sort_group_follow; [intros; apply region_key_class|].
      unfold covered, result_ids, call_ids. set_solver. }
    assert (results_follow (call_ids (sort_by_key pair_le (region_key co) region).*2 ++ seen)
      (sort_regions co [] rest).*2 = true) as Hrest.
    { apply IH; [done|by apply calls_lead_weaken|]. unfold covered, result_ids, call_ids.
      csimpl. intros k Hk. rewrite sort_by_perm. left.
      destruct (Hcov k); [|set_solver..]. destruct p.2; csimpl in *; set_solver. }
    by destruct p.2 as [m| | | |].
  - apply andb_true_iff in Hlead as [_ Hlead]. apply IH; [done|done|].
    by rewrite <-app_assoc.
Qed.

Lemma fill_call_slots_spec response : ∀ calls,
  length calls = length (List.filter is_call response.*2) →
  Forall (λ i, is_call i = true) calls →
  ∃ out, fill_call_slots calls response = Some out
    ∧ Forall2 (λ p q, q.1 = p.1 ∧ slot p.2 q.2) response out
    ∧ List.filter is_call out.*2 = calls.
Proof.
  induction response as [|p response IH]; intros calls; csimpl.
  { destruct calls; [|done]. intros. exists []. by repeat constructor. }
  destruct (is_call p.2) eqn:Hp; csimpl.
  - destruct calls as [|c calls]; [done|]. intros [= Hlen] [Hc Hcalls]%Forall_cons.
    destruct (IH calls Hlen Hcalls) as (out & -> & Hout & <-). simpl.
    eexists. split; [done|]. csimpl. rewrite Hc. split; [|done].
    constructor; [|done]. split; [done|]. unfold slot. by rewrite Hp.
  - intros Hlen Hcalls. destruct (IH calls Hlen Hcalls) as (out & -> & Hout & <-). simpl.
    eexists. split; [done|]. csimpl. rewrite Hp. split; [|done].
    constructor; [|done]. split; [done|apply slot_refl].
Qed.

Lemma slots_fst (l l' : list (nat * Item)) :
  Forall2 (λ p q, q.1 = p.1 ∧ slot p.2 q.2) l l' → l'.*1 = l.*1.
Proof. induction 1 as [|???? [? ?] ? IH]; csimpl; congruence. Qed.

(** Filtering on a property of items that only depends on the item in its slot. *)
Lemma slots_filter (f : Item → bool) (l l' : list (nat * Item)) :
  (∀ i, is_call i = true → f i = false) →
  Forall2 (λ p q, q.1 = p.1 ∧ slot p.2 q.2) l l' →
  List.filter (λ p, f p.2) l' = List.filter (λ p, f p.2) l.
Proof.
  intros Hf. induction 1 as [|[i x] [j y] l l' [Hi Hs] Hl IH]; [done|]. simpl in *. subst j.
  unfold slot in Hs. destruct (is_call x) eqn:Hx; [|by subst y; rewrite IH].
  by rewrite !Hf, IH.
Qed.

Lemma filter_split_perm {A} (f : A → bool) l :
  l ≡ₚ List.filter f l ++ List.filter (λ x, negb (f x)) l.
Proof.
  induction l as [|x l IH]; simpl; [done|]. destruct (f x); simpl; rewrite IH at 1; [done|].
  by rewrite Permutation_middle.
Qed.

Lemma slots_reordered l l' :
  Forall2 (λ p q, q.1 = p.1 ∧ slot p.2 q.2) l l' →
  List.filter is_call l'.*2 ≡ₚ List.filter is_call l.*2 → reordered l l'.
Proof.
  intros Hl Hc. split.
  - by rewrite (slots_fst _ _ Hl).
  - rewrite (filter_split_perm is_call l'.*2), (filter_split_perm is_call l.*2), Hc.
    rewrite <-!(snd_filter (λ i, negb (is_call i))).
    rewrite (slots_filter (λ i, negb (is_call i)) l l'); [done| |done]. by intros i ->.
  - apply (slots_filter (λ i, negb (is_tool i))); [|done].
    intros i Hi. unfold is_tool. by rewrite Hi.
  - intros i x [k Hk]%list_elem_of_lookup_1.
    destruct (Forall2_lookup_l _ _ _ _ _ Hl Hk) as ([j y] & Hy & Hi & Hs). simpl in *. subst j.
    exists y. split; [by eapply list_elem_of_lookup_2|done].
Qed.

Lemma slots_lead (l l' : list (nat * Item)) :
  Forall2 (λ p q, q.1 = p.1 ∧ slot p.2 q.2) l l' →
  (∀ b, calls_lead b l'.*2 = calls_lead b l.*2)
  ∧ (Forall (λ i, is_boundary i = false) l.*2 → Forall (λ i, is_boundary i = false) l'.*2)
  ∧ (Forall (λ i, is_host_message i = false) l.*2 →
     Forall (λ i, is_host_message i = false) l'.*2).
Proof.
  induction 1 as [|[i x] [j y] l l' [Hi Hs] Hl (IH1 & IH2 & IH3)]; [done|]. csimpl in *.
  unfold slot in Hs. rewrite !Forall_cons.
  destruct x; simpl in Hs; [subst y..| |subst y|subst y]; [| |destruct y; try done|..];
    (split; [intros b; simpl; by rewrite ?IH1|]); by rewrite ?Forall_cons; naive_solver.
Qed.

(** The calls of a response in the order of their keys. *)
Definition sorted_calls (co : gmap string Z) (l : list Item) : list Item :=
  sort_by_key Z.leb (λ i, default 0 (call_slot_key co i)) (List.filter is_call l).

(** What filling the slots of a response gives. *)
Lemma filled_response co response :
  ∃ filled, normalize_response_history response co = Some (sort_regions co [] filled)
    ∧ Forall2 (λ p q, q.1 = p.1 ∧ slot p.2 q.2) response filled
    ∧ List.filter is_call filled.*2 = sorted_calls co response.*2.
Proof.
  unfold normalize_response_history.
  rewrite (try_sort_by_Some _ (λ i, default 0 (call_slot_key co i))).
  2:{ intros i [_ Hi]%list_filter_elem_of. by destruct i. }
  change (sort_by_key Z.leb _ _) with (sorted_calls co response.*2). simpl.
  assert (sorted_calls co response.*2 ≡ₚ List.filter is_call response.*2) as Hp
    by apply sort_by_perm.
  destruct (fill_call_slots_spec response (sorted_calls co response.*2))
    as (filled & -> & Hf & Hc); [by rewrite Hp| |by eauto].
  apply Forall_forall. intros i. rewrite Hp. by intros [_ Hi]%list_filter_elem_of.
Qed.

Lemma response_normalized co response :
  Forall (λ i, is_boundary i = false) response.*2 →
  ∃ out, normalize_response_history response co = Some out
    ∧ normalized (calls_lead false response.*2 = true) response out.
Proof.
  intros Hnb. destruct (filled_response co response) as (filled & -> & Hf & Hc).
  assert (reordered response filled) as Hre.
  { apply slots_reordered; [done|]. rewrite Hc. apply sort_by_perm. }
  destruct (slots_lead _ _ Hf) as (Hlead & Hnb' & _).
  eexists. split; [done|]. split.
  - eapply reordered_trans; [exact Hre|]. apply (sort_regions_reordered co filled []).
  - intros HP seen Hs. apply sort_regions_follow; [by apply Hnb'|by rewrite Hlead|].
    eapply covered_perm; [exact (re_items _ _ Hre)|]. by apply results_follow_covered.
Qed.

Lemma sort_regions_plain co rest : ∀ region,
  Forall (λ i, is_host_message i = false) rest.*2 →
  sort_regions co region rest = sort_by_key pair_le (region_key co) (region ++ rest).
Proof.
  induction rest as [|p rest IH]; intros region; csimpl; [by rewrite app_nil_r|].
  intros [Hp Hr]%Forall_cons. rewrite Hp, IH by done. by rewrite <-app_assoc.
Qed.

(** The results of a response in the order of their calls. *)
Definition sorted_results (co : gmap string Z) (l : list Item) : list Item :=
  sort_by_key Z.leb (λ i, match i with ToolResult r => result_key co r | _ => 0 end)
    (List.filter is_result l).

(** The order of a response the host did not interrupt: its body, with the calls by key in
    the places of calls, then its results by key. *)
Record response_order (co : gmap string Z) (response out : list Item) : Prop := {
  ro_grouped : out = List.filter (λ i, negb (is_result i)) out ++ List.filter is_result out;
  ro_places : is_call <$> List.filter (λ i, negb (is_result i)) out
              = is_call <$> List.filter (λ i, negb (is_result i)) response;
  ro_calls : List.filter is_call out = sorted_calls co response;
  ro_results : List.filter is_result out = sorted_results co response;
  ro_rest : List.filter (λ i, negb (is_tool i)) out
            = List.filter (λ i, negb (is_tool i)) response
}.

Lemma response_ordered co response out :
  Forall (λ i, is_host_message i = false) response.*2 →
  normalize_response_history response co = Some out →
  response_order co response.*2 out.*2.
Proof.
  intros Hh Hout. destruct (filled_response co response) as (filled & Hn & Hf & Hc).
  rewrite Hn in Hout. injection Hout as <-.
  destruct (slots_lead _ _ Hf) as (_ & _ & Hh'). rewrite sort_regions_plain by auto. simpl.
  set (out := sort_by_key pair_le (region_key co) filled).
  assert (∀ f : Item → bool, (∀ i, f i = true → is_result i = false) →
    List.filter (λ p, f p.2) out = List.filter (λ p, f p.2) filled) as Hstable.
  { intros f Hfr. apply sort_by_stable. intros x y Hx%Hfr Hy%Hfr. unfold region_key.
    by destruct x.2, y.2. }
  split.
  - rewrite (sorted_groups (region_key co) out) at 1.
    + by rewrite fmap_app, (snd_filter is_result), (snd_filter (λ i, negb (is_result i))).
    + intros; apply region_key_class.
    + apply sort_by_sorted; eauto with yoi.
  - rewrite <-!(snd_filter (λ i, negb (is_result i))), (Hstable (λ i, negb (is_result i)))
      by (intros i; apply negb_true_iff).
    clear -Hf. induction Hf as [|[i x] [j y] l l' [_ Hs] Hl IH]; [done|]. simpl.
    unfold slot in Hs. simpl in Hs. destruct x; simpl in Hs; [subst y..| |subst y|subst y];
      [| |destruct y; try done|..]; csimpl; by rewrite IH.
  - rewrite <-(snd_filter is_call), (Hstable is_call), (snd_filter is_call) by (by intros []).
    done.
  - rewrite <-(snd_filter is_result). unfold out. 
    rewrite sort_by_filter by eauto with yoi.
    rewrite (slots_filter is_result _ _ (ltac:(by intros [])) Hf).
    unfold sorted_results. rewrite <-(snd_filter is_result), <-sort_by_fmap. f_equal.
    apply sort_by_ext. intros x y [_ Hx]%list_filter_elem_of [_ Hy]%list_filter_elem_of.
    unfold region_key. by destruct x.2, y.2.
  - rewrite <-!(snd_filter (λ i, negb (is_tool i))), (Hstable (λ i, negb (is_tool i)))
      by (by intros []).
    f_equal. apply (slots_filter (λ i, negb (is_tool i))); [|done]. by intros [].
Qed.

(** ** The responses of a history *)

Definition not_boundary (l : list (nat * Item)) : list (nat * Item) :=
  List.filter (λ p, negb (is_boundary p.2)) l.

(** The items after the first boundary, response by response. *)
Inductive chunks (co : gmap string Z) : nat → list Item → list (nat * Item) → Prop :=
| chunks_nil index : chunks co index [] []
| chunks_cons index b response rest out new :
    is_boundary b = true → Forall (λ i, is_boundary i = false) response →
    normalize_response_history (enumerate (S index) response) co = Some out →
    chunks co (S index + length response) rest new →
    chunks co index (b :: response ++ rest) (out ++ new).

Fixpoint boundary_positions (index : nat) (l : list Item) : list nat :=
  match l with
  | [] => []
  | i :: r => if is_boundary i then index :: boundary_positions (S index) r
              else boundary_positions (S index) r
  end.

Lemma boundary_positions_app l1 l2 : ∀ index,
  boundary_positions index (l1 ++ l2)
  = boundary_positions index l1 ++ boundary_positions (index + length l1) l2.
Proof.
  induction l1 as [|i l1 IH]; intros index; simpl; [by rewrite Nat.add_0_r|].
  rewrite IH, Nat.add_succ_comm. by destruct (is_boundary i).
Qed.

Lemma boundary_positions_none l : ∀ index,
  Forall (λ i, is_boundary i = false) l → boundary_positions index l = [].
Proof.
  induction l as [|i l IH]; intros index; [done|]. intros [Hi Hl]%Forall_cons. simpl.
  rewrite Hi. by apply IH.
Qed.

Lemma boundary_positions_elem l b : ∀ index,
  b ∈ boundary_positions index l ↔
  ∃ k i, b = (index + k)%nat ∧ l !! k = Some i ∧ is_boundary i = true.
Proof.
  induction l as [|i l IH]; intros index; simpl.
  { split; [by intros ?%elem_of_nil|]. by intros (? & ? & _ & ? & _). }
  assert (b ∈ boundary_positions (S index) l ↔
    ∃ k j, b = (index + S k)%nat ∧ l !! k = Some j ∧ is_boundary j = true) as IH'.
  { rewrite IH. by setoid_rewrite Nat.add_succ_r. }
  destruct (is_boundary i) eqn:Hi; rewrite ?elem_of_cons, IH'; split.
  - intros [->|(k & j & ? & ? & ?)]; [exists 0%nat, i|by exists (S k), j].
    split; [lia|done].
  - intros ([|k] & j & -> & Hj & Hb); [left; lia|right; by exists k, j].
  - intros (k & j & ? & ? & ?). by exists (S k), j.
  - intros ([|k] & j & -> & Hj & Hb); simpl in Hj; [congruence|by exists k, j].
Qed.

(** The part before the first boundary, and what follows. *)
Lemma position_boundary_split (l : list Item) :
  let n := default (length l) (position is_boundary l) in
  Forall (λ i, is_boundary i = false) (take n l)
  ∧ match drop n l with [] => True | i :: _ => is_boundary i = true end.
Proof.
  induction l as [|i l IH]; simpl; [done|].
  destruct (is_boundary i) eqn:Hi; simpl; [done|].
  destruct (position is_boundary l) as [k|]; simpl in *; destruct IH as [? ?]; auto.
Qed.

Lemma enumerate_fst {A} start (l : list A) : (enumerate start l).*1 = seq start (length l).
Proof. unfold enumerate. apply fst_zip. by rewrite length_seq. Qed.

Lemma enumerate_snd {A} start (l : list A) : (enumerate start l).*2 = l.
Proof. unfold enumerate. apply snd_zip. by rewrite length_seq. Qed.

Lemma enumerate_app {A} start (l1 l2 : list A) :
  enumerate start (l1 ++ l2) = enumerate start l1 ++ enumerate (start + length l1) l2.
Proof.
  unfold enumerate. rewrite length_app, seq_app, zip_with_app; [done|]. by rewrite length_seq.
Qed.

Lemma enumerate_lookup {A} start (l : list A) k x :
  (k, x) ∈ enumerate start l ↔ (start ≤ k)%nat ∧ l !! (k - start)%nat = Some x.
Proof.
  revert start. induction l as [|y l IH]; intros start; unfold enumerate; simpl.
  { split; [by intros ?%elem_of_nil|]. by intros [_ ?]. }
  fold (enumerate (S start) l). rewrite elem_of_cons, IH. split.
  - intros [[= -> ->]|[H1 H2]]; [by rewrite Nat.sub_diag|]. split; [lia|].
    by replace (k - start)%nat with (S (k - S start)) by lia.
  - intros [H1 H2]. destruct (decide (k = start)) as [->|]; [rewrite Nat.sub_diag in H2|].
    + left. by injection H2 as ->.
    + right. split; [lia|]. by replace (k - start)%nat with (S (k - S start)) in H2 by lia.
Qed.

Lemma responses_chunks co fuel : ∀ index rest mat bs,
  (length rest ≤ fuel)%nat →
  match rest with [] => True | i :: _ => is_boundary i = true end →
  ∃ new, responses fuel co index rest mat bs
         = Some (mat ++ new, bs ++ boundary_positions index rest)
    ∧ chunks co index rest new.
Proof.
  induction fuel as [|fuel IH]; intros index [|b rest] mat bs Hlen Hb; simpl in Hlen;
    try lia; try (exists []; split; [simpl; by rewrite !app_nil_r|constructor]).
  simpl. rewrite Hb.
  pose proof (position_boundary_split rest) as [Hnb Hnext]. cbv zeta in Hnb, Hnext.
  set (n := default (length rest) (position is_boundary rest)) in *.
  destruct (response_normalized co (enumerate (S index) (take n rest))) as (out & Hout & _).
  { by rewrite enumerate_snd. }
  rewrite Hout. simpl.
  assert (length (take n rest) = n) as Hn.
  { unfold n. rewrite length_take. destruct (position is_boundary rest) as [k|] eqn:Hk; simpl.
    - apply position_Some in Hk as (? & ?%lookup_lt_Some & _). lia.
    - lia. }
  destruct (IH (S (index + n)) (drop n rest) (mat ++ out) (bs ++ [index]))
    as (new & -> & Hnew); [rewrite length_drop; lia|done|].
  exists (out ++ new). rewrite <-!app_assoc. split.
  - assert (boundary_positions (S index) rest
      = boundary_positions (S (index + n)) (drop n rest)) as ->; [|done].
    transitivity (boundary_positions (S index) (take n rest ++ drop n rest));
      [by rewrite take_drop|].
    by rewrite boundary_positions_app, boundary_positions_none, Hn.
  - rewrite <-(take_drop n rest). constructor; [done|done|done|]. by rewrite Hn.
Qed.

Lemma calls_lead_app l1 l2 : ∀ blocked,
  calls_lead blocked (l1 ++ l2) = true →
  calls_lead blocked l1 = true ∧ calls_lead false l2 = true.
Proof.
  induction l1 as [|i l1 IH]; intros blocked; simpl.
  { destruct blocked; [|done]. by intros ?%calls_lead_weaken. }
  destruct (is_boundary i), (is_host_message i); try apply IH.
  rewrite !andb_true_iff. intros [? ?%IH]. tauto.
Qed.

Lemma not_boundary_all (l : list (nat * Item)) :
  Forall (λ i, is_boundary i = false) l.*2 → not_boundary l = l.
Proof.
  induction l as [|p l IH]; [done|]. csimpl. intros [Hp Hl]%Forall_cons.
  unfold not_boundary. simpl. rewrite Hp. simpl. f_equal. by apply IH.
Qed.

Lemma enumerate_cons {A} start (x : A) l : enumerate start (x :: l) = (start, x) :: enumerate (S start) l.
Proof. done. Qed.

Lemma chunks_normalized co index rest new :
  chunks co index rest new →
  normalized (calls_lead false rest = true) (not_boundary (enumerate index rest)) new.
Proof.
  induction 1 as [index|index b response rest out new Hb Hr Hout Hch IH];
    [apply normalized_refl|].
  rewrite enumerate_cons, enumerate_app. unfold not_boundary in *. simpl. rewrite Hb. simpl.
  rewrite List.filter_app.
  destruct (response_normalized co (enumerate (S index) response)) as (out' & Hout' & Hn).
  { by rewrite enumerate_snd. }
  rewrite Hout in Hout'. injection Hout' as <-. rewrite enumerate_snd in Hn.
  assert (calls_lead false (response ++ rest) = true →
    calls_lead false response = true ∧ calls_lead false rest = true) as Hlead
    by apply calls_lead_app.
  fold (not_boundary (enumerate (S index) response)).
  rewrite not_boundary_all by (by rewrite enumerate_snd).
  apply normalized_app; [eapply normalized_impl, Hn|eapply normalized_impl, IH]; tauto.
Qed.

Lemma chunks_split co index rest new :
  chunks co index rest new → ∀ r1 b r2, rest = r1 ++ b :: r2 → is_boundary b = true →
  ∃ n1 n2, new = n1 ++ n2 ∧ chunks co index r1 n1
    ∧ chunks co (index + length r1) (b :: r2) n2.
Proof.
  induction 1 as [index|index b0 response rest out new Hb0 Hr Hout Hch IH];
    intros r1 b r2 Heq Hb; [by destruct r1|].
  destruct r1 as [|b1 r1]; simpl in Heq; injection Heq as -> Heq.
  { exists [], (out ++ new). split; [done|]. rewrite <-Heq, Nat.add_0_r. by repeat constructor. }
  assert (∃ k, r1 = response ++ k ∧ rest = k ++ b :: r2) as (k & -> & Hk).
  { apply app_eq_inv in Heq as [(k & -> & Hk)|(k & -> & Hk)]; [|by exists k].
    destruct k as [|j k]; [exists []; by rewrite !app_nil_r|]. injection Hk as <- _.
    apply Forall_app in Hr as [_ [Hj _]%Forall_cons]. congruence. }
  destruct (IH k b r2 Hk Hb) as (n1 & n2 & -> & H1 & H2).
  exists (out ++ n1), n2. rewrite <-app_assoc. split; [done|]. split; [by constructor|].
  revert H2. simpl. rewrite length_app. by replace (S (index + length response + length k))
    with (index + S (length response + length k))%nat by lia.
Qed.

(** ** The index map *)

Lemma vec_set_Some {A} i (x : A) v :
  (i < length v)%nat → vec_set i x v = Some (<[i := x]> v).
Proof. intros. unfold vec_set. by rewrite decide_True. Qed.

Lemma index_items_spec originals : ∀ p map,
  NoDup originals → Forall (λ o, o < length map)%nat originals →
  ∃ map', index_items p originals map = Some map' ∧ length map' = length map
    ∧ (∀ k o, originals !! k = Some o → map' !! o = Some (p + k)%nat)
    ∧ (∀ o, o ∉ originals → map' !! o = map !! o).
Proof.
  induction originals as [|o rest IH]; intros p map; simpl; [intros; exists map; repeat split; set_solver|].
  intros [Ho Hnd]%NoDup_cons [Hlt Hall]%Forall_cons. rewrite vec_set_Some by done. simpl.
  destruct (IH (S p) (<[o := p]> map)) as (map' & -> & Hlen & H1 & H2);
    [done|by rewrite length_insert|].
  rewrite length_insert in Hlen. exists map'. split_and!; [done|done| |].
  - intros [|k] q; simpl; [intros [= <-]|].
    + rewrite H2 by done. rewrite list_lookup_insert_eq by done. f_equal. lia.
    + intros Hq. rewrite (H1 k q Hq). f_equal. lia.
  - intros q [Hne Hq]%not_elem_of_cons. rewrite H2 by done. by rewrite list_lookup_insert_ne.
Qed.

Lemma index_boundaries_spec originals bs : ∀ map,
  Forall (λ b, b < length map)%nat bs →
  ∃ map', index_boundaries originals bs map = Some map' ∧ length map' = length map
    ∧ (∀ b, b ∈ bs →
        map' !! b = Some (length (take_while (λ o, o <? b)%nat originals) - 1)%nat)
    ∧ (∀ o, o ∉ bs → map' !! o = map !! o).
Proof.
  induction bs as [|b bs IH]; intros map; simpl.
  { intros _. exists map. by repeat split; try set_solver. }
  intros [Hlt Hall]%Forall_cons. rewrite vec_set_Some by done. simpl.
  set (v := (length (take_while (λ o, o <? b)%nat originals) - 1)%nat).
  destruct (IH (<[b := v]> map)) as (map' & -> & Hlen & H1 & H2); [by rewrite length_insert|].
  rewrite length_insert in Hlen. exists map'. split_and!; [done|done| |].
  - intros c [->|Hc]%elem_of_cons; [|by apply H1].
    destruct (decide (b ∈ bs)) as [Hin|Hin]; [by apply H1|].
    rewrite H2 by done. by rewrite list_lookup_insert_eq.
  - intros c [Hne Hc]%not_elem_of_cons. rewrite H2 by done. by rewrite list_lookup_insert_ne.
Qed.

Lemma take_while_cut (b : nat) l1 l2 :
  Forall (λ o, o < b)%nat l1 → Forall (λ o, b < o)%nat l2 →
  take_while (λ o, o <? b)%nat (l1 ++ l2) = l1.
Proof.
  intros H1 H2. induction H1 as [|o l1 Ho H1 IH]; simpl.
  - destruct H2 as [|o l2 Ho H2]; simpl; [done|]. by rewrite (proj2 (Nat.ltb_ge _ _)) by lia.
  - by rewrite (proj2 (Nat.ltb_lt _ _) Ho), IH.
Qed.

Lemma not_boundary_indices start l o :
  o ∈ (not_boundary (enumerate start l)).*1 ↔
  (start ≤ o)%nat ∧ ∃ i, l !! (o - start)%nat = Some i ∧ is_boundary i = false.
Proof.
  rewrite list_elem_of_fmap. unfold not_boundary. split.
  - intros ([k i] & -> & [Hin Hb]%list_filter_elem_of). simpl in *.
    apply enumerate_lookup in Hin as [? ?]. apply negb_true_iff in Hb. eauto.
  - intros (Hle & i & Hi & Hb). exists (o, i). split; [done|]. apply list_filter_elem_of.
    split; [by apply enumerate_lookup|]. simpl. by rewrite Hb.
Qed.

Lemma not_boundary_NoDup start l : NoDup (not_boundary (enumerate start l)).*1.
Proof.
  assert (NoDup (enumerate start l).*1) as H by (rewrite enumerate_fst; apply NoDup_seq).
  revert H. generalize (enumerate start l). unfold not_boundary.
  induction l0 as [|p l0 IH]; csimpl; [done|]. intros [Hp Hl]%NoDup_cons.
  destruct (negb _); csimpl; [|by apply IH]. constructor; [|by apply IH].
  intros (q & Hq & [Hin _]%list_filter_elem_of)%list_elem_of_fmap. apply Hp.
  rewrite Hq. by apply list_elem_of_fmap_2.
Qed.

(** ** The projection *)

Definition legacy_end (its : list Item) : nat := default (length its) (position is_boundary its).

Lemma legacy_end_length its : length (take (legacy_end its) its) = legacy_end its.
Proof.
  rewrite length_take. unfold legacy_end.
  destruct (position is_boundary its) as [k|] eqn:Hk; simpl; [|lia].
  apply position_Some in Hk as (? & ?%lookup_lt_Some & _). lia.
Qed.

Lemma enumerate_legacy its :
  not_boundary (enumerate 0 its)
  = enumerate 0 (take (legacy_end its) its)
    ++ not_boundary (enumerate (legacy_end its) (drop (legacy_end its) its)).
Proof.
  rewrite <-(take_drop (legacy_end its) its) at 1.
  rewrite enumerate_app, legacy_end_length. unfold not_boundary. rewrite List.filter_app.
  f_equal. apply not_boundary_all. rewrite enumerate_snd. apply position_boundary_split.
Qed.

Lemma legacy_normalized co its :
  ∃ legacy, normalize_legacy_history (enumerate 0 (take (legacy_end its) its)) co = Some legacy
    ∧ normalized True (enumerate 0 (take (legacy_end its) its)) legacy.
Proof. apply (legacy_from_normalized co _ []). constructor. Qed.

Section shape.
Context (its : list Item).
Abbreviation co := (collect_call_order its 0 ∅).

Lemma originals_normalized legacy new :
  normalized True (enumerate 0 (take (legacy_end its) its)) legacy →
  chunks co (legacy_end its) (drop (legacy_end its) its) new →
  normalized (calls_lead false (drop (legacy_end its) its) = true)
    (not_boundary (enumerate 0 its)) (legacy ++ new).
Proof using Type.
  intros Hl Hn. rewrite enumerate_legacy. apply normalized_app.
  - by eapply normalized_impl, Hl.
  - by apply chunks_normalized in Hn.
Qed.

(** A boundary cuts the projection where it cut the history. *)
Lemma boundary_cut legacy new r1 b r2 :
  normalized True (enumerate 0 (take (legacy_end its) its)) legacy →
  chunks co (legacy_end its) (drop (legacy_end its) its) new →
  its = r1 ++ b :: r2 → is_boundary b = true →
  ∃ pre post, legacy ++ new = pre ++ post ∧ reordered (not_boundary (enumerate 0 r1)) pre
    ∧ chunks co (length r1) (b :: r2) post.
Proof using Type.
  intros Hl Hn Hits Hb. pose proof (position_boundary_split its) as [Hnb _].
  fold (legacy_end its) in Hnb.
  assert (∃ k, r1 = take (legacy_end its) its ++ k ∧ drop (legacy_end its) its = k ++ b :: r2)
    as (k & Hr1 & Hk).
  { pose proof (eq_trans (take_drop (legacy_end its) its) Hits) as Heq.
    apply app_eq_inv in Heq as [(k & Ht & Hk)|(k & -> & Hk)]; [|by exists k].
    destruct k as [|j k]; [exists []; by rewrite app_nil_r in *|]. injection Hk as <- _.
    rewrite Ht in Hnb. apply Forall_app in Hnb as [_ [Hj _]%Forall_cons]. congruence. }
  destruct (chunks_split _ _ _ _ Hn k b r2 Hk Hb) as (n1 & n2 & -> & H1 & H2).
  exists (legacy ++ n1), n2. rewrite <-app_assoc. split; [done|]. split.
  - rewrite Hr1, enumerate_app, legacy_end_length. unfold not_boundary.
    rewrite List.filter_app. apply reordered_app; [|exact (proj1 (chunks_normalized _ _ _ _ H1))].
    fold (not_boundary (enumerate 0 (take (legacy_end its) its))).
    rewrite not_boundary_all by (by rewrite enumerate_snd). apply Hl.
  - rewrite Hr1 at 1. by rewrite length_app, legacy_end_length.
Qed.

Lemma originals_cut pre post r1 b r2 :
  reordered (not_boundary (enumerate 0 r1)) pre → chunks co (length r1) (b :: r2) post →
  is_boundary b = true →
  length (take_while (λ o, o <? length r1)%nat (pre ++ post).*1)
  = length (List.filter (λ i, negb (is_boundary i)) r1).
Proof using Type.
  intros Hpre Hpost Hb. rewrite fmap_app, take_while_cut.
  - rewrite (re_indices _ _ Hpre), length_fmap. unfold not_boundary.
    rewrite <-(length_fmap snd), (snd_filter (λ i, negb (is_boundary i))).
    by rewrite enumerate_snd.
  - apply Forall_forall. intros o. rewrite (re_indices _ _ Hpre), not_boundary_indices.
    rewrite Nat.sub_0_r. by intros (_ & i & Hi%lookup_lt_Some & _).
  - apply Forall_forall. intros o.
    rewrite (re_indices _ _ (proj1 (chunks_normalized _ _ _ _ Hpost))), not_boundary_indices.
    intros (Hle & i & Hi & Hbi). destruct (decide (o = length r1)) as [->|]; [|lia].
    rewrite Nat.sub_diag in Hi. simpl in Hi. congruence.
Qed.

Lemma materialize_shape :
  ∃ legacy new map,
    materialize_provider_history its = Some (mkProjection (legacy ++ new).*2 map)
    ∧ normalized True (enumerate 0 (take (legacy_end its) its)) legacy
    ∧ chunks co (legacy_end its) (drop (legacy_end its) its) new
    ∧ length map = length its
    ∧ (∀ k o, (legacy ++ new).*1 !! k = Some o → map !! o = Some k)
    ∧ (∀ r1 b r2, its = r1 ++ b :: r2 → is_boundary b = true →
        map !! length r1
        = Some (length (List.filter (λ i, negb (is_boundary i)) r1) - 1)%nat).
Proof using Type.
  unfold materialize_provider_history. fold (legacy_end its).
  destruct (legacy_normalized co its) as (legacy & -> & Hleg). simpl.
  pose proof (position_boundary_split its) as [Hnb Hnext].
  destruct (responses_chunks co (length its) (legacy_end its) (drop (legacy_end its) its)
    legacy []) as (new & -> & Hch); [rewrite length_drop; lia|exact Hnext|]. simpl.
  destruct (originals_normalized _ _ Hleg Hch) as [Hre _].
  assert (∀ o, o ∈ (legacy ++ new).*1 ↔ ∃ i, its !! o = Some i ∧ is_boundary i = false) as Hor.
  { intros o. rewrite (re_indices _ _ Hre), not_boundary_indices, Nat.sub_0_r.
    split; [by intros [_ ?]|split; [lia|done]]. }
  assert (∀ b, b ∈ boundary_positions (legacy_end its) (drop (legacy_end its) its) ↔
    ∃ i, its !! b = Some i ∧ is_boundary i = true) as Hbs.
  { intros b. replace (boundary_positions _ _) with (boundary_positions 0 its).
    - rewrite boundary_positions_elem. split; [by intros (k & i & -> & ? & ?); exists i|].
      intros (i & ? & ?). by exists b, i.
    - rewrite <-(take_drop (legacy_end its) its) at 1.
      by rewrite boundary_positions_app, boundary_positions_none, legacy_end_length. }
  destruct (index_items_spec (legacy ++ new).*1 0 (replicate (length its) 0%nat))
    as (map1 & -> & Hlen1 & Hk1 & Ho1).
  { rewrite (re_indices _ _ Hre). apply not_boundary_NoDup. }
  { apply Forall_forall. intros o (i & ?%lookup_lt_Some & _)%Hor. by rewrite length_replicate. }
  rewrite length_replicate in Hlen1. simpl.
  destruct (index_boundaries_spec (legacy ++ new).*1
    (boundary_positions (legacy_end its) (drop (legacy_end its) its)) map1)
    as (map2 & -> & Hlen2 & Hb2 & Ho2).
  { apply Forall_forall. intros b (i & ?%lookup_lt_Some & _)%Hbs. by rewrite Hlen1. }
  exists legacy, new, map2. split_and!; [done|done|done|congruence| |].
  - intros k o Hk. rewrite Ho2; [by rewrite (Hk1 k o Hk)|].
    intros (i & Hi & Hb)%Hbs. assert (o ∈ (legacy ++ new).*1) as (j & Hj & Hbj)%Hor
      by (by eapply list_elem_of_lookup_2). congruence.
  - intros r1 b r2 Hits Hb. rewrite Hb2.
    + destruct (boundary_cut _ _ _ _ _ Hleg Hch Hits Hb) as (pre & post & -> & Hpre & Hpost).
      by rewrite (originals_cut _ _ _ _ _ Hpre Hpost Hb).
    + apply Hbs. exists b. split; [|done]. by rewrite Hits, list_lookup_middle.
Qed.

End shape.

Lemma chunks_head co index rest new :
  chunks co index rest new →
  match rest with [] => True | i :: _ => is_boundary i = true end.
Proof. by destruct 1. Qed.

Lemma response_unique (l1 l2 r1 r2 : list Item) :
  Forall (λ i, is_boundary i = false) l1 → Forall (λ i, is_boundary i = false) l2 →
  match r1 with [] => True | i :: _ => is_boundary i = true end →
  match r2 with [] => True | i :: _ => is_boundary i = true end →
  l1 ++ r1 = l2 ++ r2 → l1 = l2 ∧ r1 = r2.
Proof.
  intros H1. revert l2. induction H1 as [|i l1 Hi H1 IH]; intros [|j l2] H2 Hr1 Hr2 Heq;
    simpl in *; subst; try done.
  - apply Forall_cons in H2 as [Hj _]. congruence.
  - congruence.
  - injection Heq as -> Heq. apply Forall_cons in H2 as [_ H2].
    destruct (IH l2 H2 Hr1 Hr2 Heq) as [-> ->]. done.
Qed.

Lemma results_follow_not_boundary l : ∀ seen,
  results_follow seen (List.filter (λ i, negb (is_boundary i)) l) = results_follow seen l.
Proof. induction l as [|i l IH]; intros seen; [done|]. destruct i; simpl; by rewrite ?IH. Qed.

(** C23.  The order of a request loses nothing.  For every history the projection succeeds: no
    index is out of range and no [unreachable!], [expect] or [debug_assert!] fires.  Its items
    are those of the history without the response boundaries, each once; messages and
    reasoning keep their order.  The index map has an entry for every item of the history: it
    leads a message, a reasoning or a result to itself and a call to a call, and a boundary to
    the last of the items before it (to 0 when there is none). *)
Theorem projection_exact (its : list Item) :
  ∃ p, materialize_provider_history its = Some p
    ∧ items p ≡ₚ List.filter (λ i, negb (is_boundary i)) its
    ∧ List.filter (λ i, negb (is_tool i)) (items p)
      = List.filter (λ i, negb (is_tool i)) (List.filter (λ i, negb (is_boundary i)) its)
    ∧ length (original_to_projected_index p) = length its
    ∧ (∀ i x, its !! i = Some x → is_boundary x = false →
        ∃ j y, original_to_projected_index p !! i = Some j ∧ items p !! j = Some y ∧ slot x y)
    ∧ (∀ before b after, its = before ++ b :: after → is_boundary b = true →
        original_to_projected_index p !! length before
        = Some (length (List.filter (λ i, negb (is_boundary i)) before) - 1)%nat).
Proof.
  destruct (materialize_shape its) as (legacy & new & map & -> & Hl & Hn & Hlen & Hk & Hb).
  destruct (originals_normalized its _ _ Hl Hn) as [[_ H2 H3 H4] _].
  eexists. split; [done|]. simpl.
  assert ((not_boundary (enumerate 0 its)).*2 = List.filter (λ i, negb (is_boundary i)) its)
    as Hnb.
  { unfold not_boundary. by rewrite (snd_filter (λ i, negb (is_boundary i))), enumerate_snd. }
  split_and!; [by rewrite H2, Hnb| |done| |done].
  - rewrite <-Hnb, <-!(snd_filter (λ i, negb (is_tool i))). by rewrite H3.
  - intros i x Hx Hbx. destruct (H4 i x) as (y & Hy & Hs).
    { apply list_filter_elem_of. simpl. rewrite Hbx, enumerate_lookup, Nat.sub_0_r.
      repeat split; [lia|done]. }
    apply list_elem_of_lookup_1 in Hy as [j Hj]. exists j, y. split_and!; [|by rewrite list_lookup_fmap, Hj|done].
    apply Hk. by rewrite list_lookup_fmap, Hj.
Qed.

(** Results never precede their calls in a request.  When every result of the history comes
    after its call, so does every result of the projection, whatever the order in which calls
    and results completed, provided that no call was streamed after the host had put a message
    of its own into the response. *)
Theorem results_follow_calls (its : list Item) :
  results_follow [] its = true →
  calls_lead false (drop (legacy_end its) its) = true →
  ∃ p, materialize_provider_history its = Some p ∧ results_follow [] (items p) = true.
Proof.
  intros Hf Hlead.
  destruct (materialize_shape its) as (legacy & new & map & -> & Hl & Hn & _).
  destruct (originals_normalized its _ _ Hl Hn) as [_ Hfol].
  eexists. split; [done|]. apply Hfol; [done|]. unfold not_boundary.
  by rewrite (snd_filter (λ i, negb (is_boundary i))), enumerate_snd, results_follow_not_boundary.
Qed.

(** The order of one response.  What a response became in the projection is contiguous,
    between what came before it and what came after it.  When the host put no message into it,
    it is the body of the response followed by its results: text and reasoning stay in place,
    the places of calls hold the calls by index, and the results come in the order of the
    calls, ties in the order of the history. *)
Theorem response_order_exact (before response after : list Item) (b : Item) :
  let its := before ++ b :: response ++ after in
  is_boundary b = true →
  Forall (λ i, is_boundary i = false ∧ is_host_message i = false) response →
  match after with [] => True | i :: _ => is_boundary i = true end →
  ∃ pre out post map,
    materialize_provider_history its = Some (mkProjection (pre ++ out ++ post) map)
    ∧ pre ≡ₚ List.filter (λ i, negb (is_boundary i)) before
    ∧ post ≡ₚ List.filter (λ i, negb (is_boundary i)) after
    ∧ response_order (collect_call_order its 0 ∅) response out.
Proof.
  intros its Hb [Hnb Hh]%Forall_and Hafter.
  destruct (materialize_shape its) as (legacy & new & map & -> & Hl & Hn & _).
  destruct (boundary_cut its _ _ _ _ _ Hl Hn eq_refl Hb) as (pre & post & -> & Hpre & Hpost).
  inversion Hpost as [|index b' resp rest out new' Hb' Hr Hout Hch Hix Heq Hnew]; subst.
  assert (resp = response ∧ rest = after) as [-> ->].
  { apply response_unique; [done|done|by eapply chunks_head|done|done]. }
  exists pre.*2, out.*2, new'.*2, map. rewrite !fmap_app. split; [done|]. split_and!.
  - rewrite (re_items _ _ Hpre). unfold not_boundary.
    by rewrite (snd_filter (λ i, negb (is_boundary i))), enumerate_snd.
  - rewrite (re_items _ _ (proj1 (chunks_normalized _ _ _ _ Hch))). unfold not_boundary.
    by rewrite (snd_filter (λ i, negb (is_boundary i))), enumerate_snd.
  - apply response_ordered in Hout; [|by rewrite enumerate_snd].
    by rewrite enumerate_snd in Hout.
Qed.

(** A response whose second call completed first, its result between the items of the
    stream. *)
Definition example_call (name : string) (index : nat) : Item :=
  ToolCall (mkToolCall None name name "{}" (Some index) (Some ("batch:" +:+ name))
    (Some InProgress)).

Definition example_result (name : string) : Item :=
  ToolResult (mkToolResult None name "done" None Success false []).

Definition example_text : Item := Message (mkMessage None Assistant [Text "trailing"] None).

Definition example_question : Item := Message (mkMessage None User [Text "go"] None).

Definition example_response : list Item :=
  [example_call "second" 1; example_result "second"; example_text;
   example_call "first" 0; example_result "first"].

Definition example_history : list Item :=
  example_question :: AssistantResponseBoundary "response-1" :: example_response.

Lemma results_follow_calls_witness :
  ∃ p, materialize_provider_history example_history = Some p
    ∧ results_follow [] (items p) = true
    ∧ items p = [example_question; example_call "first" 0; example_text;
                 example_call "second" 1; example_result "first"; example_result "second"].
Proof.
  destruct (results_follow_calls example_history) as (p & Hp & Hf);
    [vm_compute; reflexivity..|].
  exists p. split; [exact Hp|]. split; [exact Hf|].
  vm_compute in Hp. injection Hp as <-. reflexivity.
Defined.

Lemma response_order_exact_witness :
  ∃ pre out post map,
    materialize_provider_history example_history = Some (mkProjection (pre ++ out ++ post) map)
    ∧ response_order (collect_call_order example_history 0 ∅) example_response out.
Proof.
  destruct (response_order_exact [example_question] example_response []
    (AssistantResponseBoundary "response-1")) as (pre & out & post & map & H1 & _ & _ & H2).
  - reflexivity.
  - unfold example_response. repeat constructor.
  - exact I.
  - exists pre, out, post, map. split; [exact H1|exact H2].
Defined.

End ProviderHistory.
