(* ===== verification/Tool.v ===== *)
(** * Tools: calls, outputs and results

    Models [src/crates/agen/src/tool.rs]: the errors and outputs of tools, the byte limits on
    what enters the history, the identity of an execution, and the results built from its
    outcome.  A JSON value is a type argument. *)
From Stdlib Require Import ZArith String Ascii List Lia.
From stdpp Require Import base tactics numbers list strings gmap pretty.
From S2P Require Import Prelude Conversation.

Module Tool.

Abbreviation ToolResultDisposition := Conversation.ToolResultDisposition.
Abbreviation Attachment := Conversation.Attachment.

Record ToolOutput := mkOutput {
  o_summary : string;
  o_content : option string;
  o_attachments : list Attachment
}.

Inductive ToolError :=
| InvalidArgument (message : string)
| ExecutionFailed (message : string)
| Internal (message : string)
| StructuredConflict (code message : string)
| Cancelled (output : ToolOutput)
| Interrupted (output : ToolOutput).

(** [error.to_string()]. *)
Definition tool_error_message (e : ToolError) : string :=
  match e with
  | InvalidArgument m => "Invalid argument: " +:+ m
  | ExecutionFailed m => "Execution failed: " +:+ m
  | Internal m => "Internal error: " +:+ m
  | StructuredConflict code m => code +:+ ": " +:+ m
  | Cancelled _ => "Tool execution cancelled"
  | Interrupted _ => "Tool execution interrupted"
  end.

(** ** Limits *)

Record ToolOutputLimits := mkLimits {
  default_max_bytes : nat;
  per_tool : gmap string nat
}.

Definition limit_for (l : ToolOutputLimits) (tool_name : string) : nat :=
  default (default_max_bytes l) (per_tool l !! tool_name).

Definition newline : string := String (ascii_of_nat 10) EmptyString.

Definition suffix_template : string :=
  newline +:+ newline +:+ "[truncated: %BYTES% bytes dropped, refine your query]".

(** [suffix_template.replace("%BYTES%", &dropped.to_string())]. *)
Definition truncation_marker (dropped : nat) : string :=
  newline +:+ newline +:+ "[truncated: " +:+ pretty (N.of_nat dropped)
    +:+ " bytes dropped, refine your query]".

Definition reserved : nat := String.length suffix_template + 20 - String.length "%BYTES%".

Definition truncate_content (content : string) (limit : nat) : string :=
  let original_len := String.length content in
  if (original_len <=? limit)%nat then content
  else
    let body_budget := (limit - reserved)%nat in
    let cut := floor_boundary content (body_budget `min` original_len) in
    String.substring 0 cut content +:+ truncation_marker (original_len - cut).

(** ** Executions *)

Record ToolExecutionContext := mkContext {
  x_call_id : string;
  x_logical_call_id : option string;
  x_batch_id : string;
  x_call_index : nat
}.

Definition context_new (call_id batch_id : string) (call_index : nat) : ToolExecutionContext :=
  mkContext call_id None batch_id call_index.

(** Identifies one live attempt. *)
Definition execution_id (c : ToolExecutionContext) : string :=
  x_batch_id c +:+ ":" +:+ x_call_id c.

Inductive ToolExecutionTerminal :=
| Confirmed (r : result ToolOutput ToolError)
| OutcomeUnknown.

(** ** Calls and results *)

Record ToolCall (Json : Type) := mkCall { id : string; name : string; input : Json }.
Arguments mkCall {Json} _ _ _.
Arguments id {Json} _.
Arguments name {Json} _.
Arguments input {Json} _.

(** What the engine uses of serde_json. *)
Record Serde (Json : Type) := mkSerde {
  from_str : string → option Json;
  to_string : Json → string;
  is_object : Json → bool;
  null : Json;
  empty_object : Json
}.
Arguments mkSerde {Json} _ _ _ _ _.
Arguments from_str {Json} _ _.
Arguments to_string {Json} _ _.
Arguments is_object {Json} _ _.
Arguments null {Json} _.
Arguments empty_object {Json} _.

Record ToolResult := mkResult {
  tool_use_id : string;
  disposition : ToolResultDisposition;
  summary : string;
  content : option string;
  is_error : bool;
  attachments : list Attachment
}.

Definition is_success (d : ToolResultDisposition) : bool :=
  match d with Conversation.Success => true | _ => false end.

Definition from_output_with_disposition (tool_use_id : string) (output : ToolOutput)
    (d : ToolResultDisposition) : ToolResult :=
  mkResult tool_use_id d (o_summary output) (o_content output) (negb (is_success d))
    (o_attachments output).

Definition from_output (tool_use_id : string) (output : ToolOutput) : ToolResult :=
  from_output_with_disposition tool_use_id output Conversation.Success.

Definition result_error (tool_use_id message : string) : ToolResult :=
  mkResult tool_use_id Conversation.Error message None true [].

Definition outcome_unknown (tool_use_id : string) : ToolResult :=
  mkResult tool_use_id Conversation.OutcomeUnknown "Tool execution outcome unknown"
    (Some "Execution was interrupted before completion could be confirmed. Completion and side effects are unknown.")
    true [].

(** The [match terminal.await] of an execution's task. *)
Definition terminal_result (call_id : string) (t : ToolExecutionTerminal) : ToolResult :=
  match t with
  | Confirmed (Ok output) => from_output call_id output
  | Confirmed (Err (Cancelled output)) =>
      from_output_with_disposition call_id output Conversation.Cancelled
  | Confirmed (Err (Interrupted output)) =>
      from_output_with_disposition call_id output Conversation.Interrupted
  | Confirmed (Err error) => result_error call_id (tool_error_message error)
  | OutcomeUnknown => outcome_unknown call_id
  end.

(** ** Lemmas *)

Lemma terminal_result_id call_id t : tool_use_id (terminal_result call_id t) = call_id.
Proof. destruct t as [[?|[]]|]; done. Qed.

(** A number below [10 ^ k] has at most [k] digits. *)
Lemma pretty_N_go_length k : ∀ n s,
  (n < 10 ^ N.of_nat k)%N →
  (String.length (pretty_N_go n s) ≤ k + String.length s)%nat.
Proof.
  induction k as [|k IH]; intros n s Hn.
  { assert (n = 0)%N as -> by (simpl in Hn; lia). by rewrite pretty_N_go_0. }
  destruct (decide (0 < n)%N) as [Hpos|Hz]; [|].
  - rewrite pretty_N_go_step by done. etrans; [apply IH|simpl; lia].
    apply N.Div0.div_lt_upper_bound. rewrite Nat2N.inj_succ, N.pow_succ_r' in Hn. lia.
  - assert (n = 0)%N as -> by lia. rewrite pretty_N_go_0. lia.
Qed.

Lemma pretty_N_length (n : N) k :
  (0 < k)%nat → (n < 10 ^ N.of_nat k)%N → (String.length (pretty n) ≤ k)%nat.
Proof.
  intros Hk Hn. unfold pretty, pretty_N. destruct (decide (n = 0)%N); [simpl; lia|].
  etrans; [by apply pretty_N_go_length|]. simpl. lia.
Qed.

Lemma truncation_marker_length dropped :
  (N.of_nat dropped < 10 ^ 20)%N → (String.length (truncation_marker dropped) ≤ reserved)%nat.
Proof.
  intros Hd. unfold truncation_marker. rewrite !string_length_app.
  assert (String.length (pretty (N.of_nat dropped)) ≤ 20)%nat.
  { apply pretty_N_length; [lia|done]. }
  assert (reserved = 68%nat) as -> by reflexivity. simpl. lia.
Qed.

Lemma truncation_marker_valid dropped : valid_utf8 (truncation_marker dropped) = true.
Proof.
  unfold truncation_marker. repeat apply valid_utf8_app; try reflexivity.
  apply ascii_only_valid. rewrite ascii_only_all. apply pretty_N_all. intros d Hd.
  by apply (decimal_digits (λ c, byte_of c <? 128)).
Qed.

(** The limit on tool outputs.  Contents within the limit are kept as they are.  Longer
    ones are cut at a character boundary, at most three bytes before the room left by the
    marker, and the marker names the bytes dropped; what is kept is valid UTF-8, and fits
    the limit whenever the limit has room for the marker. *)
Theorem truncate_content_exact (content : string) (limit : nat) :
  valid_utf8 content = true →
  let out := truncate_content content limit in
  valid_utf8 out = true
  ∧ ((String.length content ≤ limit)%nat → out = content)
  ∧ ((limit < String.length content)%nat →
      ∃ kept dropped, content = kept +:+ dropped
        ∧ out = kept +:+ truncation_marker (String.length dropped)
        ∧ (String.length kept ≤ limit - reserved)%nat
        ∧ (limit - reserved - String.length kept ≤ 3)%nat)
  ∧ ((reserved ≤ limit)%nat → (N.of_nat (String.length content) < 10 ^ 20)%N →
      (String.length out ≤ limit)%nat).
Proof.
  intros Hv. unfold truncate_content. cbv zeta.
  destruct (Nat.leb_spec (String.length content) limit) as [Hle|Hgt].
  { split_and!; [done|done|lia|lia]. }
  assert (limit - reserved ≤ String.length content)%nat as Hroom by lia.
  rewrite Nat.min_l by done.
  destruct (floor_boundary_spec content (limit - reserved)) as (Hcut & _ & _).
  destruct (floor_boundary_cut content (limit - reserved) Hv Hroom) as [Hval Hnear].
  set (cut := floor_boundary content (limit - reserved)) in *.
  assert (String.length (String.substring 0 cut content) = cut) as Hlen
    by (apply substring_length; lia).
  split_and!; [by apply valid_utf8_app, truncation_marker_valid|lia| |].
  - intros _. destruct (substring_cut cut content) as [t Ht].
    exists (String.substring 0 cut content), t. rewrite Hlen. split_and!; [done| |lia|lia].
    do 2 f_equal. apply (f_equal String.length) in Ht. rewrite string_length_app in Ht. lia.
  - intros Hres Hbig. rewrite string_length_app, Hlen.
    pose proof (truncation_marker_length (String.length content - cut)). lia.
Qed.

Lemma truncate_content_exact_witness :
  valid_utf8 (truncate_content "a long output that does not fit" 10) = true.
Proof.
  destruct (truncate_content_exact "a long output that does not fit" 10) as [H _];
    [vm_compute; reflexivity|exact H].
Defined.

(** A limit without room for the marker is exceeded: the output is longer than the limit and
    longer than what it replaces. *)
Theorem truncation_exceeds_small_limit :
  ∃ content limit,
    (limit < String.length content)%nat
    ∧ (String.length content < String.length (truncate_content content limit))%nat.
Proof. exists "0123456789", 5%nat. vm_compute. split; lia. Qed.

End Tool.
