(* ===== verification/Timeline.v ===== *)
(** * The event timeline and its collectors

    Models the events of [src/crates/agen/src/llm_client/event.rs], the dispatch of
    [src/crates/agen/src/timeline/timeline.rs], and the three collectors the engine registers:
    [text_block_collector.rs], [thinking_block_collector.rs] and [tool_call_collector.rs].
    Other handlers only observe and are left out; so is [current_block], which nothing reads.
    The theorems show that tool calls are collected exactly as their blocks were streamed,
    whatever the interleaving. *)
From Stdlib Require Import ZArith String List Lia.
From stdpp Require Import base tactics numbers list strings gmap sets.
From S2P Require Import Prelude Tool.

Module Timeline.
Import Tool.

(** ** Events *)

Record UsageEvent := mkUsageEvent {
  input_tokens : option Z;
  output_tokens : option Z;
  total_tokens : option Z;
  cache_read_input_tokens : option Z;
  cache_creation_input_tokens : option Z
}.

Inductive ResponseStatus := Started | Completed | StatusCancelled | Failed.

Record ErrorEvent := mkErrorEvent { code : option string; message : string }.

Inductive BlockType := TextBlock | ThinkingBlock | ToolUseBlock | ToolResultBlock.

Inductive BlockMetadata :=
| MetaText | MetaThinking
| MetaToolUse (id name : string)
| MetaToolResult (tool_use_id : string).

Inductive DeltaContent := TextDelta (s : string) | ThinkingDelta (s : string) | InputJson (s : string).

Inductive StopReason := EndTurn | MaxTokens | StopSequence | StopToolUse.

Record ReasoningBlockData := mkReasoning {
  r_id : option string;
  r_text : option string;
  r_summary : list string;
  r_encrypted_content : option string;
  r_signature : option string
}.

Record UnhandledSseEvent := mkUnhandledSse {
  provider : string;
  event_type : string;
  data_preview : string;
  data_len : nat
}.

Inductive Event :=
| Ping
| Usage (u : UsageEvent)
| Status (s : ResponseStatus)
| Error (e : ErrorEvent)
| UnhandledSse (u : UnhandledSseEvent)
| BlockStart (index : nat) (block_type : BlockType) (metadata : BlockMetadata)
| BlockDelta (index : nat) (delta : DeltaContent)
| BlockStop (index : nat) (block_type : BlockType) (stop_reason : option StopReason)
    (reasoning : option ReasoningBlockData)
| BlockAbort (index : nat) (block_type : BlockType) (reason : string).

(** [DeltaContent::block_type]. *)
Definition delta_block_type (d : DeltaContent) : BlockType :=
  match d with
  | TextDelta _ => TextBlock
  | ThinkingDelta _ => ThinkingBlock
  | InputJson _ => ToolUseBlock
  end.

#[global] Instance BlockType_eq_dec : EqDecision BlockType.
Proof. solve_decision. Defined.

#[global] Instance BlockType_countable : Countable BlockType.
Proof.
  refine (inj_countable'
    (λ t, match t with TextBlock => 0 | ThinkingBlock => 1 | ToolUseBlock => 2 | ToolResultBlock => 3 end)%nat
    (λ n, match n with 0 => TextBlock | 1 => ThinkingBlock | 2 => ToolUseBlock | _ => ToolResultBlock end)%nat
    _).
  by intros [].
Defined.

(** ** Handlers *)

(** The trait [Handler]; [None] is a panic of the handler. *)
Class Handler (H Scope Ev : Type) := {
  scope_default : Scope;
  on_event : H → Scope → Ev → option (H * Scope)
}.

Inductive TextBlockEvent := TextStart | TextAppend (s : string) | TextStop.

Inductive ThinkingBlockEvent :=
| ThinkingStart | ThinkingAppend (s : string) | ThinkingStop (reasoning : option ReasoningBlockData).

Inductive ToolUseBlockEvent :=
| ToolUseStart (id name : string) | InputJsonDelta (s : string) | ToolUseStop.

(** The trait [ErasedBlockHandler]. *)
Class ErasedBlockHandler (W : Type) := {
  dispatch_start : W → nat → BlockMetadata → option W;
  dispatch_delta : W → nat → DeltaContent → option W;
  dispatch_stop : W → nat → option ReasoningBlockData → option W;
  dispatch_abort : W → nat → W;
  start_scope : W → W;
  end_scope : W → W;
  has_scope : W → bool
}.

Section text_wrapper.
Context {H Scope : Type} `{Handler H Scope TextBlockEvent}.

Record TextBlockHandlerWrapper := mkTextWrapper { tx_handler : H; tx_scope : option Scope }.

Definition text_event (w : TextBlockHandlerWrapper) (e : TextBlockEvent)
  : option TextBlockHandlerWrapper :=
  match tx_scope w with
  | Some scope => '(h, scope) ← on_event (tx_handler w) scope e; Some (mkTextWrapper h (Some scope))
  | None => Some w
  end.

#[export] Instance text_wrapper : ErasedBlockHandler TextBlockHandlerWrapper := {
  dispatch_start w _ _ := text_event w TextStart;
  dispatch_delta w _ d := match d with TextDelta s => text_event w (TextAppend s) | _ => Some w end;
  dispatch_stop w _ _ := text_event w TextStop;
  dispatch_abort w _ := w;
  start_scope w := mkTextWrapper (tx_handler w) (Some scope_default);
  end_scope w := mkTextWrapper (tx_handler w) None;
  has_scope w := match tx_scope w with Some _ => true | None => false end
}.

End text_wrapper.
Arguments TextBlockHandlerWrapper : clear implicits.

Section thinking_wrapper.
Context {H Scope : Type} `{Handler H Scope ThinkingBlockEvent}.

Record ThinkingBlockHandlerWrapper := mkThinkingWrapper {
  th_handler : H;
  th_scopes : gmap nat Scope
}.

(** [on_event] in the scope of a block, made if it is not there. *)
Definition thinking_event (w : ThinkingBlockHandlerWrapper) (index : nat) (e : ThinkingBlockEvent)
  : option ThinkingBlockHandlerWrapper :=
  '(h, scope) ← on_event (th_handler w) (default scope_default (th_scopes w !! index)) e;
  Some (mkThinkingWrapper h (<[index := scope]> (th_scopes w))).

#[export] Instance thinking_wrapper : ErasedBlockHandler ThinkingBlockHandlerWrapper := {
  dispatch_start w index _ := thinking_event w index ThinkingStart;
  dispatch_delta w index d :=
    match d with ThinkingDelta s => thinking_event w index (ThinkingAppend s) | _ => Some w end;
  dispatch_stop w index reasoning :=
    match th_scopes w !! index with
    | Some scope =>
        '(h, _) ← on_event (th_handler w) scope (ThinkingStop reasoning);
        Some (mkThinkingWrapper h (delete index (th_scopes w)))
    | None => Some w
    end;
  dispatch_abort w _ := mkThinkingWrapper (th_handler w) ∅;
  start_scope w := w;
  end_scope w := w;
  has_scope w := negb (bool_decide (th_scopes w = ∅))
}.

End thinking_wrapper.
Arguments ThinkingBlockHandlerWrapper : clear implicits.

Section tool_use_wrapper.
Context {H Scope : Type} `{Handler H Scope ToolUseBlockEvent}.

Record ToolUseBlockHandlerWrapper := mkToolUseWrapper {
  tu_handler : H;
  tu_scopes : gmap nat Scope;
  tu_tools : gmap nat (string * string)
}.

Definition tool_use_event (w : ToolUseBlockHandlerWrapper) (index : nat) (e : ToolUseBlockEvent)
  : option ToolUseBlockHandlerWrapper :=
  '(h, scope) ← on_event (tu_handler w) (default scope_default (tu_scopes w !! index)) e;
  Some (mkToolUseWrapper h (<[index := scope]> (tu_scopes w)) (tu_tools w)).

#[export] Instance tool_use_wrapper : ErasedBlockHandler ToolUseBlockHandlerWrapper := {
  dispatch_start w index metadata :=
    match metadata with
    | MetaToolUse id name =>
        tool_use_event (mkToolUseWrapper (tu_handler w) (tu_scopes w)
                          (<[index := (id, name)]> (tu_tools w))) index (ToolUseStart id name)
    | _ => Some w
    end;
  dispatch_delta w index d :=
    match d with InputJson s => tool_use_event w index (InputJsonDelta s) | _ => Some w end;
  dispatch_stop w index _ :=
    let scopes := delete index (tu_scopes w) in
    let tools := delete index (tu_tools w) in
    match tu_scopes w !! index, tu_tools w !! index with
    | Some scope, Some _ =>
        '(h, _) ← on_event (tu_handler w) scope ToolUseStop;
        Some (mkToolUseWrapper h scopes tools)
    | _, _ => Some (mkToolUseWrapper (tu_handler w) scopes tools)
    end;
  dispatch_abort w index :=
    mkToolUseWrapper (tu_handler w) (delete index (tu_scopes w)) (delete index (tu_tools w));
  start_scope w := w;
  end_scope w := w;
  has_scope w := negb (bool_decide (tu_scopes w = ∅))
}.

End tool_use_wrapper.
Arguments ToolUseBlockHandlerWrapper : clear implicits.

(** ** Collectors *)

(** [TextBlockCollector]; its scope is the text of the current block. *)
#[export] Instance TextBlockCollector : Handler (list string) string TextBlockEvent := {
  scope_default := EmptyString;
  on_event collected buffer e :=
    match e with
    | TextStart => Some (collected, EmptyString)
    | TextAppend s => Some (collected, buffer +:+ s)
    | TextStop =>
        if bool_decide (buffer = EmptyString) then Some (collected, buffer)
        else Some (collected ++ [buffer], EmptyString)
    end
}.

(** [ThinkingBlockCollector]: only blocks with reasoning material are kept. *)
#[export] Instance ThinkingBlockCollector
  : Handler (list ReasoningBlockData) string ThinkingBlockEvent := {
  scope_default := EmptyString;
  on_event collected buffer e :=
    match e with
    | ThinkingStart => Some (collected, EmptyString)
    | ThinkingAppend s => Some (collected, buffer +:+ s)
    | ThinkingStop None => Some (collected, buffer)
    | ThinkingStop (Some r) =>
        Some (collected ++ [mkReasoning (r_id r) (Some (default buffer (r_text r))) (r_summary r)
                              (r_encrypted_content r) (r_signature r)], buffer)
    end
}.

(** [CollectorState]. *)
Record CollectorState := mkCollectorState {
  current_id : option string;
  current_name : option string;
  call_index : option nat;
  input_json_buffer : string
}.

Section timeline.
Context {Json : Type} (sj : Serde Json).

(** [ToolCallCollector]: the calls collected, and the next index. *)
Record ToolCallCollector := mkToolCallCollector {
  collected : list (nat * ToolCall Json);
  next_call_index : nat
}.

(** Arguments that are not a JSON object become null. *)
Definition parse_input (buffer : string) : Json :=
  if trim_is_empty buffer then empty_object sj
  else match from_str sj buffer with
       | Some v => if is_object sj v then v else null sj
       | None => null sj
       end.

Definition collect_call (c : ToolCallCollector) (scope : CollectorState) (e : ToolUseBlockEvent)
  : option (ToolCallCollector * CollectorState) :=
  match e with
  | ToolUseStart id name =>
      let '(c, index) :=
        match call_index scope with
        | Some n => (c, n)
        | None => (mkToolCallCollector (collected c) (S (next_call_index c)), next_call_index c)
        end in
      Some (c, mkCollectorState (Some id) (Some name) (Some index) EmptyString)
  | InputJsonDelta s =>
      Some (c, mkCollectorState (current_id scope) (current_name scope) (call_index scope)
                 (input_json_buffer scope +:+ s))
  | ToolUseStop =>
      match current_id scope, current_name scope with
      | Some id, Some name =>
          n ← call_index scope;
          Some (mkToolCallCollector
                  (collected c ++ [(n, mkCall id name (parse_input (input_json_buffer scope)))])
                  (next_call_index c),
                mkCollectorState None None None EmptyString)
      | _, _ => Some (c, mkCollectorState None None (call_index scope) EmptyString)
      end
  end.

#[export] Instance tool_call_collector : Handler ToolCallCollector CollectorState ToolUseBlockEvent := {
  scope_default := mkCollectorState None None None EmptyString;
  on_event := collect_call
}.

Definition begin_response (c : ToolCallCollector) : ToolCallCollector := mkToolCallCollector [] 0.

(** ** The timeline *)

Record Timeline := mkTimeline {
  text_blocks : TextBlockHandlerWrapper (list string) string;
  thinking_blocks : ThinkingBlockHandlerWrapper (list ReasoningBlockData) string;
  tool_use_blocks : ToolUseBlockHandlerWrapper ToolCallCollector CollectorState;
  active_blocks : gset (BlockType * nat);
  pending_usage : option UsageEvent;
  (** What the usage handlers have received. *)
  usage_out : list UsageEvent
}.

Definition timeline_new : Timeline :=
  mkTimeline (mkTextWrapper [] None) (mkThinkingWrapper [] ∅)
    (mkToolUseWrapper (mkToolCallCollector [] 0) ∅ ∅) ∅ None [].

(** [for handler in get_block_handlers_mut(block_type)]. *)
Definition for_block_handlers (bt : BlockType)
    (f : ∀ W : Type, ErasedBlockHandler W → W → option W) (t : Timeline) : option Timeline :=
  match bt with
  | TextBlock | ToolResultBlock =>
      w ← f _ _ (text_blocks t);
      Some (mkTimeline w (thinking_blocks t) (tool_use_blocks t) (active_blocks t)
              (pending_usage t) (usage_out t))
  | ThinkingBlock =>
      w ← f _ _ (thinking_blocks t);
      Some (mkTimeline (text_blocks t) w (tool_use_blocks t) (active_blocks t)
              (pending_usage t) (usage_out t))
  | ToolUseBlock =>
      w ← f _ _ (tool_use_blocks t);
      Some (mkTimeline (text_blocks t) (thinking_blocks t) w (active_blocks t)
              (pending_usage t) (usage_out t))
  end.

Definition set_active (t : Timeline) (active : gset (BlockType * nat)) : Timeline :=
  mkTimeline (text_blocks t) (thinking_blocks t) (tool_use_blocks t) active (pending_usage t)
    (usage_out t).

Definition handle_block_start (t : Timeline) (index : nat) (bt : BlockType)
    (metadata : BlockMetadata) : option Timeline :=
  for_block_handlers bt (λ W _ w, dispatch_start (start_scope w) index metadata)
    (set_active t ({[(bt, index)]} ∪ active_blocks t)).

Definition handle_block_delta (t : Timeline) (index : nat) (delta : DeltaContent)
  : option Timeline :=
  let bt := delta_block_type delta in
  for_block_handlers bt
    (λ W _ w, dispatch_delta (if has_scope w then w else start_scope w) index delta)
    (set_active t ({[(bt, index)]} ∪ active_blocks t)).

Definition handle_block_stop (t : Timeline) (index : nat) (bt : BlockType)
    (reasoning : option ReasoningBlockData) : option Timeline :=
  t ← for_block_handlers bt (λ W _ w, w ← dispatch_stop w index reasoning; Some (end_scope w)) t;
  Some (set_active t (active_blocks t ∖ {[(bt, index)]})).

Definition handle_block_abort (t : Timeline) (index : nat) (bt : BlockType) : option Timeline :=
  t ← for_block_handlers bt (λ W _ w, Some (end_scope (dispatch_abort w index))) t;
  Some (set_active t (active_blocks t ∖ {[(bt, index)]})).

(** Each field is that of the last event that has it. *)
Definition merge_usage (acc new : UsageEvent) : UsageEvent :=
  let or (a b : option Z) := match b with Some _ => b | None => a end in
  mkUsageEvent (or (input_tokens acc) (input_tokens new))
    (or (output_tokens acc) (output_tokens new)) (or (total_tokens acc) (total_tokens new))
    (or (cache_read_input_tokens acc) (cache_read_input_tokens new))
    (or (cache_creation_input_tokens acc) (cache_creation_input_tokens new)).

Definition set_usage (t : Timeline) (pending : option UsageEvent) (out : list UsageEvent) : Timeline :=
  mkTimeline (text_blocks t) (thinking_blocks t) (tool_use_blocks t) (active_blocks t) pending out.

Definition dispatch_usage (t : Timeline) (u : UsageEvent) : Timeline :=
  set_usage t (Some (match pending_usage t with Some acc => merge_usage acc u | None => u end))
    (usage_out t).

Definition flush_usage (t : Timeline) : Timeline :=
  match pending_usage t with
  | Some u => set_usage t None (usage_out t ++ [u])
  | None => t
  end.

Definition dispatch (t : Timeline) (e : Event) : option Timeline :=
  match e with
  | Usage u => Some (dispatch_usage t u)
  | Ping | Status _ | Error _ | UnhandledSse _ => Some t
  | BlockStart index bt metadata => handle_block_start t index bt metadata
  | BlockDelta index delta => handle_block_delta t index delta
  | BlockStop index bt _ reasoning => handle_block_stop t index bt reasoning
  | BlockAbort index bt _ => handle_block_abort t index bt
  end.

(** The blocks are aborted one by one; [elements] stands for the order of the hash map. *)
Definition abort_current_block (t : Timeline) : option Timeline :=
  t ← foldl (λ r '(bt, index), t ← r; handle_block_abort t index bt) (Some t)
        (elements (active_blocks t));
  Some (set_active t ∅).

(** ** The collectors as the engine reads them *)

Definition set_tool_calls (t : Timeline) (c : ToolCallCollector) : Timeline :=
  mkTimeline (text_blocks t) (thinking_blocks t)
    (mkToolUseWrapper c (tu_scopes (tool_use_blocks t)) (tu_tools (tool_use_blocks t)))
    (active_blocks t) (pending_usage t) (usage_out t).

(** [take_collected_with_index]. *)
Definition take_calls (t : Timeline) : list (nat * ToolCall Json) * Timeline :=
  let c := tu_handler (tool_use_blocks t) in
  (collected c, set_tool_calls t (mkToolCallCollector [] (next_call_index c))).

(** [text_block_collector.take_collected]. *)
Definition take_text (t : Timeline) : list string * Timeline :=
  (tx_handler (text_blocks t),
   mkTimeline (mkTextWrapper [] (tx_scope (text_blocks t))) (thinking_blocks t)
     (tool_use_blocks t) (active_blocks t) (pending_usage t) (usage_out t)).

(** [thinking_block_collector.take_collected]. *)
Definition take_reasoning (t : Timeline) : list ReasoningBlockData * Timeline :=
  (th_handler (thinking_blocks t),
   mkTimeline (text_blocks t) (mkThinkingWrapper [] (th_scopes (thinking_blocks t)))
     (tool_use_blocks t) (active_blocks t) (pending_usage t) (usage_out t)).

(** [tool_call_collector.begin_response]. *)
Definition begin_calls (t : Timeline) : Timeline :=
  set_tool_calls t (begin_response (tu_handler (tool_use_blocks t))).

Fixpoint dispatch_all (t : Timeline) (es : list Event) : option Timeline :=
  match es with
  | [] => Some t
  | e :: es => t ← dispatch t e; dispatch_all t es
  end.

(** ** What a stream means

    The tool call of a block, told from the events of the block alone. *)

(** A tool-use block under way: where its call was opened, its id and name, and its input. *)
Definition Block : Type := option (option (nat * string * string) * string).

Definition block_step (k pos : nat) (b : Block) (e : Event) : Block :=
  match e with
  | BlockStart i ToolUseBlock (MetaToolUse id name) =>
      if bool_decide (i = k) then
        let opened := match b with Some (Some (o, _, _), _) => o | _ => pos end in
        Some (Some (opened, id, name), EmptyString)
      else b
  | BlockDelta i (InputJson s) =>
      if bool_decide (i = k) then
        match b with
        | Some (call, buffer) => Some (call, buffer +:+ s)
        | None => Some (None, s)
        end
      else b
  | BlockStop i ToolUseBlock _ _ | BlockAbort i ToolUseBlock _ =>
      if bool_decide (i = k) then None else b
  | _ => b
  end.

Definition block_after (k : nat) (es : list Event) : Block :=
  foldl (λ b pe, block_step k pe.1 b pe.2) None (zip (seq 0 (length es)) es).

(** An event opens a call unless its block already has one. *)
Definition opens (es : list Event) (p : nat) : bool :=
  match es !! p with
  | Some (BlockStart i ToolUseBlock (MetaToolUse _ _)) =>
      match block_after i (take p es) with Some (Some _, _) => false | _ => true end
  | _ => false
  end.

(** How many calls were opened before [p]. *)
Definition openings (es : list Event) (p : nat) : nat := length (List.filter (opens es) (seq 0 p)).

(** The call that the event at [p] completes: its place in the order of opening, and itself. *)
Definition completes_at (es : list Event) (p : nat) : option (nat * ToolCall Json) :=
  match es !! p with
  | Some (BlockStop i ToolUseBlock _ _) =>
      match block_after i (take p es) with
      | Some (Some (o, id, name), buffer) =>
          Some (openings es o, mkCall id name (parse_input buffer))
      | _ => None
      end
  | _ => None
  end.

Definition completed (es : list Event) : list (nat * ToolCall Json) :=
  omap (completes_at es) (seq 0 (length es)).

(** ** Lemmas *)

Lemma dispatch_all_app t es1 es2 :
  dispatch_all t (es1 ++ es2) = t ← dispatch_all t es1; dispatch_all t es2.
Proof. revert t. induction es1 as [|e es1 IH]; intros t; simpl; [done|]. by destruct (dispatch t e); simpl. Qed.

Lemma block_after_snoc k es e :
  block_after k (es ++ [e]) = block_step k (length es) (block_after k es) e.
Proof.
  unfold block_after. rewrite length_app, seq_app, zip_with_app by (by rewrite length_seq).
  by rewrite foldl_app.
Qed.

Lemma opens_app es e p : (p < length es)%nat → opens (es ++ [e]) p = opens es p.
Proof.
  intros Hp. unfold opens. rewrite lookup_app_l by done. by rewrite take_app_le by lia.
Qed.

Lemma openings_app es e p : (p <= length es)%nat → openings (es ++ [e]) p = openings es p.
Proof.
  intros Hp. unfold openings. f_equal. apply List.filter_ext_in. intros q Hq.
  apply in_seq in Hq. apply opens_app. lia.
Qed.

Lemma openings_snoc es e :
  openings (es ++ [e]) (length (es ++ [e]))
  = (openings es (length es) + if opens (es ++ [e]) (length es) then 1 else 0)%nat.
Proof.
  rewrite length_app. unfold openings at 1. rewrite seq_app, List.filter_app, length_app. simpl.
  f_equal; [by apply openings_app|]. by destruct (opens _ _).
Qed.

(** The opening of a call under way lies in the past. *)
Lemma block_after_opened k es o id name buffer :
  block_after k es = Some (Some (o, id, name), buffer) → (o < length es)%nat.
Proof.
  revert o id name buffer. induction es as [|e es IH] using rev_ind; [done|]. intros o id name buffer.
  rewrite block_after_snoc, length_app. simpl.
  assert (∀ b', block_after k es = b' → match b' with Some (Some (o', _, _), _) => (o' < length es)%nat | _ => True end) as Hb.
  { intros [[[[[o' i'] n']|] b']|] Hb; [|done..]. by eapply IH. }
  specialize (Hb _ eq_refl).
  destruct e as [| | | | |i [] []|i []|i []|i []]; simpl; try case_bool_decide;
    destruct (block_after k es) as [[[[[o' i'] n']|] b']|]; intros [= <-]; subst; lia.
Qed.

Lemma completes_app es e p : (p < length es)%nat → completes_at (es ++ [e]) p = completes_at es p.
Proof.
  intros Hp. unfold completes_at. rewrite lookup_app_l by done. rewrite take_app_le by lia.
  destruct (es !! p) as [[]|]; try done. destruct block_type; try done.
  destruct (block_after index (take p es)) as [[[[[o id] name]|] buffer]|] eqn:Hb; try done.
  apply block_after_opened in Hb. rewrite length_take in Hb. by rewrite openings_app by lia.
Qed.

Lemma completed_snoc es e :
  completed (es ++ [e])
  = completed es ++ match completes_at (es ++ [e]) (length es) with Some c => [c] | None => [] end.
Proof.
  unfold completed. rewrite length_app, seq_app, omap_app. f_equal.
  - assert (∀ l : list nat, (∀ p, p ∈ l → (p < length es)%nat) →
      omap (completes_at (es ++ [e])) l = omap (completes_at es) l) as Hl.
    { induction l as [|p l IH]; intros H; [done|]. csimpl. rewrite completes_app by (apply H; by left).
      rewrite IH by (intros q ?; apply H; by right). done. }
    apply Hl. intros p Hp%elem_of_seq. lia.
Qed.

(** The scope and the tool of a block, as its events have it. *)
Definition scope_of (es : list Event) (b : Block) : option CollectorState :=
  match b with
  | Some (Some (o, id, name), buffer) =>
      Some (mkCollectorState (Some id) (Some name) (Some (openings es o)) buffer)
  | Some (None, buffer) => Some (mkCollectorState None None None buffer)
  | None => None
  end.

Definition tool_of (b : Block) : option (string * string) :=
  match b with Some (Some (_, id, name), _) => Some (id, name) | _ => None end.

(** The tool calls' part of a timeline that has seen the events [es] of a response, of whose
    calls [taken] have been taken. *)
Record reads (taken : list (nat * ToolCall Json)) (es : list Event)
    (w : ToolUseBlockHandlerWrapper ToolCallCollector CollectorState) : Prop := {
  rd_scopes : ∀ k, tu_scopes w !! k = scope_of es (block_after k es);
  rd_tools : ∀ k, tu_tools w !! k = tool_of (block_after k es);
  rd_next : next_call_index (tu_handler w) = openings es (length es);
  rd_collected : taken ++ collected (tu_handler w) = completed es
}.

Lemma scope_of_app es e k :
  scope_of (es ++ [e]) (block_after k es) = scope_of es (block_after k es).
Proof.
  destruct (block_after k es) as [[[[[o id] name]|] buffer]|] eqn:Hb; simpl; try done.
  apply block_after_opened in Hb. by rewrite openings_app by lia.
Qed.

(** An event that does not concern tool calls. *)
Lemma reads_other taken es e w :
  reads taken es w → (∀ k b, block_step k (length es) b e = b) →
  opens (es ++ [e]) (length es) = false → completes_at (es ++ [e]) (length es) = None →
  reads taken (es ++ [e]) w.
Proof.
  intros [S T N C] Hstep Ho Hc. split; intros; rewrite ?block_after_snoc, ?Hstep.
  - by rewrite scope_of_app.
  - done.
  - by rewrite openings_snoc, Ho, Nat.add_0_r.
  - by rewrite completed_snoc, Hc, app_nil_r.
Qed.

Lemma at_end {X} (l : list X) x : (l ++ [x]) !! length l = Some x.
Proof. by rewrite lookup_app_r, Nat.sub_diag by done. Qed.

Lemma take_end {X} (l : list X) x : take (length l) (l ++ [x]) = l.
Proof. by rewrite take_app_le, take_ge by done. Qed.

(** The scopes after an event for block [i], the others being as they were. *)
Lemma reads_scopes es e i (b : Block) (scopes : gmap nat CollectorState) :
  (∀ k, scopes !! k = scope_of es (block_after k es)) →
  (∀ k, block_after k (es ++ [e]) = if bool_decide (i = k) then b else block_after k es) →
  ∀ k, (match scope_of (es ++ [e]) b with
        | Some s => <[i := s]> scopes | None => delete i scopes end) !! k
       = scope_of (es ++ [e]) (block_after k (es ++ [e])).
Proof.
  intros S B k. rewrite B. case_bool_decide as Hk.
  - subst k. destruct (scope_of _ b); [by rewrite lookup_insert_eq|by rewrite lookup_delete_eq].
  - rewrite scope_of_app, <-S. destruct (scope_of _ b); [by rewrite lookup_insert_ne|by rewrite lookup_delete_ne].
Qed.

Lemma reads_tools es e i (b : Block) (tools : gmap nat (string * string)) :
  (∀ k, tools !! k = tool_of (block_after k es)) →
  (∀ k, block_after k (es ++ [e]) = if bool_decide (i = k) then b else block_after k es) →
  ∀ k, (match tool_of b with Some s => <[i := s]> tools | None => delete i tools end) !! k
       = tool_of (block_after k (es ++ [e])).
Proof.
  intros S B k. rewrite B. case_bool_decide as Hk.
  - subst k. destruct (tool_of b); [by rewrite lookup_insert_eq|by rewrite lookup_delete_eq].
  - rewrite <-S. destruct (tool_of b); [by rewrite lookup_insert_ne|by rewrite lookup_delete_ne].
Qed.

Lemma reads_start taken es i id name w :
  let e := BlockStart i ToolUseBlock (MetaToolUse id name) in
  reads taken es w → ∃ w', dispatch_start w i (MetaToolUse id name) = Some w' ∧ reads taken (es ++ [e]) w'.
Proof.
  intros e [S T N C]. cbn [dispatch_start tool_use_wrapper]. unfold tool_use_event. csimpl.
  rewrite S.
  set (opened := match block_after i es with Some (Some (o, _, _), _) => o | _ => length es end).
  set (b := Some (Some (opened, id, name), EmptyString) : Block).
  assert (∀ k, block_after k (es ++ [e]) = if bool_decide (i = k) then b else block_after k es) as B.
  { intros k. rewrite block_after_snoc. unfold b, opened. simpl. by case_bool_decide; subst. }
  assert (opens (es ++ [e]) (length es)
          = match block_after i es with Some (Some _, _) => false | _ => true end) as Ho.
  { unfold opens. by rewrite at_end, take_end. }
  assert (completed (es ++ [e]) = completed es) as Hc.
  { rewrite completed_snoc. unfold completes_at. by rewrite at_end, app_nil_r. }
  pose proof (openings_snoc es e) as Hn. rewrite Ho in Hn.
  pose proof (reads_scopes es e i b _ S B) as HS. pose proof (reads_tools es e i b _ T B) as HT.
  cbn [scope_of tool_of b] in HS, HT.
  destruct (block_after i es) as [[[[[o id0] name0]|] buffer]|] eqn:Hb; eexists; (split; [done|]).
  - rewrite Nat.add_0_r in Hn. unfold opened in HS. rewrite openings_app in HS
      by (apply block_after_opened in Hb; lia).
    split; csimpl; [done|done|congruence|congruence].
  - unfold opened in HS. rewrite openings_app, <-N in HS by done.
    split; csimpl; [done|done| |congruence]. rewrite Hn, N. lia.
  - unfold opened in HS. rewrite openings_app, <-N in HS by done.
    split; csimpl; [done|done| |congruence]. rewrite Hn, N. lia.
Qed.

Lemma reads_delta taken es i s w :
  let e := BlockDelta i (InputJson s) in
  reads taken es w → ∃ w', dispatch_delta w i (InputJson s) = Some w' ∧ reads taken (es ++ [e]) w'.
Proof.
  intros e [S T N C]. cbn [dispatch_delta tool_use_wrapper]. unfold tool_use_event. csimpl.
  rewrite S. eexists. split; [done|].
  set (b := match block_after i es with
            | Some (call, buffer) => Some (call, buffer +:+ s) | None => Some (None, s) end : Block).
  assert (∀ k, block_after k (es ++ [e]) = if bool_decide (i = k) then b else block_after k es) as B.
  { intros k. rewrite block_after_snoc. unfold b. simpl. by case_bool_decide; subst. }
  pose proof (reads_scopes es e i b _ S B) as HS. pose proof (reads_tools es e i b _ T B) as HT.
  split; csimpl.
  - intros k. rewrite <-HS. unfold b.
    destruct (block_after i es) as [[[[[o id] name]|] buffer]|] eqn:Hb; simpl; try done.
    by rewrite openings_app by (apply block_after_opened in Hb; lia).
  - intros k. rewrite <-HT. specialize (T i). unfold b.
    destruct (block_after i es) as [[[[[o id] name]|] buffer]|]; simpl in *.
    + by rewrite insert_id.
    + by rewrite delete_id.
    + by rewrite delete_id.
  - rewrite openings_snoc. unfold opens. by rewrite at_end, Nat.add_0_r.
  - rewrite completed_snoc. unfold completes_at. by rewrite at_end, app_nil_r.
Qed.

(** A block that ends, with the call it completes. *)
Lemma reads_end taken es i e w h :
  (∀ k b, block_step k (length es) b e = if bool_decide (i = k) then None else b) →
  opens (es ++ [e]) (length es) = false → next_call_index h = next_call_index (tu_handler w) →
  taken ++ collected h = completed (es ++ [e]) →
  reads taken es w →
  reads taken (es ++ [e]) (mkToolUseWrapper h (delete i (tu_scopes w)) (delete i (tu_tools w))).
Proof.
  intros He Ho Hh Hc [S T N C].
  assert (∀ k, block_after k (es ++ [e]) = if bool_decide (i = k) then None else block_after k es) as B.
  { intros k. by rewrite block_after_snoc, He. }
  split; csimpl.
  - exact (reads_scopes es e i None _ S B).
  - exact (reads_tools es e i None _ T B).
  - by rewrite Hh, openings_snoc, Ho, Nat.add_0_r.
  - done.
Qed.

Lemma reads_stop taken es i reason reasoning w :
  let e := BlockStop i ToolUseBlock reason reasoning in
  reads taken es w → ∃ w', dispatch_stop w i reasoning = Some w' ∧ reads taken (es ++ [e]) w'.
Proof.
  intros e R. cbn [dispatch_stop tool_use_wrapper].
  pose proof (rd_scopes _ _ _ R i) as Hs. pose proof (rd_tools _ _ _ R i) as Ht.
  rewrite Hs, Ht.
  assert (∀ h, next_call_index h = next_call_index (tu_handler w) →
    taken ++ collected h = completed (es ++ [e]) →
    reads taken (es ++ [e]) (mkToolUseWrapper h (delete i (tu_scopes w)) (delete i (tu_tools w)))) as Hend.
  { intros h Hn Hc. apply reads_end; [done| |done|done|done]. unfold opens. by rewrite at_end. }
  assert (completes_at (es ++ [e]) (length es) = match block_after i es with
      | Some (Some (o, id, name), buffer) => Some (openings es o, mkCall id name (parse_input buffer))
      | _ => None end) as Hc.
  { unfold completes_at. rewrite at_end, take_end. simpl.
    destruct (block_after i es) as [[[[[o id] name]|] buffer]|] eqn:Hb; simpl; try done.
    by rewrite openings_app by (apply block_after_opened in Hb; lia). }
  pose proof (completed_snoc es e) as Hd. rewrite Hc in Hd.
  destruct (block_after i es) as [[[[[o id] name]|] buffer]|]; simpl; eexists; (split; [done|]);
    apply Hend; try done; simpl; rewrite Hd, <-(rd_collected _ _ _ R); by rewrite ?app_nil_r, ?app_assoc.
Qed.

(** The other handlers do not panic. *)
Lemma text_event_total (w : TextBlockHandlerWrapper (list string) string) e :
  is_Some (text_event w e).
Proof.
  unfold text_event. destruct (tx_scope w); [|by eexists]. destruct e; simpl; eauto.
  case_bool_decide; simpl; eauto.
Qed.

Lemma thinking_event_total (w : ThinkingBlockHandlerWrapper (list ReasoningBlockData) string) i e :
  is_Some (thinking_event w i e).
Proof. unfold thinking_event. destruct e as [| |[]]; simpl; eauto. Qed.

(** Running the handlers that cannot panic. *)
Ltac go := eexists; split; [done|].
Ltac total := cbn [for_block_handlers set_active text_blocks thinking_blocks tool_use_blocks
    dispatch_start dispatch_delta dispatch_stop start_scope text_wrapper thinking_wrapper];
  repeat match goal with
  | |- context [text_event ?w ?e] =>
      destruct (text_event_total w e) as [? ->]; cbn [mbind option_bind]
  | |- context [thinking_event ?w ?i ?e] =>
      destruct (thinking_event_total w i e) as [? ->]; cbn [mbind option_bind]
  end.

Lemma dispatch_reads taken es e t :
  reads taken es (tool_use_blocks t) →
  ∃ t', dispatch t e = Some t' ∧ reads taken (es ++ [e]) (tool_use_blocks t').
Proof.
  intros R.
  assert (∀ w, reads taken es w → match e with
      | BlockStart _ ToolUseBlock (MetaToolUse _ _) | BlockDelta _ (InputJson _)
      | BlockStop _ ToolUseBlock _ _ | BlockAbort _ ToolUseBlock _ => True
      | _ => reads taken (es ++ [e]) w end) as Hother.
  { intros w Hw. unfold opens, completes_at in *.
    destruct e as [| | | | |i [] []|i []|i [] ? ?|i []]; try done;
      (apply reads_other; [done|done| |]; unfold opens, completes_at; by rewrite at_end). }
  destruct e as [|u|s|er| |i bt md|i d|i bt sr rs|i bt rn].
  1-5: go; by apply Hother.
  - unfold dispatch, handle_block_start. destruct bt; total; try (go; by apply Hother).
    destruct md as [| |id0 name0|]; try (go; by apply Hother).
    destruct (reads_start taken es i id0 name0 (tool_use_blocks t) R) as (w & Hw & Rw).
    cbn [start_scope tool_use_wrapper] in *. rewrite Hw. by go.
  - unfold dispatch, handle_block_delta. destruct d; cbn [delta_block_type]; total;
      try (go; by apply Hother).
    assert (∀ b : bool, (if b then tool_use_blocks t else start_scope (tool_use_blocks t))
      = tool_use_blocks t) as Hsame by by intros [].
    rewrite Hsame. destruct (reads_delta taken es i s (tool_use_blocks t) R) as (w & Hw & Rw).
    rewrite Hw. by go.
  - unfold dispatch, handle_block_stop. destruct bt; total; try (go; by apply Hother).
    + destruct (th_scopes _ !! i); csimpl; [destruct rs; csimpl|]; go; by apply Hother.
    + destruct (reads_stop taken es i sr rs (tool_use_blocks t) R) as (w & Hw & Rw).
      rewrite Hw. by go.
  - unfold dispatch, handle_block_abort. destruct bt; csimpl; go; try by apply Hother.
    apply (reads_end taken es i _ (tool_use_blocks t)); [done| |done| |done].
    + unfold opens. by rewrite at_end.
    + rewrite completed_snoc. unfold completes_at. rewrite at_end, app_nil_r. apply R.
Qed.

(** The block of [k] ends with the event. *)
Definition ends (k : nat) (e : Event) : Prop :=
  match e with
  | BlockStop i ToolUseBlock _ _ | BlockAbort i ToolUseBlock _ => i = k
  | _ => False
  end.

(** A call under way was started after its opening, and its block has not ended since. *)
Lemma block_started k es o id name buffer :
  block_after k es = Some (Some (o, id, name), buffer) →
  opens es o = true
  ∧ ∃ s, (o <= s < length es)%nat
    ∧ es !! s = Some (BlockStart k ToolUseBlock (MetaToolUse id name))
    ∧ (∃ i n, es !! o = Some (BlockStart k ToolUseBlock (MetaToolUse i n)))
    ∧ ∀ p e, (o <= p)%nat → es !! p = Some e → ¬ ends k e.
Proof.
  revert o id name buffer. induction es as [|e es IH] using rev_ind; [done|].
  intros o id name buffer Hb.
  assert (∀ b', block_after k es = Some (Some (o, id, name), b') → ¬ ends k e →
    opens (es ++ [e]) o = true ∧ ∃ s, (o <= s < length (es ++ [e]))%nat
    ∧ (es ++ [e]) !! s = Some (BlockStart k ToolUseBlock (MetaToolUse id name))
    ∧ (∃ i n, (es ++ [e]) !! o = Some (BlockStart k ToolUseBlock (MetaToolUse i n)))
    ∧ ∀ p e', (o <= p)%nat → (es ++ [e]) !! p = Some e' → ¬ ends k e') as Hkeep.
  { intros b' H0 He. destruct (IH _ _ _ _ H0) as (Ho & s & Hs & Hst & (i & n & Hop) & Hend).
    split; [rewrite opens_app by lia; done|]. exists s. rewrite length_app.
    split_and!; [lia|lia|by rewrite lookup_app_l by lia|exists i, n; by rewrite lookup_app_l by lia|].
    intros p e' Hp [Hl|[_ Hl]]%lookup_app_Some; [by eapply Hend|].
    apply list_lookup_singleton_Some in Hl as [_ <-]. done. }
  rewrite block_after_snoc in Hb.
  destruct e as [| | | | |i [] md|i []|i [] ? ?|i []]; simpl in Hb;
    try solve [eapply Hkeep; [exact Hb|tauto]].
  - destruct md as [| |i0 n0|]; try solve [eapply Hkeep; [exact Hb|tauto]].
    case_bool_decide as Hi; [|eapply Hkeep; [exact Hb|tauto]].
    subst i. injection Hb as Ho <- <- _.
    assert ((es ++ [BlockStart k ToolUseBlock (MetaToolUse i0 n0)]) !! length es
      = Some (BlockStart k ToolUseBlock (MetaToolUse i0 n0))) as Hlast by apply at_end.
    assert (block_after k es = None ∨ (∃ b', block_after k es = Some (None, b')) → length es = o →
      opens (es ++ [BlockStart k ToolUseBlock (MetaToolUse i0 n0)]) o = true
      ∧ ∃ s, (o <= s < length (es ++ [BlockStart k ToolUseBlock (MetaToolUse i0 n0)]))%nat
      ∧ (es ++ [BlockStart k ToolUseBlock (MetaToolUse i0 n0)]) !! s
        = Some (BlockStart k ToolUseBlock (MetaToolUse i0 n0))
      ∧ (∃ i n, (es ++ [BlockStart k ToolUseBlock (MetaToolUse i0 n0)]) !! o
        = Some (BlockStart k ToolUseBlock (MetaToolUse i n)))
      ∧ ∀ p e', (o <= p)%nat →
          (es ++ [BlockStart k ToolUseBlock (MetaToolUse i0 n0)]) !! p = Some e' → ¬ ends k e') as Hopen.
    { intros Hno <-. unfold opens. rewrite Hlast, take_end.
      split; [by destruct Hno as [->|[b' ->]]|]. exists (length es).
      rewrite length_app. simpl. split_and!; [lia|lia|done|by eauto|].
      intros p e' Hp [Hl%lookup_lt_Some|[_ Hl]]%lookup_app_Some; [lia|].
      apply list_lookup_singleton_Some in Hl as [_ <-]. auto. }
    destruct (block_after k es) as [[[[[o' i'] n']|] b']|] eqn:Hb0.
    + subst o'. destruct (IH _ _ _ _ eq_refl) as (Ho & s & Hs & _ & (i1 & n1 & Hop) & Hend).
      split; [rewrite opens_app by lia; done|]. exists (length es). rewrite length_app. simpl.
      split_and!; [lia|lia|done|exists i1, n1; by rewrite lookup_app_l by lia|].
      intros p e' Hp [Hl|[_ Hl]]%lookup_app_Some; [by eapply Hend|].
      apply list_lookup_singleton_Some in Hl as [_ <-]. auto.
    + apply Hopen; eauto.
    + apply Hopen; auto.
  - case_bool_decide; [|eapply Hkeep; [exact Hb|tauto]].
    destruct (block_after k es) as [[[[[o' i'] n']|] b']|]; simplify_eq.
    eapply Hkeep; [done|tauto].
  - case_bool_decide; [done|eapply Hkeep; [exact Hb|tauto]].
  - case_bool_decide; [done|eapply Hkeep; [exact Hb|tauto]].
Qed.

Lemma openings_lt es o o' : (o < o')%nat → opens es o = true → (openings es o < openings es o')%nat.
Proof.
  intros Hlt Ho. unfold openings. replace o' with (o + S (o' - S o))%nat by lia.
  rewrite seq_app, List.filter_app, length_app. simpl. rewrite Ho. simpl. lia.
Qed.

(** Different events complete different calls: of different openings, and with different
    starts. *)
Lemma completes_inj es p p' c c' :
  completes_at es p = Some c → completes_at es p' = Some c' → (p < p')%nat →
  c.1 ≠ c'.1
  ∧ ∃ s s' k k', (s < s')%nat ∧ es !! s = Some (BlockStart k ToolUseBlock (MetaToolUse (id c.2) (name c.2)))
      ∧ es !! s' = Some (BlockStart k' ToolUseBlock (MetaToolUse (id c'.2) (name c'.2)))
    ∨ (s' < s)%nat ∧ es !! s = Some (BlockStart k ToolUseBlock (MetaToolUse (id c.2) (name c.2)))
      ∧ es !! s' = Some (BlockStart k' ToolUseBlock (MetaToolUse (id c'.2) (name c'.2))).
Proof.
  assert (∀ p c, completes_at es p = Some c → ∃ k o s, (o <= s < p)%nat
    ∧ c.1 = openings es o ∧ opens es o = true
    ∧ (∃ r rs, es !! p = Some (BlockStop k ToolUseBlock r rs))
    ∧ es !! s = Some (BlockStart k ToolUseBlock (MetaToolUse (id c.2) (name c.2)))
    ∧ (∃ i n, es !! o = Some (BlockStart k ToolUseBlock (MetaToolUse i n)))
    ∧ ∀ q e, (o <= q < p)%nat → es !! q = Some e → ¬ ends k e) as Hc.
  { clear. intros p c. unfold completes_at.
    destruct (es !! p) as [[| | | | | | |k [] r rs|]|] eqn:Hp; try done.
    destruct (block_after k (take p es)) as [[[[[o i] n]|] b]|] eqn:Hb; [|done..].
    intros [= <-]. destruct (block_started _ _ _ _ _ _ Hb) as (Ho & s & Hs & Hst & (i' & n' & Hop) & Hend).
    pose proof (lookup_lt_Some _ _ _ Hp) as Hlen. rewrite length_take in Hs.
    assert (∀ q, (q < p)%nat → take p es !! q = es !! q) as Htake
      by (intros; by apply lookup_take_lt).
    exists k, o, s. simpl. split_and!; [lia|lia|done| |by eauto|by rewrite <-Htake by lia|
      exists i', n'; by rewrite <-Htake by lia|].
    - unfold opens in *. rewrite Htake in Ho by lia. rewrite take_take in Ho.
      by replace (o `min` p)%nat with o in Ho by lia.
    - intros q e [Hq1 Hq2] He. apply (Hend q e); [done|]. by rewrite Htake. }
  intros (k & o & s & Hs & Hi & Ho & (r & rs & Hp) & Hst & (i & n & Hop) & Hend)%Hc
    (k' & o' & s' & Hs' & Hi' & Ho' & (r' & rs' & Hp') & Hst' & (i2 & n2 & Hop') & Hend')%Hc Hlt.
  assert (k = k' → (p < o')%nat) as Hk.
  { intros <-. destruct (decide (o' <= p)%nat); [|lia]. exfalso.
    by apply (Hend' p _ ltac:(lia) Hp). }
  split.
  - rewrite Hi, Hi'. intros Heq. destruct (decide (o = o')) as [->|Hne].
    + rewrite Hop in Hop'. injection Hop' as -> _ _. specialize (Hk eq_refl). lia.
    + destruct (decide (o < o')%nat) as [Hl|Hl].
      * pose proof (openings_lt es o o' Hl Ho). lia.
      * pose proof (openings_lt es o' o ltac:(lia) Ho'). lia.
  - exists s, s', k, k'. destruct (decide (s = s')) as [->|Hne]; [|destruct (decide (s < s')%nat); [by left|right; by split; [lia|]]].
    rewrite Hst in Hst'. injection Hst' as -> _ _. specialize (Hk eq_refl). lia.
Qed.

(** The ids the stream gives to calls. *)
Definition start_ids (es : list Event) : list string :=
  omap (λ e, match e with
             | BlockStart _ ToolUseBlock (MetaToolUse id _) => Some id | _ => None end) es.

Lemma omap_seq_NoDup {X Y} (f : nat → option X) (g : X → Y) n :
  (∀ p p' x x', f p = Some x → f p' = Some x' → (p < p')%nat → g x ≠ g x') →
  NoDup (g <$> omap f (seq 0 n)).
Proof.
  intros Hf. induction n as [|n IH]; [constructor|].
  rewrite seq_S, omap_app, fmap_app. apply NoDup_app. split; [done|]. csimpl.
  destruct (f n) as [x|] eqn:Hx; csimpl; [|split; [set_solver|constructor]].
  split; [|apply NoDup_singleton].
  intros y (z & -> & (p & Hp & Hz)%list_elem_of_omap)%list_elem_of_fmap Heq%list_elem_of_singleton.
  apply elem_of_seq in Hp. by apply (Hf p n z x Hz Hx ltac:(lia)).
Qed.

Lemma completed_indexes es : NoDup (completed es).*1.
Proof.
  apply omap_seq_NoDup. intros p p' c c' Hc Hc' Hlt.
  by destruct (completes_inj _ _ _ _ _ Hc Hc' Hlt) as [? _].
Qed.

Lemma start_ids_differ es s s' k k' i n n' :
  NoDup (start_ids es) → (s < s')%nat →
  es !! s = Some (BlockStart k ToolUseBlock (MetaToolUse i n)) →
  es !! s' = Some (BlockStart k' ToolUseBlock (MetaToolUse i n')) → False.
Proof.
  intros Hnd Hlt Hs Hs'. rewrite <-(take_drop s' es) in Hnd. unfold start_ids in Hnd.
  rewrite omap_app in Hnd. apply NoDup_app in Hnd as (_ & Hd & _).
  apply (Hd i); apply list_elem_of_omap.
  - eexists. split; [apply (list_elem_of_lookup_2 _ s); by rewrite lookup_take_lt|done].
  - eexists. split; [apply (list_elem_of_lookup_2 _ 0); by rewrite lookup_drop, Nat.add_0_r|done].
Qed.

Lemma completed_ids es : NoDup (start_ids es) → NoDup ((λ c, id c.2) <$> completed es).
Proof.
  intros Hnd. apply omap_seq_NoDup. intros p p' c c' Hc Hc' Hlt Heq.
  destruct (completes_inj _ _ _ _ _ Hc Hc' Hlt) as (_ & s & s' & k & k' & [(Hl & Hs & Hs')|(Hl & Hs & Hs')]);
    rewrite Heq in Hs; by eapply start_ids_differ.
Qed.

(** No tool-use block is under way. *)
Definition no_open_calls (t : Timeline) : Prop :=
  tu_scopes (tool_use_blocks t) = ∅ ∧ tu_tools (tool_use_blocks t) = ∅.

Lemma reads_begin t : no_open_calls t → reads [] [] (tool_use_blocks (begin_calls t)).
Proof. intros [Hs Ht]. split; intros; simpl; rewrite ?Hs, ?Ht; done. Qed.

Lemma dispatch_all_reads taken es2 : ∀ es1 t,
  reads taken es1 (tool_use_blocks t) →
  ∃ t', dispatch_all t es2 = Some t' ∧ reads taken (es1 ++ es2) (tool_use_blocks t').
Proof.
  induction es2 as [|e es2 IH]; intros es1 t R; simpl; [exists t; by rewrite app_nil_r|].
  destruct (dispatch_reads taken es1 e t R) as (t1 & -> & R1). simpl.
  rewrite (cons_middle e es1 es2), app_assoc. by apply IH.
Qed.

Lemma reads_take taken es t :
  reads taken es (tool_use_blocks t) →
  reads (taken ++ (take_calls t).1) es (tool_use_blocks (take_calls t).2).
Proof. intros [S T N C]. split; simpl; [done|done|done|by rewrite app_nil_r]. Qed.

(** Blocks with a tool call under way are active, so that an abort reaches them. *)
Definition tracked (t : Timeline) : Prop :=
  ∀ k, is_Some (tu_scopes (tool_use_blocks t) !! k) ∨ is_Some (tu_tools (tool_use_blocks t) !! k) →
       (ToolUseBlock, k) ∈ active_blocks t.

Lemma no_open_tracked t : no_open_calls t → tracked t.
Proof. intros [Hs Ht] k. rewrite Hs, Ht, !lookup_empty. by intros [[]|[]]. Qed.

(** The tool-use blocks that remain are among the old ones, but for [i]. *)
Definition only_adds (i : nat) (w w' : ToolUseBlockHandlerWrapper ToolCallCollector CollectorState)
  : Prop :=
  ∀ k, is_Some (tu_scopes w' !! k) ∨ is_Some (tu_tools w' !! k) →
       k = i ∨ is_Some (tu_scopes w !! k) ∨ is_Some (tu_tools w !! k).

Lemma tool_use_event_adds w i e w' : tool_use_event w i e = Some w' → only_adds i w w'.
Proof.
  unfold tool_use_event. destruct (on_event _ _ _) as [[h sc]|]; [|done]. intros [= <-] k. csimpl.
  destruct (decide (i = k)) as [->|Hne]; [by left|]. rewrite lookup_insert_ne by done. auto.
Qed.

Lemma dispatch_tracked t e t' : tracked t → dispatch t e = Some t' → tracked t'.
Proof.
  intros Ht.
  destruct e as [|u|s|er| |i bt md|i d|i bt sr rs|i bt rn]; try by intros [= <-].
  - unfold dispatch, handle_block_start. destruct bt; cbn [for_block_handlers];
      intros (w & Hw & [= <-])%bind_Some k; csimpl; try (intros ?%Ht; set_solver).
    destruct md; try (injection Hw as <-; intros ?%Ht; set_solver). intros Hk.
    apply tool_use_event_adds in Hw. apply Hw in Hk. csimpl in Hk.
    destruct Hk as [->|Hk]; [set_solver|]. destruct (decide (i = k)) as [->|Hne]; [set_solver|].
    rewrite lookup_insert_ne in Hk by done. apply Ht in Hk. set_solver.
  - unfold dispatch, handle_block_delta. destruct d; cbn [for_block_handlers delta_block_type];
      intros (w & Hw & [= <-])%bind_Some k; csimpl; try (intros ?%Ht; set_solver).
    assert (only_adds i (tool_use_blocks t) w) as Hadd
      by (destruct (has_scope _) in Hw; exact (tool_use_event_adds _ _ _ _ Hw)).
    intros [->|Hk%Ht]%Hadd; set_solver.
  - unfold dispatch, handle_block_stop. intros (t1 & Ht1 & [= <-])%bind_Some.
    destruct bt; cbn [for_block_handlers] in Ht1; apply bind_Some in Ht1 as (w & Hw & [= <-]); intros k; csimpl;
      try (intros ?%Ht; set_solver).
    assert (∀ h : ToolCallCollector, w = mkToolUseWrapper h (delete i (tu_scopes (tool_use_blocks t)))
      (delete i (tu_tools (tool_use_blocks t))) →
      is_Some (tu_scopes w !! k) ∨ is_Some (tu_tools w !! k) →
      (ToolUseBlock, k) ∈ active_blocks t ∖ {[(ToolUseBlock, i)]}) as Hdel.
    { intros h ->. csimpl. destruct (decide (i = k)) as [->|Hne].
      - rewrite !lookup_delete_eq. by intros [[]|[]].
      - rewrite !lookup_delete_ne by done. intros ?%Ht. set_solver. }
    apply bind_Some in Hw as (w1 & Hw & [= <-]).
    cbn [dispatch_stop tool_use_wrapper] in Hw.
    destruct (tu_scopes (tool_use_blocks t) !! i), (tu_tools (tool_use_blocks t) !! i);
      try (injection Hw as <-; by eapply Hdel).
    apply bind_Some in Hw as ([h sc] & _ & [= <-]). by eapply Hdel.
  - unfold dispatch, handle_block_abort. intros (t1 & Ht1 & [= <-])%bind_Some.
    destruct bt; csimpl in Ht1; injection Ht1 as <-; intros k; csimpl; try (intros ?%Ht; set_solver).
    destruct (decide (i = k)) as [->|Hne].
    + rewrite !lookup_delete_eq. by intros [[]|[]].
    + rewrite !lookup_delete_ne by done. intros ?%Ht. set_solver.
Qed.

Lemma abort_blocks blocks : ∀ t,
  ∃ t', foldl (λ r '(bt, index), t ← r; handle_block_abort t index bt) (Some t) blocks = Some t'
    ∧ (∀ k, is_Some (tu_scopes (tool_use_blocks t') !! k)
            ∨ is_Some (tu_tools (tool_use_blocks t') !! k) →
        ((ToolUseBlock, k) ∉ blocks)
        ∧ (is_Some (tu_scopes (tool_use_blocks t) !! k) ∨ is_Some (tu_tools (tool_use_blocks t) !! k))).
Proof.
  induction blocks as [|[bt i] blocks IH]; intros t; csimpl.
  { exists t. split; [done|]. set_solver. }
  assert (∃ t1, handle_block_abort t i bt = Some t1
    ∧ ∀ k, is_Some (tu_scopes (tool_use_blocks t1) !! k) ∨ is_Some (tu_tools (tool_use_blocks t1) !! k) →
        (bt, i) ≠ (ToolUseBlock, k)
        ∧ (is_Some (tu_scopes (tool_use_blocks t) !! k) ∨ is_Some (tu_tools (tool_use_blocks t) !! k)))
    as (t1 & Ht1 & H1).
  { destruct bt; (eexists; split; [done|]); intros k; csimpl; try (intros ?; split; [congruence|done]).
    destruct (decide (i = k)) as [->|Hne].
    - rewrite !lookup_delete_eq. by intros [[]|[]].
    - rewrite !lookup_delete_ne by done. intros ?. split; [congruence|done]. }
  rewrite Ht1. destruct (IH t1) as (t' & Ht' & H'). exists t'. split; [done|].
  intros k [Hn Hk]%H'. apply H1 in Hk as [Hne Hk]. split; [|done].
  intros [?|?]%elem_of_cons; [congruence|done].
Qed.

Lemma abort_spec t :
  ∃ t', abort_current_block t = Some t' ∧ (tracked t → no_open_calls t').
Proof.
  unfold abort_current_block. destruct (abort_blocks (elements (active_blocks t)) t) as (t' & -> & H').
  eexists. split; [done|]. intros Ht.
  assert (∀ k, ¬ (is_Some (tu_scopes (tool_use_blocks t') !! k)
    ∨ is_Some (tu_tools (tool_use_blocks t') !! k))) as Hk.
  { intros k [Hn Hk]%H'. apply Hn, elem_of_elements, Ht, Hk. }
  split; apply map_eq; intros k; csimpl; rewrite lookup_empty; apply eq_None_not_Some; intros ?;
    apply (Hk k); auto.
Qed.

End timeline.
Arguments Timeline : clear implicits.
Arguments ToolCallCollector : clear implicits.

(** C17.  Tool calls are collected as they were streamed.  Whatever the events of a response,
    and however its blocks interleave, no handler panics and the calls collected are those
    the stream completes, in the order of completion: the id and name of the last start of
    the block, the concatenation of the input fragments of that block alone since then, and
    the number of calls opened before it.  These numbers are never shared, so they order the
    calls of a response, and calls have different ids when the provider starts them with
    different ids. *)
Theorem collected_calls_exact {Json : Type} (sj : Serde Json) (t : Timeline Json)
    (es : list Event) :
  no_open_calls t →
  ∃ t', dispatch_all sj (begin_calls t) es = Some t'
    ∧ (take_calls t').1 = completed sj es
    ∧ NoDup (completed sj es).*1
    ∧ (NoDup (start_ids es) → NoDup ((λ c, id c.2) <$> completed sj es)).
Proof.
  intros Ht. destruct (dispatch_all_reads sj [] es [] (begin_calls t)) as (t' & Hd & R).
  { by apply reads_begin. }
  exists t'. split_and!; [done|exact (rd_collected _ _ _ _ R)|apply completed_indexes|apply completed_ids].
Qed.

(** Two calls whose fragments interleave. *)
Definition example_stream : list Event :=
  [BlockStart 0 ToolUseBlock (MetaToolUse "a" "Read"); BlockStart 1 ToolUseBlock (MetaToolUse "b" "Edit");
   BlockDelta 1 (InputJson "{y"); BlockDelta 0 (InputJson "{x"); BlockDelta 1 (InputJson "}");
   BlockStop 1 ToolUseBlock None None; BlockDelta 0 (InputJson "}"); BlockStop 0 ToolUseBlock None None;
   Status Completed].

Definition text_json : Serde string := mkSerde Some (λ s, s) (λ _, true) "null" "{}".

Lemma collected_calls_exact_witness :
  ∃ t', dispatch_all text_json (begin_calls timeline_new) example_stream = Some t'
    ∧ (take_calls t').1 = [(1%nat, mkCall "b" "Edit" "{y}"); (0%nat, mkCall "a" "Read" "{x}")].
Proof.
  destruct (collected_calls_exact text_json timeline_new example_stream) as (t' & Hd & Hc & _).
  - split; reflexivity.
  - exists t'. split; [exact Hd|]. rewrite Hc. vm_compute. reflexivity.
Defined.

(** Text blocks share one scope: the text of a block is lost when another one starts before
    it stops, although blocks are told apart by index. *)
Theorem interleaved_text_lost :
  ∃ t', dispatch_all text_json timeline_new
      [BlockStart 0 TextBlock MetaText; BlockDelta 0 (TextDelta "first");
       BlockStart 1 TextBlock MetaText; BlockDelta 1 (TextDelta "second");
       BlockStop 0 TextBlock None None; BlockStop 1 TextBlock None None] = Some t'
    ∧ (take_text t').1 = ["second"].
Proof. eexists. split; [vm_compute; reflexivity|reflexivity]. Qed.

End Timeline.
