(* ===== verification/Scheme.v ===== *)
(** * Wire schemes and the transport

    Models the trait [Scheme] of [src/crates/agen/src/llm_client/scheme/mod.rs], as far as it
    reads responses, and the last part of [stream] of
    [src/crates/agen/src/llm_client/transport.rs], which turns the frames of a response into
    events.  Decoding frames from bytes and JSON from text are arguments.  The lemmas say how
    the tool calls of a stream grow event by event; the files of the schemes use them. *)
From Stdlib Require Import ZArith String List Lia.
From stdpp Require Import base tactics numbers list strings gmap.
From S2P Require Import Prelude ImageRecovery Tool Timeline.

Module Scheme.
Import Tool Timeline.

(** ** Integers *)

(** [a + b] of [u64]: a panic in builds with overflow checks, wrap-around in the others. *)
Definition add_u64 (overflow_checks : bool) (a b : Z) : option Z :=
  if a + b <=? U64_MAX then Some (a + b)
  else if overflow_checks then None else Some ((a + b) mod 2 ^ 64).

(** ** The interface *)

Section interface.
Context {HttpError JsonError : Type}.
Abbreviation ClientError := (ImageRecovery.ClientError HttpError JsonError).

(** The trait [Scheme]: what one frame of a response is converted to, and the state shared
    across frames; [None] is a panic. *)
Class Scheme (W State : Type) := {
  state_default : State;
  parse_sse : W → string → string → State → option (result (list Event) ClientError * State)
}.

(** A frame of a response: its [event:] and [data:] fields. *)
Record Frame := mkFrame { f_event : string; f_data : string }.

Section transport.
Context {W State : Type} `{Scheme W State} (scheme : W).
(** [sse_error_context(status, &response_headers, &source)]. *)
Context (sse_error_context : string → string).

(** The stream of events.  Panics of later frames reach the reader only there; the model has
    no stream then. *)
Fixpoint read_frames (frames : list (result Frame string)) (state : State)
  : option (list (result Event ClientError)) :=
  match frames with
  | [] => Some []
  | Ok frame :: rest =>
      '(r, state) ← parse_sse scheme (f_event frame) (f_data frame) state;
      events ← read_frames rest state;
      Some (match r with Ok es => Ok <$> es | Err e => [Err e] end ++ events)
  | Err e :: rest =>
      events ← read_frames rest state;
      Some (Err (ImageRecovery.Sse (sse_error_context e)) :: events)
  end.

Definition stream (frames : list (result Frame string)) : option (list (result Event ClientError)) :=
  read_frames frames state_default.

(** ** Responses that are read to their end *)

(** The frames without errors of transport or conversion, with the state they lead to. *)
Fixpoint run (frames : list Frame) (state : State) : option (list Event * State) :=
  match frames with
  | [] => Some ([], state)
  | frame :: rest =>
      '(r, state) ← parse_sse scheme (f_event frame) (f_data frame) state;
      match r with
      | Ok es => '(es', state) ← run rest state; Some (es ++ es', state)
      | Err _ => None
      end
  end.

Lemma read_frames_run (frames : list (result Frame string)) : ∀ state es,
  read_frames frames state = Some (Ok <$> es) →
  ∃ fs state', frames = Ok <$> fs ∧ run fs state = Some (es, state').
Proof.
  induction frames as [|[frame|e] frames IH]; intros state es; simpl.
  - intros [= He]. destruct es; [|done]. by exists [], state.
  - destruct (parse_sse scheme _ _ state) as [[r state1]|] eqn:Hp; [|done]. simpl.
    destruct (read_frames frames state1) as [events|] eqn:Hr; [|done]. simpl. intros [= He].
    destruct r as [es1|e]; [|by destruct es].
    assert (∃ es2, es = es1 ++ es2 ∧ events = Ok <$> es2) as (es2 & -> & ->).
    { revert es He. clear. induction es1 as [|x es1 IH]; intros es He; simpl in He; [by eexists|].
      destruct es as [|y es]; [done|]. injection He as -> He. destruct (IH _ He) as (es2 & -> & ->).
      by exists es2. }
    destruct (IH _ _ Hr) as (fs & state' & -> & Hrun). exists (frame :: fs), state'.
    split; [done|]. simpl. rewrite Hp. simpl. by rewrite Hrun.
  - destruct (read_frames frames state) as [events|]; [|done]. simpl. by destruct es.
Qed.

Lemma run_app fs1 fs2 state :
  run (fs1 ++ fs2) state
  = '(es1, state1) ← run fs1 state; '(es2, state2) ← run fs2 state1; Some (es1 ++ es2, state2).
Proof.
  revert state. induction fs1 as [|f fs1 IH]; intros state; simpl.
  - by destruct (run fs2 state) as [[]|].
  - destruct (parse_sse scheme _ _ state) as [[[es|e] state1]|]; simpl; [|done..]. rewrite IH.
    destruct (run fs1 state1) as [[es1 state2]|]; simpl; [|done].
    destruct (run fs2 state2) as [[es2 state3]|]; simpl; [|done]. by rewrite app_assoc.
Qed.

(** An invariant of the state and the events so far holds at the end. *)
Lemma run_invariant (I : list Event → State → Prop) :
  (∀ es state frame es' state', I es state →
     parse_sse scheme (f_event frame) (f_data frame) state = Some (Ok es', state') →
     I (es ++ es') state') →
  ∀ fs es0 state es state', I es0 state → run fs state = Some (es, state') → I (es0 ++ es) state'.
Proof.
  intros Hstep. induction fs as [|f fs IH]; intros es0 state es state' HI; simpl.
  - intros [= <- <-]. by rewrite app_nil_r.
  - destruct (parse_sse scheme _ _ state) as [[[es1|e] state1]|] eqn:Hp; simpl; [|done..].
    destruct (run fs state1) as [[es2 state2]|] eqn:Hr; simpl; [|done]. intros [= <- <-].
    rewrite app_assoc. eapply IH; [|exact Hr]. by eapply Hstep.
Qed.

End transport.
End interface.
Arguments Scheme : clear implicits.

(** ** Tool calls of a growing stream *)

(** A complete response can be executed: its blocks are closed, its calls named differently. *)
Definition tidy_stream (es : list Event) : Prop :=
  NoDup (start_ids es) ∧ ∀ k, block_after k es = None.

(** How many calls a stream has opened. *)
Definition opened (es : list Event) : nat := openings es (length es).

(** The call of block [k] is open: it was the [n]-th, with this id, name and input so far. *)
Definition under_way (es : list Event) (k n : nat) (id name buffer : string) : Prop :=
  ∃ o, block_after k es = Some (Some (o, id, name), buffer) ∧ openings es o = n.

(** The block an event on tool calls is about. *)
Definition about_call (e : Event) : option nat :=
  match e with
  | BlockStart i ToolUseBlock (MetaToolUse _ _) => Some i
  | BlockDelta i (InputJson _) => Some i
  | BlockStop i ToolUseBlock _ _ | BlockAbort i ToolUseBlock _ => Some i
  | _ => None
  end.

Lemma block_after_other k es e :
  about_call e ≠ Some k → block_after k (es ++ [e]) = block_after k es.
Proof.
  intros He. rewrite block_after_snoc.
  destruct e as [| | | | |i [] []|i []|i []|i []]; simpl in *; try done; case_bool_decide; congruence.
Qed.

Lemma opens_end es e :
  opens (es ++ [e]) (length es)
  = match e with
    | BlockStart i ToolUseBlock (MetaToolUse _ _) =>
        match block_after i es with Some (Some _, _) => false | _ => true end
    | _ => false
    end.
Proof. unfold opens. rewrite at_end, take_app_length. by destruct e as [| | | | |i [] []|i []|i []|i []]. Qed.

Lemma opened_snoc es e :
  opened (es ++ [e]) = (opened es + if opens (es ++ [e]) (length es) then 1 else 0)%nat.
Proof. apply openings_snoc. Qed.

Lemma under_way_other es e k n id name buffer :
  under_way es k n id name buffer → about_call e ≠ Some k → under_way (es ++ [e]) k n id name buffer.
Proof.
  intros (o & Hb & <-) He. exists o. rewrite block_after_other by done. split; [done|].
  apply block_after_opened in Hb. apply openings_app. lia.
Qed.

(** The same for events none of which is about the block. *)
Lemma block_after_others k es es' :
  Forall (λ e, about_call e ≠ Some k) es' → block_after k (es ++ es') = block_after k es.
Proof.
  revert es. induction es' as [|e es' IH]; intros es Hq; [by rewrite app_nil_r|].
  apply Forall_cons in Hq as [He Hq]. rewrite cons_middle, app_assoc, IH by done.
  by apply block_after_other.
Qed.

Lemma under_way_others es es' k n id name buffer :
  under_way es k n id name buffer → Forall (λ e, about_call e ≠ Some k) es' →
  under_way (es ++ es') k n id name buffer.
Proof.
  intros Hu Hq. revert es Hu. induction Hq as [|e es' He _ IH]; intros es Hu; [by rewrite app_nil_r|].
  rewrite cons_middle, app_assoc. by apply IH, under_way_other.
Qed.

Lemma under_way_start es k id name :
  block_after k es = None →
  under_way (es ++ [BlockStart k ToolUseBlock (MetaToolUse id name)]) k (opened es) id name EmptyString.
Proof.
  intros Hb. exists (length es). rewrite block_after_snoc, Hb. simpl. rewrite bool_decide_true by done.
  split; [done|]. by apply openings_app.
Qed.

Lemma under_way_delta es k n id name buffer s :
  under_way es k n id name buffer →
  under_way (es ++ [BlockDelta k (InputJson s)]) k n id name (buffer +:+ s).
Proof.
  intros (o & Hb & <-). exists o. rewrite block_after_snoc, Hb. simpl. rewrite bool_decide_true by done.
  split; [done|]. apply block_after_opened in Hb. apply openings_app. lia.
Qed.

(** The last event closes the block, or leaves it open. *)
Lemma block_after_stop es k reason reasoning :
  block_after k (es ++ [BlockStop k ToolUseBlock reason reasoning]) = None.
Proof. rewrite block_after_snoc. simpl. by rewrite bool_decide_true. Qed.

Section completed.
Context {Json : Type} (sj : Serde Json).

Lemma completed_other es e :
  (match e with BlockStop _ ToolUseBlock _ _ => False | _ => True end) →
  completed sj (es ++ [e]) = completed sj es.
Proof.
  intros He. rewrite completed_snoc. unfold completes_at. rewrite at_end.
  destruct e as [| | | | | | |i []|]; simpl in *; by rewrite ?app_nil_r.
Qed.

Lemma completed_stop es k n id name buffer reason reasoning :
  under_way es k n id name buffer →
  completed sj (es ++ [BlockStop k ToolUseBlock reason reasoning])
  = completed sj es ++ [(n, mkCall id name (parse_input sj buffer))].
Proof.
  intros (o & Hb & <-). rewrite completed_snoc. unfold completes_at.
  rewrite at_end, take_app_length, Hb. apply block_after_opened in Hb. by rewrite openings_app by lia.
Qed.

(** Events that have nothing to do with tool calls. *)
Lemma quiet_events es es' :
  Forall (λ e, about_call e = None) es' →
  completed sj (es ++ es') = completed sj es ∧ opened (es ++ es') = opened es
  ∧ start_ids (es ++ es') = start_ids es ∧ ∀ k, block_after k (es ++ es') = block_after k es.
Proof.
  intros Hq. induction es' as [|e es' IH] using rev_ind; [by rewrite app_nil_r|].
  apply Forall_app in Hq as [Hq [He _]%Forall_cons]. destruct (IH Hq) as (Hc & Ho & Hs & Hb).
  rewrite app_assoc. split_and!.
  - rewrite completed_other; [done|]. by destruct e as [| | | | |i [] []|i []|i []|i []].
  - rewrite opened_snoc, opens_end. by destruct e as [| | | | |i [] []|i []|i []|i []]; simpl in *; try lia.
  - unfold start_ids in *. rewrite omap_app. destruct e as [| | | | |i [] []|i []|i []|i []]; simpl in *; by rewrite ?app_nil_r.
  - intros k. rewrite block_after_other; [done|congruence].
Qed.

Lemma concat_cons s l :
  String.concat EmptyString (s :: l) = s +:+ String.concat EmptyString l.
Proof. destruct l; simpl; [by rewrite string_app_nil_r|done]. Qed.

Lemma concat_snoc l s :
  String.concat EmptyString (l ++ [s]) = String.concat EmptyString l +:+ s.
Proof.
  induction l as [|x l IH]; [done|].
  rewrite <-app_comm_cons, !concat_cons, IH. apply string_app_assoc.
Qed.

(** A whole call, from its start to its stop. *)
Definition call_events (k : nat) (id name : string) (inputs : list string) : list Event :=
  BlockStart k ToolUseBlock (MetaToolUse id name) :: ((λ s, BlockDelta k (InputJson s)) <$> inputs).

Lemma call_events_eq k id name inputs :
  call_events k id name inputs
  = [BlockStart k ToolUseBlock (MetaToolUse id name)] ++ ((λ s, BlockDelta k (InputJson s)) <$> inputs).
Proof. done. Qed.

Lemma start_ids_app es es' : start_ids (es ++ es') = start_ids es ++ start_ids es'.
Proof. apply omap_app. Qed.

Lemma call_events_after es k id name inputs :
  block_after k es = None →
  under_way (es ++ call_events k id name inputs) k (opened es) id name (String.concat EmptyString inputs)
  ∧ completed sj (es ++ call_events k id name inputs) = completed sj es
  ∧ opened (es ++ call_events k id name inputs) = S (opened es)
  ∧ start_ids (es ++ call_events k id name inputs) = start_ids es ++ [id]
  ∧ ∀ j, j ≠ k → block_after j (es ++ call_events k id name inputs) = block_after j es.
Proof.
  intros Hb. unfold call_events. induction inputs as [|s inputs IH] using rev_ind.
  - split_and!.
    + by apply under_way_start.
    + by apply completed_other.
    + rewrite opened_snoc, opens_end, Hb. lia.
    + by rewrite start_ids_app.
    + intros j Hj. apply block_after_other. simpl. congruence.
  - rewrite fmap_app, app_comm_cons, app_assoc. simpl.
    destruct IH as (Hu & Hc & Ho & Hs & Hj). split_and!.
    + rewrite concat_snoc. by apply under_way_delta.
    + by rewrite completed_other.
    + rewrite opened_snoc, opens_end. lia.
    + rewrite start_ids_app, Hs. apply app_nil_r.
    + intros j Hne. rewrite block_after_other by (simpl; congruence). by apply Hj.
Qed.

(** More of the input of a call. *)
Lemma more_input es k n id name buffer inputs :
  under_way es k n id name buffer →
  let es' := es ++ ((λ s, BlockDelta k (InputJson s)) <$> inputs) in
  under_way es' k n id name (buffer +:+ String.concat EmptyString inputs)
  ∧ completed sj es' = completed sj es ∧ opened es' = opened es ∧ start_ids es' = start_ids es.
Proof.
  intros Hu. induction inputs as [|s inputs IH] using rev_ind; simpl.
  - by rewrite app_nil_r, string_app_nil_r.
  - rewrite fmap_app, app_assoc. simpl. destruct IH as (Hu' & Hc & Ho & Hs). split_and!.
    + rewrite concat_snoc, string_app_assoc. by apply under_way_delta.
    + by rewrite completed_other.
    + rewrite opened_snoc, opens_end. lia.
    + rewrite start_ids_app, Hs. apply app_nil_r.
Qed.

Lemma whole_call es k id name inputs reason reasoning :
  block_after k es = None →
  let es' := es ++ call_events k id name inputs ++ [BlockStop k ToolUseBlock reason reasoning] in
  completed sj es'
  = completed sj es ++ [(opened es, mkCall id name (parse_input sj (String.concat EmptyString inputs)))]
  ∧ opened es' = S (opened es) ∧ start_ids es' = start_ids es ++ [id]
  ∧ ∀ j, block_after j es' = block_after j es.
Proof.
  intros Hb es'. unfold es'. rewrite app_assoc.
  destruct (call_events_after es k id name inputs Hb) as (Hu & Hc & Ho & Hs & Hj). split_and!.
  - rewrite (completed_stop _ _ _ _ _ _ _ _ Hu). by rewrite Hc.
  - rewrite opened_snoc, opens_end, Ho. lia.
  - rewrite start_ids_app, Hs. apply app_nil_r.
  - intros j. destruct (decide (j = k)) as [->|Hne].
    + by rewrite block_after_stop.
    + rewrite block_after_other by (simpl; congruence). by apply Hj.
Qed.

End completed.
#[global] Opaque call_events.
End Scheme.
