(* ===== verification/Gemini.v ===== *)
(** * The Gemini scheme

    Models [src/crates/agen/src/llm_client/scheme/gemini/events.rs]: the parts of a response
    get blocks of their own, and a function call is a whole block.  Of the decoded structures
    the fields the code reads are kept; decoding is an argument.  The theorem: the calls the
    engine collects are the function calls of the response, in order, and every response is
    tidy, whatever the provider sends. *)
From Stdlib Require Import ZArith String Ascii List Lia.
From stdpp Require Import base tactics numbers list strings gmap pretty.
From S2P Require Import Prelude ImageRecovery Tool Timeline Scheme.

Module Gemini.
Import Tool Timeline Scheme.

Section gemini.
Context {Json HttpError JsonError : Type}.
Abbreviation ClientError := (ImageRecovery.ClientError HttpError JsonError).

(** ** Responses *)

Record FunctionCall := mkFunctionCall {
  fc_name : string;
  args : option Json;
  partial_args : option Json;
  will_continue : option bool
}.

Record CandidatePart := mkPart { text : option string; function_call : option FunctionCall }.

(** The content of a candidate is its parts. *)
Record Candidate := mkCandidate {
  content : option (option (list CandidatePart));
  finish_reason : option string
}.

Record UsageMetadata := mkUsageMetadata {
  prompt_token_count : option Z;
  candidates_token_count : option Z;
  total_token_count : option Z
}.

Record GenerateContentResponse := mkResponse {
  candidates : option (list Candidate);
  usage_metadata : option UsageMetadata
}.

Record GeminiStreamState := mkState { next_index : nat; last_text_index : option nat }.

Definition gemini_start : GeminiStreamState := mkState 0 None.

(** [serde_json::from_str] with the text of its error, and the JSON of arguments. *)
Record GeminiScheme := mkGemini {
  decode : string → result GenerateContentResponse string;
  serde : Serde Json
}.

Context (scheme : GeminiScheme).

(** ** Conversion *)

Definition api_error (code message : string) : ClientError :=
  ImageRecovery.Api None (Some code) message None.

Definition convert_usage (usage : UsageMetadata) : Event :=
  Usage (mkUsageEvent (prompt_token_count usage) (candidates_token_count usage)
           (total_token_count usage) None None).

Definition function_id (index : nat) : string := "call_" +:+ pretty index.

(** The argument fragments of a call: one, or none for an empty or null value. *)
Definition arg_deltas (args : option Json) : list string :=
  match args with
  | Some v =>
      let args_str := to_string (serde scheme) v in
      if bool_decide (args_str = EmptyString) || bool_decide (args_str = "null") then []
      else [args_str]
  | None => []
  end.

(** One round of the loop over the parts. *)
Definition convert_part (part : CandidatePart) (state : GeminiStreamState)
  : result (list Event) ClientError * GeminiStreamState :=
  let index := next_index state in
  let '(events, state) :=
    match text part with
    | Some text =>
        if bool_decide (text = EmptyString) then ([], mkState (S index) (last_text_index state))
        else ([BlockDelta index (TextDelta text)], mkState (S index) (Some index))
    | None => ([], mkState (S index) (last_text_index state))
    end in
  match function_call part with
  | None => (Ok events, state)
  | Some f =>
      if bool_decide (is_Some (partial_args f)) || bool_decide (is_Some (will_continue f)) then
        (Err (api_error "unsupported_partial_function_call"
           "Gemini partial function arguments require an unsupported streaming protocol"), state)
      else
        (Ok (events ++ call_events index (function_id index) (fc_name f) (arg_deltas (args f))
               ++ [BlockStop index ToolUseBlock (Some StopToolUse) None]), state)
  end.

Fixpoint convert_parts (parts : list CandidatePart) (state : GeminiStreamState)
  : result (list Event) ClientError * GeminiStreamState :=
  match parts with
  | [] => (Ok [], state)
  | part :: rest =>
      match convert_part part state with
      | (Ok events, state) =>
          let '(r, state) := convert_parts rest state in
          ((let? events' := r in Ok (events ++ events')), state)
      | (Err e, state) => (Err e, state)
      end
  end.

Definition stop_reason (finish_reason : string) : option StopReason :=
  if bool_decide (finish_reason = "STOP") then Some EndTurn
  else if bool_decide (finish_reason = "MAX_TOKENS") then Some MaxTokens
  else if bool_decide (finish_reason ∈ ["SAFETY"; "RECITATION"; "OTHER"]) then Some EndTurn
  else None.

(** The finish of a candidate closes the last text. *)
Definition convert_finish (finish : option string) (state : GeminiStreamState)
  : list Event * GeminiStreamState :=
  match finish, last_text_index state with
  | Some reason, Some index =>
      ([BlockStop index TextBlock (stop_reason reason) None], mkState (next_index state) None)
  | _, _ => ([], state)
  end.

Definition candidate_parts (c : Candidate) : list CandidatePart :=
  match content c with Some (Some parts) => parts | _ => [] end.

Fixpoint convert_candidates (cs : list Candidate) (state : GeminiStreamState)
  : result (list Event) ClientError * GeminiStreamState :=
  match cs with
  | [] => (Ok [], state)
  | c :: rest =>
      match convert_parts (candidate_parts c) state with
      | (Ok events, state) =>
          let '(finish, state) := convert_finish (finish_reason c) state in
          let '(r, state) := convert_candidates rest state in
          ((let? events' := r in Ok (events ++ finish ++ events')), state)
      | (Err e, state) => (Err e, state)
      end
  end.

Definition parse_event (data : string) (state : GeminiStreamState)
  : result (option (list Event)) ClientError * GeminiStreamState :=
  if bool_decide (data = EmptyString) || bool_decide (data = "[DONE]") then (Ok None, state)
  else
    match decode scheme data with
    | Err e => (Err (api_error "parse_error"
                  ("Failed to parse Gemini SSE data: " +:+ e +:+ " -> " +:+ data)), state)
    | Ok response =>
        let usage := match usage_metadata response with Some u => [convert_usage u] | None => [] end in
        let '(r, state) := convert_candidates (default [] (candidates response)) state in
        ((let? events := r in
          Ok (match usage ++ events with [] => None | events => Some events end)), state)
    end.

End gemini.
Arguments FunctionCall : clear implicits.
Arguments CandidatePart : clear implicits.
Arguments GenerateContentResponse : clear implicits.
Arguments GeminiScheme : clear implicits.

(** [impl Scheme for GeminiScheme]. *)
#[global] Instance gemini_scheme {Json HttpError JsonError : Type}
  : Scheme HttpError JsonError (GeminiScheme Json) GeminiStreamState := {
  state_default := gemini_start;
  parse_sse scheme _ data state :=
    let '(r, state) := parse_event scheme data state in
    Some ((let? events := r in Ok (default [] events)), state)
}.

(** ** What a response says *)

Section meaning.
Context {Json HttpError JsonError : Type} (scheme : GeminiScheme Json).
Abbreviation ClientError := (ImageRecovery.ClientError HttpError JsonError).

(** The parts of a frame, in order. *)
Definition frame_parts (frame : Frame) : list (CandidatePart Json) :=
  if bool_decide (f_data frame = EmptyString) || bool_decide (f_data frame = "[DONE]") then []
  else match decode scheme (f_data frame) with
       | Ok response => concat (candidate_parts <$> default [] (candidates response))
       | Err _ => []
       end.

(** The function calls among the parts, with the number of their part. *)
Fixpoint function_calls (n : nat) (parts : list (CandidatePart Json))
  : list (nat * FunctionCall Json) :=
  match parts with
  | [] => []
  | part :: rest =>
      match function_call part with Some f => [(n, f)] | None => [] end ++ function_calls (S n) rest
  end.

(** The arguments of a call: those of the response when they are an object. *)
Definition argument (args : option Json) : Json :=
  parse_input (serde scheme) (String.concat EmptyString (arg_deltas scheme args)).

Definition call_of (n : nat) (kf : nat * FunctionCall Json) : nat * ToolCall Json :=
  (n, mkCall (function_id kf.1) (fc_name kf.2) (argument (args kf.2))).

(** The text of JSON objects is read back as it was written. *)
Definition object_texts (sj : Serde Json) : Prop :=
  ∀ v, is_object sj v = true →
  from_str sj (to_string sj v) = Some v ∧ trim_is_empty (to_string sj v) = false
  ∧ to_string sj v ≠ "null".

Lemma argument_object v :
  object_texts (serde scheme) → is_object (serde scheme) v = true → argument (Some v) = v.
Proof.
  intros Hs Ho. destruct (Hs v Ho) as (Hr & Ht & Hn). unfold argument, arg_deltas.
  rewrite (bool_decide_false (_ = "null")) by done.
  case_bool_decide as He; simpl; [by rewrite He in Ht|]. unfold parse_input. by rewrite Ht, Hr, Ho.
Qed.

(** ** Events and parts agree *)

Record follows (parts : list (CandidatePart Json)) (es : list Event) : Prop := {
  fo_completed : completed (serde scheme) es = imap call_of (function_calls 0 parts);
  fo_opened : opened es = length (function_calls 0 parts);
  fo_ids : start_ids es = (λ kf, function_id kf.1) <$> function_calls 0 parts;
  fo_closed k : block_after k es = None
}.

Lemma function_calls_app n parts1 parts2 :
  function_calls n (parts1 ++ parts2)
  = function_calls n parts1 ++ function_calls (n + length parts1) parts2.
Proof.
  revert n. induction parts1 as [|p parts1 IH]; intros n; simpl; [by rewrite Nat.add_0_r|].
  rewrite IH, <-Nat.add_succ_comm. by rewrite app_assoc.
Qed.

Lemma follows_quiet parts es es' :
  follows parts es → Forall (λ e, about_call e = None) es' → follows parts (es ++ es').
Proof.
  intros [C O I B] Hq. destruct (quiet_events (serde scheme) es es' Hq) as (Hc & Ho & Hs & Hb).
  split; intros; congruence || by rewrite Hb.
Qed.

Lemma convert_part_follows parts part es state es' state' :
  follows parts es → next_index state = length parts →
  convert_part (HttpError := HttpError) (JsonError := JsonError) scheme part state = (Ok es', state') →
  follows (parts ++ [part]) (es ++ es') ∧ next_index state' = length (parts ++ [part]).
Proof.
  intros F Hn. unfold convert_part. rewrite length_app. simpl.
  set (texts := match text part with Some _ => _ | None => _ end).
  assert (Forall (λ e, about_call e = None) texts.1 ∧ next_index texts.2 = S (next_index state)) as [Hq Hs].
  { unfold texts. destruct (text part); [case_bool_decide|]; simpl; by repeat constructor. }
  destruct texts as [events state1]. simpl in *. pose proof (follows_quiet _ _ _ F Hq) as F1.
  destruct (function_call part) as [f|] eqn:Hf.
  - destruct (_ || _); [done|]. intros [= <- <-]. split; [|lia]. rewrite Hn, app_assoc.
    destruct F1 as [C O I B].
    destruct (whole_call (serde scheme) (es ++ events) (length parts) (function_id (length parts))
      (fc_name f) (arg_deltas scheme (args f)) (Some StopToolUse) None (B _)) as (Hc & Ho & Hi & Hb).
    split; rewrite ?Hc, ?Ho, ?Hi, ?function_calls_app; simpl; rewrite ?Hf; simpl.
    + rewrite imap_app, C, O. simpl. by rewrite Nat.add_0_r.
    + rewrite length_app. simpl. lia.
    + by rewrite fmap_app, I.
    + intros k. by rewrite Hb.
  - intros [= <- <-]. split; [|lia]. destruct F1 as [C O I B].
    split; rewrite ?function_calls_app; simpl; rewrite ?Hf, ?app_nil_r; done.
Qed.

Lemma convert_parts_follows parts2 : ∀ parts1 es state es' state',
  follows parts1 es → next_index state = length parts1 →
  convert_parts (HttpError := HttpError) (JsonError := JsonError) scheme parts2 state = (Ok es', state') →
  follows (parts1 ++ parts2) (es ++ es') ∧ next_index state' = length (parts1 ++ parts2).
Proof.
  induction parts2 as [|part parts2 IH]; intros parts1 es state es' state' F Hn; simpl.
  - intros [= <- <-]. by rewrite !app_nil_r.
  - destruct (convert_part scheme part state) as [[es1|e] state1] eqn:Hp; [|done].
    destruct (convert_part_follows _ _ _ _ _ _ F Hn Hp) as [F1 Hn1].
    destruct (convert_parts scheme parts2 state1) as [[es2|e] state2] eqn:Hps; [|done].
    intros [= <- <-]. rewrite (cons_middle part parts1 parts2), !app_assoc. by eapply IH.
Qed.

Lemma convert_candidates_follows cs : ∀ parts es state es' state',
  follows parts es → next_index state = length parts →
  convert_candidates (HttpError := HttpError) (JsonError := JsonError) scheme cs state = (Ok es', state') →
  follows (parts ++ concat (candidate_parts <$> cs)) (es ++ es')
  ∧ next_index state' = length (parts ++ concat (candidate_parts <$> cs)).
Proof.
  induction cs as [|c cs IH]; intros parts es state es' state' F Hn; simpl.
  - intros [= <- <-]. by rewrite !app_nil_r.
  - destruct (convert_parts scheme _ state) as [[es1|e] state1] eqn:Hp; [|done].
    destruct (convert_parts_follows _ _ _ _ _ _ F Hn Hp) as [F1 Hn1].
    destruct (convert_finish (finish_reason c) state1) as [es2 state2] eqn:Hf.
    assert (Forall (λ e, about_call e = None) es2 ∧ next_index state2 = next_index state1) as [Hq Hs].
    { revert Hf. unfold convert_finish. destruct (finish_reason c), (last_text_index state1);
        intros [= <- <-]; by repeat constructor. }
    destruct (convert_candidates scheme cs state2) as [[es3|e] state3] eqn:Hc; [|done].
    intros [= <- <-]. rewrite !app_assoc. eapply IH; [|by rewrite Hs|exact Hc].
    by apply follows_quiet.
Qed.

Lemma gemini_run fs es state :
  run (HttpError := HttpError) (JsonError := JsonError) scheme fs gemini_start = Some (es, state) →
  follows (concat (frame_parts <$> fs)) es ∧ next_index state = length (concat (frame_parts <$> fs)).
Proof.
  assert (follows [] []) as F0 by (by split).
  assert (∀ fs parts es0 state0 es state,
    follows parts es0 → next_index state0 = length parts →
    run (HttpError := HttpError) (JsonError := JsonError) scheme fs state0 = Some (es, state) →
    follows (parts ++ concat (frame_parts <$> fs)) (es0 ++ es)
    ∧ next_index state = length (parts ++ concat (frame_parts <$> fs))) as Hgo;
    [|by apply (Hgo fs [] [])].
  clear. induction fs as [|f fs IH]; intros parts es0 state0 es state F Hn; simpl.
  - intros [= <- <-]. by rewrite !app_nil_r.
  - destruct (parse_event scheme (f_data f) state0) as [r state1] eqn:Hp. simpl.
    destruct r as [o|e]; simpl; [|done].
    destruct (run scheme fs state1) as [[es2 state2]|] eqn:Hr; [|done]. intros [= <- <-].
    assert (follows (parts ++ frame_parts f) (es0 ++ default [] o)
      ∧ next_index state1 = length (parts ++ frame_parts f)) as [F1 Hn1].
    { revert Hp. unfold parse_event, frame_parts. destruct (_ || _).
      { intros [= <- <-]. simpl. by rewrite !app_nil_r. }
      destruct (decode scheme (f_data f)) as [response|e]; [|done].
      set (usage := match usage_metadata response with Some _ => _ | None => _ end).
      assert (Forall (λ e, about_call e = None) usage) as Hq
        by (unfold usage; destruct (usage_metadata response); by repeat constructor).
      destruct (convert_candidates scheme _ state0) as [[es1|e] state3] eqn:Hc; [|done].
      intros [= <- <-].
      destruct (convert_candidates_follows _ _ _ _ _ _ (follows_quiet _ _ _ F Hq) Hn Hc) as [F1 Hn1].
      split; [|done]. rewrite <-app_assoc in F1.
      replace (default [] _) with (usage ++ es1) by (by destruct (usage ++ es1)). done. }
    rewrite app_assoc, app_assoc. by eapply IH.
Qed.

Lemma function_calls_fst n parts : Forall (λ kf, (n <= kf.1)%nat) (function_calls n parts)
  ∧ NoDup ((λ kf, function_id kf.1) <$> function_calls n parts).
Proof.
  revert n. induction parts as [|p parts IH]; intros n; simpl; [by repeat constructor|].
  destruct (IH (S n)) as [Hf Hnd].
  assert (Forall (λ kf : nat * FunctionCall Json, (n <= kf.1)%nat) (function_calls (S n) parts)) as Hf'
    by (eapply Forall_impl; [exact Hf|simpl; lia]).
  destruct (function_call p) as [f|]; simpl; [|done]. split; [by constructor|].
  constructor; [|done]. intros (kf & Hk & Hin)%list_elem_of_fmap.
  rewrite Forall_forall in Hf. specialize (Hf _ Hin). unfold function_id in Hk.
  apply (inj (String.append "call_")), (inj pretty) in Hk. simpl in Hk. lia.
Qed.

(** The promise of the scheme to the engine. *)
Lemma gemini_tidy fs es state :
  run (HttpError := HttpError) (JsonError := JsonError) scheme fs gemini_start = Some (es, state) →
  tidy_stream es.
Proof.
  intros [[_ _ I B] _]%gemini_run. split; [|done]. rewrite I. apply function_calls_fst.
Qed.

End meaning.

(** C32.  Function calls are collected as they were sent.  Whatever frames a Gemini response has,
    if it is read without an error the calls of its events are the function calls of its
    parts, in order, each under the number of its part, with its name and its arguments; the
    calls have different ids and no block is left open. *)
Theorem gemini_calls_exact {Json HttpError JsonError : Type} (scheme : GeminiScheme Json)
    (fs : list Frame) (es : list Event) (state : GeminiStreamState) :
  object_texts (serde scheme) →
  run (HttpError := HttpError) (JsonError := JsonError) scheme fs gemini_start = Some (es, state) →
  completed (serde scheme) es
  = imap (λ n kf, (n, mkCall (function_id kf.1) (fc_name kf.2)
                         match args kf.2 with
                         | Some v => if is_object (serde scheme) v then v else argument scheme (Some v)
                         | None => argument scheme None
                         end))
      (function_calls 0 (concat (frame_parts scheme <$> fs)))
  ∧ tidy_stream es.
Proof.
  intros Hs Hr. split; [|by eapply gemini_tidy]. destruct (gemini_run _ _ _ _ Hr) as [[-> _ _ _] _].
  apply imap_ext. intros n [k f] _. unfold call_of. simpl. do 2 f_equal.
  destruct (args f) as [v|]; [|done]. destruct (is_object _ v) eqn:Ho; [|done]. by apply argument_object.
Qed.

(** A response with two calls of one function, and its text. *)
Definition example_response : GenerateContentResponse string :=
  mkResponse (Some [mkCandidate (Some (Some
    [mkPart (Some "Reading.") None;
     mkPart None (Some (mkFunctionCall "Read" (Some "{a}") None None));
     mkPart None (Some (mkFunctionCall "Read" (Some "{b}") None None))])) (Some "STOP")]) None.

Definition braces (s : string) : bool :=
  match s with String c _ => Ascii.eqb c "{"%char | EmptyString => false end.

Definition example_gemini : GeminiScheme string :=
  mkGemini (λ _, Ok example_response) (mkSerde Some (λ s, s) braces "null" "{}").

Lemma gemini_calls_exact_witness :
  ∃ es state,
    run (HttpError := unit) (JsonError := unit) example_gemini [mkFrame EmptyString "data"] gemini_start
      = Some (es, state)
    ∧ completed (serde example_gemini) es
      = [(0%nat, mkCall "call_1" "Read" "{a}"); (1%nat, mkCall "call_2" "Read" "{b}")].
Proof.
  eexists _, _. split; [vm_compute; reflexivity|].
  refine (proj1 (gemini_calls_exact (HttpError := unit) (JsonError := unit) example_gemini
    [mkFrame EmptyString "data"] _ _ _ _)); [|vm_compute; reflexivity].
  intros v Hv. split; [reflexivity|]. destruct v as [|c v]; [discriminate Hv|].
  apply Ascii.eqb_eq in Hv. subst c. split; [reflexivity|discriminate].
Defined.

End Gemini.
