(* ===== verification/OpenAIChat.v ===== *)
(** * The OpenAI Chat scheme

    Models [src/crates/agen/src/llm_client/scheme/openai_chat/events.rs] and the reading half of
    its [scheme_impl.rs].  Of the decoded structures the fields the code reads are kept;
    decoding is an argument.  The theorem shows a defect: the scheme opens blocks for tool
    calls and never closes them, so no call of any response is ever collected. *)
From Stdlib Require Import ZArith String List Lia.
From stdpp Require Import base tactics numbers list strings gmap.
From S2P Require Import Prelude ImageRecovery Tool Timeline Scheme.

Module OpenAIChat.
Import Tool Timeline Scheme.

(** ** Chunks *)

Record ChunkFunction := mkFunction { name : option string; arguments : option string }.

Record ChunkToolCall := mkToolCall {
  tc_index : nat;
  tc_id : option string;
  function : option ChunkFunction
}.

Record ChunkDelta := mkDelta { content : option string; tool_calls : option (list ChunkToolCall) }.

Record ChunkChoice := mkChoice {
  index : nat;
  delta : ChunkDelta;
  finish_reason : option string
}.

Record ChunkUsage := mkUsage { prompt_tokens : Z; completion_tokens : Z; total_tokens : Z }.

Record ChatCompletionChunk := mkChunk { choices : list ChunkChoice; usage : option ChunkUsage }.

(** [serde_json::from_str] with the text of its error. *)
Record OpenAIScheme := mkScheme { decode : string → result ChatCompletionChunk string }.

(** ** Conversion *)

(** One round of the loop over the tool calls of a choice. *)
Definition convert_tool_call (call : ChunkToolCall) : list Event :=
  match tc_id call with
  | Some id =>
      [BlockStart (tc_index call) ToolUseBlock
         (MetaToolUse id (default EmptyString (f ← function call; name f)))]
  | None => []
  end
  ++ match (f ← function call; arguments f) with
     | Some args =>
         if bool_decide (args = EmptyString) then [] else [BlockDelta (tc_index call) (InputJson args)]
     | None => []
     end.

(** The reason of a stop, which is always known. *)
Definition stop_reason (finish_reason : string) : option StopReason :=
  if bool_decide (finish_reason = "stop") then Some EndTurn
  else if bool_decide (finish_reason = "length") then Some MaxTokens
  else if bool_decide (finish_reason ∈ ["tool_calls"; "function_call"]) then Some StopToolUse
  else Some EndTurn.

(** A finish closes the text, unless it is one of tool calls. *)
Definition convert_finish (index : nat) (finish_reason : string) : list Event :=
  let is_tool_finish := bool_decide (finish_reason = "tool_calls")
                        || bool_decide (finish_reason = "function_call") in
  if is_tool_finish then [] else [BlockStop index TextBlock (stop_reason finish_reason) None].

Definition convert_choice (choice : ChunkChoice) : list Event :=
  match content (delta choice) with
  | Some content => [BlockDelta (index choice) (TextDelta content)]
  | None => []
  end
  ++ concat (convert_tool_call <$> default [] (tool_calls (delta choice)))
  ++ match finish_reason choice with
     | Some reason => convert_finish (index choice) reason
     | None => []
     end.

Definition convert_usage (u : ChunkUsage) : Event :=
  Usage (mkUsageEvent (Some (prompt_tokens u)) (Some (completion_tokens u)) (Some (total_tokens u))
           None None).

Section chat.
Context {HttpError JsonError : Type}.
Abbreviation ClientError := (ImageRecovery.ClientError HttpError JsonError).

Definition parse_event (scheme : OpenAIScheme) (data : string)
  : result (option (list Event)) ClientError :=
  if bool_decide (data = "[DONE]") then Ok None
  else
    match decode scheme data with
    | Err e => Err (ImageRecovery.Api None (Some "parse_error")
                 ("Failed to parse SSE data: " +:+ e +:+ " -> " +:+ data) None)
    | Ok chunk =>
        let events := match usage chunk with Some u => [convert_usage u] | None => [] end
                      ++ concat (convert_choice <$> choices chunk) in
        Ok (match events with [] => None | _ => Some events end)
    end.

(** [s.trim()], by characters. *)
Fixpoint trim_start (l : list Z) : list Z :=
  match l with c :: rest => if is_whitespace c then trim_start rest else l | [] => [] end.

Definition trim (l : list Z) : list Z := reverse (trim_start (reverse (trim_start l))).

(** [impl Scheme for OpenAIScheme]. *)
#[global] Instance openai_scheme : Scheme HttpError JsonError OpenAIScheme unit := {
  state_default := tt;
  parse_sse scheme _ data state :=
    Some (if bool_decide (trim (chars data) = chars "[DONE]") then Ok []
          else (let? events := parse_event scheme data in Ok (default [] events)), state)
}.

(** ** Tool calls are never closed *)

Definition opens_only (e : Event) : Prop :=
  match e with BlockStop _ ToolUseBlock _ _ => False | _ => True end.

Lemma convert_choice_opens choice : Forall opens_only (convert_choice choice).
Proof.
  unfold convert_choice. repeat apply Forall_app_2.
  - destruct (content _); by repeat constructor.
  - apply Forall_concat, Forall_fmap, Forall_true. intros call. apply Forall_app_2.
    + destruct (tc_id call); by repeat constructor.
    + destruct (function call ≫= arguments); [case_bool_decide|]; by repeat constructor.
  - destruct (finish_reason choice); [|constructor]. unfold convert_finish.
    destruct (_ || _); by repeat constructor.
Qed.

Lemma parse_event_opens scheme data es :
  parse_event scheme data = Ok es → Forall opens_only (default [] es).
Proof.
  unfold parse_event. case_bool_decide; [by intros [= <-]; constructor|].
  destruct (decode scheme data) as [chunk|]; [|done]. intros [= <-].
  set (events := _ ++ _). replace (default [] _) with events by (by destruct events).
  apply Forall_app_2; [destruct (usage chunk); by repeat constructor|].
  apply Forall_concat, Forall_fmap, Forall_true. apply convert_choice_opens.
Qed.

Lemma run_opens scheme fs es state :
  run (HttpError := HttpError) (JsonError := JsonError) scheme fs tt = Some (es, state) →
  Forall opens_only es.
Proof.
  intros Hr. refine (run_invariant scheme (λ es _, Forall opens_only es) _ fs [] tt es state
    (Forall_nil_2 _) Hr).
  intros es0 st frame es' st' H0. simpl. intros [= Hp _]. apply Forall_app. split; [done|].
  case_bool_decide; [by injection Hp as <-|].
  destruct (parse_event scheme (f_data frame)) as [o|] eqn:Hq; [|done]. injection Hp as <-.
  by eapply parse_event_opens.
Qed.

(** A frame that has nothing of tool calls. *)
Definition frame_calls (scheme : OpenAIScheme) (f : Frame) : list ChunkToolCall :=
  match decode scheme (f_data f) with
  | Ok chunk => concat ((λ c, default [] (tool_calls (delta c))) <$> choices chunk)
  | Err _ => []
  end.

Lemma parse_event_quiet scheme f es :
  frame_calls scheme f = [] → parse_event scheme (f_data f) = Ok es →
  Forall (λ e, about_call e = None) (default [] es).
Proof.
  unfold frame_calls, parse_event. intros Hc. case_bool_decide; [by intros [= <-]; constructor|].
  destruct (decode scheme (f_data f)) as [chunk|]; [|done]. intros [= <-].
  set (events := _ ++ _). replace (default [] _) with events by (by destruct events).
  apply Forall_app_2; [destruct (usage chunk); by repeat constructor|].
  induction (choices chunk) as [|c cs IH]; [constructor|]. simpl in *. apply app_eq_nil in Hc as [Hc Hcs].
  apply Forall_app_2; [|by apply IH]. unfold convert_choice. rewrite Hc. simpl. apply Forall_app_2.
  - destruct (content _); by repeat constructor.
  - destruct (finish_reason c); [|constructor]. unfold convert_finish. destruct (_ || _); by repeat constructor.
Qed.

(** The promise of the scheme to the engine holds only for responses without tool calls. *)
Lemma chat_tidy scheme fs es state :
  run (HttpError := HttpError) (JsonError := JsonError) scheme fs tt = Some (es, state) →
  Forall (λ f, frame_calls scheme f = []) fs → tidy_stream es.
Proof.
  intros Hr Hfs. assert (Forall (λ e, about_call e = None) es) as Hq.
  { revert es state Hr. induction Hfs as [|f fs Hf Hfs IH]; intros es state; simpl.
    - intros [= <- _]. constructor.
    - case_bool_decide; simpl.
      + destruct (run scheme fs tt) as [[es2 s2]|] eqn:Hr; [|done]. intros [= <- _]. by eapply IH.
      + destruct (parse_event scheme (f_data f)) as [o|] eqn:Hp; simpl; [|done].
        destruct (run scheme fs tt) as [[es2 s2]|] eqn:Hr; [|done]. intros [= <- _].
        apply Forall_app_2; [by eapply parse_event_quiet|by eapply IH]. }
  destruct (quiet_events text_json [] es Hq) as (_ & _ & Hs & Hb). simpl in *.
  split; [rewrite Hs; constructor|done].
Qed.

End chat.

(** C39.  No tool call of the Chat scheme is ever collected.  Whatever frames a response has, the
    events the scheme makes of them open and fill blocks of tool calls but close none, so the
    calls that the engine collects from the response are none. *)
Theorem chat_calls_never_complete {Json HttpError JsonError : Type} (sj : Serde Json)
    (scheme : OpenAIScheme) (fs : list Frame) (es : list Event) (state : unit) :
  run (HttpError := HttpError) (JsonError := JsonError) scheme fs tt = Some (es, state) →
  completed sj es = [].
Proof.
  intros Ho%run_opens. induction es as [|e es IH] using rev_ind; [done|].
  apply Forall_app in Ho as [Ho [He _]%Forall_cons].
  rewrite completed_other; [by apply IH|]. by destruct e as [| | | | | | |? []|].
Qed.

(** A response that asks for a file, as the provider documents it. *)
Definition example_chunks (data : string) : ChatCompletionChunk :=
  if bool_decide (data = "1") then
    mkChunk [mkChoice 0 (mkDelta None (Some [mkToolCall 0 (Some "a")
      (Some (mkFunction (Some "Read") (Some "{}")))])) None] None
  else mkChunk [mkChoice 0 (mkDelta None None) (Some "tool_calls")] None.

Definition example_chat : OpenAIScheme := mkScheme (λ data, Ok (example_chunks data)).

Definition example_frames : list Frame :=
  [mkFrame "message" "1"; mkFrame "message" "2"; mkFrame "message" "[DONE]"].

Lemma chat_calls_never_complete_witness :
  run (HttpError := unit) (JsonError := unit) example_chat example_frames tt
    = Some ([BlockStart 0 ToolUseBlock (MetaToolUse "a" "Read"); BlockDelta 0 (InputJson "{}")], tt)
  ∧ completed text_json
      [BlockStart 0 ToolUseBlock (MetaToolUse "a" "Read"); BlockDelta 0 (InputJson "{}")] = [].
Proof.
  assert (run (HttpError := unit) (JsonError := unit) example_chat example_frames tt
    = Some ([BlockStart 0 ToolUseBlock (MetaToolUse "a" "Read"); BlockDelta 0 (InputJson "{}")], tt))
    as Hr by (vm_compute; reflexivity).
  split; [exact Hr|]. exact (chat_calls_never_complete text_json example_chat example_frames _ tt Hr).
Defined.

End OpenAIChat.
