(* ===== verification/Anthropic.v ===== *)
(** * The Anthropic scheme

    Models [src/crates/agen/src/llm_client/scheme/anthropic/events.rs] and the state of its
    [scheme_impl.rs].  A [content_block_stop] does not say what it stops, and signatures come
    in fragments: both are remembered from frame to frame.  Of the decoded structures the
    fields the code reads are kept; decoding is an argument.  The theorem: a message whose
    blocks follow one another, as the provider documents, is collected as it was sent. *)
From Stdlib Require Import ZArith String List Lia.
From stdpp Require Import base tactics numbers list strings gmap.
From S2P Require Import Prelude ImageRecovery Tool Timeline Scheme.

Module Anthropic.
Import Tool Timeline Scheme.

(** ** Frames *)

Inductive AnthropicEventType :=
| MessageStart | ContentBlockStart | ContentBlockDelta | ContentBlockStop | MessageDelta
| MessageStop | PingFrame | ErrorFrame.

(** [AnthropicEventType::parse]. *)
Definition parse_type (s : string) : option AnthropicEventType :=
  if bool_decide (s = "message_start") then Some MessageStart
  else if bool_decide (s = "content_block_start") then Some ContentBlockStart
  else if bool_decide (s = "content_block_delta") then Some ContentBlockDelta
  else if bool_decide (s = "content_block_stop") then Some ContentBlockStop
  else if bool_decide (s = "message_delta") then Some MessageDelta
  else if bool_decide (s = "message_stop") then Some MessageStop
  else if bool_decide (s = "ping") then Some PingFrame
  else if bool_decide (s = "error") then Some ErrorFrame
  else None.

Record UsageData := mkUsageData {
  u_input_tokens : option Z;
  u_output_tokens : option Z;
  u_cache_read_input_tokens : option Z;
  u_cache_creation_input_tokens : option Z
}.

Inductive ContentBlock :=
| CText (text : string)
| CThinking (thinking : string) (signature : option string)
| CRedactedThinking (data : string)
| CToolUse (id name : string).

Inductive DeltaBlock :=
| DText (text : string)
| DThinking (thinking : string)
| DInputJson (partial_json : string)
| DSignature (signature : string).

Record ErrorDetail := mkErrorDetail { error_type : string; error_message : string }.

(** ** State *)

Record PendingThinking := mkPending {
  t_text : string;
  t_signature : option string;
  t_redacted_data : option string
}.

Definition into_reasoning (p : PendingThinking) : ReasoningBlockData :=
  mkReasoning None (Some (t_text p)) [] (t_redacted_data p) (t_signature p).

Record AnthropicState := mkState {
  current_block_type : option BlockType;
  pending_thinking : option PendingThinking
}.

Definition anthropic_start : AnthropicState := mkState None None.

Section anthropic.
Context {HttpError JsonError : Type}.
Abbreviation ClientError := (ImageRecovery.ClientError HttpError JsonError).

(** [serde_json::from_str] for the structures of the frames: the usage of a message, a block
    with its index, a delta with its index, an index, the usage of a delta, an error. *)
Record AnthropicScheme := mkAnthropic {
  overflow_checks : bool;
  decode_message_start : string → result (option UsageData) JsonError;
  decode_block_start : string → result (nat * ContentBlock) JsonError;
  decode_block_delta : string → result (nat * DeltaBlock) JsonError;
  decode_block_stop : string → result nat JsonError;
  decode_message_delta : string → result (option UsageData) JsonError;
  decode_error : string → result ErrorDetail JsonError
}.

Context (scheme : AnthropicScheme).

(** [serde_json::from_str(data)?]. *)
Definition from_json {T} (r : result T JsonError) : result T ClientError :=
  map_err ImageRecovery.Json r.

(** ** Conversion *)

Definition block_type_of (b : ContentBlock) : BlockType :=
  match b with
  | CText _ => TextBlock
  | CThinking _ _ | CRedactedThinking _ => ThinkingBlock
  | CToolUse _ _ => ToolUseBlock
  end.

Definition convert_block_start (index : nat) (b : ContentBlock) : Event :=
  BlockStart index (block_type_of b)
    match b with
    | CText _ => MetaText
    | CThinking _ _ | CRedactedThinking _ => MetaThinking
    | CToolUse id name => MetaToolUse id name
    end.

Definition convert_block_delta (index : nat) (d : DeltaBlock) : option Event :=
  match d with
  | DText text => Some (BlockDelta index (TextDelta text))
  | DThinking thinking => Some (BlockDelta index (ThinkingDelta thinking))
  | DInputJson partial_json => Some (BlockDelta index (InputJson partial_json))
  | DSignature _ => None
  end.

(** Occupancy: cached tokens count as input.  [None] is an overflow. *)
Definition convert_usage (usage : UsageData) : option UsageEvent :=
  let raw_input := default 0 (u_input_tokens usage) in
  let cache_read := default 0 (u_cache_read_input_tokens usage) in
  let cache_creation := default 0 (u_cache_creation_input_tokens usage) in
  input ← add_u64 (overflow_checks scheme) raw_input cache_read;
  input_total ← add_u64 (overflow_checks scheme) input cache_creation;
  total ← add_u64 (overflow_checks scheme) input_total (default 0 (u_output_tokens usage));
  Some (mkUsageEvent ((λ _, input_total) <$> u_input_tokens usage) (u_output_tokens usage)
          (Some total) (u_cache_read_input_tokens usage) (u_cache_creation_input_tokens usage)).

(** A frame on its own; the stop of a block is given a placeholder for its type. *)
Definition parse_event (event_type data : string) : option (result (option Event) ClientError) :=
  let usage (r : result (option UsageData) JsonError) (otherwise : option Event) :=
    match from_json r with
    | Ok (Some u) => e ← convert_usage u; Some (Ok (Some (Usage e)))
    | Ok None => Some (Ok otherwise)
    | Err e => Some (Err e)
    end in
  match parse_type event_type with
  | None => Some (Ok None)
  | Some MessageStart => usage (decode_message_start scheme data) (Some (Status Started))
  | Some ContentBlockStart =>
      Some (let? (index, b) := from_json (decode_block_start scheme data) in
            Ok (Some (convert_block_start index b)))
  | Some ContentBlockDelta =>
      Some (let? (index, d) := from_json (decode_block_delta scheme data) in
            Ok (convert_block_delta index d))
  | Some ContentBlockStop =>
      Some (let? index := from_json (decode_block_stop scheme data) in
            Ok (Some (BlockStop index TextBlock None None)))
  | Some MessageDelta => usage (decode_message_delta scheme data) None
  | Some MessageStop => Some (Ok (Some (Status Completed)))
  | Some PingFrame => Some (Ok (Some Ping))
  | Some ErrorFrame =>
      Some (let? e := from_json (decode_error scheme data) in
            Ok (Some (Error (mkErrorEvent (Some (error_type e)) (error_message e)))))
  end.

(** ** Conversion with state *)

Definition start_block (index : nat) (b : ContentBlock) (state : AnthropicState)
  : list Event * AnthropicState :=
  ([convert_block_start index b],
   mkState (Some (block_type_of b))
     match b with
     | CThinking thinking signature => Some (mkPending thinking signature None)
     | CRedactedThinking data => Some (mkPending EmptyString None (Some data))
     | _ => pending_thinking state
     end).

(** Deltas of thinking are kept for the stop; signatures are only kept. *)
Definition delta_block (index : nat) (d : DeltaBlock) (state : AnthropicState)
  : list Event * AnthropicState :=
  let keep (f : PendingThinking → PendingThinking) :=
    mkState (current_block_type state) (f <$> pending_thinking state) in
  match d with
  | DThinking thinking =>
      ([BlockDelta index (ThinkingDelta thinking)],
       keep (λ p, mkPending (t_text p +:+ thinking) (t_signature p) (t_redacted_data p)))
  | DSignature signature =>
      ([], keep (λ p, mkPending (t_text p)
                  (Some (match t_signature p with Some acc => acc +:+ signature | None => signature end))
                  (t_redacted_data p)))
  | DText text => ([BlockDelta index (TextDelta text)], state)
  | DInputJson partial_json => ([BlockDelta index (InputJson partial_json)], state)
  end.

Definition stop_block (index : nat) (state : AnthropicState) : list Event * AnthropicState :=
  let block_type := default TextBlock (current_block_type state) in
  let reasoning := if bool_decide (block_type = ThinkingBlock)
                   then into_reasoning <$> pending_thinking state else None in
  ([BlockStop index block_type None reasoning], mkState None None).

Definition parse_with_state (event_type data : string) (state : AnthropicState)
  : option (result (list Event) ClientError * AnthropicState) :=
  let stateful (r : result (list Event * AnthropicState) ClientError) :=
    Some (match r with Ok (es, state) => (Ok es, state) | Err e => (Err e, state) end) in
  match parse_type event_type with
  | None => Some (Ok [], state)
  | Some ContentBlockStart =>
      stateful (let? (index, b) := from_json (decode_block_start scheme data) in
                Ok (start_block index b state))
  | Some ContentBlockDelta =>
      stateful (let? (index, d) := from_json (decode_block_delta scheme data) in
                Ok (delta_block index d state))
  | Some ContentBlockStop =>
      stateful (let? index := from_json (decode_block_stop scheme data) in
                Ok (stop_block index state))
  | Some _ =>
      r ← parse_event event_type data;
      Some ((let? e := r in Ok (match e with Some e => [e] | None => [] end)), state)
  end.

End anthropic.
Arguments AnthropicScheme : clear implicits.

(** [impl Scheme for AnthropicScheme]. *)
#[global] Instance anthropic_scheme {HttpError JsonError : Type}
  : Scheme HttpError JsonError (AnthropicScheme JsonError) AnthropicState := {
  state_default := anthropic_start;
  parse_sse := parse_with_state
}.

(** ** What a message says *)

(** A block of the message; of a text, a tool call or a thought, what was sent of it. *)
Inductive Piece :=
| PText (text : string)
| PThinking (p : PendingThinking)
| PCall (id name input : string).

Definition piece_type (p : Piece) : BlockType :=
  match p with PText _ => TextBlock | PThinking _ => ThinkingBlock | PCall _ _ _ => ToolUseBlock end.

Definition init (b : ContentBlock) : Piece :=
  match b with
  | CText text => PText text
  | CThinking thinking signature => PThinking (mkPending thinking signature None)
  | CRedactedThinking data => PThinking (mkPending EmptyString None (Some data))
  | CToolUse id name => PCall id name EmptyString
  end.

Definition extend (p : Piece) (d : DeltaBlock) : Piece :=
  match p, d with
  | PText t, DText s => PText (t +:+ s)
  | PCall id name input, DInputJson s => PCall id name (input +:+ s)
  | PThinking p, DThinking s => PThinking (mkPending (t_text p +:+ s) (t_signature p) (t_redacted_data p))
  | PThinking p, DSignature s =>
      PThinking (mkPending (t_text p)
        (Some (match t_signature p with Some acc => acc +:+ s | None => s end)) (t_redacted_data p))
  | _, _ => p
  end.

Definition delta_type (d : DeltaBlock) : BlockType :=
  match d with
  | DText _ => TextBlock
  | DThinking _ | DSignature _ => ThinkingBlock
  | DInputJson _ => ToolUseBlock
  end.

Definition piece_text (p : Piece) : option string :=
  match p with
  | PText t => if bool_decide (t = EmptyString) then None else Some t
  | _ => None
  end.

Definition piece_reasoning (p : Piece) : option ReasoningBlockData :=
  match p with PThinking p => Some (into_reasoning p) | _ => None end.

Definition piece_call (p : Piece) : option (string * string * string) :=
  match p with PCall id name input => Some (id, name, input) | _ => None end.

Inductive Wire :=
| WStart (index : nat) (b : ContentBlock)
| WDelta (index : nat) (d : DeltaBlock)
| WStop (index : nat)
| WOther.

(** Blocks follow one another, each with deltas of its kind, and the last is closed.  The text
    of a block comes with its deltas, so the start of a text block is empty; the start of a tool
    call may have an input, which the code does not look at. *)
Fixpoint sequential (cur : option (nat * BlockType)) (ws : list Wire) : bool :=
  match ws, cur with
  | [], None => true
  | WStart i b :: ws, None =>
      match b with CText text => bool_decide (text = EmptyString) | _ => true end
      && sequential (Some (i, block_type_of b)) ws
  | WDelta i d :: ws, Some (j, t) =>
      bool_decide (i = j) && bool_decide (delta_type d = t) && sequential cur ws
  | WStop i :: ws, Some (j, _) => bool_decide (i = j) && sequential None ws
  | WOther :: ws, _ => sequential cur ws
  | _, _ => false
  end.

Fixpoint pieces (cur : option Piece) (ws : list Wire) : list Piece :=
  match ws with
  | [] => []
  | WStart _ b :: ws => pieces (Some (init b)) ws
  | WDelta _ d :: ws => pieces ((λ p, extend p d) <$> cur) ws
  | WStop _ :: ws => option_list cur ++ pieces None ws
  | WOther :: ws => pieces cur ws
  end.

Section meaning.
Context {Json HttpError JsonError : Type} (sj : Serde Json) (scheme : AnthropicScheme JsonError).

(** The block events of a frame. *)
Definition wire (f : Frame) : option Wire :=
  match parse_type (f_event f) with
  | Some ContentBlockStart =>
      match decode_block_start scheme (f_data f) with Ok (i, b) => Some (WStart i b) | Err _ => None end
  | Some ContentBlockDelta =>
      match decode_block_delta scheme (f_data f) with Ok (i, d) => Some (WDelta i d) | Err _ => None end
  | Some ContentBlockStop =>
      match decode_block_stop scheme (f_data f) with Ok i => Some (WStop i) | Err _ => None end
  | _ => Some WOther
  end.

Definition call_of (n : nat) (c : string * string * string) : nat * ToolCall Json :=
  (n, mkCall c.1.1 c.1.2 (parse_input sj c.2)).

(** ** The simulation *)

(** The scope of the thought under way, in the timeline. *)
Definition thinking_scopes (cur : option (nat * Piece)) (scopes : gmap nat string) : Prop :=
  match cur with
  | Some (i, PThinking _) => ∃ buffer, scopes = {[i := buffer]}
  | _ => scopes = ∅
  end.

Definition text_scope (cur : option (nat * Piece)) : option string :=
  match cur with Some (_, PText t) => Some t | _ => None end.

(** The timeline has the texts and thoughts of the pieces, and the one under way. *)
Definition shows (cur : option (nat * Piece)) (done : list Piece) (t : Timeline Json) : Prop :=
  text_blocks t = mkTextWrapper (omap piece_text done) (text_scope cur)
  ∧ th_handler (thinking_blocks t) = omap piece_reasoning done
  ∧ thinking_scopes cur (th_scopes (thinking_blocks t)).

(** The stream has the calls of the pieces, and the one under way. *)
Record carries (cur : option (nat * Piece)) (done : list Piece) (es : list Event) : Prop := {
  ca_completed : completed sj es = imap call_of (omap piece_call done);
  ca_opened : opened es = length (omap piece_call (done ++ option_list (snd <$> cur)));
  ca_ids : start_ids es = (λ c, c.1.1) <$> omap piece_call (done ++ option_list (snd <$> cur));
  ca_open : match cur with
            | Some (i, PCall id name input) =>
                under_way es i (length (omap piece_call done)) id name input
                ∧ ∀ k, k ≠ i → block_after k es = None
            | _ => ∀ k, block_after k es = None
            end
}.

(** The state of the scheme remembers the piece under way. *)
Definition remembers (cur : option (nat * Piece)) (state : AnthropicState) : Prop :=
  current_block_type state = (λ c, piece_type c.2) <$> cur
  ∧ pending_thinking state = match cur with Some (_, PThinking p) => Some p | _ => None end.

Record sim (cur : option (nat * Piece)) (done : list Piece) (state : AnthropicState)
    (es : list Event) : Prop := {
  si_state : remembers cur state;
  si_calls : carries cur done es;
  si_timeline : ∃ t, dispatch_all sj timeline_new es = Some t ∧ shows cur done t
}.

Lemma sim_start : sim None [] anthropic_start [].
Proof. split; [done|by split|]. exists timeline_new. by split_and!. Qed.

(** The timeline takes any event; what it shows is then what has to be shown. *)
Lemma si_dispatch cur done es e cur' done' :
  (∃ t, dispatch_all sj timeline_new es = Some t ∧ shows cur done t) →
  (∀ t t', shows cur done t → dispatch sj t e = Some t' → shows cur' done' t') →
  ∃ t, dispatch_all sj timeline_new (es ++ [e]) = Some t ∧ shows cur' done' t.
Proof.
  intros (t & Hd & Hs) Hstep.
  destruct (dispatch_all_reads sj [] (es ++ [e]) [] timeline_new) as (t' & Hd' & _); [by split|].
  exists t'. split; [done|]. rewrite dispatch_all_app, Hd in Hd'. simpl in Hd'.
  destruct (dispatch sj t e) as [t1|] eqn:He; [|done]. injection Hd' as <-. by eapply Hstep.
Qed.

(** Pieces that are not calls. *)
Definition no_call (p : Piece) : Prop := piece_call p = None.

Definition idle (cur : option (nat * Piece)) : Prop :=
  match cur with Some (_, p) => no_call p | None => True end.

Lemma idle_none cur : idle cur → omap piece_call (option_list (snd <$> cur)) = [].
Proof. destruct cur as [[i []]|]; done. Qed.

Lemma carries_quiet cur done es es' cur' done' :
  carries cur done es → idle cur → idle cur' → omap piece_call done' = omap piece_call done →
  Forall (λ e, about_call e = None) es' → carries cur' done' (es ++ es').
Proof.
  intros [C O I B] Hi Hi' Hd Hq. destruct (quiet_events sj es es' Hq) as (Hc & Ho & Hs & Hb).
  rewrite omap_app, idle_none, app_nil_r in O, I by done.
  assert (∀ k, block_after k es = None) as B' by (destruct cur as [[? []]|]; done).
  split; rewrite ?Hc, ?Ho, ?Hs, ?omap_app, ?(idle_none cur'), ?app_nil_r, ?Hd by done; try done.
  destruct cur' as [[? []]|]; try done; intros k; by rewrite Hb.
Qed.

Lemma carries_call_start done es i id name :
  carries None done es →
  carries (Some (i, PCall id name EmptyString)) done
    (es ++ [BlockStart i ToolUseBlock (MetaToolUse id name)]).
Proof.
  intros [C O I B]. simpl in *. rewrite app_nil_r in O, I.
  split; simpl; rewrite ?omap_app.
  - by rewrite completed_other.
  - rewrite opened_snoc, opens_end, B, O, length_app. done.
  - rewrite start_ids_app, I, fmap_app. done.
  - split; [rewrite <-O; by apply under_way_start|]. intros k Hk.
    rewrite block_after_other by (simpl; congruence). apply B.
Qed.

Lemma carries_call_delta done es i id name input s :
  carries (Some (i, PCall id name input)) done es →
  carries (Some (i, PCall id name (input +:+ s))) done (es ++ [BlockDelta i (InputJson s)]).
Proof.
  intros [C O I [U B]]. simpl in *. rewrite omap_app in O, I.
  split; simpl; rewrite ?omap_app.
  - by rewrite completed_other.
  - rewrite opened_snoc, opens_end, O, !length_app. simpl. lia.
  - rewrite start_ids_app, I. simpl. rewrite app_nil_r, !fmap_app. done.
  - split; [by apply under_way_delta|]. intros k Hk.
    rewrite block_after_other by (simpl; congruence). by apply B.
Qed.

Lemma carries_call_stop done es i id name input reasoning :
  carries (Some (i, PCall id name input)) done es →
  carries None (done ++ [PCall id name input]) (es ++ [BlockStop i ToolUseBlock None reasoning]).
Proof.
  intros [C O I [U B]]. simpl in *.
  split; simpl; rewrite ?app_nil_r.
  - rewrite (completed_stop sj _ _ _ _ _ _ _ _ U), C, omap_app, imap_app. simpl. by rewrite Nat.add_0_r.
  - rewrite opened_snoc, opens_end, O. simpl. lia.
  - rewrite start_ids_app, I. simpl. by rewrite app_nil_r.
  - intros k. destruct (decide (k = i)) as [->|Hk]; [apply block_after_stop|].
    rewrite block_after_other by (simpl; congruence). by apply B.
Qed.

(** Events on tool calls show neither texts nor thoughts. *)
Lemma tool_handlers_only f (t t' : Timeline Json) :
  for_block_handlers sj ToolUseBlock f t = Some t' →
  text_blocks t' = text_blocks t ∧ thinking_blocks t' = thinking_blocks t.
Proof. simpl. destruct (f _ _ (tool_use_blocks t)); [|done]. by intros [= <-]. Qed.

Lemma dispatch_call e (t t' : Timeline Json) :
  is_Some (about_call e) → dispatch sj t e = Some t' →
  text_blocks t' = text_blocks t ∧ thinking_blocks t' = thinking_blocks t.
Proof.
  intros He. assert (∀ f, (t1 ← for_block_handlers sj ToolUseBlock f t; Some (set_active t1 (active_blocks t1 ∖
    match about_call e with Some i => {[(ToolUseBlock, i)]} | None => ∅ end))) = Some t' →
    text_blocks t' = text_blocks t ∧ thinking_blocks t' = thinking_blocks t) as Hend.
  { intros f. destruct (for_block_handlers sj ToolUseBlock f t) as [t1|] eqn:Hf; [|done].
    intros [= <-]. exact (tool_handlers_only _ _ _ Hf). }
  destruct e as [| | | | |i [] []|i []|i []|i []]; try by destruct He.
  1,2: cbn [dispatch]; unfold handle_block_start, handle_block_delta; intros Hd;
    apply tool_handlers_only in Hd; exact Hd.
  all: apply Hend.
Qed.

Lemma shows_call cur done t t' e cur' done' :
  shows cur done t → is_Some (about_call e) →
  text_scope cur' = text_scope cur → omap piece_text done' = omap piece_text done →
  omap piece_reasoning done' = omap piece_reasoning done →
  (∀ scopes, thinking_scopes cur scopes → thinking_scopes cur' scopes) →
  dispatch sj t e = Some t' → shows cur' done' t'.
Proof.
  intros (Ht & Hh & Hs) He Htx Hdt Hdr Hth Hd. destruct (dispatch_call _ _ _ He Hd) as [E1 E2].
  unfold shows. rewrite E1, E2, Htx, Hdt, Hdr. auto.
Qed.

(** ** The steps *)

Lemma sim_start_block done state es i b :
  match b with CText text => text = EmptyString | _ => True end →
  sim None done state es →
  sim (Some (i, init b)) done (start_block i b state).2 (es ++ (start_block i b state).1).
Proof.
  intros Hb [[St Sp] C T]. split.
  - split; [by destruct b|]. by destruct b.
  - destruct b; [apply (carries_quiet None done)..|by apply carries_call_start]; try done;
      by repeat constructor.
  - eapply si_dispatch; [exact T|]. intros t t' Hs.
    destruct b as [text|thinking signature|data|id name];
      [destruct Hs as (Ht & Hh & Hsc); destruct t as [tx th tu act pu uo]; simpl in *; subst..|].
    + intros [= <-]. by split_and!.
    + destruct th as [h sc]. simpl in *. subst. intros [= <-]. split_and!; [done..|]. simpl. eauto.
    + destruct th as [h sc]. simpl in *. subst. intros [= <-]. split_and!; [done..|]. simpl. eauto.
    + by eapply shows_call.
Qed.

Lemma sim_delta_block done state es i p d :
  delta_type d = piece_type p → sim (Some (i, p)) done state es →
  sim (Some (i, extend p d)) done (delta_block i d state).2 (es ++ (delta_block i d state).1).
Proof.
  intros Hd [[St Sp] C T]. simpl in St, Sp. split.
  - destruct p, d; try done; split; simpl; rewrite ?St, ?Sp; done.
  - destruct p, d; try done; simpl; [apply (carries_quiet (Some (i, PText text)) done); try done;
      by repeat constructor| | |by apply carries_call_delta].
    all: apply (carries_quiet (Some (i, PThinking p)) done); try done; by repeat constructor.
  - destruct p as [text|p|id name input], d as [s|s|s|s]; try done.
    + eapply si_dispatch; [exact T|]. intros t t' (Ht & Hh & Hsc).
      destruct t as [tx th tu act pu uo]. simpl in *. subst. intros [= <-]. by split_and!.
    + eapply si_dispatch; [exact T|]. intros t t' (Ht & Hh & buffer & Hsc).
      destruct t as [tx [h sc] tu act pu uo]. simpl in *. subst.
      unfold handle_block_delta. simpl. case_bool_decide as He; [by apply map_non_empty_singleton in He|].
      simpl. intros [= <-]. split_and!; [done..|]. eexists. apply insert_insert_eq.
    + rewrite app_nil_r. exact T.
    + eapply si_dispatch; [exact T|]. intros t t' Hs. by eapply shows_call.
Qed.

Lemma omap_snoc {X Y} (f : X → option Y) l x :
  omap f (l ++ [x]) = omap f l ++ option_list (f x).
Proof. rewrite omap_app. by destruct (f x) eqn:H; simpl; rewrite H. Qed.

Lemma sim_stop_block done state es i p :
  sim (Some (i, p)) done state es →
  sim None (done ++ [p]) (stop_block i state).2 (es ++ (stop_block i state).1).
Proof.
  intros [[St Sp] C T]. simpl in St, Sp. unfold stop_block. rewrite St, Sp. simpl. split.
  - done.
  - destruct p as [text|p|id name input]; [| |by apply carries_call_stop].
    all: apply (carries_quiet (Some (i, _)) done _ _ _ _ C); try done; [by rewrite omap_snoc, app_nil_r|].
    all: by repeat constructor.
  - eapply si_dispatch; [exact T|]. intros t t' Hs.
    destruct p as [text|p|id name input]; [| |by eapply shows_call; [exact Hs|by eexists|done|..];
      rewrite ?omap_snoc; simpl; rewrite ?app_nil_r].
    + destruct Hs as (Ht & Hh & Hsc). destruct t as [tx th tu act pu uo]. simpl in *. subst.
      unfold shows, handle_block_stop. rewrite !omap_snoc. simpl. unfold text_event. simpl.
      case_bool_decide; simpl; intros Hd; injection Hd as <-; simpl; by rewrite ?app_nil_r.
    + destruct Hs as (Ht & Hh & buffer & Hsc). destruct t as [tx [h sc] tu act pu uo]. simpl in *. subst.
      unfold handle_block_stop. simpl. rewrite lookup_singleton_eq. simpl. intros Hd. injection Hd as <-.
      unfold shows. rewrite !omap_snoc. simpl. rewrite app_nil_r. split_and!; [done..|].
      apply delete_singleton_eq.
Qed.

(** Frames that are not about blocks. *)
Lemma sim_other cur done state es e :
  match e with BlockStart _ _ _ | BlockDelta _ _ | BlockStop _ _ _ _ | BlockAbort _ _ _ => False
             | _ => True end →
  sim cur done state es → sim cur done state (es ++ [e]).
Proof.
  intros He [S C T]. split; [done| |].
  - destruct (quiet_events sj es [e]) as (Hc & Ho & Hs & Hb); [repeat constructor; by destruct e|].
    destruct C as [C O I B]. split; rewrite ?Hc, ?Ho, ?Hs; try done.
    destruct cur as [[i []]|]; [intros k; by rewrite Hb| |..|intros k; by rewrite Hb].
    + intros k. by rewrite Hb.
    + destruct B as [U B]. split; [apply under_way_other; [done|by destruct e]|].
      intros k Hk. rewrite Hb. by apply B.
  - eapply si_dispatch; [exact T|]. intros t t' (Ht & Hh & Hs).
    destruct e; try done; simpl; intros [= <-]; done.
Qed.

(** One frame moves the message and the stream alike. *)
Definition place (cur : option (nat * Piece)) : option (nat * BlockType) :=
  (λ c, (c.1, piece_type c.2)) <$> cur.

Definition no_block (e : Event) : Prop :=
  match e with
  | BlockStart _ _ _ | BlockDelta _ _ | BlockStop _ _ _ _ | BlockAbort _ _ _ => False
  | _ => True
  end.

Lemma parse_event_other event_type data e :
  match parse_type event_type with
  | Some ContentBlockStart | Some ContentBlockDelta | Some ContentBlockStop => False | _ => True end →
  parse_event (HttpError := HttpError) scheme event_type data = Some (Ok (Some e)) → no_block e.
Proof.
  unfold parse_event. destruct (parse_type event_type) as [[]|]; try done; intros _.
  - destruct (decode_message_start _ _) as [[u|]|]; simpl; [destruct (convert_usage scheme u); simpl|..];
      by intros [= <-].
  - destruct (decode_message_delta _ _) as [[u|]|]; simpl; [destruct (convert_usage scheme u); simpl|..];
      by intros [= <-].
  - by intros [= <-].
  - by intros [= <-].
  - destruct (decode_error _ _); by intros [= <-].
Qed.

(** A frame that is read, by what it says. *)
Lemma parse_view f state es state' :
  parse_with_state (HttpError := HttpError) scheme (f_event f) (f_data f) state = Some (Ok es, state') →
  ∃ w, wire f = Some w
    ∧ match w with
      | WStart i b => (es, state') = start_block i b state
      | WDelta i d => (es, state') = delta_block i d state
      | WStop i => (es, state') = stop_block i state
      | WOther => state' = state ∧ (es = [] ∨ ∃ e, es = [e] ∧ no_block e)
      end.
Proof.
  unfold parse_with_state, wire. pose proof (parse_event_other (f_event f) (f_data f)) as Ho.
  assert (∀ r, parse_event (HttpError := HttpError) scheme (f_event f) (f_data f) = Some r →
    Some ((let? e := r in Ok (match e with Some e => [e] | None => [] end)), state) = Some (Ok es, state') →
    match parse_type (f_event f) with
    | Some ContentBlockStart | Some ContentBlockDelta | Some ContentBlockStop => False | _ => True end →
    state' = state ∧ (es = [] ∨ ∃ e, es = [e] ∧ no_block e)) as Hother.
  { intros [[e|]|] Hr [= <- <-] Ht; (split; [done|]); [right; eexists; split; [done|]|by left].
    by apply (Ho e Ht). }
  destruct (parse_type (f_event f)) as [[]|]; try (eexists; split; [done|]).
  all: try (destruct (parse_event scheme (f_event f) (f_data f)) as [r|]; [|done]; by eapply Hother).
  - destruct (decode_block_start scheme (f_data f)) as [[i b]|]; [|done]. intros [= <- <-].
    by exists (WStart i b).
  - destruct (decode_block_delta scheme (f_data f)) as [[i d]|]; [|done]. simpl.
    destruct (delta_block i d state) as [es1 st1] eqn:Hd. intros [= <- <-]. by exists (WDelta i d).
  - destruct (decode_block_stop scheme (f_data f)) as [i|]; [|done]. intros [= <- <-]. by exists (WStop i).
  - simplify_eq. split; [done|by left].
Qed.

Lemma anthropic_run fs : ∀ cur done state es0 es state',
  sim cur done state es0 → sequential (place cur) (omap wire fs) = true →
  run (HttpError := HttpError) scheme fs state = Some (es, state') →
  sim None (done ++ pieces (snd <$> cur) (omap wire fs)) state' (es0 ++ es).
Proof.
  induction fs as [|f fs IH]; intros cur done state es0 es state' S Hq.
  { intros [= <- <-]. destruct cur; [done|]. by rewrite !app_nil_r. }
  cbn [run]. change (parse_sse scheme (f_event f) (f_data f) state)
    with (parse_with_state (HttpError := HttpError) scheme (f_event f) (f_data f) state).
  destruct (parse_with_state scheme _ _ state) as [[[es1|] state1]|] eqn:Hp; simpl; [|done..].
  destruct (run scheme fs state1) as [[es2 state2]|] eqn:Hr; [|done]. intros [= <- <-].
  destruct (parse_view _ _ _ _ Hp) as (w & Hw & Hes). rewrite app_assoc.
  csimpl in *. rewrite Hw in Hq |- *. destruct w as [i b|i d|i|]; destruct cur as [[j p]|]; try done.
  - simpl in Hq. apply andb_true_iff in Hq as [Hb Hq].
    refine (IH (Some (i, init b)) done state1 _ _ _ _ _ Hr).
    + replace es1 with (start_block i b state).1 by (by rewrite <-Hes).
      replace state1 with (start_block i b state).2 by (by rewrite <-Hes).
      apply sim_start_block; [|done]. destruct b; [by apply bool_decide_eq_true in Hb|done..].
    + by destruct b.
  - simpl in Hq. rewrite !andb_true_iff, !bool_decide_eq_true in Hq. destruct Hq as [[<- Hd] Hq].
    refine (IH (Some (i, extend p d)) done state1 _ _ _ _ _ Hr).
    + replace es1 with (delta_block i d state).1 by (by rewrite <-Hes).
      replace state1 with (delta_block i d state).2 by (by rewrite <-Hes). by apply sim_delta_block.
    + by destruct p, d.
  - simpl in Hq. rewrite andb_true_iff, bool_decide_eq_true in Hq. destruct Hq as [<- Hq].
    simpl. rewrite cons_middle, app_assoc. refine (IH None (done ++ [p]) state1 _ _ _ _ Hq Hr).
    replace es1 with (stop_block i state).1 by (by rewrite <-Hes).
    replace state1 with (stop_block i state).2 by (by rewrite <-Hes). by apply sim_stop_block.
  - destruct Hes as [-> Hes]. refine (IH (Some (j, p)) done state _ _ _ _ Hq Hr).
    destruct Hes as [->|(e & -> & He)]; [by rewrite app_nil_r|by apply sim_other].
  - destruct Hes as [-> Hes]. refine (IH None done state _ _ _ _ Hq Hr).
    destruct Hes as [->|(e & -> & He)]; [by rewrite app_nil_r|by apply sim_other].
Qed.

(** The promise of the scheme to the engine. *)
Lemma anthropic_tidy fs es state :
  run (HttpError := HttpError) scheme fs anthropic_start = Some (es, state) →
  sequential None (omap wire fs) = true →
  NoDup ((λ c, c.1.1) <$> omap piece_call (pieces None (omap wire fs))) → tidy_stream es.
Proof.
  intros Hr Hq Hnd.
  destruct (anthropic_run fs None [] anthropic_start [] es state sim_start Hq Hr) as [_ [_ _ I B] _].
  simpl in *. rewrite app_nil_r in I. by split; [rewrite I|].
Qed.

End meaning.

(** C19.  A message is collected as it was sent.  When the blocks of an Anthropic response follow
    one another, each with deltas of its kind, and texts and inputs come with the deltas, the engine collects the texts, the thoughts
    with their signatures and redacted data, and the tool calls of the message, in order and
    whole; no block is left open and the calls have the ids of the message. *)
Theorem anthropic_message_collected {Json HttpError JsonError : Type} (sj : Serde Json)
    (scheme : AnthropicScheme JsonError) (fs : list Frame) (es : list Event)
    (state : AnthropicState) :
  run (HttpError := HttpError) scheme fs anthropic_start = Some (es, state) →
  sequential None (omap (wire scheme) fs) = true →
  let message := pieces None (omap (wire scheme) fs) in
  ∃ t, dispatch_all sj timeline_new es = Some t
    ∧ (take_text t).1 = omap piece_text message
    ∧ (take_reasoning t).1 = omap piece_reasoning message
    ∧ (take_calls t).1
      = imap (λ n '(id, name, input), (n, mkCall id name (parse_input sj input))) (omap piece_call message)
    ∧ start_ids es = (λ c, c.1.1) <$> omap piece_call message
    ∧ ∀ k, block_after k es = None.
Proof.
  intros Hr Hq message.
  destruct (anthropic_run sj scheme fs None [] anthropic_start [] es state (sim_start sj) Hq Hr)
    as [_ [C O I B] (t & Hd & Ht & Hh & _)].
  simpl in *. rewrite app_nil_r in O, I. exists t. split_and!; try done.
  - by rewrite Ht.
  - destruct (dispatch_all_reads sj [] es [] timeline_new) as (t' & Hd' & R); [by split|].
    rewrite Hd in Hd'. injection Hd' as <-. pose proof (rd_collected _ _ _ _ R) as Hcol. simpl in Hcol.
    rewrite Hcol, C. apply imap_ext. by intros n [[id name] input] _.
Qed.

(** A thought, a text and a call; the data of a frame says which. *)
Definition example_anthropic : AnthropicScheme unit :=
  mkAnthropic true (λ _, Ok None)
    (λ data, Ok (if bool_decide (data = "0") then (0%nat, CThinking EmptyString None)
                 else if bool_decide (data = "1") then (1%nat, CText EmptyString)
                 else (2%nat, CToolUse "a" "Read")))
    (λ data, Ok (if bool_decide (data = "0") then (0%nat, DThinking "Hm.")
                 else if bool_decide (data = "0s") then (0%nat, DSignature "sig")
                 else if bool_decide (data = "1") then (1%nat, DText "Reading.")
                 else (2%nat, DInputJson (if bool_decide (data = "2") then "{" else "}"))))
    (λ data, Ok (if bool_decide (data = "0") then 0%nat
                 else if bool_decide (data = "1") then 1%nat else 2%nat))
    (λ _, Ok None) (λ _, Err tt).

Definition example_frames : list Frame :=
  [mkFrame "message_start" "m"; mkFrame "content_block_start" "0"; mkFrame "content_block_delta" "0";
   mkFrame "content_block_delta" "0s"; mkFrame "content_block_stop" "0"; mkFrame "ping" "p";
   mkFrame "content_block_start" "1"; mkFrame "content_block_delta" "1"; mkFrame "content_block_stop" "1";
   mkFrame "content_block_start" "2"; mkFrame "content_block_delta" "2"; mkFrame "content_block_delta" "3";
   mkFrame "content_block_stop" "2"; mkFrame "message_stop" "m"].

Lemma anthropic_message_collected_witness :
  ∃ es state t,
    run (HttpError := unit) example_anthropic example_frames anthropic_start = Some (es, state)
    ∧ dispatch_all text_json timeline_new es = Some t
    ∧ (take_text t).1 = ["Reading."]
    ∧ (take_reasoning t).1 = [mkReasoning None (Some "Hm.") [] None (Some "sig")]
    ∧ (take_calls t).1 = [(0%nat, mkCall "a" "Read" "{}")].
Proof.
  destruct (run (HttpError := unit) example_anthropic example_frames anthropic_start)
    as [[es state]|] eqn:Hr; [|vm_compute in Hr; discriminate Hr].
  destruct (anthropic_message_collected text_json example_anthropic example_frames es state Hr)
    as (t & Hd & Ht & Hh & Hc & _); [vm_compute; reflexivity|].
  exists es, state, t. split; [reflexivity|]. split; [exact Hd|]. split; [exact Ht|].
  split; [exact Hh|exact Hc].
Defined.

(** The usage of a response can overflow.  Counts that a provider reports near the largest
    integer make the sum panic in a build that checks, and wrap around to a small occupancy in
    one that does not. *)
Theorem usage_sum_overflows :
  let usage := mkUsageData (Some U64_MAX) (Some 0) (Some 2) None in
  let scheme checks := mkAnthropic checks (λ _, Ok (Some usage)) (λ _, Err tt) (λ _, Err tt)
                         (λ _, Err tt) (λ _, Ok None) (λ _, Err tt) in
  parse_with_state (HttpError := unit) (scheme true) "message_start" "m" anthropic_start = None
  ∧ parse_with_state (HttpError := unit) (scheme false) "message_start" "m" anthropic_start
    = Some (Ok [Usage (mkUsageEvent (Some 1) (Some 0) (Some 1) (Some 2) None)], anthropic_start).
Proof. split; vm_compute; reflexivity. Qed.

End Anthropic.
