(* ===== verification/OpenAIResponses.v ===== *)
(** * The OpenAI Responses scheme

    Models [src/crates/agen/src/llm_client/scheme/openai_responses/events.rs]: the two-dimensional
    coordinates of a response become flat block indices, reasoning items are accumulated
    until they are done, and the fragments of a tool's input are checked against the value the
    provider declares final.  Of the decoded structures the fields the code reads are kept;
    decoding and JSON values are arguments. *)
From Stdlib Require Import ZArith String List Lia.
From stdpp Require Import base tactics numbers list strings gmap pretty.
From S2P Require Import Prelude BTree ImageRecovery ProviderHistory Tool Timeline Scheme.

Module OpenAIResponses.
Import Tool Timeline Scheme.

(** ** State *)

Inductive ToolInputKind := FunctionCallInput | CustomToolCallInput.

#[global] Instance ToolInputKind_eq_dec : EqDecision ToolInputKind.
Proof. solve_decision. Defined.

Definition label (k : ToolInputKind) : string :=
  match k with
  | FunctionCallInput => "function-call arguments"
  | CustomToolCallInput => "custom-tool input"
  end.

Record PendingToolInput := mkToolInput {
  kind : ToolInputKind;
  streamed : string;
  saw_delta : bool;
  final_value : option string
}.

Definition tool_input_new (k : ToolInputKind) : PendingToolInput := mkToolInput k EmptyString false None.

(** A tool call is one block; text, reasoning and summaries have one for each part. *)
Inductive SlotKey :=
| OutputItemSlot (output : nat)
| ContentPartSlot (output content : nat)
| SummarySlot (output summary : nat).

#[global] Instance SlotKey_eq_dec : EqDecision SlotKey.
Proof. solve_decision. Defined.

#[global] Instance SlotKey_countable : Countable SlotKey.
Proof.
  refine (inj_countable'
    (λ k, match k with
          | OutputItemSlot o => inl o
          | ContentPartSlot o c => inr (inl (o, c))
          | SummarySlot o s => inr (inr (o, s)) end)
    (λ x, match x with
          | inl o => OutputItemSlot o
          | inr (inl (o, c)) => ContentPartSlot o c
          | inr (inr (o, s)) => SummarySlot o s end) _).
  by intros [].
Defined.

Record SlotInfo := mkSlot { flat_index : nat; slot_type : BlockType }.

Record PendingReasoning := mkPendingReasoning {
  pr_id : option string;
  pr_text : string;
  pr_summary : list string;
  deferred_thinking_stops : list SlotInfo
}.

Definition pending_default : PendingReasoning := mkPendingReasoning None EmptyString [] [].

Definition into_reasoning_data (p : PendingReasoning) (encrypted_content : option string)
  : ReasoningBlockData :=
  mkReasoning (pr_id p) (Some (pr_text p))
    (List.filter (λ s, negb (bool_decide (s = EmptyString))) (pr_summary p)) encrypted_content None.

Record OpenAIResponsesState := mkState {
  slots : gmap SlotKey SlotInfo;
  next_index : nat;
  pending_reasoning : gmap nat PendingReasoning;
  pending_tool_inputs : gmap nat PendingToolInput
}.

Definition responses_start : OpenAIResponsesState := mkState ∅ 0 ∅ ∅.

Definition set_slots (s : OpenAIResponsesState) (x : gmap SlotKey SlotInfo) : OpenAIResponsesState :=
  mkState x (next_index s) (pending_reasoning s) (pending_tool_inputs s).
Definition set_reasoning (s : OpenAIResponsesState) (x : gmap nat PendingReasoning)
  : OpenAIResponsesState :=
  mkState (slots s) (next_index s) x (pending_tool_inputs s).
Definition set_tool_inputs (s : OpenAIResponsesState) (x : gmap nat PendingToolInput)
  : OpenAIResponsesState :=
  mkState (slots s) (next_index s) (pending_reasoning s) x.

Definition allocate (s : OpenAIResponsesState) (key : SlotKey) (t : BlockType)
  : SlotInfo * OpenAIResponsesState :=
  let info := mkSlot (next_index s) t in
  (info, mkState (<[key := info]> (slots s)) (S (next_index s)) (pending_reasoning s)
           (pending_tool_inputs s)).

Definition get_or_allocate (s : OpenAIResponsesState) (key : SlotKey) (t : BlockType)
  : SlotInfo * bool * OpenAIResponsesState :=
  match slots s !! key with
  | Some info => (info, false, s)
  | None => let '(info, s) := allocate s key t in (info, true, s)
  end.

(** Changes the reasoning item of an output, made if it is not there. *)
Definition on_reasoning (s : OpenAIResponsesState) (output_index : nat)
    (f : PendingReasoning → PendingReasoning) : OpenAIResponsesState :=
  set_reasoning s (<[output_index := f (default pending_default (pending_reasoning s !! output_index))]>
                     (pending_reasoning s)).

(** [Vec::resize] panics when the bytes of its strings would exceed [isize::MAX]. *)
Definition STRING_BYTES : Z := 24.
Definition ISIZE_MAX : Z := 2 ^ 63 - 1.

(** [summary.resize(summary_index + 1, String::new())] when it is shorter, then [push_str]. *)
Definition push_summary (summary : list string) (summary_index : nat) (text : string)
  : option (list string) :=
  if (length summary <=? summary_index)%nat && (ISIZE_MAX <? STRING_BYTES * (Z.of_nat summary_index + 1))
  then None
  else Some (alter (λ s, s +:+ text) summary_index
               (summary ++ replicate (S summary_index - length summary) EmptyString)).

Definition extend_reasoning_summary (s : OpenAIResponsesState) (output_index summary_index : nat)
    (text : string) : option OpenAIResponsesState :=
  let entry := default pending_default (pending_reasoning s !! output_index) in
  summary ← push_summary (pr_summary entry) summary_index text;
  Some (on_reasoning s output_index (λ p, mkPendingReasoning (pr_id p) (pr_text p) summary
                                            (deferred_thinking_stops p))).

Definition defer_reasoning_stop (s : OpenAIResponsesState) (output_index : nat) (info : SlotInfo)
  : OpenAIResponsesState :=
  on_reasoning s output_index (λ p, mkPendingReasoning (pr_id p) (pr_text p) (pr_summary p)
                                      (deferred_thinking_stops p ++ [info])).

(** The open reasoning parts of an output, in the order of their content. *)
Definition active_reasoning (output_index : nat) (kv : SlotKey * SlotInfo) : option (nat * SlotKey) :=
  match kv with
  | (ContentPartSlot output content, info) =>
      if bool_decide (output = output_index) && bool_decide (slot_type info = ThinkingBlock)
      then Some (content, ContentPartSlot output content) else None
  | _ => None
  end.

Fixpoint remove_slots (keys : list SlotKey) (m : gmap SlotKey SlotInfo)
  : list SlotInfo * gmap SlotKey SlotInfo :=
  match keys with
  | [] => ([], m)
  | key :: rest =>
      let '(infos, m') := remove_slots rest (delete key m) in
      (option_list (m !! key) ++ infos, m')
  end.

Definition take_active_reasoning_slots (s : OpenAIResponsesState) (output_index : nat)
  : list SlotInfo * OpenAIResponsesState :=
  let keys := omap (active_reasoning output_index) (map_to_list (slots s)) in
  let keys := snd <$> ProviderHistory.sort_by_key Nat.leb fst keys in
  let '(infos, m) := remove_slots keys (slots s) in
  (infos, set_slots s m).

(** ** Frames *)

Inductive OutputItem :=
| MessageItem
| ReasoningItem (id encrypted_content : option string)
| FunctionCallItem (call_id name : string) (arguments : option string)
| CustomToolCallItem (call_id name : string) (input : option string)
| OtherItem.

Inductive ContentPart := OutputText | ReasoningText | OtherPart.

Record ResponsesUsage := mkUsage {
  ru_input_tokens : option Z;
  ru_output_tokens : option Z;
  ru_total_tokens : option Z;
  ru_cached_tokens : option Z
}.

Section responses.
Context {Json HttpError JsonError : Type}.
Abbreviation ClientError := (ImageRecovery.ClientError HttpError JsonError).

(** The error of a response, or of the stream, with the fields that are not known. *)
Record ErrorDetail := mkErrorDetail {
  error_type : option string;
  error_message : option string;
  error_code : option string;
  error_extra : btree Json
}.

Record ResponseFailed := mkFailed {
  response_error : option ErrorDetail;
  response_extra : btree Json;
  event_extra : btree Json
}.

Record TopLevelErrorEnvelope := mkEnvelope { envelope_error : ErrorDetail; envelope_extra : btree Json }.

(** [from_json] for each structure, with the text of the error of [serde_json]; and what the
    diagnostics use of JSON values. *)
Record OpenAIResponsesScheme := mkResponses {
  overflow_checks : bool;
  decode_completed : string → result (option ResponsesUsage) string;
  decode_failed : string → result ResponseFailed string;
  decode_item_added : string → result (nat * OutputItem) string;
  decode_item_done : string → result (nat * OutputItem) string;
  decode_part_added : string → result (nat * nat * ContentPart) string;
  decode_part_done : string → result (nat * nat * ContentPart) string;
  decode_text_delta : string → result (nat * nat * string) string;
  decode_reasoning_delta : string → result (nat * nat * string) string;
  decode_summary_added : string → result (nat * nat) string;
  decode_summary_delta : string → result (nat * nat * string) string;
  decode_summary_done : string → result (nat * nat) string;
  decode_arguments_delta : string → result (nat * string) string;
  decode_arguments_done : string → result (nat * string) string;
  decode_input_delta : string → result (nat * string) string;
  decode_input_done : string → result (nat * string) string;
  decode_envelope : string → result TopLevelErrorEnvelope string;
  decode_top_level_error : string → result ErrorDetail string;
  value_string : string → Json;
  value_object : btree Json → Json;
  value_get : Json → string → option Json;
  value_as_str : Json → option string;
  value_to_string : Json → string
}.

Context (scheme : OpenAIResponsesScheme).

Definition api_error (code message : string) : ClientError :=
  ImageRecovery.Api None (Some code) message None.

Definition from_json {T} (r : result T string) : result T ClientError :=
  map_err (λ e, api_error "parse_error" ("Failed to parse SSE data: " +:+ e)) r.

(** ** Diagnostics *)

Definition DIAGNOSTIC_VALUE_LIMIT : nat := 512.
Definition UNHANDLED_SSE_DATA_PREVIEW_LIMIT : nat := 512.

(** [s.chars().take(n).collect()]: a continuation byte belongs to the character before it. *)
Fixpoint take_chars (n : nat) (s : string) : string :=
  match s with
  | EmptyString => EmptyString
  | String c rest =>
      if is_continuation c then String c (take_chars n rest)
      else match n with O => EmptyString | S n => String c (take_chars n rest) end
  end.

(** The UTF-8 bytes of the ellipsis. *)
Definition ellipsis : string :=
  String (Ascii.ascii_of_nat 226) (String (Ascii.ascii_of_nat 128) (String (Ascii.ascii_of_nat 166) EmptyString)).

Definition cap_json_value (value : Json) (limit : nat) : Json :=
  let rendered := value_to_string scheme value in
  if (String.length rendered <=? limit)%nat then value
  else value_string scheme (take_chars limit rendered +:+ ellipsis).

Definition diagnostic_object (extra : btree Json) (value_limit : nat) : Json :=
  value_object scheme ((λ kv, (kv.1, cap_json_value kv.2 value_limit)) <$> extra).

Definition append_diagnostic (message : string) (diagnostic : btree Json) : string :=
  if (length diagnostic <=? 1)%nat then message
  else message +:+ " | diagnostic=" +:+ value_to_string scheme (value_object scheme diagnostic).

(** [if let Some(value) = .. { diagnostic.insert(key, Value::String(value)) }]. *)
Definition note (key : string) (value : option string) (d : btree Json) : btree Json :=
  match value with Some v => bt_insert key (value_string scheme v) d | None => d end.

Definition note_extra (key : string) (extra d : btree Json) : btree Json :=
  match extra with [] => d | _ => bt_insert key (diagnostic_object extra DIAGNOSTIC_VALUE_LIMIT) d end.

Definition note_error (e : ErrorDetail) (d : btree Json) : btree Json :=
  note_extra "error_extra" (error_extra e)
    (note "error_code" (error_code e) (note "error_type" (error_type e) d)).

Definition code_of (e : ErrorDetail) : option string :=
  match error_code e with Some c => Some c | None => error_type e end.

(** [message.filter(|m| !m.trim().is_empty()).unwrap_or_else(..)]. *)
Definition message_or (message : option string) (otherwise : string) : string :=
  match message with Some m => if trim_is_empty m then otherwise else m | None => otherwise end.

Definition response_failure_diagnostic (event_type : string) (ev : ResponseFailed)
  : option string * string :=
  let d := note "event" (Some event_type) [] in
  let fallback := "OpenAI Responses " +:+ event_type in
  let '(code, base_message, d) :=
    match response_error ev with
    | Some err => (code_of err, message_or (error_message err) fallback, note_error err d)
    | None => (None, fallback, d)
    end in
  let reason := details ← bt_get (response_extra ev) "incomplete_details";
                value ← value_get scheme details "reason"; value_as_str scheme value in
  let d := note "incomplete_reason" reason d in
  let code := match code with Some _ => code | None => reason end in
  let d := note_extra "event_extra" (event_extra ev)
             (note_extra "response_extra" (response_extra ev) d) in
  (code, append_diagnostic base_message d).

Definition top_level_error_diagnostic (ev : TopLevelErrorEnvelope) : option string * string :=
  let d := note_extra "event_extra" (envelope_extra ev)
             (note_error (envelope_error ev) (note "event" (Some "error") [])) in
  (code_of (envelope_error ev),
   append_diagnostic (message_or (error_message (envelope_error ev)) "OpenAI Responses error") d).

(** Errors nested in an envelope, flat, or not understood at all. *)
Definition top_level_error (data : string) : TopLevelErrorEnvelope :=
  match decode_envelope scheme data with
  | Ok ev => ev
  | Err _ =>
      match decode_top_level_error scheme data with
      | Ok error => mkEnvelope error []
      | Err _ =>
          mkEnvelope (mkErrorDetail None (Some "OpenAI Responses error with unparseable data") None
            [("raw_data", value_string scheme data)]) []
      end
  end.

(** [ch.len_utf8()] for each character of [char_indices]. *)
Fixpoint char_lengths (s : string) : list nat :=
  match s with
  | EmptyString => []
  | String b0 s0 =>
      if byte_of b0 <? 128 then 1%nat :: char_lengths s0
      else match s0 with
      | EmptyString => []
      | String _ s1 =>
          if byte_of b0 <? 224 then 2%nat :: char_lengths s1
          else match s1 with
          | EmptyString => []
          | String _ s2 =>
              if byte_of b0 <? 240 then 3%nat :: char_lengths s2
              else match s2 with EmptyString => [] | String _ s3 => 4%nat :: char_lengths s3 end
          end
      end
  end.

(** The loop over the characters: the end of the last one that fits. *)
Fixpoint preview_end (limit : nat) (lengths : list nat) (end_ : nat) : nat :=
  match lengths with
  | [] => end_
  | n :: rest => if (limit <? end_ + n)%nat then end_ else preview_end limit rest (end_ + n)
  end.

Definition capped_unhandled_sse_data_preview (data : string) : string :=
  if (String.length data <=? UNHANDLED_SSE_DATA_PREVIEW_LIMIT)%nat then data
  else substring 0 (preview_end UNHANDLED_SSE_DATA_PREVIEW_LIMIT (char_lengths data) 0) data.

Definition unhandled_sse_event (event_type data : string) : Event :=
  UnhandledSse (mkUnhandledSse "openai_responses" event_type
    (capped_unhandled_sse_data_preview data) (String.length data)).

(** ** Blocks *)

(** [Event::BlockStop] of a slot. *)
Definition stop_slot (reasoning : option ReasoningBlockData) (info : SlotInfo) : Event :=
  BlockStop (flat_index info) (slot_type info) None reasoning.

Definition ensure_and_delta (s : OpenAIResponsesState) (key : SlotKey) (t : BlockType)
    (metadata : BlockMetadata) (delta : DeltaContent) : list Event * OpenAIResponsesState :=
  let '(info, just_created, s) := get_or_allocate s key t in
  ((if just_created then [BlockStart (flat_index info) t metadata] else [])
     ++ [BlockDelta (flat_index info) delta], s).

(** Removes a slot: its block is stopped, where it was open. *)
Definition close_slot (s : OpenAIResponsesState) (key : SlotKey) : list Event * OpenAIResponsesState :=
  match slots s !! key with
  | Some info => ([stop_slot None info], set_slots s (delete key (slots s)))
  | None => ([], s)
  end.

(** ** Tool inputs *)

Definition tool_input_error (code message : string) : ClientError := api_error code message.

Definition at_index (output_index : nat) : string := " at output index " +:+ pretty output_index.

Definition ensure_tool_input_kind (s : OpenAIResponsesState) (output_index : nat) (k : ToolInputKind)
  : result PendingToolInput ClientError * OpenAIResponsesState :=
  let pending := default (tool_input_new k) (pending_tool_inputs s !! output_index) in
  let s := set_tool_inputs s (<[output_index := pending]> (pending_tool_inputs s)) in
  if bool_decide (kind pending = k) then (Ok pending, s)
  else (Err (tool_input_error "tool_input_kind_mismatch"
               ("OpenAI Responses tool input kind changed" +:+ at_index output_index)), s).

Definition start_tool_output_item (s : OpenAIResponsesState) (output_index : nat) (k : ToolInputKind)
    (call_id name : string) : result (list Event) ClientError * OpenAIResponsesState :=
  match ensure_tool_input_kind s output_index k with
  | (Err e, s) => (Err e, s)
  | (Ok _, s) =>
      let '(info, just_created, s) := get_or_allocate s (OutputItemSlot output_index) ToolUseBlock in
      (Ok (if just_created : bool
           then [BlockStart (flat_index info) ToolUseBlock (MetaToolUse call_id name)] else []), s)
  end.

Definition record_tool_input_delta (s : OpenAIResponsesState) (output_index : nat) (k : ToolInputKind)
    (delta : string) : result (list Event) ClientError * OpenAIResponsesState :=
  match ensure_tool_input_kind s output_index k with
  | (Err e, s) => (Err e, s)
  | (Ok pending, s) =>
      match final_value pending with
      | Some _ =>
          (Err (tool_input_error "tool_input_delta_after_done"
                  ("OpenAI Responses " +:+ label k +:+ " delta arrived after its final value"
                     +:+ at_index output_index)), s)
      | None =>
          let pending := mkToolInput (kind pending) (streamed pending +:+ delta) true None in
          let s := set_tool_inputs s (<[output_index := pending]> (pending_tool_inputs s)) in
          let '(es, s) := ensure_and_delta s (OutputItemSlot output_index) ToolUseBlock
                            (MetaToolUse EmptyString EmptyString) (InputJson delta) in
          (Ok es, s)
      end
  end.

Definition reconcile_tool_input (s : OpenAIResponsesState) (output_index : nat) (k : ToolInputKind)
    (final : string) (metadata : BlockMetadata) : result (list Event) ClientError * OpenAIResponsesState :=
  match ensure_tool_input_kind s output_index k with
  | (Err e, s) => (Err e, s)
  | (Ok pending, s) =>
      if match final_value pending with Some existing => negb (bool_decide (existing = final)) | None => false end
      then (Err (tool_input_error "tool_input_final_mismatch"
                   ("OpenAI Responses authoritative " +:+ label k +:+ " values disagree"
                      +:+ at_index output_index)), s)
      else if saw_delta pending && negb (bool_decide (streamed pending = final))
      then (Err (tool_input_error "tool_input_delta_mismatch"
                   ("OpenAI Responses streamed " +:+ label k
                      +:+ " does not match its authoritative final value" +:+ at_index output_index)), s)
      else
        let should_emit := negb (saw_delta pending) in
        let pending' :=
          mkToolInput (kind pending) (if should_emit then final else streamed pending) true (Some final) in
        let s := set_tool_inputs s (<[output_index := pending']> (pending_tool_inputs s)) in
        if should_emit then
          let '(es, s) := ensure_and_delta s (OutputItemSlot output_index) ToolUseBlock metadata
                            (InputJson final) in
          (Ok es, s)
        else (Ok [], s)
  end.

(** The first half of [finish_tool_output_item]: the final value must be known. *)
Definition settle_tool_input (s : OpenAIResponsesState) (output_index : nat) (k : ToolInputKind)
    (metadata : BlockMetadata) (final : option string)
  : result (list Event) ClientError * OpenAIResponsesState :=
  match final with
  | Some v => reconcile_tool_input s output_index k v metadata
  | None =>
      match ensure_tool_input_kind s output_index k with
      | (Err e, s) => (Err e, s)
      | (Ok pending, s) =>
          match final_value pending with
          | Some _ => (Ok [], s)
          | None =>
              (Err (tool_input_error "tool_input_final_missing"
                      ("OpenAI Responses " +:+ label k +:+ " ended without an authoritative final value"
                         +:+ at_index output_index)), s)
          end
      end
  end.

Definition finish_tool_output_item (s : OpenAIResponsesState) (output_index : nat) (k : ToolInputKind)
    (call_id name : string) (final : option string)
  : result (list Event) ClientError * OpenAIResponsesState :=
  let metadata := MetaToolUse call_id name in
  match settle_tool_input s output_index k metadata final with
  | (Err e, s) => (Err e, s)
  | (Ok out, s) =>
      let '(info, just_created, s) := get_or_allocate s (OutputItemSlot output_index) ToolUseBlock in
      let out := out ++ if just_created : bool then [BlockStart (flat_index info) ToolUseBlock metadata] else [] in
      let s := set_slots s (delete (OutputItemSlot output_index) (slots s)) in
      let s := set_tool_inputs s (delete output_index (pending_tool_inputs s)) in
      (Ok (out ++ [stop_slot None info]), s)
  end.

(** ** Reasoning items *)

(** The stops of the blocks of a reasoning item; the last one carries what is persisted. *)
Fixpoint stop_blocks (infos : list SlotInfo) (reasoning : ReasoningBlockData) : list Event :=
  match infos with
  | [] => []
  | [info] => [stop_slot (Some reasoning) info]
  | info :: rest => stop_slot None info :: stop_blocks rest reasoning
  end.

Definition finish_reasoning (s : OpenAIResponsesState) (output_index : nat)
    (id encrypted_content : option string) : list Event * OpenAIResponsesState :=
  let pending := default pending_default (pending_reasoning s !! output_index) in
  let s := set_reasoning s (delete output_index (pending_reasoning s)) in
  let pending := mkPendingReasoning (match pr_id pending with Some i => Some i | None => id end)
                   (pr_text pending) (pr_summary pending) (deferred_thinking_stops pending) in
  let '(active, s) := take_active_reasoning_slots s output_index in
  let infos := deferred_thinking_stops pending ++ active in
  let reasoning := into_reasoning_data pending encrypted_content in
  match infos with
  | [] =>
      let '(info, s) := allocate s (OutputItemSlot output_index) ThinkingBlock in
      let s := set_slots s (delete (OutputItemSlot output_index) (slots s)) in
      ([BlockStart (flat_index info) ThinkingBlock MetaThinking;
        BlockStop (flat_index info) ThinkingBlock None (Some reasoning)], s)
  | _ => (stop_blocks infos reasoning, s)
  end.

(** ** The frames of a response *)

Inductive WireEvent :=
| WCreated
| WCompleted (usage : option ResponsesUsage)
| WFailed (event_type : string) (ev : ResponseFailed)
| WItemAdded (output : nat) (item : OutputItem)
| WItemDone (output : nat) (item : OutputItem)
| WPartAdded (output content : nat) (part : ContentPart)
| WPartDone (output content : nat) (part : ContentPart)
| WTextDelta (output content : nat) (delta : string)
| WReasoningDelta (output content : nat) (delta : string)
| WSummaryAdded (output summary : nat)
| WSummaryDelta (output summary : nat) (delta : string)
| WSummaryDone (output summary : nat)
| WToolDelta (k : ToolInputKind) (output : nat) (delta : string)
| WToolFinal (k : ToolInputKind) (output : nat) (final : string)
| WError (ev : TopLevelErrorEnvelope)
| WUnhandled (event_type data : string).

(** The first line of each branch of [parse_sse]. *)
Definition wire (event_type data : string) : result WireEvent ClientError :=
  let named s := bool_decide (event_type = s) in
  if named "response.created" then Ok WCreated
  else if named "response.completed" then
    let? u := from_json (decode_completed scheme data) in Ok (WCompleted u)
  else if named "response.failed" || named "response.incomplete" then
    let? ev := from_json (decode_failed scheme data) in Ok (WFailed event_type ev)
  else if named "response.output_item.added" then
    let? (o, item) := from_json (decode_item_added scheme data) in Ok (WItemAdded o item)
  else if named "response.output_item.done" then
    let? (o, item) := from_json (decode_item_done scheme data) in Ok (WItemDone o item)
  else if named "response.content_part.added" then
    let? (o, c, part) := from_json (decode_part_added scheme data) in Ok (WPartAdded o c part)
  else if named "response.content_part.done" then
    let? (o, c, part) := from_json (decode_part_done scheme data) in Ok (WPartDone o c part)
  else if named "response.output_text.delta" then
    let? (o, c, d) := from_json (decode_text_delta scheme data) in Ok (WTextDelta o c d)
  else if named "response.reasoning_text.delta" then
    let? (o, c, d) := from_json (decode_reasoning_delta scheme data) in Ok (WReasoningDelta o c d)
  else if named "response.reasoning_summary_part.added" then
    let? (o, i) := from_json (decode_summary_added scheme data) in Ok (WSummaryAdded o i)
  else if named "response.reasoning_summary_text.delta" then
    let? (o, i, d) := from_json (decode_summary_delta scheme data) in Ok (WSummaryDelta o i d)
  else if named "response.reasoning_summary_part.done" then
    let? (o, i) := from_json (decode_summary_done scheme data) in Ok (WSummaryDone o i)
  else if named "response.function_call_arguments.delta" then
    let? (o, d) := from_json (decode_arguments_delta scheme data) in Ok (WToolDelta FunctionCallInput o d)
  else if named "response.function_call_arguments.done" then
    let? (o, v) := from_json (decode_arguments_done scheme data) in Ok (WToolFinal FunctionCallInput o v)
  else if named "response.custom_tool_call_input.delta" then
    let? (o, d) := from_json (decode_input_delta scheme data) in Ok (WToolDelta CustomToolCallInput o d)
  else if named "response.custom_tool_call_input.done" then
    let? (o, v) := from_json (decode_input_done scheme data) in Ok (WToolFinal CustomToolCallInput o v)
  else if named "error" then Ok (WError (top_level_error data))
  else Ok (WUnhandled event_type data).

Definition convert_usage (usage : ResponsesUsage) : option UsageEvent :=
  total ← match ru_total_tokens usage with
          | Some t => Some t
          | None => add_u64 (overflow_checks scheme) (default 0 (ru_input_tokens usage))
                      (default 0 (ru_output_tokens usage))
          end;
  Some (mkUsageEvent (ru_input_tokens usage) (ru_output_tokens usage) (Some total)
          (ru_cached_tokens usage) None).

Definition error_event (d : option string * string) : Event := Error (mkErrorEvent d.1 d.2).

(** The rest of each branch. *)
Definition handle (w : WireEvent) (s : OpenAIResponsesState)
  : option (result (list Event) ClientError * OpenAIResponsesState) :=
  let ok (r : list Event * OpenAIResponsesState) := Some (Ok r.1, r.2) in
  match w with
  | WCreated => ok ([Status Started], s)
  | WCompleted None => ok ([Status Completed], s)
  | WCompleted (Some u) => e ← convert_usage u; ok ([Usage e; Status Completed], s)
  | WFailed event_type ev =>
      ok ([error_event (response_failure_diagnostic event_type ev); Status Failed], s)
  | WItemAdded o (FunctionCallItem call_id name _) =>
      Some (start_tool_output_item s o FunctionCallInput call_id name)
  | WItemAdded o (CustomToolCallItem call_id name _) =>
      Some (start_tool_output_item s o CustomToolCallInput call_id name)
  | WItemAdded o (ReasoningItem id _) =>
      ok ([], on_reasoning s o (λ p, mkPendingReasoning
               (match id with Some _ => id | None => pr_id p end) (pr_text p) (pr_summary p)
               (deferred_thinking_stops p)))
  | WItemAdded _ _ => ok ([], s)
  | WItemDone o (ReasoningItem id encrypted) => ok (finish_reasoning s o id encrypted)
  | WItemDone o (FunctionCallItem call_id name arguments) =>
      Some (finish_tool_output_item s o FunctionCallInput call_id name arguments)
  | WItemDone o (CustomToolCallItem call_id name input) =>
      Some (finish_tool_output_item s o CustomToolCallInput call_id name input)
  | WItemDone o _ => ok (close_slot s (OutputItemSlot o))
  | WPartAdded o c OtherPart => ok ([], s)
  | WPartAdded o c part =>
      let '(t, metadata) := match part with
                            | OutputText => (TextBlock, MetaText)
                            | _ => (ThinkingBlock, MetaThinking)
                            end in
      let '(info, s) := allocate s (ContentPartSlot o c) t in
      ok ([BlockStart (flat_index info) t metadata], s)
  | WPartDone o c part =>
      match slots s !! ContentPartSlot o c with
      | Some info =>
          if match part with ReasoningText => true | _ => false end
             || bool_decide (slot_type info = ThinkingBlock)
          then ok ([], defer_reasoning_stop (set_slots s (delete (ContentPartSlot o c) (slots s))) o info)
          else ok (close_slot s (ContentPartSlot o c))
      | None => ok ([], s)
      end
  | WTextDelta o c d => ok (ensure_and_delta s (ContentPartSlot o c) TextBlock MetaText (TextDelta d))
  | WReasoningDelta o c d =>
      let s := on_reasoning s o (λ p, mkPendingReasoning (pr_id p) (pr_text p +:+ d) (pr_summary p)
                                        (deferred_thinking_stops p)) in
      ok (ensure_and_delta s (ContentPartSlot o c) ThinkingBlock MetaThinking (ThinkingDelta d))
  | WSummaryAdded o i =>
      let '(info, s) := allocate s (SummarySlot o i) ThinkingBlock in
      ok ([BlockStart (flat_index info) ThinkingBlock MetaThinking], s)
  | WSummaryDelta o i d =>
      s ← extend_reasoning_summary s o i d;
      ok (ensure_and_delta s (SummarySlot o i) ThinkingBlock MetaThinking (ThinkingDelta d))
  | WSummaryDone o i => ok (close_slot s (SummarySlot o i))
  | WToolDelta k o d => Some (record_tool_input_delta s o k d)
  | WToolFinal k o v => Some (reconcile_tool_input s o k v (MetaToolUse EmptyString EmptyString))
  | WError ev => ok ([error_event (top_level_error_diagnostic ev)], s)
  | WUnhandled event_type data => ok ([unhandled_sse_event event_type data], s)
  end.

Definition parse_sse (event_type data : string) (s : OpenAIResponsesState)
  : option (result (list Event) ClientError * OpenAIResponsesState) :=
  match wire event_type data with
  | Ok w => handle w s
  | Err e => Some (Err e, s)
  end.

End responses.
Arguments ErrorDetail : clear implicits.
Arguments ResponseFailed : clear implicits.
Arguments TopLevelErrorEnvelope : clear implicits.
Arguments OpenAIResponsesScheme : clear implicits.
Arguments WireEvent : clear implicits.

#[global] Instance responses_scheme {Json HttpError JsonError} :
  Scheme HttpError JsonError (OpenAIResponsesScheme Json) OpenAIResponsesState := {
  state_default := responses_start;
  Scheme.parse_sse := parse_sse
}.

(** ** The protocol of blocks *)

(** What a reader of the events expects: blocks are numbered as they come, deltas and stops are
    for open blocks, and a stop has the type of its start.  The state is the number of blocks
    so far and the open ones. *)
Definition fits (t : BlockType) (m : BlockMetadata) : bool :=
  match t, m with
  | TextBlock, MetaText | ThinkingBlock, MetaThinking | ToolUseBlock, MetaToolUse _ _ => true
  | _, _ => false
  end.

Definition follow_event (p : nat * gmap nat BlockType) (e : Event) : option (nat * gmap nat BlockType) :=
  match e with
  | BlockStart i t m =>
      if bool_decide (i = p.1) && fits t m then Some (S p.1, <[i := t]> p.2) else None
  | BlockDelta i _ => match p.2 !! i with Some _ => Some p | None => None end
  | BlockStop i t _ _ => if bool_decide (p.2 !! i = Some t) then Some (p.1, delete i p.2) else None
  | BlockAbort _ _ _ => None
  | _ => Some p
  end.

Fixpoint follow (p : nat * gmap nat BlockType) (es : list Event) : option (nat * gmap nat BlockType) :=
  match es with
  | [] => Some p
  | e :: es => p ← follow_event p e; follow p es
  end.

Lemma follow_app p es1 es2 : follow p (es1 ++ es2) = p ← follow p es1; follow p es2.
Proof.
  revert p. induction es1 as [|e es1 IH]; intros p; simpl; [done|].
  destruct (follow_event p e); simpl; [apply IH|done].
Qed.

(** The blocks a state has not stopped: those of slots, and the stops put off. *)
Definition held (s : OpenAIResponsesState) : list SlotInfo :=
  (map_to_list (slots s)).*2
  ++ (map_to_list (pending_reasoning s) ≫= λ kv, deferred_thinking_stops kv.2).

(** These are open, and each is held once. *)
Record tracked (n : nat) (open : gmap nat BlockType) (infos : list SlotInfo) : Prop := {
  tracked_open : Forall (λ i, open !! flat_index i = Some (slot_type i)) infos;
  tracked_once : NoDup (flat_index <$> infos);
  tracked_below : ∀ i t, open !! i = Some t → (i < n)%nat
}.

Lemma tracked_submseteq n open infos infos' :
  infos' ⊆+ infos → tracked n open infos → tracked n open infos'.
Proof.
  intros (rest & Hs)%submseteq_Permutation [Ho Hn Hb].
  rewrite Hs in Ho, Hn. apply Forall_app in Ho as [Ho _].
  rewrite fmap_app in Hn. apply NoDup_app in Hn as [Hn _]. done.
Qed.

Lemma tracked_start n open infos t :
  tracked n open infos → tracked (S n) (<[n := t]> open) (mkSlot n t :: infos).
Proof.
  intros [Ho Hn Hb]. split.
  - constructor; [apply lookup_insert_eq|]. eapply Forall_impl; [exact Ho|]. intros i Hi. simpl in *.
    rewrite lookup_insert_ne; [done|]. apply Hb in Hi. lia.
  - rewrite fmap_cons. constructor; [|done]. simpl. intros (i & -> & Hi)%list_elem_of_fmap.
    rewrite Forall_forall in Ho. apply Ho, Hb in Hi. lia.
  - intros i t' Hi. destruct (decide (i = n)) as [->|Hne]; [lia|].
    rewrite lookup_insert_ne in Hi by done. apply Hb in Hi. lia.
Qed.

Lemma tracked_stop n open info infos :
  tracked n open (info :: infos) →
  open !! flat_index info = Some (slot_type info) ∧ tracked n (delete (flat_index info) open) infos.
Proof.
  intros [[Hi Ho]%Forall_cons Hn Hb]. rewrite fmap_cons in Hn. apply NoDup_cons in Hn as [Hnin Hn].
  split; [done|]. split; [|done|].
  - rewrite Forall_forall in *. intros i Hin. rewrite lookup_delete_ne; [by apply Ho|].
    intros Heq. apply Hnin. rewrite Heq. by apply list_elem_of_fmap_2.
  - intros i t Hd. apply lookup_delete_Some in Hd as [_ Hd]. by eapply Hb.
Qed.

(** From one state to another, the events obey the protocol. *)
Definition advances (s : OpenAIResponsesState) (es : list Event) (s' : OpenAIResponsesState) : Prop :=
  ∀ open, tracked (next_index s) open (held s) →
  ∃ open', follow (next_index s, open) es = Some (next_index s', open')
    ∧ tracked (next_index s') open' (held s').

Lemma advances_app s es1 s1 es2 s2 :
  advances s es1 s1 → advances s1 es2 s2 → advances s (es1 ++ es2) s2.
Proof.
  intros H1 H2 open Ht. destruct (H1 open Ht) as (open1 & Hf1 & Ht1).
  destruct (H2 open1 Ht1) as (open2 & Hf2 & Ht2). exists open2. by rewrite follow_app, Hf1.
Qed.

Lemma advances_quiet s es s' :
  next_index s' = next_index s → held s' ⊆+ held s →
  Forall (λ e, match e with
               | BlockStart _ _ _ | BlockDelta _ _ | BlockStop _ _ _ _ | BlockAbort _ _ _ => False
               | _ => True end) es →
  advances s es s'.
Proof.
  intros Hn Hh Hq open Ht. exists open. rewrite Hn. split; [|by eapply tracked_submseteq].
  clear Ht. induction Hq as [|e es He _ IH]; [done|]. simpl. by destruct e.
Qed.

Lemma advances_delta s info d :
  info ∈ held s → advances s [BlockDelta (flat_index info) d] s.
Proof.
  intros Hin open Ht. exists open. split; [|done]. simpl.
  pose proof (tracked_open _ _ _ Ht) as Ho. rewrite Forall_forall in Ho. by rewrite (Ho _ Hin).
Qed.

Lemma advances_stop s info r s' :
  next_index s' = next_index s → info :: held s' ⊆+ held s → advances s [stop_slot r info] s'.
Proof.
  intros Hn Hh open Ht. apply (tracked_submseteq _ _ _ _ Hh) in Ht. apply tracked_stop in Ht as [Ho Ht].
  exists (delete (flat_index info) open). simpl. rewrite bool_decide_true by done. by rewrite Hn.
Qed.

(** *** What is held *)

Lemma held_delete_slot s key info :
  slots s !! key = Some info → held s ≡ₚ info :: held (set_slots s (delete key (slots s))).
Proof.
  intros Hk. unfold held. simpl. by rewrite <-(map_to_list_delete _ _ _ Hk).
Qed.

Lemma held_delete_slot_sub s key : held (set_slots s (delete key (slots s))) ⊆+ held s.
Proof.
  destruct (slots s !! key) as [info|] eqn:Hk.
  - rewrite (held_delete_slot _ _ _ Hk). by apply submseteq_cons.
  - unfold held. simpl. by rewrite delete_id.
Qed.

Lemma held_reasoning s o p ds :
  (∀ q, deferred_thinking_stops (p q) ≡ₚ ds ++ deferred_thinking_stops q) →
  held (on_reasoning s o p) ≡ₚ ds ++ held s.
Proof.
  intros Hp. unfold held, on_reasoning. simpl. rewrite (Permutation_app_comm ds), <-app_assoc.
  apply Permutation_app_head. rewrite Permutation_app_comm.
  destruct (pending_reasoning s !! o) as [q|] eqn:Hq; simpl.
  - rewrite <-insert_delete_eq, map_to_list_insert by apply lookup_delete_eq.
    rewrite <-(map_to_list_delete _ _ _ Hq). simpl. by rewrite Hp, app_assoc.
  - rewrite map_to_list_insert by done. simpl. by rewrite Hp, app_nil_r.
Qed.

Lemma held_delete_reasoning s o :
  held s ≡ₚ deferred_thinking_stops (default pending_default (pending_reasoning s !! o))
            ++ held (set_reasoning s (delete o (pending_reasoning s))).
Proof.
  unfold held. simpl. rewrite (Permutation_app_comm (deferred_thinking_stops _)), <-app_assoc.
  apply Permutation_app_head. rewrite Permutation_app_comm.
  destruct (pending_reasoning s !! o) as [q|] eqn:Hq; simpl.
  - by rewrite <-(map_to_list_delete _ _ _ Hq).
  - by rewrite delete_id.
Qed.

Lemma held_remove_slots keys : ∀ s,
  held s ≡ₚ (remove_slots keys (slots s)).1 ++ held (set_slots s (remove_slots keys (slots s)).2).
Proof.
  induction keys as [|key keys IH]; intros s; simpl; [by destruct s|].
  specialize (IH (set_slots s (delete key (slots s)))). simpl in IH.
  destruct (remove_slots keys (delete key (slots s))) as [infos m]. simpl in *.
  destruct (slots s !! key) as [info|] eqn:Hk; simpl.
  - rewrite (held_delete_slot _ _ _ Hk). by rewrite IH.
  - rewrite <-IH. unfold held. simpl. by rewrite delete_id.
Qed.

Lemma held_take_active s o infos s' :
  take_active_reasoning_slots s o = (infos, s') →
  next_index s' = next_index s ∧ held s ≡ₚ infos ++ held s'.
Proof.
  unfold take_active_reasoning_slots.
  match goal with |- context [remove_slots ?ks _] => generalize (held_remove_slots ks s) end.
  destruct (remove_slots _ _) as [infos' m]. simpl. by intros Hh [= <- <-].
Qed.

(** *** The operations obey the protocol *)

Lemma advances_allocate s key t m :
  fits t m = true →
  advances s [BlockStart (next_index s) t m] (allocate s key t).2.
Proof.
  intros Hm open Ht. exists (<[next_index s := t]> open). simpl.
  rewrite bool_decide_true, Hm by done. split; [done|].
  eapply tracked_submseteq, tracked_start; [|exact Ht]. unfold held. simpl.
  rewrite <-insert_delete_eq, map_to_list_insert by apply lookup_delete_eq. simpl.
  apply submseteq_skip. apply (held_delete_slot_sub s key).
Qed.

Lemma advances_ensure_and_delta s key t m d es s' :
  fits t m = true → ensure_and_delta s key t m d = (es, s') → advances s es s'.
Proof.
  intros Hm. unfold ensure_and_delta, get_or_allocate.
  destruct (slots s !! key) as [info|] eqn:Hk.
  - intros [= <- <-]. apply advances_delta. rewrite (held_delete_slot _ _ _ Hk). left.
  - intros [= <- <-]. eapply (advances_app _ [_]); [by apply advances_allocate|].
    simpl. refine (advances_delta _ (mkSlot (next_index s) t) _ _). unfold held. simpl.
    rewrite map_to_list_insert by done. left.
Qed.

Lemma advances_close s key : advances s (close_slot s key).1 (close_slot s key).2.
Proof.
  unfold close_slot. destruct (slots s !! key) as [info|] eqn:Hk; simpl.
  - apply advances_stop; [done|]. by rewrite (held_delete_slot _ _ _ Hk).
  - by apply advances_quiet.
Qed.

Lemma advances_stop_blocks infos r : ∀ s s',
  next_index s' = next_index s → infos ++ held s' ⊆+ held s → advances s (stop_blocks infos r) s'.
Proof.
  intros s s' Hn Hh open Ht. apply (tracked_submseteq _ _ _ _ Hh) in Ht. rewrite Hn. clear Hh.
  revert open Ht. induction infos as [|info infos IH]; intros open Ht; [by exists open|].
  rewrite <-app_comm_cons in Ht. apply tracked_stop in Ht as [Ho Ht]. apply IH in Ht as (open' & Hf & Ht).
  exists open'. split; [|done].
  destruct infos; simpl in *; rewrite bool_decide_true by done; simpl; [by simplify_eq|exact Hf].
Qed.

Lemma advances_finish_reasoning s o id enc :
  advances s (finish_reasoning s o id enc).1 (finish_reasoning s o id enc).2.
Proof.
  unfold finish_reasoning. pose proof (held_delete_reasoning s o) as Hd.
  destruct (take_active_reasoning_slots _ o) as [active s1] eqn:Ht.
  apply held_take_active in Ht as [Hn Hh]. simpl in Hn. rewrite Hh in Hd. clear Hh. simpl.
  destruct (deferred_thinking_stops _ ++ active) as [|info infos] eqn:Hi; simpl.
  - apply app_eq_nil in Hi as [Hi ->]. rewrite Hi in Hd. simpl in Hd.
    eapply (advances_app _ [] s1); [by apply advances_quiet; [..|rewrite Hd|]|].
    eapply (advances_app _ [_]); [by apply (advances_allocate _ (OutputItemSlot o))|].
    refine (advances_stop _ (mkSlot (next_index s1) ThinkingBlock) (Some _) _ _ _); [done|].
    apply Permutation_submseteq. symmetry.
    refine (held_delete_slot (allocate s1 (OutputItemSlot o) ThinkingBlock).2 _ _ _).
    apply lookup_insert_eq.
  - refine (advances_stop_blocks (info :: infos) _ _ _ _ _); [done|]. rewrite <-Hi, <-app_assoc.
    by rewrite Hd.
Qed.

Lemma advances_reasoning s o p :
  (∀ q, deferred_thinking_stops (p q) = deferred_thinking_stops q) → advances s [] (on_reasoning s o p).
Proof.
  intros Hp. apply advances_quiet; [done| |done]. rewrite (held_reasoning _ _ _ []); [done|].
  intros q. by rewrite Hp.
Qed.

Lemma advances_reasoning_delta s o p key t m d :
  (∀ q, deferred_thinking_stops (p q) = deferred_thinking_stops q) → fits t m = true →
  let r := ensure_and_delta (on_reasoning s o p) key t m d in advances s r.1 r.2.
Proof.
  intros Hp Hm r. apply (advances_app _ [] (on_reasoning s o p)); [by apply advances_reasoning|].
  by eapply advances_ensure_and_delta; [|apply surjective_pairing].
Qed.

(** The inputs of tools hold no blocks. *)
Lemma advances_from s s1 es s' :
  next_index s1 = next_index s ∧ slots s1 = slots s ∧ pending_reasoning s1 = pending_reasoning s →
  advances s1 es s' → advances s es s'.
Proof.
  intros (Hn & Hs & Hr) Ha. apply (advances_app _ [] s1); [|done].
  apply advances_quiet; [done| |done]. unfold held. by rewrite Hs, Hr.
Qed.

Section protocol.
Context {Json HttpError JsonError : Type} (scheme : OpenAIResponsesScheme Json).
Abbreviation ClientError := (ImageRecovery.ClientError HttpError JsonError).

Lemma ensure_kind_keeps s o k r s1 :
  ensure_tool_input_kind (HttpError := HttpError) (JsonError := JsonError) s o k = (r, s1) →
  next_index s1 = next_index s ∧ slots s1 = slots s ∧ pending_reasoning s1 = pending_reasoning s.
Proof. unfold ensure_tool_input_kind. case_bool_decide; by intros [= <- <-]. Qed.

Lemma advances_reconcile s o k v id name es s' :
  reconcile_tool_input (HttpError := HttpError) (JsonError := JsonError) s o k v (MetaToolUse id name)
    = (Ok es, s') → advances s es s'.
Proof.
  unfold reconcile_tool_input.
  destruct (ensure_tool_input_kind s o k) as [[p|e] s1] eqn:Hk; [|done]. apply ensure_kind_keeps in Hk.
  destruct (match final_value p with Some _ => _ | None => _ end); [done|].
  destruct (saw_delta p); simpl.
  - case_bool_decide; [|done]. intros [= <- <-]. eapply advances_from; [exact Hk|]. by apply advances_quiet.
  - destruct (ensure_and_delta _ _ _ _ _) as [es1 s2] eqn:He. intros [= <- <-].
    eapply advances_from; [|by eapply advances_ensure_and_delta; [|exact He]]. done.
Qed.

Lemma advances_record s o k d es s' :
  record_tool_input_delta (HttpError := HttpError) (JsonError := JsonError) s o k d = (Ok es, s') →
  advances s es s'.
Proof.
  unfold record_tool_input_delta.
  destruct (ensure_tool_input_kind s o k) as [[p|e] s1] eqn:Hk; [|done]. apply ensure_kind_keeps in Hk.
  destruct (final_value p); [done|].
  destruct (ensure_and_delta _ _ _ _ _) as [es1 s2] eqn:He. intros [= <- <-].
  eapply advances_from; [|by eapply advances_ensure_and_delta; [|exact He]]. done.
Qed.

(** Getting the slot of a tool, with its start where it is new. *)
Lemma advances_get s o info created s' m :
  get_or_allocate s (OutputItemSlot o) ToolUseBlock = (info, created, s') → fits ToolUseBlock m = true →
  advances s (if created then [BlockStart (flat_index info) ToolUseBlock m] else []) s'
  ∧ slots s' !! OutputItemSlot o = Some info ∧ pending_tool_inputs s' = pending_tool_inputs s.
Proof.
  unfold get_or_allocate. destruct (slots s !! OutputItemSlot o) as [i|] eqn:Hi.
  - intros [= <- <- <-] _. split; [by apply advances_quiet|done].
  - intros [= <- <- <-] Hm. split; [by apply advances_allocate|]. simpl. by rewrite lookup_insert_eq.
Qed.

Lemma advances_start s o k id name es s' :
  start_tool_output_item (HttpError := HttpError) (JsonError := JsonError) s o k id name = (Ok es, s') →
  advances s es s'.
Proof.
  unfold start_tool_output_item.
  destruct (ensure_tool_input_kind s o k) as [[p|e] s1] eqn:Hk; [|done].
  apply ensure_kind_keeps in Hk.
  destruct (get_or_allocate _ _ _) as [[info created] s2] eqn:Hg. intros [= <- <-].
  eapply advances_from; [exact Hk|]. by apply (advances_get _ _ _ _ _ _ Hg).
Qed.

Lemma advances_settle s o k id name v es s' :
  settle_tool_input (HttpError := HttpError) (JsonError := JsonError) s o k (MetaToolUse id name) v
    = (Ok es, s') → advances s es s'.
Proof.
  destruct v as [v|]; simpl; [apply advances_reconcile|].
  destruct (ensure_tool_input_kind s o k) as [[p|e] s1] eqn:Hk; [|done].
  apply ensure_kind_keeps in Hk. destruct (final_value p); [|done]. intros [= <- <-].
  eapply advances_from; [exact Hk|]. by apply advances_quiet.
Qed.

Lemma advances_finish s o k id name v es s' :
  finish_tool_output_item (HttpError := HttpError) (JsonError := JsonError) s o k id name v = (Ok es, s') →
  advances s es s'.
Proof.
  unfold finish_tool_output_item.
  destruct (settle_tool_input _ _ _ _ _) as [[out|e] s1] eqn:Hr; [|done].
  destruct (get_or_allocate _ _ _) as [[info created] s2] eqn:Hg. intros [= <- <-].
  destruct (advances_get _ _ _ _ _ (MetaToolUse id name) Hg eq_refl) as (Ha & Hs & _).
  apply (advances_app _ _ s2); [eapply advances_app; [by eapply advances_settle|exact Ha]|].
  apply advances_stop; [done|]. by rewrite (held_delete_slot _ _ _ Hs).
Qed.

Lemma advances_handle w s es s' :
  handle (HttpError := HttpError) (JsonError := JsonError) scheme w s = Some (Ok es, s') → advances s es s'.
Proof.
  destruct w as [|[u|]|ty ev|o [|id enc|id name v|id name v|]|o [|id enc|id name v|id name v|]
                 |o c []|o c part|o c d|o c d|o i|o i d|o i|k o d|k o v|ev|ty data]; simpl.
  all: intros H; try (injection H as <- <-); try (injection H as H).
  all: try (by apply advances_quiet; [done..|repeat constructor]).
  all: first
    [ by eapply advances_start | by eapply advances_finish | by eapply advances_record
    | by eapply advances_reconcile | by apply advances_close | by apply advances_finish_reasoning
    | by apply (advances_allocate _ (ContentPartSlot o c)) | by apply (advances_allocate _ (SummarySlot o i))
    | by eapply advances_ensure_and_delta; [|apply surjective_pairing] | by apply advances_reasoning
    | idtac ].
  - destruct (convert_usage _ _); [|done]. injection H as <- <-. by apply advances_quiet; [..|repeat constructor].
  - destruct (slots s !! ContentPartSlot o c) as [info|] eqn:Hs; [|injection H as <- <-; by apply advances_quiet].
    destruct (_ || _); injection H as <- <-; [|apply advances_close].
    apply advances_quiet; [done| |done]. unfold defer_reasoning_stop.
    rewrite (held_reasoning _ _ _ [info]) by (intros; apply Permutation_app_comm).
    by rewrite (held_delete_slot _ _ _ Hs).
  - by apply advances_reasoning_delta.
  - unfold extend_reasoning_summary in H. destruct (push_summary _ _ _) as [l|]; [|done].
    injection H as <- <-. by apply advances_reasoning_delta.
Qed.

(** C27.  However the frames of a response come (deltas before their items, parts announced twice,
    reasoning closed late), the events obey the protocol of blocks: starts are numbered
    consecutively, deltas and stops are for blocks that are open, no block is stopped twice, and
    a stop has the type of its start. *)
Theorem responses_blocks_follow (fs : list Frame) (es : list Event) (s : OpenAIResponsesState) :
  run (HttpError := HttpError) (JsonError := JsonError) scheme fs responses_start = Some (es, s) →
  ∃ open, follow (0%nat, ∅) es = Some (next_index s, open).
Proof.
  intros Hrun.
  assert (advances responses_start ([] ++ es) s) as Ha.
  { eapply (run_invariant _ (λ es s, advances responses_start es s)); [| |exact Hrun].
    - intros es1 s1 f es2 s2 Ha. simpl. unfold parse_sse. destruct (wire _ _ _) as [w|e]; [|done].
      intros Hp. eapply advances_app; [exact Ha|]. by eapply advances_handle.
    - by apply advances_quiet. }
  destruct (Ha ∅) as (open & Hf & _); [by split; [constructor..|]|]. by exists open.
Qed.

End protocol.

(** ** Blocks of tools *)

(** Only the slots of whole items are for tools. *)
Record typed (s : OpenAIResponsesState) : Prop := {
  typed_slots : ∀ key info, slots s !! key = Some info →
    match key with OutputItemSlot _ => True | _ => slot_type info ≠ ToolUseBlock end;
  typed_deferred : ∀ o p, pending_reasoning s !! o = Some p →
    Forall (λ i, slot_type i ≠ ToolUseBlock) (deferred_thinking_stops p)
}.

Lemma typed_same s s' :
  typed s →
  (∀ key info, slots s' !! key = Some info →
     slots s !! key = Some info ∨ match key with OutputItemSlot _ => True | _ => slot_type info ≠ ToolUseBlock end) →
  pending_reasoning s' = pending_reasoning s → typed s'.
Proof.
  intros [Hs Hd] Hslots Hp. split; [|by rewrite Hp].
  intros key info [Hi|Hi]%Hslots; [by apply Hs|done].
Qed.

Lemma typed_allocate s key t :
  typed s → match key with OutputItemSlot _ => True | _ => t ≠ ToolUseBlock end →
  typed (allocate s key t).2.
Proof.
  intros Hs Ht. eapply typed_same; [exact Hs| |done]. intros key' info. simpl.
  rewrite lookup_insert_Some. intros [[<- <-]|[_ ?]]; [by right|by left].
Qed.

Lemma typed_delete s key : typed s → typed (set_slots s (delete key (slots s))).
Proof.
  intros Hs. eapply typed_same; [exact Hs| |done]. intros key' info. simpl.
  intros [_ Hi]%lookup_delete_Some. by left.
Qed.

Lemma typed_ensure s key t m d :
  typed s → match key with OutputItemSlot _ => True | _ => t ≠ ToolUseBlock end →
  typed (ensure_and_delta s key t m d).2.
Proof.
  intros Hs Ht. unfold ensure_and_delta, get_or_allocate. destruct (slots s !! key); [done|].
  by apply typed_allocate.
Qed.

Lemma typed_reasoning s o f :
  typed s →
  (∀ p, Forall (λ i, slot_type i ≠ ToolUseBlock) (deferred_thinking_stops p) →
        Forall (λ i, slot_type i ≠ ToolUseBlock) (deferred_thinking_stops (f p))) →
  typed (on_reasoning s o f).
Proof.
  intros [Hs Hd] Hf. split; [done|]. intros o' p. simpl. rewrite lookup_insert_Some.
  intros [[<- <-]|[_ ?]]; [|by eapply Hd]. apply Hf.
  destruct (pending_reasoning s !! o) eqn:Hp; simpl; [by eapply Hd|constructor].
Qed.

(** The operations on tools change only the slots of items. *)
Lemma typed_tool s s' :
  typed s →
  (∀ key, match key with OutputItemSlot _ => True | _ => slots s' !! key = slots s !! key end) →
  pending_reasoning s' = pending_reasoning s → typed s'.
Proof.
  intros Hs Hk. apply typed_same; [done|]. intros key info Hi. specialize (Hk key).
  destruct key; [by right|left; congruence..].
Qed.

Ltac tool_typed :=
  unfold ensure_tool_input_kind, get_or_allocate, allocate;
  repeat case_match; intros; simplify_eq/=;
  match goal with H : typed _ |- _ => apply (typed_tool _ _ H); [|done] end; intros []; simpl;
  rewrite ?lookup_delete_ne, ?lookup_insert_ne by done; done.

Section typed_tools.
Context {HttpError JsonError : Type}.

Lemma typed_start s o k id name r s' :
  typed s → start_tool_output_item (HttpError := HttpError) (JsonError := JsonError) s o k id name = (r, s') →
  typed s'.
Proof. intros Ht. unfold start_tool_output_item. tool_typed. Qed.

Lemma typed_record s o k d r s' :
  typed s → record_tool_input_delta (HttpError := HttpError) (JsonError := JsonError) s o k d = (r, s') → typed s'.
Proof. intros Ht. unfold record_tool_input_delta, ensure_and_delta. tool_typed. Qed.

Lemma typed_reconcile s o k v m r s' :
  typed s → reconcile_tool_input (HttpError := HttpError) (JsonError := JsonError) s o k v m = (r, s') → typed s'.
Proof. intros Ht. unfold reconcile_tool_input, ensure_and_delta. tool_typed. Qed.

Lemma typed_finish s o k id name v r s' :
  typed s → finish_tool_output_item (HttpError := HttpError) (JsonError := JsonError) s o k id name v = (r, s') →
  typed s'.
Proof.
  intros Ht. unfold finish_tool_output_item.
  destruct (settle_tool_input s o k _ v) as [r1 s1] eqn:Hr.
  assert (typed s1) as Ht1.
  { destruct v as [v|]; simpl in Hr; [by eapply typed_reconcile|]. revert Hr. tool_typed. }
  clear Ht Hr. tool_typed.
Qed.

End typed_tools.

Lemma typed_close s key : typed s → typed (close_slot s key).2.
Proof. intros Hs. unfold close_slot. destruct (slots s !! key); [by apply typed_delete|done]. Qed.

Lemma typed_remove keys : ∀ s, typed s →
  typed (set_slots s (remove_slots keys (slots s)).2)
  ∧ ((∀ key, key ∈ keys → match key with OutputItemSlot _ => False | _ => True end) →
     Forall (λ i, slot_type i ≠ ToolUseBlock) (remove_slots keys (slots s)).1).
Proof.
  induction keys as [|key keys IH]; intros s Hs; simpl.
  - split; [by destruct s|constructor].
  - destruct (IH _ (typed_delete s key Hs)) as [Ht Hf]. simpl in *.
    destruct (remove_slots keys (delete key (slots s))) as [infos m]. simpl in *. split; [done|].
    intros Hkeys. apply Forall_app. split.
    + destruct (slots s !! key) as [info|] eqn:Hi; simpl; [|constructor].
      apply Forall_singleton. pose proof (typed_slots _ Hs _ _ Hi) as Ht'.
      specialize (Hkeys key ltac:(left)). by destruct key.
    + apply Hf. intros k Hk. apply Hkeys. by right.
Qed.

(** ** Tool calls *)

(** The calls of a response as its items state them: those open, by output, with the order
    they were opened in, the id and name they were opened with, and the final input once it is
    known; and those finished.  Fragments of inputs have no part in it. *)
Record OpenCall := mkOpen { oc_order : nat; oc_id : string; oc_name : string; oc_final : option string }.

Record Calls := mkCalls {
  open_calls : gmap nat OpenCall;
  ids : list string;
  finished : list (nat * (string * string * string))
}.

Definition no_calls : Calls := mkCalls ∅ [] [].

(** The first frame about a call opens it. *)
Definition open_call (o : nat) (id name : string) (c : Calls) : Calls :=
  match open_calls c !! o with
  | Some _ => c
  | None => mkCalls (<[o := mkOpen (length (ids c)) id name None]> (open_calls c)) (ids c ++ [id]) (finished c)
  end.

Definition settle_call (o : nat) (v : string) (c : Calls) : Calls :=
  mkCalls (alter (λ oc, mkOpen (oc_order oc) (oc_id oc) (oc_name oc) (Some v)) o (open_calls c))
    (ids c) (finished c).

Definition finish_call (o : nat) (c : Calls) : option Calls :=
  oc ← open_calls c !! o; v ← oc_final oc;
  Some (mkCalls (delete o (open_calls c)) (ids c)
          (finished c ++ [(oc_order oc, (oc_id oc, oc_name oc, v))])).

Definition done_call (o : nat) (id name : string) (v : option string) (c : Calls) : option Calls :=
  let c := open_call o id name c in
  finish_call o (match v with Some v => settle_call o v c | None => c end).

(** An output is one item: no other item is done at the output of an open call. *)
Definition call_step {Json} (w : WireEvent Json) (c : Calls) : option Calls :=
  match w with
  | WItemAdded o (FunctionCallItem id name _ | CustomToolCallItem id name _) => Some (open_call o id name c)
  | WItemDone o (FunctionCallItem id name v | CustomToolCallItem id name v) => done_call o id name v c
  | WItemDone o _ => match open_calls c !! o with Some _ => None | None => Some c end
  | WToolDelta _ o _ => Some (open_call o EmptyString EmptyString c)
  | WToolFinal _ o v => Some (settle_call o v (open_call o EmptyString EmptyString c))
  | _ => Some c
  end.

Fixpoint calls_of {Json} (ws : list (WireEvent Json)) (c : Calls) : option Calls :=
  match ws with
  | [] => Some c
  | w :: ws => c ← call_step w c; calls_of ws c
  end.

Section calls.
Context {Json HttpError JsonError : Type} (sj : Serde Json).
Abbreviation ClientError := (ImageRecovery.ClientError HttpError JsonError).

(** *** The simulation *)

(** A call that is open has its slot, and its block has the input streamed so far. *)
Definition linked (es : list Event) (s : OpenAIResponsesState) (o : nat) (oc : option OpenCall) : Prop :=
  match oc with
  | None => slots s !! OutputItemSlot o = None ∧ pending_tool_inputs s !! o = None
  | Some oc =>
      ∃ k p, slots s !! OutputItemSlot o = Some (mkSlot k ToolUseBlock) ∧ (k < next_index s)%nat
        ∧ pending_tool_inputs s !! o = Some p
        ∧ under_way es k (oc_order oc) (oc_id oc) (oc_name oc) (streamed p)
        ∧ final_value p = oc_final oc
        ∧ (saw_delta p = false → streamed p = EmptyString)
        ∧ (∀ v, oc_final oc = Some v → streamed p = v)
  end.

Record simulates (es : list Event) (s : OpenAIResponsesState) (c : Calls) : Prop := {
  rs_linked : ∀ o, linked es s o (open_calls c !! o);
  rs_blocks : ∀ k, block_after k es ≠ None →
    ∃ o t, slots s !! OutputItemSlot o = Some (mkSlot k t);
  rs_apart : ∀ o1 o2 i1 i2, slots s !! OutputItemSlot o1 = Some i1 →
    slots s !! OutputItemSlot o2 = Some i2 → flat_index i1 = flat_index i2 → o1 = o2;
  rs_opened : opened es = length (ids c);
  rs_ids : start_ids es = ids c;
  rs_completed :
    completed sj es = (λ x, (x.1, mkCall x.2.1.1 x.2.1.2 (parse_input sj x.2.2))) <$> finished c
}.

Lemma rs_below es s c o i :
  simulates es s c → slots s !! OutputItemSlot o = Some i → (flat_index i < next_index s)%nat.
Proof.
  intros Hs Hi. pose proof (rs_linked _ _ _ Hs o) as Hl. destruct (open_calls c !! o) as [oc|].
  - destruct Hl as (k & p & Hk & ? & _). by simplify_eq.
  - destruct Hl. congruence.
Qed.

Lemma rs_fresh es s c : simulates es s c → block_after (next_index s) es = None.
Proof.
  intros Hs. destruct (block_after (next_index s) es) eqn:Hb; [|done].
  destruct (rs_blocks _ _ _ Hs (next_index s)) as (o & t & Ho); [congruence|].
  apply (rs_below _ _ _ _ _ Hs) in Ho. simpl in Ho. lia.
Qed.

(** Frames that have nothing to do with calls. *)
Lemma rs_quiet es s c es' s' :
  simulates es s c → Forall (λ e, about_call e = None) es' →
  (∀ o, slots s' !! OutputItemSlot o = slots s !! OutputItemSlot o) →
  pending_tool_inputs s' = pending_tool_inputs s → (next_index s ≤ next_index s')%nat →
  simulates (es ++ es') s' c.
Proof.
  intros [Hl Hb Ha Ho Hi Hc] Hq Hs Hp Hn.
  destruct (quiet_events sj es es' Hq) as (Hc' & Ho' & Hi' & Hb').
  split; [|..|congruence|congruence|congruence].
  - intros o. specialize (Hl o). unfold linked in *. rewrite Hs, Hp.
    destruct (open_calls c !! o) as [oc|]; [|done].
    destruct Hl as (k & p & ? & ? & ? & Hu & ?). exists k, p. split_and!; [done|lia|done| |naive_solver..].
    apply under_way_others; [done|]. eapply Forall_impl; [exact Hq|]. congruence.
  - intros k Hk. rewrite Hb' in Hk. destruct (Hb k Hk) as (o & t & Hkt). exists o, t. by rewrite Hs.
  - intros o1 o2 i1 i2. rewrite !Hs. apply Ha.
Qed.

(** A frame about the call of one output, whose block is [k]. *)
Lemma rs_call o k es s c es' s' c' :
  simulates es s c →
  match slots s !! OutputItemSlot o with Some i => k = flat_index i | None => (next_index s ≤ k)%nat end →
  Forall (λ e, about_call e = Some k) es' →
  (∀ o', o' ≠ o → slots s' !! OutputItemSlot o' = slots s !! OutputItemSlot o'
     ∧ pending_tool_inputs s' !! o' = pending_tool_inputs s !! o' ∧ open_calls c' !! o' = open_calls c !! o') →
  (next_index s ≤ next_index s')%nat →
  linked (es ++ es') s' o (open_calls c' !! o) →
  match slots s' !! OutputItemSlot o with
  | Some i => flat_index i = k
  | None => block_after k (es ++ es') = None
  end →
  opened (es ++ es') = length (ids c') → start_ids (es ++ es') = ids c' →
  completed sj (es ++ es')
    = (λ x, (x.1, mkCall x.2.1.1 x.2.1.2 (parse_input sj x.2.2))) <$> finished c' →
  simulates (es ++ es') s' c'.
Proof.
  intros Hsim Hk Hq Hother Hn Hl Hend Ho Hi Hc.
  assert (∀ o' i, o' ≠ o → slots s !! OutputItemSlot o' = Some i → flat_index i ≠ k) as Hne.
  { intros o' i Hne Hi' <-. destruct (slots s !! OutputItemSlot o) as [i0|] eqn:Hi0.
    - apply Hne. by eapply (rs_apart _ _ _ Hsim).
    - apply (rs_below _ _ _ _ _ Hsim) in Hi'. lia. }
  assert (∀ j, j ≠ k → block_after j (es ++ es') = block_after j es) as Hblocks.
  { intros j Hj. apply block_after_others. eapply Forall_impl; [exact Hq|]. congruence. }
  split; [| | |done..].
  - intros o'. destruct (decide (o' = o)) as [->|Hne']; [done|].
    destruct (Hother o' Hne') as (Hs & Hp & Hopen). rewrite Hopen.
    pose proof (rs_linked _ _ _ Hsim o') as Hl'. unfold linked in *. rewrite Hs, Hp.
    destruct (open_calls c !! o') as [oc|]; [|done].
    destruct Hl' as (j & p & Hj & ? & ? & Hu & ?). exists j, p. split_and!; [done|lia|done| |naive_solver..].
    apply Hne in Hj; [|done]. simpl in Hj.
    apply under_way_others; [done|]. eapply Forall_impl; [exact Hq|]. congruence.
  - intros j Hj. destruct (decide (j = k)) as [->|Hjk].
    + destruct (slots s' !! OutputItemSlot o) as [[f t]|] eqn:He; [|done]. simpl in Hend. subst f. by exists o, t.
    + rewrite Hblocks in Hj by done. destruct (rs_blocks _ _ _ Hsim j Hj) as (o' & t & Ho').
      exists o', t. destruct (decide (o' = o)) as [->|Hne']; [|by rewrite (proj1 (Hother _ Hne'))].
      rewrite Ho' in Hk. by simpl in Hk.
  - intros o1 o2 i1 i2 H1 H2 Heq.
    assert (∀ o' i, o' ≠ o → slots s' !! OutputItemSlot o' = Some i → flat_index i ≠ k) as Hne2.
    { intros o' i Hne'. rewrite (proj1 (Hother _ Hne')). by apply Hne. }
    destruct (decide (o1 = o)) as [->|Hn1], (decide (o2 = o)) as [->|Hn2]; [done|..].
    + rewrite H1 in Hend. destruct (Hne2 _ _ Hn2 H2). congruence.
    + rewrite H2 in Hend. destruct (Hne2 _ _ Hn1 H1). congruence.
    + rewrite (proj1 (Hother _ Hn1)) in H1. rewrite (proj1 (Hother _ Hn2)) in H2.
      by eapply (rs_apart _ _ _ Hsim).
Qed.

(** What is known of the pending input of a call. *)
Definition settled (p : PendingToolInput) (final : option string) : Prop :=
  final_value p = final ∧ (saw_delta p = false → streamed p = EmptyString)
  ∧ (∀ v, final = Some v → streamed p = v).

(** A call is opened, with the fragments of input that come at once. *)
Lemma rs_open es s c o id name inputs p s' final :
  simulates es s c → open_calls c !! o = None →
  slots s' = <[OutputItemSlot o := mkSlot (next_index s) ToolUseBlock]> (slots s) →
  next_index s' = S (next_index s) →
  pending_tool_inputs s' = <[o := p]> (pending_tool_inputs s) →
  streamed p = String.concat EmptyString inputs → settled p final →
  simulates (es ++ call_events (next_index s) id name inputs) s'
    (mkCalls (<[o := mkOpen (length (ids c)) id name final]> (open_calls c)) (ids c ++ [id]) (finished c)).
Proof.
  intros Hsim Hnone Hs Hn Hp Hstr (Hfin & Hsaw & Hv).
  pose proof (rs_linked _ _ _ Hsim o) as Hl. rewrite Hnone in Hl. destruct Hl as [Hslot Hpti].
  destruct (call_events_after sj es (next_index s) id name inputs (rs_fresh _ _ _ Hsim))
    as (Hu & Hc & Ho & Hi & _).
  apply (rs_call o (next_index s) _ _ _ _ _ _ Hsim).
  - by rewrite Hslot.
  - rewrite call_events_eq. constructor; [done|]. apply Forall_fmap, Forall_true. done.
  - intros o' Hne. rewrite Hs, Hp. simpl. rewrite !lookup_insert_ne by congruence. done.
  - lia.
  - simpl. rewrite lookup_insert_eq. simpl. exists (next_index s), p. rewrite Hs, Hp, !lookup_insert_eq.
    split_and!; [done|lia|done| |done..]. rewrite Hstr, <-(rs_opened _ _ _ Hsim). exact Hu.
  - by rewrite Hs, lookup_insert_eq.
  - simpl. rewrite Ho, length_app, (rs_opened _ _ _ Hsim). simpl. lia.
  - simpl. by rewrite Hi, (rs_ids _ _ _ Hsim).
  - simpl. by rewrite Hc, (rs_completed _ _ _ Hsim).
Qed.

(** A call that is open gets more input, or its final value. *)
Lemma rs_more es s c o oc k p p' inputs s' final :
  simulates es s c → open_calls c !! o = Some oc →
  slots s !! OutputItemSlot o = Some (mkSlot k ToolUseBlock) → pending_tool_inputs s !! o = Some p →
  slots s' = slots s → next_index s' = next_index s →
  pending_tool_inputs s' = <[o := p']> (pending_tool_inputs s) →
  streamed p' = streamed p +:+ String.concat EmptyString inputs → settled p' final →
  simulates (es ++ ((λ d, BlockDelta k (InputJson d)) <$> inputs)) s'
    (mkCalls (<[o := mkOpen (oc_order oc) (oc_id oc) (oc_name oc) final]> (open_calls c))
       (ids c) (finished c)).
Proof.
  intros Hsim Hoc Hk Hp Hs Hn Hp' Hstr (Hfin & Hsaw & Hv).
  pose proof (rs_linked _ _ _ Hsim o) as Hl. rewrite Hoc in Hl.
  destruct Hl as (k' & q & Hk' & Hlt & Hq & Hu & _). simplify_eq.
  destruct (more_input sj es k _ _ _ _ inputs Hu) as (Hu' & Hc & Ho & Hi).
  apply (rs_call o k _ _ _ _ _ _ Hsim).
  - by rewrite Hk.
  - apply Forall_fmap, Forall_true. done.
  - intros o' Hne. rewrite Hs, Hp'. simpl. rewrite !lookup_insert_ne by congruence. done.
  - lia.
  - simpl. rewrite lookup_insert_eq. simpl. exists k, p'. rewrite Hs, Hk, Hp', !lookup_insert_eq, Hn.
    split_and!; [done|lia|done| |done..]. by rewrite Hstr.
  - by rewrite Hs, Hk.
  - by rewrite Ho, (rs_opened _ _ _ Hsim).
  - by rewrite Hi, (rs_ids _ _ _ Hsim).
  - by rewrite Hc, (rs_completed _ _ _ Hsim).
Qed.

(** A call whose final value is known is stopped. *)
Lemma rs_stop es s c o k oc v :
  simulates es s c → open_calls c !! o = Some oc → oc_final oc = Some v →
  slots s !! OutputItemSlot o = Some (mkSlot k ToolUseBlock) →
  simulates (es ++ [stop_slot None (mkSlot k ToolUseBlock)])
    (mkState (delete (OutputItemSlot o) (slots s)) (next_index s) (pending_reasoning s)
       (delete o (pending_tool_inputs s)))
    (mkCalls (delete o (open_calls c)) (ids c) (finished c ++ [(oc_order oc, (oc_id oc, oc_name oc, v))])).
Proof.
  intros Hsim Hoc Hv Hk. pose proof (rs_linked _ _ _ Hsim o) as Hl. rewrite Hoc in Hl.
  destruct Hl as (k' & p & Hk' & Hlt & Hq & Hu & _ & _ & Hstr). simplify_eq.
  apply (rs_call o k _ _ _ _ _ _ Hsim); simpl.
  - by rewrite Hk.
  - by repeat constructor.
  - intros o' Hne. rewrite !lookup_delete_ne by congruence. done.
  - lia.
  - rewrite lookup_delete_eq. simpl. by rewrite !lookup_delete_eq.
  - rewrite lookup_delete_eq. apply block_after_stop.
  - unfold stop_slot. rewrite opened_snoc, opens_end. simpl. rewrite <-(rs_opened _ _ _ Hsim). lia.
  - rewrite start_ids_app, (rs_ids _ _ _ Hsim). apply app_nil_r.
  - unfold stop_slot. simpl. rewrite (completed_stop _ _ _ _ _ _ _ _ _ Hu), (rs_completed _ _ _ Hsim), fmap_app.
    simpl. by rewrite (Hstr _ Hv).
Qed.

(** *** The operations simulate *)

Lemma ensure_kind_ok s o k p s1 :
  ensure_tool_input_kind (HttpError := HttpError) (JsonError := JsonError) s o k = (Ok p, s1) →
  p = default (tool_input_new k) (pending_tool_inputs s !! o)
  ∧ s1 = set_tool_inputs s (<[o := p]> (pending_tool_inputs s)).
Proof. unfold ensure_tool_input_kind. case_bool_decide; [|done]. by intros [= <- <-]. Qed.

Lemma rs_start es s c o k id name es' s' :
  simulates es s c →
  start_tool_output_item (HttpError := HttpError) (JsonError := JsonError) s o k id name = (Ok es', s') →
  simulates (es ++ es') s' (open_call o id name c).
Proof.
  intros Hsim. unfold start_tool_output_item.
  destruct (ensure_tool_input_kind s o k) as [[p|e] s1] eqn:He; [|done].
  apply ensure_kind_ok in He as [Hp ->]. unfold open_call, get_or_allocate. simpl.
  pose proof (rs_linked _ _ _ Hsim o) as Hl. destruct (open_calls c !! o) as [oc|] eqn:Hoc.
  - destruct Hl as (j & q & Hj & Hlt & Hq & _). rewrite Hj. intros [= <- <-].
    rewrite Hq in Hp. simpl in Hp. subst p. rewrite app_nil_r. unfold set_tool_inputs.
    rewrite insert_id by done. by destruct s.
  - destruct Hl as [Hj Hq]. rewrite Hj. intros [= <- <-]. rewrite Hq in Hp. simpl in Hp. subst p.
    pose proof (rs_open es s c o id name [] (tool_input_new k)) as Ho. rewrite call_events_eq in Ho.
    by apply Ho.
Qed.

Lemma rs_record es s c o k d es' s' :
  simulates es s c →
  record_tool_input_delta (HttpError := HttpError) (JsonError := JsonError) s o k d = (Ok es', s') →
  simulates (es ++ es') s' (open_call o EmptyString EmptyString c).
Proof.
  intros Hsim. unfold record_tool_input_delta.
  destruct (ensure_tool_input_kind s o k) as [[p|e] s1] eqn:He; [|done].
  apply ensure_kind_ok in He as [Hp ->].
  destruct (final_value p) eqn:Hfin; [done|]. unfold ensure_and_delta, get_or_allocate, open_call. simpl.
  pose proof (rs_linked _ _ _ Hsim o) as Hl. destruct (open_calls c !! o) as [oc|] eqn:Hoc.
  - destruct Hl as (j & q & Hj & _ & Hq & _ & Hf & Hsaw & _). rewrite Hj. intros [= <- <-].
    rewrite Hq in Hp. simpl in Hp. subst p.
    assert (mkCalls (<[o := mkOpen (oc_order oc) (oc_id oc) (oc_name oc) None]> (open_calls c)) (ids c)
              (finished c) = c) as Hc.
    { rewrite insert_id; [by destruct c|]. rewrite Hoc. destruct oc. simpl in *. congruence. }
    refine (eq_ind _ (simulates _ _) _ _ Hc).
    apply (rs_more es s c o oc j q (mkToolInput (kind q) (streamed q +:+ d) true None) [d]);
      [done..| | |by split_and!]; simpl; [by rewrite insert_insert_eq|done].
  - destruct Hl as [Hj Hq]. rewrite Hj. intros [= <- <-]. rewrite Hq in Hp. simpl in Hp. subst p.
    pose proof (rs_open es s c o EmptyString EmptyString [d] (mkToolInput k d true None)) as Ho.
    rewrite call_events_eq in Ho. apply Ho; simpl; [done..| | |by split_and!]; [by rewrite insert_insert_eq|done].
Qed.

Lemma settle_open o v c oc :
  open_calls c !! o = Some oc →
  settle_call o v c
  = mkCalls (<[o := mkOpen (oc_order oc) (oc_id oc) (oc_name oc) (Some v)]> (open_calls c)) (ids c) (finished c).
Proof.
  intros Ho. unfold settle_call. f_equal. apply map_eq. intros o'. destruct (decide (o' = o)) as [->|Hne].
  - by rewrite lookup_alter_eq, Ho, lookup_insert_eq.
  - by rewrite lookup_alter_ne, lookup_insert_ne.
Qed.

Lemma rs_reconcile es s c o k v id name es' s' :
  simulates es s c →
  reconcile_tool_input (HttpError := HttpError) (JsonError := JsonError) s o k v (MetaToolUse id name)
    = (Ok es', s') →
  simulates (es ++ es') s' (settle_call o v (open_call o id name c)).
Proof.
  intros Hsim. unfold reconcile_tool_input.
  destruct (ensure_tool_input_kind s o k) as [[p|e] s1] eqn:He; [|done].
  apply ensure_kind_ok in He as [Hp ->].
  destruct (match final_value p with Some _ => _ | None => _ end); [done|].
  pose proof (rs_linked _ _ _ Hsim o) as Hl. unfold open_call. destruct (open_calls c !! o) as [oc|] eqn:Hoc.
  - destruct Hl as (j & q & Hj & _ & Hq & _ & Hf & Hsaw & _).
    rewrite Hq in Hp. simpl in Hp. subst p. rewrite (settle_open _ _ _ _ Hoc).
    destruct (saw_delta q) eqn:Hsd; simpl.
    + case_bool_decide as Hstr; [|done]. intros [= <- <-].
      apply (rs_more es s c o oc j q (mkToolInput (kind q) (streamed q) true (Some v)) []);
        [done..| | |split_and!]; simpl; [by rewrite insert_insert_eq|by rewrite string_app_nil_r|done..|congruence].
    + unfold ensure_and_delta, get_or_allocate. simpl. rewrite Hj. intros [= <- <-].
      apply (rs_more es s c o oc j q (mkToolInput (kind q) v true (Some v)) [v]);
        [done..| | |split_and!]; simpl; [by rewrite insert_insert_eq|by rewrite Hsaw|done..|congruence].
  - destruct Hl as [Hj Hq]. rewrite Hq in Hp. simpl in Hp. subst p. simpl.
    unfold ensure_and_delta, get_or_allocate. simpl. rewrite Hj. intros [= <- <-].
    rewrite (settle_open o v _ (mkOpen (length (ids c)) id name None)) by apply lookup_insert_eq. simpl.
    rewrite !insert_insert_eq.
    pose proof (rs_open es s c o id name [v] (mkToolInput k v true (Some v))) as Ho.
    rewrite call_events_eq in Ho.
    apply Ho; [done..|split_and!]; simpl; [done..|congruence].
Qed.

(** The final value of a call is settled, or was before. *)
Lemma rs_settle es s c o k id name v es' s' :
  simulates es s c →
  settle_tool_input (HttpError := HttpError) (JsonError := JsonError) s o k (MetaToolUse id name) v
    = (Ok es', s') →
  ∃ oc w, let c' := match v with Some v => settle_call o v (open_call o id name c)
                               | None => open_call o id name c end in
    simulates (es ++ es') s' c' ∧ open_calls c' !! o = Some oc ∧ oc_final oc = Some w.
Proof.
  intros Hsim. destruct v as [v|]; simpl.
  - intros Hr. apply (rs_reconcile _ _ _ _ _ _ _ _ _ _ Hsim) in Hr.
    assert (∃ oc, open_calls (open_call o id name c) !! o = Some oc) as [oc Hoc].
    { unfold open_call. destruct (open_calls c !! o) eqn:Ho; [by eexists|]. simpl. rewrite lookup_insert_eq. by eexists. }
    eexists _, v. split_and!; [done|by rewrite lookup_alter_eq, Hoc|done].
  - destruct (ensure_tool_input_kind s o k) as [[p|e] s1] eqn:He; [|done].
    apply ensure_kind_ok in He as [Hp ->]. destruct (final_value p) as [w|] eqn:Hw; [|done]. intros [= <- <-].
    pose proof (rs_linked _ _ _ Hsim o) as Hl. unfold open_call.
    destruct (open_calls c !! o) as [oc|] eqn:Hoc.
    + destruct Hl as (j & q & Hj & _ & Hq & _ & Hf & _). rewrite Hq in Hp. simpl in Hp. subst p.
      exists oc, w. rewrite app_nil_r. unfold set_tool_inputs. rewrite insert_id by done.
      split_and!; [by destruct s|done|congruence].
    + destruct Hl as [_ Hq]. rewrite Hq in Hp. simpl in Hp. by subst p.
Qed.

Lemma rs_finish es s c c' o k id name v es' s' :
  simulates es s c →
  finish_tool_output_item (HttpError := HttpError) (JsonError := JsonError) s o k id name v = (Ok es', s') →
  done_call o id name v c = Some c' → simulates (es ++ es') s' c'.
Proof.
  intros Hsim. unfold finish_tool_output_item.
  destruct (settle_tool_input _ _ _ _ _) as [[out|e] s1] eqn:Hr; [|done].
  destruct (rs_settle _ _ _ _ _ _ _ _ _ _ Hsim Hr) as (oc & w & Hsim1 & Hoc & Hw).
  unfold done_call, finish_call. rewrite Hoc. simpl. rewrite Hw. simpl.
  pose proof (rs_linked _ _ _ Hsim1 o) as Hl. rewrite Hoc in Hl. destruct Hl as (j & _ & Hj & _).
  unfold get_or_allocate. rewrite Hj. intros [= <- <-] [= <-]. rewrite app_nil_r, app_assoc.
  exact (rs_stop _ _ _ _ _ _ _ Hsim1 Hoc Hw Hj).
Qed.

Lemma remove_slots_other keys key : ∀ m,
  key ∉ keys → (remove_slots keys m).2 !! key = m !! key.
Proof.
  induction keys as [|k keys IH]; intros m Hk; [done|]. simpl.
  apply not_elem_of_cons in Hk as [Hne Hk]. specialize (IH (delete k m) Hk).
  destruct (remove_slots keys (delete k m)). simpl in *. by rewrite IH, lookup_delete_ne.
Qed.

Lemma active_keys o s :
  Forall (λ key, match key with ContentPartSlot _ _ => True | _ => False end)
    (snd <$> ProviderHistory.sort_by_key Nat.leb fst (omap (active_reasoning o) (map_to_list (slots s)))).
Proof.
  apply Forall_fmap. rewrite (ProviderHistory.sort_by_perm Nat.leb fst). apply Forall_forall.
  intros [content key] ([[] i] & _ & Hin)%list_elem_of_omap; simpl in Hin; [done| |done].
  destruct (_ && _); by simplify_eq.
Qed.

Lemma take_active_other s o infos s' :
  take_active_reasoning_slots s o = (infos, s') → typed s →
  (∀ o', slots s' !! OutputItemSlot o' = slots s !! OutputItemSlot o')
  ∧ pending_tool_inputs s' = pending_tool_inputs s ∧ next_index s' = next_index s
  ∧ typed s' ∧ Forall (λ i, slot_type i ≠ ToolUseBlock) infos.
Proof.
  unfold take_active_reasoning_slots. pose proof (active_keys o s) as Hk. rewrite Forall_forall in Hk.
  set (keys := snd <$> _) in *. intros Heq Ht. destruct (typed_remove keys s Ht) as [Ht' Hf].
  assert (∀ o', (remove_slots keys (slots s)).2 !! OutputItemSlot o' = slots s !! OutputItemSlot o') as Hs.
  { intros o'. apply remove_slots_other. intros Hin. by apply (Hk _ Hin). }
  destruct (remove_slots keys (slots s)) as [infos' m]. injection Heq as <- <-. simpl in *.
  split_and!; [done..|]. apply Hf. intros key Hin. specialize (Hk _ Hin). by destruct key.
Qed.

Lemma stop_blocks_quiet infos r :
  Forall (λ i, slot_type i ≠ ToolUseBlock) infos → Forall (λ e, about_call e = None) (stop_blocks infos r).
Proof.
  assert (∀ i q, slot_type i ≠ ToolUseBlock → about_call (stop_slot q i) = None) as Hq
    by (by intros [? []]).
  induction 1 as [|i infos Hi _ IH]; [constructor|]. destruct infos as [|j infos].
  - by repeat constructor; apply Hq.
  - constructor; [by apply Hq|done].
Qed.

Lemma rs_finish_reasoning es s c o id enc :
  simulates es s c → typed s → open_calls c !! o = None →
  simulates (es ++ (finish_reasoning s o id enc).1) (finish_reasoning s o id enc).2 c
  ∧ typed (finish_reasoning s o id enc).2.
Proof.
  intros Hsim Ht Hnone. pose proof (rs_linked _ _ _ Hsim o) as Hl. rewrite Hnone in Hl. destruct Hl as [Hslot _].
  assert (Forall (λ i, slot_type i ≠ ToolUseBlock)
            (deferred_thinking_stops (default pending_default (pending_reasoning s !! o)))) as Hd.
  { destruct (pending_reasoning s !! o) eqn:Hp; simpl; [by eapply typed_deferred|constructor]. }
  assert (typed (set_reasoning s (delete o (pending_reasoning s)))) as Ht0.
  { split; [apply Ht|]. intros o' p. simpl. intros [_ Hp]%lookup_delete_Some. by eapply typed_deferred. }
  unfold finish_reasoning. destruct (take_active_reasoning_slots _ o) as [active s1] eqn:Hact.
  destruct (take_active_other _ _ _ _ Hact Ht0) as (Hs & Hp & Hn & Ht1 & Ha). simpl in Hs, Hp, Hn. simpl.
  pose proof (Forall_app_2 _ _ _ Hd Ha) as Hall.
  destruct (deferred_thinking_stops _ ++ active) as [|info infos]; simpl; split.
  - apply (rs_quiet _ _ _ _ _ Hsim); simpl; [by repeat constructor| |done|lia].
    intros o'. destruct (decide (o' = o)) as [->|Hne]; [by rewrite lookup_delete_eq, Hslot|].
    rewrite lookup_delete_ne, lookup_insert_ne by congruence. apply Hs.
  - by apply (typed_delete (allocate s1 (OutputItemSlot o) ThinkingBlock).2), typed_allocate.
  - apply (rs_quiet _ _ _ _ _ Hsim); [|done|done|lia]. by apply (stop_blocks_quiet (info :: infos)).
  - done.
Qed.

Lemma ensure_quiet es s c key t m d :
  simulates es s c → typed s → (∀ o, key ≠ OutputItemSlot o) → t ≠ ToolUseBlock →
  about_call (BlockDelta 0 d) = None →
  let r := ensure_and_delta s key t m d in simulates (es ++ r.1) r.2 c ∧ typed r.2.
Proof.
  intros Hsim Ht Hk Htype Hd r. split; [|apply typed_ensure; [done|by destruct key]]. unfold r, ensure_and_delta, get_or_allocate.
  assert (∀ i, about_call (BlockDelta i d) = None) as Hd' by (by destruct d).
  destruct (slots s !! key); apply (rs_quiet _ _ _ _ _ Hsim); simpl; try done; try lia.
  - by repeat constructor.
  - constructor; [by destruct t|]. by repeat constructor.
  - intros o. by rewrite lookup_insert_ne.
Qed.

Lemma allocate_quiet es s c key t m :
  simulates es s c → typed s → (∀ o, key ≠ OutputItemSlot o) → t ≠ ToolUseBlock →
  simulates (es ++ [BlockStart (next_index s) t m]) (allocate s key t).2 c ∧ typed (allocate s key t).2.
Proof.
  intros Hsim Ht Hk Htype. split; [|apply typed_allocate; [done|by destruct key]].
  apply (rs_quiet _ _ _ _ _ Hsim); simpl; [|by intros o; rewrite lookup_insert_ne|done|lia].
  constructor; [by destruct t|constructor].
Qed.

Lemma close_quiet es s c key :
  simulates es s c → typed s → (∀ o, key = OutputItemSlot o → open_calls c !! o = None) →
  simulates (es ++ (close_slot s key).1) (close_slot s key).2 c ∧ typed (close_slot s key).2.
Proof.
  intros Hsim Ht Hk. split; [|by apply typed_close]. unfold close_slot.
  destruct (slots s !! key) as [info|] eqn:Hi; [|by rewrite app_nil_r].
  assert (∀ o, key ≠ OutputItemSlot o) as Hne.
  { intros o ->. pose proof (rs_linked _ _ _ Hsim o) as Hl. rewrite Hk in Hl by done. destruct Hl. congruence. }
  apply (rs_quiet _ _ _ _ _ Hsim); simpl; [|by intros o; rewrite lookup_delete_ne|done|lia].
  apply (typed_slots _ Ht) in Hi. constructor; [|constructor].
  destruct key as [o| |]; [by destruct (Hne o)|..]; by destruct info as [? []].
Qed.

Lemma reasoning_quiet es s c o f :
  simulates es s c → simulates es (on_reasoning s o f) c.
Proof. intros Hsim. rewrite <-(app_nil_r es). by apply (rs_quiet _ _ _ _ _ Hsim). Qed.

Lemma rs_handle (scheme : OpenAIResponsesScheme Json) w es s c es' s' c' :
  simulates es s c → typed s →
  handle (HttpError := HttpError) (JsonError := JsonError) scheme w s = Some (Ok es', s') →
  call_step w c = Some c' → simulates (es ++ es') s' c' ∧ typed s'.
Proof.
  intros Hsim Ht.
  destruct w as [|[u|]|ty ev|o [|id enc|id name v|id name v|]|o [|id enc|id name v|id name v|]
                 |o c0 []|o c0 part|o c0 d|o c0 d|o i|o i d|o i|k o d|k o v|ev|ty data]; simpl;
    intros Hh Hc; try (injection Hc as <-).
  all: try (injection Hh as <- <-); try (injection Hh as Hh).
  all: try (split; [apply (rs_quiet _ _ _ _ _ Hsim); [by repeat constructor|done..]|done]).
  all: try (split; [by eapply rs_start|by eapply typed_start]).
  all: try (split; [by eapply rs_finish|by eapply typed_finish]).
  all: try (destruct (open_calls c !! o) eqn:Ho; [done|]; injection Hc as <-).
  all: try first
    [ by apply close_quiet; [..|intros ? [= <-]] | by apply rs_finish_reasoning
    | by apply (allocate_quiet _ _ _ (ContentPartSlot o c0)) | by apply (allocate_quiet _ _ _ (SummarySlot o i))
    | by apply ensure_quiet
    | split; [by eapply rs_record|by eapply typed_record]
    | split; [by eapply rs_reconcile|by eapply typed_reconcile] ].
  - destruct (convert_usage _ _); [|done]. injection Hh as <- <-. split; [|done].
    apply (rs_quiet _ _ _ _ _ Hsim); [by repeat constructor|done..].
  - rewrite app_nil_r. split; [by apply reasoning_quiet|by apply typed_reasoning].
  - destruct (slots s !! ContentPartSlot o c0) as [info|] eqn:Hs;
      [|injection Hh as <- <-; by rewrite app_nil_r].
    destruct (_ || _); injection Hh as <- <-; [|by apply close_quiet].
    apply (typed_slots _ Ht) in Hs. rewrite app_nil_r. unfold defer_reasoning_stop. split.
    + apply reasoning_quiet. rewrite <-(app_nil_r es).
      by apply (rs_quiet _ _ _ _ _ Hsim); simpl; [..|intros; rewrite lookup_delete_ne| |].
    + apply typed_reasoning; [by apply typed_delete|]. intros p Hp. simpl. apply Forall_app.
      split; [done|by apply Forall_singleton].
  - apply ensure_quiet; [by apply reasoning_quiet|by apply typed_reasoning|done..].
  - unfold extend_reasoning_summary in Hh. destruct (push_summary _ _ _) as [l|]; [|done].
    injection Hh as <- <-. apply ensure_quiet; [by apply reasoning_quiet|by apply typed_reasoning|done..].
Qed.

Lemma rs_run (scheme : OpenAIResponsesScheme Json) fs : ∀ ws es0 s0 c0 es s c,
  simulates es0 s0 c0 → typed s0 →
  (λ f, wire (HttpError := HttpError) (JsonError := JsonError) scheme (f_event f) (f_data f)) <$> fs
    = Ok <$> ws →
  run (HttpError := HttpError) (JsonError := JsonError) scheme fs s0 = Some (es, s) →
  calls_of ws c0 = Some c → simulates (es0 ++ es) s c.
Proof.
  induction fs as [|f fs IH]; intros [|w ws] es0 s0 c0 es s c Hsim Ht; try done; simpl.
  - intros _ [= <- <-] [= <-]. by rewrite app_nil_r.
  - intros [= Hw Hws]. unfold parse_sse. rewrite Hw.
    destruct (handle scheme w s0) as [[[es1|e] s1]|] eqn:Hh; simpl; [|done..].
    destruct (run scheme fs s1) as [[es2 s2]|] eqn:Hr; simpl; [|done]. intros [= <- <-].
    destruct (call_step w c0) as [c1|] eqn:Hc; simpl; [|done]. intros Hcs.
    destruct (rs_handle _ _ _ _ _ _ _ _ Hsim Ht Hh Hc) as [Hsim1 Ht1].
    rewrite app_assoc. by eapply IH.
Qed.

Lemma rs_init : simulates [] responses_start no_calls ∧ typed responses_start.
Proof.
  split; [|by split]. split; try done.
Qed.

(** No block of a call is open once every call is finished. *)
Lemma rs_closed es s c : simulates es s c → open_calls c = ∅ → ∀ k, block_after k es = None.
Proof.
  intros Hsim Hempty k. destruct (block_after k es) eqn:Hb; [|done].
  destruct (rs_blocks _ _ _ Hsim k) as (o & t & Ho); [congruence|].
  pose proof (rs_linked _ _ _ Hsim o) as Hl. rewrite Hempty, lookup_empty in Hl. destruct Hl. congruence.
Qed.

(** The promise of the scheme to the engine. *)
Lemma responses_tidy (scheme : OpenAIResponsesScheme Json) fs ws es s c :
  (λ f, wire (HttpError := HttpError) (JsonError := JsonError) scheme (f_event f) (f_data f)) <$> fs
    = Ok <$> ws →
  run (HttpError := HttpError) (JsonError := JsonError) scheme fs responses_start = Some (es, s) →
  calls_of ws no_calls = Some c → open_calls c = ∅ → NoDup (ids c) → tidy_stream es.
Proof.
  intros Hw Hr Hc Hempty Hnd. destruct rs_init as [Hsim Ht].
  pose proof (rs_run _ _ _ _ _ _ _ _ _ Hsim Ht Hw Hr Hc) as Hend. simpl in Hend.
  split; [by rewrite (rs_ids _ _ _ Hend)|by eapply rs_closed].
Qed.

(** C9.  Tool calls are executed with the input the provider declared final.  When a response is
    read to its end and no other item is finished at the output of an open call, the calls the
    engine collects are those its items state, in the order they were finished, each with the
    id and name of the frame that opened it and with its authoritative input: fragments that add
    up to anything else have been refused.  No block is left open once every call is finished. *)
Theorem responses_calls_exact (scheme : OpenAIResponsesScheme Json) (fs : list Frame)
    (ws : list (WireEvent Json)) (es : list Event) (s : OpenAIResponsesState) (c : Calls) :
  (λ f, wire (HttpError := HttpError) (JsonError := JsonError) scheme (f_event f) (f_data f)) <$> fs
    = Ok <$> ws →
  run (HttpError := HttpError) (JsonError := JsonError) scheme fs responses_start = Some (es, s) →
  calls_of ws no_calls = Some c →
  (∃ t, dispatch_all sj timeline_new es = Some t
     ∧ (take_calls t).1
       = (λ x, (x.1, mkCall x.2.1.1 x.2.1.2 (parse_input sj x.2.2))) <$> finished c)
  ∧ start_ids es = ids c
  ∧ (open_calls c = ∅ → ∀ k, block_after k es = None).
Proof.
  intros Hw Hr Hc. destruct rs_init as [Hsim Ht].
  pose proof (rs_run _ _ _ _ _ _ _ _ _ Hsim Ht Hw Hr Hc) as Hend. simpl in Hend. split_and!.
  - destruct (dispatch_all_reads sj [] es [] timeline_new) as (t & Hd & R); [by split|].
    exists t. split; [done|]. pose proof (rd_collected _ _ _ _ R) as Hcol. simpl in Hcol. simpl.
    by rewrite Hcol, (rs_completed _ _ _ Hend).
  - apply (rs_ids _ _ _ Hend).
  - by eapply rs_closed.
Qed.

End calls.

(** ** Examples *)

(** Two calls whose frames interleave, one streamed and one given at its end, and a reasoning
    item whose part is done before it; the data of a frame says which. *)
Definition example_responses : OpenAIResponsesScheme string :=
  let output data := if bool_decide (data = "0") then 0%nat else if bool_decide (data = "1") then 1%nat else 2%nat in
  mkResponses true (λ _, Ok None) (λ _, Err "-")
    (λ data, Ok (output data, if bool_decide (data = "0") then FunctionCallItem "a" "Read" None
                              else if bool_decide (data = "1") then CustomToolCallItem "b" "Edit" None
                              else ReasoningItem (Some "r") None))
    (λ data, Ok (output data, if bool_decide (data = "0") then FunctionCallItem "a" "Read" (Some "{}")
                              else if bool_decide (data = "1") then CustomToolCallItem "b" "Edit" (Some "[]")
                              else ReasoningItem None (Some "enc")))
    (λ _, Ok (2%nat, 0%nat, ReasoningText)) (λ _, Ok (2%nat, 0%nat, ReasoningText))
    (λ _, Err "-") (λ _, Ok (2%nat, 0%nat, "Hm."))
    (λ _, Err "-") (λ _, Err "-") (λ _, Err "-")
    (λ data, Ok (0%nat, data)) (λ _, Err "-") (λ _, Err "-") (λ _, Err "-") (λ _, Err "-") (λ _, Err "-")
    (λ s, s) (λ _, "{}") (λ _ _, None) Some (λ s, s).

Definition example_frames : list Frame :=
  [mkFrame "response.created" "-"; mkFrame "response.output_item.added" "2";
   mkFrame "response.content_part.added" "2"; mkFrame "response.output_item.added" "0";
   mkFrame "response.reasoning_text.delta" "2"; mkFrame "response.function_call_arguments.delta" "{";
   mkFrame "response.content_part.done" "2"; mkFrame "response.output_item.done" "1";
   mkFrame "response.function_call_arguments.delta" "}"; mkFrame "response.output_item.done" "2";
   mkFrame "response.output_item.done" "0"; mkFrame "response.completed" "-"].

Lemma responses_blocks_follow_witness :
  ∃ es s open,
    run (HttpError := unit) (JsonError := unit) example_responses example_frames responses_start = Some (es, s)
    ∧ follow (0%nat, ∅) es = Some (next_index s, open) ∧ next_index s = 3%nat ∧ length es = 12%nat.
Proof.
  destruct (run (HttpError := unit) (JsonError := unit) example_responses example_frames responses_start)
    as [[es s]|] eqn:Hr; [|vm_compute in Hr; discriminate Hr].
  destruct (responses_blocks_follow example_responses example_frames es s Hr) as [open Ho].
  exists es, s, open. split; [reflexivity|]. split; [exact Ho|].
  vm_compute in Hr. injection Hr as <- <-. split; reflexivity.
Defined.

Lemma responses_calls_exact_witness :
  ∃ ws es s c,
    run (HttpError := unit) (JsonError := unit) example_responses example_frames responses_start = Some (es, s)
    ∧ calls_of (Json := string) ws no_calls = Some c
    ∧ ∃ t, dispatch_all text_json timeline_new es = Some t
        ∧ (take_calls t).1 = [(1%nat, mkCall "b" "Edit" "[]"); (0%nat, mkCall "a" "Read" "{}")].
Proof.
  destruct (run (HttpError := unit) (JsonError := unit) example_responses example_frames responses_start)
    as [[es s]|] eqn:Hr; [|vm_compute in Hr; discriminate Hr].
  pose (ws := omap (λ f, match wire (HttpError := unit) (JsonError := unit) example_responses (f_event f) (f_data f)
                         with Ok w => Some w | Err _ => None end) example_frames).
  destruct (calls_of ws no_calls) as [c|] eqn:Hc; [|vm_compute in Hc; discriminate Hc].
  destruct (responses_calls_exact (HttpError := unit) (JsonError := unit) text_json example_responses example_frames ws es s c)
    as [(t & Hd & Ht) _]; [vm_compute; reflexivity|exact Hr|exact Hc|].
  exists ws, es, s, c. split; [reflexivity|]. split; [exact Hc|]. exists t. split; [exact Hd|].
  rewrite Ht. vm_compute in Hc. injection Hc as <-. reflexivity.
Defined.

(** Why no other item may be done at the output of an open call: an item of another type closes
    the block of the call, which is then collected with the fragments so far, although no frame
    has declared them final. *)
Theorem other_item_ends_call {Json} (scheme : OpenAIResponsesScheme Json) :
  ∃ es1 s1 es2 s2 es3 s3 t,
    handle (HttpError := unit) (JsonError := unit) scheme (WItemAdded 0 (FunctionCallItem "a" "Delete" None))
      responses_start = Some (Ok es1, s1)
    ∧ handle (HttpError := unit) (JsonError := unit) scheme (WToolDelta FunctionCallInput 0 "/home") s1 = Some (Ok es2, s2)
    ∧ handle (HttpError := unit) (JsonError := unit) scheme (WItemDone 0 OtherItem) s2 = Some (Ok es3, s3)
    ∧ dispatch_all text_json timeline_new (es1 ++ es2 ++ es3) = Some t
    ∧ (take_calls t).1 = [(0%nat, mkCall "a" "Delete" "/home")].
Proof.
  do 7 eexists. split; [vm_compute; reflexivity|]. split; [vm_compute; reflexivity|].
  split; [vm_compute; reflexivity|]. split; vm_compute; reflexivity.
Qed.

(** A summary index that no memory can hold makes the parser panic: the vector of summaries is
    resized to whatever index the provider sends. *)
Theorem summary_index_panics {Json} (scheme : OpenAIResponsesScheme Json) (o : nat) :
  handle (HttpError := unit) (JsonError := unit) scheme (WSummaryDelta o (Z.to_nat (2 ^ 60)) "x") responses_start
  = None.
Proof.
  unfold handle, extend_reasoning_summary, responses_start. cbn [pending_reasoning]. rewrite lookup_empty.
  cbn [default pr_summary pending_default]. unfold push_summary. rewrite Z2Nat.id by lia. cbn [length].
  by replace (0 <=? Z.to_nat (2 ^ 60))%nat with true.
Qed.

End OpenAIResponses.
