(* ===== verification/EngineCore.v ===== *)
(** * The core of the engine

    What the tool execution and the turn loop of [src/crates/agen/src/engine.rs] share: the
    actions of [src/crates/agen/src/interceptor.rs], the errors of a run, the engine's state,
    appends to the history, interruptible policies, the fence of execution attempts, and
    the commit of one tool result.

    The environment of the engine (host callbacks, interceptor, tools, signals, timers) is a
    record of functions of a clock that advances with every question: it may answer anything
    at any time.  A wait of the source ends when something the environment offers is there, so
    a run the environment never wakes has no counterpart. *)
From Stdlib Require Import ZArith String List Lia.
From stdpp Require Import base tactics numbers list strings gmap sets.
From S2P Require Import Prelude Conversation ImageRecovery ProviderHistory Tool Timeline.

Module EngineCore.
Import Tool.
Import ImageRecovery(HistoryEntry, mkEntry, item, annotation).
Import Timeline(Timeline).

Abbreviation Item := Conversation.Item.

(** ** Interceptors *)

Inductive InterceptorErrorCategory := Policy | Dependency | ContractViolation | InternalFailure.

Record InterceptorError := mkInterceptorError {
  category : InterceptorErrorCategory;
  diagnostic : string
}.

Definition MAX_INTERCEPTOR_DIAGNOSTIC_BYTES : nat := Z.to_nat 1024.

(** [InterceptorError::new]. *)
Definition interceptor_error_new (c : InterceptorErrorCategory) (diagnostic : string)
  : InterceptorError :=
  mkInterceptorError c
    (if (MAX_INTERCEPTOR_DIAGNOSTIC_BYTES <? String.length diagnostic)%nat
     then String.substring 0 (floor_boundary diagnostic MAX_INTERCEPTOR_DIAGNOSTIC_BYTES)
            diagnostic
     else diagnostic).

Inductive InterceptorPhase :=
| PromptSubmit | PendingHistoryAppends | PreLlmRequest | PreToolCall | PostToolCall
| AssistantTurnEnd | RunExit.

Inductive PromptAction :=
| PromptContinue | PromptCancel (reason : string) | PromptContinueWith (items : list Item).

Inductive PreRequestAction :=
| RequestContinue
| RequestContinueWith (items : list Item)
| YieldWith (items : list Item)
| RequestCancel (reason : string)
| Yield.

Inductive PreToolAction :=
| Continue | Skip | SyntheticResult (r : ToolResult) | Abort (reason : string) | Pause.

Inductive PostToolAction := PostContinue | PostAbort (reason : string).

Inductive TurnEndAction :=
| Finish | ContinueWithMessages (items : list Item) | TurnPause.

(** ** Errors and results of a run *)

(** The variants of [EngineError] that are not errors of the provider or of an append. *)
Inductive EngineFailure :=
| ToolFailure (e : ToolError)
| Aborted (reason : string)
| Cancelled
| PauseRequested
| ConfigWarnings (warnings : list string)
| Interceptor (phase : InterceptorPhase) (e : InterceptorError)
| ToolAttemptFence (message : string).

Inductive EngineResult := Finished | Paused | LimitReached | Yielded.

Inductive ToolExecutionResult := ToolsCompleted | ToolsPaused.

(** [PostToolPolicyWait]; the deadline itself is kept by the environment. *)
Inductive PostToolPolicyWait := SkipPolicy | Interruptible | UntilPauseSafeBoundary.

Definition for_pause_deadline (deadline : bool) : PostToolPolicyWait :=
  if deadline then UntilPauseSafeBoundary else Interruptible.

Section engine.
Context {A Json HttpError JsonError : Type}.

Definition EngineError : Type := ImageRecovery.EngineError HttpError JsonError EngineFailure.
Abbreviation ClientError := (ImageRecovery.ClientError HttpError JsonError).

Definition fail_with (f : EngineFailure) : EngineError := ImageRecovery.OtherEngineError f.

Inductive RunInterruptionReason :=
| RunLimitReached | RunContextWindowExceeded | RunCancelled | Unexpected (e : EngineError).

Inductive EngineRunExit :=
| ExitFinished | ExitPaused | ExitYielded | ExitInterrupted (r : RunInterruptionReason).

(** [From<Result<EngineResult, EngineError>> for EngineRunExit]. *)
Definition run_exit (r : result EngineResult EngineError) : EngineRunExit :=
  match r with
  | Ok Finished => ExitFinished
  | Ok Paused => ExitPaused
  | Ok Yielded => ExitYielded
  | Ok LimitReached => ExitInterrupted RunLimitReached
  | Err (ImageRecovery.Client ImageRecovery.ContextWindowExceeded) =>
      ExitInterrupted RunContextWindowExceeded
  | Err (ImageRecovery.OtherEngineError Cancelled) => ExitInterrupted RunCancelled
  | Err (ImageRecovery.OtherEngineError PauseRequested) => ExitPaused
  | Err error => ExitInterrupted (Unexpected error)
  end.

(** ** The environment *)

Record Env := mkEnv {
  history_append_cbs : list (nat → Item → result unit string);
  annotate : nat → Item → result A string;
  logical_tool_call_id : A → option string;
  (** [tool_server.get_tool(name).is_some()]. *)
  get_tool : nat → string → bool;
  (** The action, and the call and context the interceptor leaves behind. *)
  pre_tool_call : nat → ToolCall Json → ToolExecutionContext →
    result (PreToolAction * ToolCall Json * ToolExecutionContext) InterceptorError;
  post_tool_call : nat → ToolCall Json → ToolResult → result PostToolAction InterceptorError;
  tool_output_limits : option ToolOutputLimits;
  serde_json : Serde Json;
  (** Cancel and pause requests that have arrived. *)
  signals : nat → bool * bool;
  (** Whether a task is ready, which one completes next, and with what outcome. *)
  ready : nat → bool;
  completes : nat → nat * ToolExecutionTerminal;
  (** Whether the deadline that is waited for has passed. *)
  deadline_passed : nat → bool
}.

(** ** The state *)

(** What a run does that others can see, in order. *)
Inductive Effect :=
| Committed (i : Item)
| Rejected (i : Item)
| Decided (call_id : string) (action : PreToolAction)
| Started (call_id attempt_id : string) (logical_call_id : option string)
| Published (r : ToolResult)
| CancelRequested (call_ids : gset string)
| ForceClosed (call_id : string)
| Requested (history request : list Item).

Record ToolExecutionAttempt := mkAttempt { attempt_id : string; terminal : bool }.

(** A task of [FuturesUnordered]: its result is fixed when there is no tool to run. *)
Record Task := mkTask {
  t_call_id : string;
  t_attempt_id : string;
  t_fixed : option ToolResult
}.

(** [EarlyToolExecutionBatch], and the same variables of [execute_tools].  Of the handles, the
    calls that have one; of a call's information, the call and its context. *)
Record Batch := mkBatch {
  batch_id : string;
  calls : list (nat * ToolCall Json);
  seen_call_ids : gset string;
  call_info_map : gmap string (ToolCall Json * ToolExecutionContext);
  started_calls : list (string * string);
  attempt_fence : gmap string ToolExecutionAttempt;
  futures : list Task;
  execution_handles : gset string;
  synthetic_results : list ToolResult;
  terminal_call_ids : gset string;
  dispatched_any : bool
}.

Definition batch_new (batch_id : string) : Batch :=
  mkBatch batch_id [] ∅ ∅ [] ∅ [] ∅ [] ∅ false.

(** The engine and the caller's history; [batch] is the one being executed. *)
Record State := mkState {
  entries : list (HistoryEntry A);
  cancel_rx : bool;
  pause_rx : bool;
  clock : nat;
  turn_count : nat;
  active_run_turn_count : option nat;
  llm_call_count : nat;
  tool_execution_batch_count : nat;
  batch : Batch;
  timeline : Timeline Json;
  trace : list Effect
}.

(** Assignments to fields. *)
Definition set_calls (b : Batch) (x : list (nat * ToolCall Json)) : Batch :=
  mkBatch (batch_id b) x (seen_call_ids b) (call_info_map b) (started_calls b) (attempt_fence b)
    (futures b) (execution_handles b) (synthetic_results b) (terminal_call_ids b)
    (dispatched_any b).
Definition set_seen_call_ids (b : Batch) (x : gset string) : Batch :=
  mkBatch (batch_id b) (calls b) x (call_info_map b) (started_calls b) (attempt_fence b)
    (futures b) (execution_handles b) (synthetic_results b) (terminal_call_ids b)
    (dispatched_any b).
Definition set_call_info_map (b : Batch) (x : gmap string (ToolCall Json *
    ToolExecutionContext)) : Batch :=
  mkBatch (batch_id b) (calls b) (seen_call_ids b) x (started_calls b) (attempt_fence b)
    (futures b) (execution_handles b) (synthetic_results b) (terminal_call_ids b)
    (dispatched_any b).
Definition set_started_calls (b : Batch) (x : list (string * string)) : Batch :=
  mkBatch (batch_id b) (calls b) (seen_call_ids b) (call_info_map b) x (attempt_fence b)
    (futures b) (execution_handles b) (synthetic_results b) (terminal_call_ids b)
    (dispatched_any b).
Definition set_attempt_fence (b : Batch) (x : gmap string ToolExecutionAttempt) : Batch :=
  mkBatch (batch_id b) (calls b) (seen_call_ids b) (call_info_map b) (started_calls b) x
    (futures b) (execution_handles b) (synthetic_results b) (terminal_call_ids b)
    (dispatched_any b).
Definition set_futures (b : Batch) (x : list Task) : Batch :=
  mkBatch (batch_id b) (calls b) (seen_call_ids b) (call_info_map b) (started_calls b)
    (attempt_fence b) x (execution_handles b) (synthetic_results b) (terminal_call_ids b)
    (dispatched_any b).
Definition set_execution_handles (b : Batch) (x : gset string) : Batch :=
  mkBatch (batch_id b) (calls b) (seen_call_ids b) (call_info_map b) (started_calls b)
    (attempt_fence b) (futures b) x (synthetic_results b) (terminal_call_ids b) (dispatched_any
    b).
Definition set_synthetic_results (b : Batch) (x : list ToolResult) : Batch :=
  mkBatch (batch_id b) (calls b) (seen_call_ids b) (call_info_map b) (started_calls b)
    (attempt_fence b) (futures b) (execution_handles b) x (terminal_call_ids b) (dispatched_any
    b).
Definition set_terminal_call_ids (b : Batch) (x : gset string) : Batch :=
  mkBatch (batch_id b) (calls b) (seen_call_ids b) (call_info_map b) (started_calls b)
    (attempt_fence b) (futures b) (execution_handles b) (synthetic_results b) x (dispatched_any
    b).
Definition set_dispatched_any (b : Batch) (x : bool) : Batch :=
  mkBatch (batch_id b) (calls b) (seen_call_ids b) (call_info_map b) (started_calls b)
    (attempt_fence b) (futures b) (execution_handles b) (synthetic_results b) (terminal_call_ids
    b) x.

Definition set_entries (w : State) (x : list (HistoryEntry A)) : State :=
  mkState x (cancel_rx w) (pause_rx w) (clock w) (turn_count w) (active_run_turn_count w)
    (llm_call_count w) (tool_execution_batch_count w) (batch w) (timeline w) (trace w).
Definition set_cancel_rx (w : State) (x : bool) : State :=
  mkState (entries w) x (pause_rx w) (clock w) (turn_count w) (active_run_turn_count w)
    (llm_call_count w) (tool_execution_batch_count w) (batch w) (timeline w) (trace w).
Definition set_pause_rx (w : State) (x : bool) : State :=
  mkState (entries w) (cancel_rx w) x (clock w) (turn_count w) (active_run_turn_count w)
    (llm_call_count w) (tool_execution_batch_count w) (batch w) (timeline w) (trace w).
Definition set_clock (w : State) (x : nat) : State :=
  mkState (entries w) (cancel_rx w) (pause_rx w) x (turn_count w) (active_run_turn_count w)
    (llm_call_count w) (tool_execution_batch_count w) (batch w) (timeline w) (trace w).
Definition set_turn_count (w : State) (x : nat) : State :=
  mkState (entries w) (cancel_rx w) (pause_rx w) (clock w) x (active_run_turn_count w)
    (llm_call_count w) (tool_execution_batch_count w) (batch w) (timeline w) (trace w).
Definition set_active_run_turn_count (w : State) (x : option nat) : State :=
  mkState (entries w) (cancel_rx w) (pause_rx w) (clock w) (turn_count w) x (llm_call_count w)
    (tool_execution_batch_count w) (batch w) (timeline w) (trace w).
Definition set_llm_call_count (w : State) (x : nat) : State :=
  mkState (entries w) (cancel_rx w) (pause_rx w) (clock w) (turn_count w)
    (active_run_turn_count w) x (tool_execution_batch_count w) (batch w) (timeline w) (trace w).
Definition set_tool_execution_batch_count (w : State) (x : nat) : State :=
  mkState (entries w) (cancel_rx w) (pause_rx w) (clock w) (turn_count w)
    (active_run_turn_count w) (llm_call_count w) x (batch w) (timeline w) (trace w).
Definition set_batch (w : State) (x : Batch) : State :=
  mkState (entries w) (cancel_rx w) (pause_rx w) (clock w) (turn_count w)
    (active_run_turn_count w) (llm_call_count w) (tool_execution_batch_count w) x (timeline w)
    (trace w).
Definition set_timeline (w : State) (x : Timeline Json) : State :=
  mkState (entries w) (cancel_rx w) (pause_rx w) (clock w) (turn_count w)
    (active_run_turn_count w) (llm_call_count w) (tool_execution_batch_count w) (batch w) x
    (trace w).
Definition set_trace (w : State) (x : list Effect) : State :=
  mkState (entries w) (cancel_rx w) (pause_rx w) (clock w) (turn_count w)
    (active_run_turn_count w) (llm_call_count w) (tool_execution_batch_count w) (batch w)
    (timeline w) x.

End engine.
Arguments Env : clear implicits.
Arguments State : clear implicits.
Arguments Batch : clear implicits.
Arguments EngineError : clear implicits.

(** ** Fallible operations on the state

    The result of an operation and the state it leaves; [None] stands for a panic or for fuel
    that ran out. *)
Section monad.
Context {A Json HttpError JsonError : Type}.
Abbreviation State := (State A Json).
Abbreviation EngineError := (EngineError HttpError JsonError).

Definition M (X : Type) : Type := State → option (result X EngineError * State).

Definition ret {X} (x : X) : M X := λ w, Some (Ok x, w).
Definition throw {X} (e : EngineError) : M X := λ w, Some (Err e, w).
Definition fail {X} (f : EngineFailure) : M X := throw (fail_with f).

Definition bind {X Y} (m : M X) (k : X → M Y) : M Y := λ w,
  match m w with
  | Some (Ok x, w') => k x w'
  | Some (Err e, w') => Some (Err e, w')
  | None => None
  end.

(** The result of an operation as a value, for code that matches on it. *)
Definition attempt {X} (m : M X) : M (result X EngineError) := λ w,
  match m w with Some (r, w') => Some (Ok r, w') | None => None end.

Definition of_result {X} (r : result X EngineError) : M X := λ w, Some (r, w).

Definition get : M State := λ w, Some (Ok w, w).
Definition put (w : State) : M unit := λ _, Some (Ok tt, w).
Definition panic {X} : M X := λ _, None.

End monad.

Notation "'let!' x ':=' c 'in' k" := (bind c (λ x, k))
  (at level 10, x pattern, c at level 100, k at level 200) : rust_scope.

Section operations.
Context {A Json HttpError JsonError : Type} (env : Env A Json).
Abbreviation State := (State A Json).
Abbreviation Batch := (Batch Json).
Abbreviation EngineError := (EngineError HttpError JsonError).
Abbreviation M := (@M A Json HttpError JsonError).

Definition modify (f : State → State) : M unit := λ w, Some (Ok tt, f w).
Definition modify_batch (f : Batch → Batch) : M unit := modify (λ w, set_batch w (f (batch w))).
Definition emit (e : Effect) : M unit := modify (λ w, set_trace w (trace w ++ [e])).

(** Time passes, and requests to cancel or pause may arrive; a channel holds one. *)
Definition tick (w : State) : State :=
  set_clock
    (set_pause_rx
      (set_cancel_rx w (cancel_rx w || (signals env (clock w)).1))
      (pause_rx w || (signals env (clock w)).2))
    (S (clock w)).

(** A question to the environment. *)
Definition ask {X} (q : nat → X) : M X := λ w, let w := tick w in Some (Ok (q (clock w)), w).

(** ** The timeline of the engine *)

Definition with_timeline (f : Timeline Json → option (Timeline Json)) : M unit := λ w,
  t ← f (timeline w); Some (Ok tt, set_timeline w t).

Definition abort_block : M unit := with_timeline (Timeline.abort_current_block (serde_json env)).

(** ** History *)

Fixpoint emit_history_append (cbs : list (nat → Item → result unit string)) (i : Item)
  : M unit :=
  match cbs with
  | [] => ret tt
  | cb :: cbs =>
      let! r := ask (λ now, cb now i) in
      match r with
      | Ok _ => emit_history_append cbs i
      | Err e => throw (ImageRecovery.HistoryAppend e)
      end
  end.

(** One round of [append_history_items]; an item that is refused leaves a trace. *)
Definition append_history_item (i : Item) : M unit :=
  let! r := attempt (
    let! _ := emit_history_append (history_append_cbs env) i in
    let! a := ask (λ now, annotate env now i) in
    match a with
    | Ok a => modify (λ w, set_entries w (entries w ++ [mkEntry i a]))
    | Err e => throw (ImageRecovery.HistoryAppend e)
    end) in
  match r with
  | Ok _ => emit (Committed i)
  | Err e => let! _ := emit (Rejected i) in throw e
  end.

Fixpoint append_history_items (items : list Item) : M unit :=
  match items with
  | [] => ret tt
  | i :: rest => let! _ := append_history_item i in append_history_items rest
  end.

(** ** Policies *)

Definition check_policy_interruption : M unit := λ w,
  let w := tick w in
  if cancel_rx w then Some (Err (fail_with Cancelled), set_cancel_rx w false)
  else if pause_rx w then Some (Err (fail_with PauseRequested), set_pause_rx w false)
  else Some (Ok tt, w).

(** The requests are looked at before the policy is, and again once it has answered. *)
Definition await_tool_policy {T} (policy : nat → result T InterceptorError)
    (phase : InterceptorPhase) : M T :=
  let! _ := check_policy_interruption in
  let! r := ask policy in
  let! _ := check_policy_interruption in
  of_result (map_err (λ e, fail_with (Interceptor phase e)) r).

(** ** The attempt fence *)

Definition register (f : gmap string ToolExecutionAttempt) (call_id attempt_id : string)
  : gmap string ToolExecutionAttempt :=
  <[call_id := mkAttempt attempt_id false]> f.

Definition can_commit (f : gmap string ToolExecutionAttempt) (call_id attempt : string) : bool :=
  match f !! call_id with
  | Some a => bool_decide (attempt_id a = attempt) && negb (terminal a)
  | None => false
  end.

Definition commit_terminal (f : gmap string ToolExecutionAttempt) (call_id attempt : string)
  : bool * gmap string ToolExecutionAttempt :=
  match f !! call_id with
  | None => (false, f)
  | Some a =>
      if negb (bool_decide (attempt_id a = attempt)) || terminal a then (false, f)
      else (true, <[call_id := mkAttempt (attempt_id a) true]> f)
  end.

Definition is_terminal (f : gmap string ToolExecutionAttempt) (call_id : string) : bool :=
  match f !! call_id with Some a => terminal a | None => false end.

(** ** Committing a result *)

(** The corrections of [disposition] and [is_error], and the bound on the content. *)
Definition normalize_result (info : option (ToolCall Json * ToolExecutionContext))
    (r : ToolResult) : ToolResult :=
  let d := if is_error r && is_success (disposition r) then Conversation.Error
           else disposition r in
  let c :=
    match tool_output_limits env, info, content r with
    | Some limits, Some (call, _), Some c => Some (truncate_content c (limit_for limits (name call)))
    | _, _, c => c
    end in
  mkResult (tool_use_id r) d (summary r) c (negb (is_success d)) (attachments r).

(** [Item::tool_result_item_with_disposition_and_attachments]. *)
Definition result_item (r : ToolResult) : Item :=
  Conversation.ToolResult (Conversation.mkToolResult None (tool_use_id r) (summary r)
    (content r) (disposition r) (negb (is_success (disposition r))) (attachments r)).

Definition may_commit (b : Batch) (call_id : string) (attempt : option string) : bool :=
  match attempt with
  | Some a => can_commit (attempt_fence b) call_id a
  | None => bool_decide (call_id ∉ terminal_call_ids b)
  end.

(** The policy after the result is out. *)
Definition post_tool_policy (wait : PostToolPolicyWait) (call : ToolCall Json) (r : ToolResult)
  : M bool :=
  let! late :=
    match wait with
    | UntilPauseSafeBoundary => ask (deadline_passed env)
    | _ => ret false
    end in
  if (late : bool) then fail PauseRequested
  else
    let! action := await_tool_policy (λ now, post_tool_call env now call r) PostToolCall in
    match action with
    | PostAbort reason => fail (Aborted reason)
    | PostContinue => ret true
    end.

Definition finalize_and_commit_tool_result (r : ToolResult) (attempt : option string)
    (wait : PostToolPolicyWait) : M bool :=
  let! w := get in
  if negb (may_commit (batch w) (tool_use_id r) attempt) then ret false
  else
    let info := call_info_map (batch w) !! tool_use_id r in
    let r := normalize_result info r in
    let! _ := append_history_items [result_item r] in
    let! _ :=
      match attempt with
      | None => ret tt
      | Some a =>
          let! w := get in
          let '(won, fence) := commit_terminal (attempt_fence (batch w)) (tool_use_id r) a in
          if (won : bool) then modify_batch (λ b, set_attempt_fence b fence)
          else fail (ToolAttemptFence
                 "tool execution attempt fence changed during terminal commit")
      end in
    let! _ := modify_batch (λ b,
      set_terminal_call_ids b ({[tool_use_id r]} ∪ terminal_call_ids b)) in
    let! _ := emit (Published r) in
    match wait, info with
    | SkipPolicy, _ | _, None => ret true
    | _, Some (call, _) => post_tool_policy wait call r
    end.

(** ** Waiting for tools *)

Inductive Wake := WakeTask (attempt_id : string) (r : ToolResult) | WakePause | WakeDeadline
                | WakeCancel.

(** [futures.next()], with the [expect] of its callers. *)
Definition take_task (w : State) : option (result Wake EngineError * State) :=
  let '(k, outcome) := completes env (clock w) in
  let tasks := futures (batch w) in
  let k := (k mod length tasks)%nat in
  match tasks !! k with
  | Some t =>
      Some (Ok (WakeTask (t_attempt_id t) (default (terminal_result (t_call_id t) outcome) (t_fixed t))),
            set_batch w (set_futures (batch w) (vec_remove k tasks)))
  | None => None
  end.

(** [tokio::select! { biased; .. }] over the tasks and the enabled ones of the pause request,
    the deadline and the cancel request.  When nothing else is there, the wait lasts until
    a task completes. *)
Definition select_tools (pause deadline cancel : bool) : M Wake := λ w,
  let w := tick w in
  if negb (ready env (clock w)) && pause && pause_rx w then
    Some (Ok WakePause, set_pause_rx w false)
  else if negb (ready env (clock w)) && deadline && deadline_passed env (clock w) then
    Some (Ok WakeDeadline, w)
  else if negb (ready env (clock w)) && cancel && cancel_rx w then
    Some (Ok WakeCancel, set_cancel_rx w false)
  else take_task w.

(** [if let Err(error) = .. && batch_error.is_none() { batch_error = Some(error) }]. *)
Definition first_error {X} (batch_error : option EngineError) (r : result X EngineError)
  : option EngineError :=
  match batch_error, r with None, Err e => Some e | _, _ => batch_error end.

(** [while let Some(result) = synthetic_results.pop_front()], collecting the first error. *)
Fixpoint commit_synthetic (results : list ToolResult) (wait : PostToolPolicyWait)
    (batch_error : option EngineError) : M (option EngineError) :=
  match results with
  | [] => ret batch_error
  | r :: rest =>
      let! x := attempt (finalize_and_commit_tool_result r None wait) in
      commit_synthetic rest wait (first_error batch_error x)
  end.

(** The loop that polls for confirmed outcomes until the deadline. *)
Fixpoint confirm_terminals (fuel : nat) (batch_error : option EngineError)
  : M (option EngineError) :=
  let! w := get in
  match futures (batch w) with
  | [] => ret batch_error
  | _ =>
      match fuel with
      | O => panic
      | S fuel =>
          let! wake := select_tools false true false in
          match wake with
          | WakeTask attempt_id r =>
              let! x := attempt (finalize_and_commit_tool_result r (Some attempt_id) SkipPolicy) in
              confirm_terminals fuel (first_error batch_error x)
          | _ => ret batch_error
          end
      end
  end.

(** Calls without a confirmed outcome are closed as unknown. *)
Fixpoint close_unconfirmed (started : list (string * string)) (batch_error : option EngineError)
  : M (option EngineError) :=
  match started with
  | [] => ret batch_error
  | (call_id, attempt_id) :: rest =>
      let! w := get in
      if is_terminal (attempt_fence (batch w)) call_id then close_unconfirmed rest batch_error
      else
        let! _ := if bool_decide (call_id ∈ execution_handles (batch w))
                  then emit (ForceClosed call_id) else ret tt in
        let! x := attempt (finalize_and_commit_tool_result (outcome_unknown call_id)
                             (Some attempt_id) SkipPolicy) in
        close_unconfirmed rest (first_error batch_error x)
  end.

(** Ask every unfinished tool to stop, wait for confirmations, close the rest.  The requests
    go out concurrently and their failures are only logged. *)
Definition cancel_and_confirm (batch_error : option EngineError) : M (option EngineError) :=
  let! w := get in
  let! _ := emit (CancelRequested (execution_handles (batch w) ∖ terminal_call_ids (batch w))) in
  let! e := confirm_terminals (length (futures (batch w))) batch_error in
  close_unconfirmed (started_calls (batch w)) e.

End operations.

(** ** What operations leave behind *)

(** The items a trace put into the history. *)
Definition committed (tr : list Effect) : list Item :=
  omap (λ e, match e with Committed i => Some i | _ => None end) tr.

(** The calls whose results it put there, and those whose results were refused. *)
Definition done_ids (tr : list Effect) : list string := ProviderHistory.result_ids (committed tr).

Definition rejected_ids (tr : list Effect) : list string :=
  ProviderHistory.result_ids
    (omap (λ e, match e with Rejected i => Some i | _ => None end) tr).

Definition started_ids (tr : list Effect) : list string :=
  omap (λ e, match e with Started i _ _ => Some i | _ => None end) tr.

(** A result is published once its item is in the history, and no result is withheld. *)
Inductive orderly : list Effect → Prop :=
| orderly_nil : orderly []
| orderly_result r tr : orderly tr → orderly (Committed (result_item r) :: Published r :: tr)
| orderly_item i tr : ProviderHistory.is_result i = false → orderly tr →
    orderly (Committed i :: tr)
| orderly_other e tr :
    match e with Committed _ | Published _ => False | _ => True end →
    orderly tr → orderly (e :: tr).

(** Every tool that started has its result afterwards, or its result was refused. *)
Definition starts_settled (tr : list Effect) : Prop :=
  ∀ tr1 i a l tr2, tr = tr1 ++ Started i a l :: tr2 → i ∈ done_ids tr2 ∨ i ∈ rejected_ids tr2.

(** Where an element of a concatenation lies. *)
Lemma app_cons_split {X} (l k l1 l2 : list X) x :
  l ++ k = l1 ++ x :: l2 →
  (∃ m, l = l1 ++ x :: m ∧ l2 = m ++ k) ∨ (∃ m, l1 = l ++ m ∧ k = m ++ x :: l2).
Proof.
  intros [(m & -> & Hm)|(m & -> & ->)]%app_eq_inv; [|right; by exists m].
  destruct m as [|y m]; simplify_eq/=; [right; exists []|left; exists m]; by rewrite ?app_nil_r.
Qed.

Section lemmas.
Context {A Json HttpError JsonError : Type} (env : Env A Json).
Abbreviation State := (State A Json).
Abbreviation Batch := (Batch Json).
Abbreviation EngineError := (EngineError HttpError JsonError).
Abbreviation M := (@M A Json HttpError JsonError).

(** The history and the trace have grown by [tr], without a request; the counts of turns and
    requests and the timeline are the same. *)
Record ext (w : State) (tr : list Effect) (w' : State) : Prop := {
  ext_trace : trace w' = trace w ++ tr;
  ext_entries : ∃ new, entries w' = entries w ++ new ∧ item <$> new = committed tr;
  ext_counts : turn_count w' = turn_count w ∧ active_run_turn_count w' = active_run_turn_count w
    ∧ llm_call_count w' = llm_call_count w ∧ timeline w' = timeline w;
  ext_silent : ∀ h r, Requested h r ∉ tr
}.

Lemma committed_app tr1 tr2 : committed (tr1 ++ tr2) = committed tr1 ++ committed tr2.
Proof. apply omap_app. Qed.

Lemma done_ids_app tr1 tr2 : done_ids (tr1 ++ tr2) = done_ids tr1 ++ done_ids tr2.
Proof. unfold done_ids. rewrite committed_app. apply omap_app. Qed.

Lemma rejected_ids_app tr1 tr2 : rejected_ids (tr1 ++ tr2) = rejected_ids tr1 ++ rejected_ids tr2.
Proof. unfold rejected_ids. rewrite omap_app. apply omap_app. Qed.

Lemma started_ids_app tr1 tr2 : started_ids (tr1 ++ tr2) = started_ids tr1 ++ started_ids tr2.
Proof. apply omap_app. Qed.

Lemma orderly_app tr1 tr2 : orderly tr1 → orderly tr2 → orderly (tr1 ++ tr2).
Proof. induction 1; intros; simpl; auto using orderly. Qed.

Lemma starts_settled_none tr : started_ids tr = [] → starts_settled tr.
Proof.
  intros Hs tr1 i a l tr2 ->. rewrite started_ids_app in Hs. by destruct (started_ids tr1).
Qed.

Lemma starts_settled_app tr1 tr2 :
  starts_settled tr1 → starts_settled tr2 → starts_settled (tr1 ++ tr2).
Proof.
  intros H1 H2 l1 i a l l2 [(m & -> & ->)|(m & -> & ->)]%app_cons_split; [|by eapply H2].
  rewrite done_ids_app, rejected_ids_app, !elem_of_app.
  destruct (H1 l1 i a l m eq_refl); auto.
Qed.

Lemma ext_nil w w' :
  trace w' = trace w → entries w' = entries w →
  turn_count w' = turn_count w ∧ active_run_turn_count w' = active_run_turn_count w
    ∧ llm_call_count w' = llm_call_count w ∧ timeline w' = timeline w →
  ext w [] w'.
Proof.
  intros T E C. split; [by rewrite app_nil_r|exists []; by rewrite app_nil_r|done|set_solver].
Qed.

Lemma ext_refl w : ext w [] w.
Proof. by apply ext_nil. Qed.

Lemma ext_trans w1 tr1 w2 tr2 w3 : ext w1 tr1 w2 → ext w2 tr2 w3 → ext w1 (tr1 ++ tr2) w3.
Proof.
  intros [T1 (n1 & E1 & I1) (? & ? & ? & ?) R1] [T2 (n2 & E2 & I2) (? & ? & ? & ?) R2]. split.
  - by rewrite T2, T1, app_assoc.
  - exists (n1 ++ n2). by rewrite E2, E1, app_assoc, fmap_app, I1, I2, committed_app.
  - repeat split; congruence.
  - set_solver.
Qed.

Lemma ext_set_batch w tr w' b : ext w tr w' → ext w tr (set_batch w' b).
Proof. intros [T E C R]. by split. Qed.

Lemma ext_tick w : ext w [] (tick env w).
Proof. by apply ext_nil. Qed.

(** An operation that runs to an end, with what holds then. *)
Definition spec {X} (m : M X) (w : State) (Q : result X EngineError → State → Prop) : Prop :=
  ∃ r w', m w = Some (r, w') ∧ Q r w'.

Lemma spec_ret {X} (x : X) w (Q : _ → _ → Prop) : Q (Ok x) w → spec (ret x) w Q.
Proof. intros. by exists (Ok x), w. Qed.

Lemma spec_throw {X} e w (Q : result X _ → _ → Prop) : Q (Err e) w → spec (throw e) w Q.
Proof. intros. by exists (Err e), w. Qed.

Lemma spec_bind {X Y} (m : M X) (k : X → M Y) w Q :
  spec m w (λ r w', match r with Ok x => spec (k x) w' Q | Err e => Q (Err e) w' end) →
  spec (bind m k) w Q.
Proof.
  intros (r & w' & Hm & H). unfold spec, bind. rewrite Hm. destruct r; [done|]. by exists (Err e), w'.
Qed.

Lemma spec_attempt {X} (m : M X) w Q : spec m w (λ r w', Q (Ok r) w') → spec (attempt m) w Q.
Proof. intros (r & w' & Hm & H). unfold spec, attempt. rewrite Hm. by exists (Ok r), w'. Qed.

Lemma spec_get w Q : Q (Ok w) w → spec get w Q.
Proof. intros. by exists (Ok w), w. Qed.

Lemma spec_modify f w Q : Q (Ok tt) (f w) → spec (modify f) w Q.
Proof. intros. by exists (Ok tt), (f w). Qed.

Lemma spec_ask {X} (q : nat → X) w Q :
  Q (Ok (q (clock (tick env w)))) (tick env w) → spec (ask env q) w Q.
Proof. intros. by exists (Ok (q (clock (tick env w)))), (tick env w). Qed.

Lemma spec_mono {X} (m : M X) w (Q R : _ → _ → Prop) :
  spec m w Q → (∀ r w', Q r w' → R r w') → spec m w R.
Proof. intros (r & w' & Hm & HQ) H. exists r, w'. auto. Qed.

(** Only time has passed. *)
Definition quiet (w w' : State) : Prop := ext w [] w' ∧ batch w' = batch w.

Lemma quiet_refl w : quiet w w.
Proof. split; [apply ext_refl|done]. Qed.

Lemma quiet_trans w1 w2 w3 : quiet w1 w2 → quiet w2 w3 → quiet w1 w3.
Proof. intros [E1 B1] [E2 B2]. split; [exact (ext_trans _ _ _ _ _ E1 E2)|congruence]. Qed.

Lemma quiet_tick w : quiet w (tick env w).
Proof. split; [apply ext_tick|done]. Qed.

Lemma quiet_ext w1 w2 tr w3 : quiet w1 w2 → ext w2 tr w3 → ext w1 tr w3.
Proof. intros [E1 _] E2. exact (ext_trans _ _ _ _ _ E1 E2). Qed.

Lemma ext_quiet w1 tr w2 w3 : ext w1 tr w2 → quiet w2 w3 → ext w1 tr w3.
Proof. intros E1 [E2 _]. rewrite <-(app_nil_r tr). exact (ext_trans _ _ _ _ _ E1 E2). Qed.

Lemma ext_emit e w : match e with Committed _ | Requested _ _ => False | _ => True end →
  ext w [e] (set_trace w (trace w ++ [e])).
Proof.
  intros He. split; [done| |done|].
  - exists []. rewrite app_nil_r. split; [done|]. by destruct e.
  - intros h r Hin%list_elem_of_singleton. by subst e.
Qed.

(** ** Appends *)

Lemma emit_history_append_spec cbs i w :
  spec (emit_history_append env cbs i) w (λ r w', quiet w w'
    ∧ (r = Ok tt ∨ ∃ e, r = Err (ImageRecovery.HistoryAppend e))).
Proof.
  revert w. induction cbs as [|cb cbs IH]; intros w; simpl.
  { apply spec_ret. eauto using quiet_refl. }
  apply spec_bind, spec_ask. destruct (cb _ i) as [[]|e].
  - eapply spec_mono; [apply IH|]. intros r w' [Hq Hr]. eauto using quiet_trans, quiet_tick.
  - apply spec_throw. eauto using quiet_tick.
Qed.

Lemma append_item_spec i w :
  spec (append_history_item env i) w (λ r w', batch w' = batch w
    ∧ ((r = Ok tt ∧ ext w [Committed i] w')
       ∨ ∃ e, r = Err (ImageRecovery.HistoryAppend e) ∧ ext w [Rejected i] w')).
Proof.
  unfold append_history_item. apply spec_bind, spec_attempt, spec_bind.
  eapply spec_mono; [apply emit_history_append_spec|]. intros r w1 [Hq Hr].
  assert (∀ w2 e, quiet w w2 →
    spec (let! _ := emit (Rejected i) in throw (ImageRecovery.HistoryAppend e)) w2
      (λ (r : result unit EngineError) w', batch w' = batch w
       ∧ ((r = Ok tt ∧ ext w [Committed i] w')
          ∨ ∃ e, r = Err (ImageRecovery.HistoryAppend e) ∧ ext w [Rejected i] w'))) as Hrej.
  { intros w2 e Hq2. apply spec_bind, spec_modify, spec_throw.
    split; [apply Hq2|]. right. exists e. split; [done|].
    eapply quiet_ext; [done|by apply ext_emit]. }
  destruct r as [[]|e0]; [|destruct Hr as [?|[e [= ->]]]; [done|by apply Hrej]].
  apply spec_bind, spec_ask.
  assert (quiet w (tick env w1)) as Hq2 by eauto using quiet_trans, quiet_tick.
  destruct (annotate env _ i) as [a|e]; [|apply spec_throw; by apply Hrej].
  apply spec_modify, spec_modify. split; [apply Hq2|]. left. split; [done|].
  eapply quiet_ext; [exact Hq2|]. split; [done|by exists [mkEntry i a]|done|].
  intros h r [=]%list_elem_of_singleton.
Qed.

Lemma append_items_spec items : ∀ w,
  spec (append_history_items env items) w (λ r w', batch w' = batch w
    ∧ ((r = Ok tt ∧ ext w (Committed <$> items) w')
       ∨ ∃ l1 i l2 e, items = l1 ++ i :: l2 ∧ r = Err (ImageRecovery.HistoryAppend e)
           ∧ ext w ((Committed <$> l1) ++ [Rejected i]) w')).
Proof.
  induction items as [|i items IH]; intros w; simpl.
  { apply spec_ret. split; [done|]. left. split; [done|apply ext_refl]. }
  apply spec_bind. eapply spec_mono; [apply append_item_spec|].
  intros r w1 [Hb [[-> E1]|(e & -> & E1)]].
  2:{ split; [done|]. right. exists [], i, items, e. done. }
  eapply spec_mono; [apply IH|]. intros r w2 [Hb2 H]. split; [congruence|].
  destruct H as [[-> E2]|(l1 & j & l2 & e & -> & -> & E2)].
  - left. split; [done|]. exact (ext_trans _ _ _ _ _ E1 E2).
  - right. exists (i :: l1), j, l2, e. split_and!; [done|done|]. exact (ext_trans _ _ _ _ _ E1 E2).
Qed.

(** ** Policies *)

(** What ends a policy early. *)
Definition interruption (f : EngineFailure) : Prop := f = Cancelled ∨ f = PauseRequested.

Lemma check_policy_spec w :
  spec (check_policy_interruption env) w (λ r w', quiet w w'
    ∧ (r = Ok tt ∨ ∃ f, r = Err (fail_with f) ∧ interruption f)).
Proof.
  unfold spec, check_policy_interruption, interruption.
  destruct (cancel_rx _); [|destruct (pause_rx _)]; do 2 eexists; (split; [done|]);
    (split; [|by eauto]); try apply quiet_tick; apply (quiet_trans _ (tick env w));
    try apply quiet_tick; (split; [|done]); by apply ext_nil.
Qed.

Lemma await_policy_spec {T} (policy : nat → result T InterceptorError) phase w :
  spec (await_tool_policy env policy phase) w (λ r w', quiet w w'
    ∧ match r with
      | Ok x => ∃ now, policy now = Ok x
      | Err e => (∃ f, e = fail_with f ∧ interruption f)
                 ∨ (∃ now e', policy now = Err e' ∧ e = fail_with (Interceptor phase e'))
      end).
Proof.
  unfold await_tool_policy. apply spec_bind. eapply spec_mono; [apply check_policy_spec|].
  intros r w1 [Q1 Hr]. destruct r as [[]|e0].
  2:{ split; [done|]. destruct Hr as [?|(f & [= ->] & ?)]; [done|]. eauto. }
  apply spec_bind, spec_ask. apply spec_bind. eapply spec_mono; [apply check_policy_spec|].
  intros r w2 [Q2 Hr2].
  assert (quiet w w2) as Q by eauto using quiet_trans, quiet_tick.
  destruct r as [[]|e0].
  2:{ split; [done|]. destruct Hr2 as [?|(f & [= ->] & ?)]; [done|]. eauto. }
  unfold spec, of_result. do 2 eexists. split; [done|]. split; [done|].
  destruct (policy _) as [x|e'] eqn:Hp; simpl; [by eauto|]. right. eauto.
Qed.

(** ** Committing a result *)

(** The batch after a commit. *)
Definition commit_batch (b : Batch) (call_id : string) (attempt : option string) : Batch :=
  let b := match attempt with
           | Some a => set_attempt_fence b (<[call_id := mkAttempt a true]> (attempt_fence b))
           | None => b
           end in
  set_terminal_call_ids b ({[call_id]} ∪ terminal_call_ids b).

(** What a policy after a result may end with. *)
Definition post_failure (f : EngineFailure) : Prop :=
  interruption f ∨ (∃ reason, f = Aborted reason) ∨ ∃ e, f = Interceptor PostToolCall e.

(** The three ways of committing a result: it is stale, it is refused, or it is out. *)
Inductive finalized (w : State) (r : ToolResult) (attempt : option string)
    (wait : PostToolPolicyWait) : result bool EngineError → State → Prop :=
| finalized_stale :
    may_commit (batch w) (tool_use_id r) attempt = false →
    finalized w r attempt wait (Ok false) w
| finalized_rejected n e w' :
    may_commit (batch w) (tool_use_id r) attempt = true → tool_use_id n = tool_use_id r →
    ext w [Rejected (result_item n)] w' → batch w' = batch w →
    finalized w r attempt wait (Err (ImageRecovery.HistoryAppend e)) w'
| finalized_out n x w' :
    may_commit (batch w) (tool_use_id r) attempt = true →
    n = normalize_result env (call_info_map (batch w) !! tool_use_id r) r →
    ext w [Committed (result_item n); Published n] w' →
    batch w' = commit_batch (batch w) (tool_use_id r) attempt →
    (x = Ok true ∨ ∃ f, x = Err (fail_with f) ∧ post_failure f ∧ wait ≠ SkipPolicy) →
    finalized w r attempt wait x w'.

Lemma post_tool_policy_spec wait call r w :
  spec (post_tool_policy env wait call r) w (λ x w', quiet w w'
    ∧ (x = Ok true ∨ ∃ f, x = Err (fail_with f) ∧ post_failure f)).
Proof.
  unfold post_tool_policy. apply spec_bind.
  apply (spec_mono _ _ (λ x w1, quiet w w1 ∧ ∃ late, x = Ok late)).
  { destruct wait; [apply spec_ret|apply spec_ret|apply spec_ask];
      eauto using quiet_refl, quiet_tick. }
  intros x w1 [Q1 [late ->]]. destruct late.
  { apply spec_throw. split; [done|]. right. exists PauseRequested. split; [done|].
    left. by right. }
  apply spec_bind. eapply spec_mono; [apply await_policy_spec|]. intros x w2 [Q2 Hx].
  assert (quiet w w2) as Q by eauto using quiet_trans.
  destruct x as [[|reason]|e].
  - apply spec_ret. eauto.
  - apply spec_throw. split; [done|]. right. exists (Aborted reason). split; [done|].
    right; left; eauto.
  - split; [done|]. right. destruct Hx as [(f & -> & Hf)|(now & e' & _ & ->)].
    + exists f. split; [done|]. by left.
    + exists (Interceptor PostToolCall e'). split; [done|]. right; right; eauto.
Qed.

Lemma can_commit_fence f call_id a :
  can_commit f call_id a = true ↔ f !! call_id = Some (mkAttempt a false).
Proof.
  unfold can_commit. destruct (f !! call_id) as [[a' []]|]; simpl;
    rewrite ?andb_true_iff, ?bool_decide_eq_true; naive_solver.
Qed.

Lemma finalize_spec r attempt wait w :
  spec (finalize_and_commit_tool_result env r attempt wait) w (finalized w r attempt wait).
Proof.
  unfold finalize_and_commit_tool_result. apply spec_bind, spec_get.
  destruct (may_commit _ _ _) eqn:Hmay; simpl; [|apply spec_ret; by constructor].
  set (n := normalize_result env (call_info_map (batch w) !! tool_use_id r) r).
  apply spec_bind. eapply spec_mono; [apply (append_items_spec [result_item n])|].
  intros x w1 [Hb1 [[-> E1]|(l1 & i & l2 & e & Hl & -> & E1)]].
  2:{ assert (l1 = [] ∧ i = result_item n) as [-> ->].
      { destruct l1 as [|? [|]]; simplify_eq/=; done. }
      by eapply (finalized_rejected _ _ _ _ n). }
  apply spec_bind.
  apply (spec_mono _ _ (λ x w2, x = Ok tt ∧ ext w1 [] w2 ∧
    batch w2 = match attempt with
               | Some a => set_attempt_fence (batch w)
                   (<[tool_use_id r := mkAttempt a true]> (attempt_fence (batch w)))
               | None => batch w end)).
  { destruct attempt as [a|]; [|apply spec_ret; eauto using ext_refl].
    apply spec_bind, spec_get. rewrite Hb1. simpl in Hmay. apply can_commit_fence in Hmay.
    unfold commit_terminal. cbn [tool_use_id n normalize_result].
    rewrite Hmay. cbn [attempt_id terminal].
    rewrite bool_decide_eq_true_2 by done. cbn [negb orb].
    apply spec_modify. split; [done|]. split; [|simpl; by rewrite Hb1].
    by apply ext_nil. }
  intros x w2 (-> & E2 & Hb2).
  apply spec_bind, spec_modify, spec_bind, spec_modify.
  set (w3 := set_trace _ _).
  assert (ext w [Committed (result_item n); Published n] w3) as E3.
  { apply (ext_trans _ [Committed (result_item n)] w1 [Published n]); [done|].
    apply (ext_trans _ [] w2 [Published n]); [done|].
    eapply (ext_trans _ [] _ [Published n]); [apply ext_set_batch, ext_refl|by apply ext_emit]. }
  assert (batch w3 = commit_batch (batch w) (tool_use_id r) attempt) as Hb3.
  { unfold w3, commit_batch. simpl. rewrite Hb2. by destruct attempt. }
  assert (∀ x w4, quiet w3 w4 →
    (x = Ok true ∨ ∃ f, x = Err (fail_with f) ∧ post_failure f ∧ wait ≠ SkipPolicy) →
    finalized w r attempt wait x w4) as Hout.
  { intros x w4 Q Hx. eapply (finalized_out _ _ _ _ n); [done|done| | |done].
    - by eapply ext_quiet.
    - destruct Q as [_ ->]. done. }
  destruct (call_info_map (batch w) !! tool_use_id r) as [[call ctx]|];
    [|destruct wait; apply spec_ret; eauto using quiet_refl].
  assert (wait ≠ SkipPolicy →
    spec (post_tool_policy env wait call n) w3 (finalized w r attempt wait)) as Hpost.
  { intros Hw. eapply spec_mono; [apply post_tool_policy_spec|].
    intros x w4 [Q [->|(f & -> & Hf)]]; apply Hout; eauto 10. }
  destruct wait; [apply spec_ret; eauto using quiet_refl|by apply Hpost..].
Qed.

(** ** The invariant of a batch

    [tr] is what has happened since the batch was created, and [own] are the calls it is for.
    Calls are terminal exactly when their result is in the history, no call has two results,
    and tasks belong to started calls. *)
Context (own : string → Prop).

Record batch_ok (tr : list Effect) (b : Batch) : Prop := {
  ok_nodup : NoDup (done_ids tr);
  ok_own : ∀ i, i ∈ done_ids tr → own i;
  ok_terminal : ∀ i, i ∈ terminal_call_ids b ↔ i ∈ done_ids tr;
  ok_fence : ∀ i a, attempt_fence b !! i = Some a → (terminal a = true ↔ i ∈ done_ids tr);
  ok_started : ∀ i t, (i, t) ∈ started_calls b →
    own i ∧ ∃ x, attempt_fence b !! i = Some (mkAttempt t x);
  ok_futures : ∀ t, t ∈ futures b → (t_call_id t, t_attempt_id t) ∈ started_calls b
    ∧ ∀ r, t_fixed t = Some r → tool_use_id r = t_call_id t;
  ok_orderly : orderly tr
}.

(** A started call has its result, or its result was refused, or its task is pending. *)
Definition accounted (tr : list Effect) (b : Batch) : Prop :=
  ∀ i t, (i, t) ∈ started_calls b →
  i ∈ done_ids tr ∨ i ∈ rejected_ids tr ∨ i ∈ t_call_id <$> futures b.

(** Every started call has its result, or its result was refused. *)
Definition settled (tr : list Effect) (b : Batch) : Prop :=
  ∀ i t, (i, t) ∈ started_calls b → i ∈ done_ids tr ∨ i ∈ rejected_ids tr.

(** The effects of settling calls: results and requests to stop. *)
Definition settles (e : Effect) : Prop :=
  match e with
  | Committed i | Rejected i => ProviderHistory.is_result i = true
  | Published _ | CancelRequested _ | ForceClosed _ => True
  | Decided _ _ | Started _ _ _ | Requested _ _ => False
  end.

(** Settling changes neither the calls of a batch nor their attempts, and only consumes
    tasks. *)
Record kept (b b' : Batch) : Prop := {
  kept_same : calls b' = calls b ∧ seen_call_ids b' = seen_call_ids b
    ∧ call_info_map b' = call_info_map b ∧ started_calls b' = started_calls b
    ∧ execution_handles b' = execution_handles b ∧ synthetic_results b' = synthetic_results b
    ∧ dispatched_any b' = dispatched_any b ∧ batch_id b' = batch_id b;
  kept_attempts : ∀ i, attempt_id <$> attempt_fence b' !! i = attempt_id <$> attempt_fence b !! i;
  kept_futures : futures b' `sublist_of` futures b
}.

(** From a batch with trace [tr] the state has moved on by [tr']. *)
Record stepped (tr : list Effect) (w : State) (tr' : list Effect) (w' : State) : Prop := {
  st_ext : ext w tr' w';
  st_settles : Forall settles tr';
  st_ok : batch_ok (tr ++ tr') (batch w');
  st_kept : kept (batch w) (batch w')
}.

Lemma kept_refl b : kept b b.
Proof. by repeat split. Qed.

Lemma kept_trans b1 b2 b3 : kept b1 b2 → kept b2 b3 → kept b1 b3.
Proof.
  intros [S1 A1 F1] [S2 A2 F2]. split; [|by intros i; rewrite A2, A1|by etrans].
  destruct S1 as (?&?&?&?&?&?&?&?), S2 as (?&?&?&?&?&?&?&?). repeat split; congruence.
Qed.

Lemma stepped_trans tr w1 tr1 w2 tr2 w3 :
  stepped tr w1 tr1 w2 → stepped (tr ++ tr1) w2 tr2 w3 → stepped tr w1 (tr1 ++ tr2) w3.
Proof.
  intros [E1 S1 O1 K1] [E2 S2 O2 K2]. split.
  - exact (ext_trans _ _ _ _ _ E1 E2).
  - by apply Forall_app.
  - by rewrite app_assoc.
  - exact (kept_trans _ _ _ K1 K2).
Qed.

Lemma stepped_quiet tr w w' : batch_ok tr (batch w) → quiet w w' → stepped tr w [] w'.
Proof.
  intros Hok [E B]. split; [done|constructor|by rewrite app_nil_r, B|rewrite B; apply kept_refl].
Qed.

Lemma stepped_emit tr w e :
  batch_ok tr (batch w) →
  match e with CancelRequested _ | ForceClosed _ => True | _ => False end →
  stepped tr w [e] (set_trace w (trace w ++ [e])).
Proof.
  intros [O1 O7 O2 O3 O4 O5 O6] He. split.
  - apply ext_emit. by destruct e.
  - constructor; [by destruct e|constructor].
  - assert (done_ids (tr ++ [e]) = done_ids tr) as Hd.
    { rewrite done_ids_app. destruct e; try done; apply app_nil_r. }
    split; rewrite ?Hd; try done. apply orderly_app; [done|].
    apply orderly_other; [by destruct e|constructor].
  - apply kept_refl.
Qed.

Lemma settled_mono tr tr' b b' :
  kept b b' → settled tr b → settled (tr ++ tr') b'.
Proof.
  intros [(_&_&_&K&_) _ _] Hs i t. rewrite K, done_ids_app, rejected_ids_app, !elem_of_app.
  intros [?|?]%Hs; auto.
Qed.

Lemma result_item_ids n : ProviderHistory.result_ids [result_item n] = [tool_use_id n].
Proof. done. Qed.

Lemma normalize_result_id info r : tool_use_id (normalize_result env info r) = tool_use_id r.
Proof. done. Qed.

Lemma rejected_item_ids tr r :
  rejected_ids (tr ++ [Rejected (result_item r)]) = rejected_ids tr ++ [tool_use_id r].
Proof. by rewrite rejected_ids_app. Qed.

Lemma done_item_ids tr r :
  done_ids (tr ++ [Committed (result_item r); Published r]) = done_ids tr ++ [tool_use_id r].
Proof. by rewrite done_ids_app. Qed.

(** A commit keeps the invariant. *)
Lemma commit_batch_ok tr b n call_id attempt :
  batch_ok tr b → may_commit b call_id attempt = true → tool_use_id n = call_id →
  (attempt = None → attempt_fence b !! call_id = None) → own call_id →
  batch_ok (tr ++ [Committed (result_item n); Published n]) (commit_batch b call_id attempt).
Proof.
  intros [O1 O7 O2 O3 O4 O5 O6] Hmay Hn Hnone Hown.
  assert (call_id ∉ done_ids tr) as Hnew.
  { destruct attempt as [a|]; simpl in Hmay.
    - apply can_commit_fence in Hmay. intros Hin. by apply (O3 _ _ Hmay) in Hin.
    - rewrite <-O2. by apply bool_decide_eq_true in Hmay. }
  split; rewrite ?done_item_ids, ?Hn.
  - apply NoDup_app. split; [done|]. split; [|apply NoDup_singleton]. set_solver.
  - intros i [?| ->%list_elem_of_singleton]%elem_of_app; auto.
  - intros i. unfold commit_batch. destruct attempt; simpl;
      rewrite elem_of_union, O2, elem_of_singleton, elem_of_app, list_elem_of_singleton; tauto.
  - intros i a Ha. rewrite elem_of_app, list_elem_of_singleton.
    destruct attempt as [t|]; simpl in Ha.
    + apply lookup_insert_Some in Ha as [[Hi Hx]|[Hne Ha]]; [subst; simpl; by split; auto|].
      rewrite (O3 _ _ Ha). naive_solver.
    + rewrite (O3 _ _ Ha). split; [by left|]. intros [?| ->]; [done|]. by rewrite Hnone in Ha.
  - intros i t Hin. destruct attempt as [a|]; simpl in *; [|by apply O4].
    destruct (O4 i t Hin) as [Hi [x Hx]]. split; [done|].
    destruct (decide (i = call_id)) as [->|].
    + apply can_commit_fence in Hmay. rewrite Hmay in Hx. injection Hx as -> <-.
      exists true. apply lookup_insert_eq.
    + exists x. by rewrite lookup_insert_ne.
  - intros t Ht. destruct attempt; by apply O5.
  - apply orderly_app; [done|]. apply orderly_result. constructor.
Qed.

Lemma commit_batch_kept b call_id attempt :
  may_commit b call_id attempt = true → kept b (commit_batch b call_id attempt).
Proof.
  intros Hmay. destruct attempt as [a|]; (split; [done| |done]); [|done].
  intros i. simpl. simpl in Hmay. apply can_commit_fence in Hmay.
  destruct (decide (i = call_id)) as [->|]; [|by rewrite lookup_insert_ne].
  by rewrite lookup_insert_eq, Hmay.
Qed.

(** The errors of a commit: a refused append, or what the policy after it ends with. *)
Definition append_error (e : EngineError) : Prop := ∃ m, e = ImageRecovery.HistoryAppend m.

Definition settle_error (e : EngineError) : Prop :=
  append_error e ∨ ∃ f, e = fail_with f ∧ post_failure f.

(** How the result of a commit relates to what it did. *)
Definition commit_outcome {X} (wait : PostToolPolicyWait) (x : result X EngineError)
    (tr' : list Effect) : Prop :=
  match x with
  | Ok _ => rejected_ids tr' = []
  | Err e => append_error e
      ∨ (rejected_ids tr' = [] ∧ ∃ f, e = fail_with f ∧ post_failure f ∧ wait ≠ SkipPolicy)
  end.

(** What committing one result does to a batch. *)
Lemma finalize_ok tr r attempt wait w :
  batch_ok tr (batch w) →
  (attempt = None → attempt_fence (batch w) !! tool_use_id r = None) → own (tool_use_id r) →
  spec (finalize_and_commit_tool_result env r attempt wait) w (λ x w', ∃ tr',
    stepped tr w tr' w' ∧ futures (batch w') = futures (batch w)
    ∧ (∀ a y, attempt = Some a → attempt_fence (batch w) !! tool_use_id r = Some (mkAttempt a y) →
        tool_use_id r ∈ done_ids (tr ++ tr') ∨ tool_use_id r ∈ rejected_ids (tr ++ tr'))
    ∧ (attempt = None →
        tool_use_id r ∈ done_ids (tr ++ tr') ∨ tool_use_id r ∈ rejected_ids (tr ++ tr'))
    ∧ commit_outcome wait x tr').
Proof.
  intros Hok Hnone Hown. eapply spec_mono; [apply finalize_spec|]. intros x w' [Hmay|n e w1 Hmay Hn E B|n y w1 Hmay -> E B Hx].
  - exists []. rewrite app_nil_r. split_and!; [|done| | |done].
    + apply stepped_quiet; [done|apply quiet_refl].
    + intros a y -> Hf. left. apply (ok_fence _ _ Hok _ _ Hf). simpl in *.
      destruct y; [done|]. apply can_commit_fence in Hf. congruence.
    + intros ->. left. apply (ok_terminal _ _ Hok). simpl in Hmay.
      apply bool_decide_eq_false in Hmay. by apply dec_stable.
  - exists [Rejected (result_item n)]. rewrite rejected_item_ids, Hn. split_and!; try done.
    + split; [done| | |rewrite B; apply kept_refl]; [by constructor|].
      rewrite B. destruct Hok as [O1 O7 O2 O3 O4 O5 O6].
      split; rewrite ?done_ids_app; simpl; rewrite ?app_nil_r; try done.
      apply orderly_app; [done|]. apply orderly_other; [done|constructor].
    + by rewrite B.
    + intros. right. set_solver.
    + intros. right. set_solver.
    + left. by exists e.
  - eexists. rewrite done_item_ids, normalize_result_id. split_and!.
    + split; [done|by repeat constructor| |rewrite B; by apply commit_batch_kept].
      rewrite B. by apply commit_batch_ok.
    + rewrite B. by destruct attempt.
    + intros. left. set_solver.
    + intros. left. set_solver.
    + destruct Hx as [->|(f & -> & Hf & Hw)]; [done|]. right. eauto.
Qed.

(** ** Tasks *)

Lemma vec_remove_lookup {X} k (l : list X) x :
  l !! k = Some x → l ≡ₚ x :: vec_remove k l ∧ vec_remove k l `sublist_of` l.
Proof.
  revert l. induction k as [|k IH]; intros [|y l] Hk; simplify_eq/=.
  - split; [done|]. by apply sublist_cons.
  - destruct (IH l Hk) as [Hp Hs]. split; [|by apply sublist_skip].
    rewrite Hp at 1. apply Permutation_swap.
Qed.

(** The task [t] has been taken out of the batch. *)
Definition task_taken (w : State) (t : Task) (w' : State) : Prop :=
  ∃ l, batch w' = set_futures (batch w) l ∧ futures (batch w) ≡ₚ t :: l
    ∧ l `sublist_of` futures (batch w) ∧ ext w [] w'.

(** The results a task may complete with. *)
Definition task_result (t : Task) (r : ToolResult) : Prop :=
  ∃ outcome, r = default (terminal_result (t_call_id t) outcome) (t_fixed t).

Lemma take_task_spec w w1 :
  futures (batch w) ≠ [] → quiet w w1 →
  spec (take_task env) w1 (λ x w', ∃ t r, x = Ok (WakeTask (t_attempt_id t) r)
    ∧ task_taken w t w' ∧ task_result t r).
Proof.
  intros Hne [E B]. unfold spec, take_task. destruct (completes env _) as [k o]. rewrite B.
  set (j := (k mod length (futures (batch w)))%nat).
  assert (j < length (futures (batch w)))%nat as Hlt.
  { apply Nat.mod_upper_bound. by destruct (futures (batch w)). }
  apply lookup_lt_is_Some_2 in Hlt as [t Ht]. rewrite Ht.
  destruct (vec_remove_lookup _ _ _ Ht) as [Hperm Hsub].
  do 2 eexists. split; [done|]. exists t, (default (terminal_result (t_call_id t) o) (t_fixed t)).
  split; [done|]. split; [|by exists o]. exists (vec_remove j (futures (batch w))).
  split_and!; [done|done|done|by apply ext_set_batch].
Qed.

Lemma select_spec pause deadline cancel w :
  futures (batch w) ≠ [] →
  spec (select_tools env pause deadline cancel) w (λ x w',
    (∃ t r, x = Ok (WakeTask (t_attempt_id t) r) ∧ task_taken w t w' ∧ task_result t r)
    ∨ (quiet w w' ∧ (x = Ok WakePause ∧ pause = true ∨ x = Ok WakeDeadline ∧ deadline = true
                     ∨ x = Ok WakeCancel ∧ cancel = true))).
Proof.
  intros Hne. pose proof (take_task_spec w (tick env w) Hne (quiet_tick w)) as Htask.
  unfold spec, select_tools.
  assert (∀ x : State, trace x = trace w → entries x = entries w → batch x = batch w →
    turn_count x = turn_count w ∧ active_run_turn_count x = active_run_turn_count w
      ∧ llm_call_count x = llm_call_count w ∧ timeline x = timeline w → quiet w x) as Hq
    by (intros; split; [by apply ext_nil|done]).
  destruct (_ && pause && _) eqn:Hp.
  { do 2 eexists. split; [done|]. right. split; [by apply Hq|]. split_andb. auto. }
  destruct (_ && deadline && _) eqn:Hd.
  { do 2 eexists. split; [done|]. right. split; [by apply Hq|]. split_andb. auto. }
  destruct (_ && cancel && _) eqn:Hc.
  { do 2 eexists. split; [done|]. right. split; [by apply Hq|]. split_andb. auto. }
  destruct Htask as (x & w' & Hx & Ht). exists x, w'. split; [done|]. by left.
Qed.

(** Taking a task and committing its result. *)
Lemma settle_task_ok tr w t w1 r wait :
  batch_ok tr (batch w) → accounted tr (batch w) → task_taken w t w1 → task_result t r →
  spec (finalize_and_commit_tool_result env r (Some (t_attempt_id t)) wait) w1 (λ x w', ∃ tr',
    stepped tr w tr' w' ∧ accounted (tr ++ tr') (batch w')
    ∧ length (futures (batch w)) = S (length (futures (batch w')))
    ∧ commit_outcome wait x tr').
Proof.
  intros Hok Hacc (l & Hb1 & Hperm & Hsub & E1) [o Hr].
  destruct (ok_futures _ _ Hok t) as [Hst Hfix]; [rewrite Hperm; by left|].
  assert (tool_use_id r = t_call_id t) as Hid.
  { rewrite Hr. destruct (t_fixed t) eqn:Hf; simpl; [by apply Hfix|apply terminal_result_id]. }
  assert (batch_ok tr (batch w1)) as Hok1.
  { rewrite Hb1. destruct Hok as [O1 O7 O2 O3 O4 O5 O6]. split; try done.
    intros t' Ht'. apply O5. simpl in Ht'. rewrite Hperm. by right. }
  destruct (ok_started _ _ Hok _ _ Hst) as [Hown _].
  eapply spec_mono; [apply (finalize_ok tr); [done|done|by rewrite Hid]|].
  intros x w' (tr' & St & Hf & Hdone & _ & Hx). exists tr'. destruct St as [E S O K].
  assert (kept (batch w) (batch w')) as HK.
  { apply (kept_trans _ (batch w1)); [|done]. rewrite Hb1. by split. }
  split_and!; [|intros i ti|by rewrite Hf, Hb1, Hperm|done].
  - split; [by apply (ext_trans _ [] w1)|done|done|done].
  - destruct HK as [(_&_&_&->&_) _ _]. intros Hin. rewrite Hf, Hb1. simpl.
    destruct (decide (i = t_call_id t)) as [->|Hne].
    + destruct (ok_started _ _ Hok1 (t_call_id t) (t_attempt_id t)) as [_ [y Hy]];
        [by rewrite Hb1|]. rewrite <-Hid in Hy |- *.
      destruct (Hdone _ _ eq_refl Hy); auto.
    + rewrite done_ids_app, rejected_ids_app, !elem_of_app.
      destruct (Hacc i ti Hin) as [?|[?|Hin']]; [by auto..|].
      rewrite Hperm in Hin'. csimpl in Hin'. apply elem_of_cons in Hin' as [?|?]; [done|auto].
Qed.

(** ** Cancelling a batch *)

(** The error of a batch, given what it was before and what was refused since: the first one
    stays, new ones satisfy [P], and without one nothing was refused. *)
Definition error_ok (P : EngineError → Prop) (before after : option EngineError)
    (tr' : list Effect) : Prop :=
  (before = after ∨ before = None)
  ∧ (after = None → rejected_ids tr' = [])
  ∧ (before = None → ∀ e, after = Some e → P e).

Lemma error_ok_refl P e : error_ok P e e [].
Proof. split_and!; [by left|done|]. intros -> ? [=]. Qed.

Lemma error_ok_first {X} P before (x : result X EngineError) tr' :
  match x with Ok _ => rejected_ids tr' = [] | Err e => P e end →
  error_ok P before (first_error before x) tr'.
Proof. unfold error_ok, first_error. destruct before, x; naive_solver. Qed.

Lemma error_ok_trans P e1 e2 e3 tr1 tr2 :
  error_ok P e1 e2 tr1 → error_ok P e2 e3 tr2 → error_ok P e1 e3 (tr1 ++ tr2).
Proof.
  intros (A1 & B1 & C1) (A2 & B2 & C2). split_and!.
  - destruct A1 as [->| ->]; [done|by right].
  - intros ->. rewrite rejected_ids_app. destruct A2 as [->| ->]; by rewrite B1, B2.
  - intros -> e ->. destruct e2 as [e2|]; [|by apply C2].
    destruct A2 as [[= ->]|[=]]. by apply C1.
Qed.

Lemma error_ok_mono (P Q : EngineError → Prop) e1 e2 tr' :
  (∀ e, P e → Q e) → error_ok P e1 e2 tr' → error_ok Q e1 e2 tr'.
Proof. unfold error_ok. naive_solver. Qed.

(** With [SkipPolicy] only a refused append is an error. *)
Lemma skip_error {X} (x : result X EngineError) tr' :
  commit_outcome SkipPolicy x tr' →
  match x with Ok _ => rejected_ids tr' = [] | Err e => append_error e end.
Proof. destruct x; [done|]. intros [?|(_ & f & _ & _ & ?)]; done. Qed.

Lemma settle_outcome {X} wait (x : result X EngineError) tr' :
  commit_outcome wait x tr' →
  match x with Ok _ => rejected_ids tr' = [] | Err e => settle_error e end.
Proof. destruct x; [done|]. intros [?|(_ & f & ? & ? & _)]; [by left|right; eauto]. Qed.

Lemma confirm_terminals_ok fuel : ∀ tr w err,
  batch_ok tr (batch w) → accounted tr (batch w) → (length (futures (batch w)) ≤ fuel)%nat →
  spec (confirm_terminals env fuel err) w (λ x w', ∃ tr' err',
    x = Ok err' ∧ stepped tr w tr' w' ∧ accounted (tr ++ tr') (batch w') ∧ error_ok append_error err err' tr').
Proof.
  induction fuel as [|fuel IH]; intros tr w err Hok Hacc Hlen; apply spec_bind, spec_get;
    (destruct (futures (batch w)) as [|t0 ts] eqn:Hf;
     [apply spec_ret; exists [], err; rewrite app_nil_r; split_and!;
      [done|apply stepped_quiet; [done|apply quiet_refl]|done|apply error_ok_refl]|]);
    [simpl in Hlen; lia|].
  apply spec_bind. eapply spec_mono; [apply select_spec; by rewrite Hf|].
  intros x w1 [(t & r & -> & Htaken & Hr)|[Q Hx]].
  - apply spec_bind, spec_attempt. eapply spec_mono; [by apply (settle_task_ok tr w t)|].
    intros x w2 (tr1 & St1 & Hacc1 & Hl1 & Hx%skip_error).
    eapply spec_mono; [apply (IH (tr ++ tr1)); [apply St1|done|rewrite <-Hf in Hlen; lia]|].
    intros y w3 (tr2 & err2 & -> & St2 & Hacc2 & He2). exists (tr1 ++ tr2), err2.
    split_and!; [done|by eapply stepped_trans|by rewrite app_assoc|].
    eapply error_ok_trans; [|exact He2]. by apply error_ok_first.
  - destruct Hx as [[_ [=]]|[[-> _]|[_ [=]]]]. apply spec_ret. exists [], err.
    rewrite app_nil_r. split_and!; [done|by apply stepped_quiet| |apply error_ok_refl].
    destruct Q as [_ ->]. done.
Qed.

Lemma close_unconfirmed_ok started : ∀ tr w err,
  batch_ok tr (batch w) → (∀ i t, (i, t) ∈ started → (i, t) ∈ started_calls (batch w)) →
  spec (close_unconfirmed env started err) w (λ x w', ∃ tr' err',
    x = Ok err' ∧ stepped tr w tr' w' ∧ futures (batch w') = futures (batch w)
    ∧ (∀ i t, (i, t) ∈ started → i ∈ done_ids (tr ++ tr') ∨ i ∈ rejected_ids (tr ++ tr'))
    ∧ error_ok append_error err err' tr').
Proof.
  induction started as [|[i t] started IH]; intros tr w err Hok Hsub; simpl.
  { apply spec_ret. exists [], err. split_and!; [done| |done|set_solver|apply error_ok_refl].
    apply stepped_quiet; [done|apply quiet_refl]. }
  apply spec_bind, spec_get.
  destruct (ok_started _ _ Hok i t) as [Hown [y Hy]]; [apply Hsub; by left|].
  unfold is_terminal. rewrite Hy. simpl. destruct y.
  - eapply spec_mono; [apply IH; [done|]; intros; apply Hsub; by right|].
    intros x w' (tr' & err' & -> & St & Hfut & Hdone & He). exists tr', err'. split_and!; try done.
    intros j u [[= -> ->]|Hin]%elem_of_cons; [|by eapply Hdone]. left.
    rewrite done_ids_app, elem_of_app. left. by apply (ok_fence _ _ Hok _ _ Hy).
  - apply spec_bind.
    apply (spec_mono _ _ (λ x w1, x = Ok tt ∧ ∃ tr1, stepped tr w tr1 w1
      ∧ rejected_ids tr1 = [] ∧ batch w1 = batch w)).
    { destruct (bool_decide _).
      - apply spec_modify. split; [done|]. eexists. split; [by apply stepped_emit|done].
      - apply spec_ret. split; [done|]. exists []. split; [|done].
        apply stepped_quiet; [done|apply quiet_refl]. }
    intros ? w1 (-> & tr1 & St1 & Hrej1 & Hb1).
    apply spec_bind, spec_attempt. eapply spec_mono;
      [apply (finalize_ok (tr ++ tr1)); [apply St1|done|done]|].
    intros x w2 (tr2 & St2 & Hfut2 & Hdone2 & _ & Hx%skip_error). simpl in Hdone2.
    pose proof (stepped_trans _ _ _ _ _ _ St1 St2) as St12.
    eapply spec_mono; [apply (IH (tr ++ tr1 ++ tr2)); [apply St12|]|].
    { intros j u Hin. destruct (st_kept _ _ _ _ St12) as [(_&_&_&->&_) _ _]. apply Hsub.
      by right. }
    intros x' w3 (tr3 & err3 & -> & St3 & Hfut3 & Hdone3 & He3).
    exists ((tr1 ++ tr2) ++ tr3), err3.
    split_and!; [done|exact (stepped_trans _ _ _ _ _ _ St12 St3)|by rewrite Hfut3, Hfut2, Hb1| |].
    + rewrite app_assoc. intros j u [[= -> ->]|Hin]%elem_of_cons; [|by eapply Hdone3].
      rewrite done_ids_app, (rejected_ids_app _ tr3), !elem_of_app.
      rewrite <-Hb1 in Hy. rewrite <-app_assoc in Hdone2. destruct (Hdone2 _ _ eq_refl Hy); auto.
    + eapply error_ok_trans; [|exact He3]. apply error_ok_first.
      by rewrite rejected_ids_app, Hrej1.
Qed.

(** After a cancellation every started call is settled. *)
Lemma cancel_and_confirm_ok tr w err :
  batch_ok tr (batch w) → accounted tr (batch w) →
  spec (cancel_and_confirm env err) w (λ x w', ∃ tr' err',
    x = Ok err' ∧ stepped tr w tr' w' ∧ settled (tr ++ tr') (batch w') ∧ error_ok append_error err err' tr').
Proof.
  intros Hok Hacc. apply spec_bind, spec_get. apply spec_bind, spec_modify.
  set (e := CancelRequested _). set (w1 := set_trace _ _).
  assert (stepped tr w [e] w1) as St1 by (by apply stepped_emit).
  apply spec_bind. eapply spec_mono; [apply (confirm_terminals_ok _ (tr ++ [e]))|].
  { apply St1. }
  { intros i t Hin. destruct (Hacc i t Hin) as [?|[?|?]]; rewrite ?done_ids_app,
      ?rejected_ids_app, !elem_of_app; auto. }
  { done. }
  intros x w2 (tr2 & err2 & -> & St2 & _ & He2).
  pose proof (stepped_trans _ _ _ _ _ _ St1 St2) as St12.
  destruct (st_kept _ _ _ _ St12) as [(_&_&_&Hst&_) _ _].
  eapply spec_mono; [apply (close_unconfirmed_ok _ (tr ++ [e] ++ tr2)); [apply St12|]|].
  { intros i t. by rewrite Hst. }
  intros x w3 (tr3 & err3 & -> & St3 & _ & Hdone & He3).
  pose proof (stepped_trans _ _ _ _ _ _ St12 St3) as St.
  exists (([e] ++ tr2) ++ tr3), err3. split_and!; [done|exact St| |].
  - destruct (st_kept _ _ _ _ St) as [(_&_&_&Hst'&_) _ _]. intros i t. rewrite Hst'.
    intros Hin. rewrite app_assoc. by eapply Hdone.
  - eapply error_ok_trans; [|exact He3]. by apply (error_ok_trans _ _ _ _ [e] tr2 (error_ok_refl _ _)).
Qed.

(** ** Synthetic results *)

Lemma commit_synthetic_ok results wait : ∀ tr w err,
  batch_ok tr (batch w) →
  (∀ r, r ∈ results → attempt_fence (batch w) !! tool_use_id r = None ∧ own (tool_use_id r)) →
  spec (commit_synthetic env results wait err) w (λ x w', ∃ tr' err',
    x = Ok err' ∧ stepped tr w tr' w' ∧ futures (batch w') = futures (batch w)
    ∧ (∀ r, r ∈ results → tool_use_id r ∈ done_ids (tr ++ tr')
                          ∨ tool_use_id r ∈ rejected_ids (tr ++ tr'))
    ∧ error_ok settle_error err err' tr'
    ∧ (wait = SkipPolicy → error_ok append_error err err' tr')).
Proof.
  induction results as [|r results IH]; intros tr w err Hok Hnone; simpl.
  { apply spec_ret. exists [], err. split_and!; eauto using error_ok_refl; [|set_solver].
    apply stepped_quiet; [done|apply quiet_refl]. }
  apply spec_bind, spec_attempt. eapply spec_mono; [apply (finalize_ok tr); [done| |]|].
  { intros _. apply Hnone. by left. }
  { apply Hnone. by left. }
  intros x w1 (tr1 & St1 & Hf1 & _ & Hdone1 & Hx).
  eapply spec_mono; [apply (IH (tr ++ tr1)); [apply St1|]|].
  { intros r' Hr'. destruct (st_kept _ _ _ _ St1) as [_ Hat _]. specialize (Hat (tool_use_id r')).
    destruct (Hnone r') as [Hn ?]; [by right|]. rewrite Hn in Hat.
    split; [by destruct (_ !! _)|done]. }
  intros y w2 (tr2 & err2 & -> & St2 & Hf2 & Hdone2 & He2 & Hs2). exists (tr1 ++ tr2), err2.
  split_and!; [done|by eapply stepped_trans|congruence| | |].
  - rewrite app_assoc. intros r' [->|Hin]%elem_of_cons; [|by apply Hdone2].
    rewrite done_ids_app, rejected_ids_app, !elem_of_app. destruct (Hdone1 eq_refl); auto.
  - eapply error_ok_trans; [|exact He2]. by eapply error_ok_first, settle_outcome.
  - intros ->. eapply error_ok_trans; [|by apply Hs2]. by apply error_ok_first, skip_error.
Qed.

End lemmas.

End EngineCore.
