(* ===== verification/ToolExecution.v ===== *)
(** * Executing the calls of a response

    Models [unanswered_tool_call_entries], [get_unanswered_tool_calls] and [execute_tools] of
    [src/crates/agen/src/engine.rs]: which calls of a history still need a result, and the
    execution of a batch of calls after the response is complete, with its policies, pauses,
    cancellation and the two kinds of deadlines.  The theorems: no call ever gets two
    results, every started call has one when the batch ends unless the host refused it,
    and a result is published exactly when it is in the history. *)
From Stdlib Require Import ZArith String List Lia.
From stdpp Require Import base tactics numbers list strings gmap sets pretty.
From S2P Require Import Prelude Conversation ImageRecovery ProviderHistory Tool Timeline EngineCore.

Module ToolExecution.
Create HintDb calm.
Import Tool EngineCore.
Import ImageRecovery(HistoryEntry, mkEntry, item, annotation).

(** ** Unanswered calls *)

Section unanswered.
Context {A : Type}.

(** The scan: [by_provider_id] holds the places of unanswered calls in [calls]. *)
Fixpoint unanswered_from (entries : list (HistoryEntry A))
    (calls : list (option (HistoryEntry A))) (by_provider_id : gmap string (list nat))
  : list (option (HistoryEntry A)) :=
  match entries with
  | [] => calls
  | e :: rest =>
      match item e with
      | Conversation.ToolCall c =>
          let i := Conversation.tc_call_id c in
          unanswered_from rest (calls ++ [Some e])
            (<[i := default [] (by_provider_id !! i) ++ [length calls]]> by_provider_id)
      | Conversation.ToolResult r =>
          let i := Conversation.tr_call_id r in
          match by_provider_id !! i with
          | Some (k :: queue) =>
              unanswered_from rest (<[k := None]> calls) (<[i := queue]> by_provider_id)
          | _ => unanswered_from rest calls by_provider_id
          end
      | _ => unanswered_from rest calls by_provider_id
      end
  end.

Definition unanswered_tool_call_entries (history : list (HistoryEntry A))
  : list (HistoryEntry A) :=
  omap (λ e, e) (unanswered_from history [] ∅).

(** [get_unanswered_tool_calls]: the calls that may run, and the ids of those that may have
    run already. *)
Definition get_unanswered_tool_calls {Json} (sj : Serde Json) (history : list (HistoryEntry A))
  : list (ToolCall Json) * list string :=
  foldl (λ '(pending, started) e,
    match item e with
    | Conversation.ToolCall c =>
        if bool_decide (is_Some (Conversation.tc_execution_id c))
           || match Conversation.tc_status c with
              | Some Conversation.InProgress => true | _ => false end
        then (pending, started ++ [Conversation.tc_call_id c])
        else
          let input := match from_str sj (Conversation.tc_arguments c) with
                       | Some v => if is_object sj v then v else null sj
                       | None => null sj
                       end in
          (pending ++ [mkCall (Conversation.tc_call_id c) (Conversation.tc_name c) input], started)
    | _ => (pending, started)
    end) ([], []) (unanswered_tool_call_entries history).

(** ** Lemmas: unanswered calls

    The reference: a result answers the oldest unanswered call with its id. *)
Definition calls_with (i : string) (e : HistoryEntry A) : bool :=
  match item e with
  | Conversation.ToolCall c => bool_decide (Conversation.tc_call_id c = i) | _ => false end.

Fixpoint answer (i : string) (pending : list (HistoryEntry A)) : list (HistoryEntry A) :=
  match pending with
  | [] => []
  | e :: rest => if calls_with i e then rest else e :: answer i rest
  end.

Definition outstanding_step (pending : list (HistoryEntry A)) (e : HistoryEntry A)
  : list (HistoryEntry A) :=
  match item e with
  | Conversation.ToolCall _ => pending ++ [e]
  | Conversation.ToolResult r => answer (Conversation.tr_call_id r) pending
  | _ => pending
  end.

Definition outstanding (pending history : list (HistoryEntry A)) : list (HistoryEntry A) :=
  foldl outstanding_step pending history.

(** The places of the unanswered calls with an id, from [start] on. *)
Fixpoint places (start : nat) (i : string) (calls : list (option (HistoryEntry A))) : list nat :=
  match calls with
  | [] => []
  | Some e :: rest =>
      if calls_with i e then start :: places (S start) i rest else places (S start) i rest
  | None :: rest => places (S start) i rest
  end.

Lemma places_snoc i e calls : ∀ start,
  places start i (calls ++ [Some e])
  = places start i calls ++ (if calls_with i e then [(start + length calls)%nat] else []).
Proof.
  induction calls as [|[c|] calls IH]; intros start; simpl.
  - rewrite Nat.add_0_r. by destruct (calls_with i e).
  - rewrite IH, Nat.add_succ_r. by destruct (calls_with i c).
  - by rewrite IH, Nat.add_succ_r.
Qed.

Lemma places_ge i calls : ∀ start k, k ∈ places start i calls → (start ≤ k)%nat.
Proof.
  induction calls as [|[c|] calls IH]; intros start k; simpl; [set_solver| |].
  - destruct (calls_with i c); [|intros ?%IH; lia].
    intros [->|?%IH]%elem_of_cons; lia.
  - intros ?%IH. lia.
Qed.

(** Clearing the first place answers the oldest call. *)
Lemma places_pop i calls : ∀ start k queue,
  places start i calls = k :: queue →
  places start i (<[(k - start)%nat := None]> calls) = queue
  ∧ (∀ j, j ≠ i → places start j (<[(k - start)%nat := None]> calls) = places start j calls)
  ∧ omap (λ e, e) (<[(k - start)%nat := None]> calls) = answer i (omap (λ e, e) calls).
Proof.
  induction calls as [|c calls IH]; intros start k queue; [done|].
  assert (places (S start) i calls = k :: queue → (S start ≤ k)%nat) as Hge.
  { intros Hp. apply (places_ge i calls). rewrite Hp. by left. }
  assert ((S start ≤ k)%nat → (k - start = S (k - S start))%nat) as Hk by lia.
  destruct c as [c|]; simpl; [destruct (calls_with i c) eqn:Hc|].
  - intros [= <- <-]. rewrite Nat.sub_diag. simpl. split_and!; [done| |done].
    intros j Hj. destruct (calls_with j c) eqn:Hcj; [|done].
    unfold calls_with in *. destruct (item c); try done. rewrite bool_decide_eq_true in *. congruence.
  - intros Hp. rewrite (Hk (Hge Hp)). simpl.
    destruct (IH (S start) k queue Hp) as (H1 & H2 & H3).
    split_and!; [by rewrite Hc|intros j Hj; by rewrite H2|exact (f_equal (cons c) H3)].
  - intros Hp. rewrite (Hk (Hge Hp)). simpl. by apply IH.
Qed.

Lemma places_none i calls start :
  places start i calls = [] → answer i (omap (λ e, e) calls) = omap (λ e, e) calls.
Proof.
  revert start. induction calls as [|[c|] calls IH]; intros start; simpl; [done| |apply IH].
  destruct (calls_with i c) eqn:Hc; [done|]. intros Hp. exact (f_equal (cons c) (IH _ Hp)).
Qed.

Lemma unanswered_from_exact entries : ∀ calls queues,
  (∀ i, default [] (queues !! i) = places 0 i calls) →
  omap (λ e, e) (unanswered_from entries calls queues) = outstanding (omap (λ e, e) calls) entries.
Proof.
  induction entries as [|e entries IH]; intros calls queues Hq; [done|]. simpl.
  unfold outstanding. simpl. unfold outstanding_step at 2.
  destruct (item e) as [m|b|c|r|r] eqn:He; try by apply IH.
  - rewrite IH; [by rewrite omap_app|]. intros i. rewrite places_snoc.
    unfold calls_with. rewrite He. destruct (decide (Conversation.tc_call_id c = i)) as [->|Hne].
    + by rewrite lookup_insert_eq, bool_decide_eq_true_2, <-Hq.
    + by rewrite lookup_insert_ne, bool_decide_eq_false_2, app_nil_r.
  - specialize (Hq (Conversation.tr_call_id r)) as Hr.
    destruct (queues !! Conversation.tr_call_id r) as [[|k queue]|] eqn:Hl; simpl in Hr.
    + rewrite IH by done. by rewrite (places_none _ _ 0).
    + symmetry in Hr. apply places_pop in Hr as (H1 & H2 & H3). rewrite Nat.sub_0_r in *.
      rewrite IH; [by rewrite H3|]. intros i.
      destruct (decide (i = Conversation.tr_call_id r)) as [->|Hne].
      * by rewrite lookup_insert_eq, H1.
      * by rewrite lookup_insert_ne, H2.
    + rewrite IH by done. by rewrite (places_none _ _ 0).
Qed.

Lemma unanswered_exact history :
  unanswered_tool_call_entries history = outstanding [] history.
Proof. apply unanswered_from_exact. intros i. by rewrite lookup_empty. Qed.

End unanswered.

(** ** The calls a history owes an answer, by id *)

Fixpoint answer_id (i : string) (l : list string) : list string :=
  match l with
  | [] => []
  | j :: l => if bool_decide (j = i) then l else j :: answer_id i l
  end.

Definition owes_step (l : list string) (i : Item) : list string :=
  match i with
  | Conversation.ToolCall c => l ++ [Conversation.tc_call_id c]
  | Conversation.ToolResult r => answer_id (Conversation.tr_call_id r) l
  | _ => l
  end.

(** The calls of [l] and of the items that the items leave without a result. *)
Definition owes (l : list string) (its : list Item) : list string := foldl owes_step l its.

Lemma owes_app l its1 its2 : owes l (its1 ++ its2) = owes (owes l its1) its2.
Proof. apply foldl_app. Qed.

Lemma list_filter_all {X} (P : X → Prop) `{!∀ x, Decision (P x)} (l : list X) :
  (∀ x, x ∈ l → P x) → filter P l = l.
Proof.
  induction l as [|x l IH]; intros Hl; [done|]. rewrite filter_cons, decide_True by (apply Hl; by left).
  f_equal. apply IH. intros y Hy. apply Hl. by right.
Qed.

Lemma answer_id_filter i l : NoDup l → answer_id i l = filter (λ j, j ≠ i) l.
Proof.
  induction 1 as [|j l Hj Hl IH]; [done|]. simpl. rewrite filter_cons.
  case_bool_decide as Hi; [subst j|].
  - rewrite decide_False by auto. symmetry. apply list_filter_all. intros k Hk Heq. by subst k.
  - rewrite decide_True by done. by rewrite IH.
Qed.

Lemma owes_results its : ∀ l,
  Forall (λ i, ProviderHistory.is_result i = true) its → NoDup l →
  owes l its = filter (λ j, j ∉ ProviderHistory.result_ids its) l.
Proof.
  induction its as [|it its IH]; intros l Hits Hl; simpl.
  { symmetry. apply list_filter_all. intros j _. set_solver. }
  apply Forall_cons in Hits as [Hit Hits]. destruct it as [| | |r|]; try done. simpl.
  rewrite answer_id_filter by done. rewrite IH by (done || by apply NoDup_filter).
  rewrite list_filter_filter. apply list_filter_iff. intros j.
  change (ProviderHistory.result_ids (Conversation.ToolResult r :: its))
    with (Conversation.tr_call_id r :: ProviderHistory.result_ids its). set_solver.
Qed.

Lemma owes_calls its : ∀ l,
  Forall (λ i, ProviderHistory.is_result i = false) its →
  owes l its = l ++ ProviderHistory.call_ids its.
Proof.
  induction its as [|it its IH]; intros l Hits; simpl; [by rewrite app_nil_r|].
  apply Forall_cons in Hits as [Hit Hits]. rewrite IH by done.
  destruct it as [| |c| |]; try done. unfold ProviderHistory.call_ids. simpl. by rewrite <-app_assoc.
Qed.

(** The ids of the entries that are calls. *)
Definition entry_ids {A} (l : list (HistoryEntry A)) : list string :=
  omap (λ e, ProviderHistory.call_id_of (item e)) l.

Lemma outstanding_owes {A} (h : list (HistoryEntry A)) : ∀ p,
  Forall (λ e, ProviderHistory.is_call (item e) = true) p →
  Forall (λ e, ProviderHistory.is_call (item e) = true) (outstanding p h)
  ∧ entry_ids (outstanding p h) = owes (entry_ids p) (item <$> h).
Proof.
  assert (∀ i (p : list (HistoryEntry A)), entry_ids (answer i p) = answer_id i (entry_ids p)
    ∧ (Forall (λ e, ProviderHistory.is_call (item e) = true) p →
       Forall (λ e, ProviderHistory.is_call (item e) = true) (answer i p))) as Ha.
  { intros i. unfold entry_ids. induction p as [|e p [IH1 IH2]]; [done|]. csimpl. unfold calls_with.
    destruct (item e) as [| |c| |] eqn:He; csimpl; rewrite ?He; csimpl;
      try (split; [done|]; intros [Hc ?]%Forall_cons; by rewrite He in Hc).
    case_bool_decide; csimpl; rewrite ?He; csimpl; rewrite ?bool_decide_eq_true_2 by done.
    - split; [done|]. by intros [_ ?]%Forall_cons.
    - split; [by rewrite IH1|]. intros [? ?]%Forall_cons. constructor; auto. }
  induction h as [|e h IH]; intros p Hp; [done|]. csimpl.
  unfold outstanding in *. cbn [foldl]. unfold outstanding_step at 2 4. unfold owes. cbn [foldl].
  destruct (item e) as [| |c|r|] eqn:He; try (by apply IH).
  - destruct (IH (p ++ [e])) as [H1 H2].
    { apply Forall_app. split; [done|]. by repeat constructor; rewrite He. }
    split; [done|]. rewrite H2. unfold entry_ids. rewrite omap_app. csimpl. by rewrite He.
  - destruct (Ha (Conversation.tr_call_id r) p) as [H1 H2].
    destruct (IH (answer (Conversation.tr_call_id r) p) (H2 Hp)) as [H3 H4].
    split; [done|]. by rewrite H4, H1.
Qed.

(** ** The two kinds of unanswered calls *)

(** A call is recorded as one that may have run. *)
Definition begun (c : Conversation.ToolCallItem) : bool :=
  bool_decide (is_Some (Conversation.tc_execution_id c))
  || match Conversation.tc_status c with Some Conversation.InProgress => true | _ => false end.

Definition pending_of {A Json} (sj : Serde Json) (e : HistoryEntry A) : option (ToolCall Json) :=
  match item e with
  | Conversation.ToolCall c =>
      if begun c then None
      else Some (mkCall (Conversation.tc_call_id c) (Conversation.tc_name c)
                   (match from_str sj (Conversation.tc_arguments c) with
                    | Some v => if is_object sj v then v else null sj
                    | None => null sj
                    end))
  | _ => None
  end.

Definition begun_of {A} (e : HistoryEntry A) : option string :=
  match item e with
  | Conversation.ToolCall c => if begun c then Some (Conversation.tc_call_id c) else None
  | _ => None
  end.

Lemma unanswered_kinds {A Json} (sj : Serde Json) (h : list (HistoryEntry A)) :
  get_unanswered_tool_calls sj h
  = (omap (pending_of sj) (outstanding [] h), omap begun_of (outstanding [] h)).
Proof.
  unfold get_unanswered_tool_calls. rewrite unanswered_exact. generalize (outstanding [] h) as l.
  assert (∀ l p s, foldl (λ '(pending, started) e, match item e with
    | Conversation.ToolCall c =>
        if begun c then (pending, started ++ [Conversation.tc_call_id c])
        else
          let input := match from_str sj (Conversation.tc_arguments c) with
                       | Some v => if is_object sj v then v else null sj
                       | None => null sj end in
          (pending ++ [mkCall (Conversation.tc_call_id c) (Conversation.tc_name c) input], started)
    | _ => (pending, started) end) (p, s) l
    = (p ++ omap (pending_of sj) l, s ++ omap (@begun_of A) l)) as H; [|intros l; apply H].
  induction l as [|e l IH]; intros p s; [by rewrite !app_nil_r|]. cbn [foldl].
  destruct (item e) as [| |c| |] eqn:He; [| |destruct (begun c) eqn:Hc| |]; rewrite IH; csimpl;
    unfold pending_of at 2, begun_of at 2; rewrite He, ?Hc; by rewrite <-?app_assoc.
Qed.

Lemma kinds_ids {A Json} (sj : Serde Json) (l : list (HistoryEntry A)) :
  (id <$> omap (pending_of sj) l) ++ omap begun_of l ≡ₚ entry_ids l.
Proof.
  unfold entry_ids. induction l as [|e l IH]; [done|]. csimpl. unfold pending_of at 1, begun_of at 1.
  destruct (item e) as [| |c| |]; try done. destruct (begun c); csimpl; rewrite <-IH; [|done].
  by rewrite Permutation_middle.
Qed.

Lemma unanswered_owes {A Json} (sj : Serde Json) (h : list (HistoryEntry A)) :
  (id <$> omap (pending_of sj) (outstanding [] h)) ++ omap begun_of (outstanding [] h)
  ≡ₚ owes [] (item <$> h).
Proof.
  rewrite kinds_ids. destruct (outstanding_owes h []) as [_ ->]; [constructor|]. done.
Qed.

(** ** The batch *)

Section execution.
Context {A Json HttpError JsonError : Type} (env : Env A Json).
Abbreviation State := (State A Json).
Abbreviation Batch := (Batch Json).
Abbreviation EngineError := (EngineError HttpError JsonError).
Abbreviation M := (@M A Json HttpError JsonError).

(** The identities the host gave to unanswered calls, by call id. *)
Definition logical_call_ids (history : list (HistoryEntry A)) : gmap string (list (option string)) :=
  foldl (λ m e,
    match item e with
    | Conversation.ToolCall c =>
        let i := Conversation.tc_call_id c in
        <[i := default [] (m !! i) ++ [logical_tool_call_id env (annotation e)]]> m
    | _ => m
    end) ∅ (unanswered_tool_call_entries history).

Definition pop_logical (m : gmap string (list (option string))) (i : string)
  : option string * gmap string (list (option string)) :=
  match m !! i with Some (x :: q) => (x, <[i := q]> m) | _ => (None, m) end.

Definition contract_violation {X} (message : string) : M X :=
  fail (Interceptor PreToolCall (interceptor_error_new ContractViolation message)).

(** A call that will run: with its context, and whether there is a tool for it. *)
Definition Approved : Type := ToolCall Json * ToolExecutionContext * bool.

(** Phase 1: the policy before each call.  [inl] is an early return. *)
Fixpoint approve_calls (bid : string) (index : nat) (calls : list (ToolCall Json))
    (logical : gmap string (list (option string))) (approved : list Approved)
    (synthetic : list ToolResult)
  : M (ToolExecutionResult + list Approved * list ToolResult) :=
  match calls with
  | [] => ret (inr (approved, synthetic))
  | call :: rest =>
      let expected := id call in
      let '(lid, logical) := pop_logical logical expected in
      let context := context_new expected bid index in
      if negb (is_object (serde_json env) (input call)) then
        approve_calls bid (S index) rest logical approved
          (synthetic ++ [result_error expected "Tool arguments must be one complete JSON object"])
      else
        let! known := ask env (λ now, get_tool env now (name call)) in
        if (known : bool) then
          let! answer := attempt (await_tool_policy env
                           (λ now, pre_tool_call env now call context) PreToolCall) in
          match answer with
          | Err (ImageRecovery.OtherEngineError PauseRequested) => ret (inl ToolsPaused)
          | Err e => throw e
          | Ok (action, call', context') =>
              let! _ := emit (Decided expected action) in
              if negb (bool_decide (id call' = expected)) then
                contract_violation "pre-tool interceptor changed immutable tool call identity"
              else
                let context' := mkContext (id call') lid (x_batch_id context')
                                  (x_call_index context') in
                let remember := modify_batch (λ b,
                  set_call_info_map b (<[id call' := (call', context')]> (call_info_map b))) in
                match action with
                | Continue =>
                    let! _ := remember in
                    approve_calls bid (S index) rest logical
                      (approved ++ [(call', context', true)]) synthetic
                | Skip => approve_calls bid (S index) rest logical approved synthetic
                | SyntheticResult r =>
                    if negb (bool_decide (tool_use_id r = expected)) then
                      contract_violation "synthetic tool result changed immutable tool call identity"
                    else
                      let! _ := remember in
                      approve_calls bid (S index) rest logical approved (synthetic ++ [r])
                | Abort reason => fail (Aborted reason)
                | Pause => ret (inl ToolsPaused)
                end
          end
        else
          let context := mkContext expected lid bid index in
          approve_calls bid (S index) rest logical (approved ++ [(call, context, false)]) synthetic
  end.

(** Phase 2: the fence is set up for all calls, then their tasks start. *)
Definition register_calls (approved : list Approved) : M unit :=
  let started := (λ a : Approved, (id a.1.1, x_batch_id a.1.2)) <$> approved in
  modify_batch (λ b,
    set_attempt_fence (set_started_calls b started)
      (foldl (λ f p, register f p.1 p.2) (attempt_fence b) started)).

Fixpoint start_calls (approved : list Approved) : M unit :=
  match approved with
  | [] => ret tt
  | (call, context, known) :: rest =>
      let! _ :=
        if (known : bool) then
          let! _ := emit (Started (id call) (x_batch_id context) (x_logical_call_id context)) in
          modify_batch (λ b, set_futures
            (set_execution_handles b ({[id call]} ∪ execution_handles b))
            (futures b ++ [mkTask (id call) (x_batch_id context) None]))
        else
          modify_batch (λ b, set_futures b (futures b ++
            [mkTask (id call) (x_batch_id context)
               (Some (result_error (id call) ("Tool not found: " +:+ name call)))])) in
      start_calls rest
  end.

(** The local variables of the loop. *)
Record Locals := mkLocals {
  pause_requested : bool;
  pause_deadline : bool;
  batch_error : option EngineError;
  locally_enqueued_cancel : bool
}.

(** [let _ = self.cancel_tx.try_send(())]. *)
Definition enqueue_cancel : M unit := modify (λ w, set_cancel_rx w true).

(** After the loop: a cancel request of the batch's own must not outlive it. *)
Definition finish_tools (l : Locals) : M ToolExecutionResult :=
  let! _ := if locally_enqueued_cancel l
            then modify (λ w, set_cancel_rx (tick env w) false) else ret tt in
  match batch_error l with
  | Some e => let! _ := abort_block env in throw e
  | None => ret (if pause_requested l then ToolsPaused else ToolsCompleted)
  end.

(** The cancel branch of the loop. *)
Definition cancel_tools (l : Locals) : M ToolExecutionResult :=
  let! e := cancel_and_confirm env (batch_error l) in
  let! _ := abort_block env in
  match e with
  | Some e => throw e
  | None => if pause_requested l then ret ToolsPaused else fail Cancelled
  end.

(** The loop [while !futures.is_empty()]. *)
Fixpoint execute_loop (fuel : nat) (l : Locals) : M ToolExecutionResult :=
  let! w := get in
  match futures (batch w) with
  | [] => finish_tools l
  | _ =>
      match fuel with
      | O => panic
      | S fuel =>
          let! wake := select_tools env (negb (pause_requested l)) (pause_deadline l) true in
          match wake with
          | WakeTask attempt_id r =>
              let! x := attempt (finalize_and_commit_tool_result env r (Some attempt_id)
                          (for_pause_deadline (pause_deadline l))) in
              match x with
              | Ok _ => execute_loop fuel l
              | Err e =>
                  let! w := get in
                  let error := first_error (batch_error l) x in
                  match futures (batch w) with
                  | [] => execute_loop fuel (mkLocals (pause_requested l) (pause_deadline l)
                            error (locally_enqueued_cancel l))
                  | _ =>
                      let! _ := enqueue_cancel in
                      execute_loop fuel (mkLocals (pause_requested l) (pause_deadline l) error true)
                  end
              end
          | WakePause =>
              execute_loop fuel (mkLocals true true (batch_error l) (locally_enqueued_cancel l))
          | WakeDeadline =>
              let! _ := enqueue_cancel in
              execute_loop fuel (mkLocals (pause_requested l) false (batch_error l) true)
          | WakeCancel => cancel_tools l
          end
      end
  end.

(** The rounds the loop may take: one for each task, one for a pause, one for its deadline. *)
Definition execute_fuel (b : Batch) : nat := length (futures b) + 2.

Definition run_approved (approved : list Approved) (synthetic : list ToolResult)
  : M ToolExecutionResult :=
  let! _ := register_calls approved in
  let! _ := start_calls approved in
  let! e := commit_synthetic env synthetic Interruptible None in
  let! w := get in
  match e, futures (batch w) with
  | Some _, _ :: _ =>
      let! _ := enqueue_cancel in
      execute_loop (execute_fuel (batch w)) (mkLocals false false e true)
  | _, _ => execute_loop (execute_fuel (batch w)) (mkLocals false false e false)
  end.

(** A pause before any tool has started leaves every call to a later retry. *)
Definition unless_paused {X} (m : M unit) (paused : X) (k : M X) : M X :=
  let! r := attempt m in
  match r with
  | Ok _ => k
  | Err (ImageRecovery.OtherEngineError PauseRequested) => ret paused
  | Err e => throw e
  end.

Definition next_batch_id (w : State) : string :=
  "tool-batch-" +:+ pretty (N.of_nat (tool_execution_batch_count w)).

Definition execute_tools (tool_calls : list (ToolCall Json)) : M ToolExecutionResult :=
  unless_paused (check_policy_interruption env) ToolsPaused (
    let! w := get in
    let bid := next_batch_id w in
    let! _ := modify (λ w, set_batch
      (set_tool_execution_batch_count w (S (tool_execution_batch_count w))) (batch_new bid)) in
    let! r := approve_calls bid 0 tool_calls (logical_call_ids (entries w)) [] [] in
    match r with
    | inl stop => ret stop
    | inr (approved, synthetic) =>
        unless_paused (check_policy_interruption env) ToolsPaused
          (run_approved approved synthetic)
    end).

(** ** Lemmas: approving calls *)

Definition approving (e : Effect) : Prop := match e with Decided _ _ => True | _ => False end.

Definition skipped_ids (tr : list Effect) : list string :=
  omap (λ e, match e with Decided i Skip => Some i | _ => None end) tr.

(** The policy skips some call. *)
Definition may_skip : Prop :=
  ∃ now call context call' context', pre_tool_call env now call context = Ok (Skip, call', context').

(** The errors of phase 1. *)
Definition approve_error (e : EngineError) : Prop :=
  ∃ f, e = fail_with f
    ∧ (f = Cancelled ∨ (∃ reason, f = Aborted reason) ∨ ∃ x, f = Interceptor PreToolCall x).

Definition approved_ids (l : list Approved) : list string := (λ a : Approved, id a.1.1) <$> l.

Definition approve_post (calls : list (ToolCall Json)) (approved : list Approved)
    (synthetic : list ToolResult) (w : State)
    (x : result (ToolExecutionResult + list Approved * list ToolResult) EngineError) (w' : State)
  : Prop :=
  ∃ tr m, ext w tr w' ∧ Forall approving tr ∧ batch w' = set_call_info_map (batch w) m
    ∧ match x with
      | Ok (inr (approved', synthetic')) =>
          ∃ na ns, approved' = approved ++ na ∧ synthetic' = synthetic ++ ns
            ∧ approved_ids na ++ (tool_use_id <$> ns) ++ skipped_ids tr ≡ₚ id <$> calls
            ∧ (skipped_ids tr = [] ∨ may_skip)
      | Ok (inl r) => r = ToolsPaused
      | Err e => approve_error e
      end.

Lemma set_info_same (b : Batch) : set_call_info_map b (call_info_map b) = b.
Proof. by destruct b. Qed.

(** The rest of the calls, after one that added [na] and [ns] and left the trace [tr]. *)
Lemma approve_post_cons call calls approved na synthetic ns w tr m w1 x w' :
  ext w tr w1 → Forall approving tr → batch w1 = set_call_info_map (batch w) m →
  approved_ids na ++ (tool_use_id <$> ns) ++ skipped_ids tr = [id call] →
  (skipped_ids tr = [] ∨ may_skip) →
  approve_post calls (approved ++ na) (synthetic ++ ns) w1 x w' →
  approve_post (call :: calls) approved synthetic w x w'.
Proof.
  intros E1 A1 B1 Hid Hk (tr2 & m2 & E2 & A2 & B2 & Hx). exists (tr ++ tr2), m2.
  split_and!; [exact (ext_trans _ _ _ _ _ E1 E2)|by apply Forall_app|by rewrite B2, B1|].
  destruct x as [[r|[a' s']]|e]; [done| |done].
  destruct Hx as (na2 & ns2 & -> & -> & Hp & Hk2). exists (na ++ na2), (ns ++ ns2).
  assert (skipped_ids (tr ++ tr2) = skipped_ids tr ++ skipped_ids tr2) as Happ by apply omap_app.
  rewrite <-!app_assoc, Happ. split_and!; [done|done| |].
  - csimpl. rewrite <-Hp. change (id call :: ?l) with ([id call] ++ l). rewrite <-Hid.
    unfold approved_ids. rewrite !fmap_app. solve_Permutation.
  - destruct Hk as [->|]; [|by right]. done.
Qed.

Lemma approve_quiet (w w1 : State) : quiet w w1 → batch w1 = set_call_info_map (batch w) (call_info_map (batch w)).
Proof. intros [_ ->]. by rewrite set_info_same. Qed.

(** An early return, or an error, after the trace [tr]. *)
Lemma approve_stop calls approved synthetic w tr m x w' :
  ext w tr w' → Forall approving tr → batch w' = set_call_info_map (batch w) m →
  match x with
  | Ok (inr _) => False | Ok (inl r) => r = ToolsPaused | Err e => approve_error e
  end → approve_post calls approved synthetic w x w'.
Proof. intros E F B Hx. exists tr, m. split_and!; try done. by destruct x as [[|[]]|]. Qed.

Lemma approve_calls_ok bid calls : ∀ index logical approved synthetic w,
  spec (approve_calls bid index calls logical approved synthetic) w
    (approve_post calls approved synthetic w).
Proof.
  induction calls as [|call calls IH]; intros index logical approved synthetic w.
  { apply spec_ret. exists [], (call_info_map (batch w)).
    split_and!; [apply ext_refl|constructor|by rewrite set_info_same|].
    exists [], []. rewrite !app_nil_r. split_and!; [done..|by left]. }
  cbn [approve_calls]. destruct (pop_logical logical (id call)) as [lid logical'].
  destruct (is_object (serde_json env) (input call)); cbn [negb].
  2:{ eapply spec_mono; [apply IH|]. intros x w' Hx.
      eapply (approve_post_cons call calls approved [] synthetic [_]); [apply ext_refl|constructor| | |by left|by rewrite app_nil_r].
      - symmetry. apply set_info_same.
      - reflexivity. }
  apply spec_bind, spec_ask. pose proof (quiet_tick env w) as Q1.
  destruct (get_tool env _ _).
  2:{ eapply spec_mono; [apply IH|]. intros x w' Hx.
      eapply (approve_post_cons call calls approved [_] synthetic []); [apply Q1|constructor| | |by left|by rewrite app_nil_r].
      - by apply approve_quiet.
      - reflexivity. }
  apply spec_bind, spec_attempt. eapply spec_mono; [apply await_policy_spec|].
  intros answer w2 [Q2 Hans]. pose proof (quiet_trans _ _ _ Q1 Q2) as Q. clear Q1 Q2.
  destruct answer as [[[action call'] context']|e].
  2:{ pose proof (λ x, approve_stop (call :: calls) approved synthetic w [] _ x w2
        (proj1 Q) (Forall_nil_2 _) (approve_quiet _ _ Q)) as Hstop.
      destruct Hans as [(f & -> & [->| ->])|(now & e' & _ & ->)].
      - apply spec_throw, Hstop. exists Cancelled. auto.
      - apply spec_ret, Hstop. done.
      - apply spec_throw, Hstop. eexists. eauto. }
  apply spec_bind, spec_modify. set (w3 := set_trace _ _).
  assert (ext w [Decided (id call) action] w3) as E3.
  { eapply quiet_ext; [exact Q|]. by apply ext_emit. }
  assert (batch w3 = batch w2) as B3 by done.
  assert (batch w3 = set_call_info_map (batch w) (call_info_map (batch w))) as B3'
    by (rewrite B3; by apply approve_quiet).
  assert (Forall approving [Decided (id call) action]) as A3 by by repeat constructor.
  pose proof (λ x, approve_stop (call :: calls) approved synthetic w _ _ x w3 E3 A3 B3') as Hstop.
  destruct (decide (id call' = id call)) as [Hid|Hid];
    [rewrite bool_decide_eq_true_2 by done|rewrite bool_decide_eq_false_2 by done]; cbn [negb].
  2:{ apply spec_throw. apply Hstop. eexists. eauto. }
  destruct action as [| |r|reason|].
  - apply spec_bind, spec_modify. eapply spec_mono; [apply IH|]. intros x w' Hx.
    eapply (approve_post_cons call calls approved [_] synthetic [] _ _ _ _ _ _
      (ext_set_batch _ _ _ _ E3)); [done| | |by left|rewrite app_nil_r; exact Hx].
    + cbn [batch set_batch]. rewrite B3'. reflexivity.
    + simpl. by rewrite Hid.
  - eapply spec_mono; [apply IH|]. intros x w' Hx.
    eapply (approve_post_cons call calls approved [] synthetic []); [done..| |].
    + right. destruct Hans as [now Hans]. by repeat eexists.
    + by rewrite !app_nil_r.
  - destruct (decide (tool_use_id r = id call)) as [Hr|Hr];
      [rewrite bool_decide_eq_true_2 by done|rewrite bool_decide_eq_false_2 by done]; cbn [negb].
    2:{ apply spec_throw. apply Hstop. eexists. eauto. }
    apply spec_bind, spec_modify. eapply spec_mono; [apply IH|]. intros x w' Hx.
    eapply (approve_post_cons call calls approved [] synthetic [r] _ _ _ _ _ _
      (ext_set_batch _ _ _ _ E3)); [done| | |by left|rewrite app_nil_r; exact Hx].
    + cbn [batch set_batch]. rewrite B3'. reflexivity.
    + simpl. by rewrite Hr.
  - apply spec_throw. apply Hstop. eexists. eauto.
  - apply spec_ret. by apply Hstop.
Qed.

(** ** Lemmas: starting calls *)

(** The calls the batch is for. *)
Context (own : string → Prop).

Definition task_of (a : Approved) : Task :=
  let '(call, context, known) := a in
  mkTask (id call) (x_batch_id context)
    (if known then None else Some (result_error (id call) ("Tool not found: " +:+ name call))).

Definition known_ids (l : list Approved) : list string :=
  omap (λ a : Approved, if a.2 then Some (id a.1.1) else None) l.

(** Effects before any result. *)
Definition preparing (e : Effect) : Prop :=
  match e with Decided _ _ | Started _ _ _ => True | _ => False end.

Lemma preparing_ids tr :
  Forall preparing tr → done_ids tr = [] ∧ rejected_ids tr = [] ∧ committed tr = [] ∧ orderly tr.
Proof.
  induction 1 as [|e tr He Htr (IH1 & IH2 & IH3 & IH4)]; [by repeat constructor|].
  destruct e; try done; split_and!; try done; by apply orderly_other.
Qed.

Lemma start_calls_ok approved : ∀ w,
  spec (start_calls approved) w (λ x w', x = Ok tt ∧ ∃ tr, ext w tr w'
    ∧ Forall (λ e, preparing e ∧ ¬ approving e) tr ∧ started_ids tr = known_ids approved
    ∧ ∃ handles, batch w' = set_futures (set_execution_handles (batch w) handles)
                   (futures (batch w) ++ (task_of <$> approved))).
Proof.
  induction approved as [|[[call context] known] approved IH]; intros w; simpl.
  { apply spec_ret. split; [done|]. exists []. split_and!; [apply ext_refl|constructor|done|].
    exists (execution_handles (batch w)). rewrite app_nil_r. by destruct (batch w). }
  apply spec_bind. set (t := task_of (call, context, known)).
  apply (spec_mono _ _ (λ x w1, x = Ok tt ∧ ∃ tr1, ext w tr1 w1
    ∧ Forall (λ e, preparing e ∧ ¬ approving e) tr1
    ∧ started_ids tr1 = known_ids [(call, context, known)]
    ∧ ∃ handles, batch w1 = set_futures (set_execution_handles (batch w) handles)
                   (futures (batch w) ++ [t]))).
  { destruct known.
    - apply spec_bind, spec_modify, spec_modify. split; [done|]. eexists.
      split; [by apply ext_set_batch, ext_emit|].
      split; [by repeat constructor; intros []|]. split; [done|]. by eexists.
    - apply spec_modify. split; [done|]. exists []. split; [apply ext_set_batch, ext_refl|].
      split_and!; [constructor|done|]. exists (execution_handles (batch w)).
      unfold t. simpl. by destruct (batch w). }
  intros ? w1 (-> & tr1 & E1 & P1 & S1 & h1 & B1).
  eapply spec_mono; [apply IH|]. intros ? w2 (-> & tr2 & E2 & P2 & S2 & h2 & B2).
  split; [done|]. exists (tr1 ++ tr2).
  split_and!; [exact (ext_trans _ _ _ _ _ E1 E2)|by apply Forall_app| |].
  - rewrite started_ids_app, S1, S2. unfold known_ids. simpl. by destruct known.
  - exists h2. rewrite B2, B1. simpl. by rewrite <-app_assoc.
Qed.

Lemma register_out l : ∀ f i,
  i ∉ l.*1 → foldl (λ f p, register f p.1 p.2) f l !! i = f !! i.
Proof.
  induction l as [|[j t] l IH]; intros f i Hi; [done|]. csimpl in Hi.
  apply not_elem_of_cons in Hi as [Hne Hi]. simpl. rewrite IH by done.
  by apply lookup_insert_ne.
Qed.

Lemma register_in l : ∀ f i t,
  NoDup l.*1 → (i, t) ∈ l →
  foldl (λ f p, register f p.1 p.2) f l !! i = Some (mkAttempt t false).
Proof.
  induction l as [|[j u] l IH]; intros f i t; [by intros _ ?%elem_of_nil|].
  csimpl. intros [Hj Hnd]%NoDup_cons [[= -> ->]|Hin]%elem_of_cons; [|by apply IH].
  rewrite register_out by done. apply lookup_insert_eq.
Qed.

(** Once the calls are started, the batch is as its invariant says. *)
Lemma started_batch_ok tr approved bid
    (m : gmap string (ToolCall Json * ToolExecutionContext)) handles :
  Forall preparing tr → NoDup (approved_ids approved) →
  (∀ i, i ∈ approved_ids approved → own i) →
  let started := (λ a : Approved, (id a.1.1, x_batch_id a.1.2)) <$> approved in
  let b := set_futures (set_execution_handles (set_attempt_fence
    (set_started_calls (set_call_info_map (batch_new bid) m) started)
    (foldl (λ f p, register f p.1 p.2) ∅ started)) handles) (task_of <$> approved) in
  batch_ok own tr b ∧ accounted tr b.
Proof using Type.
  intros Htr Hnd Hown started b. destruct (preparing_ids _ Htr) as (Hd & _ & _ & Ho).
  assert (started.*1 = approved_ids approved) as Hfst
    by (unfold started, approved_ids; by rewrite <-list_fmap_compose).
  split; [split; rewrite ?Hd|].
  - constructor.
  - set_solver.
  - simpl. set_solver.
  - intros i a Ha. simpl in Ha. destruct (decide (i ∈ started.*1)) as [Hin|Hin].
    + apply list_elem_of_fmap in Hin as ([j t] & -> & Hin).
      rewrite (register_in _ _ j t) in Ha by (rewrite ?Hfst; done).
      injection Ha as <-. simpl. split; [done|set_solver].
    + by rewrite register_out in Ha.
  - intros i t Hin. split; [|exists false; apply register_in; [by rewrite Hfst|done]].
    apply Hown. rewrite <-Hfst. apply list_elem_of_fmap. by exists (i, t).
  - intros t (a & -> & Hin)%list_elem_of_fmap. split.
    + apply list_elem_of_fmap. exists a. by destruct a as [[call context] known].
    + destruct a as [[call context] []]; [done|]. intros r [= <-]. done.
  - done.
  - intros i t (a & Ha & Hin)%list_elem_of_fmap. right; right. injection Ha as -> ->.
    apply list_elem_of_fmap. exists (task_of a). destruct a as [[call context] known].
    split; [done|]. apply list_elem_of_fmap. eauto.
Qed.

(** ** Lemmas: the loop *)

(** The rounds that do not consume a task. *)
Definition signal_rounds (l : Locals) : nat :=
  if pause_requested l then (if pause_deadline l then 1 else 0) else 2.

Definition locals_ok (l : Locals) : Prop := pause_deadline l = true → pause_requested l = true.

(** The blocks under way may be dropped at the end, but not when the batch has completed. *)
Definition ended (x : result ToolExecutionResult EngineError) (w w' : State) : Prop :=
  (w' = w ∨ ∃ t, w' = set_timeline w t) ∧ (x = Ok ToolsCompleted → w' = w).

Lemma abort_ended {X} (k : M X) w Q :
  (∀ w', (∃ t, w' = set_timeline w t) → spec k w' Q) → spec (let! _ := abort_block env in k) w Q.
Proof.
  intros Hk. unfold spec, bind, abort_block, with_timeline.
  destruct (Timeline.abort_spec (serde_json env) (timeline w)) as (t' & -> & _). simpl.
  apply Hk. by eexists.
Qed.

(** The end of a batch: everything is settled, and a result that is no error means that no
    append was refused. *)
Definition loop_post (tr : list Effect) (w : State) (l : Locals)
    (x : result ToolExecutionResult EngineError) (w' : State) : Prop :=
  ∃ tr' w1, stepped own tr w tr' w1 ∧ ended x w1 w' ∧ settled (tr ++ tr') (batch w1)
    ∧ match x with
      | Ok r => batch_error l = None ∧ rejected_ids tr' = []
                ∧ (r = ToolsCompleted → pause_requested l = false)
      | Err e => batch_error l = Some e ∨ (batch_error l = None ∧ settle_error e)
      end.

Lemma loop_post_step tr w tr1 w1 l l1 x w' :
  stepped own tr w tr1 w1 → error_ok settle_error (batch_error l) (batch_error l1) tr1 →
  (pause_requested l1 = false → pause_requested l = false) →
  loop_post (tr ++ tr1) w1 l1 x w' → loop_post tr w l x w'.
Proof.
  intros St1 (A1 & B1 & C1) Hp (tr2 & w2 & St2 & He & Hset & Hx). exists (tr1 ++ tr2), w2.
  split_and!; [by eapply stepped_trans|done|by rewrite app_assoc|]. clear He.
  destruct x as [r|e].
  - destruct Hx as (He & Hr & Hpause). rewrite rejected_ids_app, B1, Hr by done.
    split_and!; [destruct A1; congruence|done|auto].
  - destruct Hx as [He|[He Hset']].
    + destruct (batch_error l) as [e0|] eqn:Hl; [destruct A1 as [A1|[=]]; left; congruence|].
      right. split; [done|]. by apply C1.
    + right. split; [destruct A1; congruence|done].
Qed.

Lemma finish_tools_ok tr w l :
  batch_ok own tr (batch w) → settled tr (batch w) → spec (finish_tools l) w (loop_post tr w l).
Proof.
  intros Hok Hset. unfold finish_tools. apply spec_bind.
  apply (spec_mono _ _ (λ x w1, x = Ok tt ∧ quiet w w1)).
  { destruct (locally_enqueued_cancel l).
    - apply spec_modify. split; [done|]. split; [|done].
      by apply ext_nil.
    - apply spec_ret. eauto using quiet_refl. }
  intros ? w1 [-> Q]. pose proof (stepped_quiet _ _ _ _ Hok Q) as St.
  assert (settled (tr ++ []) (batch w1)) as Hset1
    by (rewrite app_nil_r; destruct Q as [_ ->]; done).
  destruct (batch_error l) as [e|] eqn:He; [apply abort_ended; intros w2 Hw2; apply spec_throw|apply spec_ret];
    exists [], w1; (split; [done|]).
  - split; [by split; [right|]|]. split; [done|by left].
  - split; [split; [by left|done]|]. split_and!; [done|done|done|]. by destruct (pause_requested l).
Qed.

Lemma cancel_tools_ok tr w l :
  batch_ok own tr (batch w) → accounted tr (batch w) → spec (cancel_tools l) w (loop_post tr w l).
Proof.
  intros Hok Hacc. unfold cancel_tools. apply spec_bind.
  eapply spec_mono; [by apply (cancel_and_confirm_ok _ own tr)|].
  intros ? w1 (tr1 & e & -> & St & Hset & (A1 & B1 & C1)). apply abort_ended. intros w2 Hw2.
  assert (∀ x : result ToolExecutionResult EngineError, x ≠ Ok ToolsCompleted → ended x w1 w2) as Hend
    by (intros; split; [by right|done]).
  destruct e as [e|]; [apply spec_throw|destruct (pause_requested l) eqn:Hp;
    [apply spec_ret|apply spec_throw]]; exists tr1, w1; (split; [done|]);
    (split; [by apply Hend|]); (split; [done|]).
  - destruct A1 as [A1|A1]; [by left|]. right. split; [done|]. left. by apply C1.
  - split_and!; [by destruct A1|by apply B1|done].
  - right. split; [by destruct A1|]. right. exists Cancelled. split; [done|]. left. by left.
Qed.

Lemma execute_loop_ok fuel : ∀ tr w l,
  batch_ok own tr (batch w) → accounted tr (batch w) → locals_ok l →
  (length (futures (batch w)) + signal_rounds l ≤ fuel)%nat →
  spec (execute_loop fuel l) w (loop_post tr w l).
Proof.
  induction fuel as [|fuel IH]; intros tr w l Hok Hacc Hl Hfuel; apply spec_bind, spec_get;
    (destruct (futures (batch w)) as [|t0 ts] eqn:Hf;
     [apply finish_tools_ok; [done|]; intros i t Hin;
      destruct (Hacc i t Hin) as [?|[?|Hin']]; [by auto..|rewrite Hf in Hin'; set_solver]|]);
    [simpl in Hfuel; lia|].
  rewrite <-Hf in Hfuel.
  apply spec_bind. eapply spec_mono; [apply select_spec; by rewrite Hf|].
  intros x w1 [(t & r & -> & Htaken & Hr)|[Q Hx]].
  - apply spec_bind, spec_attempt. eapply spec_mono; [by apply (settle_task_ok _ own tr w t)|].
    intros x w2 (tr1 & St1 & Hacc1 & Hl1 & Hx%settle_outcome).
    assert (∀ w3 l3, quiet w2 w3 → signal_rounds l3 = signal_rounds l → locals_ok l3 →
      spec (execute_loop fuel l3) w3 (loop_post (tr ++ tr1) w2 l3)) as Hgo.
    { intros w3 l3 Q3 Hr3 Hl3. pose proof (stepped_quiet _ _ _ _ (st_ok _ _ _ _ _ St1) Q3) as St3.
      destruct Q3 as [_ B3]. eapply spec_mono; [apply (IH (tr ++ tr1)); rewrite ?B3|].
      - apply St1.
      - done.
      - done.
      - rewrite Hr3. lia.
      - intros x3 w4 H4. apply (loop_post_step _ _ [] w3 _ l3); [done|apply error_ok_refl|done|].
        by rewrite app_nil_r. }
    destruct x as [b|e].
    + eapply spec_mono; [by apply Hgo; [apply quiet_refl|..]|]. intros y w3 Hy.
      eapply loop_post_step; [exact St1| |done|exact Hy].
      split_and!; [by left|done|]. by intros -> ? [=].
    + apply spec_bind, spec_get.
      assert (∀ local, error_ok settle_error (batch_error l) (batch_error
        (mkLocals (pause_requested l) (pause_deadline l)
           (first_error (batch_error l) (@Err bool _ e)) local)) tr1) as He
        by (intros; by apply error_ok_first).
      assert (quiet w2 (set_cancel_rx w2 true)) as Qc.
      { split; [|done]. by apply ext_nil. }
      destruct (futures (batch w2)); [|apply spec_bind, spec_modify];
        (eapply spec_mono; [by apply Hgo; [eauto using quiet_refl|..]|]); intros y w3 Hy;
        (eapply loop_post_step; [exact St1|apply He|done|exact Hy]).
  - pose proof (stepped_quiet _ _ _ _ Hok Q) as St1.
    assert (∀ w2 l2, quiet w w2 → S (signal_rounds l2) = signal_rounds l → locals_ok l2 →
      batch_error l2 = batch_error l → (pause_requested l2 = false → pause_requested l = false) →
      spec (execute_loop fuel l2) w2 (loop_post tr w l)) as Hgo.
    { intros w2 l2 Q2 Hr2 Hl2 He2 Hp2. pose proof (stepped_quiet _ _ _ _ Hok Q2) as St2.
      destruct Q2 as [_ B2]. eapply spec_mono; [apply (IH tr); rewrite ?B2; try done; lia|].
      intros x2 w3 H3. apply (loop_post_step _ _ [] w2 _ l2); [done| |done|by rewrite app_nil_r].
      rewrite He2. apply error_ok_refl. }
    destruct Hx as [[-> Hp]|[[-> Hd]|[-> _]]].
    + apply negb_true_iff in Hp. apply Hgo; try done. unfold signal_rounds. by rewrite Hp.
    + apply spec_bind, spec_modify. apply Hgo; try done.
      * eapply quiet_trans; [exact Q|]. split; [|done].
        by apply ext_nil.
      * unfold signal_rounds. simpl. by rewrite Hd, (Hl Hd).
    + destruct Q as [E B]. eapply spec_mono; [apply (cancel_tools_ok tr); by rewrite B|].
      intros x w2 H2. eapply (loop_post_step _ _ [] w1 _ l); [done|apply error_ok_refl|done|].
      by rewrite app_nil_r.
Qed.

(** ** The execution of a batch *)

(** What a batch of calls did, by its trace. *)
Record tools_report (calls : list (ToolCall Json)) (w : State) (tr : list Effect)
    (x : result ToolExecutionResult EngineError) (w' : State) : Prop := {
  rep_ext : ∃ w1, ext w tr w1 ∧ ended x w1 w';
  rep_orderly : orderly tr;
  rep_results : Forall (λ i, ProviderHistory.is_result i = true) (committed tr);
  rep_once : NoDup (done_ids tr);
  rep_theirs : ∀ i, i ∈ done_ids tr → i ∈ id <$> calls;
  rep_started_once : NoDup (started_ids tr);
  rep_started : ∀ i, i ∈ started_ids tr → i ∈ id <$> calls;
  rep_settled : starts_settled tr;
  rep_outcome : match x with
    | Ok r => rejected_ids tr = []
        ∧ (r = ToolsCompleted → (skipped_ids tr = [] ∨ may_skip)
             ∧ ∀ i, i ∈ id <$> calls → i ∈ done_ids tr ∨ i ∈ skipped_ids tr)
    | Err e => approve_error e ∨ settle_error e
    end
}.

Lemma settles_results tr : Forall settles tr → Forall (λ i, ProviderHistory.is_result i = true) (committed tr).
Proof. induction 1 as [|e tr He Htr IH]; [constructor|]. destruct e; try done. by constructor. Qed.

Lemma settles_none tr : Forall settles tr → started_ids tr = [] ∧ skipped_ids tr = [].
Proof. induction 1 as [|e tr He Htr [IH1 IH2]]; [done|]. by destruct e. Qed.

(** The batch once its calls have started: no fence is registered for anything else. *)
Record batch_started (tr0 : list Effect) (approved : list Approved) (w : State)
    (tr1 : list Effect) (w' : State) : Prop := {
  bs_ext : ext w tr1 w';
  bs_starting : Forall (λ e, preparing e ∧ ¬ approving e) tr1;
  bs_ids : started_ids tr1 = known_ids approved;
  bs_nothing : done_ids (tr0 ++ tr1) = [] ∧ rejected_ids (tr0 ++ tr1) = [];
  bs_ok : batch_ok own (tr0 ++ tr1) (batch w');
  bs_accounted : accounted (tr0 ++ tr1) (batch w');
  bs_started : (started_calls (batch w')).*1 = approved_ids approved;
  bs_fence : ∀ i, i ∉ approved_ids approved → attempt_fence (batch w') !! i = None
}.

Lemma start_ok tr0 approved bid m w :
  batch w = set_call_info_map (batch_new bid) m → Forall approving tr0 →
  NoDup (approved_ids approved) → (∀ i, i ∈ approved_ids approved → own i) →
  spec (let! _ := register_calls approved in start_calls approved) w
    (λ x w', x = Ok tt ∧ ∃ tr1, batch_started tr0 approved w tr1 w').
Proof.
  intros Hb Happ Hnd Hown. apply spec_bind, spec_modify. set (w1 := set_batch _ _).
  eapply spec_mono; [apply start_calls_ok|].
  intros ? w2 (-> & tr1 & E1 & P1 & S1 & handles & B2). split; [done|]. exists tr1.
  set (started := (λ a : Approved, (id a.1.1, x_batch_id a.1.2)) <$> approved) in *.
  assert (started.*1 = approved_ids approved) as Hfst
    by (unfold started, approved_ids; by rewrite <-list_fmap_compose).
  assert (Forall preparing (tr0 ++ tr1)) as Hprep.
  { apply Forall_app. split; [eapply Forall_impl; [exact Happ|]; by intros []|].
    eapply Forall_impl; [exact P1|]. by intros ? []. }
  destruct (started_batch_ok (tr0 ++ tr1) approved bid m handles Hprep Hnd Hown) as [Hok Hacc].
  destruct (preparing_ids _ Hprep) as (Hd0 & Hr0 & _).
  assert (batch w2 = set_futures (set_execution_handles (set_attempt_fence
    (set_started_calls (set_call_info_map (batch_new bid) m) started)
    (foldl (λ f p, register f p.1 p.2) ∅ started)) handles) (task_of <$> approved)) as B2'.
  { rewrite B2. unfold w1. simpl. by rewrite Hb. }
  split; [|done|done|done|by rewrite B2'|by rewrite B2'|by rewrite B2'|].
  { apply (ext_trans _ [] w1); [|done]. apply ext_set_batch, ext_refl. }
  intros i Hi. rewrite B2'. simpl. rewrite register_out by (by rewrite Hfst). done.
Qed.

(** What running approved calls and synthetic results comes to. *)
Definition run_post (tr0 : list Effect) (approved : list Approved) (synthetic : list ToolResult)
    (w : State) (x : result ToolExecutionResult EngineError) (w' : State) : Prop :=
  ∃ tr1 tr2 w1, ext w (tr1 ++ tr2) w1 ∧ ended x w1 w'
    ∧ Forall (λ e, preparing e ∧ ¬ approving e) tr1
    ∧ started_ids tr1 = known_ids approved ∧ Forall settles tr2
    ∧ batch_ok own (tr0 ++ tr1 ++ tr2) (batch w1)
    ∧ (∀ i, i ∈ approved_ids approved → i ∈ done_ids tr2 ∨ i ∈ rejected_ids tr2)
    ∧ (∀ r, r ∈ synthetic → tool_use_id r ∈ done_ids tr2 ∨ tool_use_id r ∈ rejected_ids tr2)
    ∧ match x with Ok _ => rejected_ids tr2 = [] | Err e => settle_error e end.

Lemma run_post_end tr0 approved synthetic w tr1 w2 tr2 w3 e l x w' :
  batch_started tr0 approved w tr1 w2 → stepped own (tr0 ++ tr1) w2 tr2 w3 →
  (∀ r, r ∈ synthetic → tool_use_id r ∈ done_ids ((tr0 ++ tr1) ++ tr2)
                        ∨ tool_use_id r ∈ rejected_ids ((tr0 ++ tr1) ++ tr2)) →
  error_ok settle_error None e tr2 → batch_error l = e →
  loop_post ((tr0 ++ tr1) ++ tr2) w3 l x w' →
  run_post tr0 approved synthetic w x w'.
Proof.
  intros [E1 P1 S1 [Hd0 Hr0] _ _ Hst _] St2 Hsyn (_ & Hn2 & He2) Hl (tr3 & w4 & St3 & Hend & Hset & Hx).
  pose proof (stepped_trans _ _ _ _ _ _ _ St2 St3) as St.
  exists tr1, (tr2 ++ tr3), w4. split_and!; try done.
  - exact (ext_trans _ _ _ _ _ E1 (st_ext _ _ _ _ _ St)).
  - apply St.
  - rewrite app_assoc. apply St.
  - intros i Hi. rewrite <-Hst in Hi. apply list_elem_of_fmap in Hi as ([j t] & -> & Hin).
    destruct (st_kept _ _ _ _ _ St) as [(_&_&_&Hs&_) _ _]. rewrite <-Hs in Hin.
    apply Hset in Hin. by rewrite <-app_assoc, done_ids_app, rejected_ids_app, Hd0, Hr0 in Hin.
  - intros r Hin%Hsyn. rewrite done_ids_app, rejected_ids_app, Hd0, Hr0 in Hin. simpl in Hin.
    rewrite done_ids_app, rejected_ids_app, !elem_of_app. naive_solver.
  - destruct x as [r|err].
    + destruct Hx as (He & Hr & _). by rewrite rejected_ids_app, Hr, Hn2 by congruence.
    + destruct Hx as [He|[_ He]]; [|done]. apply He2; congruence.
Qed.

Lemma run_approved_ok tr0 approved synthetic bid m w :
  batch w = set_call_info_map (batch_new bid) m → Forall approving tr0 →
  NoDup (approved_ids approved ++ (tool_use_id <$> synthetic)) →
  (∀ i, i ∈ approved_ids approved ++ (tool_use_id <$> synthetic) → own i) →
  spec (run_approved approved synthetic) w (run_post tr0 approved synthetic w).
Proof.
  intros Hb Happ [Hnd [Hdis _]]%NoDup_app Hown.
  destruct (start_ok tr0 approved bid m w Hb Happ Hnd ltac:(set_solver)) as (x & w2 & Hstart & -> & tr1 & Hbs).
  unfold run_approved. apply spec_bind.
  unfold bind in Hstart. destruct (register_calls approved w) as [[[[]|] w1]|] eqn:Hreg; try done.
  exists (Ok tt), w1. split; [done|]. apply spec_bind. exists (Ok tt), w2. split; [done|].
  destruct Hbs as [E1 P1 S1 H0 Hok Hacc Hst Hfence] eqn:Heq. clear Heq.
  apply spec_bind. eapply spec_mono; [apply (commit_synthetic_ok _ own _ _ (tr0 ++ tr1)); [done|]|].
  { intros r Hr. assert (tool_use_id r ∈ tool_use_id <$> synthetic) as Hin
      by by apply list_elem_of_fmap_2.
    split; [|apply Hown; set_solver]. apply Hfence. intros Hin'. by apply (Hdis _ Hin'). }
  intros ? w3 (tr2 & e2 & -> & St2 & Hf2 & Hdone2 & He2 & _).
  apply spec_bind, spec_get.
  assert (∀ w4 local, quiet w3 w4 →
    spec (execute_loop (execute_fuel (batch w3)) (mkLocals false false e2 local)) w4
      (run_post tr0 approved synthetic w)) as Hgo.
  { intros w4 local Q. pose proof (stepped_quiet _ _ _ _ (st_ok _ _ _ _ _ St2) Q) as St4.
    destruct Q as [_ B4].
    eapply spec_mono; [apply (execute_loop_ok _ ((tr0 ++ tr1) ++ tr2)); rewrite ?B4; try done|].
    - apply St2.
    - intros i t Hin. destruct (st_kept _ _ _ _ _ St2) as [(_&_&_&Hs&_) _ _]. rewrite Hs in Hin.
      rewrite Hf2, done_ids_app, rejected_ids_app, !elem_of_app.
      destruct (Hacc i t Hin) as [?|[?|?]]; auto.
    - intros x w5 H5. apply (run_post_end _ _ _ _ _ _ _ _ e2 (mkLocals false false e2 local) _ _ Hbs St2);
        [done|done|done|].
      apply (loop_post_step _ _ [] w4 _ _ _ _ St4 (error_ok_refl _ _)); [done|].
      rewrite app_nil_r. exact H5. }
  destruct e2 as [e2|]; [destruct (futures (batch w3)) eqn:Hf3|];
    try (apply Hgo, quiet_refl).
  apply spec_bind, spec_modify. apply Hgo.
  split; [|done]. by apply ext_nil.
Qed.

Lemma approving_ids tr :
  Forall approving tr → Forall preparing tr ∧ started_ids tr = [].
Proof.
  induction 1 as [|e tr He Htr [IH1 IH2]]; [by repeat constructor|]. destruct e; try done.
  by split; [constructor|].
Qed.

Lemma starting_skips tr : Forall (λ e, preparing e ∧ ¬ approving e) tr → skipped_ids tr = [].
Proof.
  induction 1 as [|e tr [H1 H2] Htr IH]; [done|]. by destruct e.
Qed.

Lemma known_ids_sublist l : known_ids l `sublist_of` approved_ids l.
Proof.
  unfold known_ids, approved_ids. induction l as [|[[c x] []] l IH]; csimpl; [done|..].
  - by apply sublist_skip.
  - by apply sublist_cons.
Qed.

(** A batch that stopped before any call ran. *)
Lemma report_stop calls w tr x w' :
  ext w tr w' → Forall approving tr →
  match x with Ok r => r = ToolsPaused | Err e => approve_error e end →
  tools_report calls w tr x w'.
Proof.
  intros E Htr Hx. destruct (approving_ids _ Htr) as [Hp Hs].
  destruct (preparing_ids _ Hp) as (Hd & Hr & Hc & Ho).
  split; rewrite ?Hd, ?Hs, ?Hc;
    [exists w'; split; [done|]; split; [by left|done]
    |done|constructor|constructor|set_solver|constructor|set_solver|by apply starts_settled_none|].
  destruct x as [r|e]; [subst r; by split|by left].
Qed.

Lemma report_run calls w tr0 w1 approved synthetic x w' :
  ext w tr0 w1 → Forall approving tr0 → NoDup (id <$> calls) →
  approved_ids approved ++ (tool_use_id <$> synthetic) ++ skipped_ids tr0 ≡ₚ id <$> calls →
  (skipped_ids tr0 = [] ∨ may_skip) →
  (∀ i, own i → i ∈ id <$> calls) → run_post tr0 approved synthetic w1 x w' →
  ∃ tr, tools_report calls w tr x w'.
Proof.
  intros E0 H0 Hnd Hp Hks Hown (tr1 & tr2 & w2 & E & Hend & P1 & S1 & S2 & Hok & Happ & Hsyn & Hx).
  exists (tr0 ++ tr1 ++ tr2). destruct (approving_ids _ H0) as [Hp0 Hs0].
  destruct (preparing_ids _ Hp0) as (Hd0 & Hr0 & Hc0 & Ho0).
  assert (Forall preparing tr1) as Hp1 by (eapply Forall_impl; [exact P1|]; by intros ? []).
  destruct (preparing_ids _ Hp1) as (Hd1 & Hr1 & Hc1 & Ho1).
  destruct (settles_none _ S2) as [Hs2 Hk2].
  assert (done_ids (tr0 ++ tr1 ++ tr2) = done_ids tr2) as Hd
    by (by rewrite !done_ids_app, Hd0, Hd1).
  assert (rejected_ids (tr0 ++ tr1 ++ tr2) = rejected_ids tr2) as Hr
    by (by rewrite !rejected_ids_app, Hr0, Hr1).
  assert (started_ids (tr0 ++ tr1 ++ tr2) = known_ids approved) as Hs
    by (by rewrite !started_ids_app, Hs0, Hs2, S1, app_nil_r).
  assert (skipped_ids (tr0 ++ tr1 ++ tr2) = skipped_ids tr0) as Hk.
  { unfold skipped_ids in *. rewrite !omap_app. fold (skipped_ids tr1).
    by rewrite (starting_skips tr1 P1), Hk2, app_nil_r. }
  assert (∀ i, i ∈ approved_ids approved → i ∈ id <$> calls) as Hin
    by (intros i Hi; rewrite <-Hp; set_solver).
  pose proof (sublist_subseteq _ _ (known_ids_sublist approved)) as Hsub.
  split; rewrite ?Hd, ?Hr, ?Hs.
  - exists w2. split; [exact (ext_trans _ _ _ _ _ E0 E)|done].
  - apply Hok.
  - rewrite !committed_app, Hc0, Hc1. by apply settles_results.
  - rewrite <-Hd. apply Hok.
  - intros i Hi. apply Hown. apply (ok_own _ _ _ Hok). by rewrite Hd.
  - eapply sublist_NoDup; [|apply known_ids_sublist].
    rewrite <-Hp in Hnd. by apply NoDup_app in Hnd as [? _].
  - intros i Hi. by apply Hin, Hsub.
  - intros l1 i a l l2 Heq.
    assert (i ∈ known_ids approved) as Hi.
    { rewrite <-Hs, Heq, started_ids_app. apply elem_of_app. right. by left. }
    rewrite app_assoc in Heq. apply app_cons_split in Heq as [(m & _ & ->)|(m & _ & ->)].
    + rewrite done_ids_app, rejected_ids_app, !elem_of_app. destruct (Happ i (Hsub _ Hi)); auto.
    + rewrite started_ids_app in Hs2. by destruct (started_ids m).
  - destruct x as [r|e]; [|by right]. split; [done|]. intros _. rewrite Hk. split; [done|]. intros i Hi.
    rewrite <-Hp, !elem_of_app in Hi. destruct Hi as [Hi|[Hi|Hi]]; [| |by right].
    + destruct (Happ _ Hi) as [?|Hrej]; [by left|]. rewrite Hx in Hrej. set_solver.
    + apply list_elem_of_fmap in Hi as (r' & -> & Hi). destruct (Hsyn _ Hi) as [?|Hrej]; [by left|].
      rewrite Hx in Hrej. set_solver.
Qed.

End execution.

Section execute_tools.
Context {A Json HttpError JsonError : Type} (env : Env A Json).
Abbreviation State := (State A Json).
Abbreviation EngineError := (EngineError HttpError JsonError).

Lemma unless_paused_ok {X} (paused : X) k w (Q : result X EngineError → State → Prop) :
  (∀ w', quiet w w' → spec k w' Q) →
  (∀ w', quiet w w' → Q (Ok paused) w') →
  (∀ w', quiet w w' → Q (Err (fail_with Cancelled)) w') →
  spec (unless_paused (check_policy_interruption env) paused k) w Q.
Proof.
  intros Hk Hp Hc. apply spec_bind, spec_attempt. eapply spec_mono; [apply check_policy_spec|].
  intros r w' [Qw [->|(f & -> & [->| ->])]]; [by apply Hk|apply spec_throw; auto|apply spec_ret; auto].
Qed.

Lemma execute_tools_ok (calls : list (ToolCall Json)) w :
  NoDup (id <$> calls) →
  spec (HttpError := HttpError) (JsonError := JsonError) (execute_tools env calls) w
    (λ x w', ∃ tr, tools_report env calls w tr x w').
Proof.
  intros Hnd.
  assert (∀ w' tr (x : result ToolExecutionResult EngineError), ext w tr w' → Forall approving tr →
    match x with Ok r => r = ToolsPaused | Err e => approve_error e end →
    ∃ tr, tools_report env calls w tr x w') as Hstop
    by (intros; eexists; by eapply report_stop).
  assert (approve_error (@fail_with HttpError JsonError Cancelled)) as Hcan by (eexists; eauto).
  apply unless_paused_ok; [|intros w' [E _]; by apply (Hstop w' [])..].
  intros w0 Q0. apply spec_bind, spec_get. apply spec_bind, spec_modify. set (w1 := set_batch _ _).
  assert (ext w [] w1) as E1.
  { eapply quiet_ext; [exact Q0|]. by apply ext_nil. }
  apply spec_bind. eapply spec_mono; [apply approve_calls_ok|].
  intros x w2 (tr & m & E2 & A2 & B2 & Hx).
  pose proof (ext_trans _ _ _ _ _ E1 E2) as E. simpl in E.
  destruct x as [[r|[approved synthetic]]|e]; [apply spec_ret; by eapply Hstop| |by eapply Hstop].
  destruct Hx as (na & ns & -> & -> & Hp & Hks). simpl.
  apply unless_paused_ok; [|intros w' Q; apply (Hstop w' tr); [by eapply ext_quiet|done..]..].
  intros w3 Q3.
  assert (∀ i, i ∈ approved_ids na ++ (tool_use_id <$> ns) → i ∈ id <$> calls) as Hown
    by (intros i Hi; rewrite <-Hp; set_solver).
  eapply spec_mono; [apply (run_approved_ok _ (λ i, i ∈ id <$> calls) tr na ns (next_batch_id w0) m)|].
  - destruct Q3 as [_ ->]. by rewrite B2.
  - done.
  - rewrite <-Hp, app_assoc in Hnd. by apply NoDup_app in Hnd as [? _].
  - done.
  - intros x w' Hrun. eapply (report_run env (λ i, i ∈ id <$> calls)); [|exact A2|done|exact Hp|done|done|exact Hrun].
    by eapply ext_quiet.
Qed.

(** C21.  A batch of calls settles.  For calls with different ids and any behaviour of the host,
    the tools, the signals and the deadlines, the execution comes to an end.  It only adds
    results to the history, at most one for each call and only for its own calls; a result
    is published right after it is in the history, never without it, and none is withheld.
    Tools start at most once, and every tool that started has its result in the history later,
    when the batch ends, unless the host refused it: cancelled, paused past its deadline, or
    failed, nothing is left open.  A batch that completes has answered every call its policy
    did not skip; errors are those of the policies and of refused appends, never a lost
    attempt. *)
Theorem tool_batch_settles (calls : list (ToolCall Json)) (w : State) :
  NoDup (id <$> calls) →
  ∃ x w' tr,
    execute_tools (HttpError := HttpError) (JsonError := JsonError) env calls w = Some (x, w')
    ∧ trace w' = trace w ++ tr
    ∧ (∃ new, entries w' = entries w ++ new ∧ item <$> new = committed tr)
    ∧ Forall (λ i, ProviderHistory.is_result i = true) (committed tr)
    ∧ orderly tr
    ∧ NoDup (done_ids tr) ∧ (∀ i, i ∈ done_ids tr → i ∈ id <$> calls)
    ∧ NoDup (started_ids tr)
    ∧ (∀ i, i ∈ started_ids tr → i ∈ id <$> calls) ∧ starts_settled tr
    ∧ match x with
      | Ok ToolsCompleted =>
          rejected_ids tr = []
          ∧ ∀ i, i ∈ id <$> calls → i ∈ done_ids tr ∨ Decided i Skip ∈ tr
      | Ok ToolsPaused => rejected_ids tr = []
      | Err e => approve_error e ∨ settle_error e
      end.
Proof.
  intros Hnd. destruct (execute_tools_ok calls w Hnd) as (x & w' & He & tr & Hrep).
  destruct Hrep as [(w1 & [T E _ _] & Hend & _) O R N D SN S SS X].
  assert (trace w' = trace w1 ∧ entries w' = entries w1) as [Ht Hen]
    by (by destruct Hend as [->|[t ->]]).
  exists x, w', tr. rewrite Ht, Hen. split_and!; try done.
  destruct x as [[]|e]; [|tauto|done]. destruct X as [X1 X2]. split; [done|].
  intros i Hi. destruct (proj2 (X2 eq_refl) i Hi) as [?|Hk]; [by left|right].
  unfold skipped_ids in Hk. apply list_elem_of_omap in Hk as (e & He' & Hs).
  destruct e as [| |j []| | | | |]; simplify_eq/=. done.
Qed.

(** ** Requests to cancel stay what they are *)

Section no_cancel.
Context (Hcalm : ∀ now, (signals env now).1 = false).

(** The operation leaves no request to cancel behind where there was none. *)
Record calm {X} (m : M X) : Prop := {
  calm_after : ∀ w (r : result X EngineError) w', m w = Some (r, w') →
    cancel_rx w = false → cancel_rx (w' : State) = false
}.

Lemma calm_ret {X} (x : X) : calm (ret x).
Proof. split; by intros w r w' [= <- <-]. Qed.

Lemma calm_throw {X} e : calm (@throw _ _ _ _ X e).
Proof. split; by intros w r w' [= <- <-]. Qed.

Lemma calm_panic {X} : calm (@panic _ _ _ _ X).
Proof. split; by intros w r w' [=]. Qed.

Lemma calm_get : calm get.
Proof. split; by intros w r w' [= <- <-]. Qed.

Lemma calm_bind {X Y} (m : M X) (k : X → M Y) : calm m → (∀ x, calm (k x)) → calm (bind m k).
Proof.
  intros [Hm] Hk. split. intros w r w'. unfold bind. destruct (m w) as [[[x|e] w1]|] eqn:Hw; [| |done].
  - intros Hr Hc. eapply (calm_after _ (Hk x)); [exact Hr|]. by eapply Hm.
  - intros [= <- <-]. by eapply Hm.
Qed.

Lemma calm_attempt {X} (m : M X) : calm m → calm (attempt m).
Proof.
  intros [Hm]. split. intros w r w'. unfold attempt. destruct (m w) as [[x w1]|] eqn:Hw; [|done].
  intros [= <- <-]. by eapply Hm.
Qed.

Lemma calm_modify (f : State → State) : (∀ w, cancel_rx (f w) = cancel_rx w) → calm (modify f).
Proof. intros Hf. split. intros w r w' [= <- <-]. by rewrite Hf. Qed.

Lemma calm_tick w : cancel_rx w = false → cancel_rx (tick env w) = false.
Proof using Hcalm. intros Hc. simpl. by rewrite Hc, Hcalm. Qed.

Lemma calm_ask {X} (q : nat → X) : calm (ask env q).
Proof using Hcalm. split. intros w r w' [= <- <-]. apply calm_tick. Qed.

Lemma calm_check : calm (check_policy_interruption env).
Proof using Hcalm.
  split. intros w r w'. unfold check_policy_interruption. intros Hr Hc.
  rewrite (calm_tick _ Hc) in Hr. pose proof (calm_tick _ Hc) as Ht.
  destruct (pause_rx _); by injection Hr as <- <-.
Qed.

Lemma calm_abort : calm (abort_block env).
Proof.
  split. intros w r w'. unfold abort_block, with_timeline.
  destruct (Timeline.abort_current_block _ _); [|done]. by intros [= <- <-].
Qed.

Lemma calm_of_result {X} (r : result X EngineError) : calm (of_result r).
Proof. split; by intros w r' w' [= <- <-]. Qed.

#[local] Hint Resolve calm_ret calm_throw calm_panic calm_get calm_ask
  calm_check calm_of_result calm_abort : calm.
#[local] Hint Extern 1 (calm (modify _)) => (by apply calm_modify) : calm.
#[local] Hint Extern 1 (calm (modify_batch _)) => (by apply calm_modify) : calm.
#[local] Hint Extern 1 (calm (emit _)) => (by apply calm_modify) : calm.
#[local] Hint Extern 1 (calm (fail _)) => (apply calm_throw) : calm.

Ltac calm := repeat (match goal with
  | |- calm (bind _ _) => apply calm_bind; [|intros ?]
  | |- calm (attempt _) => apply calm_attempt
  | |- calm (match ?x with _ => _ end) => destruct x
  | |- calm _ => solve [eauto 2 with calm]
  end).

Lemma calm_append_item i : calm (append_history_item env i).
Proof using Hcalm.
  assert (∀ cbs, calm (emit_history_append env cbs i)) as Hcb.
  { induction cbs; simpl; calm; done. }
  unfold append_history_item. calm; try apply Hcb.
Qed.

Lemma calm_append items : calm (append_history_items env items).
Proof using Hcalm. induction items; simpl; calm; auto using calm_append_item. Qed.

Lemma calm_await {T} (policy : nat → result T InterceptorError) phase :
  calm (await_tool_policy env policy phase).
Proof using Hcalm. unfold await_tool_policy. calm. Qed.

Lemma calm_finalize r a wait : calm (finalize_and_commit_tool_result env r a wait).
Proof using Hcalm.
  unfold finalize_and_commit_tool_result, post_tool_policy.
  calm; auto using calm_append, calm_await.
Qed.

Lemma calm_select pause deadline cancel : calm (select_tools env pause deadline cancel).
Proof using Hcalm.
  split. intros w r w' Hr Hc. pose proof (calm_tick _ Hc) as Ht. unfold select_tools, take_task in Hr.
  repeat case_in Hr; simplify_eq; done.
Qed.

#[local] Hint Resolve calm_append calm_await calm_finalize calm_select : calm.

Lemma calm_commit_synthetic results wait : ∀ e, calm (commit_synthetic env results wait e).
Proof using Hcalm. induction results; intros e; simpl; calm; auto. Qed.

Lemma calm_confirm fuel : ∀ e, calm (confirm_terminals env fuel e).
Proof using Hcalm. induction fuel; intros e; simpl; calm; auto. Qed.

Lemma calm_close started : ∀ e, calm (close_unconfirmed env started e).
Proof using Hcalm. induction started as [|[]]; intros e; simpl; calm; auto. Qed.

Lemma calm_cancel_and_confirm e : calm (cancel_and_confirm env e).
Proof using Hcalm. unfold cancel_and_confirm. calm; auto using calm_confirm, calm_close. Qed.

Lemma calm_approve bid calls : ∀ index logical approved synthetic,
  calm (approve_calls env bid index calls logical approved synthetic).
Proof using Hcalm.
  induction calls as [|call calls IH]; intros; simpl; calm; auto.
Qed.

Lemma calm_start approved : calm (start_calls approved).
Proof using Hcalm. induction approved as [|[[]]]; simpl; calm; auto. Qed.

Lemma calm_true {X} (m : M X) w r w' :
  calm m → m w = Some (r, w') → cancel_rx w' = true → cancel_rx w = true.
Proof.
  intros [Hm] Hr Hc. destruct (cancel_rx w) eqn:Hw; [done|]. by rewrite (Hm _ _ _ Hr Hw) in Hc.
Qed.

Lemma select_cancel pause deadline cancel w w' :
  select_tools (HttpError := HttpError) (JsonError := JsonError) env pause deadline cancel w
    = Some (Ok WakeCancel, w') → cancel_rx w' = false.
Proof. intros Hr. unfold select_tools, take_task in Hr. repeat case_in Hr; by simplify_eq/=. Qed.

Lemma execute_loop_calm fuel : ∀ l w r w',
  (cancel_rx w = true → locally_enqueued_cancel l = true) →
  execute_loop (HttpError := HttpError) (JsonError := JsonError) env fuel l w = Some (r, w') →
  cancel_rx w' = false.
Proof using Hcalm.
  assert (∀ l w r w', (cancel_rx w = true → locally_enqueued_cancel l = true) →
    finish_tools (HttpError := HttpError) (JsonError := JsonError) env l w = Some (r, w') →
    cancel_rx w' = false) as Hfinish.
  { intros l w r w' Hl. unfold finish_tools, bind at 1.
    assert (calm match batch_error l with
      | Some e => let! _ := abort_block env in throw e
      | None => ret (if pause_requested l then ToolsPaused else ToolsCompleted)
      end) as [Hk] by (destruct (batch_error l); calm).
    destruct (locally_enqueued_cancel l).
    - intros Hr. by eapply Hk; [exact Hr|].
    - intros Hr. eapply Hk; [exact Hr|]. destruct (cancel_rx w); [discriminate (Hl eq_refl)|done]. }
  induction fuel as [|fuel IH]; intros l w r w' Hl; cbn [execute_loop]; unfold bind at 1, get;
    (destruct (futures (batch w)); [by apply Hfinish|]); [done|].
  unfold bind at 1. destruct (select_tools env _ _ _ w) as [[[wake|e] w1]|] eqn:Hsel; [| |done].
  2:{ exfalso. unfold select_tools, take_task in Hsel. repeat case_in Hsel; done. }
  pose proof (calm_true _ _ _ _ (calm_select _ _ _) Hsel) as H1.
  destruct wake as [att res| | |].
  - unfold bind at 1, attempt.
    destruct (finalize_and_commit_tool_result env _ _ _ w1) as [[x w2]|] eqn:Hfin; [|done].
    pose proof (calm_true _ _ _ _ (calm_finalize _ _ _) Hfin) as H2.
    destruct x as [b|e]; [apply IH; auto|]. unfold bind at 1, get.
    destruct (futures (batch w2)); [apply IH; auto|]. unfold bind, enqueue_cancel, modify.
    by apply IH.
  - apply IH. auto.
  - unfold bind, enqueue_cancel, modify. by apply IH.
  - intros Hr. eapply (calm_after (cancel_tools env l)); [|exact Hr|by eapply select_cancel].
    unfold cancel_tools. calm. apply calm_cancel_and_confirm.
Qed.

Lemma calm_run_approved approved synthetic : calm (run_approved env approved synthetic).
Proof using Hcalm.
  assert (∀ fuel l, calm (execute_loop env fuel l)) as Hloop.
  { intros fuel l. split. intros w r w' Hr Hw. eapply execute_loop_calm; [|exact Hr].
    by rewrite Hw. }
  assert (∀ fuel e, calm (let! _ := enqueue_cancel in
    execute_loop env fuel (mkLocals false false e true))) as Henq.
  { intros fuel e. split. intros w r w' Hr _. by eapply execute_loop_calm; [|exact Hr]. }
  unfold run_approved. apply calm_bind; [by apply calm_modify|intros _].
  apply calm_bind; [apply calm_start|intros _].
  apply calm_bind; [apply calm_commit_synthetic|intros e]. apply calm_bind; [calm|intros w].
  destruct e as [e|], (futures (batch w)); auto.
Qed.

Lemma calm_execute_tools calls : calm (execute_tools env calls).
Proof using Hcalm.
  unfold execute_tools, unless_paused. calm; auto using calm_approve, calm_run_approved.
Qed.

End no_cancel.

(** A batch never leaves a request to cancel behind.  It cancels itself by queueing one,
    after an error or a pause that takes too long; when the host sends none, none is left in
    the queue when the batch returns, so the next run is not cancelled by it. *)
Theorem batch_leaves_no_cancel (calls : list (ToolCall Json)) (w w' : State)
    (r : result ToolExecutionResult EngineError) :
  (∀ now, (signals env now).1 = false) → cancel_rx w = false →
  execute_tools env calls w = Some (r, w') → cancel_rx w' = false.
Proof.
  intros Hcalm Hc Hr. exact (calm_after _ (calm_execute_tools Hcalm calls) w r w' Hr Hc).
Qed.

End execute_tools.

(** ** Examples *)

(** JSON values that are objects or not. *)
Definition example_json : Serde bool := mkSerde (λ _, Some true) (λ _, "{}") (λ j, j) false true.

Definition example_call (i : string) : ToolCall bool := mkCall i "Read" true.

(** A host that accepts everything but the results of [refused], with one tool, [Read]. *)
Definition example_env (action : PreToolAction) (pauses late : nat) (refused : string)
  : Env unit bool :=
  mkEnv []
    (λ _ i, if bool_decide (ProviderHistory.result_id_of i = Some refused)
            then Err "disk full" else Ok tt)
    (λ _, None) (λ _ n, bool_decide (n = "Read")) (λ _ c x, Ok (action, c, x))
    (λ _ _ _, Ok PostContinue) None example_json
    (λ now, (false, bool_decide (now = pauses)))
    (λ now, bool_decide (late < now)%nat)
    (λ now, (now, Confirmed (Ok (mkOutput "done" None []))))
    (λ now, bool_decide (now = late)).

(** A history in which the assistant has made the calls. *)
Definition example_state (ids : list string) : State unit bool :=
  mkState ((λ i, mkEntry (Conversation.ToolCall
    (Conversation.mkToolCall None i "Read" "{}" None None None)) tt) <$> ids)
    false false 0 1 (Some 1%nat) 1 0 (batch_new EmptyString) Timeline.timeline_new [].

Lemma tool_batch_settles_witness :
  ∃ x w' tr,
    execute_tools (HttpError := unit) (JsonError := unit) (example_env Continue 100 100 "c")
      (example_call <$> ["a"; "b"; "c"]) (example_state ["a"; "b"; "c"]) = Some (x, w')
    ∧ trace w' = tr ∧ NoDup (done_ids tr) ∧ starts_settled tr.
Proof.
  destruct (tool_batch_settles (HttpError := unit) (JsonError := unit)
    (example_env Continue 100 100 "c") (example_call <$> ["a"; "b"; "c"])
    (example_state ["a"; "b"; "c"]))
    as (x & w' & tr & He & Ht & _ & _ & _ & Hn & _ & _ & _ & Hs & _).
  - apply (bool_decide_unpack _). vm_compute. exact I.
  - exists x, w', tr. split; [exact He|]. split; [exact Ht|]. split; [exact Hn|exact Hs].
Defined.

Lemma batch_leaves_no_cancel_witness :
  ∃ r w', execute_tools (HttpError := unit) (JsonError := unit) (example_env Continue 6 8 "c")
      [example_call "a"] (example_state ["a"]) = Some (r, w') ∧ cancel_rx w' = false.
Proof.
  destruct (execute_tools (HttpError := unit) (JsonError := unit) (example_env Continue 6 8 "c")
    [example_call "a"] (example_state ["a"])) as [[r w']|] eqn:He.
  - exists r, w'. split; [reflexivity|].
    apply (batch_leaves_no_cancel (example_env Continue 6 8 "c") [example_call "a"]
      (example_state ["a"]) w' r); [intros; reflexivity|reflexivity|exact He].
  - vm_compute in He. discriminate He.
Defined.

(** A pause can end as a cancellation.  The only signal the host sends is a pause; the tool
    finishes right after the deadline of the pause, its policy takes the batch's own request
    to cancel for one of the host, and the run is reported as cancelled. *)
Theorem pause_may_end_as_cancel :
  (∀ now, (signals (example_env Continue 6 8 "c") now).1 = false)
  ∧ ∃ w', execute_tools (HttpError := unit) (JsonError := unit) (example_env Continue 6 8 "c")
      [example_call "a"] (example_state ["a"]) = Some (Err (fail_with Cancelled), w')
    ∧ done_ids (trace w') = ["a"].
Proof. split; [done|]. eexists. split; [vm_compute; reflexivity|vm_compute; reflexivity]. Qed.

(** A skipped call stays without a result although the batch completes, so the next request
    goes out with an unanswered call. *)
Theorem skipped_call_stays_unanswered :
  ∃ w', execute_tools (HttpError := unit) (JsonError := unit) (example_env Skip 100 100 "c")
      [example_call "a"] (example_state ["a"]) = Some (Ok ToolsCompleted, w')
    ∧ unanswered_tool_call_entries (entries w') = entries (example_state ["a"]).
Proof. eexists. split; [vm_compute; reflexivity|vm_compute; reflexivity]. Qed.

(** A tool whose result was refused runs again.  Calls of a complete response carry no
    mark of having started, so a later run finds the call among those that may run. *)
Theorem refused_result_runs_again :
  ∃ w', execute_tools (HttpError := unit) (JsonError := unit) (example_env Continue 100 100 "a")
      [example_call "a"] (example_state ["a"])
      = Some (Err (ImageRecovery.HistoryAppend "disk full"), w')
    ∧ started_ids (trace w') = ["a"]
    ∧ get_unanswered_tool_calls example_json (entries w')
      = ([example_call "a"], []).
Proof. eexists. split; [vm_compute; reflexivity|vm_compute; done]. Qed.

End ToolExecution.
