(* ===== verification/EarlyTools.v ===== *)
(** * Executing calls while the response is streaming

    Models [append_early_tool_call], [admit_early_tool_calls],
    [commit_early_synthetic_results], [cancel_and_terminalize_early_batch] and
    [drain_early_tool_batch] of [src/crates/agen/src/engine.rs].  A call enters the history
    marked as started right before its tool starts; the theorems show that a marked call is
    never left without its result by the ways out of a response, unless the host refused
    the result. *)
From Stdlib Require Import ZArith String List Lia.
From stdpp Require Import base tactics numbers list strings gmap sets.
From S2P Require Import Prelude Conversation ImageRecovery ProviderHistory Tool Timeline.
From S2P Require Import EngineCore ToolExecution.

Module EarlyTools.
Import Tool EngineCore.
Import ImageRecovery(HistoryEntry, mkEntry, item, annotation).

Inductive EarlyToolAdmission := AdmitContinue | AdmitPause.

Section early.
Context {A Json HttpError JsonError : Type} (env : Env A Json).
Abbreviation State := (State A Json).
Abbreviation Batch := (Batch Json).
Abbreviation EngineError := (EngineError HttpError JsonError).
Abbreviation M := (@M A Json HttpError JsonError).

(** ** Admission *)

(** The item of a call; an execution id marks it as started. *)
Definition early_item (call : ToolCall Json) (call_index : nat) (execution_id : option string)
  : Item :=
  Conversation.ToolCall (Conversation.mkToolCall None (id call) (name call)
    (to_string (serde_json env) (input call)) (Some call_index) execution_id
    (Some (match execution_id with
           | Some _ => Conversation.InProgress
           | None => Conversation.Completed
           end))).

Definition append_early_tool_call (call : ToolCall Json) (call_index : nat)
    (execution_id : option string) : M unit :=
  append_history_items env [early_item call call_index execution_id].

(** [batch.synthetic_results.push_back(result)] and [batch.dispatched_any = true]. *)
Definition push_synthetic (r : ToolResult) : M unit :=
  modify_batch (λ b, set_dispatched_any
    (set_synthetic_results b (synthetic_results b ++ [r])) true).

Definition mark_dispatched : M unit := modify_batch (λ b, set_dispatched_any b true).

(** A call that will not run: it is recorded, and its error queued. *)
Definition refuse_call (call : ToolCall Json) (context : ToolExecutionContext) (message : string)
  : M unit :=
  let! _ := append_early_tool_call call (x_call_index context) (Some (execution_id context)) in
  push_synthetic (result_error (id call) message).

(** [ToolExecutionHandle::start], with the fence set before. *)
Definition start_early (call : ToolCall Json) (context : ToolExecutionContext) : M unit :=
  let attempt_id := execution_id context in
  let! _ := modify_batch (λ b,
    set_started_calls (set_attempt_fence b (register (attempt_fence b) (id call) attempt_id))
      (started_calls b ++ [(id call, attempt_id)])) in
  let! _ := emit (Started (id call) attempt_id (x_logical_call_id context)) in
  modify_batch (λ b,
    set_dispatched_any
      (set_futures (set_execution_handles b ({[id call]} ∪ execution_handles b))
         (futures b ++ [mkTask (id call) attempt_id None])) true).

(** The annotation of the entry just appended gives the call its lasting identity. *)
Definition last_logical_id (w : State) : option string :=
  e ← last (entries w); logical_tool_call_id env (annotation e).

(** What the action of the policy makes of a call. *)
Definition dispatch_early (action : PreToolAction) (call : ToolCall Json) (call_index : nat)
    (context : ToolExecutionContext) : M (option EarlyToolAdmission) :=
  let xid := match action with Pause => None | _ => Some (execution_id context) end in
  let! _ := append_early_tool_call call call_index xid in
  let! w := get in
  let context := mkContext (x_call_id context) (last_logical_id w) (x_batch_id context)
                   (x_call_index context) in
  let! _ := modify_batch (λ b,
    set_call_info_map b (<[id call := (call, context)]> (call_info_map b))) in
  match action with
  | Continue => let! _ := start_early call context in ret None
  | SyntheticResult r => let! _ := push_synthetic r in ret None
  | Skip =>
      let! _ := push_synthetic (result_error (id call) "Tool execution skipped by interceptor") in
      ret None
  | Abort reason =>
      let! _ := push_synthetic (result_error (id call) ("Tool execution aborted: " +:+ reason)) in
      fail (Aborted reason)
  | Pause => let! _ := mark_dispatched in ret (Some AdmitPause)
  end.

(** One round of the loop for a call not seen before; [Some] is an early return. *)
Definition admit_call (call_index : nat) (call : ToolCall Json) : M (option EarlyToolAdmission) :=
  let! w := get in
  let expected := id call in
  let context := context_new expected (batch_id (batch w)) call_index in
  if negb (is_object (serde_json env) (input call)) then
    let! _ := refuse_call call context "Tool arguments must be one complete JSON object" in
    ret None
  else
    let! known := ask env (λ now, get_tool env now (name call)) in
    if negb known then
      let! _ := refuse_call call context ("Tool not found: " +:+ name call) in
      ret None
    else
      let! answer := attempt (await_tool_policy env
                       (λ now, pre_tool_call env now call context) PreToolCall) in
      match answer with
      | Err (ImageRecovery.OtherEngineError PauseRequested) =>
          let! _ := append_early_tool_call call call_index None in
          let! _ := mark_dispatched in
          ret (Some AdmitPause)
      | Err (ImageRecovery.OtherEngineError Cancelled) =>
          let! _ := append_early_tool_call call call_index None in
          let! _ := mark_dispatched in
          fail Cancelled
      | Err e => throw e
      | Ok (action, call', context') =>
          let! _ := emit (Decided expected action) in
          if negb (bool_decide (id call' = expected)) then
            ToolExecution.contract_violation
              "pre-tool interceptor changed immutable tool call identity"
          else if match action with
                  | SyntheticResult r => negb (bool_decide (tool_use_id r = expected))
                  | _ => false
                  end then
            ToolExecution.contract_violation
              "synthetic tool result changed immutable tool call identity"
          else
            dispatch_early action call' call_index
              (mkContext (id call') (x_logical_call_id context') (x_batch_id context')
                 (x_call_index context'))
      end.

Fixpoint admit_early_tool_calls (tool_calls : list (nat * ToolCall Json)) : M EarlyToolAdmission :=
  match tool_calls with
  | [] => ret AdmitContinue
  | (call_index, call) :: rest =>
      let! w := get in
      if bool_decide (id call ∈ seen_call_ids (batch w)) then admit_early_tool_calls rest
      else
        let! _ := modify_batch (λ b,
          set_calls (set_seen_call_ids b ({[id call]} ∪ seen_call_ids b))
            (calls b ++ [(call_index, call)])) in
        let! stop := admit_call call_index call in
        match stop with
        | Some a => ret a
        | None => admit_early_tool_calls rest
        end
  end.

(** ** Ways out *)

(** [while let Some(result) = batch.synthetic_results.pop_front()], up to the first error. *)
Fixpoint commit_popped (results : list ToolResult) (wait : PostToolPolicyWait) : M unit :=
  match results with
  | [] => ret tt
  | r :: rest =>
      let! _ := modify_batch (λ b, set_synthetic_results b rest) in
      let! _ := finalize_and_commit_tool_result env r None wait in
      commit_popped rest wait
  end.

Definition commit_early_synthetic_results : M unit :=
  let! w := get in
  commit_popped (synthetic_results (batch w)) Interruptible.

(** The queue is emptied, errors notwithstanding, then the tools are cancelled. *)
Definition cancel_and_terminalize_early_batch : M (option EngineError) :=
  let! w := get in
  let! _ := modify_batch (λ b, set_synthetic_results b []) in
  let! e := commit_synthetic env (synthetic_results (batch w)) SkipPolicy None in
  cancel_and_confirm env e.

(** [return Err(cleanup_error.unwrap_or(error))]. *)
Definition or_cancel_batch {X} (m : M X) : M X :=
  let! r := attempt m in
  match r with
  | Ok x => ret x
  | Err error =>
      let! cleanup_error := cancel_and_terminalize_early_batch in
      throw (default error cleanup_error)
  end.

(** [if let Some(error) = cancel_and_terminalize_early_batch(..).await { return Err(error) }]. *)
Definition cancel_batch_then {X} (k : M X) : M X :=
  let! cleanup_error := cancel_and_terminalize_early_batch in
  match cleanup_error with Some error => throw error | None => k end.

Fixpoint drain_loop (fuel : nat) (pause_requested pause_deadline : bool)
  : M ToolExecutionResult :=
  let! w := get in
  match futures (batch w) with
  | [] => ret (if pause_requested then ToolsPaused else ToolsCompleted)
  | _ =>
      match fuel with
      | O => panic
      | S fuel =>
          let! wake := select_tools env (negb pause_requested) pause_deadline true in
          match wake with
          | WakeTask attempt_id r =>
              let! _ := or_cancel_batch (finalize_and_commit_tool_result env r (Some attempt_id)
                          (for_pause_deadline pause_deadline)) in
              drain_loop fuel pause_requested pause_deadline
          | WakePause => drain_loop fuel true true
          | WakeDeadline => cancel_batch_then (ret ToolsPaused)
          | WakeCancel => cancel_batch_then (fail Cancelled)
          end
      end
  end.

Definition drain_early_tool_batch (force_cancel initial_pause_requested : bool)
  : M ToolExecutionResult :=
  if force_cancel then cancel_batch_then (ret ToolsCompleted)
  else
    let! w := get in
    let! _ := or_cancel_batch (commit_popped (synthetic_results (batch w))
                (for_pause_deadline initial_pause_requested)) in
    drain_loop (S (length (futures (batch w)))) initial_pause_requested initial_pause_requested.

(** ** The invariant of a streaming batch *)

(** The calls a trace put into the history, and those of them marked as started. *)
Definition called (tr : list Effect) : list string := ProviderHistory.call_ids (committed tr).

Definition marked_id (e : Effect) : option string :=
  match e with
  | Committed (Conversation.ToolCall c) =>
      match Conversation.tc_execution_id c with
      | Some _ => Some (Conversation.tc_call_id c) | None => None end
  | _ => None
  end.

Definition marked_ids (tr : list Effect) : list string := omap marked_id tr.

(** Every call marked as started has its result, or its result was refused. *)
Definition closed (tr : list Effect) : Prop :=
  ∀ i, i ∈ marked_ids tr → i ∈ done_ids tr ∨ i ∈ rejected_ids tr.

Record early_ok (tr : list Effect) (b : Batch) : Prop := {
  eo_ok : batch_ok (λ i, i ∈ called tr) tr b;
  eo_accounted : accounted tr b;
  eo_synthetic : ∀ r, r ∈ synthetic_results b →
    attempt_fence b !! tool_use_id r = None ∧ tool_use_id r ∈ called tr;
  eo_marked : ∀ i, i ∈ marked_ids tr → i ∈ done_ids tr ∨ i ∈ rejected_ids tr
    ∨ i ∈ (started_calls b).*1 ∨ i ∈ tool_use_id <$> synthetic_results b;
  eo_called : NoDup (called tr) ∧ ∀ i, i ∈ called tr → i ∈ seen_call_ids b;
  eo_fence : ∀ i a, attempt_fence b !! i = Some a → i ∈ called tr
}.

Lemma called_app tr1 tr2 : called (tr1 ++ tr2) = called tr1 ++ called tr2.
Proof. unfold called. rewrite committed_app. apply omap_app. Qed.

Lemma marked_ids_app tr1 tr2 : marked_ids (tr1 ++ tr2) = marked_ids tr1 ++ marked_ids tr2.
Proof. apply omap_app. Qed.

Lemma settles_calls tr : Forall settles tr → called tr = [] ∧ marked_ids tr = [].
Proof.
  induction 1 as [|e tr He Htr [IH1 IH2]]; [done|]. unfold called, marked_ids in *.
  destruct e as [i| | | | | | |]; try done. by destruct i.
Qed.

Lemma batch_ok_own (own own' : string → Prop) tr (b : Batch) :
  (∀ i, own i → own' i) → batch_ok own tr b → batch_ok own' tr b.
Proof.
  intros Hi [O1 O7 O2 O3 O4 O5 O6]. split; [done|auto|done|done| |done|done].
  intros i t Ht. destruct (O4 i t Ht). auto.
Qed.

Lemma early_ok_new bid : early_ok [] (batch_new bid).
Proof.
  split; try done.
  - split; try done; try constructor; set_solver.
  - intros i t Hin. set_solver.
  - intros r Hr. set_solver.
  - intros i Hi. set_solver.
  - split; [constructor|set_solver].
Qed.

(** Settling keeps the invariant when the queue of synthetic results is as before. *)
Lemma early_ok_stepped tr (w : State) tr' (w' : State) :
  early_ok tr (batch w) → stepped (λ i, i ∈ called tr) tr w tr' w' →
  accounted (tr ++ tr') (batch w') →
  early_ok (tr ++ tr') (batch w').
Proof.
  intros [O Ac Sy Mk [Nd Se] Fe] [E S B [(K1&K2&K3&K4&K5&K6&K7&K8) KA KF]] Hacc.
  destruct (settles_calls _ S) as [Hc Hm].
  assert (called (tr ++ tr') = called tr) as Hcall by (by rewrite called_app, Hc, app_nil_r).
  assert (∀ i, attempt_fence (batch w) !! i = None ↔ attempt_fence (batch w') !! i = None) as HA.
  { intros i. specialize (KA i). destruct (attempt_fence (batch w') !! i), (attempt_fence (batch w) !! i);
      naive_solver. }
  split; rewrite ?Hcall, ?K6, ?K2; try done.
  - by setoid_rewrite <-HA.
  - intros i. rewrite marked_ids_app, Hm, app_nil_r, K4, done_ids_app, rejected_ids_app, !elem_of_app.
    intros [?|[?|[?|?]]]%Mk; auto.
  - intros i a Ha. destruct (attempt_fence (batch w) !! i) as [a'|] eqn:Ha'; [by eapply Fe|].
    apply HA in Ha'. congruence.
Qed.

(** ** Lemmas: the ways out *)

(** The batch with trace [tr] has been brought to an end. *)
Record closing (tr : list Effect) (w : State) (tr' : list Effect) (w' : State) : Prop := {
  cl_ext : ext w tr' w';
  cl_settles : Forall settles tr';
  cl_ok : batch_ok (λ i, i ∈ called tr) (tr ++ tr') (batch w');
  cl_closed : closed (tr ++ tr')
}.

(** The batch goes on. *)
Record going (tr : list Effect) (w : State) (tr' : list Effect) (w' : State) : Prop := {
  go_ext : ext w tr' w';
  go_settles : Forall settles tr';
  go_ok : early_ok (tr ++ tr') (batch w');
  go_same : dispatched_any (batch w') = dispatched_any (batch w)
    ∧ calls (batch w') = calls (batch w)
}.

Lemma settles_called tr tr' : Forall settles tr' → called (tr ++ tr') = called tr.
Proof. intros [Hc _]%settles_calls. by rewrite called_app, Hc, app_nil_r. Qed.

Lemma going_trans tr w1 tr1 w2 tr2 w3 :
  going tr w1 tr1 w2 → going (tr ++ tr1) w2 tr2 w3 → going tr w1 (tr1 ++ tr2) w3.
Proof.
  intros [E1 S1 O1 [D1 C1]] [E2 S2 O2 [D2 C2]].
  split; [exact (ext_trans _ _ _ _ _ E1 E2)|by apply Forall_app|by rewrite app_assoc|].
  split; congruence.
Qed.

Lemma going_closing tr w1 tr1 w2 tr2 w3 :
  going tr w1 tr1 w2 → closing (tr ++ tr1) w2 tr2 w3 → closing tr w1 (tr1 ++ tr2) w3.
Proof.
  intros [E1 S1 O1 _] [E2 S2 B2 C2]. split.
  - exact (ext_trans _ _ _ _ _ E1 E2).
  - by apply Forall_app.
  - rewrite app_assoc. eapply batch_ok_own; [|exact B2]. intros i. by rewrite settles_called.
  - by rewrite app_assoc.
Qed.

Lemma going_quiet tr w w' : early_ok tr (batch w) → quiet w w' → going tr w [] w'.
Proof. intros Ho [E B]. split; [done|constructor|by rewrite app_nil_r, B|by rewrite B]. Qed.

Lemma terminalize_ok tr w :
  early_ok tr (batch w) →
  spec cancel_and_terminalize_early_batch w (λ x w', ∃ tr' e,
    x = Ok e ∧ closing tr w tr' w' ∧ error_ok append_error None e tr').
Proof.
  intros [O Ac Sy Mk [Nd Se] Fe]. apply spec_bind, spec_get. apply spec_bind, spec_modify.
  set (w1 := set_batch _ _).
  assert (batch_ok (λ i, i ∈ called tr) tr (batch w1)) as O1 by (destruct O; by split).
  apply spec_bind.
  eapply spec_mono; [by apply (commit_synthetic_ok _ (λ i, i ∈ called tr) _ _ tr)|].
  intros ? w2 (tr1 & e1 & -> & St1 & Hf1 & Hd1 & _ & He1). specialize (He1 eq_refl).
  destruct (st_kept _ _ _ _ _ St1) as [(_&_&_&Hs1&_) _ _].
  assert (accounted (tr ++ tr1) (batch w2)) as Ac2.
  { intros i t. rewrite Hs1, Hf1, done_ids_app, rejected_ids_app, !elem_of_app.
    intros [?|[?|?]]%Ac; auto. }
  eapply spec_mono; [apply (cancel_and_confirm_ok _ (λ i, i ∈ called tr) (tr ++ tr1)); [apply St1|done]|].
  intros ? w3 (tr2 & e2 & -> & St2 & Hset & He2). exists (tr1 ++ tr2), e2.
  pose proof (stepped_trans _ _ _ _ _ _ _ St1 St2) as St. destruct St as [E S B K].
  split_and!; [done| |by eapply error_ok_trans].
  split; [|done|done|].
  - apply (ext_trans _ [] w1); [apply ext_set_batch, ext_refl|done].
  - intros i. rewrite marked_ids_app. destruct (settles_calls _ S) as [_ ->].
    rewrite app_nil_r, app_assoc, !(done_ids_app _ tr2), !(rejected_ids_app _ tr2), !elem_of_app.
    intros [Hi|[Hi|[Hi|Hi]]]%Mk.
    + rewrite done_ids_app, elem_of_app. auto.
    + rewrite (rejected_ids_app tr), elem_of_app. auto.
    + apply list_elem_of_fmap in Hi as ([j t] & -> & Hi).
      destruct (st_kept _ _ _ _ _ St2) as [(_&_&_&Hs2&_) _ _].
      change (started_calls (batch w)) with (started_calls (batch w1)) in Hi.
      rewrite <-Hs1, <-Hs2 in Hi. apply Hset in Hi.
      by rewrite done_ids_app, rejected_ids_app, !elem_of_app in Hi.
    + apply list_elem_of_fmap in Hi as (r & -> & Hi). destruct (Hd1 r Hi); auto.
Qed.

Lemma cancel_batch_then_ok {X} (k : M X) tr w (Q : result X EngineError → State → Prop) :
  early_ok tr (batch w) →
  (∀ tr' w', closing tr w tr' w' → rejected_ids tr' = [] → spec k w' Q) →
  (∀ tr' w' e, closing tr w tr' w' → append_error e → Q (Err e) w') →
  spec (cancel_batch_then k) w Q.
Proof.
  intros Ho Hk He. apply spec_bind. eapply spec_mono; [by apply terminalize_ok|].
  intros ? w' (tr' & e & -> & Hc & (_ & Hn & Hs)). destruct e as [e|].
  - apply spec_throw. eapply He; [exact Hc|by apply Hs].
  - eapply Hk; [exact Hc|by apply Hn].
Qed.

(** The batch may have been left at [w0], before the operation starts at [w]. *)
Lemma or_cancel_batch_ok {X} (m : M X) tr w0 w (P : X → list Effect → State → Prop)
    (Q : result X EngineError → State → Prop) :
  spec m w (λ x w1, ∃ tr1, going tr w0 tr1 w1
    ∧ match x with Ok v => P v tr1 w1 | Err e => settle_error e end) →
  (∀ v tr1 w1, going tr w0 tr1 w1 → P v tr1 w1 → Q (Ok v) w1) →
  (∀ tr' w' e, closing tr w0 tr' w' → settle_error e → Q (Err e) w') →
  spec (or_cancel_batch m) w Q.
Proof.
  intros Hm Hok Herr. apply spec_bind, spec_attempt. eapply spec_mono; [exact Hm|].
  intros x w1 (tr1 & G1 & Hx). destruct x as [v|e]; [apply spec_ret; eauto|].
  apply spec_bind. eapply spec_mono; [apply (terminalize_ok (tr ++ tr1)), G1|].
  intros ? w2 (tr2 & e2 & -> & Hc & (_ & _ & Hs)). apply spec_throw.
  eapply Herr; [by eapply going_closing|]. destruct e2 as [e2|]; simpl; [|done].
  left. by apply Hs.
Qed.

(** Popping a result from the queue and committing it. *)
Lemma commit_popped_ok results wait : ∀ tr w,
  early_ok tr (batch w) → synthetic_results (batch w) = results →
  spec (commit_popped results wait) w (λ x w', ∃ tr', going tr w tr' w'
    ∧ futures (batch w') = futures (batch w)
    ∧ match x with
      | Ok _ => rejected_ids tr' = [] ∧ synthetic_results (batch w') = []
      | Err e => settle_error e
      end).
Proof.
  induction results as [|r rest IH]; intros tr w Ho Hq; simpl.
  { apply spec_ret. exists []. split_and!; [|done|done|done]. apply going_quiet; [done|apply quiet_refl]. }
  apply spec_bind, spec_modify. set (w1 := set_batch _ _). apply spec_bind.
  destruct Ho as [O Ac Sy Mk [Nd Se] Fe].
  assert (batch_ok (λ i, i ∈ called tr) tr (batch w1)) as O1 by (destruct O; by split).
  destruct (Sy r) as [Hn Hr]; [rewrite Hq; by left|].
  eapply spec_mono; [by apply (finalize_ok _ (λ i, i ∈ called tr) tr)|].
  intros x w2 (tr1 & St1 & Hf1 & _ & Hd1 & Hx%settle_outcome).
  assert (going tr w tr1 w2) as G1.
  { split; [apply (ext_trans _ [] w1); [apply ext_set_batch, ext_refl|apply St1]|apply St1| |].
    2: by destruct (st_kept _ _ _ _ _ St1) as [(->&_&_&_&_&_&->&_) _ _].
    destruct (st_kept _ _ _ _ _ St1) as [(K1&K2&K3&K4&K5&K6&K7&K8) KA KF].
    destruct (settles_calls _ (st_settles _ _ _ _ _ St1)) as [Hc Hm].
    assert (called (tr ++ tr1) = called tr) as Hcall by (by rewrite called_app, Hc, app_nil_r).
    assert (∀ i, attempt_fence (batch w) !! i = None ↔ attempt_fence (batch w2) !! i = None) as HA.
    { intros i. specialize (KA i). change (attempt_fence (batch w1)) with (attempt_fence (batch w)) in KA.
      destruct (attempt_fence (batch w2) !! i), (attempt_fence (batch w) !! i); naive_solver. }
    split; rewrite ?Hcall, ?K6, ?K2.
    - apply St1.
    - intros i t. rewrite K4, Hf1, done_ids_app, rejected_ids_app, !elem_of_app.
      intros [?|[?|?]]%Ac; auto.
    - intros r' Hr'. simpl in Hr'. rewrite <-HA. apply Sy. rewrite Hq. by right.
    - intros i. rewrite marked_ids_app, Hm, app_nil_r, K4. intros Hi%Mk.
      rewrite Hq in Hi. csimpl in Hi. rewrite elem_of_cons in Hi.
      rewrite !done_ids_app, !rejected_ids_app, !elem_of_app in *.
      destruct Hi as [?|[?|[?|[->|?]]]]; [by auto..| |by auto].
      destruct (Hd1 eq_refl); auto.
    - done.
    - intros i a Ha. destruct (attempt_fence (batch w) !! i) as [a'|] eqn:Ha'; [by eapply Fe|].
      apply HA in Ha'. congruence. }
  destruct x as [b|e].
  - eapply spec_mono; [apply (IH (tr ++ tr1)); [apply G1|]|].
    { destruct (st_kept _ _ _ _ _ St1) as [(_&_&_&_&_&K6&_) _ _]. by rewrite K6. }
    intros x w3 (tr2 & G2 & Hf2 & Hx2). exists (tr1 ++ tr2).
    split_and!; [by eapply going_trans|by rewrite Hf2, Hf1|].
    destruct x; [|done]. destruct Hx2 as [Hr2 ?]. by rewrite rejected_ids_app, Hx, Hr2.
  - exists tr1. split_and!; [done|by rewrite Hf1|done].
Qed.

(** Waiting for one task, and committing its result. *)
Lemma early_task_ok tr w t w1 r wait :
  early_ok tr (batch w) → task_taken w t w1 → task_result t r →
  spec (finalize_and_commit_tool_result env r (Some (t_attempt_id t)) wait) w1
    (λ (x : result bool EngineError) w', ∃ tr',
    going tr w tr' w' ∧ synthetic_results (batch w') = synthetic_results (batch w)
    ∧ length (futures (batch w)) = S (length (futures (batch w')))
    ∧ match x with Ok _ => rejected_ids tr' = [] | Err e => settle_error e end).
Proof.
  intros Ho Ht Hr. eapply spec_mono.
  { apply (settle_task_ok _ (λ i, i ∈ called tr) tr w t); [apply Ho|apply Ho|done|done]. }
  intros x w' (tr' & St & Hacc & Hlen & Hx%settle_outcome). exists tr'.
  split_and!; [| |done|done].
  - split; [apply St|apply St|by eapply early_ok_stepped|].
    by destruct (st_kept _ _ _ _ _ St) as [(->&_&_&_&_&_&->&_) _ _].
  - by destruct (st_kept _ _ _ _ _ St) as [(_&_&_&_&_&K6&_) _ _].
Qed.

(** What draining a batch comes to. *)
Definition drain_post (tr : list Effect) (w : State) (x : result ToolExecutionResult EngineError)
    (w' : State) : Prop :=
  ∃ tr', closing tr w tr' w'
    ∧ match x with Ok _ => rejected_ids tr' = [] | Err e => settle_error e end.

Lemma drain_post_step tr w tr1 w1 x w' :
  going tr w tr1 w1 → rejected_ids tr1 = [] → drain_post (tr ++ tr1) w1 x w' →
  drain_post tr w x w'.
Proof.
  intros G1 R1 (tr2 & C2 & Hx). exists (tr1 ++ tr2). split; [by eapply going_closing|].
  destruct x; [|done]. by rewrite rejected_ids_app, R1, Hx.
Qed.

Lemma cancelled_settle_error : settle_error (fail_with Cancelled : EngineError).
Proof. right. exists Cancelled. split; [done|]. left. by left. Qed.

Lemma drain_loop_ok fuel : ∀ tr w (pause deadline : bool),
  early_ok tr (batch w) → synthetic_results (batch w) = [] →
  (length (futures (batch w)) + (if pause then 0 else 1) ≤ fuel)%nat →
  spec (drain_loop fuel pause deadline) w (drain_post tr w).
Proof.
  induction fuel as [|fuel IH]; intros tr w pause deadline Ho Hq Hfuel; apply spec_bind, spec_get;
    (destruct (futures (batch w)) as [|t0 ts] eqn:Hf; [apply spec_ret; exists []; (split; [|done])|]).
  1,3: split; [apply ext_refl|constructor|rewrite app_nil_r; apply Ho|rewrite app_nil_r];
    intros i [?|[?|[Hi|Hi]]]%(eo_marked _ _ Ho); [by auto..| |rewrite Hq in Hi; set_solver];
    apply list_elem_of_fmap in Hi as ([j t] & -> & Hi);
    destruct (eo_accounted _ _ Ho _ _ Hi) as [?|[?|Hin]]; [by auto..|rewrite Hf in Hin; set_solver].
  { simpl in Hfuel. lia. }
  rewrite <-Hf in Hfuel. apply spec_bind.
  eapply spec_mono; [apply select_spec; by rewrite Hf|].
  intros x w1 [(t & r & -> & Ht & Hr)|[Q Hx]].
  - apply spec_bind.
    apply (or_cancel_batch_ok _ tr w w1 (λ _ tr1 w2, rejected_ids tr1 = []
      ∧ synthetic_results (batch w2) = [] ∧ length (futures (batch w)) = S (length (futures (batch w2))))).
    + eapply spec_mono; [by apply (early_task_ok tr w t)|].
      intros y w2 (tr1 & G1 & Hq1 & Hlen & Hy). exists tr1. split; [done|].
      destruct y; [|done]. split_and!; [done|congruence|done].
    + intros _ tr1 w2 G1 (Hr1 & Hq1 & Hlen).
      eapply spec_mono; [apply (IH (tr ++ tr1)); [apply G1|done|lia]|].
      intros z w3 Hz. by eapply drain_post_step.
    + intros tr' w' e Hc He. by exists tr'.
  - pose proof (going_quiet _ _ _ Ho Q) as G1. destruct Q as [E B].
    assert (early_ok tr (batch w1)) as Ho1 by (by rewrite B).
    assert (∀ x w', drain_post tr w1 x w' → drain_post tr w x w') as Hup.
    { intros x' w' Hd. eapply drain_post_step; [exact G1|done|]. by rewrite app_nil_r. }
    destruct Hx as [[-> Hp]|[[-> Hd]|[-> _]]].
    + apply negb_true_iff in Hp. subst pause. eapply spec_mono; [apply (IH tr); [done|by rewrite B|]|auto].
      rewrite B. lia.
    + apply (cancel_batch_then_ok _ tr); [done| |].
      * intros tr' w' Hc Hr. apply spec_ret, Hup. exists tr'. done.
      * intros tr' w' e Hc He. apply Hup. exists tr'. split; [done|by left].
    + apply (cancel_batch_then_ok _ tr); [done| |].
      * intros tr' w' Hc Hr. apply spec_throw, Hup. exists tr'. split; [done|].
        apply cancelled_settle_error.
      * intros tr' w' e Hc He. apply Hup. exists tr'. split; [done|by left].
Qed.

Lemma drain_ok tr w force pause :
  early_ok tr (batch w) → spec (drain_early_tool_batch force pause) w (drain_post tr w).
Proof.
  intros Ho. unfold drain_early_tool_batch. destruct force.
  - apply (cancel_batch_then_ok _ tr); [done| |].
    + intros tr' w' Hc Hr. apply spec_ret. by exists tr'.
    + intros tr' w' e Hc He. exists tr'. split; [done|by left].
  - apply spec_bind, spec_get. apply spec_bind.
    apply (or_cancel_batch_ok _ tr w w (λ _ tr1 w1, rejected_ids tr1 = []
      ∧ synthetic_results (batch w1) = [] ∧ futures (batch w1) = futures (batch w))).
    + eapply spec_mono; [by apply (commit_popped_ok _ _ tr)|].
      intros x w1 (tr1 & G1 & Hf & Hx). exists tr1. split; [done|]. destruct x; [|done].
      destruct Hx. done.
    + intros _ tr1 w1 G1 (Hr & Hq & Hf).
      eapply spec_mono; [apply (drain_loop_ok _ (tr ++ tr1)); [apply G1|done|]|].
      { rewrite Hf. destruct pause; lia. }
      intros z w3 Hz. by eapply drain_post_step.
    + intros tr' w' e Hc He. by exists tr'.
Qed.

(** ** Lemmas: admission *)

(** A call that has just entered the history enters the batch, at most with a running tool
    or with a synthetic result; if it is marked, with one of them. *)
Record added (b : Batch) (i : string) (marked : bool) (b' : Batch) : Prop := {
  ad_same : terminal_call_ids b' = terminal_call_ids b ∧ seen_call_ids b' = seen_call_ids b;
  ad_fence : ∀ j, j ≠ i → attempt_fence b' !! j = attempt_fence b !! j;
  ad_fence_new : ∀ x, attempt_fence b' !! i = Some x → terminal x = false;
  ad_started : ∀ j t, (j, t) ∈ started_calls b' → (j, t) ∈ started_calls b
    ∨ (j = i ∧ attempt_fence b' !! i = Some (mkAttempt t false) ∧ i ∈ t_call_id <$> futures b');
  ad_futures : ∀ t, t ∈ futures b' → t ∈ futures b
    ∨ (t_call_id t = i ∧ (i, t_attempt_id t) ∈ started_calls b' ∧ t_fixed t = None);
  ad_synthetic : ∀ r, r ∈ synthetic_results b' → r ∈ synthetic_results b
    ∨ (tool_use_id r = i ∧ attempt_fence b' !! i = None);
  ad_keeps : started_calls b ⊆ started_calls b' ∧ futures b ⊆ futures b'
    ∧ synthetic_results b ⊆ synthetic_results b';
  ad_marked : marked = true →
    i ∈ (started_calls b').*1 ∨ i ∈ tool_use_id <$> synthetic_results b';
  ad_dispatched : dispatched_any b' = true ∧ calls b' = calls b
}.

Lemma added_not b i b' :
  attempt_fence b !! i = None →
  terminal_call_ids b' = terminal_call_ids b → seen_call_ids b' = seen_call_ids b →
  attempt_fence b' = attempt_fence b → started_calls b' = started_calls b →
  futures b' = futures b → synthetic_results b' = synthetic_results b →
  dispatched_any b' = true → calls b' = calls b →
  added b i false b'.
Proof. intros Hn T Se F S U Y D C. split; rewrite ?F, ?S, ?U, ?Y; try done; auto. by rewrite Hn. Qed.

Lemma added_synthetic b i r b' :
  attempt_fence b !! i = None → tool_use_id r = i →
  terminal_call_ids b' = terminal_call_ids b → seen_call_ids b' = seen_call_ids b →
  attempt_fence b' = attempt_fence b → started_calls b' = started_calls b →
  futures b' = futures b → synthetic_results b' = synthetic_results b ++ [r] →
  dispatched_any b' = true → calls b' = calls b →
  added b i true b'.
Proof.
  intros Hn Hr T Se F S U Y D C. split; rewrite ?F, ?S, ?U, ?Y; try done; auto.
  - by rewrite Hn.
  - intros r' [?| ->%list_elem_of_singleton]%elem_of_app; auto.
  - set_solver.
  - intros _. right. rewrite fmap_app. set_solver.
Qed.

Lemma added_started b i a b' :
  terminal_call_ids b' = terminal_call_ids b → seen_call_ids b' = seen_call_ids b →
  attempt_fence b !! i = None → (∀ r, r ∈ synthetic_results b → tool_use_id r ≠ i) →
  attempt_fence b' = register (attempt_fence b) i a →
  started_calls b' = started_calls b ++ [(i, a)] →
  futures b' = futures b ++ [mkTask i a None] → synthetic_results b' = synthetic_results b →
  dispatched_any b' = true → calls b' = calls b →
  added b i true b'.
Proof.
  intros T Se Hn Hr F S U Y D C. unfold register in F.
  assert (attempt_fence b' !! i = Some (mkAttempt a false)) as Hi
    by (rewrite F; apply lookup_insert_eq).
  split; rewrite ?S, ?U, ?Y; try done; auto.
  - intros j Hj. rewrite F. by apply lookup_insert_ne.
  - rewrite Hi. by intros x [= <-].
  - intros j t [?|[= -> ->]%list_elem_of_singleton]%elem_of_app; [by left|right].
    rewrite fmap_app. set_solver.
  - intros t [?| ->%list_elem_of_singleton]%elem_of_app; [by left|right]. simpl. set_solver.
  - set_solver.
  - intros _. left. rewrite fmap_app. set_solver.
Qed.

(** What the trace [more] after [tr] says when the call [i] enters the history. *)
Record call_entered (tr : list Effect) (i : string) (marked : bool) (tr2 : list Effect) : Prop := {
  ce_done : done_ids tr2 = done_ids tr;
  ce_rejected : rejected_ids tr2 = rejected_ids tr;
  ce_called : called tr2 = called tr ++ [i];
  ce_marked : ∀ j, j ∈ marked_ids tr2 → j ∈ marked_ids tr ∨ (j = i ∧ marked = true);
  ce_orderly : orderly tr → orderly tr2
}.

Lemma call_enters tr call idx xid more :
  Forall ToolExecution.preparing more →
  call_entered tr (id call) (match xid with Some _ => true | None => false end)
    (tr ++ Committed (early_item call idx xid) :: more).
Proof.
  intros Hmore. destruct (ToolExecution.preparing_ids _ Hmore) as (Hd & Hr & Hc & Ho).
  assert (marked_ids more = []) as Hm.
  { clear -Hmore. induction Hmore as [|x l Hx Hl IH]; [done|]. by destruct x. }
  set (e := Committed (early_item call idx xid)). change (e :: more) with ([e] ++ more).
  split.
  - rewrite !done_ids_app, Hd. apply app_nil_r.
  - rewrite !rejected_ids_app, Hr. apply app_nil_r.
  - rewrite !called_app. f_equal. unfold called at 2. by rewrite Hc.
  - intros j. rewrite !marked_ids_app, Hm, app_nil_r, elem_of_app.
    destruct xid; [|set_solver]. intros [?|?%list_elem_of_singleton]; auto.
  - intros Htr. apply orderly_app; [done|]. by apply orderly_item.
Qed.

Lemma early_ok_call tr b i marked tr2 b' :
  early_ok tr b → i ∉ called tr → i ∈ seen_call_ids b →
  call_entered tr i marked tr2 → added b i marked b' → early_ok tr2 b'.
Proof.
  intros [[O1 O7 O2 O3 O4 O5 O6] Ac Sy Mk [Nd Se] Fe] Hnew Hseen [Hd Hr Hc Hm Ho]
    [[AT AS] AF AN AI AU AY (K1 & K2 & K3) AM _].
  assert (∀ j t, (j, t) ∈ started_calls b → j ≠ i) as Hne by (intros j t [Hj _]%O4 ->; done).
  assert (i ∉ done_ids tr) as Hnd by (intros ?%O7; done).
  assert (∀ j, j ∈ called tr → j ∈ called tr ++ [i]) as Hup by set_solver.
  assert (∀ X Y (f : X → Y) (l k : list X), l ⊆ k → f <$> l ⊆ f <$> k) as Hmap by set_solver.
  split; [split| | | | |]; unfold accounted; rewrite ?Hd, ?Hr, ?Hc, ?AT, ?AS; try by auto.
  - intros j x Hx. destruct (decide (j = i)) as [->|Hj].
    + rewrite (AN x Hx). naive_solver.
    + rewrite AF in Hx by done. by apply O3.
  - intros j t [Hj|(-> & Hf & _)]%AI; [|set_solver].
    destruct (O4 j t Hj) as [? [x Hx]]. split; [by auto|]. exists x.
    rewrite AF by (by eapply Hne). done.
  - intros t [Ht|(Ht & Hin & Hfix)]%AU; [|rewrite Ht, Hfix; naive_solver].
    destruct (O5 t Ht). split; [by apply K1|done].
  - intros j t [Hj|(-> & _ & Hin)]%AI; [|by auto].
    destruct (Ac j t Hj) as [?|[?|Hin]]; [by auto..|]. right; right. by eapply Hmap, Hin.
  - intros r [Hy|[-> Hn]]%AY; [|set_solver]. destruct (Sy r Hy) as [Hn ?].
    rewrite AF by congruence. auto.
  - intros j [Hj|[-> Hx]]%Hm; [|destruct (AM Hx); auto].
    destruct (Mk j Hj) as [?|[?|[Hin|Hin]]]; [by auto..| |]; right; right.
    + left. by eapply Hmap, Hin.
    + right. by eapply Hmap, Hin.
  - split; [|intros j [?| ->%list_elem_of_singleton]%elem_of_app; auto].
    apply NoDup_app. split; [done|]. split; [set_solver|apply NoDup_singleton].
  - intros j x Hx. destruct (decide (j = i)) as [->|Hj]; [set_solver|].
    rewrite AF in Hx by done. apply Hup. by eapply Fe.
Qed.

(** Effects that put neither results nor calls into the history, and start no tool. *)
Definition idle (e : Effect) : Prop :=
  match e with
  | Published _ | Started _ _ _ => False
  | Committed i => ProviderHistory.is_tool i = false
  | Rejected i => ProviderHistory.is_result i = false
  | _ => True
  end.

Lemma idle_ids tr : Forall idle tr →
  done_ids tr = [] ∧ rejected_ids tr = [] ∧ called tr = [] ∧ marked_ids tr = []
  ∧ started_ids tr = [] ∧ orderly tr
  ∧ Forall (λ i, ProviderHistory.is_result i = false) (committed tr).
Proof.
  induction 1 as [|e tr He Htr (IH1 & IH2 & IH3 & IH4 & IH5 & IH6 & IH7)]; [by repeat constructor|].
  destruct e as [i|i| | | | | |]; try done; try (split_and!; try done; by apply orderly_other).
  - destruct i; try done; split_and!; try done; try (by apply orderly_item); by constructor.
  - destruct i; try done; split_and!; try done; by apply orderly_other.
Qed.

Lemma early_ok_idle tr more b b' :
  early_ok tr b → Forall idle more →
  terminal_call_ids b' = terminal_call_ids b → attempt_fence b' = attempt_fence b →
  started_calls b' = started_calls b → futures b' = futures b →
  synthetic_results b' = synthetic_results b → seen_call_ids b ⊆ seen_call_ids b' →
  early_ok (tr ++ more) b'.
Proof.
  intros [[O1 O7 O2 O3 O4 O5 O6] Ac Sy Mk [Nd Se] Fe] (Hd & Hr & Hc & Hm & _ & Ho & _)%idle_ids
    T F S U Y K.
  split; [split| | | | |]; unfold accounted;
    rewrite ?called_app, ?marked_ids_app, ?done_ids_app, ?rejected_ids_app, ?Hd, ?Hr, ?Hc, ?Hm,
      ?app_nil_r, ?T, ?F, ?S, ?U, ?Y; try done.
  - by apply orderly_app.
  - split; [done|]. auto.
Qed.

(** A tool starts only after its call is in the history, marked as started. *)
Definition recorded_starts (tr : list Effect) : Prop :=
  ∀ tr1 i a l tr2, tr = tr1 ++ Started i a l :: tr2 → i ∈ marked_ids tr1.

Lemma recorded_none tr : started_ids tr = [] → recorded_starts tr.
Proof. intros Hs tr1 i a l tr2 ->. rewrite started_ids_app in Hs. by destruct (started_ids tr1). Qed.

Lemma recorded_app tr1 tr2 :
  recorded_starts tr1 → recorded_starts tr2 → recorded_starts (tr1 ++ tr2).
Proof.
  intros H1 H2 l1 i a l l2 [(m & -> & ->)|(m & -> & ->)]%app_cons_split; [by eapply H1|].
  rewrite marked_ids_app. apply elem_of_app. right. by eapply H2.
Qed.

(** What admitting calls to a batch with trace [tr] leaves. *)
Record admitted (tr : list Effect) (w : State) (tr' : list Effect) (w' : State) : Prop := {
  am_ext : ext w tr' w';
  am_ok : early_ok (tr ++ tr') (batch w');
  am_recorded : recorded_starts tr';
  am_started : started_ids tr' `sublist_of` called tr';
  am_open : done_ids tr' = [] ∧ rejected_ids tr' = [];
  am_dispatched : dispatched_any (batch w) = true ∨ called tr' ≠ [] →
    dispatched_any (batch w') = true;
  am_calls : calls (batch w) ≠ [] → calls (batch w') ≠ []
}.

Definition all_marked (tr : list Effect) : Prop := ∀ i, i ∈ called tr → i ∈ marked_ids tr.

Lemma all_marked_app tr1 tr2 : all_marked tr1 → all_marked tr2 → all_marked (tr1 ++ tr2).
Proof. intros H1 H2 i. rewrite called_app, marked_ids_app, !elem_of_app. naive_solver. Qed.

Lemma admitted_trans tr w1 tr1 w2 tr2 w3 :
  admitted tr w1 tr1 w2 → admitted (tr ++ tr1) w2 tr2 w3 → admitted tr w1 (tr1 ++ tr2) w3.
Proof.
  intros [E1 O1 R1 S1 [D1 J1] G1 C1] [E2 O2 R2 S2 [D2 J2] G2 C2]. split; [| | | | | |by auto].
  - exact (ext_trans _ _ _ _ _ E1 E2).
  - by rewrite app_assoc.
  - by apply recorded_app.
  - rewrite started_ids_app, called_app. by apply sublist_app.
  - by rewrite done_ids_app, rejected_ids_app, D1, D2, J1, J2.
  - rewrite called_app. intros Hd. apply G2.
    destruct (called tr1) eqn:Hc; [|left; by apply G1; right].
    destruct Hd; [left; apply G1; auto|by right].
Qed.

Lemma admitted_idle tr w more w' :
  early_ok tr (batch w) → ext w more w' → Forall idle more →
  terminal_call_ids (batch w') = terminal_call_ids (batch w) →
  attempt_fence (batch w') = attempt_fence (batch w) →
  started_calls (batch w') = started_calls (batch w) → futures (batch w') = futures (batch w) →
  synthetic_results (batch w') = synthetic_results (batch w) →
  seen_call_ids (batch w) ⊆ seen_call_ids (batch w') →
  dispatched_any (batch w') = dispatched_any (batch w) →
  (calls (batch w) ≠ [] → calls (batch w') ≠ []) →
  admitted tr w more w'.
Proof.
  intros Ho E Hi ? ? ? ? ? ? Hdis Hcalls. destruct (idle_ids _ Hi) as (Hd & Hr & Hc & Hm & Hs & _).
  split; [done|by eapply early_ok_idle|by apply recorded_none|by rewrite Hs, Hc|done| |done].
  rewrite Hdis, Hc. by intros [?|[]].
Qed.

Lemma admitted_call tr w pre call idx xid more w' :
  early_ok tr (batch w) → id call ∉ called tr → id call ∈ seen_call_ids (batch w) →
  Forall idle pre → (more = [] ∨ ∃ a l, more = [Started (id call) a l] ∧ is_Some xid) →
  ext w (pre ++ Committed (early_item call idx xid) :: more) w' →
  added (batch w) (id call) (match xid with Some _ => true | None => false end) (batch w') →
  admitted tr w (pre ++ Committed (early_item call idx xid) :: more) w'.
Proof.
  intros Ho Hn Hs Hpre Hmore E Had. destruct (idle_ids _ Hpre) as (Pd & Pr & Pc & Pm & Ps & _).
  set (e := Committed _) in *.
  assert (Forall ToolExecution.preparing more) as Hp
    by (destruct Hmore as [->|(a & l & -> & _)]; by repeat constructor).
  destruct (ToolExecution.preparing_ids _ Hp) as (Md & Mr & Mc & _).
  assert (called (pre ++ e :: more) = [id call]) as Hc.
  { change (e :: more) with ([e] ++ more). rewrite !called_app, Pc. unfold called at 2. by rewrite Mc. }
  split; [done| | | | |by intros _; apply Had|by rewrite (proj2 (ad_dispatched _ _ _ _ Had))].
  - rewrite app_assoc. eapply early_ok_call; [|  | |by apply call_enters|exact Had].
    + by eapply early_ok_idle.
    + by rewrite called_app, Pc, app_nil_r.
    + done.
  - destruct Hmore as [->|(a & l & -> & [x ->])].
    { apply recorded_none. by rewrite started_ids_app, Ps. }
    apply recorded_app; [by apply recorded_none|].
    intros [|e1 [|e2 tr1]] i a' l' tr2 [=]; subst; [set_solver|by destruct tr1].
  - rewrite Hc, started_ids_app, Ps. destruct Hmore as [->|(a & l & -> & _)].
    + apply sublist_nil_l.
    + done.
  - change (e :: more) with ([e] ++ more).
    by rewrite !done_ids_app, !rejected_ids_app, Pd, Pr, Md, Mr.
Qed.

(** Recording a call: the batch is as before, and a refusal leaves it so. *)
Lemma append_call_ok {X} tr w pre w1 call idx xid (k : M X)
    (Q : result X EngineError → State → Prop) :
  early_ok tr (batch w) → ext w pre w1 → batch w1 = batch w → Forall idle pre →
  (∀ w2, ext w (pre ++ [Committed (early_item call idx xid)]) w2 → batch w2 = batch w → spec k w2 Q) →
  (∀ tr' w2 e, admitted tr w tr' w2 → Q (Err (ImageRecovery.HistoryAppend e)) w2) →
  spec (let! _ := append_early_tool_call call idx xid in k) w1 Q.
Proof.
  intros Ho E B Hi Hk Hr. apply spec_bind. eapply spec_mono; [apply append_items_spec|].
  intros x w2 [B2 [[-> E2]|(l1 & i & l2 & e & Hits & -> & E2)]].
  - apply Hk; [exact (ext_trans _ _ _ _ _ E E2)|congruence].
  - destruct l1 as [|? l1]; [|by destruct l1]. injection Hits as <- <-.
    eapply Hr, admitted_idle; [done|exact (ext_trans _ _ _ _ _ E E2)| |by rewrite B2, B..].
    apply Forall_app. split; [done|]. by repeat constructor.
Qed.

(** What admitting one call comes to. *)
Definition admit_post (tr : list Effect) (w : State) (x : result (option EarlyToolAdmission) EngineError)
    (w' : State) : Prop :=
  ∃ tr', admitted tr w tr' w'
    ∧ match x with
      | Ok None => all_marked tr'
      | Ok (Some a) => a = AdmitPause
      | Err e => e ≠ fail_with PauseRequested
      end.

Lemma marked_call pre call idx x more :
  Forall idle pre → Forall ToolExecution.preparing more →
  all_marked (pre ++ Committed (early_item call idx (Some x)) :: more).
Proof.
  intros (_ & _ & Hc & _)%idle_ids (_ & _ & Mc & _)%ToolExecution.preparing_ids i.
  set (e := Committed _). change (e :: more) with ([e] ++ more).
  rewrite !called_app, !marked_ids_app, Hc. unfold called at 2. rewrite Mc. set_solver.
Qed.

Lemma dispatch_early_ok tr w pre w1 action call idx context :
  early_ok tr (batch w) → id call ∉ called tr → id call ∈ seen_call_ids (batch w) →
  ext w pre w1 → batch w1 = batch w → Forall idle pre →
  (∀ r, action = SyntheticResult r → tool_use_id r = id call) →
  spec (dispatch_early action call idx context) w1 (admit_post tr w).
Proof.
  intros Ho Hn Hs E B Hi Hr.
  assert (attempt_fence (batch w) !! id call = None) as Hfence.
  { destruct (attempt_fence (batch w) !! id call) eqn:Hf; [|done].
    by apply (eo_fence _ _ Ho) in Hf. }
  apply (append_call_ok tr w pre); [done..| |].
  2:{ intros tr' w2 e Ha. by exists tr'. }
  intros w2 E2 B2. apply spec_bind, spec_get. apply spec_bind, spec_modify.
  set (w3 := set_batch _ _).
  assert (ext w (pre ++ [Committed (early_item call idx
    (match action with Pause => None | _ => Some (execution_id context) end))]) w3) as E3
    by (by apply ext_set_batch).
  assert (∀ x w4 xid marked,
    xid = match action with Pause => None | _ => Some (execution_id context) end →
    marked = match xid with Some _ => true | None => false end →
    ext w (pre ++ [Committed (early_item call idx xid)]) w4 →
    added (batch w) (id call) marked (batch w4) →
    (match x with
     | Ok None => marked = true | Ok (Some a) => a = AdmitPause
     | Err e => e ≠ fail_with PauseRequested end) →
    admit_post tr w x w4) as Hend.
  { intros x w4 xid marked Hxid -> E4 Had Hx. eexists. split.
    - eapply admitted_call; [done|done|done|exact Hi|by left|exact E4|exact Had].
    - destruct x as [[]|]; [done| |done]. destruct xid; [|done]. by apply marked_call. }
  destruct action as [| |r|reason|].
  - apply spec_bind, spec_bind, spec_modify. apply spec_bind, spec_modify, spec_modify, spec_ret.
    set (context' := mkContext _ _ _ _).
    exists (pre ++ Committed (early_item call idx (Some (execution_id context)))
       :: [Started (id call) (execution_id context') (x_logical_call_id context')]).
    split; [|apply marked_call; [done|by repeat constructor]].
    eapply admitted_call; [done|done|done|done|right; by do 2 eexists| |].
    + apply ext_set_batch. rewrite cons_middle, app_assoc.
      eapply ext_trans; [|by apply ext_emit]. by apply ext_set_batch.
    + eapply added_started; simpl; try (by rewrite B2); try done.
      intros r Hin Heq. destruct (eo_synthetic _ _ Ho r Hin). congruence.
  - apply spec_bind, spec_modify, spec_ret. eapply Hend; [done|done|by apply ext_set_batch| |done].
    eapply added_synthetic; simpl; try (by rewrite B2); done.
  - apply spec_bind, spec_modify, spec_ret. eapply Hend; [done|done|by apply ext_set_batch| |done].
    eapply added_synthetic; simpl; try (by rewrite B2); try done. by apply Hr.
  - apply spec_bind, spec_modify, spec_throw. eapply Hend; [done|done|by apply ext_set_batch| |done].
    eapply added_synthetic; simpl; try (by rewrite B2); done.
  - apply spec_bind, spec_modify, spec_ret. eapply Hend; [done|done|by apply ext_set_batch| |done].
    eapply added_not; simpl; try (by rewrite B2); done.
Qed.

Lemma admit_call_ok tr w idx call :
  early_ok tr (batch w) → id call ∉ called tr → id call ∈ seen_call_ids (batch w) →
  spec (admit_call idx call) w (admit_post tr w).
Proof.
  intros Ho Hn Hs.
  assert (attempt_fence (batch w) !! id call = None) as Hfence.
  { destruct (attempt_fence (batch w) !! id call) eqn:Hf; [|done].
    by apply (eo_fence _ _ Ho) in Hf. }
  assert (∀ w1 context message, quiet w w1 →
    spec (let! _ := refuse_call call context message in ret None) w1 (admit_post tr w)) as Hrefuse.
  { intros w1 context message [E1 B1]. apply spec_bind. apply (append_call_ok tr w []); [done..| |].
    - intros w2 E2 B2. apply spec_modify, spec_ret. eexists.
      split; [eapply (admitted_call _ _ []);
        [done|done|done|done|by left|apply ext_set_batch, E2|]|by apply (marked_call [])].
      eapply added_synthetic; simpl; try (by rewrite B2); done.
    - intros tr' w2 e Ha. by exists tr'. }
  assert (∀ X w1 (k : M X) (Q : result X EngineError → State → Prop), quiet w w1 →
    (∀ tr' w2, admitted tr w tr' w2 → spec k w2 Q) →
    (∀ tr' w2 e, admitted tr w tr' w2 → Q (Err (ImageRecovery.HistoryAppend e)) w2) →
    spec (let! _ := append_early_tool_call call idx None in let! _ := mark_dispatched in k) w1 Q)
    as Hpause.
  { intros X w1 k Q [E1 B1] Hk Hr. apply (append_call_ok tr w []); [done..| |done].
    intros w2 E2 B2. apply spec_bind, spec_modify. eapply Hk.
    eapply (admitted_call _ _ []); [done|done|done|done|by left|by apply ext_set_batch|].
    eapply added_not; simpl; try (by rewrite B2); done. }
  unfold admit_call. apply spec_bind, spec_get. destruct (is_object (serde_json env) (input call)); simpl.
  2:{ apply Hrefuse, quiet_refl. }
  apply spec_bind, spec_ask. destruct (get_tool env _ _); simpl; [|apply Hrefuse, quiet_tick].
  apply spec_bind, spec_attempt. eapply spec_mono; [apply await_policy_spec|].
  intros x w1 [Q1 Hx]. pose proof (quiet_trans _ _ _ (quiet_tick env w) Q1) as Q.
  destruct x as [[[action call'] context']|e].
  - apply spec_bind, spec_modify. set (w2 := set_trace _ _).
    assert (ext w [Decided (id call) action] w2) as E2
      by (eapply quiet_ext; [exact Q|by apply ext_emit]).
    assert (batch w2 = batch w) as B2 by apply Q.
    assert (∀ m, spec (ToolExecution.contract_violation m) w2 (admit_post tr w)) as Hviolation.
    { intros m. apply spec_throw. eexists. split; [|done].
      eapply admitted_idle; [done|exact E2|by repeat constructor|by rewrite B2..]. }
    case_bool_decide as Hid; simpl; [|apply Hviolation].
    destruct (match action with SyntheticResult _ => _ | _ => _ end) eqn:Hsyn; [apply Hviolation|].
    apply (dispatch_early_ok tr w [Decided (id call) action]); rewrite ?Hid; try done.
    { by repeat constructor. }
    intros r ->. apply negb_false_iff, bool_decide_eq_true in Hsyn. done.
  - assert (∀ e', e' ≠ fail_with PauseRequested → admit_post tr w (Err e') w1) as Herr.
    { intros e' He. exists []. split; [|done].
      eapply admitted_idle; [done|apply Q|constructor|by rewrite (proj2 Q)..]. }
    destruct Hx as [(f & -> & [-> | ->])|(now & e' & _ & ->)].
    + apply Hpause; [done| |].
      * intros tr' w2 Ha. apply spec_throw. by exists tr'.
      * intros tr' w2 e Ha. by exists tr'.
    + apply Hpause; [done| |].
      * intros tr' w2 Ha. apply spec_ret. by exists tr'.
      * intros tr' w2 e Ha. by exists tr'.
    + apply spec_throw, Herr. done.
Qed.

Lemma admit_early_ok tool_calls : ∀ tr w,
  early_ok tr (batch w) → all_marked tr →
  spec (admit_early_tool_calls tool_calls) w (λ x w', ∃ tr', admitted tr w tr' w'
    ∧ match x with
      | Ok AdmitContinue => all_marked (tr ++ tr') ∧ (called tr' ≠ [] → calls (batch w') ≠ [])
      | Ok AdmitPause => True
      | Err e => e ≠ fail_with PauseRequested
      end).
Proof.
  induction tool_calls as [|[idx call] rest IH]; intros tr w Ho Hm; simpl.
  { apply spec_ret. exists []. rewrite app_nil_r. split; [|done].
    eapply admitted_idle; [done|apply ext_refl|constructor|done..]. }
  apply spec_bind, spec_get. case_bool_decide as Hseen; [by apply IH|].
  apply spec_bind, spec_modify. set (w1 := set_batch _ _).
  assert (admitted tr w [] w1) as A1.
  { eapply admitted_idle; [done|apply ext_set_batch, ext_refl|constructor|done..| |done|].
    - simpl. set_solver.
    - intros _ ?%app_eq_nil. naive_solver. }
  assert (early_ok tr (batch w1)) as Ho1 by (rewrite <-(app_nil_r tr); apply A1).
  apply spec_bind. eapply spec_mono; [apply (admit_call_ok tr w1); [done| |simpl; set_solver]|].
  { intros Hc. by apply (proj2 (eo_called _ _ Ho)) in Hc. }
  intros x w2 (tr1 & A2 & Hx).
  assert (admitted tr w tr1 w2) as A12.
  { apply (admitted_trans _ _ [] w1); [done|by rewrite app_nil_r]. }
  destruct x as [[a|]|e].
  - subst a. apply spec_ret. by exists tr1.
  - eapply spec_mono; [apply (IH (tr ++ tr1)); [apply A2|by apply all_marked_app]|].
    intros y w3 (tr2 & A3 & Hy). exists (tr1 ++ tr2).
    split; [by eapply admitted_trans|]. rewrite app_assoc. destruct y as [[]|]; [|done..].
    split; [apply Hy|]. intros _. apply A3, A2. simpl. intros ?%app_eq_nil. naive_solver.
  - by exists tr1.
Qed.

End early.

End EarlyTools.
