(* ===== verification/Streaming.v ===== *)
(** * Opening and reading a response

    Models [open_stream_with_retry], [recover_rejected_image],
    [open_stream_with_image_recovery], [wait_for_first_stream_event], [build_assistant_items]
    and [stream_response] of [src/crates/agen/src/engine.rs], and the retry policy of
    [src/crates/agen/src/llm_client/retry.rs].  A stream is the finite list of what the
    provider sends before it ends; the provider, its timing and the choices of unbiased waits
    are a record of functions of the clock. *)
From Stdlib Require Import ZArith String List Lia.
From stdpp Require Import base tactics numbers list strings gmap sets pretty.
From S2P Require Import Prelude Conversation ImageRecovery ProviderHistory Tool Timeline.
From S2P Require Import EngineCore ToolExecution EarlyTools.

(** ** The retry policy *)

Module Retry.

(** Durations are in nanoseconds. *)
Record RetryPolicy := mkRetryPolicy {
  base : Z;
  cap : Z;
  max_attempts : nat;
  total_timeout : Z
}.

Definition default_policy : RetryPolicy :=
  mkRetryPolicy (500 * 10 ^ 6) (10 * 10 ^ 9) 4 (40 * 10 ^ 9).

(** [as u64] and the [wrapping] operations. *)
Definition wrap (x : Z) : Z := x mod 2 ^ 64.

(** [jitter_nanos], with the seed read from the system clock; [None] is the overflow of
    [max_nanos + 1]. *)
Definition jitter_nanos (max_nanos seed : Z) : option Z :=
  if max_nanos =? 0 then Some 0
  else if max_nanos =? U64_MAX then None
  else
    let x := wrap (seed + 0x9E3779B97F4A7C15) in
    let x := wrap (Z.lxor x (Z.shiftr x 30) * 0xBF58476D1CE4E5B9) in
    let x := wrap (Z.lxor x (Z.shiftr x 27) * 0x94D049BB133111EB) in
    let x := Z.lxor x (Z.shiftr x 31) in
    Some (x mod (max_nanos + 1)).

Definition backoff (p : RetryPolicy) (attempt : nat) (seed : Z) : option Z :=
  let shift := Z.of_nat (attempt `min` 20) in
  let exp_nanos := Z.min (wrap (base p) * Z.shiftl 1 shift) U64_MAX in
  jitter_nanos (Z.min exp_nanos (wrap (cap p))) seed.

(** [Duration::MAX], and the addition of durations, which panics beyond it. *)
Definition DURATION_MAX : Z := U64_MAX * 10 ^ 9 + 999999999.

Definition duration_add (a b : Z) : option Z :=
  if a + b <=? DURATION_MAX then Some (a + b) else None.

Lemma backoff_bounds p attempt seed :
  wrap (cap p) < U64_MAX → ∃ wait, backoff p attempt seed = Some wait ∧ 0 <= wait <= wrap (cap p).
Proof.
  intros Hcap. unfold backoff. set (upper := Z.min _ _).
  assert (0 <= upper <= wrap (cap p)) as Hu.
  { assert (0 <= wrap (cap p)) by apply Z.mod_pos_bound, eq_refl.
    assert (0 <= wrap (base p)) by apply Z.mod_pos_bound, eq_refl.
    assert (0 <= Z.shiftl 1 (Z.of_nat (attempt `min` 20))) by (apply Z.shiftl_nonneg; lia).
    unfold upper, U64_MAX. lia. }
  unfold jitter_nanos. destruct (Z.eqb_spec upper 0); [eexists; split; [done|lia]|].
  destruct (Z.eqb_spec upper U64_MAX); [lia|]. eexists. split; [done|].
  match goal with |- context [?x mod (upper + 1)] => pose proof (Z.mod_pos_bound x (upper + 1)) end.
  lia.
Qed.

End Retry.

Module Streaming.
Import Tool EngineCore EarlyTools Timeline.
Import ImageRecovery(HistoryEntry, mkEntry, item, annotation).

(** What an unbiased wait takes; what is not there gives way to the input or output. *)
Inductive Pick := PickIo | PickTask | PickPause | PickCancel.

Inductive StreamCompletion := Complete | StreamInterrupted (reason : string).

Section streaming.
Context {A Json HttpError JsonError : Type}.
Abbreviation ClientError := (ImageRecovery.ClientError HttpError JsonError).
Abbreviation EngineError := (EngineError HttpError JsonError).
Abbreviation State := (State A Json).
Abbreviation M := (@M A Json HttpError JsonError).

(** What a provider sends: events, and errors of the transport. *)
Definition Stream : Type := list (result Event ClientError).

Record Provider := mkProvider {
  retry_policy : Retry.RetryPolicy;
  (** [client.stream(request)]. *)
  client_stream : nat → list Item → result Stream ClientError;
  first_event_timed_out : nat → bool;
  (** [started.elapsed()], and the clock that seeds the jitter. *)
  elapsed : nat → Z;
  system_nanos : nat → Z;
  http_transient : HttpError → bool;
  error_text : ClientError → string;
  picks : nat → Pick;
  blob_size : string → option (Z * Z);
  image_rejection_handler : option (nat → HistoryEntry A → Item → option string)
}.

Context (env : Env A Json) (provider : Provider).

(** ** The timeline of the engine *)

Definition flush : M unit := with_timeline (λ t, Some (flush_usage t)).

(** Reads and empties a collector. *)
Definition take {X} (f : Timeline Json → X * Timeline Json) : M X := λ w,
  let '(x, t) := f (timeline w) in Some (Ok x, set_timeline w t).

(** ** Opening *)

(** A request to pause or cancel, if the wait takes it before what it waits for. *)
Definition await_signal : M (option EngineFailure) := λ w,
  let w := tick env w in
  match picks provider (clock w) with
  | PickPause => if pause_rx w then Some (Ok (Some PauseRequested), set_pause_rx w false)
                 else Some (Ok None, w)
  | PickCancel => if cancel_rx w then Some (Ok (Some Cancelled), set_cancel_rx w false)
                  else Some (Ok None, w)
  | _ => Some (Ok None, w)
  end.

(** The wait ends the attempt when a request comes. *)
Definition or_interrupted {X} (k : M X) : M X :=
  let! signal := await_signal in
  match signal with
  | Some f => let! _ := abort_block env in fail f
  | None => k
  end.

Definition DEFAULT_FIRST_STREAM_EVENT_TIMEOUT : Z := 30 * 10 ^ 9.

(** [wait_for_first_stream_event]. *)
Definition wait_for_first_stream_event (stream : Stream) : M (result Stream ClientError) :=
  let! late := ask env (first_event_timed_out provider) in
  ret (if (late : bool)
       then Err (ImageRecovery.Timeout "stream_first_event" DEFAULT_FIRST_STREAM_EVENT_TIMEOUT)
       else match stream with
            | Err e :: _ => Err e
            | _ => Ok stream
            end).

Definition retry_after (e : ClientError) : option Z :=
  match e with ImageRecovery.Api _ _ _ retry_after => retry_after | _ => None end.

(** One attempt: the stream, or the error that may be retried. *)
Definition open_attempt (request : list Item) : M (result Stream ClientError) :=
  let! w := get in
  let! _ := emit (Requested (item <$> entries w) request) in
  or_interrupted (
    let! stream_result := ask env (λ now, client_stream provider now request) in
    match stream_result with
    | Ok stream => or_interrupted (wait_for_first_stream_event stream)
    | Err err => ret (Err err)
    end).

Fixpoint open_attempts (fuel failed_attempt : nat) (request : list Item) : M Stream :=
  match fuel with
  | O => panic
  | S fuel =>
      let! r := open_attempt request in
      match r with
      | Ok stream => ret stream
      | Err err =>
          let policy := retry_policy provider in
          let next_failed_attempt := S failed_attempt in
          if (Retry.max_attempts policy <=? next_failed_attempt)%nat
             || negb (ImageRecovery.is_retryable (http_transient provider) err)
          then throw (ImageRecovery.Client err)
          else
            let! now := ask env (λ now, (elapsed provider now, system_nanos provider now)) in
            match (match retry_after err with
                   | Some wait => Some wait
                   | None => Retry.backoff policy failed_attempt now.2
                   end) ≫= Retry.duration_add now.1 with
            | None => panic
            | Some total =>
                if Retry.total_timeout policy <? total
                then throw (ImageRecovery.Client err)
                else or_interrupted (open_attempts fuel next_failed_attempt request)
            end
      end
  end.

Definition open_stream_with_retry (request : list Item) : M Stream :=
  open_attempts (S (Retry.max_attempts (retry_policy provider))) 0 request.

(** [recover_rejected_image]: whether there was something to correct, and the request. *)
Definition recover_rejected_image (request : list Item) : M (bool * list Item) := λ w,
  let w := tick env w in
  let handler := (λ h, h (clock w)) <$> image_rejection_handler provider in
  let '(r, history, request) :=
    ImageRecovery.recover_rejected_image (blob_size provider) handler (entries w) request in
  Some (match r with Ok b => Ok (b, request) | Err e => Err e end, set_entries w history).

Fixpoint open_corrected (fuel : nat) (request : list Item) : M (Stream * list Item) :=
  match fuel with
  | O => panic
  | S fuel =>
      let! r := attempt (open_stream_with_retry request) in
      match r with
      | Ok stream => ret (stream, request)
      | Err (ImageRecovery.Client error) =>
          if ImageRecovery.is_image_size_rejection error then
            let! (recovered, request) := recover_rejected_image request in
            if (recovered : bool) then open_corrected fuel request
            else throw (ImageRecovery.Client error)
          else throw (ImageRecovery.Client error)
      | Err error => throw error
      end
  end.

(** Each correction takes one image out of the history. *)
Definition open_stream_with_image_recovery (request : list Item) : M (Stream * list Item) :=
  let! w := get in
  open_corrected (S (ImageRecovery.images (entries w))) request.

(** ** The assistant's items *)

Definition reasoning_item (r : ReasoningBlockData) : Item :=
  Conversation.Reasoning (Conversation.mkReasoning (r_id r) (default EmptyString (r_text r))
    (r_summary r) (r_encrypted_content r) (r_signature r) None).

Definition assistant_message (text : string) : Item :=
  Conversation.Message (Conversation.mkMessage None Conversation.Assistant
    [Conversation.Text text] None).

Definition tool_call_json (call : ToolCall Json) : Item :=
  Conversation.ToolCall (Conversation.mkToolCall None (id call) (name call)
    (to_string (serde_json env) (input call)) None None None).

Definition build_assistant_items (reasoning : list ReasoningBlockData) (text_blocks : list string)
    (tool_calls : list (ToolCall Json)) : list Item :=
  let text := String.concat EmptyString text_blocks in
  (reasoning_item <$> reasoning)
  ++ (if bool_decide (text = EmptyString) then [] else [assistant_message text])
  ++ (tool_call_json <$> tool_calls).

(** ** Reading *)

(** The local variables of [stream_response]: whether there is an early batch, whether the
    provider said it is done, and whether it has sent output. *)
Record Locals := mkLocals {
  early_tools : bool;
  response_completed : bool;
  response_progress : bool
}.

Inductive StreamWake := WakeEvent | WakeTool (attempt_id : string) (r : ToolResult)
                      | WakePaused | WakeCancelled.

(** [tokio::select!] over the stream, the tasks of the early batch and the signals. *)
Definition select_stream (early : bool) : M StreamWake := λ w,
  let w := tick env w in
  match picks provider (clock w) with
  | PickTask =>
      match futures (batch w) with
      | _ :: _ =>
          if early then
            match take_task env (HttpError := HttpError) (JsonError := JsonError) w with
            | Some (Ok (WakeTask attempt_id r), w) => Some (Ok (WakeTool attempt_id r), w)
            | _ => None
            end
          else Some (Ok WakeEvent, w)
      | [] => Some (Ok WakeEvent, w)
      end
  | PickPause => if pause_rx w then Some (Ok WakePaused, set_pause_rx w false)
                 else Some (Ok WakeEvent, w)
  | PickCancel => if cancel_rx w then Some (Ok WakeCancelled, set_cancel_rx w false)
                  else Some (Ok WakeEvent, w)
  | PickIo => Some (Ok WakeEvent, w)
  end.

(** The ways out that stop the batch. *)
Definition cancel_if {X} (early : bool) (k : M X) : M X :=
  if early then cancel_batch_then env k else k.

Definition drain_paused {X} (early : bool) : M X :=
  let! _ := if early then drain_early_tool_batch env false true else ret ToolsPaused in
  fail PauseRequested.

(** Errors of the batch during a response. *)
Definition or_abort {X} (m : M X) : M X :=
  let! r := attempt m in
  match r with
  | Ok x => ret x
  | Err error =>
      let! _ := abort_block env in
      let! _ := flush in
      let! cleanup_error := cancel_and_terminalize_early_batch env in
      throw (default error cleanup_error)
  end.

(** Until the stream has something, or has ended. *)
Fixpoint await_event (fuel : nat) (early : bool) : M unit :=
  let! wake := select_stream early in
  match wake with
  | WakeEvent => ret tt
  | WakeTool attempt_id r =>
      match fuel with
      | O => panic
      | S fuel =>
          let! _ := or_abort (finalize_and_commit_tool_result env r (Some attempt_id) Interruptible) in
          await_event fuel early
      end
  | WakePaused =>
      let! _ := abort_block env in
      let! _ := flush in
      drain_paused early
  | WakeCancelled =>
      let! _ := abort_block env in
      let! _ := flush in
      cancel_if early (fail Cancelled)
  end.

(** [EarlyToolExecutionBatch::new], on first use. *)
Definition ensure_batch (early : bool) : M unit :=
  if early then ret tt
  else
    modify (λ w, set_batch
      (set_tool_execution_batch_count w (S (tool_execution_batch_count w)))
      (batch_new (ToolExecution.next_batch_id w))).

(** Calls not seen before: what came before them in the response goes first. *)
Definition admit_fresh (fresh_calls : list (nat * ToolCall Json)) : M unit :=
  let! reasoning := take take_reasoning in
  let! text := take take_text in
  let! r := attempt (append_history_items env (build_assistant_items reasoning text [])) in
  match r with
  | Err error =>
      let! _ := cancel_and_terminalize_early_batch env in
      throw error
  | Ok _ =>
      let! admission := or_abort (admit_early_tool_calls env fresh_calls) in
      match admission with
      | AdmitContinue => or_cancel_batch env (commit_early_synthetic_results env)
      | AdmitPause =>
          let! _ := abort_block env in
          let! _ := flush in
          drain_paused true
      end
  end.

(** The block of [if early_dispatch]: whether there is a batch afterwards. *)
Definition admit_collected (early : bool) : M bool :=
  let! collected := take take_calls in
  match collected with
  | [] => ret early
  | _ =>
      let! _ := ensure_batch early in
      let! w := get in
      let fresh_calls := List.filter (λ c : nat * ToolCall Json,
        negb (bool_decide (id c.2 ∈ seen_call_ids (batch w)))) collected in
      match fresh_calls with
      | [] => ret true
      | _ => let! _ := admit_fresh fresh_calls in ret true
      end
  end.

(** Output closes the window in which a rejected request may be sent again. *)
Definition is_output (e : Event) : bool :=
  match e with
  | Ping | Usage _ | Error _ | Status Started => false
  | _ => true
  end.

Definition is_image_size_rejection (e : ErrorEvent) : bool :=
  ImageRecovery.is_image_size_diagnostic (code e) (message e).

(** The response and whether there is a batch, or a request to open again. *)
Definition StreamStep : Type := StreamCompletion * bool + list Item.

(** A rejected image, before any output: the request to send again. *)
Definition try_recover (e : Event) (progress : bool) (request : list Item) : M (option (list Item)) :=
  match e with
  | Error error =>
      if negb progress && is_image_size_rejection error then
        let! _ := flush in
        let! (recovered, request) := recover_rejected_image request in
        ret (if (recovered : bool) then Some request else None)
      else ret None
  | _ => ret None
  end.

Fixpoint read_events (early_dispatch : bool) (events : Stream) (l : Locals) (request : list Item)
  : M StreamStep :=
  let! w := get in
  let! _ := await_event (length (futures (batch w))) (early_tools l) in
  match events with
  | [] =>
      let! _ := flush in
      ret (inl (if negb early_dispatch || response_completed l then Complete
                else StreamInterrupted "LLM stream ended before provider completion status",
                early_tools l))
  | Err error :: _ =>
      let! _ := flush in
      ret (inl (StreamInterrupted (error_text provider error), early_tools l))
  | Ok event :: rest =>
      let progress := response_progress l || is_output event in
      let! recovered := try_recover event progress request in
      match recovered with
      | Some request => ret (inr request)
      | None =>
          let completed := response_completed l
                           || match event with Status Completed => true | _ => false end in
          let! _ := with_timeline (λ t, dispatch (serde_json env) t event) in
          let! early := if early_dispatch then admit_collected (early_tools l)
                        else ret (early_tools l) in
          match event with
          | Error error =>
              let! _ := abort_block env in
              let! _ := flush in
              cancel_if early
                (throw (ImageRecovery.Client
                   (ImageRecovery.Api None (code error) (message error) None)))
          | _ => read_events early_dispatch rest (mkLocals early completed progress) request
          end
      end
  end.

(** The response, with the streams opened again after a rejected image; the variables are
    still as they were set up, since there was no output. *)
Fixpoint read_responses (fuel : nat) (early_dispatch : bool) (request : list Item)
  : M (StreamCompletion * bool) :=
  match fuel with
  | O => panic
  | S fuel =>
      let! (stream, request) := open_stream_with_image_recovery request in
      let! _ := with_timeline (λ t, Some (begin_calls t)) in
      let! step := read_events early_dispatch stream (mkLocals false false false) request in
      match step with
      | inl output => ret output
      | inr request => read_responses fuel early_dispatch request
      end
  end.

Definition stream_response (request : list Item) (early_dispatch : bool)
  : M (StreamCompletion * bool) :=
  let! w := get in
  read_responses (S (ImageRecovery.images (entries w))) early_dispatch request.

End streaming.
Arguments Provider : clear implicits.

(** ** What an operation of a response leaves behind *)

Section lemmas.
Context {A Json HttpError JsonError : Type}.
Context (env : Env A Json) (provider : Provider A HttpError JsonError).
Abbreviation ClientError := (ImageRecovery.ClientError HttpError JsonError).
Abbreviation EngineError := (EngineError HttpError JsonError).
Abbreviation State := (State A Json).
Abbreviation M := (@M A Json HttpError JsonError).

Definition items (w : State) : list Item := item <$> entries w.

(** The calls the history of a state leaves without a result. *)
Definition debts (w : State) : list string := ToolExecution.owes [] (items w).

(** Requests go out only with histories that owe no answer. *)
Definition requests_ok (tr : list Effect) : Prop :=
  ∀ h r, Requested h r ∈ tr → ToolExecution.owes [] h = [].

(** The trace has grown by [tr], and what the history owes with it; the counts of turns and
    requests are the same. *)
Record moved (w : State) (tr : list Effect) (w' : State) : Prop := {
  mv_trace : trace w' = trace w ++ tr;
  mv_debts : debts w' = ToolExecution.owes (debts w) (committed tr);
  mv_counts : turn_count w' = turn_count w ∧ active_run_turn_count w' = active_run_turn_count w
    ∧ llm_call_count w' = llm_call_count w;
  mv_requests : requests_ok tr
}.

Lemma moved_refl w : moved w [] w.
Proof. split; [by rewrite app_nil_r|done|done|]. intros h r. set_solver. Qed.

Lemma moved_trans w1 tr1 w2 tr2 w3 :
  moved w1 tr1 w2 → moved w2 tr2 w3 → moved w1 (tr1 ++ tr2) w3.
Proof.
  intros [T1 D1 (? & ? & ?) R1] [T2 D2 (? & ? & ?) R2]. split.
  - by rewrite T2, T1, app_assoc.
  - by rewrite D2, D1, committed_app, ToolExecution.owes_app.
  - repeat split; congruence.
  - intros h r [?|?]%elem_of_app; [by eapply R1|by eapply R2].
Qed.

Lemma ext_moved w tr w' : ext w tr w' → moved w tr w'.
Proof.
  intros [T (new & E & I) (? & ? & ? & _) S]. split; [done| |done|by intros h r ?%S].
  unfold debts, items. by rewrite E, fmap_app, I, ToolExecution.owes_app.
Qed.

Lemma moved_timeline w tr w' t : moved w tr w' → moved w tr (set_timeline w' t).
Proof. intros [T D C R]. by split. Qed.

Lemma moved_batch w tr w' b : moved w tr w' → moved w tr (set_batch w' b).
Proof. intros [T D C R]. by split. Qed.

(** ** The timeline *)

(** The part of the timeline about tool calls: the events [es] of the response have been
    read, and the calls [taken] taken. *)
Definition reading (taken : list (nat * ToolCall Json)) (es : list Event) (w : State) : Prop :=
  reads (serde_json env) taken es (tool_use_blocks (timeline w)) ∧ tracked (timeline w).

Lemma abort_ok w :
  spec (HttpError := HttpError) (JsonError := JsonError) (abort_block env) w (λ x w', x = Ok tt ∧ moved w [] w'
    ∧ batch w' = batch w ∧ (tracked (timeline w) → no_open_calls (timeline w'))).
Proof.
  unfold spec, abort_block, with_timeline.
  destruct (abort_spec (serde_json env) (timeline w)) as (t' & -> & Ht). simpl. do 2 eexists.
  split; [done|]. split_and!; [done|apply moved_timeline, moved_refl|done|done].
Qed.

Lemma flush_ok w :
  spec (HttpError := HttpError) (JsonError := JsonError) flush w (λ x w', x = Ok tt ∧ moved w [] w' ∧ batch w' = batch w
    ∧ tool_use_blocks (timeline w') = tool_use_blocks (timeline w)
    ∧ active_blocks (timeline w') = active_blocks (timeline w) ∧ entries w' = entries w).
Proof.
  unfold spec, flush, with_timeline. simpl. do 2 eexists. split; [done|].
  split_and!; [done|apply moved_timeline, moved_refl|done|..]; simpl; unfold flush_usage;
    by destruct (pending_usage (timeline w)).
Qed.

(** ** Opening *)

Lemma quiet_moved (w w' : State) : quiet w w' → moved w [] w'.
Proof. intros [E _]. by apply ext_moved. Qed.

Lemma quiet_timeline (w w' : State) : quiet w w' → timeline w' = timeline w ∧ entries w' = entries w.
Proof.
  intros [[_ (new & E & I) (_ & _ & _ & T) _] _]. split; [done|].
  destruct new; [by rewrite E, app_nil_r|done].
Qed.

Lemma signal_ok w :
  spec (await_signal env provider) w (λ x w', quiet w w' ∧ ∃ o, x = Ok o).
Proof.
  unfold spec, await_signal.
  assert (quiet w (tick env w)) as Q by apply quiet_tick.
  assert (∀ w', quiet (tick env w) w' → quiet w w') as Hq by (intros; by eapply quiet_trans).
  destruct (picks _ _); [by eauto 10..| |];
    [destruct (pause_rx _)|destruct (cancel_rx _)]; do 2 eexists; (split; [done|]); split; eauto;
    apply Hq; (split; [by apply ext_nil|done]).
Qed.

(** The request is interrupted: the blocks under way are dropped. *)
Definition stopped (w w' : State) : Prop :=
  moved w [] w' ∧ batch w' = batch w ∧ entries w' = entries w.

Lemma interrupted_ok {X} (k : M X) w (Q : result X EngineError → State → Prop) :
  (∀ w', quiet w w' → spec k w' Q) →
  (∀ w' f, stopped w w' → Q (Err (fail_with f)) w') →
  spec (or_interrupted env provider k) w Q.
Proof.
  intros Hk Hs. apply spec_bind. eapply spec_mono; [apply signal_ok|].
  intros x w1 [Q1 [o ->]]. destruct o as [f|]; [|by apply Hk].
  unfold spec, bind, abort_block, with_timeline.
  destruct (abort_spec (serde_json env) (timeline w1)) as (t' & -> & Ht).
  exists (Err (fail_with f)), (set_timeline w1 t').
  split; [done|]. apply Hs. split_and!.
  - by apply moved_timeline, quiet_moved.
  - apply Q1.
  - exact (proj2 (quiet_timeline _ _ Q1)).
Qed.

(** Requests are all that happens. *)
Definition sends (e : Effect) : Prop := match e with Requested _ _ => True | _ => False end.

Lemma sends_ids tr : Forall sends tr → Forall idle tr ∧ committed tr = [].
Proof.
  induction 1 as [|e tr He Htr [IH1 IH2]]; [done|]. destruct e; try done. by split; [constructor|].
Qed.

(** What opening leaves: only requests went out. *)
Record opening (w : State) (tr : list Effect) (w' : State) : Prop := {
  op_moved : moved w tr w';
  op_sends : Forall sends tr;
  op_batch : batch w' = batch w;
  op_images : (ImageRecovery.images (entries w') <= ImageRecovery.images (entries w))%nat
}.

Lemma opening_trans w1 tr1 w2 tr2 w3 :
  opening w1 tr1 w2 → opening w2 tr2 w3 → opening w1 (tr1 ++ tr2) w3.
Proof.
  intros [M1 S1 B1 I1] [M2 S2 B2 I2].
  split; [by eapply moved_trans|by apply Forall_app|congruence|lia].
Qed.

Lemma opening_quiet w w' : quiet w w' → opening w [] w'.
Proof.
  intros Q. destruct (quiet_timeline _ _ Q) as [_ E].
  split; [by apply quiet_moved|constructor|apply Q|by rewrite E].
Qed.

Lemma opening_stopped w w' : stopped w w' → opening w [] w'.
Proof. intros (Mv & B & E). split; [done|constructor|done|by rewrite E]. Qed.

Lemma opening_debts w tr w' : opening w tr w' → debts w' = debts w.
Proof.
  intros [[_ D _ _] S _ _]. destruct (sends_ids _ S) as [_ Hc]. by rewrite D, Hc.
Qed.

Definition from_provider (s : Stream) : Prop := ∃ now r, client_stream provider now r = Ok s.

(** The provider answers a request, or begins its stream, with an error. *)
Definition sent_error (e : ClientError) : Prop :=
  ∃ now r, client_stream provider now r = Err e ∨ ∃ s, client_stream provider now r = Ok (Err e :: s).

(** Waits are durations: the jitter has a bound below the largest integer, and adding a wait
    to the time elapsed does not overflow. *)
Record waits_bounded : Prop := {
  wb_cap : Retry.wrap (Retry.cap (retry_policy provider)) < U64_MAX;
  wb_backoff now : elapsed provider now + Retry.wrap (Retry.cap (retry_policy provider))
                   <= Retry.DURATION_MAX;
  wb_retry_after e wait now : sent_error e → retry_after e = Some wait →
    elapsed provider now + wait <= Retry.DURATION_MAX
}.

Lemma open_attempt_ok request w :
  debts w = [] →
  spec (open_attempt env provider request) w (λ x w', ∃ tr, opening w tr w'
    ∧ match x with
      | Ok (Ok s) => from_provider s ∧ timeline w' = timeline w
      | Ok (Err e) => (sent_error e ∨ retry_after e = None) ∧ timeline w' = timeline w
      | Err e => ∃ f, e = fail_with f
      end).
Proof.
  intros Hd. unfold open_attempt. apply spec_bind, spec_get. apply spec_bind, spec_modify.
  set (w1 := set_trace _ _).
  assert (opening w [Requested (items w) request] w1) as O1.
  { split; [|by repeat constructor|done|done]. split; [done|done|done|].
    intros h r [= -> ->]%list_elem_of_singleton. done. }
  assert (∀ w2 w3, quiet w1 w2 → stopped w2 w3 → opening w [Requested (items w) request] w3) as Hstop.
  { intros w2 w3 Q2 S3. rewrite <-(app_nil_r [_]).
    eapply opening_trans; [exact O1|]. apply (opening_trans _ [] w2 []);
      [by apply opening_quiet|by apply opening_stopped]. }
  assert (∀ w2, quiet w1 w2 → opening w [Requested (items w) request] w2
    ∧ timeline w2 = timeline w) as Hquiet.
  { intros w2 Q2. split; [|by destruct (quiet_timeline _ _ Q2) as [-> _]]. rewrite <-(app_nil_r [_]).
    eapply opening_trans; [exact O1|by apply opening_quiet]. }
  apply interrupted_ok; [|intros w3 f S; eexists; split; [|by eauto]; apply (Hstop w1); [apply quiet_refl|done]].
  intros w2 Q2. apply spec_bind, spec_ask.
  assert (quiet w1 (tick env w2)) as Q3 by (eapply quiet_trans; [done|apply quiet_tick]).
  destruct (client_stream provider _ request) as [s|e] eqn:Hs.
  2:{ apply spec_ret. destruct (Hquiet _ Q3). eexists. split_and!; [done|left; do 2 eexists; by left|done]. }
  apply interrupted_ok; [|intros w4 f S; eexists; split; [by eapply Hstop|by eauto]].
  intros w4 Q4. apply spec_bind, spec_ask.
  assert (quiet w1 (tick env w4)) as Q5
    by (eapply quiet_trans; [exact Q3|eapply quiet_trans; [exact Q4|apply quiet_tick]]).
  destruct (Hquiet _ Q5) as [O5 T5]. apply spec_ret. eexists. split; [exact O5|].
  destruct (first_event_timed_out _ _); [by split; [right|]|].
  destruct s as [|[e|e] s']; (split; [|done]); [by do 2 eexists|by do 2 eexists|].
  left. do 2 eexists. right. by eexists.
Qed.

Section opening_streams.
Context (Hwaits : waits_bounded).

(** A wait is always found, and its sum with the time elapsed. *)
Lemma wait_found err failed now seed :
  sent_error err ∨ retry_after err = None →
  is_Some ((match retry_after err with
            | Some wait => Some wait
            | None => Retry.backoff (retry_policy provider) failed seed
            end) ≫= Retry.duration_add (elapsed provider now)).
Proof using Hwaits.
  intros He. unfold Retry.duration_add. destruct (retry_after err) as [wait|] eqn:Hr; simpl.
  - destruct He as [He|]; [|done]. pose proof (wb_retry_after Hwaits _ _ now He Hr).
    by rewrite (proj2 (Z.leb_le _ _)).
  - destruct (Retry.backoff_bounds (retry_policy provider) failed seed (wb_cap Hwaits)) as (wt & -> & Hw).
    pose proof (wb_backoff Hwaits now). simpl. rewrite (proj2 (Z.leb_le _ _)); [done|lia].
Qed.

Lemma open_attempts_ok request fuel : ∀ failed w,
  debts w = [] → (Retry.max_attempts (retry_policy provider) < failed + fuel)%nat → (0 < fuel)%nat →
  spec (open_attempts env provider fuel failed request) w (λ x w', ∃ tr, opening w tr w'
    ∧ match x with
      | Ok s => from_provider s ∧ timeline w' = timeline w
      | Err (ImageRecovery.Client _) => timeline w' = timeline w
      | Err _ => True
      end).
Proof using Hwaits.
  induction fuel as [|fuel IH]; intros failed w Hd Hf H0; [lia|]. cbn [open_attempts].
  apply spec_bind. eapply spec_mono; [by apply open_attempt_ok|].
  intros x w1 (tr1 & O1 & Hx). destruct x as [[s|err]|e].
  - apply spec_ret. by exists tr1.
  - destruct Hx as [He Hx]. destruct (_ || _) eqn:Hg; [apply spec_throw; by exists tr1|].
    apply orb_false_iff in Hg as [Hm _]. apply Nat.leb_gt in Hm.
    apply spec_bind, spec_ask. set (w2 := tick env w1).
    assert (opening w tr1 w2) as O2.
    { rewrite <-(app_nil_r tr1). eapply opening_trans; [exact O1|]. apply opening_quiet, quiet_tick. }
    match goal with |- context [match ?o with Some _ => _ | None => panic end] =>
      assert (is_Some o) as [total ->] by by apply wait_found end.
    destruct (_ <? _)%Z; [apply spec_throw; by exists tr1|].
    apply interrupted_ok.
    + intros w3 Q3. assert (opening w tr1 w3) as O3.
      { rewrite <-(app_nil_r tr1). eapply opening_trans; [exact O2|by apply opening_quiet]. }
      eapply spec_mono; [apply IH; [by rewrite (opening_debts _ _ _ O3)|lia|lia]|].
      intros y w4 (tr2 & O4 & Hy). exists (tr1 ++ tr2). split; [by eapply opening_trans|].
      destruct (quiet_timeline _ _ Q3) as [T3 _]. change (timeline w2) with (timeline w1) in T3.
      destruct y as [s|[]]; try done; [destruct Hy; split; [done|]|]; congruence.
    + intros w3 f S3. exists tr1. split; [|done]. rewrite <-(app_nil_r tr1).
      eapply opening_trans; [exact O2|by apply opening_stopped].
  - destruct Hx as [f ->]. by exists tr1.
Qed.

(** ** Rejected images *)

Lemma corrected_owes (h h' : list (HistoryEntry A)) l :
  ImageRecovery.corrected h h' →
  ToolExecution.owes l (item <$> h') = ToolExecution.owes l (item <$> h).
Proof using Type.
  intros [Hlen Hc].
  assert (Forall2 (λ e e' : HistoryEntry A, ∀ l,
    ToolExecution.owes_step l (item e') = ToolExecution.owes_step l (item e)) h h') as Hf.
  { apply Forall2_same_length_lookup. split; [done|]. intros i e e' He He'.
    destruct (Hc i e e' He He') as [->|(r & image & Hi & _ & _ & _ & ->)]; [done|].
    intros k. simpl. by rewrite Hi. }
  clear Hlen Hc. revert l. induction Hf as [|e e' h h' He _ IH]; intros l; [done|].
  unfold ToolExecution.owes in *. csimpl. by rewrite He.
Qed.

Lemma recover_ok request w :
  spec (recover_rejected_image env provider request) w (λ x w', opening w [] w'
    ∧ timeline w' = timeline w
    ∧ match x with
      | Ok (true, _) => (ImageRecovery.images (entries w') < ImageRecovery.images (entries w))%nat
      | Ok (false, _) => True
      | Err e => ∃ m, e = ImageRecovery.HistoryAppend m
      end).
Proof using Type. clear Hwaits.
  unfold spec, recover_rejected_image. set (w1 := tick env w). set (handler := _ <$> _).
  pose proof (ImageRecovery.recover_cases (HttpError := HttpError) (JsonError := JsonError)
    (OtherError := EngineFailure) (blob_size provider) handler (entries w1) request) as Hrec.
  destruct (ImageRecovery.recover_rejected_image _ _ _ _) as [[r h] request'].
  do 2 eexists. split; [done|].
  assert (ImageRecovery.corrected (entries w) h
    ∧ (ImageRecovery.images h <= ImageRecovery.images (entries w))%nat
    ∧ match r with
      | Ok true => (ImageRecovery.images h < ImageRecovery.images (entries w))%nat
      | Ok false => True | Err e => ∃ m, e = ImageRecovery.HistoryAppend m end) as (Hc & Hi & Hx).
  { change (entries w1) with (entries w) in Hrec. destruct r as [[]|e].
    - destruct Hrec as (? & Heq & _). rewrite Heq. split_and!; [done|lia|lia].
    - destruct Hrec as (-> & _). split_and!; [apply ImageRecovery.corrected_refl|lia|done].
    - destruct Hrec as (-> & _ & ?). split_and!; [apply ImageRecovery.corrected_refl|lia|done]. }
  split_and!; [|done|by destruct r as [[]|]].
  split; [|constructor|done|done]. split; [by rewrite app_nil_r| |done|intros ? ?; set_solver].
  by apply corrected_owes.
Qed.

Lemma open_corrected_ok fuel : ∀ request w,
  debts w = [] → (ImageRecovery.images (entries w) < fuel)%nat →
  spec (open_corrected env provider fuel request) w (λ x w', ∃ tr, opening w tr w'
    ∧ match x with
      | Ok (s, _) => from_provider s ∧ timeline w' = timeline w
      | Err _ => True
      end).
Proof using Hwaits.
  induction fuel as [|fuel IH]; intros request w Hd Hf; [lia|]. cbn [open_corrected].
  apply spec_bind, spec_attempt. eapply spec_mono; [apply open_attempts_ok; [done|lia|lia]|].
  intros x w1 (tr1 & O1 & Hx). destruct x as [s|[e|m|f]]; [apply spec_ret; by exists tr1| |
    apply spec_throw; by exists tr1..].
  destruct (ImageRecovery.is_image_size_rejection e); [|apply spec_throw; by exists tr1].
  apply spec_bind. eapply spec_mono; [apply recover_ok|].
  intros y w2 (O2 & T2 & Hy). pose proof (opening_trans _ _ _ _ _ O1 O2) as O12.
  rewrite app_nil_r in O12. destruct y as [[[] request']|e']; [|apply spec_throw; by exists tr1|by exists tr1].
  pose proof (op_images _ _ _ O1).
  eapply spec_mono; [apply IH; [by rewrite (opening_debts _ _ _ O12)|lia]|].
  intros z w3 (tr3 & O3 & Hz). exists (tr1 ++ tr3). split; [by eapply opening_trans|].
  destruct z as [[s r]|]; [|done]. destruct Hz. split; [done|congruence].
Qed.

Lemma open_stream_ok request w :
  debts w = [] →
  spec (open_stream_with_image_recovery env provider request) w (λ x w', ∃ tr, opening w tr w'
    ∧ match x with
      | Ok (s, _) => from_provider s ∧ timeline w' = timeline w
      | Err _ => True
      end).
Proof using Hwaits. intros Hd. apply spec_bind, spec_get. apply open_corrected_ok; [done|lia]. Qed.

End opening_streams.

(** ** The invariant of a response

    [tr] is what has happened since the response began, and [early] whether there is a batch. *)

Definition current (early : bool) (w : State) : Batch Json :=
  if early then batch w else batch_new EmptyString.

(** A tool starts before there is a result for its call. *)
Definition fresh_starts (tr : list Effect) : Prop :=
  ∀ tr1 i a l tr2, tr = tr1 ++ EngineCore.Started i a l :: tr2 →
  (i ∉ done_ids tr1) ∧ (i ∉ rejected_ids tr1).

(** The calls of a trace that it leaves without a result. *)
Definition unanswered (tr : list Effect) : list string :=
  filter (λ i, i ∉ done_ids tr) (called tr).

Record live (early : bool) (tr : list Effect) (w : State) : Prop := {
  lv_ok : early_ok tr (current early w);
  lv_marked : all_marked tr;
  lv_rejected : rejected_ids tr = [];
  lv_fresh : fresh_starts tr;
  lv_recorded : recorded_starts tr;
  lv_debts : debts w = unanswered tr;
  lv_dispatched : dispatched_any (current early w) = false → called tr = [];
  lv_calls : called tr ≠ [] → calls (current early w) ≠ []
}.

Lemma fresh_none tr : started_ids tr = [] → fresh_starts tr.
Proof.
  intros Hs tr1 i a l tr2 ->. rewrite started_ids_app in Hs. by destruct (started_ids tr1).
Qed.

Lemma fresh_app tr tr' : fresh_starts tr → started_ids tr' = [] → fresh_starts (tr ++ tr').
Proof.
  intros Hf Hs l1 i a l l2 [(m & -> & _)|(m & -> & ->)]%app_cons_split; [by eapply Hf|].
  rewrite started_ids_app in Hs. by destruct (started_ids m).
Qed.

Lemma closed_settled tr :
  closed tr → recorded_starts tr → fresh_starts tr → starts_settled tr.
Proof.
  intros Hc Hr Hf tr1 i a l tr2 Heq. destruct (Hf _ _ _ _ _ Heq) as [Hd Hj].
  specialize (Hr _ _ _ _ _ Heq). specialize (Hc i). subst tr.
  rewrite marked_ids_app, done_ids_app, rejected_ids_app, !elem_of_app in Hc.
  destruct (Hc (or_introl Hr)) as [[?|?]|[?|?]]; try done; auto.
Qed.

Lemma marked_called tr i : i ∈ marked_ids tr → i ∈ called tr.
Proof.
  unfold marked_ids, called, ProviderHistory.call_ids, committed.
  intros (e & He & Hi)%list_elem_of_omap. apply list_elem_of_omap.
  destruct e as [it| | | | | | |]; try done. destruct it as [| |c| |]; try done. simpl in Hi.
  exists (Conversation.ToolCall c). split; [apply list_elem_of_omap; by eexists|].
  simpl. destruct (Conversation.tc_execution_id c); congruence.
Qed.

(** Without a call no tool has started. *)
Lemma live_uncalled early tr w :
  live early tr w → called tr = [] → debts w = [] ∧ started_ids tr = [].
Proof.
  intros Hl Hc. rewrite (lv_debts _ _ _ Hl). unfold unanswered. rewrite Hc. split; [done|].
  destruct (started_ids tr) as [|i ids] eqn:Hs; [done|]. exfalso.
  assert (i ∈ started_ids tr) as (e & He & Hi)%list_elem_of_omap by (rewrite Hs; by left).
  apply list_elem_of_split in He as (l1 & l2 & ->). destruct e as [| | |j a x| | | |]; simplify_eq/=.
  pose proof (lv_recorded _ _ _ Hl _ _ _ _ _ eq_refl) as Hm.
  assert (i ∈ called (l1 ++ EngineCore.Started i a x :: l2)) as Hin;
    [|rewrite Hc in Hin; set_solver].
  apply marked_called. rewrite marked_ids_app. set_solver.
Qed.

(** Nor without a batch. *)
Lemma live_none tr w : live false tr w → called tr = [] ∧ starts_settled tr.
Proof.
  intros Hl. pose proof (lv_dispatched _ _ _ Hl eq_refl) as Hc. split; [done|].
  by apply starts_settled_none, (live_uncalled _ _ _ Hl).
Qed.

Lemma live_debts early tr w : live early tr w → NoDup (debts w).
Proof. intros Hl. rewrite (lv_debts _ _ _ Hl). apply NoDup_filter, Hl. Qed.

(** What it takes to bring a batch to its end. *)
Record stoppable (tr : list Effect) (w : State) : Prop := {
  sp_ok : early_ok tr (batch w);
  sp_recorded : recorded_starts tr;
  sp_fresh : fresh_starts tr
}.

Lemma live_stoppable tr w : live true tr w → stoppable tr w.
Proof. intros [O0 Mk Rj Fr Re Db Di Ca]. by split. Qed.

Lemma stoppable_closing tr w (w1 : State) tr' w' :
  stoppable tr w → closing tr w1 tr' w' → starts_settled (tr ++ tr').
Proof.
  intros [O0 Re Fr] [E S O C]. destruct (ToolExecution.settles_none _ S) as [Hs _].
  apply closed_settled; [done|apply recorded_app; [done|by apply recorded_none]|by apply fresh_app].
Qed.

Lemma stoppable_going tr w tr' w' : stoppable tr w → going tr w tr' w' → stoppable (tr ++ tr') w'.
Proof.
  intros [O0 Re Fr] [E S O _]. destruct (ToolExecution.settles_none _ S) as [Hs _].
  split; [done|apply recorded_app; [done|by apply recorded_none]|by apply fresh_app].
Qed.

(** Results have been added, for calls of the batch. *)
Lemma live_going tr w tr' w' :
  live true tr w → going tr w tr' w' → rejected_ids tr' = [] → live true (tr ++ tr') w'.
Proof.
  intros Hl [E S O [D Hcalls]] Hr. pose proof (live_debts _ _ _ Hl) as Hnd.
  destruct Hl as [O0 Mk Rj Fr Re Db Di Ca].
  destruct (settles_calls _ S) as [Hc Hm]. destruct (ToolExecution.settles_none _ S) as [Hs _].
  assert (called (tr ++ tr') = called tr) as Hcall by (by rewrite called_app, Hc, app_nil_r).
  split; simpl; rewrite ?Hcall, ?Hcalls, ?D; try done.
  - intros i. rewrite Hcall, marked_ids_app, Hm, app_nil_r. apply Mk.
  - by rewrite rejected_ids_app, Rj, Hr.
  - by apply fresh_app.
  - apply recorded_app; [done|by apply recorded_none].
  - rewrite (mv_debts _ _ _ (ext_moved _ _ _ E)).
    rewrite ToolExecution.owes_results by (done || by apply ToolExecution.settles_results).
    rewrite Db. unfold unanswered. rewrite Hcall, list_filter_filter.
    apply list_filter_iff. intros i. rewrite done_ids_app, not_elem_of_app. unfold done_ids. tauto.
Qed.

(** Calls have been admitted. *)
Lemma admitted_fresh tr w tr' w' :
  live true tr w → admitted tr w tr' w' →
  fresh_starts (tr ++ tr') ∧ ∀ i, i ∈ called tr' → i ∉ done_ids tr.
Proof.
  intros [O0 Mk Rj Fr Re Db Di Ca] [E O R S [Hd Hr] G C].
  destruct (eo_called _ _ O) as [Hnd _]. rewrite called_app in Hnd.
  apply NoDup_app in Hnd as (_ & Hdis & _).
  assert (∀ i, i ∈ called tr' → i ∉ done_ids tr) as Hnew.
  { intros i Hi Hin. apply (Hdis i); [|done]. by apply (eo_ok _ _ O0). }
  split; [|done]. intros l1 i a l l2 [(m & -> & _)|(m & -> & ->)]%app_cons_split; [by eapply Fr|].
  rewrite done_ids_app in Hd. rewrite rejected_ids_app in Hr.
  apply app_eq_nil in Hd as [Hd _]. apply app_eq_nil in Hr as [Hr _].
  rewrite done_ids_app, rejected_ids_app, Hd, Hr, Rj, !app_nil_r. split; [|set_solver].
  apply Hnew, (sublist_subseteq _ _ S). rewrite started_ids_app. set_solver.
Qed.

Lemma admitted_stoppable tr w tr' w' :
  live true tr w → admitted tr w tr' w' → stoppable (tr ++ tr') w'.
Proof.
  intros Hl Ha. split; [apply Ha|apply recorded_app; [apply Hl|apply Ha]|by eapply admitted_fresh].
Qed.

Lemma live_admitted tr w tr' w' :
  live true tr w → admitted tr w tr' w' → all_marked (tr ++ tr') →
  (called tr' ≠ [] → calls (batch w') ≠ []) →
  live true (tr ++ tr') w'.
Proof.
  intros Hl Ha Hm Hcalls. destruct (admitted_fresh _ _ _ _ Hl Ha) as [Hf Hnew].
  destruct Hl as [O0 Mk Rj Fr Re Db Di Ca], Ha as [E O R S [Hd Hr] G C].
  split; simpl; try done.
  - by rewrite rejected_ids_app, Rj, Hr.
  - by apply recorded_app.
  - rewrite (mv_debts _ _ _ (ext_moved _ _ _ E)), Db. unfold unanswered.
    rewrite ToolExecution.owes_calls.
    + rewrite called_app, filter_app, done_ids_app, Hd, app_nil_r.
      by rewrite (ToolExecution.list_filter_all _ (called tr')) by done.
    + apply Forall_forall. intros it Hit. destruct it as [| | |r|]; try done.
      assert (Conversation.tr_call_id r ∈ done_ids tr') as Hin; [|rewrite Hd in Hin; set_solver].
      apply list_elem_of_omap. by exists (Conversation.ToolResult r).
  - intros Hdi. rewrite called_app. destruct (called tr') eqn:Hc.
    + rewrite app_nil_r. apply Di. destruct (dispatched_any (batch w)) eqn:Hw; [|done].
      by rewrite G in Hdi by auto.
    + by rewrite G in Hdi by (by right).
  - rewrite called_app. destruct (called tr') eqn:Hc; [|by auto].
    rewrite app_nil_r. intros ?%Ca. by apply C.
Qed.

(** ** Steps of a response *)

(** After what has happened, [tr], an operation ends in a state with [good], or with an
    error, every tool that started being settled. *)
Definition steps {X} (tr : list Effect) (w : State) (good : X → list Effect → State → Prop)
    (x : result X EngineError) (w' : State) : Prop :=
  ∃ tr', moved w tr' w'
    ∧ match x with Ok v => good v (tr ++ tr') w' | Err _ => starts_settled (tr ++ tr') end.

Lemma steps_from {X} tr w tr1 w1 (good : X → list Effect → State → Prop) x w' :
  moved w tr1 w1 → steps (tr ++ tr1) w1 good x w' → steps tr w good x w'.
Proof.
  intros M1 (tr2 & M2 & Hx). exists (tr1 ++ tr2). split; [by eapply moved_trans|].
  by rewrite app_assoc.
Qed.

Lemma steps_bind {X Y} (m : M X) (k : X → M Y) tr w w0 G1 G :
  spec m w0 (steps tr w G1) →
  (∀ v tr1 w1, G1 v tr1 w1 → spec (k v) w1 (steps tr1 w1 G)) →
  spec (bind m k) w0 (steps tr w G).
Proof.
  intros Hm Hk. apply spec_bind. eapply spec_mono; [exact Hm|].
  intros x w1 (tr1 & M1 & Hx). destruct x as [v|e]; [|by exists tr1].
  eapply spec_mono; [by apply Hk|]. intros y w2 Hy. by eapply steps_from.
Qed.

Lemma steps_ret {X} (v : X) tr w (good : X → list Effect → State → Prop) :
  good v tr w → spec (ret v) w (steps tr w good).
Proof. intros Hg. apply spec_ret. exists []. rewrite app_nil_r. split; [apply moved_refl|done]. Qed.

Lemma steps_throw {X} e tr w (good : X → list Effect → State → Prop) :
  starts_settled tr → spec (throw e) w (steps tr w good).
Proof. intros Hg. apply spec_throw. exists []. rewrite app_nil_r. split; [apply moved_refl|done]. Qed.

(** The blocks under way are dropped, and the usage is passed on. *)
Lemma abort_flush_ok {X} (k : M X) w Q :
  (∀ w1, moved w [] w1 → batch w1 = batch w →
     (tracked (timeline w) → no_open_calls (timeline w1)) → spec k w1 Q) →
  spec (let! _ := abort_block env in let! _ := flush in k) w Q.
Proof.
  intros Hk. apply spec_bind. eapply spec_mono; [apply abort_ok|].
  intros x w1 (-> & M1 & B1 & T1). apply spec_bind. eapply spec_mono; [apply flush_ok|].
  intros x w2 (-> & M2 & B2 & T2 & _ & _). apply Hk.
  - exact (moved_trans _ _ _ _ _ M1 M2).
  - congruence.
  - intros Ht. unfold no_open_calls. rewrite T2. by apply T1.
Qed.

(** The ways out of a batch as it is at [w], taken from [w1]. *)
Lemma closing_out {X} tr w w1 tr' w' (good : X → list Effect → State → Prop) e :
  stoppable tr w → moved w [] w1 → closing tr w1 tr' w' → steps tr w good (Err e) w'.
Proof.
  intros Hs M1 Hc. exists tr'. split; [|by eapply stoppable_closing].
  apply (moved_trans _ [] w1); [done|]. apply ext_moved, Hc.
Qed.

Lemma cancel_out {X} tr w w1 (good : X → list Effect → State → Prop) e :
  stoppable tr w → moved w [] w1 → batch w1 = batch w →
  spec (cancel_batch_then env (throw e)) w1 (steps tr w good).
Proof.
  intros Hs M1 B1. pose proof (sp_ok _ _ Hs) as Ho. rewrite <-B1 in Ho.
  apply (cancel_batch_then_ok env _ tr); [done| |].
  - intros tr' w' Hc _. apply spec_throw. by eapply closing_out.
  - intros tr' w' e' Hc _. by eapply closing_out.
Qed.

Lemma terminalize_out {X} tr w w1 (good : X → list Effect → State → Prop)
    (f : option EngineError → EngineError) :
  stoppable tr w → moved w [] w1 → batch w1 = batch w →
  spec (let! e := cancel_and_terminalize_early_batch env in throw (f e)) w1 (steps tr w good).
Proof.
  intros Hs M1 B1. pose proof (sp_ok _ _ Hs) as Ho. rewrite <-B1 in Ho.
  apply spec_bind. eapply spec_mono; [by apply (terminalize_ok env tr)|].
  intros ? w' (tr' & e & -> & Hc & _). apply spec_throw. by eapply closing_out.
Qed.

Lemma drain_out {X} tr w w1 (good : X → list Effect → State → Prop) force pause e :
  stoppable tr w → moved w [] w1 → batch w1 = batch w →
  spec (let! _ := drain_early_tool_batch env force pause in throw e) w1 (steps tr w good).
Proof.
  intros Hs M1 B1. pose proof (sp_ok _ _ Hs) as Ho. rewrite <-B1 in Ho.
  apply spec_bind. eapply spec_mono; [by apply (drain_ok env tr)|].
  intros x w' (tr' & Hc & Hx). destruct x; [apply spec_throw|]; by eapply closing_out.
Qed.

(** A failure that leaves the batch as it is leads to its cancellation. *)
Lemma or_abort_ok {X} (m : M X) tr w w0 (good : X → list Effect → State → Prop) :
  spec m w0 (λ x w1, ∃ tr1, moved w tr1 w1
    ∧ match x with Ok v => good v (tr ++ tr1) w1 | Err _ => stoppable (tr ++ tr1) w1 end) →
  spec (or_abort env m) w0 (steps tr w good).
Proof.
  intros Hm. apply spec_bind, spec_attempt. eapply spec_mono; [exact Hm|].
  intros x w1 (tr1 & M1 & Hx). destruct x as [v|e]; [apply spec_ret; by exists tr1|].
  apply abort_flush_ok. intros w2 M2 B2 _.
  eapply spec_mono; [by apply (terminalize_out (tr ++ tr1) w1)|].
  intros y w3 Hy. by eapply steps_from.
Qed.

Lemma or_cancel_ok {X} (m : M X) tr w w0 (good : X → list Effect → State → Prop) :
  spec m w0 (λ x w1, ∃ tr1, moved w tr1 w1
    ∧ match x with Ok v => good v (tr ++ tr1) w1 | Err _ => stoppable (tr ++ tr1) w1 end) →
  spec (or_cancel_batch env m) w0 (steps tr w good).
Proof.
  intros Hm. apply spec_bind, spec_attempt. eapply spec_mono; [exact Hm|].
  intros x w1 (tr1 & M1 & Hx). destruct x as [v|e]; [apply spec_ret; by exists tr1|].
  eapply spec_mono; [apply (terminalize_out (tr ++ tr1) w1 w1); [done|apply moved_refl|done]|].
  intros y w3 Hy. by eapply steps_from.
Qed.

(** ** Waiting for events *)

Lemma select_stream_ok early w :
  spec (select_stream env provider early) w (λ x w',
    (∃ t r, x = Ok (WakeTool (t_attempt_id t) r) ∧ early = true ∧ task_taken w t w' ∧ task_result t r)
    ∨ (quiet w w' ∧ (x = Ok WakeEvent ∨ x = Ok WakePaused ∨ x = Ok WakeCancelled))).
Proof.
  unfold spec, select_stream.
  assert (∀ w', quiet (tick env w) w' → quiet w w') as Hq
    by (intros; eapply quiet_trans; [apply quiet_tick|done]).
  assert (quiet w (tick env w)) as Q by apply quiet_tick.
  destruct (picks _ _).
  - do 2 eexists. split; [done|]. right. auto.
  - change (batch (tick env w)) with (batch w). destruct (futures (batch w)) eqn:Hf.
    { do 2 eexists. split; [done|]. right. auto. }
    destruct early; [|do 2 eexists; split; [done|]; right; auto].
    destruct (take_task_spec (HttpError := HttpError) (JsonError := JsonError) env w (tick env w))
      as (x & w' & -> & t' & r & -> & Ht & Hr); [by rewrite Hf|done|].
    do 2 eexists. split; [done|]. left. eauto 10.
  - destruct (pause_rx _); do 2 eexists; (split; [done|]); right; (split; [|by auto]); [|done].
    apply Hq. split; [by apply ext_nil|done].
  - destruct (cancel_rx _); do 2 eexists; (split; [done|]); right; (split; [|by auto]); [|done].
    apply Hq. split; [by apply ext_nil|done].
Qed.

Lemma live_quiet early tr w w' : live early tr w → quiet w w' → live early tr w'.
Proof.
  intros Hl [E B].
  assert (current early w' = current early w) as Hcur by (destruct early; simpl; congruence).
  destruct Hl as [O0 Mk Rj Fr Re Db Di Ca]. split; rewrite ?Hcur; try done.
  by rewrite (mv_debts _ _ _ (ext_moved _ _ _ E)).
Qed.

Lemma await_event_ok fuel : ∀ early tr w,
  live early tr w → (early = true → (length (futures (batch w)) <= fuel)%nat) →
  spec (await_event env provider fuel early) w
    (steps tr w (λ _ tr1 w1, live early tr1 w1 ∧ timeline w1 = timeline w
       ∧ (early = false → entries w1 = entries w))).
Proof.
  induction fuel as [|fuel IH]; intros early tr w Hl Hfuel; cbn [await_event]; apply spec_bind;
    (eapply spec_mono; [apply select_stream_ok|]);
    intros x w1 [(t & r & -> & -> & Ht & Hr)|[Q Hx]].
  1: { exfalso. destruct Ht as (l & _ & Hp & _). specialize (Hfuel eq_refl).
       rewrite Hp in Hfuel. simpl in Hfuel. lia. }
  2: { eapply steps_bind; [apply (or_abort_ok _ tr w w1 (λ _ tr1 w2, live true tr1 w2
         ∧ timeline w2 = timeline w ∧ length (futures (batch w)) = S (length (futures (batch w2)))))|].
       - eapply spec_mono; [apply (early_task_ok env tr w t); [apply Hl|done|done]|].
         intros y w2 (tr1 & G1 & _ & Hlen & Hy). exists tr1. split; [apply ext_moved, G1|].
         destruct y as [b|e].
         + split_and!; [by apply (live_going tr w)|by destruct (go_ext _ _ _ _ G1) as [_ _ (_ & _ & _ & ?) _]|done].
         + eapply stoppable_going; [by apply live_stoppable|exact G1].
       - intros _ tr1 w2 (Hl2 & T2 & Hlen). eapply spec_mono; [apply (IH true tr1)|].
         + done.
         + intros _. specialize (Hfuel eq_refl). lia.
         + intros y w3 (tr3 & M3 & Hy). exists tr3. split; [done|].
           destruct y; [|done]. destruct Hy as (? & ? & _). split_and!; [done|congruence|done]. }
  all: pose proof (live_quiet _ _ _ _ Hl Q) as Hl1; pose proof (quiet_moved _ _ Q) as M1;
    destruct Hx as [->|[->| ->]].
  1,4: apply spec_ret; exists []; rewrite app_nil_r; split; [done|]; split; [done|];
    by destruct (quiet_timeline _ _ Q).
  all: apply abort_flush_ok; intros w2 M2 B2 _; pose proof (moved_trans _ _ _ _ _ M1 M2) as M12;
    destruct early.
  all: try (by apply (drain_out tr w w2); [apply live_stoppable|done|rewrite B2; apply Q]).
  all: try (by apply (cancel_out tr w w2); [apply live_stoppable|done|rewrite B2; apply Q]).
  all: apply spec_throw; exists []; rewrite app_nil_r; split; [done|]; by apply (live_none _ _ Hl).
Qed.

(** ** Admitting the calls of an event *)

Lemma live_timeline early tr w t : live early tr w → live early tr (set_timeline w t).
Proof. intros [O0 Mk Rj Fr Re Db Di Ca]. destruct early; by split. Qed.

Lemma live_idle early tr w more w' :
  live early tr w → moved w more w' → Forall idle more → batch w' = batch w →
  live early (tr ++ more) w'.
Proof.
  intros [O0 Mk Rj Fr Re Db Di Ca] Mv Hi B.
  assert (current early w' = current early w) as Hcur by (destruct early; simpl; congruence).
  destruct (idle_ids _ Hi) as (Hd & Hr & Hc & Hm & Hs & _ & Hi').
  assert (called (tr ++ more) = called tr) as Hcall by (by rewrite called_app, Hc, app_nil_r).
  split; rewrite ?Hcur, ?Hcall; try done.
  - by eapply early_ok_idle.
  - intros i. rewrite Hcall, marked_ids_app, Hm, app_nil_r. apply Mk.
  - by rewrite rejected_ids_app, Rj, Hr.
  - by apply fresh_app.
  - apply recorded_app; [done|by apply recorded_none].
  - rewrite (mv_debts _ _ _ Mv), Db, ToolExecution.owes_calls by done. unfold unanswered.
    unfold called in Hc. by rewrite Hcall, done_ids_app, Hd, Hc, !app_nil_r.
Qed.

(** Appends of items that are not about tools, whether or not they succeed. *)
Lemma append_plain w its :
  Forall (λ i, ProviderHistory.is_tool i = false) its →
  spec (HttpError := HttpError) (JsonError := JsonError) (append_history_items env its) w
    (λ x w1, ∃ tr1, ext w tr1 w1 ∧ batch w1 = batch w ∧ Forall idle tr1).
Proof.
  intros Hits.
  assert (∀ l, Forall (λ i, ProviderHistory.is_tool i = false) l → Forall idle (Committed <$> l)) as Hc
    by (intros l Hf; by apply Forall_fmap).
  eapply spec_mono; [apply append_items_spec|].
  intros x w1 [B [[-> E]|(l1 & i & l2 & e & -> & -> & E)]]; eexists; (split_and!; [exact E|done|]);
    [by apply Hc|].
  apply Forall_app in Hits as [H1 [Hi _]%Forall_cons]. apply Forall_app. split; [by apply Hc|].
  repeat constructor. by apply orb_false_iff in Hi as [_ ?].
Qed.

Lemma append_live early tr w its :
  live early tr w → Forall (λ i, ProviderHistory.is_tool i = false) its →
  spec (HttpError := HttpError) (JsonError := JsonError) (append_history_items env its) w
    (λ x w1, ∃ tr1, ext w tr1 w1 ∧ batch w1 = batch w ∧ live early (tr ++ tr1) w1).
Proof.
  intros Hl Hits. eapply spec_mono; [by apply append_plain|]. intros x w1 (tr1 & E & B & Hi).
  exists tr1. split_and!; [done|done|]. eapply live_idle; [done|by apply ext_moved|done|done].
Qed.

(** A batch is there when calls are. *)
Lemma ensure_batch_ok early tr w :
  live early tr w →
  spec (HttpError := HttpError) (JsonError := JsonError) (ensure_batch early) w (λ x w1, x = Ok tt
    ∧ moved w [] w1 ∧ live true tr w1 ∧ timeline w1 = timeline w).
Proof.
  intros Hl. destruct early.
  { apply spec_ret. split_and!; [done|apply moved_refl|done|done]. }
  apply spec_modify. split_and!; [done|by split; [rewrite app_nil_r|..|intros ? ?; set_solver]| |done].
  destruct (live_none _ _ Hl) as [Hc _]. destruct Hl as [O0 Mk Rj Fr Re Db Di Ca].
  split; simpl; try done.
  rewrite <-(app_nil_r tr). by eapply early_ok_idle.
Qed.

Lemma reading_same taken es w w' :
  tool_use_blocks (timeline w') = tool_use_blocks (timeline w) →
  active_blocks (timeline w') = active_blocks (timeline w) →
  reading taken es w → reading taken es w'.
Proof. intros Ht Ha [R T]. split; [by rewrite Ht|]. unfold tracked. by rewrite Ht, Ha. Qed.

Lemma assistant_items_plain reasoning text :
  Forall (λ i, ProviderHistory.is_tool i = false) (build_assistant_items env reasoning text []).
Proof.
  unfold build_assistant_items. simpl. rewrite app_nil_r. apply Forall_app. split.
  - apply Forall_fmap, Forall_true. done.
  - case_bool_decide; by repeat constructor.
Qed.

(** The calls of the response so far have all been taken. *)
Definition caught_up (es : list Event) (w : State) : Prop :=
  reading (completed (serde_json env) es) es w.

Lemma commit_early_ok tr w :
  live true tr w →
  spec (or_cancel_batch env (commit_early_synthetic_results env)) w
    (steps tr w (λ _ tr1 w1, live true tr1 w1 ∧ timeline w1 = timeline w)).
Proof.
  intros Hl. apply or_cancel_ok. apply spec_bind, spec_get.
  eapply spec_mono; [apply (commit_popped_ok env _ _ tr); [apply Hl|done]|].
  intros x w1 (tr1 & G & _ & Hx). exists tr1. split; [apply ext_moved, G|].
  destruct x as [[]|e]; [|eapply stoppable_going; [by apply live_stoppable|done]].
  split; [apply (live_going tr w); [done|done|apply Hx]|]. by destruct (go_ext _ _ _ _ G) as [_ _ (_ & _ & _ & ?) _].
Qed.

Lemma take_ok {X} (f : Timeline Json → X * Timeline Json) (w : State) Q :
  Q (Ok (f (timeline w)).1) (set_timeline w (f (timeline w)).2) →
  spec (HttpError := HttpError) (JsonError := JsonError) (take f) w Q.
Proof.
  intros HQ. unfold spec, take. exists (Ok (f (timeline w)).1), (set_timeline w (f (timeline w)).2).
  split; [by destruct (f (timeline w))|done].
Qed.

(** Steps from a state that differs only in what the response does not depend on. *)
Lemma steps_later {X} (m : M X) tr w w1 good :
  moved w [] w1 → spec m w1 (steps tr w1 good) → spec m w1 (steps tr w good).
Proof.
  intros M1 Hm. eapply spec_mono; [exact Hm|]. intros x w' Hx.
  eapply steps_from; [exact M1|]. by rewrite app_nil_r.
Qed.

Lemma ext_timeline (w : State) tr w' : ext w tr w' → timeline w' = timeline w.
Proof. by intros [_ _ (_ & _ & _ & ?) _]. Qed.

Lemma admit_fresh_ok calls tr es w :
  live true tr w → caught_up es w →
  spec (admit_fresh env calls) w (steps tr w (λ _ tr1 w1, live true tr1 w1 ∧ caught_up es w1)).
Proof.
  intros Hl C. apply spec_bind, take_ok. apply spec_bind, take_ok.
  set (w1 := set_timeline (set_timeline _ _) _).
  assert (live true tr w1) as Hl1 by (by repeat apply live_timeline).
  assert (caught_up es w1) as C1 by exact C.
  apply steps_later; [repeat apply moved_timeline; apply moved_refl|].
  apply spec_bind, spec_attempt.
  eapply spec_mono; [apply append_live; [exact Hl1|apply assistant_items_plain]|].
  intros x w2 (tr2 & E2 & B2 & Hl2). pose proof (ext_moved _ _ _ E2) as M2.
  eapply spec_mono; [|intros y w5 Hy; eapply steps_from; [exact M2|exact Hy]].
  destruct x as [[]|e].
  2:{ apply (terminalize_out (tr ++ tr2) w2 w2 _ (λ _, e)); [by apply live_stoppable|apply moved_refl|done]. }
  eapply steps_bind; [apply (or_abort_ok _ _ _ _ (λ a tr3 w3, match a with
    | AdmitContinue => live true tr3 w3 ∧ timeline w3 = timeline w2
    | AdmitPause => stoppable tr3 w3 end))|].
  - eapply spec_mono; [apply (admit_early_ok env _ (tr ++ tr2)); apply Hl2|].
    intros y w3 (tr3 & A3 & Hy). exists tr3. split; [apply ext_moved, A3|].
    destruct y as [[]|]; try (by eapply admitted_stoppable). destruct Hy as [Hm Hc].
    split; [by apply (live_admitted _ w2)|]. apply (ext_timeline _ _ _ (am_ext _ _ _ _ A3)).
  - intros [] tr3 w3 H3.
    + destruct H3 as [Hl3 T3]. eapply spec_mono; [by apply commit_early_ok|].
      intros y w4 (tr4 & M4 & Hy). exists tr4. split; [done|]. destruct y; [|done].
      destruct Hy as [Hl4 T4]. split; [done|].
      eapply reading_same; [by rewrite T4, T3, (ext_timeline _ _ _ E2)..|exact C1].
    + apply abort_flush_ok. intros w4 M4 B4 _. by apply (drain_out tr3 w3 w4).
Qed.

Lemma admit_collected_ok early tr taken es w :
  live early tr w → reading taken es w →
  spec (admit_collected env early) w (steps tr w (λ early' tr1 w1, live early' tr1 w1 ∧ caught_up es w1
    ∧ ((take_calls (timeline w)).1 = [] → early' = early ∧ entries w1 = entries w))).
Proof.
  intros Hl [R T]. apply spec_bind, take_ok. set (w1 := set_timeline _ _).
  assert (caught_up es w1) as C1.
  { split; [|exact T]. pose proof (reads_take _ _ _ _ R) as R1.
    by rewrite (rd_collected _ _ _ _ R : taken ++ (take_calls (timeline w)).1 = _) in R1. }
  assert (live early tr w1) as Hl1 by (by apply live_timeline).
  apply steps_later; [apply moved_timeline, moved_refl|].
  destruct (take_calls (timeline w)).1 as [|c cs] eqn:Hcs; [by apply steps_ret|].
  apply spec_bind. eapply spec_mono; [by apply ensure_batch_ok|].
  intros ? w2 (-> & M2 & Hl2 & T2). apply steps_later; [done|]. apply spec_bind, spec_get.
  assert (caught_up es w2) as C2 by (eapply reading_same; [by rewrite T2..|exact C1]).
  destruct (List.filter _ _) as [|f fs]; [by apply steps_ret|].
  eapply steps_bind; [by apply admit_fresh_ok|]. intros _ tr3 w3 [Hl3 C3]. by apply steps_ret.
Qed.

(** ** Reading a stream *)

(** The loop after the events [es]: before any output nothing has changed, and a rejected
    image may still be corrected, at most [n] times. *)
Record reading_loop (early_dispatch : bool) (n : nat) (l : Locals) (es : list Event)
    (tr : list Effect) (w : State) : Prop := {
  rl_live : live (early_tools l) tr w;
  rl_reading : ∃ taken, reading taken es w
    ∧ (early_dispatch = true → taken = completed (serde_json env) es);
  rl_mode : early_dispatch = false → early_tools l = false;
  rl_before : response_progress l = false →
    early_tools l = false ∧ Forall (λ e, is_output e = false) es
    ∧ (ImageRecovery.images (entries w) <= n)%nat
}.

(** What reading the rest of a stream comes to. *)
Definition read_good (early_dispatch : bool) (n : nat) (es : list Event)
    (events : list (result Event ClientError))
    (step : StreamStep) (tr : list Effect) (w : State) : Prop :=
  match step with
  | inl (completion, early) =>
      live early tr w ∧ (early_dispatch = false → early = false) ∧ tracked (timeline w)
      ∧ (completion = Complete → ∃ (es' : list Event) taken, events = Ok <$> es' ∧ reading taken (es ++ es') w
           ∧ (early_dispatch = true → taken = completed (serde_json env) (es ++ es')))
  | inr _ =>
      live false tr w ∧ no_open_calls (timeline w)
      ∧ (ImageRecovery.images (entries w) < n)%nat
  end.

Lemma no_output_no_blocks es k :
  Forall (λ e, is_output e = false) es → block_after k es = None.
Proof.
  induction es as [|e es IH] using rev_ind; [done|]. intros [Hes He]%Forall_app.
  rewrite block_after_snoc, IH by done. rewrite Forall_singleton in He.
  by destruct e; simpl in He.
Qed.

Lemma no_output_no_calls es e w :
  is_output e = false → reading (completed (serde_json env) es) (es ++ [e]) w →
  (take_calls (timeline w)).1 = [].
Proof.
  intros He [R _]. pose proof (rd_collected _ _ _ _ R) as Hc.
  rewrite completed_snoc in Hc. unfold completes_at in Hc. rewrite at_end in Hc.
  apply (app_inv_head (completed (serde_json env) es)). unfold take_calls. simpl. rewrite Hc.
  by destruct e; simpl in He.
Qed.

Lemma reads_closed taken es w :
  reading taken es w → (∀ k, block_after k es = None) → no_open_calls (timeline w).
Proof.
  intros [R _] Hb. split; apply map_eq; intros k; rewrite lookup_empty.
  - by rewrite (rd_scopes _ _ _ _ R), Hb.
  - by rewrite (rd_tools _ _ _ _ R), Hb.
Qed.

(** A correction leaves the response as it was. *)
Definition recover_post (progress : bool) (w : State) (x : result (option (list Item)) EngineError)
    (w' : State) : Prop :=
  moved w [] w' ∧ batch w' = batch w
  ∧ tool_use_blocks (timeline w') = tool_use_blocks (timeline w)
  ∧ active_blocks (timeline w') = active_blocks (timeline w)
  ∧ (ImageRecovery.images (entries w') <= ImageRecovery.images (entries w))%nat
  ∧ match x with
    | Ok (Some _) => progress = false
        ∧ (ImageRecovery.images (entries w') < ImageRecovery.images (entries w))%nat
    | Ok None => True
    | Err _ => progress = false
    end.

Lemma try_recover_ok e progress request w :
  spec (try_recover env provider e progress request) w (recover_post progress w).
Proof.
  assert (spec (HttpError := HttpError) (JsonError := JsonError) (ret None) w
    (recover_post progress w)) as Hnone
    by (apply spec_ret; split_and!; [apply moved_refl|done..]).
  destruct e as [| | |er| | | | |]; try exact Hnone. simpl.
  destruct progress; simpl; [exact Hnone|]. destruct (is_image_size_rejection er); [|exact Hnone].
  clear Hnone. apply spec_bind. eapply spec_mono; [apply flush_ok|].
  intros ? w1 (-> & M1 & B1 & T1 & A1 & E1). apply spec_bind. eapply spec_mono; [apply recover_ok|].
  intros x w2 ([M2 _ B2 I2] & T2 & Hx). rewrite E1 in I2.
  pose proof (moved_trans _ _ _ _ _ M1 M2) as M12. simpl in M12.
  assert (∀ y : result (option (list Item)) EngineError,
    match y with
    | Ok (Some _) => (ImageRecovery.images (entries w2) < ImageRecovery.images (entries w))%nat
    | _ => True end → recover_post false w y w2) as Hpost.
  { intros y Hy. split_and!; [done|congruence|congruence|congruence|done|by destruct y as [[]|]]. }
  destruct x as [[[] r]|e]; [apply spec_ret|apply spec_ret|]; apply Hpost; [|done..].
  by rewrite <-E1.
Qed.

Lemma read_good_cons early_dispatch n es e events step tr w :
  read_good early_dispatch n (es ++ [e]) events step tr w →
  read_good early_dispatch n es (Ok e :: events) step tr w.
Proof.
  destruct step as [[c early]|r]; [|done]. intros (Hl & Hm & Ht & Hc). split_and!; [done..|].
  intros Heq. destruct (Hc Heq) as (es' & taken & -> & Hr & Hd). exists (e :: es'), taken.
  rewrite <-app_assoc in *. done.
Qed.

Lemma spec_assoc {X Y Z} (a : M X) (b : X → M Y) (c : Y → M Z) w Q :
  spec (bind (bind a b) c) w Q → spec (bind a (λ x, bind (b x) c)) w Q.
Proof. unfold spec, bind. by destruct (a w) as [[[] ?]|]. Qed.

(** One event, after the wait: the calls it completes are admitted. *)
Definition event_good (early_dispatch progress : bool) (es : list Event) (w : State) (early : bool)
    (tr : list Effect) (w' : State) : Prop :=
  live early tr w'
  ∧ (∃ taken, reading taken es w' ∧ (early_dispatch = true → taken = completed (serde_json env) es))
  ∧ (early_dispatch = false → early = false)
  ∧ (progress = false → early = false ∧ entries w' = entries w).

Lemma event_ok early_dispatch n l es tr w e :
  reading_loop early_dispatch n l es tr w →
  let progress := response_progress l || is_output e in
  spec (let! _ := with_timeline (λ t, dispatch (serde_json env) t e) in
        if early_dispatch then admit_collected env (early_tools l) else ret (early_tools l)) w
    (steps (X := bool) tr w (event_good early_dispatch progress (es ++ [e]) w)).
Proof.
  intros [Hl (taken & [R T] & Ht) Hmode Hbefore] progress.
  destruct (dispatch_reads _ _ _ e _ R) as (t' & Hd & R').
  unfold spec, bind, with_timeline. rewrite Hd. simpl. set (w1 := set_timeline w t').
  assert (reading taken (es ++ [e]) w1) as Rd by (split; [done|by eapply dispatch_tracked]).
  assert (live (early_tools l) tr w1) as Hl1 by (by apply live_timeline).
  assert (moved w [] w1) as M1 by apply moved_timeline, moved_refl.
  destruct early_dispatch.
  - fold (spec (admit_collected env (early_tools l)) w1
      (steps tr w (event_good true progress (es ++ [e]) w))).
    apply steps_later; [done|]. eapply spec_mono; [by eapply admit_collected_ok|].
    intros x w2 (tr2 & M2 & Hx). exists tr2. split; [done|]. destruct x as [early'|]; [|done].
    destruct Hx as (Hl2 & C2 & Hsame). split_and!; [done|by eexists|done|].
    intros Hp. apply orb_false_iff in Hp as [Hp He]. destruct (Hbefore Hp) as (Hearly & _ & _).
    destruct Hsame as [-> ->]; [|done]. eapply no_output_no_calls; [exact He|].
    by rewrite <-(Ht eq_refl).
  - do 2 eexists. split; [done|]. exists []. rewrite app_nil_r. split; [done|].
    rewrite (Hmode eq_refl) in *. split_and!; [done|by eexists|done|done].
Qed.

Lemma read_events_ok early_dispatch n events : ∀ l es tr w request,
  reading_loop early_dispatch n l es tr w →
  spec (read_events env provider early_dispatch events l request) w
    (steps tr w (read_good early_dispatch n es events)).
Proof.
  induction events as [|ev events IH]; intros l es tr w request HL; cbn [read_events];
    apply spec_bind, spec_get;
    (eapply steps_bind; [apply await_event_ok; [apply HL|done]|]); intros _ tr1 w1 (Hl1 & T1 & E1).
  all: assert (reading_loop early_dispatch n l es tr1 w1) as HL1
    by (destruct HL as [_ (taken & Hr & Ht) Hm Hb]; split;
        [done|exists taken; split; [eapply reading_same; [by rewrite T1..|done]|done]|done|];
        intros Hp; destruct (Hb Hp) as (He & Ho & Hi); rewrite (E1 He); done).
  { clear E1. destruct HL1 as [_ (taken & Hr & Ht) Hm _]. apply spec_bind.
    eapply spec_mono; [apply flush_ok|]. intros ? w2 (-> & M2 & B2 & T2 & A2 & _).
    apply spec_ret. exists []. split; [done|]. rewrite app_nil_r.
    assert (reading taken es w2) as Hr2 by by eapply reading_same.
    split_and!; [by rewrite <-(app_nil_r tr1); eapply live_idle; [..|constructor|]|done|apply Hr2|].
    intros _. exists [], taken. by rewrite app_nil_r. }
  destruct ev as [e|error].
  2:{ destruct HL1 as [_ (taken & Hr & Ht) Hm _]. apply spec_bind.
      eapply spec_mono; [apply flush_ok|]. intros ? w2 (-> & M2 & B2 & T2 & A2 & _).
      apply spec_ret. exists []. split; [done|]. rewrite app_nil_r.
      split_and!; [by rewrite <-(app_nil_r tr1); eapply live_idle; [..|constructor|]|done| |done].
      by eapply reading_same. }
  set (progress := response_progress l || is_output e).
  apply spec_bind. eapply spec_mono; [apply try_recover_ok|].
  intros x w2 (M2 & B2 & T2 & A2 & I2 & Hx).
  assert (live (early_tools l) tr1 w2) as Hl2
    by (rewrite <-(app_nil_r tr1); eapply live_idle; [done|done|constructor|done]).
  assert (∀ Y (m : M Y) G, spec m w2 (steps tr1 w2 G) → spec m w2 (steps tr1 w1 G)) as Hup
    by (intros Y m G; by apply steps_later).
  assert (reading_loop early_dispatch n l es tr1 w2) as HL2.
  { destruct HL1 as [_ (taken & Hr & Ht) Hm Hb]. split; [done|exists taken; split; [by eapply reading_same|done]|done|].
    intros Hp. destruct (Hb Hp) as (He & Ho & Hi). split_and!; [done|done|lia]. }
  destruct x as [[request'|]|err].
  - destruct Hx as [Hp Hi]. apply orb_false_iff in Hp as [Hp _].
    destruct (rl_before _ _ _ _ _ _ HL1 Hp) as (He & Ho & Hn). rewrite He in Hl2.
    apply Hup, steps_ret. split_and!; [done| |lia].
    destruct HL2 as [_ (taken & Hr & _) _ _]. eapply reads_closed; [exact Hr|].
    intros k. by apply no_output_no_blocks.
  - apply Hup. clear Hup.
    eapply (spec_mono _ _ (steps tr1 w2 (read_good early_dispatch n (es ++ [e]) events)));
      [|intros y w3 (tr3 & M3 & Hy); exists tr3; split; [done|]; destruct y; [by apply read_good_cons|done]].
    apply spec_assoc. eapply steps_bind; [by apply (event_ok early_dispatch n)|].
    intros early tr3 w3 (Hl3 & Hr3 & Hm3 & Hs3).
    assert (reading_loop early_dispatch n
      (mkLocals early (response_completed l || match e with Status Completed => true | _ => false end)
         progress) (es ++ [e]) tr3 w3) as HL3.
    { split; [done|done|done|]. intros Hp. destruct (Hs3 Hp) as [-> ->].
      apply orb_false_iff in Hp as [Hp He]. destruct (rl_before _ _ _ _ _ _ HL2 Hp) as (_ & Ho & Hn).
      split_and!; [done|by apply Forall_app_2, Forall_singleton|done]. }
    destruct e; try by apply IH.
    apply abort_flush_ok. intros w4 M4 B4 _. destruct early; cbn [cancel_if].
    + eapply cancel_out; [by apply live_stoppable|done|done].
    + apply spec_throw. exists []. rewrite app_nil_r. split; [done|]. by apply (live_none _ _ Hl3).
  - apply orb_false_iff in Hx as [Hp _].
    destruct (rl_before _ _ _ _ _ _ HL1 Hp) as (He & _ & _). rewrite He in Hl2.
    exists []. rewrite app_nil_r. split; [done|]. by apply (live_none _ _ Hl2).
Qed.

(** What a response leaves for the rest of the turn. *)
Definition response_good (early_dispatch : bool) (x : StreamCompletion * bool) (tr : list Effect)
    (w : State) : Prop :=
  live x.2 tr w ∧ (early_dispatch = false → x.2 = false) ∧ tracked (timeline w)
  ∧ (x.1 = Complete → ∃ es taken, from_provider (Ok <$> es) ∧ reading taken es w
       ∧ (early_dispatch = true → taken = completed (serde_json env) es)).

Context (Hwaits : waits_bounded).

Lemma read_responses_ok early_dispatch fuel : ∀ request tr w,
  live false tr w → no_open_calls (timeline w) → (ImageRecovery.images (entries w) < fuel)%nat →
  spec (read_responses env provider fuel early_dispatch request) w
    (steps tr w (response_good early_dispatch)).
Proof.
  induction fuel as [|fuel IH]; [lia|]. intros request tr w Hl Ht Hi; cbn [read_responses].
  assert (debts w = []) as Hd.
  { rewrite (lv_debts _ _ _ Hl). unfold unanswered. by rewrite (proj1 (live_none _ _ Hl)). }
  apply spec_bind. eapply spec_mono; [by apply (open_stream_ok Hwaits)|].
  intros x w1 (tr1 & [M1 S1 B1 I1] & Hx). apply sends_ids in S1 as [S1 _].
  assert (live false (tr ++ tr1) w1) as Hl1 by (by eapply live_idle).
  destruct x as [[s request']|e]; [|exists tr1; split; [done|by apply (live_none _ _ Hl1)]].
  destruct Hx as [Hs T1]. eapply spec_mono; [|intros y w' Hy; by eapply steps_from].
  apply spec_bind. unfold with_timeline. eexists _, _. split; [done|]. simpl.
  set (w2 := set_timeline w1 (begin_calls (timeline w1))).
  assert (reading [] [] w2) as R2.
  { split; [by apply reads_begin; rewrite T1|]. apply (no_open_tracked (begin_calls (timeline w1))).
    by rewrite T1. }
  apply steps_later; [apply moved_timeline, moved_refl|].
  eapply steps_bind.
  - apply (read_events_ok early_dispatch fuel s (mkLocals false false false) []).
    split; [by apply live_timeline|exists []; split; [done|by intros _]|done|].
    intros _. split_and!; [done|constructor|simpl; lia].
  - intros [[c early]|request2] tr3 w3 Hstep; [|by apply IH; apply Hstep].
    apply steps_ret. destruct Hstep as (Hl3 & Hm & Htr & Hc). split_and!; [done..|].
    cbn [fst]. intros Heq. destruct (Hc Heq) as (es & taken & -> & Hr & Hta). by exists es, taken.
Qed.

Lemma stream_response_ok early_dispatch request tr w :
  live false tr w → no_open_calls (timeline w) →
  spec (stream_response env provider request early_dispatch) w
    (steps tr w (response_good early_dispatch)).
Proof. intros Hl Ht. apply spec_bind, spec_get. apply read_responses_ok; [done|done|lia]. Qed.

End lemmas.

End Streaming.
