(* ===== verification/TurnLoop.v ===== *)
(** * The turn loop

    Models [run_turn_loop], [execute_and_commit_tools], [run_result_with_annotation],
    [resume_result_with_annotation], [finalize_run_exit] and the logical runs of
    [src/crates/agen/src/engine.rs].  The interceptor and the engine's configuration are a
    record of functions of the clock; callbacks that only observe are left out. *)
From Stdlib Require Import ZArith String List Lia.
From stdpp Require Import base tactics numbers list strings gmap sets pretty.
From S2P Require Import Prelude Conversation ContextBudget ImageRecovery ProviderHistory Tool.
From S2P Require Import Timeline EngineCore ToolExecution EarlyTools Streaming.

Module TurnLoop.
Import Tool EngineCore EarlyTools Streaming.
Import ImageRecovery(HistoryEntry, mkEntry, item, annotation).

Definition MAX_STREAM_CONTINUATIONS : nat := 3.

Section turn_loop.
Context {A Json HttpError JsonError : Type}.
Abbreviation EngineError := (EngineError HttpError JsonError).
Abbreviation State := (State A Json).
Abbreviation M := (@M A Json HttpError JsonError).

(** The configuration of the engine, and the decisions of its interceptor. *)
Record Host := mkHost {
  max_turns : option nat;
  pruning : ContextBudget.Pruning;
  cache_anchor : option nat;
  (** [tool_call_dispatch_mode == OnToolCallComplete], and who supports it. *)
  on_tool_call_complete : bool;
  provider_supports_early : bool;
  interceptor_supports_early : bool;
  on_prompt_submit : nat → Item → result (PromptAction * Item) InterceptorError;
  pending_history_appends : nat → result (list Item) InterceptorError;
  (** The interceptor may change the context of the request. *)
  pre_llm_request : nat → list Item → result (PreRequestAction * list Item) InterceptorError;
  on_assistant_turn_end : nat → list (ToolCall Json) → result TurnEndAction InterceptorError
}.

Context (env : Env A Json) (provider : Provider A HttpError JsonError) (host : Host).

Definition early_dispatch : bool :=
  on_tool_call_complete host && provider_supports_early host && interceptor_supports_early host.

(** A decision of the interceptor that is not interrupted. *)
Definition intercept {T} (phase : InterceptorPhase) (q : nat → result T InterceptorError) : M T :=
  let! r := ask env q in
  of_result (map_err (λ e, fail_with (Interceptor phase e)) r).

Definition try_cancelled : M bool := λ w,
  let w := tick env w in Some (Ok (cancel_rx w), set_cancel_rx w false).

(** [if !items.is_empty() { append_history_items(..)? }]. *)
Definition append_if_any (items : list Item) : M unit :=
  match items with [] => ret tt | _ => append_history_items env items end.

(** An error, once the early batch has been stopped; its own error comes first. *)
Definition or_drain {X} (early : bool) (m : M X) : M X :=
  let! r := attempt m in
  match r with
  | Ok x => ret x
  | Err error =>
      let! _ := if early then drain_early_tool_batch env true false else ret ToolsCompleted in
      throw error
  end.

(** [return Ok(EngineResult::Paused)], once the early batch has come to rest. *)
Definition pause_turn {X} (early : bool) : M (EngineResult + X) :=
  let! _ := if early then drain_early_tool_batch env false true else ret ToolsPaused in
  ret (inl Paused).

(** The variables that outlive a turn. *)
Record LoopLocals := mkLoopLocals { stream_continuations : nat; continuing_stream : bool }.

Definition execute_and_commit_tools (tool_calls : list (ToolCall Json)) : M (option EngineResult) :=
  let! r := ToolExecution.execute_tools env tool_calls in
  ret (match r with ToolsPaused => Some Paused | ToolsCompleted => None end).

(** ** A stream that broke off *)

Definition take_partial : M (list Item) :=
  let! _ := abort_block env in
  let! _ := flush in
  let! reasoning_items := take Timeline.take_reasoning in
  let! text_blocks := take Timeline.take_text in
  let! _ := take Timeline.take_calls in
  ret (build_assistant_items env reasoning_items text_blocks []).

Definition stream_interrupted (reason : string) (early : bool) (l : LoopLocals)
  : M (EngineResult + LoopLocals) :=
  let! w := get in
  if early && dispatched_any (batch w) then
    let! assistant_items := take_partial in
    let! _ := or_drain true (append_if_any assistant_items) in
    let! _ := drain_early_tool_batch env true false in
    throw (ImageRecovery.Client (ImageRecovery.Api None (Some "early_tool_stream_interrupted")
      ("LLM stream interrupted after early tool execution started: " +:+ reason) None))
  else
    let continuations := S (stream_continuations l) in
    if (MAX_STREAM_CONTINUATIONS <? continuations)%nat then
      throw (ImageRecovery.Client (ImageRecovery.Api None None
        ("LLM stream interrupted too many times: " +:+ reason) None))
    else
      let! assistant_items := take_partial in
      let! _ := append_if_any assistant_items in
      ret (inr (mkLoopLocals continuations true)).

(** ** A complete response *)

(** [calls.sort_by_key(|(call_index, _)| *call_index)], then the calls alone. *)
Definition in_order (calls : list (nat * ToolCall Json)) : list (ToolCall Json) :=
  snd <$> ProviderHistory.sort_by_key Nat.leb fst calls.

(** The calls that were left to the end of the response.  [inl] is an early return; otherwise
    whether there is a batch. *)
Definition admit_remaining (early : bool) (remaining : list (nat * ToolCall Json))
  : M (EngineResult + bool) :=
  match remaining with
  | [] => ret (inr early)
  | _ =>
      let! _ := ensure_batch early in
      let! admission := or_drain true (admit_early_tool_calls env remaining) in
      match admission with
      | AdmitPause => pause_turn true
      | AdmitContinue =>
          let! _ := or_cancel_batch env (commit_early_synthetic_results env) in
          ret (inr true)
      end
  end.

(** The last part of a turn: the calls are brought to their end. *)
Definition settle_turn (early : bool) (tool_calls : list (ToolCall Json))
  : M (EngineResult + LoopLocals) :=
  if early then
    let! r := drain_early_tool_batch env false false in
    ret (match r with ToolsPaused => inl Paused | ToolsCompleted => inr (mkLoopLocals 0 false) end)
  else
    let! r := execute_and_commit_tools tool_calls in
    ret (match r with Some result => inl result | None => inr (mkLoopLocals 0 false) end).

(** The interceptor's decision at the end of the assistant's turn. *)
Definition end_turn (early : bool) (tool_calls : list (ToolCall Json))
  : M (EngineResult + LoopLocals) :=
  let! action := attempt (await_tool_policy env
                   (λ now, on_assistant_turn_end host now tool_calls) AssistantTurnEnd) in
  match action with
  | Err (ImageRecovery.OtherEngineError PauseRequested) => pause_turn early
  | Err error => or_drain early (throw error)
  | Ok Finish =>
      match tool_calls with
      | [] => ret (inl Finished)
      | _ => settle_turn early tool_calls
      end
  | Ok (ContinueWithMessages additional) =>
      let! _ := or_drain early (append_history_items env additional) in
      match tool_calls with
      | [] => ret (inr (mkLoopLocals 0 false))
      | _ => settle_turn early tool_calls
      end
  | Ok TurnPause => pause_turn early
  end.

Definition response_complete (early : bool) : M (EngineResult + LoopLocals) :=
  let! _ := modify (λ w, set_active_run_turn_count (set_turn_count w (S (turn_count w)))
              (Some (S (default 0%nat (active_run_turn_count w))))) in
  let! reasoning_items := take Timeline.take_reasoning in
  let! text_blocks := take Timeline.take_text in
  let! remaining := take Timeline.take_calls in
  let remaining_tool_calls := in_order remaining in
  let! _ := or_drain early (append_history_items env
    (build_assistant_items env reasoning_items text_blocks
       (if early_dispatch then [] else remaining_tool_calls))) in
  let! admitted := if early_dispatch then admit_remaining early remaining else ret (inr early) in
  match admitted with
  | inl result => ret (inl result)
  | inr early =>
      let! w := get in
      end_turn early
        (if early_dispatch then if early then in_order (calls (batch w)) else []
         else remaining_tool_calls)
  end.

(** ** One turn *)

Definition response_id (w : State) : string :=
  "assistant-response-" +:+ pretty (N.of_nat (turn_count w)) +:+ "-"
    +:+ pretty (N.of_nat (llm_call_count w)).

(** From the request on. *)
Definition request_response (l : LoopLocals) (request_context : list Item)
  : M (EngineResult + LoopLocals) :=
  match ProviderHistory.build_request_items (cache_anchor host) request_context with
  | None => panic
  | Some (request, _) =>
      let! w := get in
      let! _ := if early_dispatch
                then append_history_items env
                       [Conversation.AssistantResponseBoundary (response_id w)]
                else ret tt in
      let! (completion, early) := stream_response env provider request early_dispatch in
      let! _ := modify (λ w, set_llm_call_count w (S (llm_call_count w))) in
      match completion with
      | StreamInterrupted reason => stream_interrupted reason early l
      | Complete => response_complete early
      end
  end.

(** The turn budget of the logical run is used up. *)
Definition limit_reached (w : State) : bool :=
  match max_turns host with
  | Some max => (max <=? default 0 (active_run_turn_count w))%nat
  | None => false
  end.

(** One round of the loop: the result of the run, or the variables of the next round. *)
Definition turn (l : LoopLocals) : M (EngineResult + LoopLocals) :=
  let! cancelled := try_cancelled in
  if (cancelled : bool) then
    let! _ := abort_block env in
    fail Cancelled
  else
    let! w := get in
    if limit_reached w then ret (inl LimitReached)
    else
      let! pending := intercept PendingHistoryAppends (pending_history_appends host) in
      let! _ := append_if_any pending in
      let! w := get in
      match ContextBudget.prepare_request (pruning host) (item <$> entries w) with
      | None => panic
      | Some (context, _) =>
          let! (action, request_context) :=
            intercept PreLlmRequest (λ now, pre_llm_request host now context) in
          match action with
          | RequestCancel reason => fail (Aborted reason)
          | YieldWith items =>
              let! _ := append_history_items env items in
              ret (inl Yielded)
          | Yield => ret (inl Yielded)
          | RequestContinueWith items =>
              let! _ := append_history_items env items in
              request_response l (request_context ++ items)
          | RequestContinue => request_response l request_context
          end
      end.

(** [fuel] rounds of the loop; [inr] when it is still running. *)
Fixpoint run_turns (fuel : nat) (l : LoopLocals) : M (EngineResult + LoopLocals) :=
  match fuel with
  | O => ret (inr l)
  | S fuel =>
      let! step := turn l in
      match step with
      | inl result => ret (inl result)
      | inr l => run_turns fuel l
      end
  end.

(** ** Runs *)

(** Calls that may have run are closed without running. *)
Fixpoint close_started (call_ids : list string) : M unit :=
  match call_ids with
  | [] => ret tt
  | call_id :: rest =>
      let! _ := finalize_and_commit_tool_result env (outcome_unknown call_id) None SkipPolicy in
      close_started rest
  end.

(** What comes before the first turn. *)
Definition resume_calls : M (option EngineResult) :=
  let! w := get in
  let '(pending_tool_calls, started_call_ids) :=
    ToolExecution.get_unanswered_tool_calls (serde_json env) (entries w) in
  let! _ := match started_call_ids with
            | [] => ret tt
            | _ =>
                let! _ := modify (λ w, set_batch w (batch_new EmptyString)) in
                close_started started_call_ids
            end in
  match pending_tool_calls with
  | [] => ret None
  | _ => execute_and_commit_tools pending_tool_calls
  end.

Definition run_turn_loop (fuel : nat) : M (EngineResult + LoopLocals) :=
  let! stop := resume_calls in
  match stop with
  | Some result => ret (inl result)
  | None => run_turns fuel (mkLoopLocals 0 false)
  end.

(** [match self.run_turn_loop(..) { Err(PauseRequested) => Ok(Paused), other => other }]. *)
Definition paused_result (fuel : nat) : M (EngineResult + LoopLocals) :=
  let! r := attempt (run_turn_loop fuel) in
  match r with
  | Err (ImageRecovery.OtherEngineError PauseRequested) => ret (inl Paused)
  | Err e => throw e
  | Ok x => ret x
  end.

Definition user_message (text : string) : Item :=
  Conversation.Message (Conversation.mkMessage None Conversation.User [Conversation.Text text] None).

(** [run_result_with_annotation]: a new logical run. *)
Definition run_result (fuel : nat) (user_input : string) : M (EngineResult + LoopLocals) :=
  let! _ := modify (λ w, set_active_run_turn_count w (Some 0%nat)) in
  let! (prompt_action, user_item) :=
    intercept PromptSubmit (λ now, on_prompt_submit host now (user_message user_input)) in
  match prompt_action with
  | PromptCancel reason => fail (Aborted reason)
  | _ =>
      let extras := match prompt_action with PromptContinueWith items => items | _ => [] end in
      let! _ := append_history_items env [user_item] in
      let! _ := append_if_any extras in
      paused_result fuel
  end.

(** [resume_result_with_annotation]: the logical run goes on, with its budget. *)
Definition resume_result (fuel : nat) : M (EngineResult + LoopLocals) :=
  let! _ := modify (λ w, set_active_run_turn_count w
              (Some (default 0%nat (active_run_turn_count w)))) in
  paused_result fuel.

(** [finalize_run_exit], for a run that has ended: only a pause or a yield keeps the run. *)
Definition finalize_run_exit (r : result EngineResult EngineError) : M EngineRunExit :=
  let exit := run_exit r in
  let! _ := match exit with
            | ExitPaused | ExitYielded => ret tt
            | _ => modify (λ w, set_active_run_turn_count w None)
            end in
  ret exit.

(** The exit of a run; [None] while it is still running. *)
Definition finish (m : M (EngineResult + LoopLocals)) : M (option EngineRunExit) :=
  let! r := attempt m in
  match r with
  | Ok (inr _) => ret None
  | Ok (inl result) => let! exit := finalize_run_exit (Ok result) in ret (Some exit)
  | Err error => let! exit := finalize_run_exit (Err error) in ret (Some exit)
  end.

Definition run_with_annotation (fuel : nat) (user_input : string) : M (option EngineRunExit) :=
  finish (run_result fuel user_input).

Definition resume_with_annotation (fuel : nat) : M (option EngineRunExit) :=
  finish (resume_result fuel).

End turn_loop.
Arguments Host : clear implicits.

(** ** The rest of a turn *)

Section lemmas.
Context {A Json HttpError JsonError : Type}.
Context (env : Env A Json) (provider : Provider A HttpError JsonError) (host : Host Json).
Abbreviation EngineError := (EngineError HttpError JsonError).
Abbreviation State := (State A Json).
Abbreviation M := (@M A Json HttpError JsonError).
Abbreviation spec := (spec (A := A) (Json := Json) (HttpError := HttpError) (JsonError := JsonError)).

Definition plain (its : list Item) : Prop := Forall (λ i, ProviderHistory.is_tool i = false) its.

(** Nothing is under way between two turns. *)
Definition at_rest (w : State) : Prop := debts w = [] ∧ Timeline.no_open_calls (timeline w).

(** Calls of the response that is complete, [early] when they are in a batch, which runs, and
    else still to be run. *)
Definition awaiting (early : bool) (calls : list (ToolCall Json)) (tr : list Effect) (w : State)
  : Prop :=
  Timeline.no_open_calls (timeline w)
  ∧ if early then live true tr w ∧ (calls = [] → called tr = [])
    else debts w ≡ₚ id <$> calls ∧ NoDup (id <$> calls) ∧ starts_settled tr.

(** The turn can be given up. *)
Definition endable (early : bool) (tr : list Effect) (w : State) : Prop :=
  if early then stoppable tr w else starts_settled tr.

Lemma awaiting_endable early calls tr w : awaiting early calls tr w → endable early tr w.
Proof. intros [_ Ha]. destruct early; [apply live_stoppable, Ha|apply Ha]. Qed.

Lemma idle_debts (w : State) more w' : moved w more w' → Forall idle more → debts w' = debts w.
Proof.
  intros Mv Hi. destruct (idle_ids _ Hi) as (_ & _ & Hc & _ & _ & _ & Hi').
  rewrite (mv_debts _ _ _ Mv), ToolExecution.owes_calls by done.
  rewrite (Hc : ProviderHistory.call_ids (committed more) = []). apply app_nil_r.
Qed.

Lemma idle_settled tr more : starts_settled tr → Forall idle more → starts_settled (tr ++ more).
Proof.
  intros Hs Hi. destruct (idle_ids _ Hi) as (_ & _ & _ & _ & Hst & _ & _).
  apply starts_settled_app; [done|]. by apply starts_settled_none.
Qed.

Lemma awaiting_idle early calls tr w more w' :
  awaiting early calls tr w → moved w more w' → Forall idle more → batch w' = batch w →
  timeline w' = timeline w → awaiting early calls (tr ++ more) w'.
Proof.
  intros [Ho Ha] Mv Hi B T. split; [by rewrite T|]. destruct early.
  - destruct Ha as [Hl Hc]. split; [by eapply live_idle|]. intros Hn. rewrite called_app, (Hc Hn).
    by destruct (idle_ids _ Hi) as (_ & _ & ? & _).
  - destruct Ha as (Hd & Hnd & Hs). split_and!; [|done|by apply idle_settled].
    by rewrite (idle_debts _ _ _ Mv Hi).
Qed.

Lemma or_drain_ok {X} early (m : M X) tr w w0 (good : X → list Effect → State → Prop) :
  spec m w0 (λ x w1, ∃ tr1, moved w tr1 w1
    ∧ match x with Ok v => good v (tr ++ tr1) w1 | Err _ => endable early (tr ++ tr1) w1 end) →
  spec (or_drain env early m) w0 (steps tr w good).
Proof.
  intros Hm. apply spec_bind, spec_attempt. eapply spec_mono; [exact Hm|].
  intros x w1 (tr1 & M1 & Hx). destruct x as [v|e]; [apply spec_ret; by exists tr1|].
  eapply spec_mono; [|intros y w3 Hy; eapply steps_from; [exact M1|exact Hy]].
  destruct early; [apply (drain_out env _ w1 w1); [done|apply moved_refl|done]|].
  apply spec_bind, spec_ret. by apply steps_throw.
Qed.

(** What a turn comes to. *)
Definition turn_good (r : EngineResult + LoopLocals) (tr : list Effect) (w : State) : Prop :=
  starts_settled tr
  ∧ match r with inl _ => True | inr l => l = mkLoopLocals 0 false ∧ at_rest w end.

Lemma pause_turn_ok early tr w :
  endable early tr w → spec (pause_turn env early) w (steps tr w turn_good).
Proof.
  intros He. destruct early; [|apply spec_bind, spec_ret; by apply steps_ret].
  apply spec_bind. eapply spec_mono; [apply (drain_ok env tr), He|].
  intros x w' (tr' & C & Hx). pose proof (stoppable_closing _ _ _ _ _ He C) as Hs.
  destruct x; [apply spec_ret|]; exists tr'; (split; [apply ext_moved, C|done]).
Qed.

Lemma filter_none {X} (P : X → Prop) `{!∀ x, Decision (P x)} (l : list X) :
  (∀ x, x ∈ l → ¬ P x) → filter P l = [].
Proof.
  induction l as [|x l IH]; intros Hl; [done|]. rewrite filter_cons, decide_False by (apply Hl; by left).
  apply IH. intros y Hy. apply Hl. by right.
Qed.

(** A batch that has come to its end without a refusal has answered every call. *)
Lemma drained_rest tr (w : State) tr' w' :
  live true tr w → closing tr w tr' w' → rejected_ids tr' = [] → debts w' = [].
Proof.
  intros Hl [E S O C] Hr. rewrite (mv_debts _ _ _ (ext_moved _ _ _ E)).
  rewrite ToolExecution.owes_results; [|by apply ToolExecution.settles_results|by eapply live_debts].
  destruct Hl as [O0 Mk Rj _ _ Db _ _]. rewrite Db. unfold unanswered. rewrite list_filter_filter.
  apply filter_none. intros i Hi [Hn1 Hn2].
  assert (i ∈ marked_ids (tr ++ tr')) as Hm by (rewrite marked_ids_app; apply elem_of_app; left; by apply Mk).
  destruct (C i Hm) as [Hd|Hd]; [|rewrite rejected_ids_app, Rj, Hr in Hd; set_solver].
  rewrite done_ids_app in Hd. apply elem_of_app in Hd as [?|?]; [done|]. by apply Hn1.
Qed.

(** What an execution has done to the state. *)
Lemma report_moved calls (w : State) tr' x w' :
  ToolExecution.tools_report (HttpError := HttpError) (JsonError := JsonError) env calls w tr' x w' →
  moved w tr' w' ∧ (x = Ok ToolsCompleted → timeline w' = timeline w).
Proof.
  intros [(w1 & E & [->|[t ->]] & Hc) _ _ _ _ _ _ _ _].
  - split; [by apply ext_moved|]. intros _. by eapply ext_timeline.
  - split; [by apply moved_timeline, ext_moved|]. intros ->%Hc. by eapply ext_timeline.
Qed.

(** So has an execution that completes, unless the policy skips calls. *)
Lemma executed_rest calls (w : State) tr' x w' :
  ¬ ToolExecution.may_skip env → ToolExecution.tools_report (HttpError := HttpError)
    (JsonError := JsonError) env calls w tr' x w' →
  debts w ≡ₚ id <$> calls → NoDup (id <$> calls) → x = Ok ToolsCompleted → debts w' = [].
Proof.
  intros Hskip Hrep Hd Hnd ->. destruct (report_moved _ _ _ _ _ Hrep) as [Mv _].
  destruct Hrep as [_ _ R _ _ _ _ _ [_ X]]. destruct (X eq_refl) as [[Hk|?] Hall]; [|done].
  rewrite (mv_debts _ _ _ Mv).
  rewrite ToolExecution.owes_results by (done || by rewrite Hd).
  apply filter_none. intros i Hi Hn. rewrite Hd in Hi.
  destruct (Hall i Hi) as [?|Hin]; [by apply Hn|]. rewrite Hk in Hin. set_solver.
Qed.

(** What running calls comes to. *)
Definition execute_post (calls : list (ToolCall Json)) (w : State)
    (x : result (option EngineResult) EngineError) (w' : State) : Prop :=
  ∃ tr, moved w tr w' ∧ starts_settled tr ∧ NoDup (started_ids tr)
    ∧ (∀ i, i ∈ started_ids tr → i ∈ id <$> calls)
    ∧ match x with Ok None => ¬ ToolExecution.may_skip env → at_rest w' | _ => True end.

Lemma execute_ok calls tr w :
  awaiting false calls tr w →
  spec (execute_and_commit_tools env calls) w (execute_post calls w).
Proof.
  intros (Ho & Hd & Hnd & _). apply spec_bind.
  eapply spec_mono; [by apply ToolExecution.execute_tools_ok|].
  intros x w1 (tr1 & Hrep). destruct (report_moved _ _ _ _ _ Hrep) as [Mv Ht].
  destruct x as [r|]; [apply spec_ret|]; (exists tr1; split_and!; [done|apply Hrep..|]); [|done].
  destruct r; [|done]. intros Hskip. split; [by eapply executed_rest|]. by rewrite (Ht eq_refl).
Qed.

(** ** Calls of an earlier run *)

(** What closing calls leaves behind. *)
Definition closes (ids : list string) : list Effect :=
  ids ≫= λ i, [Committed (result_item (outcome_unknown i)); Published (outcome_unknown i)].

Lemma closes_spec ids :
  done_ids (closes ids) = ids ∧ started_ids (closes ids) = []
  ∧ Forall (λ i, ProviderHistory.is_result i = true) (committed (closes ids)).
Proof.
  induction ids as [|i ids (IH1 & IH2 & IH3)]; [by repeat constructor|].
  unfold closes in *. cbn [mbind list_bind]. split_and!.
  - rewrite done_ids_app, IH1. done.
  - by rewrite started_ids_app, IH2.
  - rewrite committed_app. apply Forall_app. by repeat constructor.
Qed.

(** Calls are closed one after the other, up to the first one the host refuses. *)
Definition close_post (ids : list string) (w : State) (x : result unit EngineError) (w' : State)
  : Prop :=
  ∃ l1 l2, ids = l1 ++ l2
    ∧ match x with
      | Ok _ => l2 = [] ∧ ext w (closes l1) w'
      | Err _ => ∃ n, ext w (closes l1 ++ [Rejected (result_item n)]) w'
      end.

Lemma close_started_ok ids : ∀ w,
  NoDup ids → (∀ i, i ∈ ids → i ∉ terminal_call_ids (batch w)) → call_info_map (batch w) = ∅ →
  spec (close_started env ids) w (close_post ids w).
Proof.
  induction ids as [|i ids IH]; intros w Hnd Ht Hinfo; cbn [close_started].
  { apply spec_ret. exists [], []. split; [done|]. split; [done|apply ext_refl]. }
  apply NoDup_cons in Hnd as [Hi Hnd]. apply spec_bind.
  eapply spec_mono; [apply finalize_spec|].
  intros x w1 [Hmay|n e w' Hmay Hn E B|n y w' Hmay Hn E B Hy].
  - apply bool_decide_eq_false in Hmay. destruct Hmay. apply Ht. by left.
  - exists [], (i :: ids). split; [done|]. by exists n.
  - rewrite Hinfo, lookup_empty in Hn.
    assert (n = outcome_unknown i) as -> by (rewrite Hn; unfold normalize_result; simpl; by destruct (tool_output_limits env)).
    destruct Hy as [->|(f & _ & _ & ?)]; [|done].
    eapply spec_mono; [apply IH; [done| |by rewrite B]|].
    { intros j Hj. rewrite B. simpl. intros [->%elem_of_singleton|Hin]%elem_of_union; [done|].
      by apply (Ht j); [right|]. }
    intros z w2 (l1 & l2 & -> & Hz). exists (i :: l1), l2. split; [done|].
    unfold closes. cbn [mbind list_bind]. destruct z as [[]|].
    + destruct Hz as [-> E2]. split; [done|]. exact (ext_trans _ _ _ _ _ E E2).
    + destruct Hz as [n E2]. exists n. rewrite <-app_assoc. exact (ext_trans _ _ _ _ _ E E2).
Qed.

Lemma close_any_ok ids w :
  NoDup ids →
  spec match ids with
       | [] => ret tt
       | _ => let! _ := modify (λ w, set_batch w (batch_new EmptyString)) in close_started env ids
       end w (close_post ids w).
Proof.
  intros Hnd. destruct ids as [|i rest] eqn:Hb.
  { apply spec_ret. exists [], []. split; [done|]. split; [done|apply ext_refl]. }
  rewrite <-Hb in *. apply spec_bind, spec_modify. set (w0 := set_batch _ _).
  eapply spec_mono; [by apply close_started_ok|].
  assert (ext w [] w0) as E0 by (apply ext_set_batch, ext_refl).
  intros x w1 (l1 & l2 & Hl & Hx). exists l1, l2. split; [done|]. destruct x.
  - destruct Hx as [-> E1]. split; [done|]. exact (ext_trans _ _ _ _ _ E0 E1).
  - destruct Hx as [n E1]. exists n. exact (ext_trans _ _ _ _ _ E0 E1).
Qed.

(** The run begins with what an earlier one has left. *)
Definition resumable (w : State) : Prop := NoDup (debts w) ∧ Timeline.no_open_calls (timeline w).

(** The calls a history leaves open: those that may run, and those that may have run. *)
Definition may_run (w : State) : list (ToolCall Json) :=
  omap (ToolExecution.pending_of (serde_json env)) (ToolExecution.outstanding [] (entries w)).

Definition may_have_run (w : State) : list string :=
  omap ToolExecution.begun_of (ToolExecution.outstanding [] (entries w)).

Definition resume_post (w : State) (x : result (option EngineResult) EngineError) (w' : State)
  : Prop :=
  ∃ l1 l2 more, may_have_run w = l1 ++ l2 ∧ moved w (closes l1 ++ more) w'
    ∧ starts_settled more ∧ NoDup (started_ids more)
    ∧ (∀ i, i ∈ started_ids more → i ∈ id <$> may_run w)
    ∧ match x with
      | Ok r => l2 = [] ∧ (r = None → ¬ ToolExecution.may_skip env → at_rest w')
      | Err _ => True
      end.

Lemma resume_calls_ok w : resumable w → spec (resume_calls env) w (resume_post w).
Proof.
  intros [Hnd Ho]. apply spec_bind, spec_get. rewrite ToolExecution.unanswered_kinds.
  fold (may_run w) (may_have_run w).
  pose proof (ToolExecution.unanswered_owes (serde_json env) (entries w)) as Hp.
  fold (may_run w) (may_have_run w) in Hp. change (ToolExecution.owes [] _) with (debts w) in Hp.
  rewrite <-Hp in Hnd. apply NoDup_app in Hnd as (HndP & Hdis & HndB).
  apply spec_bind. eapply spec_mono; [by apply close_any_ok|].
  intros x w1 (l1 & l2 & Hl & Hx). destruct x as [[]|e].
  2:{ destruct Hx as [n E1]. exists l1, l2, [Rejected (result_item n)].
      split_and!; [done|by apply ext_moved|by apply starts_settled_none|constructor|set_solver|done]. }
  destruct Hx as [-> E1]. rewrite app_nil_r in Hl. subst l1.
  destruct (closes_spec (may_have_run w)) as (Hd & Hs & Hr).
  assert (awaiting false (may_run w) [] w1) as Ha.
  { split; [by rewrite (ext_timeline _ _ _ E1)|]. split_and!; [|done|by apply starts_settled_none].
    rewrite (mv_debts _ _ _ (ext_moved _ _ _ E1)).
    rewrite ToolExecution.owes_results; [|done|by rewrite <-Hp; apply NoDup_app].
    rewrite <-Hp, filter_app. rewrite ToolExecution.list_filter_all, filter_none, app_nil_r; [done|..].
    - intros i Hi Hn. apply Hn. change (i ∈ done_ids (closes (may_have_run w))). by rewrite Hd.
    - intros i Hi Hn. apply (Hdis i Hi). change (i ∈ done_ids (closes (may_have_run w))) in Hn.
      by rewrite Hd in Hn. }
  assert (∀ x w2, execute_post (may_run w) w1 x w2 → resume_post w x w2) as Hend.
  { intros x w2 (tr2 & E2 & Hs2 & Hn2 & Hi2 & Hx). exists (may_have_run w), [], tr2.
    split_and!; [by rewrite app_nil_r|by eapply moved_trans; [apply ext_moved|]|done|done|done|].
    destruct x as [[]|]; [done| |done]. done. }
  destruct (may_run w) as [|c cs] eqn:Hrun; [|eapply spec_mono; [by eapply execute_ok|exact Hend]].
  apply spec_ret, Hend. exists []. split_and!; [apply moved_refl|by apply starts_settled_none|constructor|set_solver|].
  destruct Ha as (Ho1 & Hd1 & _). split; [by apply Permutation_nil_r|done].
Qed.


(** ** The end of a turn *)

Context (Hskip : ¬ ToolExecution.may_skip env).

Lemma settle_turn_ok early calls tr w :
  awaiting early calls tr w → spec (settle_turn env early calls) w (steps tr w turn_good).
Proof using Hskip.
  intros Ha. destruct early; cbn [settle_turn].
  - destruct Ha as [Ho [Hl _]]. pose proof (live_stoppable _ _ Hl) as Hst.
    apply spec_bind. eapply spec_mono; [apply (drain_ok env tr), Hst|].
    intros x w' (tr' & C & Hx). pose proof (stoppable_closing _ _ _ _ _ Hst C) as Hs.
    destruct x as [r|]; [apply spec_ret|]; exists tr'; (split; [apply ext_moved, C|]); [|done].
    destruct r; (split; [done|]); [|done]. split; [done|]. split; [by eapply drained_rest|].
    by rewrite (ext_timeline _ _ _ (cl_ext _ _ _ _ C)).
  - apply spec_bind. eapply spec_mono; [by eapply execute_ok|].
    intros x w1 (tr1 & E & Hs & _ & _ & Hx).
    assert (starts_settled (tr ++ tr1)) as Hs1 by (apply starts_settled_app; [apply Ha|done]).
    destruct x as [r|]; [apply spec_ret|]; (exists tr1; split; [done|]); [|done].
    destruct r; (split; [done|]); [done|by split; [|apply Hx]].
Qed.

(** ** Complete turns *)

(** The interceptor adds no calls and no results of its own. *)
Definition host_ok : Prop :=
  (∀ now text a i', on_prompt_submit host now (user_message text) = Ok (a, i') →
     ProviderHistory.is_tool i' = false
     ∧ match a with PromptContinueWith its => plain its | _ => True end)
  ∧ (∀ now its, pending_history_appends host now = Ok its → plain its)
  ∧ (∀ now c a c', pre_llm_request host now c = Ok (a, c') →
       match a with RequestContinueWith its | YieldWith its => plain its | _ => True end)
  ∧ (∀ now calls its, on_assistant_turn_end host now calls = Ok (ContinueWithMessages its) →
       plain its).

Context (Hhost : host_ok).

Lemma end_turn_ok early calls tr w :
  awaiting early calls tr w → spec (end_turn env host early calls) w (steps tr w turn_good).
Proof using Hskip Hhost.
  intros Ha. apply spec_bind, spec_attempt. eapply spec_mono; [apply await_policy_spec|].
  intros x w1 [Q1 Hx]. pose proof (quiet_moved _ _ Q1) as M1.
  assert (awaiting early calls tr w1) as Ha1.
  { rewrite <-(app_nil_r tr). eapply awaiting_idle; [done|done|constructor|apply Q1|].
    by apply quiet_timeline. }
  pose proof (awaiting_endable _ _ _ _ Ha1) as He1. apply (steps_later _ tr w w1); [done|].
  assert (calls = [] → debts w1 = [] ∧ starts_settled tr) as Hnone.
  { intros ->. destruct Ha1 as [_ Ha1]. destruct early.
    2:{ destruct Ha1 as (Hd & _ & ?). split; [by apply Permutation_nil_r|done]. }
    destruct Ha1 as [Hl Hc]. destruct (live_uncalled _ _ _ Hl (Hc eq_refl)).
    split; [done|by apply starts_settled_none]. }
  destruct x as [[|its|]|e].
  - destruct calls as [|c cs]; [|by apply settle_turn_ok].
    apply steps_ret. split; [by apply Hnone|done].
  - destruct Hx as [now Hx]. apply Hhost in Hx.
    eapply steps_bind; [apply (or_drain_ok early _ tr w1 w1 (λ _ tr2 w2, awaiting early calls tr2 w2
      ∧ (calls = [] → debts w2 = [] ∧ starts_settled tr2)))|].
    + eapply spec_mono; [by apply append_plain|]. intros x w2 (tr2 & E2 & B2 & Hi).
      pose proof (ext_moved _ _ _ E2) as M2.
      assert (awaiting early calls (tr ++ tr2) w2) as Ha2
        by (eapply awaiting_idle; [done..|by eapply ext_timeline]).
      exists tr2. split; [done|]. destruct x; [|by eapply awaiting_endable]. split; [done|].
      intros [Hd Hs]%Hnone. split; [by rewrite (idle_debts _ _ _ M2 Hi)|by apply idle_settled].
    + intros _ tr2 w2 [Ha2 Hn2]. destruct calls as [|c cs]; [|by apply settle_turn_ok].
      destruct (Hn2 eq_refl). apply steps_ret. split; [done|]. split; [done|]. split; [done|].
      apply Ha2.
  - by apply pause_turn_ok.
  - destruct Hx as [(f & -> & [->| ->])|(now & e' & _ & ->)].
    2: by apply pause_turn_ok.
    all: apply or_drain_ok, spec_throw; exists []; rewrite app_nil_r; split; [apply moved_refl|done].
Qed.

(** ** Complete responses *)

Lemma plain_calls its : plain its → ProviderHistory.call_ids its = [].
Proof. induction 1 as [|i l Hi _ IH]; [done|]. destruct i; try done; exact IH. Qed.

Lemma assistant_items_calls reasoning text (calls : list (ToolCall Json)) :
  Forall (λ i, ProviderHistory.is_result i = false) (build_assistant_items env reasoning text calls)
  ∧ ProviderHistory.call_ids (build_assistant_items env reasoning text calls) = id <$> calls.
Proof.
  assert (∀ calls, build_assistant_items env reasoning text calls
    = build_assistant_items env reasoning text [] ++ (tool_call_json env <$> calls)) as Heq
    by (intros; unfold build_assistant_items; by rewrite app_nil_r, app_assoc).
  rewrite Heq. pose proof (assistant_items_plain env reasoning text) as Hp. split.
  - apply Forall_app. split.
    + eapply Forall_impl; [exact Hp|]. by intros i [_ ?]%orb_false_iff.
    + by apply Forall_fmap, Forall_true.
  - unfold ProviderHistory.call_ids. rewrite omap_app.
    replace (omap _ (build_assistant_items env reasoning text [])) with (@nil string).
    + clear. cbn [app]. induction calls as [|c calls IH]; csimpl; [done|by rewrite IH].
    + symmetry. by apply plain_calls.
Qed.

(** The calls of a response that were not run while it was read are put in the history. *)
Lemma append_calls_ok reasoning text calls tr w :
  Timeline.no_open_calls (timeline w) → debts w = [] → NoDup (id <$> calls) → starts_settled tr →
  spec (or_drain env false (append_history_items env (build_assistant_items env reasoning text calls))) w
    (steps tr w (λ _ tr1 w1, awaiting false calls tr1 w1)).
Proof.
  intros Ho Hd Hnd Hs. apply or_drain_ok. eapply spec_mono; [apply append_items_spec|].
  destruct (assistant_items_calls reasoning text calls) as [Hr Hc].
  set (its := build_assistant_items _ _ _ _) in *.
  assert (∀ l, committed (Committed <$> l) = l ∧ started_ids (Committed <$> l) = []) as Hcom.
  { induction l as [|i l [IH1 IH2]]; [done|]. csimpl. unfold committed in *. csimpl. by rewrite IH1. }
  intros x w1 [B [[-> E]|(l1 & i & l2 & e & Heq & -> & E)]]; eexists; (split; [by apply ext_moved|]).
  - destruct (Hcom its) as [Hi Hst]. split; [by rewrite (ext_timeline _ _ _ E)|]. split_and!; [|done|].
    + rewrite (mv_debts _ _ _ (ext_moved _ _ _ E)), Hd, Hi. rewrite ToolExecution.owes_calls by done. by rewrite Hc.
    + apply starts_settled_app; [done|by apply starts_settled_none].
  - apply starts_settled_app; [done|]. apply starts_settled_none. rewrite started_ids_app.
    by rewrite (proj2 (Hcom l1)).
Qed.

Lemma in_order_perm (calls : list (nat * ToolCall Json)) : in_order calls ≡ₚ calls.*2.
Proof. apply fmap_Permutation, ProviderHistory.sort_by_perm. Qed.

(** A complete response of the provider uses each id once, and closes its blocks. *)
Definition tidy : Prop :=
  ∀ now request es, client_stream provider now request = Ok (Ok <$> es) →
  NoDup (Timeline.start_ids es) ∧ ∀ k, Timeline.block_after k es = None.

Context (Htidy : tidy).

(** The counts once a response is complete. *)
Definition counted (w : State) : State :=
  set_active_run_turn_count (set_turn_count w (S (turn_count w)))
    (Some (S (default 0%nat (active_run_turn_count w)))).

Lemma live_same early tr (w w' : State) :
  live early tr w → batch w' = batch w → entries w' = entries w → live early tr w'.
Proof.
  intros [O0 Mk Rj Fr Re Db Di Ca] B E.
  assert (current early w' = current early w) as Hcur by (destruct early; simpl; congruence).
  split; rewrite ?Hcur; try done. unfold debts, items. by rewrite E.
Qed.

(** The end of a response whose calls run as they come. *)
Lemma early_complete_ok early tr w :
  live early tr w → Timeline.no_open_calls (timeline w) →
  awaiting early (if early then in_order (calls (batch w)) else []) tr w.
Proof.
  intros Hl Ho. split; [done|]. destruct early.
  - split; [done|]. intros Hn. destruct (called tr) as [|i ids] eqn:Hc; [done|].
    destruct (lv_calls _ _ _ Hl); [by rewrite Hc|]. simpl.
    destruct (calls (batch w)) as [|c cs] eqn:Hcs; [done|].
    pose proof (in_order_perm (c :: cs)) as Hp. rewrite Hn in Hp. by apply Permutation_nil_cons in Hp.
  - destruct (live_none _ _ Hl) as [Hc Hs]. split_and!; [|constructor|done].
    by destruct (live_uncalled _ _ _ Hl Hc) as [-> _].
Qed.

Lemma response_complete_ok early tr w es taken :
  live early tr w → (early_dispatch host = false → early = false) →
  from_provider provider (Ok <$> es) → reading env taken es w →
  (early_dispatch host = true → taken = Timeline.completed (serde_json env) es) →
  spec (response_complete env host early) w (steps tr (counted w) turn_good).
Proof using Hskip Hhost Htidy.
  intros Hl Hm (now & request & Hp) Hr Hta. destruct (Htidy _ _ _ Hp) as [Hids Hclosed].
  apply spec_bind, spec_modify. fold (counted w). apply spec_bind, take_ok, spec_bind, take_ok, spec_bind, take_ok.
  cbv beta iota zeta. match goal with |- EngineCore.spec _ ?w' _ => set (w1 := w') end.
  assert (live early tr w1) as Hl1 by by apply (live_same _ _ w).
  assert (Timeline.no_open_calls (timeline w1)) as Ho1 by (by apply (reads_closed env taken es w)).
  apply (steps_later _ tr (counted w) w1); [repeat apply moved_timeline; apply moved_refl|].
  destruct Hr as [R _]. pose proof (Timeline.rd_collected _ _ _ _ R) as Hc.
  set (remaining := (Timeline.take_calls _).1).
  assert (taken ++ remaining = Timeline.completed (serde_json env) es) as Hrem by done.
  clearbody remaining. clear Hc. destruct (early_dispatch host).
  - rewrite (Hta eq_refl) in Hrem.
    assert (remaining = []) as -> by (by apply (app_inv_head (Timeline.completed (serde_json env) es)); rewrite app_nil_r).
    eapply steps_bind; [apply (or_drain_ok early _ tr w1 w1 (λ _ tr2 w2, live early tr2 w2
      ∧ Timeline.no_open_calls (timeline w2)))|].
    + eapply spec_mono; [apply append_live; [exact Hl1|apply assistant_items_plain]|].
      intros x w2 (tr2 & E2 & B2 & Hl2). exists tr2. split; [by apply ext_moved|].
      destruct x; [by rewrite (ext_timeline _ _ _ E2)|].
      destruct early; [by apply live_stoppable|by apply (live_none _ _ Hl2)].
    + intros _ tr2 w2 [Hl2 Ho2]. apply spec_bind, spec_ret, spec_bind, spec_get.
      by apply end_turn_ok, early_complete_ok.
  - rewrite (Hm eq_refl) in *. destruct (live_none _ _ Hl1) as [Hcall Hs1].
    assert (NoDup (id <$> in_order remaining)) as Hnd.
    { pose proof (Timeline.completed_ids (serde_json env) es Hids) as Hn. rewrite <-Hrem, fmap_app in Hn.
      apply NoDup_app in Hn as (_ & _ & Hn). rewrite (fmap_Permutation id _ _ (in_order_perm remaining)).
      by rewrite <-list_fmap_compose. }
    eapply steps_bind; [apply append_calls_ok; [done| |done|done]|].
    { by apply (live_uncalled _ _ _ Hl1). }
    intros [] tr2 w2 Ha. apply spec_bind, spec_ret, spec_bind, spec_get. by apply end_turn_ok.
Qed.

(** ** Responses that broke off *)

Lemma take_partial_ok w :
  spec (take_partial env) w (λ x w1, moved w [] w1 ∧ batch w1 = batch w
    ∧ (Timeline.tracked (timeline w) → Timeline.no_open_calls (timeline w1))
    ∧ ∃ its, x = Ok its ∧ plain its).
Proof.
  apply abort_flush_ok. intros w1 M1 B1 T1.
  apply spec_bind, take_ok, spec_bind, take_ok, spec_bind, take_ok, spec_ret.
  split_and!; [by repeat apply moved_timeline|done|by intros Ht%T1|].
  eexists. split; [done|]. apply assistant_items_plain.
Qed.

Lemma append_if_any_ok w its :
  plain its → spec (append_if_any env its) w (λ x w1, ∃ tr1, ext w tr1 w1 ∧ batch w1 = batch w ∧ Forall idle tr1).
Proof.
  intros Hp. destruct its; [|by apply append_plain]. apply spec_ret. exists [].
  split_and!; [apply ext_refl|done|constructor].
Qed.

(** The loop goes on after a response in which no tool started. *)
Definition broken_good (l : LoopLocals) (r : EngineResult + LoopLocals) (tr : list Effect)
    (w : State) : Prop :=
  started_ids tr = [] ∧ at_rest w ∧ (stream_continuations l < MAX_STREAM_CONTINUATIONS)%nat
  ∧ r = inr (mkLoopLocals (S (stream_continuations l)) true).

Lemma stream_interrupted_ok reason early l tr w :
  live early tr w → Timeline.tracked (timeline w) →
  spec (stream_interrupted env reason early l) w (steps tr w (broken_good l)).
Proof.
  intros Hl Ht. apply spec_bind, spec_get. destruct (early && dispatched_any (batch w)) eqn:Hdis.
  - apply andb_true_iff in Hdis as [-> _]. apply spec_bind.
    eapply spec_mono; [apply take_partial_ok|]. intros x w1 (M1 & B1 & _ & its & -> & Hp).
    assert (live true tr w1) as Hl1
      by (rewrite <-(app_nil_r tr); eapply live_idle; [done|done|constructor|done]).
    apply (steps_later _ tr w w1); [done|].
    eapply steps_bind; [apply (or_drain_ok true _ tr w1 w1 (λ _ tr2 w2, live true tr2 w2))|].
    + eapply spec_mono; [by apply append_if_any_ok|]. intros x w2 (tr2 & E2 & B2 & Hi).
      pose proof (ext_moved _ _ _ E2) as M2.
      assert (live true (tr ++ tr2) w2) as Hl2 by (by eapply live_idle).
      exists tr2. split; [done|]. destruct x; [done|by apply live_stoppable].
    + intros [] tr2 w2 Hl2. by apply (drain_out env _ w2 w2); [apply live_stoppable|apply moved_refl|].
  - assert (called tr = []) as Hc.
    { destruct early; [|by apply (live_none _ _ Hl)]. by apply (lv_dispatched _ _ _ Hl). }
    destruct (live_uncalled _ _ _ Hl Hc) as [Hd Hs].
    cbv zeta. destruct (Nat.ltb_spec MAX_STREAM_CONTINUATIONS (S (stream_continuations l)));
      [by apply steps_throw, starts_settled_none|].
    apply spec_bind. eapply spec_mono; [apply take_partial_ok|].
    intros x w1 (M1 & B1 & T1 & its & -> & Hp). apply (steps_later _ tr w w1); [done|].
    apply spec_bind. eapply spec_mono; [by apply append_if_any_ok|]. intros x w2 (tr2 & E2 & B2 & Hi).
    pose proof (ext_moved _ _ _ E2) as M2.
    assert (started_ids (tr ++ tr2) = []) as Hs2.
    { rewrite started_ids_app, Hs. by destruct (idle_ids _ Hi) as (_ & _ & _ & _ & ? & _). }
    destruct x; [apply spec_ret|]; (exists tr2; split; [done|]); [|by apply starts_settled_none].
    split_and!; [done| |lia|done]. split; [|rewrite (ext_timeline _ _ _ E2); auto].
    rewrite (idle_debts _ _ _ M2 Hi). by rewrite (idle_debts _ _ _ M1).
Qed.

(** ** One turn *)

(** What a round of the loop has done: it goes on only after a response, with nothing under
    way, and has either completed a turn or used a continuation. *)
Definition round_post (l : LoopLocals) (w : State) (x : result (EngineResult + LoopLocals) EngineError)
    (w' : State) : Prop :=
  ∃ tr, trace w' = trace w ++ tr ∧ requests_ok tr ∧ starts_settled tr
    ∧ (llm_call_count w' <= llm_call_count w + if limit_reached host w then 0 else 1)%nat
    ∧ match x with
      | Ok (inr l') =>
          at_rest w' ∧ limit_reached host w = false
          ∧ ((l' = mkLoopLocals 0 false
              ∧ active_run_turn_count w' = Some (S (default 0%nat (active_run_turn_count w))))
             ∨ (l' = mkLoopLocals (S (stream_continuations l)) true
                ∧ (stream_continuations l < MAX_STREAM_CONTINUATIONS)%nat
                ∧ active_run_turn_count w' = active_run_turn_count w
                ∧ started_ids tr = []))
      | _ => True
      end.

Context (Hwaits : waits_bounded provider).

(** A round that ends before the response does. *)
Lemma round_stopped l w0 tr w' x :
  moved w0 tr w' → starts_settled tr → match x with Ok (inr _) => False | _ => True end →
  round_post l w0 x w'.
Proof.
  intros [T _ (_ & _ & Hn) R] Hs Hx. exists tr. split_and!; [done|done|done|lia|].
  by destruct x as [[]|].
Qed.

(** And one that ends after it, the counts having been set at [w1]. *)
Lemma round_ended l w0 tr w w1 tr' w' x :
  moved w0 tr w → trace w1 = trace w → llm_call_count w1 = S (llm_call_count w) →
  limit_reached host w0 = false → moved w1 tr' w' → starts_settled (tr ++ tr') →
  match x with
  | Ok (inr l') =>
      at_rest w'
      ∧ ((l' = mkLoopLocals 0 false
          ∧ active_run_turn_count w1 = Some (S (default 0%nat (active_run_turn_count w))))
         ∨ (l' = mkLoopLocals (S (stream_continuations l)) true
            ∧ (stream_continuations l < MAX_STREAM_CONTINUATIONS)%nat
            ∧ active_run_turn_count w1 = active_run_turn_count w
            ∧ started_ids (tr ++ tr') = []))
  | _ => True
  end → round_post l w0 x w'.
Proof.
  intros [T0 _ (_ & A0 & N0) R0] T1 N1 Hlim [T2 _ (_ & A2 & N2) R2] Hs Hx.
  exists (tr ++ tr'). split_and!; [by rewrite T2, T1, T0, app_assoc| |done|rewrite Hlim; lia|].
  - intros h r [?|?]%elem_of_app; eauto.
  - destruct x as [[|l']|]; [done| |done]. rewrite A2, <-A0. destruct Hx as [Hr Hx]. auto.
Qed.

(** What has happened since the round began, as long as there is no response. *)
Definition before_response (w0 : State) (tr : list Effect) (w : State) : Prop :=
  moved w0 tr w ∧ live false tr w ∧ Timeline.no_open_calls (timeline w).

Lemma before_start w : at_rest w → before_response w [] w.
Proof.
  intros [Hd Ho]. split_and!; [apply moved_refl| |done].
  split; try done; [apply early_ok_new|..]; repeat intros ?; try set_solver.
  all: by destruct tr1.
Qed.

Lemma before_idle w0 tr w more w' :
  before_response w0 tr w → ext w more w' → batch w' = batch w → Forall idle more →
  before_response w0 (tr ++ more) w'.
Proof.
  intros (M0 & Hl & Ho) E B Hi. pose proof (ext_moved _ _ _ E) as M1.
  split_and!; [by eapply moved_trans|by eapply live_idle|by rewrite (ext_timeline _ _ _ E)].
Qed.

Lemma before_quiet w0 tr w w' : before_response w0 tr w → quiet w w' → before_response w0 tr w'.
Proof. intros Hb [E B]. rewrite <-(app_nil_r tr). eapply before_idle; [done..|constructor]. Qed.

Lemma before_stopped l w0 tr w x :
  before_response w0 tr w → match x with Ok (inr _) => False | _ => True end →
  round_post l w0 x w.
Proof. intros (M0 & Hl & _) Hx. eapply round_stopped; [done|by apply (live_none _ _ Hl)|done]. Qed.

Lemma request_response_ok l request_context tr w0 w :
  before_response w0 tr w → limit_reached host w0 = false →
  spec (request_response env provider host l request_context) w (round_post l w0).
Proof using Hskip Hhost Htidy Hwaits.
  intros Hb Hlim. unfold request_response, ProviderHistory.build_request_items.
  destruct (ProviderHistory.materialize_shape request_context) as (a & b & c & -> & _). simpl.
  apply spec_bind, spec_get, spec_bind.
  assert (spec (if early_dispatch host
    then append_history_items env [Conversation.AssistantResponseBoundary (response_id w)]
    else ret tt) w (λ x w1, ∃ tr1, ext w tr1 w1 ∧ batch w1 = batch w ∧ Forall idle tr1)) as Hap.
  { destruct (early_dispatch host); [by apply append_plain; repeat constructor|].
    apply spec_ret. exists []. split_and!; [apply ext_refl|done|constructor]. }
  eapply spec_mono; [exact Hap|]. intros x w1 (tr1 & E1 & B1 & Hi). clear Hap.
  pose proof (before_idle _ _ _ _ _ Hb E1 B1 Hi) as Hb1.
  destruct x as [[]|]; [|by eapply before_stopped]. destruct Hb1 as (M01 & Hl1 & Ho1).
  apply spec_bind. eapply spec_mono; [by apply stream_response_ok|].
  intros x w2 (tr2 & M2 & Hx). pose proof (moved_trans _ _ _ _ _ M01 M2) as M02.
  destruct x as [[completion early]|]; [|by eapply round_stopped].
  destruct Hx as (Hl2 & Hm & Ht & Hc). simpl in Hl2, Hm, Hc. apply spec_bind, spec_modify.
  set (w3 := set_llm_call_count _ _). set (tr02 := (tr ++ tr1) ++ tr2) in *.
  destruct completion.
  - destruct (Hc eq_refl) as (es & taken & Hp & Hr & Hta).
    eapply spec_mono; [apply (response_complete_ok early tr02 w3 es taken); try done;
      by apply (live_same _ _ w2)|].
    intros x w4 (tr4 & M4 & Hx). eapply (round_ended _ _ _ _ (counted w3) tr4); [exact M02|done|done|done|exact M4|..].
    + destruct x; [apply Hx|done].
    + destruct x as [[|l']|]; [done| |done]. destruct Hx as (_ & -> & Hr4). split; [done|]. by left.
  - eapply spec_mono; [apply (stream_interrupted_ok _ early l tr02 w3); [by apply (live_same _ _ w2)|done]|].
    intros x w4 (tr4 & M4 & Hx). eapply (round_ended _ _ _ _ w3 tr4); [exact M02|done|done|done|exact M4|..].
    + destruct x; [apply starts_settled_none, Hx|done].
    + destruct x as [r|]; [|done]. destruct Hx as (Hs & Hr4 & Hlt & ->). split; [done|]. by right.
Qed.

Lemma intercept_ok {T} phase (q : nat → result T InterceptorError) w :
  spec (intercept env phase q) w (λ x w', quiet w w'
    ∧ match x with Ok v => ∃ now, q now = Ok v | Err _ => True end).
Proof.
  apply spec_bind, spec_ask. pose proof (quiet_tick env w) as Q.
  destruct (q _) as [v|e] eqn:Hq; [apply spec_ret|apply spec_throw]; eauto.
Qed.

Context (Hprepare : ∀ history, is_Some (ContextBudget.prepare_request (pruning host) history)).

Lemma turn_ok l w : at_rest w → spec (turn env provider host l) w (round_post l w).
Proof using Hskip Hhost Htidy Hwaits Hprepare.
  intros Hrest. pose proof (before_start _ Hrest) as Hb. apply spec_bind. unfold try_cancelled.
  eexists _, _. split; [done|]. cbv beta iota zeta. set (w1 := set_cancel_rx _ _).
  assert (quiet w w1) as Q1 by (split; [by apply ext_nil|done]).
  pose proof (before_quiet _ _ _ _ Hb Q1) as Hb1. clear Hb.
  assert (limit_reached host w1 = limit_reached host w) as Hlim by done.
  clearbody w1. destruct (cancel_rx _).
  { apply spec_bind. eapply spec_mono; [apply abort_ok|]. intros ? w2 (-> & M2 & _ & _).
    apply spec_throw. destruct Hb1 as (M1 & Hl & _). eapply round_stopped; [by eapply moved_trans| |done].
    rewrite app_nil_r. by apply starts_settled_none. }
  apply spec_bind, spec_get. rewrite Hlim. destruct (limit_reached host w) eqn:Hlr.
  { apply spec_ret. by eapply before_stopped. }
  apply spec_bind. eapply spec_mono; [apply intercept_ok|]. intros x w2 [Q2 Hx].
  pose proof (before_quiet _ _ _ _ Hb1 Q2) as Hb2.
  destruct x as [pending|]; [|by eapply before_stopped]. destruct Hx as [now Hx]. apply Hhost in Hx.
  apply spec_bind. eapply spec_mono; [by apply append_if_any_ok|]. intros x w3 (tr3 & E3 & B3 & Hi3).
  pose proof (before_idle _ _ _ _ _ Hb2 E3 B3 Hi3) as Hb3.
  destruct x as [[]|]; [|by eapply before_stopped]. apply spec_bind, spec_get.
  destruct (Hprepare (item <$> entries w3)) as [[context evaluation] ->].
  apply spec_bind. eapply spec_mono; [apply intercept_ok|]. intros x w4 [Q4 Hx4].
  pose proof (before_quiet _ _ _ _ Hb3 Q4) as Hb4.
  destruct x as [[action request_context]|]; [|by eapply before_stopped].
  destruct Hx4 as [now' Hx4]. apply Hhost in Hx4.
  assert (∀ its (k : M (EngineResult + LoopLocals)), plain its →
    (∀ tr5 w5, before_response w tr5 w5 → spec k w5 (round_post l w)) →
    spec (let! _ := append_history_items env its in k) w4 (round_post l w)) as Happend.
  { intros its k Hits Hk. apply spec_bind. eapply spec_mono; [by apply append_plain|].
    intros x w5 (tr5 & E5 & B5 & Hi5). pose proof (before_idle _ _ _ _ _ Hb4 E5 B5 Hi5) as Hb5.
    destruct x as [[]|]; [by eapply Hk|by eapply before_stopped]. }
  destruct action.
  - by eapply request_response_ok.
  - apply Happend; [done|]. intros tr5 w5 Hb5. by eapply request_response_ok.
  - apply Happend; [done|]. intros tr5 w5 Hb5. apply spec_ret. by eapply before_stopped.
  - apply spec_throw. by eapply before_stopped.
  - apply spec_ret. by eapply before_stopped.
Qed.

(** Only silent responses are continued.  When a round of the loop ends with a response
    that broke off and is to be continued, no tool started in the round, the history owes no
    answer, the turn is not counted and no more than three responses have broken off. *)
Theorem continued_response_ran_nothing l w l' w' :
  at_rest w → turn env provider host l w = Some (Ok (inr l'), w') → continuing_stream l' = true →
  ∃ tr, trace w' = trace w ++ tr ∧ started_ids tr = [] ∧ at_rest w'
    ∧ active_run_turn_count w' = active_run_turn_count w
    ∧ stream_continuations l' = S (stream_continuations l)
    ∧ (stream_continuations l' <= 3)%nat.
Proof using Hskip Hhost Htidy Hwaits Hprepare.
  intros Hrest Ht Hc. destruct (turn_ok l w Hrest) as (x & w1 & Ht' & tr & T & _ & _ & _ & Hx).
  rewrite Ht in Ht'. injection Ht' as <- <-. destruct Hx as (Hr & _ & [[-> _]|(-> & Hlt & Ha & Hs)]); [done|].
  exists tr. split_and!; try done.
Qed.

(** ** The loop *)

(** The rounds a run may still take, with [max] turns; every turn has one response and at most
    [MAX_STREAM_CONTINUATIONS] that broke off. *)
Definition rounds_left (max : nat) (l : LoopLocals) (w : State) : nat :=
  (S MAX_STREAM_CONTINUATIONS * (max - default 0 (active_run_turn_count w))
   - stream_continuations l)%nat.

Definition loop_post (fuel : nat) (l : LoopLocals) (w : State)
    (x : result (EngineResult + LoopLocals) EngineError) (w' : State) : Prop :=
  ∃ tr, trace w' = trace w ++ tr ∧ requests_ok tr ∧ starts_settled tr
    ∧ match x with Ok (inr _) => at_rest w' | _ => True end
    ∧ ∀ max, max_turns host = Some max →
        (stream_continuations l <= MAX_STREAM_CONTINUATIONS)%nat →
        (llm_call_count w' <= llm_call_count w + rounds_left max l w)%nat
        ∧ ((rounds_left max l w < fuel)%nat → match x with Ok (inr _) => False | _ => True end).

Lemma run_turns_ok fuel : ∀ l w,
  at_rest w → spec (run_turns env provider host fuel l) w (loop_post fuel l w).
Proof using Hskip Hhost Htidy Hwaits Hprepare.
  induction fuel as [|fuel IH]; intros l w Hrest; cbn [run_turns].
  { apply spec_ret. exists []. rewrite app_nil_r. split_and!; [done|..|done|intros; lia].
    - intros h r. set_solver.
    - by apply starts_settled_none. }
  apply spec_bind. eapply spec_mono; [by apply turn_ok|].
  intros x w1 (tr & T & R & S & N & Hx).
  assert (∀ max, max_turns host = Some max → limit_reached host w = false →
    (default 0 (active_run_turn_count w) < max)%nat) as Hlim.
  { intros max Hm. unfold limit_reached. rewrite Hm. intros ?%Nat.leb_gt. done. }
  assert (∀ max, max_turns host = Some max → (stream_continuations l <= MAX_STREAM_CONTINUATIONS)%nat →
    (llm_call_count w1 <= llm_call_count w + rounds_left max l w)%nat) as Hcalls.
  { intros max Hm Hl. destruct (limit_reached host w) eqn:Hlr; [lia|].
    specialize (Hlim _ Hm eq_refl). unfold rounds_left. unfold MAX_STREAM_CONTINUATIONS in *. lia. }
  destruct x as [[result|l']|e].
  - apply spec_ret. exists tr. split_and!; [done..|]. auto.
  - destruct Hx as (Hrest1 & Hlr & Hx).
    assert (∀ max, max_turns host = Some max → (stream_continuations l <= MAX_STREAM_CONTINUATIONS)%nat →
      (stream_continuations l' <= MAX_STREAM_CONTINUATIONS)%nat
      ∧ (rounds_left max l' w1 < rounds_left max l w)%nat) as Hdec.
    { intros max Hm Hl. specialize (Hlim _ Hm Hlr). unfold rounds_left, MAX_STREAM_CONTINUATIONS in *.
      destruct Hx as [[-> ->]|(-> & ? & -> & _)]; cbn -[Nat.mul Nat.sub]; lia. }
    rewrite Hlr in N. eapply spec_mono; [by apply IH|].
    intros y w2 (tr2 & T2 & R2 & S2 & Hy & Hb). exists (tr ++ tr2).
    split_and!; [by rewrite T2, T, app_assoc| |by apply starts_settled_app|done|].
    + intros h r [?|?]%elem_of_app; eauto.
    + intros max Hm Hl. destruct (Hdec _ Hm Hl) as [Hl' Hlt]. destruct (Hb _ Hm Hl') as [Hc Hf].
      split; [lia|]. intros ?. apply Hf. lia.
  - exists tr. split_and!; [done..|]. auto.
Qed.

(** ** Runs *)

Lemma loop_post_after fuel l w tr w1 x w' :
  moved w tr w1 → starts_settled tr → loop_post fuel l w1 x w' → loop_post fuel l w x w'.
Proof.
  intros [T _ (_ & Ha & Hn) R] Hs (tr2 & T2 & R2 & S2 & Hx & Hb). exists (tr ++ tr2).
  split_and!; [by rewrite T2, T, app_assoc| |by apply starts_settled_app|done|].
  - intros h r [?|?]%elem_of_app; eauto.
  - intros max Hm Hl. unfold rounds_left in *. rewrite <-Ha, <-Hn. by apply Hb.
Qed.

(** A loop that has ended. *)
Lemma loop_post_stop fuel l w tr w' x :
  moved w tr w' → starts_settled tr → match x with Ok (inr _) => False | _ => True end →
  loop_post fuel l w x w'.
Proof.
  intros [T _ (_ & _ & Hn) R] Hs Hx. exists tr. split_and!; [done|done|done|by destruct x as [[]|]|].
  intros. split; [lia|done].
Qed.

Lemma run_turn_loop_ok fuel w :
  resumable w →
  spec (run_turn_loop env provider host fuel) w (loop_post fuel (mkLoopLocals 0 false) w).
Proof using Hskip Hhost Htidy Hwaits Hprepare.
  intros Hres. apply spec_bind. eapply spec_mono; [by apply resume_calls_ok|].
  intros x w1 (l1 & l2 & more & _ & E & Hs & _ & _ & Hx).
  assert (starts_settled (closes l1 ++ more)) as Hs1.
  { apply starts_settled_app; [|done]. by apply starts_settled_none, closes_spec. }
  destruct x as [[r|]|e]; [apply spec_ret; by eapply loop_post_stop| |by eapply loop_post_stop].
  eapply spec_mono; [apply run_turns_ok, Hx; done|]. intros y w2 Hy. by eapply loop_post_after.
Qed.

Lemma paused_result_ok fuel w :
  resumable w →
  spec (paused_result env provider host fuel) w (loop_post fuel (mkLoopLocals 0 false) w).
Proof using Hskip Hhost Htidy Hwaits Hprepare.
  intros Hres. apply spec_bind, spec_attempt. eapply spec_mono; [by apply run_turn_loop_ok|].
  intros x w1 Hx. destruct x as [v|e]; [by apply spec_ret|].
  assert (loop_post fuel (mkLoopLocals 0 false) w (Ok (inl Paused)) w1) as Hp by exact Hx.
  destruct e as [| |[]]; try (by apply spec_throw). by apply spec_ret.
Qed.

Lemma resumable_idle (w : State) more w' :
  resumable w → ext w more w' → Forall idle more → resumable w'.
Proof.
  intros [Hd Ho] E Hi. split; [|by rewrite (ext_timeline _ _ _ E)].
  by rewrite (idle_debts _ _ _ (ext_moved _ _ _ E) Hi).
Qed.

(** A run, for a new input, or of what an earlier one has left. *)
Definition run_of (fuel : nat) (input : option string) : M (EngineResult + LoopLocals) :=
  match input with
  | Some text => run_result env provider host fuel text
  | None => resume_result env provider host fuel
  end.

(** The state in which its turns are counted. *)
Definition run_begins (input : option string) (w : State) : State :=
  set_active_run_turn_count w
    (Some match input with Some _ => 0%nat | None => default 0%nat (active_run_turn_count w) end).

Lemma run_of_ok fuel input w :
  resumable w →
  spec (run_of fuel input) w (loop_post fuel (mkLoopLocals 0 false) (run_begins input w)).
Proof using Hskip Hhost Htidy Hwaits Hprepare.
  intros Hres. destruct input as [text|].
  2:{ apply spec_bind, spec_modify. by apply (paused_result_ok fuel (run_begins None w)). }
  apply spec_bind, spec_modify. fold (run_begins (Some text) w).
  set (w0 := run_begins (Some text) w). assert (resumable w0) as Hres0 by done.
  apply spec_bind. eapply spec_mono; [apply intercept_ok|]. intros x w1 [Q1 Hx].
  assert (∀ tr w' e, ext w1 tr w' → Forall idle tr →
    loop_post fuel (mkLoopLocals 0 false) w0 (Err e) w') as Hstop.
  { intros tr w' e E Hi. eapply loop_post_stop; [by eapply ext_moved, quiet_ext| |done].
    by apply starts_settled_none, (idle_ids _ Hi). }
  destruct x as [[action user_item]|e]; [|apply (Hstop []); [apply ext_refl|constructor]].
  destruct Hx as [now Hx]. apply Hhost in Hx as [Hitem Hextras].
  assert (∀ extras, plain extras → spec (let! _ := append_history_items env [user_item] in
    let! _ := append_if_any env extras in paused_result env provider host fuel) w1
    (loop_post fuel (mkLoopLocals 0 false) w0)) as Hgo.
  { intros extras He. apply spec_bind. eapply spec_mono; [apply append_plain; by repeat constructor|].
    intros x w2 (tr2 & E2 & _ & Hi2). destruct x as [[]|]; [|by eapply Hstop].
    apply spec_bind. eapply spec_mono; [by apply append_if_any_ok|].
    intros x w3 (tr3 & E3 & _ & Hi3). pose proof (ext_trans _ _ _ _ _ E2 E3) as E23.
    pose proof (Forall_app_2 _ _ _ Hi2 Hi3) as Hi23. destruct x as [[]|]; [|by eapply Hstop].
    pose proof (quiet_ext _ _ _ _ Q1 E23) as E.
    eapply spec_mono; [by apply paused_result_ok; eapply resumable_idle|].
    intros y w4 Hy. eapply loop_post_after; [by apply ext_moved| |exact Hy].
    by apply starts_settled_none, (idle_ids _ Hi23). }
  destruct action as [|reason|its]; [apply Hgo; constructor|apply spec_throw|by apply Hgo].
  apply (Hstop []); [apply ext_refl|constructor].
Qed.

(** The exit a run comes to, unless it is still running. *)
Definition exit_of (y : result (EngineResult + LoopLocals) EngineError) : option EngineRunExit :=
  match y with
  | Ok (inr _) => None
  | Ok (inl r) => Some (run_exit (Ok r : result _ EngineError))
  | Err e => Some (run_exit (Err e))
  end.

Lemma finish_ok (m : M (EngineResult + LoopLocals)) w (Q : _ → _ → Prop) :
  spec m w Q →
  spec (finish m) w (λ x w', ∃ y w1, Q y w1 ∧ x = Ok (exit_of y) ∧ trace w' = trace w1
    ∧ llm_call_count w' = llm_call_count w1
    ∧ active_run_turn_count w' = match exit_of y with
        | None | Some ExitPaused | Some ExitYielded => active_run_turn_count w1
        | _ => None
        end).
Proof.
  intros Hm. apply spec_bind, spec_attempt. eapply spec_mono; [exact Hm|]. intros y w1 HQ.
  assert (∀ r, exit_of y = Some (run_exit r) → spec (let! exit := finalize_run_exit r in ret (Some exit)) w1
    (λ x w', ∃ y w1, Q y w1 ∧ x = Ok (exit_of y) ∧ trace w' = trace w1
      ∧ llm_call_count w' = llm_call_count w1
      ∧ active_run_turn_count w' = match exit_of y with
          | None | Some ExitPaused | Some ExitYielded => active_run_turn_count w1
          | _ => None
          end)) as Hfin.
  { intros r Hr. apply spec_bind, spec_bind.
    destruct (run_exit r); first [apply spec_ret|apply spec_modify]; apply spec_ret, spec_ret;
      exists y, w1; by rewrite Hr. }
  destruct y as [[r|l]|e]; [by apply Hfin|apply spec_ret; by eexists _, _|by apply Hfin].
Qed.

(** [run_with_annotation] and [resume_with_annotation]. *)
Definition invoke (fuel : nat) (input : option string) : M (option EngineRunExit) :=
  match input with
  | Some text => run_with_annotation env provider host fuel text
  | None => resume_with_annotation env provider host fuel
  end.

Lemma invoke_ok fuel input w :
  resumable w →
  ∃ y w1 w' tr, invoke fuel input w = Some (Ok (exit_of y), w')
    ∧ loop_post fuel (mkLoopLocals 0 false) (run_begins input w) y w1
    ∧ trace w' = trace w ++ tr ∧ requests_ok tr ∧ starts_settled tr
    ∧ llm_call_count w' = llm_call_count w1
    ∧ active_run_turn_count w' = match exit_of y with
        | None | Some ExitPaused | Some ExitYielded => active_run_turn_count w1
        | _ => None
        end.
Proof using Hskip Hhost Htidy Hwaits Hprepare.
  intros Hres. destruct (finish_ok _ _ _ (run_of_ok fuel input w Hres))
    as (x & w' & Hf & y & w1 & Hpost & -> & T & N & A').
  pose proof Hpost as (tr & T1 & R & S & _). exists y, w1, w', tr.
  split_and!; [by destruct input|done|by rewrite T, T1|done..].
Qed.

(** C3.  Every request carries every answer.  Whatever the tools do and the signals ask for, and
    wherever a response breaks off, a run sends no request while a tool call of its history is
    without a result: the loop waits for tools, closes what an earlier run has left, and
    continues a broken response only when it owes nothing.  Assumed: complete responses close
    their blocks and name their calls differently, the host adds no tool items, no policy
    skips a call. *)
Theorem requests_carry_answers fuel input w :
  resumable w →
  ∃ exit w' tr, invoke fuel input w = Some (Ok exit, w') ∧ trace w' = trace w ++ tr
    ∧ ∀ history request, Requested history request ∈ tr → ToolExecution.owes [] history = [].
Proof using Hskip Hhost Htidy Hwaits Hprepare.
  intros (y & w1 & w' & tr & Hi & _ & T & R & _)%(invoke_ok fuel input). by exists (exit_of y), w', tr.
Qed.

(** C8.  No run leaves a tool behind.  However it ends -- finished, paused, cancelled, out of
    turns, or with an error of the provider, the interceptor or the host -- every tool that
    started during the run has its result after that, in the history or refused by the host.
    Assumed: complete responses close their blocks and name their calls differently, the host
    adds no tool items, no policy skips a call, waits before a retry overflow no duration,
    preparing a request does not panic, and the run starts with open calls of different ids and
    no call under way. *)
Theorem started_tools_settle fuel input w :
  resumable w →
  ∃ exit w' tr, invoke fuel input w = Some (Ok exit, w') ∧ trace w' = trace w ++ tr
    ∧ starts_settled tr.
Proof using Hskip Hhost Htidy Hwaits Hprepare.
  intros (y & w1 & w' & tr & Hi & _ & T & _ & S & _)%(invoke_ok fuel input).
  by exists (exit_of y), w', tr.
Qed.

(** C12.  The turn limit ends a run.  With a limit on turns the loop comes to an exit within
    [4 * turns + 1] rounds, [turns] being those the logical run has left, and reads at most
    [4 * turns] responses, one for each turn and three that broke off; the turns are counted
    across pauses, and only a pause or a yield keeps the count.  Assumed: complete responses
    close their blocks and name their calls differently, the host adds no tool items, no policy
    skips a call, waits before a retry overflow no duration, preparing a request does not
    panic, and the run starts with open calls of different ids and no call under way. *)
Theorem turn_limit_ends_run max fuel input w :
  max_turns host = Some max → resumable w →
  let turns := (max - default 0 (active_run_turn_count (run_begins input w)))%nat in
  (4 * turns < fuel)%nat →
  ∃ exit w', invoke fuel input w = Some (Ok (Some exit), w')
    ∧ (llm_call_count w' <= llm_call_count w + 4 * turns)%nat
    ∧ (exit = ExitPaused ∨ exit = ExitYielded ∨ active_run_turn_count w' = None).
Proof using Hskip Hhost Htidy Hwaits Hprepare.
  intros Hmax Hres turns Hfuel.
  destruct (invoke_ok fuel input w Hres) as (y & w1 & w' & tr & Hi & Hpost & _ & _ & _ & Hn & Ha).
  destruct Hpost as (tr1 & _ & _ & _ & _ & Hb). destruct (Hb max Hmax) as [Hc Hend]; [simpl; lia|].
  assert (rounds_left max (mkLoopLocals 0 false) (run_begins input w) = 4 * turns)%nat as Hr
    by (unfold rounds_left, MAX_STREAM_CONTINUATIONS; cbn [stream_continuations]; lia).
  rewrite Hr in Hc, Hend. specialize (Hend Hfuel).
  assert (∃ exit, exit_of y = Some exit) as [exit He] by (destruct y as [[]|]; [by eexists|done|by eexists]).
  rewrite He in Hi, Ha. exists exit, w'. split_and!; [done|by rewrite Hn|].
  destruct exit; auto.
Qed.

End lemmas.

(** ** Examples *)

Section examples.
Import Timeline.

Definition text_response (text : string) : list Event :=
  [BlockStart 0 TextBlock MetaText; BlockDelta 0 (TextDelta text); BlockStop 0 TextBlock None None;
   Status Completed].

Definition call_response : list Event :=
  [BlockStart 0 ToolUseBlock (MetaToolUse "a" "Read"); BlockDelta 0 (InputJson "{}");
   BlockStop 0 ToolUseBlock None None; Status Completed].

(** A provider that calls [Read] and then answers, and prefers pauses over its own output. *)
Definition example_provider : Provider unit unit unit :=
  mkProvider Retry.default_policy
    (λ _ request, Ok (Ok <$> if existsb ProviderHistory.is_result request then text_response "World"
                             else call_response))
    (λ _, false) (λ _, 0) (λ _, 0) (λ _, false) (λ _, "error") (λ _, PickPause) (λ _, None) None.

Definition example_host (early : bool) : Host bool :=
  mkHost (Some 2%nat) (ContextBudget.mkPruning None None None) None early true true
    (λ _ i, Ok (PromptContinue, i)) (λ _, Ok []) (λ _ c, Ok (RequestContinue, c)) (λ _ _, Ok Finish).

Definition idle_state : State unit bool :=
  mkState [] false false 0 0 None 0 0 (batch_new EmptyString) timeline_new [].

Definition example_host_env : Env unit bool := ToolExecution.example_env Continue 100 100 "c".

Lemma example_calm : ¬ ToolExecution.may_skip example_host_env.
Proof. intros (now & c & x & c' & x' & He). discriminate He. Qed.

Lemma example_host_ok early : host_ok (example_host early).
Proof.
  split_and!.
  - intros now text a i' He. by injection He as <- <-.
  - intros now its He. injection He as <-. constructor.
  - intros now c a c' He. by injection He as <- _.
  - intros now calls its He. discriminate He.
Qed.

Lemma example_tidy : tidy example_provider.
Proof.
  intros now request es He. injection He as He.
  assert (Inj (=) (=) (@Ok Event (ImageRecovery.ClientError unit unit))) as Hinj
    by (intros x y Hxy; by injection Hxy).
  apply (inj (fmap Ok)) in He. subst es. destruct (existsb _ _).
  all: split; [apply (bool_decide_unpack _); vm_compute; exact I|by intros []].
Qed.

Lemma example_waits : waits_bounded example_provider.
Proof.
  split; [done|by intros now; vm_compute|].
  intros e wait now (now' & r & [He|[s He]]); [discriminate He|]. simpl in He.
  destruct (existsb _ _); discriminate He.
Qed.

Lemma example_prepare early history :
  is_Some (ContextBudget.prepare_request (pruning (example_host early)) history).
Proof. by eexists. Qed.

Lemma idle_resumable : resumable idle_state.
Proof. split; [constructor|done]. Qed.

Lemma idle_at_rest : at_rest idle_state.
Proof. by split. Qed.

Lemma requests_carry_answers_witness :
  ∃ exit w' tr,
    invoke example_host_env example_provider (example_host true) 9 (Some "Hi") idle_state
      = Some (Ok exit, w')
    ∧ trace w' = tr ∧ ∀ history request, Requested history request ∈ tr → ToolExecution.owes [] history = [].
Proof.
  exact (requests_carry_answers example_host_env example_provider (example_host true) example_calm
    (example_host_ok true) example_tidy example_waits (example_prepare true) 9 (Some "Hi") idle_state
    idle_resumable).
Defined.

Lemma started_tools_settle_witness :
  ∃ exit w' tr,
    invoke example_host_env example_provider (example_host true) 9 (Some "Hi") idle_state
      = Some (Ok exit, w')
    ∧ trace w' = tr ∧ starts_settled tr.
Proof.
  exact (started_tools_settle example_host_env example_provider (example_host true) example_calm
    (example_host_ok true) example_tidy example_waits (example_prepare true) 9 (Some "Hi") idle_state
    idle_resumable).
Defined.

Lemma turn_limit_ends_run_witness :
  ∃ exit w',
    invoke example_host_env example_provider (example_host false) 9 (Some "Hi") idle_state
      = Some (Ok (Some exit), w')
    ∧ (llm_call_count w' <= 0 + 4 * 2)%nat
    ∧ (exit = ExitPaused ∨ exit = ExitYielded ∨ active_run_turn_count w' = None).
Proof.
  apply (turn_limit_ends_run example_host_env example_provider (example_host false) example_calm
    (example_host_ok false) example_tidy example_waits (example_prepare false) 2 9 (Some "Hi") idle_state
    eq_refl idle_resumable).
  vm_compute. lia.
Defined.




(** A provider whose first response breaks off. *)
Definition failing_provider : Provider unit unit unit :=
  mkProvider Retry.default_policy
    (λ _ _, Ok [Ok (BlockStart 0 TextBlock MetaText); Ok (BlockDelta 0 (TextDelta "Hello"));
                Err (ImageRecovery.Api None None "gone" None)])
    (λ _, false) (λ _, 0) (λ _, 0) (λ _, false) (λ _, "gone") (λ _, PickIo) (λ _, None) None.

Lemma failing_tidy : tidy failing_provider.
Proof. intros now request es He. by destruct es as [|? [|? [|? []]]]. Qed.

Lemma failing_waits : waits_bounded failing_provider.
Proof.
  split; [done|by intros now; vm_compute|]. by intros e wait now (now' & r & [He|[s He]]).
Qed.

Lemma continued_response_ran_nothing_witness :
  ∃ l' w', turn example_host_env failing_provider (example_host true) (mkLoopLocals 0 false) idle_state
      = Some (Ok (inr l'), w')
    ∧ active_run_turn_count w' = None ∧ stream_continuations l' = 1%nat.
Proof.
  destruct (turn example_host_env failing_provider (example_host true) (mkLoopLocals 0 false)
    idle_state) as [[[[e|l']|e] w']|] eqn:Ht; [vm_compute in Ht; discriminate Ht| |vm_compute in Ht; discriminate Ht..].
  destruct (continued_response_ran_nothing example_host_env failing_provider (example_host true)
    example_calm (example_host_ok true) failing_tidy failing_waits (example_prepare true)
    (mkLoopLocals 0 false) idle_state l' w') as (tr & _ & _ & _ & Ha & Hc & _).
  - exact idle_at_rest.
  - exact Ht.
  - vm_compute in Ht. injection Ht as <- _. reflexivity.
  - exists l', w'. split; [reflexivity|]. split; [exact Ha|exact Hc].
Defined.

(** A provider that says [Hello] before the pause and [World] after it. *)
Definition talking_provider : Provider unit unit unit :=
  mkProvider Retry.default_policy
    (λ now _, Ok (Ok <$> text_response (if bool_decide (now < 13)%nat then "Hello " else "World")))
    (λ _, false) (λ _, 0) (λ _, 0) (λ _, false) (λ _, "error") (λ _, PickPause) (λ _, None) None.

(** The text of a response that was paused comes back.  The run is paused while the response is
    read, after its text block is complete; the history has no part of it.  The response of
    the resumed run is another one, but what enters the history is both texts in one message. *)
Theorem aborted_text_resurfaces :
  let env := ToolExecution.example_env Continue 12 100 "c" in
  ∃ w1 w2,
    invoke env talking_provider (example_host false) 9 (Some "Hi") idle_state
      = Some (Ok (Some ExitPaused), w1)
    ∧ item <$> entries w1 = [user_message "Hi"]
    ∧ invoke env talking_provider (example_host false) 9 None w1 = Some (Ok (Some ExitFinished), w2)
    ∧ item <$> entries w2 = [user_message "Hi"; assistant_message "Hello World"].
Proof.
  intros env. eexists _, _. split; [vm_compute; reflexivity|]. split; [vm_compute; reflexivity|].
  split; vm_compute; reflexivity.
Qed.

(** A provider that, after a second, asks to come back in so many seconds. *)
Definition busy_provider (seconds : Z) : Provider unit unit unit :=
  mkProvider Retry.default_policy
    (λ _ _, Err (ImageRecovery.Api (Some 429) None "busy" (Some (seconds * 10 ^ 9))))
    (λ _, false) (λ _, 10 ^ 9) (λ _, 0) (λ _, false) (λ _, "busy") (λ _, PickIo) (λ _, None) None.

(** The provider can make the engine panic.  A [Retry-After] header is any number of seconds of
    64 bits; when the largest one arrives a second after the first attempt, the sum that is
    compared with the timeout overflows.  One second less, and the error is returned. *)
Theorem retry_after_overflows :
  invoke example_host_env (busy_provider U64_MAX) (example_host false) 9 (Some "Hi") idle_state = None
  ∧ ∃ reason w, invoke example_host_env (busy_provider (U64_MAX - 1)) (example_host false) 9
                  (Some "Hi") idle_state = Some (Ok (Some (ExitInterrupted reason)), w).
Proof. split; [vm_compute; reflexivity|]. do 2 eexists. vm_compute. reflexivity. Qed.

End examples.

End TurnLoop.
