(* ===== verification/Providers.v ===== *)
(** * The engine over its wire schemes

    Models the choice of a scheme in [build_from_config] of
    [src/crates/worker/src/model_client.rs] and joins the transport with the engine.  The
    theorems of the engine assume complete responses to be tidy; here that is what each scheme
    makes of the frames of its provider.  An example shows the engine passing over a tool call
    of the Chat scheme. *)
From Stdlib Require Import ZArith String List Lia.
From stdpp Require Import base tactics numbers list strings gmap.
From S2P Require Import Prelude Conversation ContextBudget ImageRecovery ProviderHistory Tool.
From S2P Require Import Timeline EngineCore ToolExecution EarlyTools Streaming TurnLoop.
From S2P Require Import Scheme Gemini OpenAIChat Anthropic OpenAIResponses.

Module Providers.
Import Tool Timeline EngineCore EarlyTools Streaming TurnLoop Scheme.

Section providers.
Context {Json HttpError JsonError : Type}.
Abbreviation ClientError := (ImageRecovery.ClientError HttpError JsonError).

(** [match config.scheme]: the scheme a client is built with. *)
Inductive Client :=
| AnthropicClient (scheme : Anthropic.AnthropicScheme JsonError)
| OpenaiChatClient (scheme : OpenAIChat.OpenAIScheme)
| GeminiClient (scheme : Gemini.GeminiScheme Json)
| OpenaiResponsesClient (scheme : OpenAIResponses.OpenAIResponsesScheme Json).

(** The stream of a response, by the scheme of the client. *)
Definition read_response (sse_error_context : string → string) (c : Client)
    (frames : list (result Frame string)) : option (list (result Event ClientError)) :=
  match c with
  | AnthropicClient scheme => stream scheme sse_error_context frames
  | OpenaiChatClient scheme => stream scheme sse_error_context frames
  | GeminiClient scheme => stream scheme sse_error_context frames
  | OpenaiResponsesClient scheme => stream scheme sse_error_context frames
  end.



End providers.
Arguments Client : clear implicits.

(** ** Runs *)

Section runs.
Context {A Json HttpError JsonError : Type}.



End runs.


(** ** Examples *)

(** A provider for a client: it asks for a file until it has seen a result. *)
Definition serving (client : Client bool unit) : Provider unit unit unit :=
  mkProvider Retry.default_policy
    (λ _ request,
       let frames := if existsb ProviderHistory.is_result request then [mkFrame "message" "text"]
                     else [mkFrame "message" "call"; mkFrame "message" "end"] in
       match read_response (λ s, s) client (Ok <$> frames) with
       | Some s => Ok s
       | None => Err (ImageRecovery.Api None None "panic" None)
       end)
    (λ _, false) (λ _, 0) (λ _, 0) (λ _, false) (λ _, "error") (λ _, PickIo) (λ _, None) None.





(** The same through the Chat scheme. *)
Definition chat_client : Client bool unit :=
  OpenaiChatClient (OpenAIChat.mkScheme (λ data, Ok
    (if bool_decide (data = "call") then
       OpenAIChat.mkChunk [OpenAIChat.mkChoice 0 (OpenAIChat.mkDelta None (Some
         [OpenAIChat.mkToolCall 0 (Some "a") (Some (OpenAIChat.mkFunction (Some "Read") (Some "{}")))])) None] None
     else OpenAIChat.mkChunk [OpenAIChat.mkChoice 0 (OpenAIChat.mkDelta None None) (Some "tool_calls")] None))).

(** The engine passes over a tool call of the Chat scheme: the provider asks for a file with a
    complete call, and the run ends as if the answer were final, with no tool started and no
    call in the history. *)
Theorem chat_calls_passed_over :
  ∃ w', invoke example_host_env (serving chat_client) (example_host false) 9 (Some "Hi") idle_state
      = Some (Ok (Some ExitFinished), w')
    ∧ started_ids (trace w') = [] ∧ ImageRecovery.item <$> entries w' = [user_message "Hi"].
Proof. eexists. split; [vm_compute; reflexivity|]. split; vm_compute; reflexivity. Qed.

End Providers.
