(* ===== verification/TextEdit.v ===== *)
(** * Text operations

    Models [src/crates/fs-operation/src/text.rs]: the checked edit, whole-text reads and
    writes, and the numbered rendering of a line range.  Strings are their UTF-8 bytes, so a
    slice can panic at a position inside a character; a panic is [None].  A [usize] has 64
    bits.  Decoding of JSON arguments and their schemas are not modelled. *)
From Stdlib Require Import ZArith String Ascii List Lia.
From stdpp Require Import base tactics numbers list strings pretty.
From S2P Require Import Prelude.

Module TextEdit.

Definition ISIZE_MAX : Z := 2 ^ 63 - 1.

(** [str::len]. *)
Definition len (s : string) : Z := Z.of_nat (String.length s).

(** ** Arguments *)

Inductive TextOperation := Read | ReadLines | Edit | Write.

Definition from_name (name : string) (line_read : bool) : option TextOperation :=
  if String.eqb name "read" then if line_read then Some ReadLines else Some Read
  else if String.eqb name "edit" then Some Edit
  else if String.eqb name "write" then Some Write
  else None.

Record EditArgs := mkEditArgs {
  old_string : string;
  new_string : string;
  replace_all : bool
}.

Record LineReadArgs := mkLineReadArgs { offset : option Z; limit : option Z }.

Definition range (a : LineReadArgs) (default_limit : Z) : Z * Z :=
  (default 0 (offset a), Z.max (default default_limit (limit a)) 1).

Record TextLimits := mkLimits {
  max_input_bytes : option Z;
  max_output_bytes : option Z;
  max_replacements : option Z
}.

Inductive TextError :=
| Decode (message : string)
| EmptyOldString
| IdenticalStrings
| NotFound
| MultipleMatches (occurrences : Z)
| InputTooLarge (bytes limit : Z)
| OutputTooLarge (bytes limit : Z)
| ReplacementLimitExceeded (replacements limit : Z)
| Overflow.

Definition check_input_bytes (bytes : Z) (limits : TextLimits) : result unit TextError :=
  match max_input_bytes limits with
  | Some limit => if limit <? bytes then Err (InputTooLarge bytes limit) else Ok tt
  | None => Ok tt
  end.

Definition check_output_bytes (bytes : Z) (limits : TextLimits) : result unit TextError :=
  match max_output_bytes limits with
  | Some limit => if limit <? bytes then Err (OutputTooLarge bytes limit) else Ok tt
  | None => Ok tt
  end.

Definition validate (a : EditArgs) (limits : TextLimits) : result unit TextError :=
  if bool_decide (old_string a = EmptyString) then Err EmptyOldString
  else if bool_decide (old_string a = new_string a) then Err IdenticalStrings
  else
    let? _ := check_input_bytes (len (old_string a)) limits in
    let? _ := check_input_bytes (len (new_string a)) limits in
    Ok tt.

(** ** The edit *)

(** [str::match_indices] of a non-empty pattern: the positions, counted from [pos], of the
    leftmost matches that do not overlap; [skip] bytes belong to the last match. *)
Fixpoint match_indices_from (pattern : string) (pos skip : nat) (s : string) : list nat :=
  match s with
  | EmptyString => []
  | String _ rest =>
      match skip with
      | S skip => match_indices_from pattern (S pos) skip rest
      | O =>
          if String.prefix pattern s
          then pos :: match_indices_from pattern (S pos) (String.length pattern - 1) rest
          else match_indices_from pattern (S pos) 0 rest
      end
  end.

Definition match_indices (s pattern : string) : list nat := match_indices_from pattern 0 0 s.

(** [&s[from..to]]. *)
Definition slice (s : string) (from to : nat) : option string :=
  if (from <=? to)%nat && (to <=? String.length s)%nat
     && is_char_boundary s from && is_char_boundary s to
  then Some (String.substring from (to - from) s) else None.

Definition edited_len (original old new replacements : Z) : result Z TextError :=
  let? removed := ok_or (checked_mul_u64 old replacements) Overflow in
  let? added := ok_or (checked_mul_u64 new replacements) Overflow in
  let? bytes := ok_or (if removed <=? original
                       then checked_add_u64 (original - removed) added else None) Overflow in
  if ISIZE_MAX <? bytes then Err Overflow else Ok bytes.

Record EditOutcome := mkEditOutcome {
  content : string;
  replacements : Z;
  bytes_written : Z
}.

(** The loop over the matches: the text built and the position after the last match. *)
Fixpoint build_content (original old new : string) (starts : list nat) (cursor : nat)
    (built : string) : option string :=
  match starts with
  | [] => rest ← slice original cursor (String.length original); Some (built +:+ rest)
  | start :: starts =>
      between ← slice original cursor start;
      build_content original old new starts (start + String.length old)
        (built +:+ between +:+ new)
  end.

Definition edit (original : string) (a : EditArgs) (limits : TextLimits)
  : option (result EditOutcome TextError) :=
  match validate a limits with
  | Err e => Some (Err e)
  | Ok _ =>
  match check_input_bytes (len original) limits with
  | Err e => Some (Err e)
  | Ok _ =>
    let occurrences := Z.of_nat (length (match_indices original (old_string a))) in
    if occurrences =? 0 then Some (Err NotFound)
    else if negb (replace_all a) && negb (occurrences =? 1)
    then Some (Err (MultipleMatches occurrences))
    else match (match max_replacements limits with
                | Some limit => if limit <? occurrences then Some limit else None
                | None => None
                end) with
    | Some limit => Some (Err (ReplacementLimitExceeded occurrences limit))
    | None =>
    match edited_len (len original) (len (old_string a)) (len (new_string a)) occurrences with
    | Err e => Some (Err e)
    | Ok bytes =>
    match check_output_bytes bytes limits with
    | Err e => Some (Err e)
    | Ok _ =>
        text ← build_content original (old_string a) (new_string a)
                 (match_indices original (old_string a)) 0 EmptyString;
        Some (Ok (mkEditOutcome text occurrences bytes))
    end
    end
    end
  end
  end.

(** ** Reads and writes *)

Record TextOutcome := mkTextOutcome { text_content : string; text_bytes : Z }.

Definition text_outcome (c : string) (limits : TextLimits) : result TextOutcome TextError :=
  let bytes := len c in
  let? _ := check_input_bytes bytes limits in
  let? _ := check_output_bytes bytes limits in
  Ok (mkTextOutcome c bytes).

Definition write (c : string) (limits : TextLimits) : result TextOutcome TextError :=
  text_outcome c limits.

Definition read (c : string) (limits : TextLimits) : result TextOutcome TextError :=
  text_outcome c limits.

(** ** The numbered rendering *)

Record Rendered := mkRendered {
  body : string;
  line_count : Z;
  total_lines : Z;
  truncated : bool
}.

Definition newline : string := String (ascii_of_nat 10) EmptyString.

Definition RENDERED_TRUNCATION_MARKER : string :=
  newline +:+ "[truncated at rendered output byte limit]" +:+ newline.

(** [str::lines]: a line ends at a line feed, with a carriage return before it dropped; a
    last line without one is a line when it is not empty. *)
Definition strip_cr (line : string) : string :=
  match String.length line with
  | O => line
  | S n => match String.get n line with
           | Some c => if Ascii.eqb c (ascii_of_nat 13) then String.substring 0 n line else line
           | None => line
           end
  end.

Fixpoint lines_from (current : string) (s : string) : list string :=
  match s with
  | EmptyString => match current with EmptyString => [] | _ => [current] end
  | String c rest =>
      if Ascii.eqb c (ascii_of_nat 10) then strip_cr current :: lines_from EmptyString rest
      else lines_from (current +:+ String c EmptyString) rest
  end.

Definition lines (s : string) : list string := lines_from EmptyString s.

(** [format!("{number:>6}\t")]. *)
Fixpoint spaces (n : nat) : string :=
  match n with O => EmptyString | S n => String " " (spaces n) end.

Definition number_prefix (number : Z) : string :=
  let digits := pretty number in
  spaces (6 - String.length digits) +:+ digits +:+ String (ascii_of_nat 9) EmptyString.

(** The loop over the fragments of one line. *)
Fixpoint push_fragments (fragments : list string) (remaining : nat) (out : string) : string :=
  match fragments with
  | [] => out
  | fragment :: rest =>
      let n := floor_boundary fragment (remaining `min` String.length fragment) in
      let out := out +:+ String.substring 0 n fragment in
      if (n <? String.length fragment)%nat then out
      else push_fragments rest (remaining - n) out
  end.

Definition saturating_add_usize (a b : Z) : Z := Z.min (a + b) U64_MAX.

Definition marker_room (max_bytes : nat) (out : string) : nat :=
  (max_bytes - String.length out) `min` String.length RENDERED_TRUNCATION_MARKER.

(** The loop over the lines; the result is the body, the line count and
    [output_truncated]. *)
Fixpoint render_loop (start_line : Z) (max_bytes budget : nat) (index : Z) (ls : list string)
    (out : string) (count : Z) : string * Z * bool :=
  match ls with
  | [] => (out, count, false)
  | line :: ls =>
      let number := saturating_add_usize (saturating_add_usize start_line index) 1 in
      let prefix := number_prefix number in
      let numbered_len := saturating_add_usize (saturating_add_usize (len prefix) (len line)) 1 in
      let remaining := (budget - String.length out)%nat in
      let count := if (0 <? remaining)%nat then saturating_add_usize count 1 else count in
      let line_truncated := Z.of_nat remaining <? numbered_len in
      let out := push_fragments [prefix; line; newline] remaining out in
      if line_truncated then
        (out +:+ String.substring 0 (marker_room max_bytes out) RENDERED_TRUNCATION_MARKER,
         count, true)
      else render_loop start_line max_bytes budget (index + 1) ls out count
  end.

Definition render_numbered (text : string) (start_line total : Z) (was_truncated : bool)
    (max_bytes : nat) : Rendered :=
  let budget := (max_bytes - String.length RENDERED_TRUNCATION_MARKER)%nat in
  let '(out, count, output_truncated) :=
    render_loop start_line max_bytes budget 0 (lines text) EmptyString 0 in
  mkRendered out count total ((0 <? start_line) || was_truncated || output_truncated).

(** ** Lemmas: matches *)

(** The pieces [first], [rest] with a separator between them. *)
Fixpoint joined (sep first : string) (rest : list string) : string :=
  match rest with
  | [] => first
  | p :: ps => first +:+ (sep +:+ joined sep p ps)
  end.

(** The pattern occurs in [s] at byte [k]. *)
Definition occurs_at (pattern s : string) (k : nat) : Prop :=
  ∃ a b, s = a +:+ (pattern +:+ b) ∧ String.length a = k.

(** Each separator is the leftmost occurrence after the one before it, and none is left in
    the last piece. *)
Fixpoint leftmost (pattern first : string) (rest : list string) : Prop :=
  match rest with
  | [] => ∀ k, ¬ occurs_at pattern first k
  | p :: ps =>
      (∀ k, occurs_at pattern (joined pattern first rest) k → (String.length first ≤ k)%nat)
      ∧ leftmost pattern p ps
  end.

Fixpoint starts (pattern : string) (pos : nat) (first : string) (rest : list string)
  : list nat :=
  match rest with
  | [] => []
  | p :: ps =>
      (pos + String.length first)%nat
      :: starts pattern (pos + String.length first + String.length pattern) p ps
  end.

Lemma starts_length pattern rest : ∀ pos first,
  length (starts pattern pos first rest) = length rest.
Proof. induction rest; intros; simpl; auto. Qed.

Lemma occurs_at_cons pattern c s k :
  occurs_at pattern (String c s) k →
  (k = 0%nat ∧ String.prefix pattern (String c s) = true)
  ∨ ∃ k', k = S k' ∧ occurs_at pattern s k'.
Proof.
  intros (a & b & Heq & Hk). destruct a as [|d a].
  - left. split; [done|]. apply string_prefix_app. by exists b.
  - right. rewrite string_app_cons in Heq. injection Heq as -> ->.
    exists (String.length a). split; [done|]. by exists a, b.
Qed.

Lemma no_occurrence_empty pattern k : pattern ≠ EmptyString → ¬ occurs_at pattern EmptyString k.
Proof. intros Hp (a & b & Heq & _). destruct a; [|done]. by destruct pattern. Qed.

Lemma joined_cons c sep first rest :
  joined sep (String c first) rest = String c (joined sep first rest).
Proof. by destruct rest. Qed.

Lemma leftmost_cons pattern c first rest :
  String.prefix pattern (String c (joined pattern first rest)) = false →
  leftmost pattern first rest → leftmost pattern (String c first) rest.
Proof.
  intros Hp. destruct rest as [|p ps]; cbn [leftmost].
  - intros H k [[_ Hk]|(k' & _ & Hk)]%occurs_at_cons; [|by eapply H].
    simpl in Hp. simpl in Hk. congruence.
  - intros [H Hr]. split; [|done]. intros k. rewrite joined_cons.
    intros [[_ Hk]|(k' & -> & Hk%H)]%occurs_at_cons; [congruence|simpl; lia].
Qed.

Lemma match_indices_skip pattern a : ∀ pos s,
  match_indices_from pattern pos (String.length a) (a +:+ s)
  = match_indices_from pattern (pos + String.length a) 0 s.
Proof.
  induction a as [|c a IH]; intros pos s; [by rewrite Nat.add_0_r|].
  rewrite string_app_cons. cbn [match_indices_from String.length]. rewrite IH.
  by rewrite Nat.add_succ_r.
Qed.

Lemma match_indices_spec pattern s : pattern ≠ EmptyString → ∀ pos,
  ∃ first rest, s = joined pattern first rest ∧ leftmost pattern first rest
    ∧ match_indices_from pattern pos 0 s = starts pattern pos first rest.
Proof.
  intros Hne. remember (String.length s) as n eqn:Hn.
  revert s Hn. induction (lt_wf n) as [n _ IH]. intros s -> pos.
  destruct s as [|c s].
  { exists EmptyString, []. split_and!; [done| |done]. intros k. by apply no_occurrence_empty. }
  cbn [match_indices_from]. destruct (String.prefix pattern (String c s)) eqn:Hp.
  - apply string_prefix_app in Hp as [t Ht].
    destruct pattern as [|c' p]; [done|]. rewrite string_app_cons in Ht. injection Ht as <- ->.
    destruct (IH (String.length t)) with (s := t) (pos := (S pos + String.length p)%nat)
      as (first & rest & -> & Hl & Hm); [simpl; rewrite string_length_app; lia|done|].
    exists EmptyString, (first :: rest). split_and!; [done|split; [simpl; lia|done]|].
    simpl. rewrite Nat.sub_0_r, match_indices_skip, Hm.
    f_equal; [lia|]. f_equal; simpl; lia.
  - destruct (IH (String.length s)) with (s := s) (pos := S pos)
      as (first & rest & Hs & Hl & Hm); [simpl; lia|done|].
    exists (String c first), rest. rewrite joined_cons, Hm. subst s. split_and!; [done| |].
    + by apply leftmost_cons.
    + destruct rest as [|p ps]; [done|]. simpl. f_equal; [lia|]. f_equal; lia.
Qed.

Lemma joined_length sep rest : ∀ first,
  String.length (joined sep first rest)
  = (String.length first + foldr (λ p n, String.length p + n)%nat 0%nat rest
     + length rest * String.length sep)%nat.
Proof.
  induction rest as [|p ps IH]; intros first; cbn [joined]; [simpl; lia|].
  rewrite !string_length_app, IH. simpl. lia.
Qed.

Lemma joined_valid sep rest : ∀ first,
  valid_utf8 sep = true → Forall (λ p, valid_utf8 p = true) (first :: rest) →
  valid_utf8 (joined sep first rest) = true.
Proof.
  induction rest as [|p ps IH]; intros first Hsep [Hf Hr]%Forall_cons; [done|].
  simpl. auto using valid_utf8_app.
Qed.

Lemma pieces_valid sep rest : ∀ first,
  valid_utf8 sep = true → sep ≠ EmptyString → valid_utf8 (joined sep first rest) = true →
  Forall (λ p, valid_utf8 p = true) (first :: rest).
Proof.
  induction rest as [|p ps IH]; intros first Hsep Hne Hv; [by constructor|].
  apply valid_utf8_cut in Hv as [Hf Hr]; [|done..]. constructor; auto.
Qed.

(** ** Lemmas: the edit *)

Lemma slice_middle a b c :
  valid_utf8 (b +:+ c) = true → valid_utf8 c = true →
  slice (a +:+ (b +:+ c)) (String.length a) (String.length a + String.length b) = Some b.
Proof.
  intros Hbc Hc. unfold slice. rewrite (char_boundary_app a (b +:+ c) Hbc).
  assert (Hend : is_char_boundary (a +:+ (b +:+ c)) (String.length a + String.length b) = true).
  { rewrite string_app_assoc, <- string_length_app. by apply char_boundary_app. }
  rewrite Hend. rewrite !string_length_app.
  rewrite (proj2 (Nat.leb_le _ _)) by lia. rewrite (proj2 (Nat.leb_le _ _)) by lia. simpl.
  f_equal. replace (String.length a + String.length b - String.length a)%nat
    with (String.length b) by lia. apply substring_middle.
Qed.

Lemma build_content_spec old new rest : ∀ pre first built,
  valid_utf8 old = true → Forall (λ p, valid_utf8 p = true) (first :: rest) →
  build_content (pre +:+ joined old first rest) old new
    (starts old (String.length pre) first rest) (String.length pre) built
  = Some (built +:+ joined new first rest).
Proof.
  induction rest as [|p ps IH]; intros pre first built Hold [Hf Hr]%Forall_cons;
    cbn [starts build_content joined].
  - pose proof (slice_middle pre first EmptyString) as Hs.
    rewrite !string_app_nil_r in Hs. rewrite string_length_app, Hs by done. done.
  - assert (Hj : valid_utf8 (old +:+ joined old p ps) = true)
      by (apply valid_utf8_app; [done|by apply joined_valid]).
    rewrite slice_middle; [|by apply valid_utf8_app|done]. cbn [mbind option_bind].
    specialize (IH (pre +:+ (first +:+ old)) p (built +:+ first +:+ new) Hold Hr).
    rewrite !string_length_app, <- !string_app_assoc in IH.
    rewrite Nat.add_assoc in IH. exact IH.
Qed.

Lemma edited_len_spec original old new n :
  0 ≤ old → 0 ≤ new → 0 ≤ n → old * n ≤ original ≤ ISIZE_MAX →
  edited_len original old new n
  = if ISIZE_MAX <? original - old * n + new * n then Err Overflow
    else Ok (original - old * n + new * n).
Proof.
  intros Hold Hnew Hn Horig. unfold edited_len, checked_mul_u64, checked_add_u64.
  assert (0 ≤ new * n) by nia. unfold ISIZE_MAX, U64_MAX in *.
  rewrite (proj2 (Z.leb_le (old * n) (2 ^ 64 - 1))) by lia. cbn [ok_or].
  destruct (Z.leb_spec (new * n) (2 ^ 64 - 1)); cbn [ok_or].
  2: { destruct (Z.ltb_spec (2 ^ 63 - 1) (original - old * n + new * n)); [done|lia]. }
  rewrite (proj2 (Z.leb_le (old * n) original)) by lia.
  destruct (Z.leb_spec (original - old * n + new * n) (2 ^ 64 - 1)); cbn [ok_or]; [done|].
  destruct (Z.ltb_spec (2 ^ 63 - 1) (original - old * n + new * n)); [done|lia].
Qed.

Lemma joined_len_change old new first rest :
  len (joined new first rest)
  = len (joined old first rest) - len old * Z.of_nat (length rest)
    + len new * Z.of_nat (length rest).
Proof. unfold len. rewrite !joined_length. lia. Qed.

(** What a failed edit says about its arguments. *)
Definition edit_error (original : string) (a : EditArgs) (limits : TextLimits)
    (e : TextError) : Prop :=
  match e with
  | Decode _ => False
  | EmptyOldString => old_string a = EmptyString
  | IdenticalStrings => old_string a = new_string a
  | NotFound => ∀ k, ¬ occurs_at (old_string a) original k
  | MultipleMatches n =>
      replace_all a = false ∧ 2 ≤ n
      ∧ ∃ first rest, original = joined (old_string a) first rest
                      ∧ leftmost (old_string a) first rest ∧ n = Z.of_nat (length rest)
  | InputTooLarge n limit =>
      max_input_bytes limits = Some limit ∧ limit < n
      ∧ (n = len original ∨ n = len (old_string a) ∨ n = len (new_string a))
  | OutputTooLarge n limit =>
      max_output_bytes limits = Some limit ∧ limit < n
      ∧ ∃ first rest, original = joined (old_string a) first rest
                      ∧ leftmost (old_string a) first rest
                      ∧ n = len (joined (new_string a) first rest)
  | ReplacementLimitExceeded n limit =>
      max_replacements limits = Some limit ∧ limit < n
      ∧ ∃ first rest, original = joined (old_string a) first rest
                      ∧ leftmost (old_string a) first rest ∧ n = Z.of_nat (length rest)
  | Overflow =>
      ∃ first rest, original = joined (old_string a) first rest
        ∧ leftmost (old_string a) first rest
        ∧ ISIZE_MAX < len (joined (new_string a) first rest)
  end.

(** What a successful edit has done. *)
Definition edit_done (original : string) (a : EditArgs) (limits : TextLimits)
    (o : EditOutcome) : Prop :=
  ∃ first rest, original = joined (old_string a) first rest
    ∧ leftmost (old_string a) first rest ∧ rest ≠ []
    ∧ content o = joined (new_string a) first rest
    ∧ valid_utf8 (content o) = true
    ∧ replacements o = Z.of_nat (length rest) ∧ bytes_written o = len (content o)
    ∧ (replace_all a = false → length rest = 1%nat)
    ∧ bytes_written o ≤ ISIZE_MAX
    ∧ (∀ l, max_input_bytes limits = Some l → len original ≤ l)
    ∧ (∀ l, max_output_bytes limits = Some l → bytes_written o ≤ l)
    ∧ (∀ l, max_replacements limits = Some l → replacements o ≤ l).

Lemma check_input_cases n limits :
  match check_input_bytes n limits with
  | Ok _ => ∀ l, max_input_bytes limits = Some l → n ≤ l
  | Err e => ∃ l, e = InputTooLarge n l ∧ max_input_bytes limits = Some l ∧ l < n
  end.
Proof.
  unfold check_input_bytes. destruct (max_input_bytes limits) as [l|]; [|done].
  destruct (Z.ltb_spec l n); [eauto|]. by intros ? [= <-].
Qed.

Lemma check_output_cases n limits :
  match check_output_bytes n limits with
  | Ok _ => ∀ l, max_output_bytes limits = Some l → n ≤ l
  | Err e => ∃ l, e = OutputTooLarge n l ∧ max_output_bytes limits = Some l ∧ l < n
  end.
Proof.
  unfold check_output_bytes. destruct (max_output_bytes limits) as [l|]; [|done].
  destruct (Z.ltb_spec l n); [eauto|]. by intros ? [= <-].
Qed.

Lemma validate_cases original a limits :
  match validate a limits with
  | Ok _ => old_string a ≠ EmptyString
  | Err e => edit_error original a limits e
  end.
Proof.
  unfold validate. case_bool_decide; [done|]. case_bool_decide; [done|].
  pose proof (check_input_cases (len (old_string a)) limits) as H1.
  destruct (check_input_bytes (len (old_string a)) limits) as [|e];
    [|destruct H1 as (l & -> & ? & ?); simpl; auto].
  pose proof (check_input_cases (len (new_string a)) limits) as H2.
  destruct (check_input_bytes (len (new_string a)) limits) as [|e]; [done|].
  destruct H2 as (l & -> & ? & ?). simpl. auto.
Qed.

Lemma edit_cases original a limits :
  valid_utf8 original = true → valid_utf8 (old_string a) = true →
  valid_utf8 (new_string a) = true → len original ≤ ISIZE_MAX →
  ∃ r, edit original a limits = Some r
    ∧ match r with
      | Ok o => edit_done original a limits o
      | Err e => edit_error original a limits e
      end.
Proof.
  intros Hv Hold Hnew Hlen. unfold edit.
  pose proof (validate_cases original a limits) as H1.
  destruct (validate a limits) as [[]|e]; [|eauto].
  pose proof (check_input_cases (len original) limits) as H2.
  destruct (check_input_bytes (len original) limits) as [[]|e];
    [|destruct H2 as (l & -> & ? & ?); eexists; split; [done|]; simpl; auto].
  destruct (match_indices_spec (old_string a) original H1 0) as (first & rest & Heq & Hl & Hm).
  unfold match_indices. rewrite Hm, starts_length.
  assert (Hdec : original = joined (old_string a) first rest ∧ leftmost (old_string a) first rest)
    by done. clear Heq. destruct Hdec as [Heq _].
  destruct (Z.eqb_spec (Z.of_nat (length rest)) 0) as [E|E].
  { assert (rest = []) as -> by (destruct rest; [done|simpl in E; lia]).
    eexists; split; [done|]. simpl. by rewrite Heq. }
  destruct (negb (replace_all a) && negb (Z.of_nat (length rest) =? 1)) eqn:Hall.
  { split_andb. eexists; split; [done|]. simpl. split_and!; [done|zbool; lia|eauto]. }
  destruct (match max_replacements limits with Some _ => _ | None => None end)
    as [l|] eqn:Hmax.
  { destruct (max_replacements limits) as [l'|] eqn:Hml; [|done].
    destruct (Z.ltb_spec l' (Z.of_nat (length rest))); [|done]. injection Hmax as ->.
    eexists; split; [done|]. simpl. eauto 10. }
  assert (Hchange := joined_len_change (old_string a) (new_string a) first rest).
  rewrite <- Heq in Hchange.
  assert (len (old_string a) * Z.of_nat (length rest) ≤ len original)
    by (rewrite Heq; unfold len; rewrite joined_length; lia).
  rewrite edited_len_spec by (unfold len in *; lia). rewrite <- Hchange.
  destruct (Z.ltb_spec ISIZE_MAX (len (joined (new_string a) first rest))).
  { eexists; split; [done|]. simpl. eauto. }
  pose proof (check_output_cases (len (joined (new_string a) first rest)) limits) as H3.
  destruct (check_output_bytes _ limits) as [[]|e];
    [|destruct H3 as (l & -> & ? & ?); eexists; split; [done|]; simpl; eauto 10].
  assert (Hpieces : Forall (λ p, valid_utf8 p = true) (first :: rest))
    by (apply (pieces_valid (old_string a)); [done..|by rewrite <- Heq]).
  pose proof (build_content_spec (old_string a) (new_string a) rest EmptyString first
                EmptyString Hold Hpieces) as Hb.
  change (EmptyString +:+ joined (old_string a) first rest)
    with (joined (old_string a) first rest) in Hb. rewrite <- Heq in Hb.
  change (String.length EmptyString) with 0%nat in Hb. rewrite Hb.
  eexists; split; [done|]. exists first, rest. simpl.
  split_and!; try done.
  - destruct rest; [done|done].
  - by apply joined_valid.
  - intros Hr. rewrite Hr in Hall. simpl in Hall. zbool. lia.
  - intros l Hl'. rewrite Hl' in Hmax.
    destruct (Z.ltb_spec l (Z.of_nat (length rest))); [done|lia].
Qed.

(** ** Lemmas: the rendering *)

Lemma push_fragments_spec fragments : ∀ remaining out,
  Forall (λ f, valid_utf8 f = true) fragments → valid_utf8 out = true →
  valid_utf8 (push_fragments fragments remaining out) = true
  ∧ (String.length (push_fragments fragments remaining out) ≤ String.length out + remaining)%nat
  ∧ ((foldr (λ f n, String.length f + n) 0 fragments ≤ remaining)%nat →
     push_fragments fragments remaining out = out +:+ foldr String.append EmptyString fragments).
Proof.
  induction fragments as [|f fs IH]; intros remaining out Hfs Hout; cbn [push_fragments].
  { split_and!; [done|lia|]. intros _. simpl. by rewrite string_app_nil_r. }
  apply Forall_cons in Hfs as [Hf Hfs].
  destruct (floor_boundary_spec f (remaining `min` String.length f)) as (Hle & _ & _).
  destruct (floor_boundary_cut f (remaining `min` String.length f) Hf) as [Hsub _]; [lia|].
  pose proof (floor_boundary_end f) as Hend.
  set (n := floor_boundary f (remaining `min` String.length f)) in *.
  assert (Hsl : String.length (String.substring 0 n f) = n) by (apply substring_length; lia).
  assert (Hv : valid_utf8 (out +:+ String.substring 0 n f) = true) by (by apply valid_utf8_app).
  destruct (Nat.ltb_spec n (String.length f)) as [Hlt|Hge].
  - split_and!; [done|rewrite string_length_app, Hsl; lia|].
    simpl. intros Hfit. unfold n in Hlt. rewrite Nat.min_r in Hlt by lia. lia.
  - destruct (IH (remaining - n)%nat (out +:+ String.substring 0 n f) Hfs Hv) as (H1 & H2 & H3).
    rewrite string_length_app, Hsl in H2. split_and!; [done|lia|].
    simpl. intros Hfit. rewrite H3 by lia.
    replace n with (String.length f) by lia. rewrite substring_full.
    by rewrite <- string_app_assoc.
Qed.

Lemma push_fragments_prefix fragments : ∀ remaining out,
  ∃ q, out +:+ foldr String.append EmptyString fragments
       = push_fragments fragments remaining out +:+ q.
Proof.
  induction fragments as [|f fs IH]; intros remaining out; cbn [push_fragments].
  { exists EmptyString. by rewrite !string_app_nil_r. }
  set (n := floor_boundary f (remaining `min` String.length f)). cbn [foldr].
  destruct (Nat.ltb_spec n (String.length f)) as [Hlt|Hge].
  - destruct (substring_cut n f) as [t Ht]. exists (t +:+ foldr String.append EmptyString fs).
    rewrite Ht at 1. by rewrite <- !string_app_assoc.
  - destruct (IH (remaining - n)%nat (out +:+ String.substring 0 n f)) as [q Hq].
    exists q. rewrite <- Hq, substring_ge by lia. by rewrite <- string_app_assoc.
Qed.

(** The rendering of all lines, without a bound. *)
Definition numbered_line (start_line index : Z) (line : string) : string :=
  number_prefix (saturating_add_usize (saturating_add_usize start_line index) 1)
  +:+ (line +:+ newline).

Fixpoint numbered (start_line index : Z) (ls : list string) : string :=
  match ls with
  | [] => EmptyString
  | line :: ls => numbered_line start_line index line +:+ numbered start_line (index + 1) ls
  end.

Lemma number_prefix_valid n : 0 ≤ n → valid_utf8 (number_prefix n) = true.
Proof.
  intros Hn. apply ascii_only_valid. unfold number_prefix. rewrite !ascii_only_app.
  assert (∀ k, ascii_only (spaces k) = true) as -> by (induction k; simpl; auto).
  rewrite (ascii_only_all (pretty n)), pretty_digits by done. done.
Qed.

Lemma numbered_line_length start_line index line :
  String.length (numbered_line start_line index line)
  = (String.length (number_prefix
       (saturating_add_usize (saturating_add_usize start_line index) 1))
     + String.length line + 1)%nat.
Proof. unfold numbered_line. rewrite !string_length_app. simpl. lia. Qed.

(** One line pushed into the room the budget leaves. *)
Lemma push_line start_line index line budget out :
  0 ≤ start_line → 0 ≤ index → valid_utf8 line = true → valid_utf8 out = true →
  (String.length out ≤ budget)%nat →
  let prefix := number_prefix
    (saturating_add_usize (saturating_add_usize start_line index) 1) in
  let out1 := push_fragments [prefix; line; newline] (budget - String.length out) out in
  let whole := out +:+ numbered_line start_line index line in
  valid_utf8 out1 = true ∧ (String.length out1 ≤ budget)%nat
  ∧ (∃ q, whole = out1 +:+ q) ∧ ((String.length whole ≤ budget)%nat → out1 = whole).
Proof.
  intros Hs Hi Hline Hout Hlen prefix out1 whole.
  assert (Hpre : valid_utf8 prefix = true)
    by (apply number_prefix_valid; unfold saturating_add_usize, U64_MAX; lia).
  assert (Hwhole : whole = out +:+ foldr String.append EmptyString [prefix; line; newline])
    by (unfold whole, numbered_line; cbn [foldr]; by rewrite string_app_nil_r).
  destruct (push_fragments_spec [prefix; line; newline] (budget - String.length out) out)
    as (Hv1 & Hl1 & Hfit); [by repeat constructor|done|]. fold out1 in Hv1, Hl1, Hfit.
  destruct (push_fragments_prefix [prefix; line; newline] (budget - String.length out) out)
    as [q Hq]. fold out1 in Hq.
  rewrite Hwhole. split_and!; [done|lia|eauto|]. intros Hle. apply Hfit. rewrite <- Hwhole in Hle.
  unfold whole in Hle. rewrite string_length_app, numbered_line_length in Hle.
  fold prefix in Hle. cbn [foldr String.length newline]. lia.
Qed.

Lemma line_truncated_iff start_line index line budget out :
  Z.of_nat budget < U64_MAX → (String.length out ≤ budget)%nat →
  (Z.of_nat (budget - String.length out) <? saturating_add_usize (saturating_add_usize
     (len (number_prefix (saturating_add_usize (saturating_add_usize start_line index) 1)))
     (len line)) 1)
  = (budget <? String.length (out +:+ numbered_line start_line index line))%nat.
Proof.
  intros HU Hlen. rewrite string_length_app, numbered_line_length.
  unfold len. generalize (String.length (number_prefix
    (saturating_add_usize (saturating_add_usize start_line index) 1))). intros n.
  unfold saturating_add_usize, U64_MAX in *. apply eq_bool_prop_intro.
  rewrite !Is_true_true, Z.ltb_lt, Nat.ltb_lt. lia.
Qed.

Lemma marker_valid k : valid_utf8 (String.substring 0 k RENDERED_TRUNCATION_MARKER) = true.
Proof.
  apply ascii_only_valid. assert (ascii_only RENDERED_TRUNCATION_MARKER = true) as H by done.
  destruct (substring_cut k RENDERED_TRUNCATION_MARKER) as [t Ht]. rewrite Ht in H.
  rewrite ascii_only_app in H. by apply andb_true_iff in H as [? _].
Qed.

(** What the rendering of the lines of [full] guarantees. *)
Definition rendered_ok (full : string) (lines_done : Z) (max_bytes budget : nat)
    (r : string * Z * bool) : Prop :=
  let '(out, count, cut) := r in
  valid_utf8 out = true ∧ (String.length out ≤ max_bytes)%nat
  ∧ cut = (budget <? String.length full)%nat
  ∧ (cut = false → out = full ∧ count = lines_done)
  ∧ (cut = true → ∃ p q k, full = p +:+ q ∧ (String.length p ≤ budget)%nat
                  ∧ out = p +:+ String.substring 0 k RENDERED_TRUNCATION_MARKER).

Lemma render_loop_spec start_line max_bytes budget ls : ∀ index out count,
  0 ≤ start_line → 0 ≤ index → 0 ≤ count → (budget ≤ max_bytes)%nat →
  Z.of_nat budget < U64_MAX → count + Z.of_nat (length ls) ≤ U64_MAX →
  Forall (λ l, valid_utf8 l = true) ls → valid_utf8 out = true →
  (String.length out ≤ budget)%nat →
  rendered_ok (out +:+ numbered start_line index ls) (count + Z.of_nat (length ls))
    max_bytes budget (render_loop start_line max_bytes budget index ls out count).
Proof.
  induction ls as [|line ls IH];
    intros index out count Hs Hi Hc Hmax HU Hcount Hls Hout Hlen; cbn [numbered render_loop].
  { unfold rendered_ok. rewrite string_app_nil_r, (proj2 (Nat.ltb_ge _ _)) by done.
    split_and!; [done|lia|done| |done]. intros _. split; [done|simpl; lia]. }
  apply Forall_cons in Hls as [Hline Hls]. cbv zeta.
  rewrite line_truncated_iff by done.
  destruct (push_line start_line index line budget out) as (Hv1 & Hl1 & [q Hq] & Hfit);
    [done..|].
  set (out1 := push_fragments _ _ out) in *.
  rewrite string_app_assoc.
  destruct (Nat.ltb_spec budget (String.length (out +:+ numbered_line start_line index line)))
    as [Hcut|Hcut].
  - split_and!; [by apply valid_utf8_app, marker_valid| | |done|].
    + rewrite string_length_app, substring_length by (unfold marker_room; lia).
      unfold marker_room. lia.
    + symmetry. apply Nat.ltb_lt. rewrite string_length_app. lia.
    + intros _. exists out1, (q +:+ numbered start_line (index + 1) ls),
        (marker_room max_bytes out1). split_and!; [|lia|done].
      rewrite Hq. by rewrite <- string_app_assoc.
  - rewrite string_length_app, numbered_line_length in Hcut.
    rewrite (proj2 (Nat.ltb_lt _ _)) by lia. cbn [length] in Hcount |- *.
    replace (saturating_add_usize count 1) with (count + 1)
      by (unfold saturating_add_usize; lia).
    rewrite Hfit in *
      by (rewrite string_length_app, numbered_line_length; lia).
    replace (count + Z.of_nat (S (length ls))) with (count + 1 + Z.of_nat (length ls)) by lia.
    apply IH; try done; lia.
Qed.

Lemma strip_cr_valid line : valid_utf8 line = true → valid_utf8 (strip_cr line) = true.
Proof.
  intros Hv. unfold strip_cr. destruct (String.length line) as [|n]; [done|].
  destruct (String.get n line) as [c|] eqn:Hg; [|done].
  destruct (Ascii.eqb_spec c (ascii_of_nat 13)) as [->|]; [|done].
  apply valid_utf8_prefix; [done|]. unfold boundary_at. by rewrite Hg.
Qed.

Lemma lines_from_valid s : ∀ current,
  valid_utf8 (current +:+ s) = true → Forall (λ l, valid_utf8 l = true) (lines_from current s).
Proof.
  induction s as [|c s IH]; intros current Hv; cbn [lines_from].
  { rewrite string_app_nil_r in Hv. destruct current; by repeat constructor. }
  destruct (Ascii.eqb_spec c (ascii_of_nat 10)) as [->|].
  - change (String (ascii_of_nat 10) s) with (newline +:+ s) in Hv.
    apply valid_utf8_cut in Hv as [Hc Hs]; [|done..].
    constructor; [by apply strip_cr_valid|by apply IH].
  - apply IH. by rewrite <- string_app_assoc, string_app_cons.
Qed.

(** ** Properties *)

(** C26.  The checked edit.  For texts in UTF-8 it returns without panicking.  When it
    succeeds the text was cut at the leftmost matches that do not overlap, each match and
    nothing else was replaced, the result is UTF-8 and has exactly the announced size, within
    every limit, and there was exactly one match unless all were to be replaced.  When it
    fails the error says what is the case. *)
Theorem edit_outcome (original : string) (a : EditArgs) (limits : TextLimits) :
  valid_utf8 original = true → valid_utf8 (old_string a) = true →
  valid_utf8 (new_string a) = true → len original ≤ ISIZE_MAX →
  ∃ r, edit original a limits = Some r
    ∧ match r with
      | Ok o => edit_done original a limits o
      | Err e => edit_error original a limits e
      end.
Proof. exact (edit_cases original a limits). Qed.

Lemma edit_outcome_witness :
  edit_done "let x = x;" (mkEditArgs "x" "yy" true) (mkLimits None (Some 12) None)
    (mkEditOutcome "let yy = yy;" 2 12).
Proof.
  destruct (edit_outcome "let x = x;" (mkEditArgs "x" "yy" true) (mkLimits None (Some 12) None))
    as (r & Hr & H); [vm_compute; reflexivity..|unfold len, ISIZE_MAX; simpl; lia|].
  vm_compute in Hr. injection Hr as <-. exact H.
Defined.

(** The numbered rendering stays within its byte bound and is UTF-8.  If the numbered
    lines fit below the bound less the truncation marker, the body is exactly those lines;
    otherwise it is marked as truncated and consists of a prefix of them followed by the
    part of the marker that fits. *)
Theorem render_within_bound (text : string) (start_line total : Z) (was_truncated : bool)
    (max_bytes : nat) :
  valid_utf8 text = true → 0 ≤ start_line → Z.of_nat max_bytes ≤ U64_MAX →
  Z.of_nat (length (lines text)) ≤ U64_MAX →
  let r := render_numbered text start_line total was_truncated max_bytes in
  let budget := (max_bytes - String.length RENDERED_TRUNCATION_MARKER)%nat in
  let full := numbered start_line 0 (lines text) in
  valid_utf8 (body r) = true ∧ (String.length (body r) ≤ max_bytes)%nat
  ∧ ((String.length full ≤ budget)%nat →
     body r = full ∧ line_count r = Z.of_nat (length (lines text))
     ∧ truncated r = (0 <? start_line) || was_truncated)
  ∧ ((budget < String.length full)%nat →
     truncated r = true
     ∧ ∃ p q k, full = p +:+ q ∧ (String.length p ≤ budget)%nat
         ∧ body r = p +:+ String.substring 0 k RENDERED_TRUNCATION_MARKER).
Proof.
  intros Hv Hs Hmax Hlines. cbv zeta. unfold render_numbered.
  set (budget := (max_bytes - String.length RENDERED_TRUNCATION_MARKER)%nat).
  assert (Hb : (budget ≤ max_bytes)%nat ∧ Z.of_nat budget < U64_MAX).
  { unfold budget. simpl (String.length RENDERED_TRUNCATION_MARKER). unfold U64_MAX in *. lia. }
  pose proof (render_loop_spec start_line max_bytes budget (lines text) 0 EmptyString 0) as H.
  change (EmptyString +:+ numbered start_line 0 (lines text))
    with (numbered start_line 0 (lines text)) in H.
  destruct (render_loop _ _ _ _ _ _ _) as [[out count] cut].
  destruct H as (Hval & Hlen & -> & Hfit & Hcut);
    [lia|lia|lia|lia|lia|lia|by apply lines_from_valid|done|simpl; lia|].
  cbn [body line_count truncated]. split_and!; [done|done| |].
  - intros Hle. rewrite (proj2 (Nat.ltb_ge _ _)) in * by lia.
    destruct (Hfit eq_refl) as [-> ->]. by rewrite orb_false_r.
  - intros Hgt. rewrite (proj2 (Nat.ltb_lt _ _)) in * by lia.
    split; [by rewrite orb_true_r|auto].
Qed.

Lemma render_within_bound_witness :
  valid_utf8 (body (render_numbered "ab" 0 1 false 20)) = true
  ∧ (String.length (body (render_numbered "ab" 0 1 false 20)) ≤ 20)%nat.
Proof.
  destruct (render_within_bound "ab" 0 1 false 20) as (H1 & H2 & _);
    [vm_compute; reflexivity|lia|unfold U64_MAX; lia|unfold U64_MAX; simpl; lia|].
  exact (conj H1 H2).
Defined.

End TextEdit.
