(* ===== verification/Subscription.v ===== *)
(** * Event subscriptions

    Models the transport contract of [src/crates/protocol/src/subscription.rs]: identifiers,
    canonical worker selections, selectors, and the validation of requests, responses,
    snapshots and events, alone and against a selector.  The newtypes around strings are
    strings.  The payloads the validation does not look at (worker methods, worker events,
    worker state snapshots) are type arguments; the wire format is not modelled. *)
From Stdlib Require Import ZArith String Ascii List Lia.
From stdpp Require Import base tactics numbers list strings sorting.
From S2P Require Import Prelude BTree.

Module Subscription.

Definition SUBSCRIPTION_PROTOCOL_VERSION : Z := 2.
Definition MAX_CORRELATION_ID_BYTES : Z := 128.
Definition MAX_RESOURCE_ID_BYTES : Z := 256.
Definition MAX_WORKER_IDS_PER_SELECTOR : Z := 256.
Definition MAX_REJECTION_MESSAGE_BYTES : Z := 1024.

Inductive SubscriptionValidationError :=
| UnsupportedProtocolVersion (actual : Z)
| EmptyIdentifier (field : string)
| IdentifierTooLong (field : string) (max_bytes : Z)
| InvalidIdentifier (field : string)
| EmptyWorkerSelection
| TooManyWorkers (max : Z)
| DuplicateWorkerId (worker_id : string)
| EmptyRejectionMessage
| RejectionMessageTooLong (max_bytes : Z)
| SelectorSnapshotMismatch
| SelectorEventMismatch
| UnselectedWorker (worker_id : string).

Abbreviation check := (result unit SubscriptionValidationError).

(** ** Identifiers *)

(** [char::is_control]. *)
Definition is_control (c : Z) : bool := (c <? 32) || ((127 <=? c) && (c <? 160)).

(** [value.trim() != value]: the first or the last character is white space. *)
Definition trim_changes (value : string) : bool :=
  match chars value with
  | [] => false
  | c :: cs => is_whitespace c || is_whitespace (List.last (c :: cs) 0)
  end.

Definition str_len (s : string) : Z := Z.of_nat (String.length s).

Definition validate_identifier (field value : string) (max_bytes : Z) : check :=
  if bool_decide (value = EmptyString) then Err (EmptyIdentifier field)
  else if max_bytes <? str_len value then Err (IdentifierTooLong field max_bytes)
  else if trim_changes value || existsb is_control (chars value)
  then Err (InvalidIdentifier field)
  else Ok tt.

(** The [validate] methods of the identifier types. *)
Definition validate_request_id (v : string) : check :=
  validate_identifier "request_id" v MAX_CORRELATION_ID_BYTES.
Definition validate_subscription_id (v : string) : check :=
  validate_identifier "subscription_id" v MAX_CORRELATION_ID_BYTES.
Definition validate_worker_id (v : string) : check :=
  validate_identifier "worker_id" v MAX_RESOURCE_ID_BYTES.
Definition validate_workdir_id (v : string) : check :=
  validate_identifier "working_directory_id" v MAX_RESOURCE_ID_BYTES.

(** [if let Some(v) = v { validate(v)?; }]. *)
Definition validate_option {A} (f : A → check) (v : option A) : check :=
  match v with Some v => f v | None => Ok tt end.

Definition is_ascii_lowercase (c : ascii) : bool :=
  (97 <=? byte_of c) && (byte_of c <=? 122).

Definition is_ascii_digit (c : ascii) : bool := (48 <=? byte_of c) && (byte_of c <=? 57).

Definition validate_repository_key (value : string) : check :=
  if bool_decide (value = EmptyString)
     || (64 <? str_len value)
     || bool_decide (String.get 0 value = Some "-"%char)
     || bool_decide (String.get (String.length value - 1) value = Some "-"%char)
     || negb (all_chars (λ c, is_ascii_lowercase c || is_ascii_digit c || Ascii.eqb c "-") value)
  then Err (InvalidIdentifier "repository_key")
  else Ok tt.

Definition validate_rejection_message (message : string) : check :=
  if bool_decide (message = EmptyString) then Err EmptyRejectionMessage
  else if MAX_REJECTION_MESSAGE_BYTES <? str_len message
  then Err (RejectionMessageTooLong MAX_REJECTION_MESSAGE_BYTES)
  else Ok tt.

(** [for x in l { f(x)?; }]. *)
Fixpoint validate_all {A} (f : A → check) (l : list A) : check :=
  match l with
  | [] => Ok tt
  | x :: r => let? _ := f x in validate_all f r
  end.

(** ** Worker selections *)

(** The first equal neighbours of the loop over [windows(2)]. *)
Fixpoint equal_neighbours (l : list string) : option string :=
  match l with
  | x :: ((y :: _) as r) => if String.eqb x y then Some x else equal_neighbours r
  | _ => None
  end.

(** [SubscriptionWorkerIds::new]; the type is the sorted vector. *)
Definition worker_ids_new (worker_ids : list string)
  : result (list string) SubscriptionValidationError :=
  if bool_decide (worker_ids = []) then Err EmptyWorkerSelection
  else if MAX_WORKER_IDS_PER_SELECTOR <? Z.of_nat (length worker_ids)
  then Err (TooManyWorkers MAX_WORKER_IDS_PER_SELECTOR)
  else
    let? _ := validate_all validate_worker_id worker_ids in
    let sorted := sort_unstable worker_ids in
    match equal_neighbours sorted with
    | Some id => Err (DuplicateWorkerId id)
    | None => Ok sorted
    end.

(** [slice::binary_search(x).is_ok()]: the loop halves [size] elements from [base] on; the
    recursion is bounded by [fuel], for which the length of the slice is enough. *)
Fixpoint search_loop (l : list string) (x : string) (fuel base size : nat) : nat :=
  match fuel with
  | O => base
  | S fuel =>
      if (size <=? 1)%nat then base
      else
        let half := (size / 2)%nat in
        let mid := (base + half)%nat in
        let base := match String.compare (nth mid l EmptyString) x with
                    | Gt => base | _ => mid end in
        search_loop l x fuel base (size - half)
  end.

Definition binary_search_is_ok (l : list string) (x : string) : bool :=
  match length l with
  | O => false
  | size =>
      let base := search_loop l x size 0 size in
      match String.compare (nth base l EmptyString) x with Eq => true | _ => false end
  end.

Definition worker_ids_contains (worker_ids : list string) (id : string) : bool :=
  binary_search_is_ok worker_ids id.

Definition worker_ids_validate (worker_ids : list string) : check :=
  let? _ := worker_ids_new worker_ids in Ok tt.

(** ** Selectors *)

Inductive EventSubscriptionSelector :=
| RuntimeWorkers
| WorkerLifecycle (worker_ids : list string)
| SelectWorkerProtocol (worker_id : string) (runtime_id : option string)
| WorkspaceWorkers
| SelectWorkspaceWorkdirs.

Definition validate_runtime_id (runtime_id : string) : check :=
  validate_identifier "runtime_id" runtime_id MAX_RESOURCE_ID_BYTES.

Definition selector_validate (s : EventSubscriptionSelector) : check :=
  match s with
  | WorkerLifecycle worker_ids => worker_ids_validate worker_ids
  | SelectWorkerProtocol worker_id runtime_id =>
      let? _ := validate_worker_id worker_id in
      validate_option validate_runtime_id runtime_id
  | RuntimeWorkers | WorkspaceWorkers | SelectWorkspaceWorkdirs => Ok tt
  end.

Definition selects_worker (s : EventSubscriptionSelector) (worker_id : string) : bool :=
  match s with
  | RuntimeWorkers | WorkspaceWorkers => true
  | WorkerLifecycle worker_ids => worker_ids_contains worker_ids worker_id
  | SelectWorkerProtocol selected _ => String.eqb selected worker_id
  | SelectWorkspaceWorkdirs => false
  end.

(** ** Workers and work directories *)

Inductive SubscriptionWorkerState := Idle | Running | Paused | Stopped.

Inductive SubscriptionWorkerAvailability := Observed | Unavailable.

Record SubscriptionWorkerWorkdirAttachment := mkAttachment {
  alias : string;
  att_repository_id : option string;
  att_repository_key : option string;
  att_working_directory_id : string
}.

Definition attachment_validate (a : SubscriptionWorkerWorkdirAttachment) : check :=
  let? _ := validate_identifier "workdir_attachment_alias" (alias a) MAX_RESOURCE_ID_BYTES in
  let? _ := validate_workdir_id (att_working_directory_id a) in
  match att_repository_id a, att_repository_key a with
  | Some repository_id, None =>
      validate_identifier "repository_id" repository_id MAX_RESOURCE_ID_BYTES
  | None, Some repository_key => validate_repository_key repository_key
  | None, None => Ok tt
  | Some _, Some _ => Err (InvalidIdentifier "repository_authority")
  end.

Record SubscriptionWorkerJob := mkJob { job_id : string; attempt_id : string; purpose : string }.

Definition job_validate (j : SubscriptionWorkerJob) : check :=
  let? _ := validate_identifier "job_id" (job_id j) MAX_RESOURCE_ID_BYTES in
  let? _ := validate_identifier "attempt_id" (attempt_id j) MAX_RESOURCE_ID_BYTES in
  validate_identifier "job_purpose" (purpose j) MAX_RESOURCE_ID_BYTES.

(** The loop over the attachments, with the aliases and ids seen so far. *)
Fixpoint attachments_validate (aliases workdir_ids : list string)
    (l : list SubscriptionWorkerWorkdirAttachment) : check :=
  match l with
  | [] => Ok tt
  | a :: r =>
      let? _ := attachment_validate a in
      if bool_decide (alias a ∈ aliases) then Err (InvalidIdentifier "workdir_attachment_alias")
      else if bool_decide (att_working_directory_id a ∈ workdir_ids)
      then Err (InvalidIdentifier "working_directory_id")
      else attachments_validate (alias a :: aliases) (att_working_directory_id a :: workdir_ids) r
  end.

Record SubscriptionWorkdir := mkWorkdir {
  sw_working_directory_id : string;
  sw_repository_id : option string;
  sw_repository_key : option string;
  sw_state : string
}.

Definition workdir_validate (w : SubscriptionWorkdir) : check :=
  let? _ := validate_workdir_id (sw_working_directory_id w) in
  let? _ := match sw_repository_id w, sw_repository_key w with
            | Some repository_id, None =>
                validate_identifier "repository_id" repository_id MAX_RESOURCE_ID_BYTES
            | None, Some repository_key => validate_repository_key repository_key
            | _, _ => Err (InvalidIdentifier "repository_authority")
            end in
  validate_identifier "workdir_state" (sw_state w) MAX_RESOURCE_ID_BYTES.

Record WorkspaceSubscriptionWorkdir := mkWorkspaceWorkdir {
  working_directory_id : string;
  repository_key : string;
  workdir_state : string
}.

Definition workspace_workdir_validate (w : WorkspaceSubscriptionWorkdir) : check :=
  let? _ := validate_workdir_id (working_directory_id w) in
  let? _ := validate_repository_key (repository_key w) in
  validate_identifier "workdir_state" (workdir_state w) MAX_RESOURCE_ID_BYTES.

Section messages.
Context {Method WorkerEvent WorkerStateSnapshot : Type}.

Record SubscriptionWorker := mkWorker {
  restore_observation_token : option string;
  worker_id : string;
  runtime_id : option string;
  resource_key : option string;
  availability : SubscriptionWorkerAvailability;
  worker_state : option WorkerStateSnapshot;
  state : SubscriptionWorkerState;
  has_running_internal_workers : bool;
  workspace_id : option string;
  display_name : option string;
  profile : option string;
  job : option SubscriptionWorkerJob;
  workdir_attachments : list SubscriptionWorkerWorkdirAttachment
}.

Definition worker_validate (w : SubscriptionWorker) : check :=
  let? _ := validate_worker_id (worker_id w) in
  let? _ := validate_option (λ token, validate_identifier "restore_observation_token" token
                                        MAX_RESOURCE_ID_BYTES) (restore_observation_token w) in
  let? _ := validate_option validate_runtime_id (runtime_id w) in
  let? _ := validate_option (λ key, validate_identifier "resource_key" key
                                      MAX_RESOURCE_ID_BYTES) (resource_key w) in
  let? _ := validate_option job_validate (job w) in
  attachments_validate [] [] (workdir_attachments w).

(** [validate_workers], with the pairs of runtime and worker id seen so far. *)
Fixpoint validate_workers_loop (seen : list (option string * string))
    (workers : list SubscriptionWorker) : check :=
  match workers with
  | [] => Ok tt
  | w :: r =>
      let? _ := worker_validate w in
      if bool_decide ((runtime_id w, worker_id w) ∈ seen)
      then Err (DuplicateWorkerId (worker_id w))
      else validate_workers_loop ((runtime_id w, worker_id w) :: seen) r
  end.

Definition validate_workers (workers : list SubscriptionWorker) : check :=
  validate_workers_loop [] workers.

(** ** Snapshots *)

Inductive SubscriptionSnapshot :=
| Workers (workers : list SubscriptionWorker)
| SnapshotWorkerProtocol (worker_id : string) (events : list WorkerEvent)
| SnapshotWorkspaceWorkdirs (workdirs : list WorkspaceSubscriptionWorkdir).

(** The loop over the workers of a lifecycle snapshot. *)
Definition validate_selected (worker_ids : list string) (workers : list SubscriptionWorker)
  : check :=
  validate_all (λ w, if negb (worker_ids_contains worker_ids (worker_id w))
                     then Err (UnselectedWorker (worker_id w)) else Ok tt) workers.

Definition snapshot_validate_for_selector (snapshot : SubscriptionSnapshot)
    (selector : EventSubscriptionSelector) : check :=
  let? _ := selector_validate selector in
  match selector, snapshot with
  | (RuntimeWorkers | WorkspaceWorkers), Workers workers => validate_workers workers
  | WorkerLifecycle worker_ids, Workers workers =>
      let? _ := validate_workers workers in validate_selected worker_ids workers
  | SelectWorkerProtocol selected _, SnapshotWorkerProtocol worker_id _ =>
      if String.eqb selected worker_id then validate_worker_id worker_id
      else Err SelectorSnapshotMismatch
  | SelectWorkspaceWorkdirs, SnapshotWorkspaceWorkdirs workdirs =>
      validate_all workspace_workdir_validate workdirs
  | _, _ => Err SelectorSnapshotMismatch
  end.

(** ** Event payloads *)

Inductive SubscriptionEventPayload :=
| WorkerUpserted (worker : SubscriptionWorker)
| WorkerRemoved (worker_id : string) (runtime_id : option string)
| PayloadWorkerProtocol (worker_id : string) (event : WorkerEvent)
| WorkdirUpserted (workdir : WorkspaceSubscriptionWorkdir)
| WorkdirRemoved (working_directory_id : string).

Definition payload_validate (p : SubscriptionEventPayload) : check :=
  match p with
  | WorkerUpserted worker => worker_validate worker
  | WorkerRemoved worker_id runtime_id =>
      let? _ := validate_worker_id worker_id in
      validate_option validate_runtime_id runtime_id
  | PayloadWorkerProtocol worker_id _ => validate_worker_id worker_id
  | WorkdirUpserted workdir => workspace_workdir_validate workdir
  | WorkdirRemoved working_directory_id => validate_workdir_id working_directory_id
  end.

Definition payload_validate_for_selector (p : SubscriptionEventPayload)
    (selector : EventSubscriptionSelector) : check :=
  let? _ := selector_validate selector in
  let? _ := payload_validate p in
  match selector, p with
  | (RuntimeWorkers | WorkspaceWorkers), (WorkerUpserted _ | WorkerRemoved _ _) => Ok tt
  | WorkerLifecycle worker_ids, WorkerUpserted worker =>
      if worker_ids_contains worker_ids (worker_id worker) then Ok tt
      else Err (UnselectedWorker (worker_id worker))
  | WorkerLifecycle worker_ids, WorkerRemoved worker_id _ =>
      if worker_ids_contains worker_ids worker_id then Ok tt
      else Err (UnselectedWorker worker_id)
  | SelectWorkerProtocol selected _, PayloadWorkerProtocol worker_id _ =>
      if String.eqb selected worker_id then Ok tt else Err SelectorEventMismatch
  | SelectWorkspaceWorkdirs, (WorkdirUpserted _ | WorkdirRemoved _) => Ok tt
  | _, _ => Err SelectorEventMismatch
  end.

(** ** Frames *)

Inductive SubscriptionTerminationCode := Lagged | ResourceGone | TerminationUnauthorized | ServerShutdown.

Inductive SubscriptionRejectionCode :=
| InvalidRequest | RejectionUnsupportedProtocolVersion | UnsupportedSelector | Unauthorized
| ResourceNotFound | CapacityExceeded | Internal.

Inductive SubscriptionEvent :=
| Event (subscription_id : string) (payload : SubscriptionEventPayload)
| SubscriptionClosed (subscription_id : string) (code : SubscriptionTerminationCode)
    (message : string).

Definition event_validate (e : SubscriptionEvent) : check :=
  match e with
  | Event subscription_id payload =>
      let? _ := validate_subscription_id subscription_id in payload_validate payload
  | SubscriptionClosed subscription_id _ message =>
      let? _ := validate_subscription_id subscription_id in validate_rejection_message message
  end.

Definition event_validate_for_selector (e : SubscriptionEvent)
    (selector : EventSubscriptionSelector) : check :=
  let? _ := event_validate e in
  match e with
  | Event _ payload => payload_validate_for_selector payload selector
  | SubscriptionClosed _ _ _ => Ok tt
  end.

Inductive SubscriptionRequest :=
| SubscribeEvents (request_id : string) (selector : EventSubscriptionSelector)
| UnsubscribeEvents (request_id subscription_id : string).

Definition request_validate (r : SubscriptionRequest) : check :=
  match r with
  | SubscribeEvents request_id selector =>
      let? _ := validate_request_id request_id in selector_validate selector
  | UnsubscribeEvents request_id subscription_id =>
      let? _ := validate_request_id request_id in validate_subscription_id subscription_id
  end.

Inductive SubscriptionResponse :=
| Subscribed (request_id subscription_id : string) (selector : EventSubscriptionSelector)
    (snapshot : SubscriptionSnapshot)
| Unsubscribed (request_id subscription_id : string)
| SubscriptionRejected (request_id : string) (subscription_id : option string)
    (code : SubscriptionRejectionCode) (message : string).

Definition response_validate (r : SubscriptionResponse) : check :=
  match r with
  | Subscribed request_id subscription_id selector snapshot =>
      let? _ := validate_request_id request_id in
      let? _ := validate_subscription_id subscription_id in
      let? _ := selector_validate selector in
      snapshot_validate_for_selector snapshot selector
  | Unsubscribed request_id subscription_id =>
      let? _ := validate_request_id request_id in validate_subscription_id subscription_id
  | SubscriptionRejected request_id subscription_id _ message =>
      let? _ := validate_request_id request_id in
      let? _ := validate_option validate_subscription_id subscription_id in
      validate_rejection_message message
  end.

Inductive SubscriptionFramePayload :=
| Request (request : SubscriptionRequest)
| Response (response : SubscriptionResponse)
| EventFrame (event : SubscriptionEvent)
| WorkerProtocolFrame (subscription_id : string) (method : Method).

Definition frame_payload_validate (p : SubscriptionFramePayload) : check :=
  match p with
  | Request request => request_validate request
  | Response response => response_validate response
  | EventFrame event => event_validate event
  | WorkerProtocolFrame subscription_id _ => validate_subscription_id subscription_id
  end.

Record SubscriptionFrame := mkFrame {
  protocol_version : Z;
  payload : SubscriptionFramePayload
}.

Definition frame_new (p : SubscriptionFramePayload) : SubscriptionFrame :=
  mkFrame SUBSCRIPTION_PROTOCOL_VERSION p.

Definition frame_validate (f : SubscriptionFrame) : check :=
  if negb (protocol_version f =? SUBSCRIPTION_PROTOCOL_VERSION)
  then Err (UnsupportedProtocolVersion (protocol_version f))
  else frame_payload_validate (payload f).

End messages.
Arguments SubscriptionWorker : clear implicits.
Arguments SubscriptionSnapshot : clear implicits.
Arguments SubscriptionEventPayload : clear implicits.
Arguments SubscriptionEvent : clear implicits.
Arguments SubscriptionResponse : clear implicits.
Arguments SubscriptionFramePayload : clear implicits.
Arguments SubscriptionFrame : clear implicits.

(** ** Lemmas: sorting and searching *)

Lemma equal_neighbours_spec l :
  StronglySorted str_le l →
  match equal_neighbours l with
  | None => StronglySorted str_lt l
  | Some x => ¬ NoDup l ∧ x ∈ l
  end.
Proof.
  induction 1 as [|x l Hl IH Hx]; simpl; [constructor|].
  destruct l as [|y l]; [by repeat constructor|].
  destruct (String.eqb_spec x y) as [->|Hne].
  { split; [|by left]. rewrite NoDup_cons. intros [H _]. apply H. by left. }
  destruct (equal_neighbours (y :: l)) as [z|].
  - destruct IH as [IH Hz]. split; [|by right]. rewrite NoDup_cons. tauto.
  - constructor; [done|]. inversion_clear Hx as [|?? Hxy Hxl].
    assert (str_lt x y) by (apply str_le_cases in Hxy as [|]; done).
    constructor; [done|]. inversion_clear IH as [|?? _ Hyl].
    eapply Forall_impl; [exact Hyl|]. intros z Hz. by eapply str_lt_trans.
Qed.

Lemma sorted_lookup l i j a b :
  StronglySorted str_lt l → l !! i = Some a → l !! j = Some b → (i < j)%nat → str_lt a b.
Proof.
  intros Hs. revert i j. induction Hs as [|x l Hl IH Hx]; intros i j Hi Hj Hij; [done|].
  destruct i as [|i], j as [|j]; simplify_eq/=; try lia; [|eapply IH; [done..|lia]].
  rewrite Forall_forall in Hx. apply Hx. by eapply list_elem_of_lookup_2.
Qed.

Lemma search_loop_bounds l x : ∀ fuel base size,
  (0 < size)%nat → (base ≤ search_loop l x fuel base size < base + size)%nat.
Proof.
  induction fuel as [|fuel IH]; intros base size Hs; cbn [search_loop]; [lia|].
  destruct (Nat.leb_spec size 1); [lia|].
  pose proof (Nat.div_lt size 2 ltac:(lia) ltac:(lia)).
  pose proof (Nat.div_str_pos size 2 ltac:(lia)).
  destruct (String.compare _ x);
    match goal with |- context [search_loop l x fuel ?b ?s] =>
      specialize (IH b s ltac:(lia)) end; lia.
Qed.

Lemma search_loop_finds l x i : StronglySorted str_lt l → l !! i = Some x →
  ∀ fuel base size, (size ≤ fuel)%nat → (base ≤ i < base + size)%nat →
  (base + size ≤ length l)%nat → search_loop l x fuel base size = i.
Proof.
  intros Hs Hi. induction fuel as [|fuel IH]; intros base size Hf Hb Hl; cbn [search_loop]; [lia|].
  destruct (Nat.leb_spec size 1); [lia|].
  pose proof (Nat.div_lt size 2 ltac:(lia) ltac:(lia)).
  pose proof (Nat.div_str_pos size 2 ltac:(lia)).
  pose proof (Nat.Div0.mul_div_le size 2).
  destruct (lookup_lt_is_Some_2 l (base + size / 2)) as [y Hy]; [lia|].
  rewrite (nth_lookup_Some _ _ _ _ Hy). destruct (String.compare y x) eqn:Hc.
  - apply str_compare_eq in Hc as ->. apply IH; try lia.
    split; [|lia]. destruct (decide (base + size / 2 ≤ i)%nat); [done|].
    exfalso. apply (str_lt_irrefl x). eapply (sorted_lookup l i); [done..|lia].
  - apply IH; try lia. split; [|lia].
    destruct (decide (base + size / 2 ≤ i)%nat); [done|].
    exfalso. apply (str_lt_irrefl x). eapply str_lt_trans; [|exact Hc].
    eapply (sorted_lookup l i); [done..|lia].
  - apply str_compare_gt in Hc. apply IH; try lia. split; [lia|].
    destruct (decide (i < base + size / 2)%nat); [lia|].
    exfalso. destruct (decide (i = base + size / 2)%nat) as [->|]; [simplify_eq|].
    { by apply str_lt_irrefl in Hc. }
    apply (str_lt_irrefl x). eapply str_lt_trans; [exact Hc|].
    eapply (sorted_lookup l (base + size / 2) i); [done..|lia].
Qed.

Lemma contains_elem l x :
  StronglySorted str_lt l → worker_ids_contains l x = true ↔ x ∈ l.
Proof.
  intros Hs. unfold worker_ids_contains, binary_search_is_ok.
  destruct (length l) as [|n] eqn:Hl.
  { apply length_zero_iff_nil in Hl as ->. split; [done|by intros ?%not_elem_of_nil]. }
  split.
  - intros Hc. pose proof (search_loop_bounds l x (S n) 0 (S n) ltac:(lia)) as Hb.
    destruct (lookup_lt_is_Some_2 l (search_loop l x (S n) 0 (S n))) as [y Hy]; [lia|].
    rewrite (nth_lookup_Some _ _ _ _ Hy) in Hc.
    destruct (String.compare y x) eqn:He; [|done..]. apply str_compare_eq in He as <-.
    by eapply list_elem_of_lookup_2.
  - intros [i Hi]%list_elem_of_lookup. pose proof (lookup_lt_Some _ _ _ Hi).
    rewrite (search_loop_finds l x i Hs Hi (S n) 0 (S n)) by lia.
    rewrite (nth_lookup_Some _ _ _ _ Hi). by rewrite str_compare_refl.
Qed.

(** ** Lemmas: validation *)

Lemma validate_all_Ok {A} (f : A → check) l :
  validate_all f l = Ok tt ↔ Forall (λ x, f x = Ok tt) l.
Proof.
  induction l as [|x l IH]; simpl; [done|]. rewrite Forall_cons, <- IH.
  destruct (f x) as [[]|e]; naive_solver.
Qed.

Lemma worker_ids_new_Ok ids w :
  worker_ids_new ids = Ok w ↔
  ids ≠ [] ∧ Z.of_nat (length ids) ≤ MAX_WORKER_IDS_PER_SELECTOR
  ∧ Forall (λ id, validate_worker_id id = Ok tt) ids ∧ NoDup ids ∧ w = sort_unstable ids.
Proof.
  unfold worker_ids_new. rewrite <- validate_all_Ok.
  case_bool_decide; [naive_solver|].
  destruct (Z.ltb_spec MAX_WORKER_IDS_PER_SELECTOR (Z.of_nat (length ids))) as [|Hle].
  { split; [done|]. intros (_ & ? & _). lia. }
  destruct (validate_all _ ids) as [[]|e]; [|naive_solver].
  pose proof (equal_neighbours_spec _ (sort_sorted ids)) as Hn.
  destruct (equal_neighbours (sort_unstable ids)) as [x|].
  - split; [done|]. intros (_ & _ & _ & Hnd & _). destruct Hn as [Hn _]. destruct Hn.
    by rewrite sort_perm.
  - assert (NoDup ids).
    { rewrite <- (sort_perm ids). by apply sorted_NoDup. }
    split; [intros [= <-]; done|]. intros (_ & _ & _ & _ & ->). done.
Qed.

(** The selections the type can hold: [SubscriptionWorkerIds::new] is its only constructor. *)
Definition canonical (ids : list string) : Prop := StronglySorted str_lt ids.

Lemma sort_canonical ids : NoDup ids → canonical (sort_unstable ids).
Proof. apply sort_strict. Qed.

Definition canonical_selector (s : EventSubscriptionSelector) : Prop :=
  match s with WorkerLifecycle ids => canonical ids | _ => True end.

(** The workers a selector follows the lifecycle of. *)
Definition follows (s : EventSubscriptionSelector) (id : string) : Prop :=
  match s with
  | RuntimeWorkers | WorkspaceWorkers => True
  | WorkerLifecycle ids => id ∈ ids
  | SelectWorkerProtocol _ _ | SelectWorkspaceWorkdirs => False
  end.

Section message_lemmas.
Context {WorkerEvent WorkerStateSnapshot : Type}.

Abbreviation worker := (SubscriptionWorker WorkerStateSnapshot).

(** What belongs to a subscription. *)
Definition event_belongs (s : EventSubscriptionSelector)
    (p : SubscriptionEventPayload WorkerEvent WorkerStateSnapshot) : Prop :=
  match p with
  | WorkerUpserted w => follows s (worker_id w)
  | WorkerRemoved id _ => follows s id
  | PayloadWorkerProtocol id _ => ∃ rt, s = SelectWorkerProtocol id rt
  | WorkdirUpserted _ | WorkdirRemoved _ => s = SelectWorkspaceWorkdirs
  end.

Definition snapshot_belongs (s : EventSubscriptionSelector)
    (snapshot : SubscriptionSnapshot WorkerEvent WorkerStateSnapshot) : Prop :=
  match snapshot with
  | Workers ws =>
      Forall (λ w : worker, worker_validate w = Ok tt) ws
      ∧ NoDup ((λ w : worker, (runtime_id w, worker_id w)) <$> ws)
      ∧ match s with
        | RuntimeWorkers | WorkspaceWorkers => True
        | WorkerLifecycle ids => Forall (λ w : worker, worker_id w ∈ ids) ws
        | _ => False
        end
  | SnapshotWorkerProtocol id _ => ∃ rt, s = SelectWorkerProtocol id rt
  | SnapshotWorkspaceWorkdirs ws =>
      s = SelectWorkspaceWorkdirs ∧ Forall (λ w, workspace_workdir_validate w = Ok tt) ws
  end.

Lemma not_seen_cons (w : worker) (ws : list worker) seen :
  Forall (λ w' : worker, (runtime_id w', worker_id w') ∉ ((runtime_id w, worker_id w) :: seen)) ws
  ↔ ((runtime_id w, worker_id w) ∉ (λ w : worker, (runtime_id w, worker_id w)) <$> ws)
    ∧ Forall (λ w' : worker, (runtime_id w', worker_id w') ∉ seen) ws.
Proof.
  induction ws as [|w' ws IH].
  { rewrite !Forall_nil. split; [|done]. intros _. split; [apply not_elem_of_nil|done]. }
  rewrite fmap_cons, !Forall_cons, !not_elem_of_cons, IH.
  assert ((runtime_id w, worker_id w) ≠ (runtime_id w', worker_id w')
          ↔ (runtime_id w', worker_id w') ≠ (runtime_id w, worker_id w)) by (split; congruence).
  tauto.
Qed.

Lemma validate_workers_loop_Ok (ws : list worker) : ∀ seen,
  validate_workers_loop seen ws = Ok tt ↔
  Forall (λ w : worker, worker_validate w = Ok tt) ws
  ∧ NoDup ((λ w : worker, (runtime_id w, worker_id w)) <$> ws)
  ∧ Forall (λ w : worker, (runtime_id w, worker_id w) ∉ seen) ws.
Proof.
  induction ws as [|w ws IH]; intros seen.
  { simpl. split; [by repeat constructor|done]. }
  cbn [validate_workers_loop]. rewrite fmap_cons, NoDup_cons, !Forall_cons.
  destruct (worker_validate w) as [[]|e]; [|split; [done|by intros ([? _] & _)]].
  case_bool_decide as Hin; [split; [done|by intros (_ & _ & ? & _)]|]. rewrite IH.
  rewrite (not_seen_cons w ws seen). tauto.
Qed.

Lemma validate_selected_Ok ids (ws : list worker) :
  canonical ids →
  validate_selected ids ws = Ok tt ↔ Forall (λ w : worker, worker_id w ∈ ids) ws.
Proof.
  intros Hc. unfold validate_selected. rewrite validate_all_Ok.
  apply Forall_proper; [|done]. intros w.
  rewrite <- (contains_elem ids (worker_id w) Hc).
  by destruct (worker_ids_contains ids (worker_id w)).
Qed.

Lemma event_validation_exact s (p : SubscriptionEventPayload WorkerEvent WorkerStateSnapshot) :
  canonical_selector s →
  payload_validate_for_selector p s = Ok tt ↔
  selector_validate s = Ok tt ∧ payload_validate p = Ok tt ∧ event_belongs s p.
Proof.
  intros Hs. unfold payload_validate_for_selector.
  destruct (selector_validate s) as [[]|e]; [|split; [done|by intros [? _]]].
  destruct (payload_validate p) as [[]|e]; [|split; [done|by intros (_ & ? & _)]].
  assert (Hids : ∀ ids id (e : SubscriptionValidationError), canonical ids →
    (if worker_ids_contains ids id then Ok tt else Err e) = Ok tt ↔ id ∈ ids).
  { intros ids id e Hc. rewrite <- (contains_elem ids id Hc).
    by destruct (worker_ids_contains ids id). }
  destruct s as [|ids|sel rt| |], p as [w|id rt'|id ev|wd|wid]; simpl in *;
    try (split; [done|by intros (_ & _ & ?)]); try (rewrite Hids by done; tauto);
    try (split; [done|intros (_ & _ & ? & ?); done]).
  destruct (String.eqb_spec sel id) as [->|Hne]; [split; eauto|].
  split; [done|]. intros (_ & _ & rt0 & [= -> _]). done.
Qed.

Lemma snapshot_validation_exact s
    (snapshot : SubscriptionSnapshot WorkerEvent WorkerStateSnapshot) :
  canonical_selector s →
  snapshot_validate_for_selector snapshot s = Ok tt ↔
  selector_validate s = Ok tt ∧ snapshot_belongs s snapshot.
Proof.
  intros Hs. unfold snapshot_validate_for_selector.
  destruct (selector_validate s) as [[]|e] eqn:Hv; [|split; [done|by intros [? _]]].
  assert (Hw : ∀ ws : list worker, validate_workers ws = Ok tt ↔
    Forall (λ w : worker, worker_validate w = Ok tt) ws
    ∧ NoDup ((λ w : worker, (runtime_id w, worker_id w)) <$> ws)).
  { intros ws. unfold validate_workers. rewrite validate_workers_loop_Ok.
    assert (Forall (λ w : worker, (runtime_id w, worker_id w) ∉ []) ws); [|tauto].
    apply Forall_forall. intros w _. apply not_elem_of_nil. }
  destruct s as [|ids|sel rt| |], snapshot as [ws|id evs|ws]; simpl in *;
    try (rewrite Hw; tauto);
    try (split; [done|]; by intros (_ & ? & ? & ?));
    try (split; [done|]; by intros (_ & ? & ?)).
  - pose proof (validate_selected_Ok ids ws Hs) as Hsel. specialize (Hw ws).
    destruct (validate_workers ws) as [[]|e]; [tauto|].
    split; [done|]. intros (_ & ? & ? & _). apply Hw. done.
  - destruct (String.eqb_spec sel id) as [->|Hne].
    + destruct (validate_worker_id id) as [[]|e]; [split; eauto|done].
    + split; [done|]. intros (_ & rt0 & [= -> _]). done.
  - rewrite validate_all_Ok. tauto.
Qed.

End message_lemmas.

(** ** Properties *)

(** Worker selections are canonical: exactly the non-empty lists of at most 256 valid
    ids without repetition are accepted, the stored selection is the same ids in strictly
    increasing order, so the order they were listed in makes no difference, and the binary
    search that decides whether a worker is selected answers membership. *)
Theorem worker_selection_canonical (ids w : list string) :
  (worker_ids_new ids = Ok w ↔
   ids ≠ [] ∧ Z.of_nat (length ids) ≤ MAX_WORKER_IDS_PER_SELECTOR
   ∧ Forall (λ id, validate_worker_id id = Ok tt) ids ∧ NoDup ids ∧ w = sort_unstable ids)
  ∧ (worker_ids_new ids = Ok w →
     canonical w ∧ w ≡ₚ ids ∧ (∀ ids', ids' ≡ₚ ids → worker_ids_new ids' = Ok w)
     ∧ ∀ id, worker_ids_contains w id = true ↔ id ∈ ids).
Proof.
  split; [apply worker_ids_new_Ok|].
  intros (Hne & Hlen & Hval & Hnd & ->)%worker_ids_new_Ok.
  pose proof (sort_canonical ids Hnd) as Hc. split_and!; [done|apply sort_perm| |].
  - intros ids' Hp. apply worker_ids_new_Ok. split_and!.
    + intros ->. by apply Permutation_nil_l in Hp.
    + by rewrite Hp.
    + by rewrite Hp.
    + by rewrite Hp.
    + by apply sort_perm_eq.
  - intros id. rewrite contains_elem by done. by rewrite (sort_perm ids).
Qed.

(** C28.  Nothing outside a subscription is delivered in it.  An event payload is valid for a
    selector exactly when both are valid and it belongs to the selector: a worker the
    selector follows, the worker whose protocol it reads, or a work directory; a snapshot
    exactly when its workers are valid, followed and pairwise different.  The search used is
    exact because stored selections are canonical. *)
Theorem subscription_traffic_selected {WorkerEvent WorkerStateSnapshot : Type}
    (s : EventSubscriptionSelector)
    (p : SubscriptionEventPayload WorkerEvent WorkerStateSnapshot)
    (snapshot : SubscriptionSnapshot WorkerEvent WorkerStateSnapshot) :
  canonical_selector s →
  (payload_validate_for_selector p s = Ok tt ↔
   selector_validate s = Ok tt ∧ payload_validate p = Ok tt ∧ event_belongs s p)
  ∧ (snapshot_validate_for_selector snapshot s = Ok tt ↔
     selector_validate s = Ok tt ∧ snapshot_belongs s snapshot).
Proof.
  intros Hs. split; [by apply event_validation_exact|by apply snapshot_validation_exact].
Qed.

Lemma subscription_traffic_selected_witness :
  event_belongs (WorkerEvent:=unit) (WorkerStateSnapshot:=unit) (WorkerLifecycle ["w1"; "w2"])
    (WorkerRemoved "w2" None).
Proof.
  apply (subscription_traffic_selected (WorkerLifecycle ["w1"; "w2"]) (WorkerRemoved "w2" None)
    (Workers [])); [repeat constructor|by vm_compute].
Defined.

End Subscription.
