(* ===== verification/Permission.v ===== *)
(** * Tool permissions

    Models [src/crates/worker/src/permission.rs] with the policy data of
    [src/crates/manifest/src/lib.rs]: the wildcard matcher, the first-match policy, the hook
    that applies it before a tool runs, and the check that hides a tool from the model.  The
    JSON text of a value without a known field is an argument. *)
From Stdlib Require Import ZArith String Ascii List Lia.
From stdpp Require Import base tactics numbers list strings.
From S2P Require Import Prelude.

Module Permission.

Inductive ToolPermissionAction := Allow | Deny | Ask.

#[export] Instance ToolPermissionAction_eq_dec : EqDecision ToolPermissionAction.
Proof. solve_decision. Defined.

Record ToolPermissionRule := mkRule {
  tool : string;
  pattern : string;
  action : ToolPermissionAction
}.

Record ToolPermissionConfig := mkConfig {
  default_action : ToolPermissionAction;
  rules : list ToolPermissionRule
}.

(** ** The wildcard matcher *)

Definition star_char : ascii := "*".
Definition any_char : ascii := "?".

(** [pattern[pi] == b'?' || pattern[pi] == text[ti]], [pi < pattern.len()] included. *)
Definition byte_matches (pattern text : list ascii) (pi ti : nat) : bool :=
  match pattern !! pi, text !! ti with
  | Some p, Some t => Ascii.eqb p any_char || Ascii.eqb p t
  | _, _ => false
  end.

Definition is_star (pattern : list ascii) (pi : nat) : bool :=
  match pattern !! pi with Some p => Ascii.eqb p star_char | None => false end.

(** The final loop over stars. *)
Fixpoint skip_stars (fuel : nat) (pattern : list ascii) (pi : nat) : nat :=
  match fuel with
  | O => pi
  | S fuel => if is_star pattern pi then skip_stars fuel pattern (S pi) else pi
  end.

(** The main loop and what follows it; [None] only when the fuel runs out. *)
Fixpoint match_loop (fuel : nat) (pattern text : list ascii) (pi ti : nat)
    (star : option nat) (star_text : nat) : option bool :=
  match fuel with
  | O => None
  | S fuel =>
      if (ti <? length text)%nat then
        if byte_matches pattern text pi ti then
          match_loop fuel pattern text (S pi) (S ti) star star_text
        else if is_star pattern pi then
          match_loop fuel pattern text (S pi) ti (Some pi) ti
        else match star with
        | Some star_pi =>
            match_loop fuel pattern text (S star_pi) (S star_text) star (S star_text)
        | None => Some false
        end
      else Some (skip_stars (length pattern) pattern pi =? length pattern)%nat
  end.

Definition match_fuel (pattern text : list ascii) : nat :=
  S ((length text + 1) * (length text + length pattern + 2)).

Definition wildcard_match (p t : string) : bool :=
  let pattern := list_ascii_of_string p in
  let text := list_ascii_of_string t in
  default false (match_loop (match_fuel pattern text) pattern text 0 0 None 0).

(** ** The policy *)

Definition ascii_lower (c : ascii) : ascii :=
  let n := nat_of_ascii c in
  if (65 <=? n)%nat && (n <=? 90)%nat then ascii_of_nat (n + 32) else c.

(** [str::eq_ignore_ascii_case]. *)
Fixpoint eq_ignore_ascii_case (a b : string) : bool :=
  match a, b with
  | EmptyString, EmptyString => true
  | String c a, String d b => Ascii.eqb (ascii_lower c) (ascii_lower d) && eq_ignore_ascii_case a b
  | _, _ => false
  end.

(** [serde_json::Value]; the numbers are opaque. *)
#[warnings="-register-all"]
Inductive Value {Number : Type} :=
| Null
| Bool (b : bool)
| JNumber (n : Number)
| JString (s : string)
| Array (l : list Value)
| Object (map : list (string * Value)).
Arguments Value : clear implicits.

Section policy.
Context {Number : Type}.
(** [serde_json::to_string]. *)
Context (json_text : Value Number → string).

Definition object_get (map : list (string * Value Number)) (key : string)
  : option (Value Number) :=
  snd <$> List.find (λ e, String.eqb (fst e) key) map.

(** The loop over the known fields. *)
Fixpoint first_string (map : list (string * Value Number)) (keys : list string)
  : option string :=
  match keys with
  | [] => None
  | key :: keys =>
      match object_get map key with
      | Some (JString s) => Some s
      | _ => first_string map keys
      end
  end.

Definition permission_target (arguments : Value Number) : string :=
  match (match arguments with
         | Object map =>
             first_string map ["command"; "file_path"; "path"; "pattern"; "query"; "url"]
         | _ => None
         end) with
  | Some s => s
  | None => json_text arguments
  end.

Definition permission_action_for (config : ToolPermissionConfig) (tool_name : string)
    (arguments : Value Number) : ToolPermissionAction :=
  let target := permission_target arguments in
  match List.find (λ rule, eq_ignore_ascii_case (tool rule) tool_name
                           && wildcard_match (pattern rule) target) (rules config) with
  | Some rule => action rule
  | None => default_action config
  end.

(** The loop of [tool_is_unconditionally_denied] over the rules of the tool; [None] when it
    ends without an answer. *)
Fixpoint denied_by_rules (tool_name : string) (l : list ToolPermissionRule) : option bool :=
  match l with
  | [] => None
  | rule :: l =>
      if eq_ignore_ascii_case (tool rule) tool_name then
        if negb (bool_decide (action rule = Deny)) then Some false
        else if negb (bool_decide (pattern rule = EmptyString))
                && all_chars (Ascii.eqb star_char) (pattern rule) then Some true
        else denied_by_rules tool_name l
      else denied_by_rules tool_name l
  end.

Definition tool_is_unconditionally_denied (config : ToolPermissionConfig) (tool_name : string)
  : bool :=
  match denied_by_rules tool_name (rules config) with
  | Some answer => answer
  | None => bool_decide (default_action config = Deny)
  end.

Record ToolCallSummary := mkSummary {
  call_id : string;
  tool_name : string;
  arguments : Value Number
}.

Inductive HookPreToolAction :=
| Continue
| HookDeny (reason : string)
| Abort (reason : string)
| Pause.

Definition permission_denied_message (input : ToolCallSummary) : string :=
  "permission denied: tool `" +:+ tool_name input
  +:+ "` arguments matched the manifest permission policy".

Definition permission_ask_unsupported_message (input : ToolCallSummary) : string :=
  "permission ask unsupported: tool `" +:+ tool_name input
  +:+ "` requires approval, but this runtime has no permission approval protocol; denied fail-closed".

(** The [PreToolCall] hook. *)
Definition permission_hook (config : ToolPermissionConfig) (input : ToolCallSummary)
  : HookPreToolAction :=
  match permission_action_for config (tool_name input) (arguments input) with
  | Allow => Continue
  | Deny => HookDeny (permission_denied_message input)
  | Ask => HookDeny (permission_ask_unsupported_message input)
  end.

End policy.

(** ** Reference: what a wildcard pattern means *)

Inductive glob : list ascii → list ascii → Prop :=
| glob_nil : glob [] []
| glob_any p c t : glob p t → glob (any_char :: p) (c :: t)
| glob_byte p c t : c ≠ star_char → glob p t → glob (c :: p) (c :: t)
| glob_star_end p t : glob p t → glob (star_char :: p) t
| glob_star_more p c t : glob (star_char :: p) t → glob (star_char :: p) (c :: t).

#[export] Hint Constructors glob : yoi.

(** ** Lemmas: termination *)

Section matcher.
Context (pattern text : list ascii).

Definition measure (pi ti : nat) (star : option nat) (star_text : nat) : nat :=
  (length text - match star with Some _ => star_text | None => 0 end)
  * (length text + length pattern + 2) + (length text - ti) + (length pattern - pi).

Lemma byte_matches_lt pi ti :
  byte_matches pattern text pi ti = true → (pi < length pattern)%nat.
Proof.
  unfold byte_matches. destruct (pattern !! pi) eqn:E; [|done]. intros _.
  by eapply lookup_lt_Some.
Qed.

Lemma is_star_lt pi : is_star pattern pi = true → (pi < length pattern)%nat.
Proof.
  unfold is_star. destruct (pattern !! pi) eqn:E; [|done]. intros _. by eapply lookup_lt_Some.
Qed.

Lemma match_loop_total fuel : ∀ pi ti star star_text,
  (ti ≤ length text)%nat → (star = None ∨ star_text ≤ ti)%nat →
  (measure pi ti star star_text < fuel)%nat →
  is_Some (match_loop fuel pattern text pi ti star star_text).
Proof.
  induction fuel as [|fuel IH]; intros pi ti star star_text Hti Hst Hm; [lia|].
  cbn [match_loop]. destruct (Nat.ltb_spec ti (length text)) as [Hlt|]; [|eauto].
  unfold measure in *.
  destruct (byte_matches pattern text pi ti) eqn:Hb.
  { apply byte_matches_lt in Hb. apply IH; [lia|destruct Hst; [by left|right; lia]|].
    destruct star; lia. }
  destruct (is_star pattern pi) eqn:Hs.
  { apply is_star_lt in Hs. apply IH; [lia|by right|].
    destruct star as [sp|]; [destruct Hst as [|Hst]; [done|]|]; nia. }
  destruct star as [sp|]; [|eauto]. destruct Hst as [|Hst]; [done|].
  apply IH; [lia|right; lia|]. nia.
Qed.

Lemma match_loop_enough :
  is_Some (match_loop (match_fuel pattern text) pattern text 0 0 None 0).
Proof.
  apply match_loop_total; [lia|by left|]. unfold measure, match_fuel. nia.
Qed.

(** ** Lemmas: correctness of the matcher *)

Definition rest_matches (pi ti : nat) : Prop := glob (drop pi pattern) (drop ti text).

(** What is left to try: the current positions, or a later start for the last star. *)
Definition pending (pi ti : nat) (star : option nat) (star_text : nat) : Prop :=
  rest_matches pi ti
  ∨ ∃ sp j, star = Some sp ∧ (star_text < j ≤ length text)%nat ∧ rest_matches (S sp) j.

Lemma glob_nil_text p : glob (star_char :: p) [] ↔ glob p [].
Proof. split; [|apply glob_star_end]. inversion 1; subst; try done. Qed.

Lemma skip_stars_spec fuel : ∀ pi,
  (length pattern - pi ≤ fuel)%nat → (pi ≤ length pattern)%nat →
  skip_stars fuel pattern pi = length pattern ↔ glob (drop pi pattern) [].
Proof.
  induction fuel as [|fuel IH]; intros pi Hf Hpi; cbn [skip_stars].
  { rewrite drop_ge by lia. split; [intros _; constructor|lia]. }
  unfold is_star. destruct (pattern !! pi) as [c|] eqn:Hc.
  - pose proof (lookup_lt_Some _ _ _ Hc). rewrite (drop_S _ _ _ Hc).
    destruct (Ascii.eqb_spec c star_char) as [->|Hne].
    + rewrite IH by lia. by rewrite glob_nil_text.
    + split; [lia|]. inversion 1; congruence.
  - apply lookup_ge_None in Hc. rewrite drop_ge by lia. split; [intros _; constructor|lia].
Qed.

Lemma glob_star_inv p t : glob (star_char :: p) t →
  ∃ n, (n ≤ length t)%nat ∧ glob p (drop n t).
Proof.
  remember (star_char :: p) as q eqn:Hq. induction 1 as [|p' c t _ _|p' c t Hc _ _|p' t Hg _|p' c t _ IH];
    simplify_eq.
  - exists 0%nat. split; [lia|done].
  - destruct (IH eq_refl) as (n & Hn & Hg). exists (S n). split; [simpl; lia|done].
Qed.

Lemma glob_star_skip p t n : glob p (drop n t) → glob (star_char :: p) t.
Proof.
  revert n. induction t as [|c t IH]; intros n Hg.
  { rewrite drop_nil in Hg. by constructor. }
  destruct n as [|n]; [by constructor|]. apply glob_star_more. by apply (IH n).
Qed.

Lemma rest_star pi ti : is_star pattern pi = true → (ti ≤ length text)%nat →
  rest_matches pi ti ↔ ∃ j, (ti ≤ j ≤ length text)%nat ∧ rest_matches (S pi) j.
Proof.
  unfold is_star, rest_matches. destruct (pattern !! pi) as [c|] eqn:Hc; [|done].
  intros Heq%Ascii.eqb_eq Hti. subst c. rewrite (drop_S _ _ _ Hc). split.
  - intros (n & Hn & Hg)%glob_star_inv. rewrite length_drop in Hn. rewrite drop_drop in Hg.
    exists (ti + n)%nat. split; [lia|done].
  - intros (j & Hj & Hg). apply (glob_star_skip _ _ (j - ti)). rewrite drop_drop.
    by replace (ti + (j - ti))%nat with j by lia.
Qed.

Lemma rest_byte_sound pi ti :
  byte_matches pattern text pi ti = true → rest_matches (S pi) (S ti) → rest_matches pi ti.
Proof.
  unfold byte_matches, rest_matches. destruct (pattern !! pi) as [p|] eqn:Hp; [|done].
  destruct (text !! ti) as [t|] eqn:Ht; [|done].
  rewrite (drop_S _ _ _ Hp), (drop_S _ _ _ Ht).
  intros [Heq|Heq]%orb_true_iff Hg; apply Ascii.eqb_eq in Heq as ->; [by constructor|].
  destruct (decide (t = star_char)) as [->|]; [|by constructor].
  by apply glob_star_more, glob_star_end.
Qed.

(** The positions the loop can be in. *)
Definition positions_ok (pi ti : nat) (star : option nat) (star_text : nat) : Prop :=
  (ti ≤ length text)%nat ∧ (pi ≤ length pattern)%nat
  ∧ match star with
    | Some sp => (star_text ≤ ti)%nat ∧ (sp < length pattern)%nat
    | None => True
    end.

(** A match that is reported is one. *)
Lemma match_loop_sound fuel : ∀ pi ti star star_text,
  positions_ok pi ti star star_text →
  match_loop fuel pattern text pi ti star star_text = Some true →
  pending pi ti star star_text.
Proof.
  induction fuel as [|fuel IH]; intros pi ti star star_text (Hti & Hpi & Hst); [done|].
  cbn [match_loop]. destruct (Nat.ltb_spec ti (length text)) as [Hlt|Hge].
  2: { intros [= H%Nat.eqb_eq]. left. unfold rest_matches. rewrite (drop_ge text) by done.
       by apply (skip_stars_spec (length pattern)); [lia|..]. }
  destruct (byte_matches pattern text pi ti) eqn:Hb.
  { pose proof (byte_matches_lt _ _ Hb). intros Hm.
    apply IH in Hm as [Hm|(sp & j & ? & ? & ?)].
    - left. by apply rest_byte_sound.
    - right. eauto 10.
    - split_and!; [lia|lia|]. destruct star; [|done]. lia. }
  destruct (is_star pattern pi) eqn:Hs.
  { pose proof (is_star_lt _ Hs). intros Hm. left. apply rest_star; [done|lia|].
    apply IH in Hm as [Hm|(sp & j & [= <-] & ? & ?)].
    - exists ti. split; [lia|done].
    - exists j. split; [lia|done].
    - split_and!; lia. }
  destruct star as [sp|]; [|done]. intros Hm. right.
  apply IH in Hm as [Hm|(sp' & j & [= <-] & ? & ?)].
  - exists sp, (S star_text). split_and!; [done|lia|lia|done].
  - exists sp, j. split_and!; [done|lia|lia|done].
  - split_and!; lia.
Qed.

(** Between the last star and the pattern position there is no star, and as many bytes of
    the pattern were consumed as of the text. *)
Definition segment_ok (pi ti : nat) (star : option nat) (star_text : nat) : Prop :=
  match star with
  | Some sp => ∃ n, pi = (S sp + n)%nat ∧ ti = (star_text + n)%nat
                    ∧ ∀ k, (k < n)%nat → is_star pattern (S sp + k) = false
  | None => True
  end.

(** Consuming a segment without stars takes its length of text. *)
Lemma segment_consumes sp n : ∀ j,
  (∀ k, (k < n)%nat → is_star pattern (sp + k) = false) → (sp + n ≤ length pattern)%nat →
  (j ≤ length text)%nat → rest_matches sp j →
  (j + n ≤ length text)%nat ∧ rest_matches (sp + n) (j + n).
Proof.
  revert sp. induction n as [|n IH]; intros sp j Hseg Hsp Hj Hm.
  { by rewrite !Nat.add_0_r. }
  destruct (lookup_lt_is_Some_2 pattern sp) as [c Hc]; [lia|].
  pose proof (Hseg 0%nat ltac:(lia)) as H0. rewrite Nat.add_0_r in H0.
  unfold is_star in H0. rewrite Hc in H0. apply Ascii.eqb_neq in H0.
  unfold rest_matches in Hm. rewrite (drop_S _ _ _ Hc) in Hm.
  assert (Hnext : ∃ d, text !! j = Some d ∧ glob (drop (S sp) pattern) (drop (S j) text)).
  { destruct (text !! j) as [d|] eqn:Hd.
    - rewrite (drop_S _ _ _ Hd) in Hm. exists d. split; [done|]. by inversion Hm; simplify_eq.
    - apply lookup_ge_None in Hd. rewrite (drop_ge text) in Hm by lia. by inversion Hm; simplify_eq. }
  destruct Hnext as (d & Hd & Hg). pose proof (lookup_lt_Some _ _ _ Hd).
  destruct (IH (S sp) (S j)) as [H1 H2]; [|lia|lia|done|].
  { intros k Hk. replace (S sp + k)%nat with (sp + S k)%nat by lia. apply Hseg. lia. }
  rewrite !Nat.add_succ_r. split; [lia|]. done.
Qed.

Section star_free.
Context (text_star_free : star_char ∉ text).

Lemma byte_matches_no_star pi ti :
  byte_matches pattern text pi ti = true → is_star pattern pi = false.
Proof.
  unfold byte_matches, is_star. destruct (pattern !! pi) as [p|]; [|done].
  destruct (text !! ti) as [t|] eqn:Ht; [|done].
  intros [Heq|Heq]%orb_true_iff; apply Ascii.eqb_eq in Heq as ->; [done|].
  apply Ascii.eqb_neq. intros ->. apply text_star_free. by eapply list_elem_of_lookup_2.
Qed.

Lemma rest_byte_complete pi ti :
  (ti < length text)%nat → is_star pattern pi = false → rest_matches pi ti →
  byte_matches pattern text pi ti = true ∧ rest_matches (S pi) (S ti).
Proof.
  intros Hti. unfold byte_matches, is_star, rest_matches.
  destruct (lookup_lt_is_Some_2 text ti Hti) as [t Ht]. rewrite Ht, (drop_S _ _ _ Ht).
  destruct (pattern !! pi) as [p|] eqn:Hp.
  - intros Hs%Ascii.eqb_neq. rewrite (drop_S _ _ _ Hp).
    inversion 1; simplify_eq; [by rewrite Ascii.eqb_refl|].
    by rewrite Ascii.eqb_refl, orb_true_r.
  - apply lookup_ge_None in Hp. rewrite (drop_ge pattern) by done. by inversion 2.
Qed.

(** A match is found when one is pending. *)
Lemma match_loop_complete fuel : ∀ pi ti star star_text b,
  positions_ok pi ti star star_text → segment_ok pi ti star star_text →
  pending pi ti star star_text →
  match_loop fuel pattern text pi ti star star_text = Some b → b = true.
Proof.
  induction fuel as [|fuel IH]; intros pi ti star star_text b Hpos Hseg Hpend; [done|].
  pose proof Hpos as (Hti & Hpi & Hst). cbn [match_loop].
  assert (Hlater : ∀ sp j, star = Some sp → (star_text < j ≤ length text)%nat →
    rest_matches (S sp) j → ∃ j', (ti < j' ≤ length text)%nat ∧ rest_matches pi j').
  { intros sp j -> Hj Hm. destruct Hseg as (n & -> & -> & Hn).
    destruct (segment_consumes (S sp) n j Hn) as [H1 H2]; [lia|lia|done|].
    exists (j + n)%nat. split; [lia|done]. }
  destruct (Nat.ltb_spec ti (length text)) as [Hlt|Hge].
  2: { intros [= <-]. apply Nat.eqb_eq, skip_stars_spec; [lia..|].
       destruct Hpend as [Hm|(sp & j & Hs & Hj & Hm)].
       - unfold rest_matches in Hm. by rewrite (drop_ge text) in Hm by done.
       - destruct (Hlater sp j Hs Hj Hm) as (? & ? & _). lia. }
  destruct (byte_matches pattern text pi ti) eqn:Hb.
  { pose proof (byte_matches_lt _ _ Hb). pose proof (byte_matches_no_star _ _ Hb) as Hns.
    apply IH.
    - split_and!; [lia|lia|]. destruct star; [lia|done].
    - destruct star as [sp|]; [|done]. destruct Hseg as (n & -> & -> & Hn). exists (S n).
      split_and!; [lia|lia|]. intros k Hk. destruct (decide (k = n)) as [->|]; [done|].
      apply Hn. lia.
    - destruct Hpend as [Hm|(sp & j & ? & ? & ?)]; [left|right; eauto 10].
      by apply (rest_byte_complete pi ti). }
  destruct (is_star pattern pi) eqn:Hs.
  { pose proof (is_star_lt _ Hs). apply IH.
    - split_and!; lia.
    - exists 0%nat. split_and!; [lia|lia|]. lia.
    - assert (Hstar : ∃ j, (ti ≤ j ≤ length text)%nat ∧ rest_matches (S pi) j).
      { destruct Hpend as [Hm|(sp & j & Hsp & Hj & Hm)]; [by apply rest_star in Hm|].
        destruct (Hlater sp j Hsp Hj Hm) as (j' & Hj' & Hm').
        apply rest_star in Hm' as (j2 & ? & ?); [|done|lia]. exists j2. split; [lia|done]. }
      destruct Hstar as (j & Hj & Hm). destruct (decide (j = ti)) as [->|]; [by left|].
      right. exists pi, j. split_and!; [done|lia|lia|done]. }
  assert (¬ rest_matches pi ti) as Hno.
  { intros Hm. destruct (rest_byte_complete pi ti Hlt Hs Hm). congruence. }
  destruct Hpend as [|(sp & j & -> & Hj & Hm)]; [done|]. apply IH.
  - split_and!; lia.
  - exists 0%nat. split_and!; lia.
  - destruct (decide (j = S star_text)) as [->|]; [by left|].
    right. exists sp, j. split_and!; [done|lia|lia|done].
Qed.

End star_free.
End matcher.

(** ** Lemmas: the policy *)

Definition bytes_of (s : string) : list ascii := list_ascii_of_string s.

Lemma wildcard_sound p t : wildcard_match p t = true → glob (bytes_of p) (bytes_of t).
Proof.
  unfold wildcard_match. destruct (match_loop _ _ _ _ _ _ _) as [[]|] eqn:Hm; try done.
  intros _. apply match_loop_sound in Hm as [Hm|(? & ? & ? & _)]; [exact Hm|done|].
  split_and!; [lia|lia|done].
Qed.

Lemma wildcard_complete p t :
  star_char ∉ bytes_of t → glob (bytes_of p) (bytes_of t) → wildcard_match p t = true.
Proof.
  intros Hfree Hg. unfold wildcard_match.
  destruct (match_loop_enough (bytes_of p) (bytes_of t)) as [b Hb].
  change (default false (match_loop (match_fuel (bytes_of p) (bytes_of t))
            (bytes_of p) (bytes_of t) 0 0 None 0) = true). rewrite Hb. simpl.
  eapply match_loop_complete; [exact Hfree| | | |exact Hb].
  - split_and!; [lia|lia|done].
  - done.
  - by left.
Qed.

Lemma glob_all_stars p t : p ≠ [] → Forall (λ c, c = star_char) p → glob p t.
Proof.
  intros Hne Hall. induction Hall as [|c p -> Hp IH]; [done|].
  apply (glob_star_skip p t (length t)). rewrite drop_ge by lia.
  destruct p as [|d p]; [constructor|].
  clear -Hp. remember (d :: p) as q. clear Heqq. induction Hp as [|c q -> _ IH]; auto with yoi.
Qed.

Lemma all_chars_Forall f s :
  all_chars f s = true ↔ Forall (λ c, f c = true) (bytes_of s).
Proof.
  induction s as [|c s IH]; cbn [all_chars]; [done|].
  unfold bytes_of. cbn [list_ascii_of_string]. rewrite Forall_cons, andb_true_iff. by rewrite IH.
Qed.

(** A rule applies to a call. *)
Definition applies (rule : ToolPermissionRule) (name target : string) : Prop :=
  eq_ignore_ascii_case (tool rule) name = true ∧ glob (bytes_of (pattern rule)) (bytes_of target).

Lemma applies_find rule name target :
  star_char ∉ bytes_of target →
  eq_ignore_ascii_case (tool rule) name && wildcard_match (pattern rule) target = true
  ↔ applies rule name target.
Proof.
  intros Hfree. unfold applies. rewrite andb_true_iff. split; intros [? H]; split; try done.
  - by apply wildcard_sound.
  - by apply wildcard_complete.
Qed.

Lemma find_first {A} (f : A → bool) l x :
  List.find f l = Some x ↔
  ∃ l1 l2, l = l1 ++ x :: l2 ∧ f x = true ∧ Forall (λ y, f y = false) l1.
Proof.
  induction l as [|y l IH]; simpl.
  { split; [done|]. intros ([] & ? & ? & _); done. }
  destruct (f y) eqn:Hy.
  - split.
    + intros [= ->]. exists [], l. auto.
    + intros ([|z l1] & l2 & Heq & Hx & Hl); simplify_eq/=; [done|].
      inversion Hl; congruence.
  - rewrite IH. split.
    + intros (l1 & l2 & -> & Hx & Hl). exists (y :: l1), l2. auto.
    + intros ([|z l1] & l2 & Heq & Hx & Hl); simplify_eq/=;
        [congruence|].
      exists l1, l2. inversion Hl. auto.
Qed.

Lemma denied_by_rules_spec name target l :
  star_char ∉ bytes_of target → ∀ d,
  match denied_by_rules name l with Some answer => answer | None => bool_decide (d = Deny) end
    = true →
  match List.find (λ rule, eq_ignore_ascii_case (tool rule) name
                           && wildcard_match (pattern rule) target) l with
  | Some rule => action rule
  | None => d
  end = Deny.
Proof.
  intros Hfree d. induction l as [|rule l IH]; cbn [denied_by_rules List.find].
  { apply bool_decide_eq_true. }
  destruct (eq_ignore_ascii_case (tool rule) name); [|done]. cbn [andb].
  destruct (bool_decide_reflect (action rule = Deny)) as [Hd|Hd]; [|done]. cbn [negb].
  destruct (wildcard_match (pattern rule) target) eqn:Hw; [done|].
  destruct (bool_decide_reflect (pattern rule = EmptyString)) as [He|He]; [exact IH|].
  cbn [negb andb].
  destruct (all_chars (Ascii.eqb star_char) (pattern rule)) eqn:Hall; [|exact IH].
  intros _. exfalso. apply all_chars_Forall in Hall.
  rewrite wildcard_complete in Hw; [done|done|]. apply glob_all_stars.
  - intros Hnil. apply He. destruct (pattern rule); [done|]. by cbn in Hnil.
  - eapply Forall_impl; [exact Hall|]. intros c Hc. by apply Ascii.eqb_eq in Hc.
Qed.

(** ** Lemmas: patterns of asterisks *)

Definition stars (n : nat) : list ascii := replicate n star_char.

Lemma length_stars n : length (stars n) = n.
Proof. apply length_replicate. Qed.

Lemma is_star_stars n pi : is_star (stars n) pi = true ↔ (pi < n)%nat.
Proof.
  unfold is_star, stars. destruct (decide (pi < n)%nat) as [Hlt|Hge].
  - by rewrite lookup_replicate_2.
  - rewrite lookup_ge_None_2 by (rewrite length_replicate; lia). split; [done|lia].
Qed.

Lemma byte_matches_stars n t pi ti :
  byte_matches (stars n) t pi ti = true ↔ (pi < n)%nat ∧ t !! ti = Some star_char.
Proof.
  unfold byte_matches, stars. destruct (decide (pi < n)%nat) as [Hlt|Hge].
  - rewrite lookup_replicate_2 by done. destruct (t !! ti) as [c|]; [|naive_solver].
    change (Ascii.eqb star_char any_char) with false. rewrite orb_false_l, Ascii.eqb_eq. naive_solver.
  - rewrite lookup_ge_None_2 by (rewrite length_replicate; lia). split; [done|lia].
Qed.

Lemma skip_stars_stars n fuel : ∀ pi,
  (pi <= n)%nat → (n - pi <= fuel)%nat → skip_stars fuel (stars n) pi = n.
Proof.
  induction fuel as [|fuel IH]; intros pi Hle Hf; simpl; [lia|].
  destruct (is_star (stars n) pi) eqn:Hs.
  - apply is_star_stars in Hs. apply IH; lia.
  - assert (¬ (pi < n)%nat) by (rewrite <-is_star_stars; by rewrite Hs). lia.
Qed.

(** Once one asterisk was taken as a wildcard the text matches. *)
Lemma starred_matches n t fuel : ∀ pi ti sp st,
  (pi <= n)%nat → (sp < n)%nat → match_loop fuel (stars n) t pi ti (Some sp) st ≠ Some false.
Proof.
  induction fuel as [|fuel IH]; intros pi ti sp st Hpi Hsp; simpl; [done|].
  destruct (ti <? length t)%nat.
  - destruct (byte_matches _ _ _ _) eqn:Hb; [apply byte_matches_stars in Hb as [??]; apply IH; lia|].
    destruct (is_star _ _) eqn:Hs; [apply is_star_stars in Hs; apply IH; lia|]. apply IH; lia.
  - rewrite length_stars, skip_stars_stars by lia. by rewrite Nat.eqb_refl.
Qed.

(** From where the text has had asterisks only. *)
Lemma match_stars n t fuel : ∀ k,
  (k <= n)%nat → Forall (λ c, c = star_char) (take k t) → (k <= length t)%nat →
  match_loop fuel (stars n) t k k None 0 = Some false ↔
  (n - k < fuel)%nat ∧ (n < length t)%nat ∧ Forall (λ c, c = star_char) (take n t).
Proof.
  induction fuel as [|fuel IH]; intros k Hk Hall Hlen; simpl; [split; [done|lia]|].
  destruct (Nat.ltb_spec k (length t)) as [Hlt|Hge].
  - destruct (byte_matches _ _ _ _) eqn:Hb.
    + apply byte_matches_stars in Hb as [Hkn Hc]. rewrite IH; [|lia| |lia]; [|].
      * split; intros (? & ? & ?); split_and!; try done; lia.
      * erewrite take_S_r by done. apply Forall_app. split; [done|]. by constructor.
    + destruct (is_star _ _) eqn:Hs.
      * apply is_star_stars in Hs. split; [intros Hf; exfalso; revert Hf; apply starred_matches; lia|].
        intros (_ & Hn & Hst). exfalso. destruct (lookup_lt_is_Some_2 t k Hlt) as [c Hc].
        rewrite Forall_lookup in Hst. rewrite (Hst k c) in Hc by (by rewrite lookup_take_lt).
        assert (byte_matches (stars n) t k k = true) by (by apply byte_matches_stars). congruence.
      * assert (¬ (k < n)%nat) by (rewrite <-is_star_stars; by rewrite Hs).
        assert (k = n) as -> by lia. split; [intros _; split_and!; [lia|done|done]|done].
  - rewrite length_stars, skip_stars_stars by lia. rewrite Nat.eqb_refl. split; [done|lia].
Qed.

(** The texts that a pattern of asterisks wrongly refuses are those that begin with it and go on. *)
Lemma stars_refuse p n t :
  bytes_of p = stars n → wildcard_match p t = false ↔ ∃ c rest, bytes_of t = stars n ++ c :: rest.
Proof.
  intros Hp. unfold wildcard_match. change (list_ascii_of_string ?x) with (bytes_of x). rewrite Hp.
  destruct (match_loop_enough (stars n) (bytes_of t)) as [b Hb].
  pose proof (match_stars n (bytes_of t) (match_fuel (stars n) (bytes_of t)) 0) as Hm. rewrite Hb in *. simpl.
  assert (b = false ↔ Some b = Some false) as -> by naive_solver.
  rewrite Hm by (simpl; try lia; constructor). unfold match_fuel, stars. rewrite length_replicate. split.
  - intros (_ & Hlt & Hall). destruct (lookup_lt_is_Some_2 _ _ Hlt) as [c Hc].
    exists c, (drop (S n) (bytes_of t)). rewrite <-(take_drop_middle _ _ _ Hc) at 1. f_equal.
    assert (length (take n (bytes_of t)) = n) as Hl by (rewrite length_take; lia).
    rewrite <-Hl at 2. clear -Hall. induction Hall as [|x l -> _ IH]; [done|]. simpl. by f_equal.
  - intros (c & rest & ->). rewrite length_app, length_replicate. simpl.
    split_and!; [lia|lia|]. rewrite take_app_le, take_ge by (rewrite length_replicate; lia).
    by apply Forall_replicate.
Qed.

Lemma denied_by_stars name l n :
  (0 < n)%nat → List.filter (λ rule, eq_ignore_ascii_case (tool rule) name) l ≠ [] →
  Forall (λ rule, action rule = Deny ∧ bytes_of (pattern rule) = stars n)
    (List.filter (λ rule, eq_ignore_ascii_case (tool rule) name) l) →
  denied_by_rules name l = Some true.
Proof.
  intros Hn. induction l as [|rule l IH]; simpl; [done|].
  destruct (eq_ignore_ascii_case (tool rule) name); [|done].
  intros _ [[-> Hp] _]%Forall_cons. rewrite bool_decide_true by done. cbn [negb].
  rewrite bool_decide_false by (intros He; rewrite He in Hp; destruct n; [lia|done]).
  assert (all_chars (Ascii.eqb star_char) (pattern rule) = true) as ->; [|done].
  apply all_chars_Forall. rewrite Hp. apply Forall_replicate. by vm_compute.
Qed.

(** ** Properties *)

(** C37.  The wildcard matcher: its loop ends within the fuel, what it accepts is matched by
    the pattern, and a text without an asterisk that the pattern matches is accepted, with
    [*] for any run of bytes and [?] for any byte. *)
Theorem wildcard_match_exact (p t : string) :
  is_Some (match_loop (match_fuel (bytes_of p) (bytes_of t)) (bytes_of p) (bytes_of t) 0 0 None 0)
  ∧ (wildcard_match p t = true → glob (bytes_of p) (bytes_of t))
  ∧ (star_char ∉ bytes_of t → glob (bytes_of p) (bytes_of t) → wildcard_match p t = true).
Proof.
  split_and!; [apply match_loop_enough|apply wildcard_sound|apply wildcard_complete].
Qed.

(** The policy is first match: for a target without an asterisk a tool call is let
    through exactly when the first rule that applies allows it, or no rule applies and the
    default does. *)
Theorem policy_first_match {Number : Type} (json_text : Value Number → string)
    (config : ToolPermissionConfig) (input : ToolCallSummary) :
  star_char ∉ bytes_of (permission_target json_text (arguments input)) →
  permission_hook json_text config input = Continue ↔
  let name := tool_name input in
  let target := permission_target json_text (arguments input) in
  (∃ l1 rule l2, rules config = l1 ++ rule :: l2 ∧ applies rule name target
     ∧ action rule = Allow ∧ Forall (λ r, ¬ applies r name target) l1)
  ∨ (default_action config = Allow ∧ Forall (λ r, ¬ applies r name target) (rules config)).
Proof.
  intros Hfree. cbv zeta. unfold permission_hook, permission_action_for.
  set (target := permission_target json_text (arguments input)) in *.
  set (f := λ rule, eq_ignore_ascii_case (tool rule) (tool_name input)
                    && wildcard_match (pattern rule) target).
  assert (Hf : ∀ r, f r = true ↔ applies r (tool_name input) target)
    by (intros r; by apply applies_find).
  assert (Hn : ∀ r, f r = false ↔ ¬ applies r (tool_name input) target).
  { intros r. rewrite <- Hf. by destruct (f r). }
  assert (Hl : ∀ l, Forall (λ r, f r = false) l
                    ↔ Forall (λ r, ¬ applies r (tool_name input) target) l)
    by (intros l; apply Forall_proper; [intros r; apply Hn|done]).
  destruct (List.find f (rules config)) as [rule|] eqn:Hfind.
  - pose proof Hfind as (l1 & l2 & Hr & Hx & Hl1)%find_first. split.
    + intros Hc. left. exists l1, rule, l2. rewrite <- Hl. split_and!; [done|by apply Hf| |done].
      by destruct (action rule).
    + intros [(k1 & rule' & k2 & Hr' & Ha & Hal & Hk)|[_ Hall]].
      * assert (Hfind' : List.find f (rules config) = Some rule').
        { apply find_first. exists k1, k2. rewrite Hl. split_and!; [done|by apply Hf|done]. }
        rewrite Hfind in Hfind'. injection Hfind' as ->. by rewrite Hal.
      * exfalso. rewrite <- Hl, Forall_forall in Hall.
        rewrite (Hall rule) in Hx; [done|]. rewrite Hr. apply elem_of_app. right. left.
  - assert (Hall : Forall (λ r, f r = false) (rules config))
      by (apply Forall_forall; intros r Hr; eapply find_none; [done|by apply list_elem_of_In]).
    split.
    + intros Hc. right. rewrite <- Hl. split; [by destruct (default_action config)|done].
    + intros [(k1 & rule' & k2 & Hr' & Ha & _)|[-> _]]; [|done]. exfalso.
      rewrite Forall_forall in Hall. apply Hf in Ha. rewrite (Hall rule') in Ha; [done|].
      rewrite Hr'. apply elem_of_app. right. left.
Qed.

Definition example_input (command : string) : ToolCallSummary (Number:=unit) :=
  mkSummary "call_1" "Bash" (Object [("command", JString command)]).

Lemma policy_first_match_witness :
  permission_hook (λ _, EmptyString)
    (mkConfig Deny [mkRule "bash" "git *" Allow]) (example_input "git status") = Continue.
Proof.
  apply policy_first_match; [by apply (bool_decide_unpack _)|].
  left. exists [], (mkRule "bash" "git *" Allow), []. split_and!; [done| |done|constructor].
  split; [done|]. by apply wildcard_sound.
Defined.

(** A tool hidden from the model because every use of it is denied is denied: whatever
    the arguments, if the permission target holds no asterisk the policy answers deny. *)
Theorem hidden_tool_is_denied {Number : Type} (json_text : Value Number → string)
    (config : ToolPermissionConfig) (name : string) (args : Value Number) :
  tool_is_unconditionally_denied config name = true →
  star_char ∉ bytes_of (permission_target json_text args) →
  permission_action_for json_text config name args = Deny.
Proof.
  intros Hd Hfree. by apply denied_by_rules_spec.
Qed.

Lemma hidden_tool_is_denied_witness :
  permission_action_for (λ _ : Value unit, EmptyString)
    (mkConfig Allow [mkRule "Bash" "*" Deny]) "Bash" (arguments (example_input "ls")) = Deny.
Proof. apply hidden_tool_is_denied; [done|by apply (bool_decide_unpack _)]. Defined.

(** C40.  Asterisks in the argument defeat a deny rule: the matcher consumes a [*] of the pattern
    as an ordinary byte when the text has an asterisk at that place.  Take a policy that allows
    by default and has for a tool only rules that deny everything with [n] asterisks, at least
    one, at least one rule.  The tool counts as unconditionally denied, and the pattern means
    every text, yet a call is let through exactly when its target begins with [n] asterisks and
    goes on. *)
Theorem asterisk_bypasses_deny {Number : Type} (json_text : Value Number → string)
    (config : ToolPermissionConfig) (n : nat) (input : ToolCallSummary) :
  (0 < n)%nat → default_action config = Allow →
  let rules_of_tool := List.filter (λ rule, eq_ignore_ascii_case (tool rule) (tool_name input)) (rules config) in
  rules_of_tool ≠ [] → Forall (λ rule, action rule = Deny ∧ bytes_of (pattern rule) = stars n) rules_of_tool →
  let target := permission_target json_text (arguments input) in
  tool_is_unconditionally_denied config (tool_name input) = true
  ∧ Forall (λ rule, applies rule (tool_name input) target) rules_of_tool
  ∧ (permission_hook json_text config input = Continue ↔
     ∃ c rest, bytes_of target = stars n ++ c :: rest).
Proof.
  intros Hn Hdef rules_of_tool Hne Hall target. split_and!.
  - unfold tool_is_unconditionally_denied.
    rewrite (denied_by_stars (tool_name input) (rules config) n); done.
  - apply Forall_forall. intros rule Hr. pose proof Hr as [_ Hname]%list_filter_elem_of.
    rewrite Forall_forall in Hall. destruct (Hall rule Hr) as [_ Hp]. split; [done|]. rewrite Hp.
    apply glob_all_stars; [destruct n; [lia|done]|by apply Forall_replicate].
  - unfold permission_hook, permission_action_for. fold target. rewrite Hdef.
    destruct (List.find _ (rules config)) as [rule|] eqn:Hf.
    + apply List.find_some in Hf as [Hin [Hname Hw]%andb_true_iff].
      rewrite Forall_forall in Hall. destruct (Hall rule) as [-> Hp].
      { apply list_filter_elem_of. by rewrite list_elem_of_In. }
      split; [done|]. intros Ht%(stars_refuse _ _ _ Hp). congruence.
    + split; [intros _|done]. destruct rules_of_tool as [|rule l] eqn:Hl; [done|].
      assert (rule ∈ rules_of_tool) as Hr by (rewrite Hl; by left). apply Forall_cons in Hall as [[_ Hp] _].
      unfold rules_of_tool in Hr. apply list_filter_elem_of in Hr as [Hin Hname].
      apply (stars_refuse _ _ _ Hp). apply list_elem_of_In, (List.find_none _ _ Hf) in Hin.
      rewrite Hname in Hin. done.
Qed.

Lemma asterisk_bypasses_deny_witness :
  let config := mkConfig Allow [mkRule "Bash" "*" Deny] in
  tool_is_unconditionally_denied config "Bash" = true
  ∧ permission_hook (λ _, EmptyString) config (example_input "*; rm -rf /") = Continue
  ∧ permission_hook (λ _, EmptyString) config (example_input "rm -rf /") ≠ Continue.
Proof.
  intros config.
  destruct (asterisk_bypasses_deny (λ _, EmptyString) config 1 (example_input "*; rm -rf /"))
    as (H1 & _ & H2); [lia|done|done|by repeat constructor|].
  split; [exact H1|]. split; [apply H2; by eexists _, _|vm_compute; discriminate].
Defined.

End Permission.
