(* ===== verification/TicketParents.v ===== *)
(** * Parent links between tickets

    Models [src/crates/ticket/src/parent_links.rs] with what it uses of
    [src/crates/ticket/src/lib.rs]: the link table, the ancestor walk, setting a link under a
    compare-and-set with exact replay by operation key, and the pages of children.

    The database is a record of tables keyed by their primary keys; a connection counts the
    statements it has executed, and every statement may fail, as the environment of the call
    says.  A write runs in an immediate transaction: writers are serialized and an error
    leaves the database as it was.  JSON texts, the digest of a ticket's content, random ids,
    the clock and the hook on mutations are arguments. *)
From Stdlib Require Import ZArith String Ascii List Lia.
From stdpp Require Import base tactics numbers list gmap sets strings pretty relations sorting.
From S2P Require Import Prelude BTree.

Open Scope Z_scope.

Module TicketParents.

(** ** Data *)

Inductive TicketError :=
| Io (path : string)
| NotFound (query : string)
| Ambiguous (query : string) (matches : list string)
| Conflict (reason : string)
| OperationFingerprintMismatch (operation_key : string)
| Sqlite (message : string).

Inductive TicketState := Open | Closed.

Inductive TicketClosureReason :=
| Completed | NotPlanned | Duplicate | Unknown | Other (text : string).

Inductive TicketIdOrSlug := Id (value : string) | Slug (value : string) | Query (value : string).

Definition as_query (id : TicketIdOrSlug) : string :=
  match id with Id value | Slug value | Query value => value end.

Record TicketParentObservation := mkObservation {
  parent_ticket_id : option string;
  last_operation_key : option string
}.

#[export] Instance TicketParentObservation_eq_dec : EqDecision TicketParentObservation.
Proof. solve_decision. Defined.

Record TicketParentSetRequest := mkSetRequest {
  expected : TicketParentObservation;
  parent : option string;
  operation_key : string
}.

Record TicketLinkSummary := mkSummary {
  id : string;
  resource_key : string;
  title : string;
  state : TicketState;
  closure_reason : option TicketClosureReason
}.

Record TicketParentLink := mkLink {
  ticket_id : string;
  observation : TicketParentObservation;
  link_parent : option TicketLinkSummary
}.

Record ChildrenCursor := mkCursor {
  cursor_workspace_id : string;
  cursor_parent_ticket_id : string;
  after : string
}.

Record TicketChildrenRequest := mkChildrenRequest {
  cursor : option string;
  limit : option nat
}.

Record TicketChildrenPage := mkPage {
  page_parent_ticket_id : string;
  items : list TicketLinkSummary;
  next_cursor : option string;
  has_more : bool
}.

(** The fields [insert_event] stores. *)
Record TicketEvent := mkEvent {
  is_initial : bool;
  kind : string;
  event_author : option string;
  at_time : option string;
  status : option string;
  from_state : option string;
  to_state : option string;
  reason : option string;
  state_field : option string;
  heading : option string;
  body : string;
  references : list (string * string);
  attributes : btree string
}.

Record SqliteTicketMutationEvent := mkMutationEvent {
  mutation_workspace_id : string;
  mutation_ticket_id : string;
  event_index : Z;
  event_kind : string
}.

(** ** The database *)

Record TicketRow := mkTicketRow {
  slug : string;
  row_title : string;
  workflow_state : string;
  updated_at : option string
}.

Record OperationRow := mkOperationRow {
  op_ticket_id : string;
  input_json : string;
  before_json : string;
  result_json : string;
  source_context : btree string;
  op_at : string
}.

Record EventRow := mkEventRow {
  row_event : TicketEvent;
  event_ref : string;
  archived : bool
}.

Record OutboxRow := mkOutboxRow {
  event_id : string;
  outbox_workspace_id : string;
  outbox_ticket_id : string;
  event_type : string;
  occurred_at : string;
  domain_event_ref : string;
  content_digest : string
}.

(** The tables, keyed by workspace and row.  [resource_keys] holds the rows of kind
    [ticket] by resource id; [case_history] the text of [$.action.reason]. *)
Record Db := mkDb {
  typed_tickets : gmap (string * string) TicketRow;
  resource_keys : gmap (string * string) string;
  case_metadata : gmap (string * string) (option string);
  case_history : gmap (string * string * string) (option string);
  active_worker_assignments : list (string * string * string * string * string);
  parent_links : gmap (string * string) (option string * string);
  parent_operations : gmap (string * string) OperationRow;
  ticket_events : gmap (string * string * Z) EventRow;
  event_references : list (string * string * Z * nat * (string * string));
  event_attributes_rows : list (string * string * Z * (string * string));
  service_outbox : list OutboxRow
}.

Definition set_tickets (t : gmap (string * string) TicketRow) (d : Db) : Db :=
  mkDb t (resource_keys d) (case_metadata d) (case_history d) (active_worker_assignments d)
    (parent_links d) (parent_operations d) (ticket_events d) (event_references d)
    (event_attributes_rows d) (service_outbox d).

Definition set_links (t : gmap (string * string) (option string * string)) (d : Db) : Db :=
  mkDb (typed_tickets d) (resource_keys d) (case_metadata d) (case_history d)
    (active_worker_assignments d) t (parent_operations d) (ticket_events d)
    (event_references d) (event_attributes_rows d) (service_outbox d).

Definition set_operations (t : gmap (string * string) OperationRow) (d : Db) : Db :=
  mkDb (typed_tickets d) (resource_keys d) (case_metadata d) (case_history d)
    (active_worker_assignments d) (parent_links d) t (ticket_events d) (event_references d)
    (event_attributes_rows d) (service_outbox d).

Definition add_event (k : string * string * Z) (r : EventRow) (d : Db) : Db :=
  mkDb (typed_tickets d) (resource_keys d) (case_metadata d) (case_history d)
    (active_worker_assignments d) (parent_links d) (parent_operations d)
    (<[k := r]> (ticket_events d)) (event_references d) (event_attributes_rows d)
    (service_outbox d).

Definition add_reference (r : string * string * Z * nat * (string * string)) (d : Db) : Db :=
  mkDb (typed_tickets d) (resource_keys d) (case_metadata d) (case_history d)
    (active_worker_assignments d) (parent_links d) (parent_operations d) (ticket_events d)
    (event_references d ++ [r]) (event_attributes_rows d) (service_outbox d).

Definition add_attribute (r : string * string * Z * (string * string)) (d : Db) : Db :=
  mkDb (typed_tickets d) (resource_keys d) (case_metadata d) (case_history d)
    (active_worker_assignments d) (parent_links d) (parent_operations d) (ticket_events d)
    (event_references d) (event_attributes_rows d ++ [r]) (service_outbox d).

Definition add_outbox (r : OutboxRow) (d : Db) : Db :=
  mkDb (typed_tickets d) (resource_keys d) (case_metadata d) (case_history d)
    (active_worker_assignments d) (parent_links d) (parent_operations d) (ticket_events d)
    (event_references d) (event_attributes_rows d) (service_outbox d ++ [r]).

(** ** Statements *)

(** What a call meets: an error opening the database, the statements that fail, random ids,
    the clock and the user. *)
Record Env := mkEnv {
  open_error : option TicketError;
  faults : nat → option string;
  random_id : nat → string;
  now_utc : string;
  default_author : string
}.

Record Connection := mkConn { db : Db; executed : nat }.

(** [Stuck] is a panic or a walk that has not ended within its fuel. *)
Inductive outcome (A : Type) :=
| Done (value : A) (conn : Connection)
| Failed (error : TicketError)
| Stuck.
Arguments Done {A}.
Arguments Failed {A}.
Arguments Stuck {A}.

Definition M (A : Type) : Type := Env → Connection → outcome A.

Definition ret {A} (a : A) : M A := λ _ c, Done a c.
Definition fail {A} (e : TicketError) : M A := λ _ _, Failed e.
Definition panic {A} : M A := λ _ _, Stuck.
Definition bind {A B} (m : M A) (k : A → M B) : M B := λ env c,
  match m env c with
  | Done a c' => k a env c'
  | Failed e => Failed e
  | Stuck => Stuck
  end.

Notation "'let!' x := m 'in' k" := (bind m (λ x, k))
  (at level 10, x name, m at level 100, k at level 200).

Definition asks {A} (f : Env → A) : M A := λ env c, Done (f env) c.

(** The number of statements executed so far. *)
Definition statements : M nat := λ _ c, Done (executed c) c.

(** A statement that reads, and one that writes. *)
Definition query {A} (f : Db → A) : M A := λ env c,
  match faults env (executed c) with
  | Some message => Failed (Sqlite message)
  | None => Done (f (db c)) (mkConn (db c) (S (executed c)))
  end.

Definition execute (f : Db → Db) : M unit := λ env c,
  match faults env (executed c) with
  | Some message => Failed (Sqlite message)
  | None => Done tt (mkConn (f (db c)) (S (executed c)))
  end.

(** A write the table's constraints may refuse. *)
Definition execute_checked (ok : Db → bool) (f : Db → Db) : M unit := λ env c,
  if ok (db c) then execute f env c else Failed (Sqlite "constraint failed").

Fixpoint for_each {A} (l : list A) (f : A → M unit) : M unit :=
  match l with
  | [] => ret tt
  | x :: l => let! _ := f x in for_each l f
  end.

Fixpoint map_m {A B} (f : A → M B) (l : list A) : M (list B) :=
  match l with
  | [] => ret []
  | x :: l => let! y := f x in let! ys := map_m f l in ret (y :: ys)
  end.

(** [Option::map(f).transpose()?]. *)
Definition transpose {A B} (o : option A) (f : A → M B) : M (option B) :=
  match o with
  | None => ret None
  | Some x => let! y := f x in ret (Some y)
  end.

Definition ok_or {A} (o : option A) (e : TicketError) : M A :=
  match o with Some a => ret a | None => fail e end.

(** ** The backend *)

Record Backend := mkBackend {
  workspace_id : string;
  event_attributes : btree string;
  mutation_hook : option (Db → SqliteTicketMutationEvent → result Db TicketError)
}.

Section backend.
Context (reason_from_json : string → option TicketClosureReason).
Context (digest : Db → string → string → result (option string) TicketError).
Context (input_text : TicketIdOrSlug → TicketParentSetRequest → btree string → string).
Context (observation_text : TicketParentObservation → string).
Context (link_text : TicketParentLink → string).
Context (link_from_text : string → option TicketParentLink).
Context (cursor_text : ChildrenCursor → string).
Context (cursor_from_text : string → option ChildrenCursor).

(** [self] in the source. *)
Context (this : Backend).

(** ** Reading tickets *)

(** The identifiers [resolve_ticket_id] selects: tickets by id or slug, resource keys of
    tickets, in order and without repetition. *)
Definition ticket_matches (q : string) (d : Db) : list string :=
  omap (λ row : string * string * TicketRow,
          let '((ws, tid), r) := row in
          if String.eqb ws (workspace_id this) && (String.eqb tid q || String.eqb (slug r) q)
          then Some tid else None)
    (map_to_list (typed_tickets d)).

Definition key_matches (q : string) (d : Db) : list string :=
  omap (λ row : string * string * string,
          let '((ws, rid), key) := row in
          if String.eqb ws (workspace_id this) && String.eqb key q then Some rid else None)
    (map_to_list (resource_keys d)).

Definition resolve_ticket_id (i : TicketIdOrSlug) : M string :=
  let q := as_query i in
  let! matches := query (λ d, sort_unstable
                                (remove_dups (ticket_matches q d ++ key_matches q d))) in
  match matches with
  | [one] => ret one
  | [] => fail (NotFound q)
  | _ => fail (Ambiguous q matches)
  end.

Definition ticket_exists (i : string) : M bool :=
  query (λ d, bool_decide (is_Some (typed_tickets d !! (workspace_id this, i)))).

Definition resource_key_for (i : string) : M (option string) :=
  query (λ d, resource_keys d !! (workspace_id this, i)).

Definition resolve_parent_link_ticket (i : TicketIdOrSlug) : M string :=
  let! tid := resolve_ticket_id i in
  let! exists_ := ticket_exists tid in
  if exists_ then ret tid else fail (NotFound tid).

(** The row [load_link_summary] selects: title, state and, for a closed ticket, the reason
    of its closure. *)
Definition summary_row (i : string) (d : Db) : option (string * string * option string) :=
  match typed_tickets d !! (workspace_id this, i) with
  | None => None
  | Some r =>
      Some (row_title r, workflow_state r,
            if String.eqb (workflow_state r) "closed" then
              match case_metadata d !! (workspace_id this, i) with
              | Some (Some key) =>
                  match case_history d !! (workspace_id this, i, key) with
                  | Some text => text
                  | None => None
                  end
              | _ => None
              end
            else None)
  end.

(** A reason without braces is the name of a unit variant. *)
Definition reason_from_name (name : string) : option TicketClosureReason :=
  if String.eqb name "completed" then Some Completed
  else if String.eqb name "not_planned" then Some NotPlanned
  else if String.eqb name "duplicate" then Some Duplicate
  else if String.eqb name "unknown" then Some Unknown
  else None.

Definition parse_reason (text : string) : option TicketClosureReason :=
  if String.prefix "{" text then reason_from_json text else reason_from_name text.

Definition load_link_summary (i : string) : M TicketLinkSummary :=
  let! row := query (summary_row i) in
  let! row := ok_or row (NotFound i) in
  let '(title_, state_, reason_) := row in
  let! closure := transpose reason_ (λ text, ok_or (parse_reason text) (Sqlite "invalid reason")) in
  let! st := (if String.eqb state_ "open" then ret Open
              else if String.eqb state_ "closed" then ret Closed
              else fail (Conflict "invalid Ticket case state")) in
  let! key := resource_key_for i in
  let! key := ok_or key (Conflict "linked Ticket has no canonical key") in
  ret (mkSummary i key title_ st closure).

Definition parent_projection (tid : string) (o : TicketParentObservation)
  : M TicketParentLink :=
  let! p := transpose (parent_ticket_id o) load_link_summary in
  ret (mkLink tid o p).

Definition observation_of (i : string) (d : Db) : TicketParentObservation :=
  match parent_links d !! (workspace_id this, i) with
  | Some (p, key) => mkObservation p (Some key)
  | None => mkObservation None None
  end.

Definition load_parent_observation (i : string) : M TicketParentObservation :=
  query (observation_of i).

(** ** The guard of a ticket worker *)

Definition required (key : string) : M string :=
  match bt_get (event_attributes this) key with
  | Some value =>
      if trim_is_empty value then
        fail (Conflict ("Ticket mutation requires authenticated " +:+ key
                        +:+ " for an active assignment"))
      else ret value
  | None => fail (Conflict ("Ticket mutation requires authenticated " +:+ key
                            +:+ " for an active assignment"))
  end.

Definition require_active_source_assignment (tid : string) : M unit :=
  let is_worker := bool_decide (bt_get (event_attributes this) "source_actor_role"
                                = Some "ticket_worker") in
  if negb is_worker && negb (bt_contains_key (event_attributes this) "source_assignment_id")
  then ret tt
  else if negb is_worker
  then fail (Conflict "source assignment requires authenticated ticket_worker role")
  else
    let! runtime_id := required "source_runtime_id" in
    let! worker_id := required "source_worker_id" in
    let! assignment_id := required "source_assignment_id" in
    let! active := query (λ d, bool_decide
      ((workspace_id this, tid, runtime_id, worker_id, assignment_id)
         ∈ active_worker_assignments d)) in
    if active then ret tt
    else fail (Conflict ("Ticket mutation source assignment is no longer active for this "
                         +:+ "exact runtime/worker/Ticket identity")).

(** ** Events *)

(** [COALESCE(MAX(event_index), -1) + 1]. *)
Definition next_event_index (tid : string) (d : Db) : Z :=
  map_fold (λ (k : string * string * Z) (_ : EventRow) (n : Z),
              let '(ws, i, index) := k in
              if String.eqb ws (workspace_id this) && String.eqb i tid
              then Z.max n (index + 1) else n)
    0 (ticket_events d).

Definition print_index (z : Z) : string :=
  if z <? 0 then "-" +:+ pretty (Z.to_N (- z)) else pretty (Z.to_N z).

(** [service_outbox::insert] within a transaction. *)
Definition outbox_insert (tid event_type_ occurred_at_ domain_ref : string) : M string :=
  let! found := query (λ d, digest d (workspace_id this) tid) in
  let! found := (match found with Ok o => ret o | Err e => fail e end) in
  let! content := ok_or found (NotFound tid) in
  let! n := statements in
  let! new_id := asks (λ env, random_id env n) in
  let! _ := query (λ _, tt) in
  let! _ := execute (add_outbox (mkOutboxRow new_id (workspace_id this) tid event_type_
                                   occurred_at_ domain_ref content)) in
  ret new_id.

Definition run_mutation_hook (e : SqliteTicketMutationEvent) : M unit := λ _ c,
  match mutation_hook this with
  | None => Done tt c
  | Some hook =>
      match hook (db c) e with
      | Ok d => Done tt (mkConn d (executed c))
      | Err err => Failed err
      end
  end.

Definition insert_event (tid : string) (e : TicketEvent) : M unit :=
  let! index := (if is_initial e then ret (-1) else query (next_event_index tid)) in
  let ref := tid +:+ ":" +:+ print_index index in
  let ws := workspace_id this in
  let! _ := execute (add_event (ws, tid, index)
    (mkEventRow e ref (String.eqb (kind e) "create" || String.eqb (kind e) "item_edit"))) in
  let! _ := for_each (imap (λ n r, (n, r)) (references e)) (λ nr,
    execute (add_reference (ws, tid, index, fst nr, snd nr))) in
  let attrs := foldl (λ m kv, bt_insert (fst kv) (snd kv) m) (attributes e)
                 (event_attributes this) in
  let! _ := for_each attrs (λ kv, execute (add_attribute (ws, tid, index, kv))) in
  let! now := asks now_utc in
  let! _ := outbox_insert tid "changed" (default now (at_time e)) ref in
  run_mutation_hook (mkMutationEvent ws tid index (kind e)).

Definition touch_ticket (tid now : string) : M unit :=
  execute (λ d, set_tickets
    (alter (λ r, mkTicketRow (slug r) (row_title r) (workflow_state r) (Some now))
       (workspace_id this, tid) (typed_tickets d)) d).

(** ** The ancestor walk *)

Definition parent_row (i : string) (d : Db) : option string :=
  match parent_links d !! (workspace_id this, i) with
  | Some (p, _) => p
  | None => None
  end.

(** The loop of [require_acyclic_parent], bounded by [fuel]. *)
Fixpoint walk (fuel : nat) (child : string) (ancestor : option string) (visited : gset string)
  : M unit :=
  match fuel with
  | O => panic
  | S fuel =>
      match ancestor with
      | None => ret tt
      | Some i =>
          if String.eqb i child || bool_decide (i ∈ visited)
          then fail (Conflict "Ticket parent link would contain a cycle")
          else
            let! next := query (parent_row i) in
            walk fuel child next ({[i]} ∪ visited)
      end
  end.

(** As many steps as there are rows in the link table, and two. *)
Definition require_acyclic_parent (child : string) (p : option string) : M unit :=
  let! _ := query (λ _, tt) in
  λ env c, walk (2 + size (parent_links (db c))) child p ∅ env c.

(** ** Setting a link *)

Definition identity : btree string :=
  List.filter (λ kv : string * string,
    bool_decide (fst kv ∈ ["source_account_id"; "source_user_id"; "source_runtime_id";
                           "source_worker_id"]))
    (event_attributes this).

(** [BTreeMap::from] an array. *)
Definition btree_from (l : list (string * string)) : btree string :=
  foldl (λ m kv, bt_insert (fst kv) (snd kv) m) [] l.

Definition parent_changed_event (author now key before after_ : string) : TicketEvent :=
  mkEvent false "parent_changed" (Some author) (Some now) None None None None None
    (Some "Parent changed") "Ticket parent changed" []
    (btree_from [("operation_key", key); ("parent_before", before); ("parent_after", after_)]).

(** The constraints of [typed_ticket_parent_links]. *)
Definition link_allowed (tid : string) (p : option string) (key : string) (d : Db) : bool :=
  bool_decide (is_Some (typed_tickets d !! (workspace_id this, tid)))
  && match p with
     | None => true
     | Some q => bool_decide (is_Some (typed_tickets d !! (workspace_id this, q)))
                 && negb (String.eqb q tid)
     end
  && negb (String.eqb key EmptyString).

Definition upsert_link (tid : string) (p : option string) (key : string) : M unit :=
  execute_checked (link_allowed tid p key)
    (λ d, set_links (<[(workspace_id this, tid) := (p, key)]> (parent_links d)) d).

(** The constraints of [typed_ticket_parent_operations]. *)
Definition insert_operation (key : string) (row : OperationRow) : M unit :=
  execute_checked (λ d, negb (String.eqb key EmptyString)
                        && bool_decide (parent_operations d !! (workspace_id this, key) = None))
    (λ d, set_operations (<[(workspace_id this, key) := row]> (parent_operations d)) d).

(** The mutation of [set_parent_link], once the request is known not to be a replay. *)
Definition change_parent (i : TicketIdOrSlug) (request : TicketParentSetRequest) (input : string)
  : M TicketParentLink :=
  let! tid := resolve_parent_link_ticket i in
  let! _ := require_active_source_assignment tid in
  let! before := load_parent_observation tid in
  if negb (bool_decide (before = expected request))
  then fail (Conflict "stale Ticket parent observation; reread before editing")
  else
    let! p := transpose (parent request) (λ q, resolve_parent_link_ticket (Query q)) in
    let! _ := require_acyclic_parent tid p in
    let changed := negb (bool_decide (parent_ticket_id before = p)) in
    let o := if changed then mkObservation p (Some (operation_key request)) else before in
    let! now := asks now_utc in
    let! author := asks default_author in
    let! _ := (if changed then
                 let! _ := upsert_link tid (parent_ticket_id o) (operation_key request) in
                 let! _ := insert_event tid (parent_changed_event author now
                    (operation_key request) (observation_text before) (observation_text o)) in
                 touch_ticket tid now
               else ret tt) in
    let! result := parent_projection tid o in
    let! _ := insert_operation (operation_key request)
      (mkOperationRow (ticket_id result) input (observation_text before) (link_text result)
         (event_attributes this) now) in
    ret result.

Definition set_parent_link_body (i : TicketIdOrSlug) (request : TicketParentSetRequest)
  : M TicketParentLink :=
  let input := input_text i request identity in
  let! saved := query (λ d, parent_operations d !! (workspace_id this, operation_key request)) in
  match saved with
  | Some row =>
      if String.eqb (input_json row) input
      then ok_or (link_from_text (result_json row)) (Sqlite "invalid receipt")
      else fail (OperationFingerprintMismatch (operation_key request))
  | None => change_parent i request input
  end.

(** ** Transactions *)

(** A connection, [BEGIN IMMEDIATE] or [BEGIN], the operation, and [COMMIT] or [ROLLBACK]:
    the answer and the database after it.  [None] when the operation is stuck. *)
Definition transaction {A} (op : M A) (env : Env) (d : Db) : option (result A TicketError * Db) :=
  match open_error env with
  | Some e => Some (Err e, d)
  | None =>
      match faults env 0 with
      | Some message => Some (Err (Sqlite message), d)
      | None =>
          match op env (mkConn d 1) with
          | Done a c =>
              match faults env (executed c) with
              | Some message => Some (Err (Sqlite message), d)
              | None => Some (Ok a, db c)
              end
          | Failed e => Some (Err e, d)
          | Stuck => None
          end
      end
  end.

(** [str::contains]. *)
Definition contains (s sub : string) : bool :=
  match String.index 0 sub s with Some _ => true | None => false end.

Definition line_feed : string := String (ascii_of_nat 10) EmptyString.
Definition carriage_return : string := String (ascii_of_nat 13) EmptyString.

Definition validate_event_attr (key value : string) : result unit TicketError :=
  if trim_is_empty key || existsb is_whitespace (chars key) || contains key ":"
  then Err (Conflict ("thread event attribute key is invalid: " +:+ debug_str key))
  else if contains value line_feed || contains value carriage_return || contains value "-->"
  then Err (Conflict ("thread event attribute `" +:+ key +:+ "` must be a single safe comment value"))
  else Ok tt.

Definition validate_required_event_value (label value : string) : result unit TicketError :=
  if trim_is_empty value
  then Err (Conflict ("state_changed event requires non-empty " +:+ label))
  else validate_event_attr label value.

Definition set_parent_link (i : TicketIdOrSlug) (request : TicketParentSetRequest)
    (env : Env) (d : Db) : option (result TicketParentLink TicketError * Db) :=
  match validate_required_event_value "operation_key" (operation_key request) with
  | Err e => Some (Err e, d)
  | Ok _ => transaction (set_parent_link_body i request) env d
  end.

Definition parent_link (i : TicketIdOrSlug) (env : Env) (d : Db)
  : option (result TicketParentLink TicketError * Db) :=
  transaction (let! tid := resolve_parent_link_ticket i in
               let! o := load_parent_observation tid in
               parent_projection tid o) env d.

Definition read_link_summary (i : TicketIdOrSlug) (env : Env) (d : Db)
  : option (result TicketLinkSummary TicketError * Db) :=
  transaction (let! tid := resolve_parent_link_ticket i in load_link_summary tid) env d.

(** ** Pages of children *)

(** The children of a ticket in the order of their ids. *)
Definition children (p : string) (d : Db) : list string :=
  sort_unstable ((λ row : string * string * (option string * string), snd (fst row)) <$>
    map_to_list (filter (λ row : string * string * (option string * string),
                           fst (fst row) = workspace_id this ∧ fst (snd row) = Some p)
                   (parent_links d))).

(** [?3 IS NULL OR ticket_id > ?3]. *)
Definition after_cursor (a : option string) (tid : string) : bool :=
  match a with
  | None => true
  | Some x => match String.compare tid x with Gt => true | _ => false end
  end.

Definition decode_cursor (p : string) (text : string) : M string :=
  if 4096 <? Z.of_nat (String.length text) then fail (Conflict "invalid children cursor")
  else
    let! c := ok_or (cursor_from_text text) (Conflict "invalid children cursor") in
    if negb (String.eqb (cursor_workspace_id c) (workspace_id this))
       || negb (String.eqb (cursor_parent_ticket_id c) p)
    then fail (Conflict "children cursor belongs to another Workspace or parent")
    else ret (after c).

Definition children_page_body (p : TicketIdOrSlug) (request : TicketChildrenRequest) (lim : nat)
  : M TicketChildrenPage :=
  let! tid := resolve_parent_link_ticket p in
  let! a := transpose (cursor request) (decode_cursor tid) in
  let! ids := query (λ d, take (lim + 1) (List.filter (after_cursor a) (children tid d))) in
  let more := (lim <? length ids)%nat in
  let ids := take lim ids in
  let! next := (if more then
                  match last ids with
                  | Some x => ret (Some (cursor_text (mkCursor (workspace_id this) tid x)))
                  | None => panic
                  end
                else ret None) in
  let! summaries := map_m load_link_summary ids in
  ret (mkPage tid summaries next more).

Definition children_page (p : TicketIdOrSlug) (request : TicketChildrenRequest) (env : Env)
    (d : Db) : option (result TicketChildrenPage TicketError * Db) :=
  let lim := default 50%nat (limit request) in
  if negb ((1 <=? lim)%nat && (lim <=? 100)%nat)
  then Some (Err (Conflict "children limit must be 1..=100"), d)
  else transaction (children_page_body p request lim) env d.

End backend.

Notation "'let!' x := m 'in' k" := (bind m (λ x, k))
  (at level 10, x name, m at level 100, k at level 200).

(** ** Lemmas: statements *)

Lemma bind_Done {A B} (m : M A) (k : A → M B) env c b c' :
  bind m k env c = Done b c' ↔ ∃ a c1, m env c = Done a c1 ∧ k a env c1 = Done b c'.
Proof.
  unfold bind. split.
  - destruct (m env c) as [a c1|e|]; naive_solver.
  - intros (a & c1 & -> & H). done.
Qed.

(** [keeps R m]: the database after [m] is related to the one before. *)
Definition keeps (R : relation Db) {A} (m : M A) : Prop :=
  ∀ env c a c', m env c = Done a c' → R (db c) (db c').

(** [safe m]: [m] does not get stuck. *)
Definition safe {A} (m : M A) : Prop := ∀ env c, m env c ≠ Stuck.

Create HintDb stmt.

Section keeps.
Context (R : relation Db) `{!PreOrder R}.

Lemma keeps_ret {A} (a : A) : keeps R (ret a).
Proof. intros env c b c' [= <- <-]. done. Qed.

Lemma keeps_fail {A} e : keeps R (fail (A:=A) e).
Proof. done. Qed.

Lemma keeps_panic {A} : keeps R (panic (A:=A)).
Proof. done. Qed.

Lemma keeps_asks {A} (f : Env → A) : keeps R (asks f).
Proof. intros env c b c' [= <- <-]. done. Qed.

Lemma keeps_bind {A B} (m : M A) (k : A → M B) :
  keeps R m → (∀ a, keeps R (k a)) → keeps R (bind m k).
Proof.
  intros Hm Hk env c b c' (a & c1 & H1 & H2)%bind_Done. trans (db c1); [by eapply Hm|].
  by eapply Hk.
Qed.

Lemma keeps_query {A} (f : Db → A) : keeps R (query f).
Proof. intros env c b c'. unfold query. destruct (faults _ _); [done|]. by intros [= <- <-]. Qed.

Lemma keeps_execute f : (∀ d, R d (f d)) → keeps R (execute f).
Proof.
  intros Hf env c b c'. unfold execute. destruct (faults _ _); [done|].
  intros [= <- <-]. apply Hf.
Qed.

Lemma keeps_checked ok f : (∀ d, R d (f d)) → keeps R (execute_checked ok f).
Proof.
  intros Hf env c b c'. unfold execute_checked. destruct (ok _); [by apply keeps_execute|done].
Qed.

Lemma keeps_for_each {A} (l : list A) f : (∀ x, keeps R (f x)) → keeps R (for_each l f).
Proof. intros Hf. induction l; simpl; [apply keeps_ret|by apply keeps_bind]. Qed.

Lemma keeps_map_m {A B} (f : A → M B) l : (∀ x, keeps R (f x)) → keeps R (map_m f l).
Proof.
  intros Hf. induction l; simpl; [apply keeps_ret|].
  apply keeps_bind; [done|intros y]. apply keeps_bind; [done|intros ys; apply keeps_ret].
Qed.

Lemma keeps_transpose {A B} (o : option A) (f : A → M B) :
  (∀ x, keeps R (f x)) → keeps R (transpose o f).
Proof.
  intros Hf. destruct o; simpl; [|apply keeps_ret].
  apply keeps_bind; [done|intros; apply keeps_ret].
Qed.

Lemma keeps_ok_or {A} (o : option A) e : keeps R (ok_or o e).
Proof. destruct o; [apply keeps_ret|apply keeps_fail]. Qed.
End keeps.

Lemma safe_ret {A} (a : A) : safe (ret a).
Proof. done. Qed.

Lemma safe_fail {A} e : safe (fail (A:=A) e).
Proof. done. Qed.

Lemma safe_asks {A} (f : Env → A) : safe (asks f).
Proof. done. Qed.

Lemma safe_bind {A B} (m : M A) (k : A → M B) : safe m → (∀ a, safe (k a)) → safe (bind m k).
Proof.
  intros Hm Hk env c. unfold bind. pose proof (Hm env c).
  destruct (m env c); [apply Hk|done|done].
Qed.

Lemma safe_query {A} (f : Db → A) : safe (query f).
Proof. intros env c. unfold query. by destruct (faults _ _). Qed.

Lemma safe_execute f : safe (execute f).
Proof. intros env c. unfold execute. by destruct (faults _ _). Qed.

Lemma safe_checked ok f : safe (execute_checked ok f).
Proof. intros env c. unfold execute_checked. destruct (ok _); [apply safe_execute|done]. Qed.

Lemma safe_for_each {A} (l : list A) f : (∀ x, safe (f x)) → safe (for_each l f).
Proof. intros Hf. induction l; simpl; [apply safe_ret|by apply safe_bind]. Qed.

Lemma safe_map_m {A B} (f : A → M B) l : (∀ x, safe (f x)) → safe (map_m f l).
Proof.
  intros Hf. induction l; simpl; [apply safe_ret|].
  apply safe_bind; [done|intros y]. apply safe_bind; [done|intros ys; apply safe_ret].
Qed.

Lemma safe_transpose {A B} (o : option A) (f : A → M B) :
  (∀ x, safe (f x)) → safe (transpose o f).
Proof.
  intros Hf. destruct o; simpl; [|apply safe_ret]. apply safe_bind; [done|intros; apply safe_ret].
Qed.

Lemma safe_ok_or {A} (o : option A) e : safe (ok_or o e).
Proof. by destruct o. Qed.

#[export] Hint Resolve keeps_ret keeps_fail keeps_asks keeps_query keeps_transpose keeps_ok_or
  keeps_map_m keeps_for_each keeps_bind keeps_panic safe_ret safe_fail safe_asks safe_query
  safe_execute safe_checked safe_for_each safe_map_m safe_transpose safe_ok_or safe_bind : stmt.

(** Splits a computation into its statements. *)
Ltac stmts :=
  repeat match goal with
  | |- ∀ _, _ => intros
  | |- keeps _ (bind _ _) => apply keeps_bind; [typeclasses eauto|..]
  | |- safe (bind _ _) => apply safe_bind
  | |- context [match ?x with _ => _ end] => destruct x
  | |- _ => solve [eauto with stmt typeclass_instances]
  end.

(** Names the intermediate results of a computation that succeeded. *)
Ltac bind_inv H :=
  let a := fresh "a" in let c := fresh "c" in let Ha := fresh "Hm" in
  apply bind_Done in H as (a & c & Ha & H).

(** ** Lemmas: the walk *)

(** The parent relation of a workspace, and that it has no cycle. *)
Definition edge (ws : string) (links : gmap (string * string) (option string * string))
    (x y : string) : Prop :=
  ∃ key, links !! (ws, x) = Some (Some y, key).

Definition acyclic (d : Db) : Prop := ∀ ws x, ¬ tc (edge ws (parent_links d)) x x.

Section walk.
Context (this : Backend).
Abbreviation ws := (workspace_id this).
Abbreviation edge_of d := (edge ws (parent_links d)).

Lemma parent_row_edge i y d : parent_row this i d = Some y ↔ edge_of d i y.
Proof.
  unfold parent_row, edge. destruct (parent_links d !! (ws, i)) as [[p k]|]; naive_solver.
Qed.

Lemma edge_functional d x y z : edge_of d x y → edge_of d x z → y = z.
Proof. rewrite <- !parent_row_edge. congruence. Qed.

Lemma walk_step fuel child i visited env c :
  i ≠ child → i ∉ visited →
  walk this (S fuel) child (Some i) visited env c
  = bind (query (parent_row this i)) (λ next, walk this fuel child next ({[i]} ∪ visited)) env c.
Proof.
  intros Hc Hv. cbn [walk]. by rewrite (proj2 (String.eqb_neq _ _) Hc), bool_decide_false by done.
Qed.

Lemma walk_keeps fuel child a visited : keeps eq (walk this fuel child a visited).
Proof. revert a visited. induction fuel; cbn [walk]; stmts. Qed.

(** A walk that succeeds has seen every ancestor. *)
Lemma walk_sound : ∀ fuel child i visited env c c',
  walk this fuel child (Some i) visited env c = Done tt c' →
  ∀ y, rtc (edge_of (db c)) i y → y ≠ child.
Proof.
  induction fuel as [|fuel IH]; intros child i visited env c c' Hw y Hy; [done|].
  destruct (decide (i = child ∨ i ∈ visited)) as [Hd|Hd].
  { cbn [walk] in Hw. destruct Hd as [->|Hd].
    - by rewrite String.eqb_refl in Hw.
    - rewrite (bool_decide_true _ Hd), orb_true_r in Hw. done. }
  rewrite walk_step in Hw by tauto. bind_inv Hw.
  pose proof (keeps_query eq _ _ _ _ _ Hm) as Hdb.
  unfold query in Hm. destruct (faults _ _); [done|]. injection Hm as <- <-.
  destruct (rtc_inv _ _ Hy) as [->|(z & Hz & Hzy)]; [tauto|].
  apply parent_row_edge in Hz as Hz'. rewrite Hz' in Hw.
  eapply IH; [exact Hw|]. exact Hzy.
Qed.

(** The ids visited are rows of the link table, so there are not more of them. *)
Lemma visited_size (d : Db) (visited : gset string) :
  (∀ x, x ∈ visited → is_Some (parent_links d !! (ws, x))) →
  (size visited ≤ size (parent_links d))%nat.
Proof.
  intros Hv. rewrite <- (size_dom (D:=gset (string * string))). unfold size, set_size. simpl.
  rewrite <- (length_fmap (pair ws)). apply submseteq_length, NoDup_submseteq.
  - apply NoDup_fmap_2; [intros ???; congruence|apply NoDup_elements].
  - intros x (y & -> & Hy)%list_elem_of_fmap. apply elem_of_elements, elem_of_dom.
    apply Hv. by apply elem_of_elements.
Qed.

Lemma walk_enough : ∀ fuel child a visited env c,
  (∀ x, x ∈ visited → is_Some (parent_links (db c) !! (ws, x))) →
  (match a with
   | None => 1
   | Some _ => 2 + size (parent_links (db c)) - size visited
   end ≤ fuel)%nat →
  walk this fuel child a visited env c ≠ Stuck.
Proof.
  induction fuel as [|fuel IH]; intros child a visited env c Hv Hf.
  { pose proof (visited_size _ _ Hv). destruct a; lia. }
  destruct a as [i|]; [|done].
  destruct (decide (i = child ∨ i ∈ visited)) as [Hd|Hd].
  { cbn [walk]. destruct Hd as [->|Hd]; [by rewrite String.eqb_refl|].
    by rewrite (bool_decide_true _ Hd), orb_true_r. }
  rewrite walk_step by tauto. unfold bind, query. destruct (faults _ _); [done|].
  pose proof (visited_size _ _ Hv). destruct (parent_row this i (db c)) as [z|] eqn:Hz.
  - assert (Hrow : ∀ x, x ∈ {[i]} ∪ visited → is_Some (parent_links (db c) !! (ws, x))).
    { intros x [->%elem_of_singleton|]%elem_of_union; [|by apply Hv].
      apply parent_row_edge in Hz as [k ->]. done. }
    apply IH; [exact Hrow|]. cbn [db].
    rewrite size_union by set_solver. rewrite size_singleton. lia.
  - destruct fuel; [lia|done].
Qed.

(** In a table without cycles and without failing statements the walk reports a cycle only
    if the child is an ancestor. *)
Lemma walk_refused : ∀ fuel child a visited env c e,
  (∀ n, faults env n = None) →
  (∀ x, ¬ tc (edge_of (db c)) x x) →
  (∀ i x, a = Some i → x ∈ visited → tc (edge_of (db c)) x i) →
  walk this fuel child a visited env c = Failed e →
  e = Conflict "Ticket parent link would contain a cycle"
  ∧ ∃ i, a = Some i ∧ rtc (edge_of (db c)) i child.
Proof.
  induction fuel as [|fuel IH]; intros child a visited env c e Hnf Hac Hv Hw; [done|].
  destruct a as [i|]; [|done].
  assert (Hn : i ∉ visited) by (intros Hin; by apply (Hac i), Hv).
  destruct (decide (i = child)) as [->|Hi].
  { cbn [walk] in Hw. rewrite String.eqb_refl in Hw. injection Hw as <-.
    split; [done|]. exists child. auto using rtc_refl. }
  rewrite walk_step in Hw by done. unfold bind, query in Hw. rewrite Hnf in Hw.
  apply IH in Hw as (-> & j & Hj & Hr); cbn [db] in *; [|done..|].
  - split; [done|]. exists i. split; [done|]. apply parent_row_edge in Hj. by eapply rtc_l.
  - intros j x Hj. apply parent_row_edge in Hj.
    intros [->%elem_of_singleton|Hx]%elem_of_union; [by apply tc_once|].
    eapply tc_r; [by apply Hv|done].
Qed.
End walk.

(** ** Lemmas: inserting a link *)

Section insert_link.
Context (links : gmap (string * string) (option string * string)).
Context (ws child key : string) (p : option string).
Hypothesis no_ancestor : ∀ q, p = Some q → ∀ y, rtc (edge ws links) q y → y ≠ child.
Abbreviation links' := (<[(ws, child) := (p, key)]> links).

Lemma edge_insert x y :
  edge ws links' x y ↔ (x = child ∧ p = Some y) ∨ (x ≠ child ∧ edge ws links x y).
Proof.
  unfold edge. destruct (decide (x = child)) as [->|Hne].
  - setoid_rewrite lookup_insert_eq. naive_solver.
  - assert (Hk : (ws, child) ≠ (ws, x)) by congruence.
    split.
    + intros [k Hl]. rewrite lookup_insert_ne in Hl by done. naive_solver.
    + intros [[]|[_ [k Hl]]]; [done|]. exists k. by rewrite lookup_insert_ne.
Qed.

Lemma edge_insert_other ws' x y :
  ws' ≠ ws → edge ws' links' x y ↔ edge ws' links x y.
Proof.
  intros Hne. unfold edge. assert (Hk : (ws, child) ≠ (ws', x)) by congruence.
  split; intros [k Hl]; exists k; [rewrite lookup_insert_ne in Hl by done; done|].
  by rewrite lookup_insert_ne.
Qed.

(** Above the new parent nothing changes, and the child is not there. *)
Lemma above_parent q y : p = Some q → rtc (edge ws links') q y → rtc (edge ws links) q y.
Proof.
  intros Hp. revert y. apply (rtc_ind_r (rtc (edge ws links) q)); [done|].
  intros y z Hr He IH. apply edge_insert in He as [[-> _]|[_ He]].
  - by destruct (no_ancestor q Hp child IH).
  - by eapply rtc_r.
Qed.

Lemma tc_insert x y :
  tc (edge ws links') x y →
  tc (edge ws links) x y ∨ ∃ q, p = Some q ∧ rtc (edge ws links') x child
                                ∧ rtc (edge ws links') q y.
Proof.
  revert y. apply (tc_ind_r (λ y, tc (edge ws links) x y ∨
    ∃ q, p = Some q ∧ rtc (edge ws links') x child ∧ rtc (edge ws links') q y)).
  - intros y He. apply edge_insert in He as [[-> Hp]|[_ He]]; [right|left; by apply tc_once].
    exists y. auto using rtc_refl.
  - intros y z Ht He IH. pose proof He as He'. apply edge_insert in He as [[-> Hp]|[Hne He]].
    + right. exists z. split_and!; [done|by apply tc_rtc|apply rtc_refl].
    + destruct IH as [IH|(q & Hp & Hx & Hq)]; [left; by eapply tc_r|].
      right. exists q. split_and!; [done..|]. by eapply rtc_r.
Qed.

Lemma insert_acyclic ws' :
  (∀ x, ¬ tc (edge ws' links) x x) → ∀ x, ¬ tc (edge ws' links') x x.
Proof.
  intros Hac x Ht. destruct (decide (ws' = ws)) as [->|Hne].
  - apply tc_insert in Ht as [Ht|(q & Hp & Hx & Hq)]; [by apply (Hac x)|].
    eapply (no_ancestor q Hp child); [|done]. apply above_parent; [done|].
    by trans x.
  - apply (Hac x). clear Hac. revert Ht. generalize x at 2 4. intros y Ht.
    induction Ht as [a b He|a b z He _ IH].
    + apply tc_once. by apply edge_insert_other.
    + eapply tc_l; [by apply edge_insert_other|done].
Qed.
End insert_link.

(** ** Lemmas: setting a link *)

(** The link and operation tables are as before. *)
Definition tables_kept (d d' : Db) : Prop :=
  parent_links d' = parent_links d ∧ parent_operations d' = parent_operations d.

#[export] Instance tables_kept_preorder : PreOrder tables_kept.
Proof.
  split; [done|]. intros a b c [H1 H2] [H3 H4]. unfold tables_kept. by rewrite H3, H4.
Qed.

(** A mutation hook does not write the link and operation tables. *)
Definition hook_keeps_tables (this : Backend) : Prop :=
  ∀ hook d e d', mutation_hook this = Some hook → hook d e = Ok d' → tables_kept d d'.

(** A key that fits on one line of a comment. *)
Definition safe_key (key : string) : Prop :=
  trim_is_empty key = false ∧ contains key line_feed = false ∧ contains key carriage_return = false
  ∧ contains key "-->" = false.

Lemma valid_operation_key key :
  is_ok (validate_required_event_value "operation_key" key) = true ↔ safe_key key.
Proof.
  unfold validate_required_event_value, validate_event_attr, safe_key.
  destruct (trim_is_empty key); [naive_solver|].
  change (trim_is_empty "operation_key" || _ || _) with false. cbv iota.
  destruct (contains key line_feed), (contains key carriage_return), (contains key "-->"); simpl; naive_solver.
Qed.

Section set_parent.
Context (reason_from_json : string → option TicketClosureReason).
Context (digest : Db → string → string → result (option string) TicketError).
Context (input_text : TicketIdOrSlug → TicketParentSetRequest → btree string → string).
Context (observation_text : TicketParentObservation → string).
Context (link_text : TicketParentLink → string).
Context (link_from_text : string → option TicketParentLink).
Context (this : Backend).
Abbreviation ws := (workspace_id this).
Abbreviation summary := (load_link_summary reason_from_json this).
Abbreviation projection := (parent_projection reason_from_json this).
Abbreviation set_link :=
  (set_parent_link reason_from_json digest input_text observation_text link_text link_from_text
     this).
Abbreviation change :=
  (change_parent reason_from_json digest observation_text link_text this).

Lemma resolve_keeps i : keeps eq (resolve_ticket_id this i).
Proof. unfold resolve_ticket_id. stmts. Qed.

Lemma resolve_safe i : safe (resolve_ticket_id this i).
Proof. unfold resolve_ticket_id. stmts. Qed.

Lemma exists_keeps i : keeps eq (ticket_exists this i).
Proof. unfold ticket_exists. stmts. Qed.

Lemma exists_safe i : safe (ticket_exists this i).
Proof. unfold ticket_exists. stmts. Qed.

#[local] Hint Resolve resolve_keeps resolve_safe exists_keeps exists_safe : stmt.

Lemma resolve_link_keeps i : keeps eq (resolve_parent_link_ticket this i).
Proof. unfold resolve_parent_link_ticket. stmts. Qed.

Lemma resolve_link_safe i : safe (resolve_parent_link_ticket this i).
Proof. unfold resolve_parent_link_ticket. stmts. Qed.

Lemma summary_keeps i : keeps eq (summary i).
Proof. unfold load_link_summary, resource_key_for. stmts. Qed.

Lemma summary_safe i : safe (summary i).
Proof. unfold load_link_summary, resource_key_for. stmts. Qed.

#[local] Hint Resolve resolve_link_keeps resolve_link_safe summary_keeps summary_safe : stmt.

Lemma projection_keeps tid o : keeps eq (projection tid o).
Proof. unfold parent_projection. stmts. Qed.

Lemma projection_safe tid o : safe (projection tid o).
Proof. unfold parent_projection. stmts. Qed.

Lemma required_keeps key : keeps eq (required this key).
Proof. unfold required. stmts. Qed.

Lemma required_safe key : safe (required this key).
Proof. unfold required. stmts. Qed.

#[local] Hint Resolve projection_keeps projection_safe required_keeps required_safe : stmt.

Lemma assignment_keeps tid : keeps eq (require_active_source_assignment this tid).
Proof. unfold require_active_source_assignment. stmts. Qed.

Lemma assignment_safe tid : safe (require_active_source_assignment this tid).
Proof. unfold require_active_source_assignment. stmts. Qed.

Lemma acyclic_keeps child p : keeps eq (require_acyclic_parent this child p).
Proof.
  unfold require_acyclic_parent. stmts. intros env c a' c' Hw. by eapply walk_keeps.
Qed.

Lemma acyclic_safe child p : safe (require_acyclic_parent this child p).
Proof.
  unfold require_acyclic_parent. apply safe_bind; [stmts|]. intros _ env c.
  apply walk_enough; [set_solver|]. destruct p; rewrite ?size_empty; lia.
Qed.

#[local] Hint Resolve assignment_keeps assignment_safe acyclic_keeps acyclic_safe : stmt.

Lemma outbox_keeps tid a b r : keeps tables_kept (outbox_insert digest this tid a b r).
Proof.
  unfold outbox_insert. stmts.
  - intros env c v c' [= <- <-]. done.
  - by apply keeps_execute.
Qed.

Lemma outbox_safe tid a b r : safe (outbox_insert digest this tid a b r).
Proof. unfold outbox_insert. stmts. by intros env c. Qed.

Lemma hook_safe e : safe (run_mutation_hook this e).
Proof.
  intros env c. unfold run_mutation_hook. destruct (mutation_hook this) as [hook|]; [|done].
  by destruct (hook _ _).
Qed.

Lemma hook_keeps e : hook_keeps_tables this → keeps tables_kept (run_mutation_hook this e).
Proof.
  intros Hh env c v c'. unfold run_mutation_hook. destruct (mutation_hook this) as [hook|] eqn:Hm.
  - destruct (hook (db c) e) as [d|] eqn:He; [|done]. intros [= _ <-]. by eapply Hh.
  - by intros [= _ <-].
Qed.

#[local] Hint Resolve outbox_keeps outbox_safe hook_safe hook_keeps : stmt.

Lemma insert_event_keeps tid e :
  hook_keeps_tables this → keeps tables_kept (insert_event digest this tid e).
Proof.
  intros Hh. unfold insert_event. stmts; [by apply keeps_execute|..].
  all: apply keeps_for_each; [apply _|]; intros; by apply keeps_execute.
Qed.

Lemma insert_event_safe tid e : safe (insert_event digest this tid e).
Proof. unfold insert_event. stmts. Qed.

Lemma touch_keeps tid now : keeps tables_kept (touch_ticket this tid now).
Proof. by apply keeps_execute. Qed.

Lemma touch_safe tid now : safe (touch_ticket this tid now).
Proof. unfold touch_ticket. stmts. Qed.

#[local] Hint Resolve insert_event_safe touch_safe : stmt.

Lemma resolve_link_exists i env c tid c' :
  resolve_parent_link_ticket this i env c = Done tid c' →
  is_Some (typed_tickets (db c) !! (ws, tid)).
Proof.
  unfold resolve_parent_link_ticket. intros H. bind_inv H.
  rewrite (resolve_keeps _ _ _ _ _ Hm). bind_inv H. unfold ticket_exists, query in Hm0.
  destruct (faults _ _); [done|]. injection Hm0 as <- <-.
  case_bool_decide as He; [|done]. by injection H as <- <-.
Qed.

Lemma acyclic_no_ancestor child p env c v c' :
  require_acyclic_parent this child p env c = Done v c' →
  ∀ q, p = Some q → ∀ y, rtc (edge ws (parent_links (db c))) q y → y ≠ child.
Proof.
  unfold require_acyclic_parent. intros H q -> y. bind_inv H. destruct v.
  rewrite (keeps_query eq _ _ _ _ _ Hm). by eapply walk_sound.
Qed.

Definition new_observation (before : TicketParentObservation) (p : option string) (key : string)
  : TicketParentObservation :=
  if bool_decide (parent_ticket_id before = p) then before else mkObservation p (Some key).

(** What a request that is not a replay does when it succeeds: the ticket and the parent
    exist, the link is what the caller expected, the child is not among the ancestors of the
    parent, and exactly the link, if it differs, and the receipt are written. *)
Definition link_changed (d d' : Db) (i : TicketIdOrSlug) (request : TicketParentSetRequest)
    (input : string) (r : TicketParentLink) : Prop :=
  let key := operation_key request in
  ∃ tid p row,
    parent_operations d !! (ws, key) = None
    ∧ is_Some (typed_tickets d !! (ws, tid))
    ∧ (∀ q, p = Some q → is_Some (typed_tickets d !! (ws, q)))
    ∧ (p = None ↔ parent request = None)
    ∧ observation_of this tid d = expected request
    ∧ (∀ q, p = Some q → ∀ y, rtc (edge ws (parent_links d)) q y → y ≠ tid)
    ∧ ticket_id r = tid
    ∧ observation r = new_observation (expected request) p key
    ∧ parent_links d' = (if bool_decide (parent_ticket_id (expected request) = p)
                         then parent_links d
                         else <[(ws, tid) := (p, key)]> (parent_links d))
    ∧ parent_operations d' = <[(ws, key) := row]> (parent_operations d)
    ∧ input_json row = input ∧ result_json row = link_text r.

Lemma transpose_resolve_exists o env c p c' :
  transpose o (λ q, resolve_parent_link_ticket this (Query q)) env c = Done p c' →
  (p = None ↔ o = None)
  ∧ ∀ q, p = Some q → is_Some (typed_tickets (db c) !! (ws, q)).
Proof.
  destruct o as [q|]; cbn [transpose]; intros H.
  - bind_inv H. injection H as <- <-. split; [done|]. intros q' [= <-].
    by eapply resolve_link_exists.
  - injection H as <- <-. done.
Qed.

Lemma projection_spec tid o env c r c' :
  projection tid o env c = Done r c' → ticket_id r = tid ∧ observation r = o.
Proof. unfold parent_projection. intros H. bind_inv H. by injection H as <- <-. Qed.

Lemma execute_checked_Done ok f env c v c' :
  execute_checked ok f env c = Done v c' → ok (db c) = true ∧ db c' = f (db c).
Proof.
  unfold execute_checked, execute. destruct (ok (db c)); [|done].
  destruct (faults _ _); [done|]. by intros [= _ <-].
Qed.

(** The write of [change_parent]. *)
Lemma write_link_spec (changed : bool) tid p key now e env c v c' :
  hook_keeps_tables this →
  (if changed then
     let! _ := upsert_link this tid p key in
     let! _ := insert_event digest this tid e in
     touch_ticket this tid now
   else ret tt) env c = Done v c' →
  parent_operations (db c') = parent_operations (db c)
  ∧ parent_links (db c') = (if changed then <[(ws, tid) := (p, key)]> (parent_links (db c))
                            else parent_links (db c)).
Proof.
  intros Hh. destruct changed; [|by intros [= _ <-]]. intros H. bind_inv H.
  apply execute_checked_Done in Hm as [_ Hm]. bind_inv H.
  destruct (insert_event_keeps _ _ Hh _ _ _ _ Hm0) as [H1 H2].
  destruct (touch_keeps _ _ _ _ _ _ H) as [H3 H4].
  rewrite H3, H4, H1, H2, Hm. done.
Qed.

Lemma change_parent_spec i request input env c r c' :
  hook_keeps_tables this →
  parent_operations (db c) !! (ws, operation_key request) = None →
  change i request input env c = Done r c' →
  link_changed (db c) (db c') i request input r.
Proof.
  intros Hh Hnone H. unfold change_parent in H. do 3 bind_inv H.
  pose proof (resolve_link_exists _ _ _ _ _ Hm) as Htid.
  apply resolve_link_keeps in Hm. apply assignment_keeps in Hm0. rewrite Hm, Hm0 in *.
  unfold load_parent_observation, query in Hm1. destruct (faults _ _); [done|].
  injection Hm1 as <- <-. cbn [db] in *.
  case_bool_decide as Hexp; [|done]. cbn [negb] in H. do 4 bind_inv H.
  apply transpose_resolve_exists in Hm1 as Hp. destruct Hp as [Hp Hpe].
  apply (keeps_transpose eq) in Hm1; [|intros; apply resolve_link_keeps].
  cbn [db] in Hm1. rewrite Hm1 in *.
  pose proof (acyclic_no_ancestor _ _ _ _ _ _ Hm2) as Hno. apply acyclic_keeps in Hm2.
  injection Hm3 as <- <-. injection Hm4 as <- <-. rewrite Hm2 in *. do 3 bind_inv H.
  apply write_link_spec in Hm3 as [Hops Hlinks]; [|done].
  apply projection_spec in Hm4 as Hr. destruct Hr as [Hr1 Hr2]. apply projection_keeps in Hm4.
  unfold insert_operation in Hm5. apply execute_checked_Done in Hm5 as [_ Hd]. injection H as <- <-.
  exists a, a1. eexists. rewrite Hd. cbn [parent_links parent_operations set_operations].
  rewrite <- Hm4, Hops, Hlinks, Hr2. unfold new_observation. rewrite <- Hexp in *.
  split_and!; try done; by case_bool_decide.
Qed.

Lemma change_parent_safe i request input : safe (change i request input).
Proof.
  unfold change_parent, load_parent_observation, insert_operation, upsert_link. stmts.
Qed.

Lemma transaction_total {A} (op : M A) env d : safe op → is_Some (transaction op env d).
Proof.
  intros Hs. unfold transaction. destruct (open_error env); [by eexists|].
  destruct (faults env 0); [by eexists|]. pose proof (Hs env (mkConn d 1)).
  destruct (op env (mkConn d 1)) as [a c|e|]; [|by eexists|done].
  destruct (faults env (executed c)); by eexists.
Qed.

Lemma transaction_cases {A} (op : M A) env d res d' :
  transaction op env d = Some (res, d') →
  match res with
  | Err _ => d' = d
  | Ok a => ∃ c, op env (mkConn d 1) = Done a c ∧ d' = db c
  end.
Proof.
  unfold transaction. destruct (open_error env); [by intros [= <- <-]|].
  destruct (faults env 0); [by intros [= <- <-]|].
  destruct (op env (mkConn d 1)) as [a c|e|]; [|by intros [= <- <-]|done].
  destruct (faults env (executed c)); intros [= <- <-]; [done|by exists c].
Qed.

(** A request whose key is stored is answered by the stored receipt. *)
Definition replayed (d : Db) (request : TicketParentSetRequest) (input : string)
    (r : TicketParentLink) : Prop :=
  ∃ row, parent_operations d !! (ws, operation_key request) = Some row
         ∧ input_json row = input ∧ link_from_text (result_json row) = Some r.

Definition set_outcome (d d' : Db) (i : TicketIdOrSlug) (request : TicketParentSetRequest)
    (res : result TicketParentLink TicketError) : Prop :=
  match res with
  | Err _ => d' = d
  | Ok r =>
      let input := input_text i request (identity this) in
      safe_key (operation_key request)
      ∧ ((d' = d ∧ replayed d request input r) ∨ link_changed d d' i request input r)
  end.

Lemma set_link_total i request env d : is_Some (set_link i request env d).
Proof.
  unfold set_parent_link. destruct (validate_required_event_value _ _); [|by eexists].
  apply transaction_total. unfold set_parent_link_body. apply safe_bind; [stmts|].
  intros [row|]; [|apply change_parent_safe]. destruct (String.eqb _ _); stmts.
Qed.

Lemma set_link_cases i request env d res d' :
  hook_keeps_tables this →
  set_link i request env d = Some (res, d') → set_outcome d d' i request res.
Proof.
  intros Hh. unfold set_parent_link. pose proof (valid_operation_key (operation_key request)) as Hk.
  destruct (validate_required_event_value _ _); [|by intros [= <- <-]]. apply proj1 in Hk. specialize (Hk eq_refl).
  intros Ht%transaction_cases. destruct res as [r|e]; [|done].
  destruct Ht as (c & H & ->). split; [done|]. unfold set_parent_link_body in H. bind_inv H.
  unfold query in Hm. destruct (faults _ _); [done|]. injection Hm as <- <-. cbn [db] in H.
  destruct (parent_operations d !! (ws, operation_key request)) as [row|] eqn:Hrow.
  - destruct (String.eqb_spec (input_json row) (input_text i request (identity this))); [|done].
    destruct (link_from_text (result_json row)) as [r'|] eqn:Hl; [|done].
    injection H as <- <-. left. split; [done|]. by exists row.
  - right. apply change_parent_spec in H; [|done..]. exact H.
Qed.
End set_parent.

(** ** Lemmas: runs *)

Section runs.
Context (reason_from_json : string → option TicketClosureReason).
Context (digest : Db → string → string → result (option string) TicketError).
Context (input_text : TicketIdOrSlug → TicketParentSetRequest → btree string → string).
Context (observation_text : TicketParentObservation → string).
Context (link_text : TicketParentLink → string).
Context (link_from_text : string → option TicketParentLink).
Abbreviation set_link :=
  (set_parent_link reason_from_json digest input_text observation_text link_text link_from_text).

(** The database changes by requests of any backend, of any workspace, under any failures,
    and by code that leaves the two tables alone. *)
Inductive step : Db → Db → Prop :=
| step_set this i request env d res d' :
    hook_keeps_tables this → set_link this i request env d = Some (res, d') → step d d'
| step_other d d' : tables_kept d d' → step d d'.

(** The operation of a link is stored. *)
Definition keys_stored (d : Db) : Prop :=
  ∀ ws tid p key, parent_links d !! (ws, tid) = Some (p, key) →
    is_Some (parent_operations d !! (ws, key)).

Definition operations_grow (d d' : Db) : Prop := parent_operations d ⊆ parent_operations d'.

Lemma step_grows d d' : step d d' → operations_grow d d'.
Proof.
  intros Hs. unfold operations_grow. destruct Hs as [this i rq env d res d' Hh Hset|d d' [_ ->]].
  - apply set_link_cases in Hset; [|done]. destruct res as [r|e]; [|by rewrite Hset].
    destruct Hset as [_ [[-> _]|(tid & p & row & Hn & Hrest)]]; [done|].
    destruct Hrest as (_ & _ & _ & _ & _ & _ & _ & _ & -> & _). by apply insert_subseteq.
  - done.
Qed.

Lemma run_grows d d' : rtc step d d' → operations_grow d d'.
Proof.
  unfold operations_grow. induction 1 as [|d1 d2 d3 Hs _ IH]; [done|].
  etrans; [by apply step_grows|done].
Qed.

Lemma step_acyclic d d' : step d d' → acyclic d → acyclic d'.
Proof.
  intros Hs Hac. destruct Hs as [this i rq env d res d' Hh Hset|d d' [Hl _]].
  - apply set_link_cases in Hset; [|done]. destruct res as [r|e]; [|by rewrite Hset].
    destruct Hset as [_ [[-> _]|(tid & p & row & _ & _ & _ & _ & _ & Hno & _ & _ & Hl & _)]];
      [done|].
    unfold acyclic. rewrite Hl. case_bool_decide; [done|]. intros ws x.
    by apply insert_acyclic.
  - unfold acyclic. by rewrite Hl.
Qed.

(** A step keeps the observation of a ticket or gives it an operation key that was unused. *)
Lemma step_observation this tid d d' :
  step d d' →
  observation_of this tid d' = observation_of this tid d
  ∨ ∃ p key, observation_of this tid d' = mkObservation p (Some key)
             ∧ parent_operations d !! (workspace_id this, key) = None.
Proof.
  intros Hs. unfold observation_of.
  destruct Hs as [this' i rq env d res d' Hh Hset|d d' [-> _]]; [|by left].
  apply set_link_cases in Hset; [|done]. destruct res as [r|e]; [|left; by rewrite Hset].
  destruct Hset as [_ [[-> _]|(tid' & p & row & Hn & _ & _ & _ & _ & _ & _ & _ & -> & _)]];
    [by left|].
  case_bool_decide; [by left|].
  destruct (decide ((workspace_id this', tid') = (workspace_id this, tid))) as [Heq|Hne].
  - injection Heq as Hw <-. rewrite Hw in *. rewrite lookup_insert_eq. right. eauto.
  - rewrite lookup_insert_ne by done. by left.
Qed.

Lemma step_keys_stored d d' : step d d' → keys_stored d → keys_stored d'.
Proof.
  intros Hs Hk. destruct Hs as [this i rq env d res d' Hh Hset|d d' [Hl Ho]];
    [|unfold keys_stored; by rewrite Hl, Ho].
  apply set_link_cases in Hset; [|done]. destruct res as [r|e]; [|by rewrite Hset].
  destruct Hset as [_ [[-> _]|(tid & p & row & _ & _ & _ & _ & _ & _ & _ & _ & Hl & Ho & _)]];
    [done|].
  intros ws t q key. rewrite Hl, Ho. intros Hlk.
  destruct (decide ((workspace_id this, operation_key rq) = (ws, key))) as [<-|Hne].
  { rewrite lookup_insert_eq. by eexists. }
  rewrite lookup_insert_ne by done. case_bool_decide; [by eapply Hk|].
  destruct (decide ((workspace_id this, tid) = (ws, t))) as [Heq|Hne'].
  - rewrite Heq, lookup_insert_eq in Hlk. congruence.
  - rewrite lookup_insert_ne in Hlk by done. by eapply Hk.
Qed.
End runs.

(** ** Lemmas: pages *)

Section pages.
Context (reason_from_json : string → option TicketClosureReason).
Context (cursor_text : ChildrenCursor → string).
Context (cursor_from_text : string → option ChildrenCursor).
Context (this : Backend).
Abbreviation page_of := (children_page reason_from_json cursor_text cursor_from_text this).
Abbreviation page_body := (children_page_body reason_from_json cursor_text cursor_from_text this).

Lemma children_elem p d x :
  x ∈ children this p d ↔ edge (workspace_id this) (parent_links d) x p.
Proof.
  unfold children, edge. rewrite sort_perm, list_elem_of_fmap. split.
  - intros ([[w t] [q k]] & -> & Hin). apply elem_of_map_to_list, map_lookup_filter_Some in Hin.
    destruct Hin as [Hl [Hw Hq]]. simpl in *. subst. by exists k.
  - intros [k Hl]. exists ((workspace_id this, x), (Some p, k)). split; [done|].
    apply elem_of_map_to_list, map_lookup_filter_Some. done.
Qed.

Lemma children_sorted p d : StronglySorted str_lt (children this p d).
Proof.
  apply sort_strict. match goal with |- NoDup (_ <$> ?l) => change (NoDup ((snd ∘ fst) <$> l)) end.
  rewrite list_fmap_compose.
  apply NoDup_fmap_2_strong; [|apply NoDup_fst_map_to_list].
  intros [w1 t1] [w2 t2] H1 H2 Ht.
  apply list_elem_of_fmap in H1 as ([k1 v1] & Heq1 & H1).
  apply list_elem_of_fmap in H2 as ([k2 v2] & Heq2 & H2).
  apply elem_of_map_to_list, map_lookup_filter_Some in H1 as [_ [H1 _]].
  apply elem_of_map_to_list, map_lookup_filter_Some in H2 as [_ [H2 _]].
  simpl in *. subst. simpl in *. congruence.
Qed.

Abbreviation rest a L := (List.filter (after_cursor a) L).

Lemma after_cursor_lt x y : after_cursor (Some x) y = true ↔ str_lt x y.
Proof.
  unfold after_cursor. rewrite <- str_compare_gt. by destruct (String.compare y x).
Qed.

Lemma filter_all_true {A} (f : A → bool) l : Forall (λ x, f x = true) l → List.filter f l = l.
Proof. induction 1 as [|x l Hx _ IH]; simpl; [done|]. by rewrite Hx, IH. Qed.

Lemma filter_all_false {A} (f : A → bool) l : Forall (λ x, f x = false) l → List.filter f l = [].
Proof. induction 1 as [|x l Hx _ IH]; simpl; [done|]. by rewrite Hx, IH. Qed.

(** What is after a cursor is the end of the list. *)
Lemma rest_suffix a L : StronglySorted str_lt L → ∃ l0, L = l0 ++ rest a L.
Proof.
  induction 1 as [|x L Hs [l0 IH] Hx]; [by exists []|]. simpl.
  destruct (after_cursor a x) eqn:Ha.
  - exists []. simpl. f_equal. symmetry. apply filter_all_true.
    eapply Forall_impl; [exact Hx|]. intros y Hy. destruct a as [z|]; [|done].
    apply after_cursor_lt in Ha. apply after_cursor_lt. by eapply str_lt_trans.
  - exists (x :: l0). simpl. by f_equal.
Qed.

Lemma rest_after l1 x l2 :
  StronglySorted str_lt (l1 ++ x :: l2) → rest (Some x) (l1 ++ x :: l2) = l2.
Proof.
  intros Hs. rewrite List.filter_app. cbn [List.filter].
  assert (Hx : after_cursor (Some x) x = false).
  { destruct (after_cursor (Some x) x) eqn:He; [|done].
    by apply after_cursor_lt, str_lt_irrefl in He. }
  rewrite Hx. apply StronglySorted_app in Hs as (H12 & _ & H2).
  rewrite filter_all_false, filter_all_true; [done|..].
  - inversion_clear H2 as [|?? _ Hx2]. eapply Forall_impl; [exact Hx2|]. intros y Hy.
    by apply after_cursor_lt.
  - apply Forall_forall. intros y Hy. destruct (after_cursor (Some x) y) eqn:He; [|done].
    apply after_cursor_lt in He. exfalso. apply (str_lt_irrefl x).
    eapply str_lt_trans; [exact He|]. apply H12; [done|by left].
Qed.

(** After a full page the cursor of its last element leaves what the page left. *)
Lemma rest_next a L (lim : nat) x :
  StronglySorted str_lt L → last (take lim (rest a L)) = Some x →
  rest (Some x) L = drop lim (rest a L).
Proof.
  intros Hs Hx. destruct (rest_suffix a L Hs) as [l0 HL].
  apply last_Some in Hx as [l1 Hl1].
  assert (Hr : L = (l0 ++ l1) ++ x :: drop lim (rest a L)).
  { rewrite HL at 1. rewrite <- (take_drop lim (rest a L)) at 1. rewrite Hl1.
    by rewrite <- !app_assoc. }
  rewrite Hr at 1. apply rest_after. by rewrite <- Hr.
Qed.

Lemma summary_id i env c r c' :
  load_link_summary reason_from_json this i env c = Done r c' → id r = i.
Proof.
  unfold load_link_summary. intros H. do 2 bind_inv H. destruct a0 as [[t st] rs].
  do 4 bind_inv H. by injection H as <- <-.
Qed.

Lemma summaries_ids l : ∀ env c rs c',
  map_m (load_link_summary reason_from_json this) l env c = Done rs c' → id <$> rs = l.
Proof.
  induction l as [|i l IH]; cbn [map_m]; intros env c rs c' H.
  { by injection H as <- <-. }
  do 2 bind_inv H. injection H as <- <-. apply summary_id in Hm as <-.
  apply IH in Hm0 as <-. done.
Qed.

Lemma resolve_matches i env c tid c' :
  resolve_parent_link_ticket this i env c = Done tid c' →
  sort_unstable (remove_dups (ticket_matches this (as_query i) (db c)
                              ++ key_matches this (as_query i) (db c))) = [tid].
Proof.
  unfold resolve_parent_link_ticket, resolve_ticket_id. intros H. do 2 bind_inv H.
  bind_inv Hm. unfold query in Hm1. destruct (faults _ _); [done|]. injection Hm1 as <- <-.
  destruct a0; [|done]. injection H as <- <-.
  destruct (sort_unstable _) as [|one [|]]; [done| |done]. by injection Hm as <- <-.
Qed.

(** The position a cursor text stands for, for the children of a ticket. *)
Definition cursor_at (tid : string) (cur : option string) (a : option string) : Prop :=
  match cur with
  | None => a = None
  | Some text => ∃ cu, cursor_from_text text = Some cu ∧ cursor_parent_ticket_id cu = tid
                       ∧ a = Some (after cu)
  end.

Lemma decode_cursor_at tid cur env c a c' :
  transpose cur (decode_cursor cursor_from_text this tid) env c = Done a c' →
  cursor_at tid cur a ∧ db c' = db c.
Proof.
  destruct cur as [text|]; cbn [transpose cursor_at]; intros H; [|by injection H as <- <-].
  bind_inv H. injection H as <- <-. unfold decode_cursor in Hm.
  destruct (4096 <? _); [done|]. bind_inv Hm. destruct (cursor_from_text text) as [cu|] eqn:Hc;
    [|done]. injection Hm0 as <- <-.
  destruct (String.eqb_spec (cursor_workspace_id cu) (workspace_id this)); [|done].
  destruct (String.eqb_spec (cursor_parent_ticket_id cu) tid); [|done].
  cbn in Hm. injection Hm as <- <-. split; [by exists cu|done].
Qed.

Lemma page_spec p cur lim env d page d' :
  page_of p (mkChildrenRequest cur (Some lim)) env d = Some (Ok page, d') →
  ∃ tid a, sort_unstable (remove_dups (ticket_matches this (as_query p) d
                                       ++ key_matches this (as_query p) d)) = [tid]
    ∧ cursor_at tid cur a
    ∧ id <$> items page = take lim (rest a (children this tid d))
    ∧ has_more page = (lim <? length (rest a (children this tid d)))%nat
    ∧ (has_more page = true → ∃ x, last (take lim (rest a (children this tid d))) = Some x
         ∧ next_cursor page = Some (cursor_text (mkCursor (workspace_id this) tid x))).
Proof.
  unfold children_page. destruct (negb _); [done|]. cbn [limit default].
  intros Ht%transaction_cases. destruct Ht as (c & H & _). unfold children_page_body in H.
  do 2 bind_inv H. cbn [cursor] in Hm0.
  pose proof (resolve_matches _ _ _ _ _ Hm) as Hres. apply resolve_link_keeps in Hm.
  apply decode_cursor_at in Hm0 as [Hcur Hdb]. cbn [db] in *. rewrite <- Hm in Hdb.
  bind_inv H. unfold query in Hm0. destruct (faults _ _); [done|]. injection Hm0 as <- <-.
  cbv beta zeta in H. change (Datatypes.id lim) with lim in H. rewrite Hdb in H. set (R := rest a0 (children this a d)) in *.
  assert (Htake : take lim (take (lim + 1) R) = take lim R) by (rewrite take_take; f_equal; lia).
  rewrite length_take, Htake in H. do 2 bind_inv H. injection H as <- <-.
  apply summaries_ids in Hm1.
  exists a, a0. cbn [items has_more next_cursor]. fold R.
  assert (Hmore : (lim <? (lim + 1) `min` length R)%nat = (lim <? length R)%nat).
  { destruct (Nat.ltb_spec lim (length R)); [apply Nat.ltb_lt|apply Nat.ltb_ge]; lia. }
  rewrite Hmore in *. split_and!; try done. intros Hm'. rewrite Hm' in Hm0.
  destruct (last (take lim R)) as [x|]; [|done]. exists x. by injection Hm0 as <- <-.
Qed.

(** The ids of the pages read from a cursor on, while the database does not change. *)
Inductive pages (d : Db) (p : TicketIdOrSlug) (lim : nat) : option string → list string → Prop :=
| pages_last cur env page d' :
    page_of p (mkChildrenRequest cur (Some lim)) env d = Some (Ok page, d') →
    has_more page = false →
    pages d p lim cur (id <$> items page)
| pages_more cur env page d' next ids :
    page_of p (mkChildrenRequest cur (Some lim)) env d = Some (Ok page, d') →
    has_more page = true → next_cursor page = Some next →
    pages d p lim (Some next) ids →
    pages d p lim cur ((id <$> items page) ++ ids).

Lemma pages_spec d p lim cur ids :
  (∀ cu, cursor_from_text (cursor_text cu) = Some cu) →
  pages d p lim cur ids →
  ∃ tid a, sort_unstable (remove_dups (ticket_matches this (as_query p) d
                                       ++ key_matches this (as_query p) d)) = [tid]
    ∧ cursor_at tid cur a ∧ ids = rest a (children this tid d).
Proof.
  intros Hrt. induction 1 as [cur env page d' Hp Hm|cur env page d' next ids Hp Hm Hn _ IH].
  - apply page_spec in Hp as (tid & a & Hres & Hcur & Hids & Hmore & _).
    exists tid, a. split_and!; [done..|]. rewrite Hids. apply take_ge.
    rewrite Hm in Hmore. symmetry in Hmore. by apply Nat.ltb_ge in Hmore.
  - apply page_spec in Hp as (tid & a & Hres & Hcur & Hids & _ & Hnext).
    destruct (Hnext Hm) as (x & Hx & Hcu). exists tid, a. split_and!; [done..|].
    destruct IH as (tid' & a' & Hres' & Hcur' & ->). rewrite Hres in Hres'.
    injection Hres' as <-. rewrite Hn in Hcu. injection Hcu as ->. simpl in Hcur'.
    rewrite Hrt in Hcur'. destruct Hcur' as (cu & [= <-] & _ & ->). cbn [after].
    rewrite Hids, (rest_next a _ lim x); [apply take_drop|apply children_sorted|done].
Qed.
End pages.

(** ** Examples: a workspace with four tickets *)

Module Example.

Definition tickets : gmap (string * string) TicketRow :=
  list_to_map ((λ t, (("w", t), mkTicketRow (t +:+ "-slug") t "open" None)) <$>
                 ["a"; "b"; "c"; "p"]).

Definition keys : gmap (string * string) string :=
  list_to_map ((λ t, (("w", t), "T-" +:+ t)) <$> ["a"; "b"; "c"; "p"]).

Definition db0 : Db := mkDb tickets keys ∅ ∅ [] ∅ ∅ ∅ [] [] [].

Definition env0 : Env := mkEnv None (λ _, None) (λ _, "id") "now" "user".

Definition backend : Backend := mkBackend "w" [] None.

Definition digest (_ : Db) (_ _ : string) : result (option string) TicketError := Ok (Some "d").

Definition input (i : TicketIdOrSlug) (r : TicketParentSetRequest) (_ : btree string) : string :=
  as_query i +:+ default "-" (parent r) +:+ operation_key r.

Definition receipt : TicketParentLink :=
  mkLink "b" (mkObservation (Some "a") (Some "k1")) (Some (mkSummary "a" "T-a" "a" Open None)).

Definition set_link : Backend → TicketIdOrSlug → TicketParentSetRequest → Env → Db →
    option (result TicketParentLink TicketError * Db) :=
  set_parent_link (λ _, None) digest input (λ _, EmptyString) ticket_id (λ _, Some receipt).

Definition after_set (i : TicketIdOrSlug) (r : TicketParentSetRequest) (d : Db) : Db :=
  match set_link backend i r env0 d with Some (_, d') => d' | None => d end.

Definition link_b_to_a : TicketParentSetRequest :=
  mkSetRequest (mkObservation None None) (Some "T-a") "k1".

Definition unlink_b : TicketParentSetRequest :=
  mkSetRequest (mkObservation (Some "a") (Some "k1")) None "k2".

Definition db1 : Db := after_set (Id "b") link_b_to_a db0.
Definition db2 : Db := after_set (Id "b") unlink_b db1.

(** A text for cursors: the bits of a positive number. *)
Fixpoint bits (p : positive) : string :=
  match p with
  | xH => EmptyString
  | xO p => String "0" (bits p)
  | xI p => String "1" (bits p)
  end.

Fixpoint unbits (s : string) : positive :=
  match s with
  | EmptyString => xH
  | String c s => if Ascii.eqb c "0" then xO (unbits s) else xI (unbits s)
  end.

Lemma unbits_bits p : unbits (bits p) = p.
Proof. induction p as [p IH|p IH|]; simpl; by rewrite ?IH. Qed.

Definition cursor_text (c : ChildrenCursor) : string :=
  bits (encode (cursor_workspace_id c, cursor_parent_ticket_id c, after c)).

Definition cursor_from_text (s : string) : option ChildrenCursor :=
  (λ t : string * string * string, let '(w, p, a) := t in mkCursor w p a)
    <$> decode (unbits s).

Lemma cursor_roundtrip c : cursor_from_text (cursor_text c) = Some c.
Proof.
  unfold cursor_from_text, cursor_text. rewrite unbits_bits, decode_encode. by destruct c.
Qed.

(** Three children of one parent. *)
Definition db_children : Db :=
  set_links (list_to_map ((λ t, (("w", t), (Some "p", "k"))) <$> ["c"; "a"; "b"])) db0.

Definition page (cur : option string) : option (result TicketChildrenPage TicketError * Db) :=
  children_page (λ _, None) cursor_text cursor_from_text backend (Id "p")
    (mkChildrenRequest cur (Some 2%nat)) env0 db_children.

End Example.

(** ** Properties *)

Section properties.
Context (reason_from_json : string → option TicketClosureReason).
Context (digest : Db → string → string → result (option string) TicketError).
Context (input_text : TicketIdOrSlug → TicketParentSetRequest → btree string → string).
Context (observation_text : TicketParentObservation → string).
Context (link_text : TicketParentLink → string).
Context (link_from_text : string → option TicketParentLink).
Abbreviation set_link :=
  (set_parent_link reason_from_json digest input_text observation_text link_text link_from_text).
Abbreviation run :=
  (rtc (step reason_from_json digest input_text observation_text link_text link_from_text)).

Lemma empty_acyclic d : parent_links d = ∅ → acyclic d.
Proof.
  intros Hempty ws x Ht. destruct Ht as [a b [k Hk]|a b c [k Hk] _];
    by rewrite Hempty, lookup_empty in Hk.
Qed.

Lemma run_keys_stored d0 d : parent_links d0 = ∅ → run d0 d → keys_stored d.
Proof.
  intros Hempty Hr. assert (Hk : keys_stored d0).
  { intros ws t p k. by rewrite Hempty, lookup_empty. }
  clear Hempty. induction Hr as [|d1 d2 d3 Hs _ IH]; [done|].
  apply IH. by eapply step_keys_stored.
Qed.

(** An observation whose key was unused in a database keeps a key that was unused there. *)
Definition fresh_since (this : Backend) (tid : string) (d1 d : Db) : Prop :=
  ∃ p key, observation_of this tid d = mkObservation p (Some key)
           ∧ parent_operations d1 !! (workspace_id this, key) = None.

Lemma run_fresh this tid d1 d2 d3 :
  run d1 d2 → run d2 d3 → fresh_since this tid d1 d2 → fresh_since this tid d1 d3.
Proof.
  intros H12 H23. revert H12. induction H23 as [|d2 d d3 Hs _ IH]; intros H12 Hf; [done|].
  assert (H1d : run d1 d) by (by eapply rtc_r). apply IH; [done|].
  destruct (step_observation _ _ _ _ _ _ this tid _ _ Hs) as [Heq|(p & k & Ho & Hn)].
  - destruct Hf as (p & k & Ho & Hn). exists p, k. by rewrite Heq.
  - exists p, k. split; [done|]. eapply lookup_weaken_None; [exact Hn|].
    by eapply (run_grows reason_from_json digest).
Qed.

Lemma run_changed_fresh this tid d1 d2 :
  run d1 d2 → observation_of this tid d2 ≠ observation_of this tid d1 →
  fresh_since this tid d1 d2.
Proof.
  intros H12. pattern d2. revert d2 H12. apply rtc_ind_r; [done|]. intros d d' H1 Hs IH Hne.
  destruct (step_observation _ _ _ _ _ _ this tid _ _ Hs) as [Heq|(p & k & Ho & Hn)].
  - eapply (run_fresh this tid d1 d); [done|by apply rtc_once|]. apply IH. by rewrite <- Heq.
  - exists p, k. split; [done|]. eapply lookup_weaken_None; [exact Hn|].
    by eapply (run_grows reason_from_json digest).
Qed.

(** C6.  The parents of tickets never form a cycle.  Starting without links, whatever
    requests are made through whatever backends, in whatever order, with statements failing
    anywhere and other code writing other tables in between, no ticket becomes its own
    ancestor. *)
Theorem parents_acyclic (d0 d : Db) : parent_links d0 = ∅ → run d0 d → acyclic d.
Proof.
  intros Hempty%empty_acyclic Hr. induction Hr as [|d1 d2 d3 Hs _ IH]; [done|].
  apply IH. by eapply step_acyclic.
Qed.

(** An observation is a fence: once the observation of a ticket's parent has changed it
    never comes back, even when the ticket is linked to the same parent again or unlinked
    again, so a compare-and-set cannot succeed on a stale one. *)
Theorem observation_never_recurs (this : Backend) (tid : string) (d0 d1 d2 d3 : Db) :
  parent_links d0 = ∅ → run d0 d1 → run d1 d2 → run d2 d3 →
  observation_of this tid d2 ≠ observation_of this tid d1 →
  observation_of this tid d3 ≠ observation_of this tid d1.
Proof.
  intros Hempty H01 H12 H23 Hne.
  destruct (run_fresh this tid d1 d2 d3 H12 H23) as (p & k & Ho & Hn).
  { by apply run_changed_fresh. }
  rewrite Ho. unfold observation_of.
  destruct (parent_links d1 !! (workspace_id this, tid)) as [[q k']|] eqn:Hl; [|done].
  intros [= -> ->]. apply (run_keys_stored d0) in Hl; [|done..].
  rewrite Hn in Hl. by destruct Hl.
Qed.

(** C30.  Setting a parent always answers, when the hook that a backend may run inside the
    transaction leaves the tables of links and receipts alone.  An error leaves the database as
    it was.  A success has an operation key that is not blank and safe inside a comment, and is
    the stored receipt of the same operation, and then nothing is written, or a change: the observation was the expected one, the ticket and the parent exist, the
    ticket is not among the ancestors of the parent, the link is the one asked for under the
    new operation key, or untouched if it was already that one, and the receipt is stored. *)
Theorem set_parent_link_outcome (this : Backend) (i : TicketIdOrSlug)
    (request : TicketParentSetRequest) (env : Env) (d : Db) :
  hook_keeps_tables this →
  ∃ res d', set_link this i request env d = Some (res, d')
    ∧ set_outcome input_text link_text link_from_text this d d' i request res.
Proof.
  intros Hh.
  destruct (set_link_total reason_from_json digest input_text observation_text link_text
              link_from_text this i request env d) as [[res d'] Hr].
  exists res, d'. split; [done|]. by eapply set_link_cases.
Qed.

(** Retrying is exact.  After a request has been carried out, at any later time the
    same request is answered by the same receipt without writing anything, and another
    request under its operation key is refused, as far as the database can be read. *)
Theorem retry_returns_receipt (this : Backend) (i j : TicketIdOrSlug)
    (request other : TicketParentSetRequest) (env env' : Env) (d d' d'' : Db)
    (r : TicketParentLink) :
  hook_keeps_tables this →
  link_from_text (link_text r) = Some r →
  parent_operations d !! (workspace_id this, operation_key request) = None →
  set_link this i request env d = Some (Ok r, d') →
  run d' d'' →
  open_error env' = None → (∀ n, faults env' n = None) →
  operation_key other = operation_key request →
  set_link this i request env' d'' = Some (Ok r, d'')
  ∧ (input_text j other (identity this) ≠ input_text i request (identity this) →
     set_link this j other env' d''
     = Some (Err (OperationFingerprintMismatch (operation_key request)), d'')).
Proof.
  intros Hh Hrt Hnone Hset%set_link_cases Hrun Hopen Hnf Hkey; [|done].
  destruct Hset as [Hk [[_ (row & Hrow & _)]|Hch]]; [congruence|].
  destruct Hch as (tid & p & row & _ & _ & _ & _ & _ & _ & _ & _ & _ & Hops & Hin & Hres).
  assert (Hrow : parent_operations d'' !! (workspace_id this, operation_key request) = Some row).
  { eapply lookup_weaken; [|by eapply (run_grows reason_from_json digest)].
    rewrite Hops. apply lookup_insert_eq. }
  apply valid_operation_key in Hk. unfold set_parent_link. rewrite Hkey.
  destruct (validate_required_event_value _ _); [|done].
  unfold transaction, set_parent_link_body, bind, query. rewrite Hopen, !Hnf, Hkey. cbn [db executed].
  rewrite Hrow, Hin, Hres. split.
  - by rewrite String.eqb_refl, Hrt; cbn; rewrite Hnf.
  - intros Hne. apply not_eq_sym, String.eqb_neq in Hne. by rewrite Hne.
Qed.
End properties.

(** The cycle check is exact.  On a table without cycles and with a readable database
    it ends, and refuses a parent exactly when the ticket is the parent or one of the
    parent's ancestors. *)
Theorem cycle_refused_exactly (this : Backend) (child p : string) (env : Env) (c : Connection) :
  acyclic (db c) → (∀ n, faults env n = None) →
  let check := require_acyclic_parent this child (Some p) env c in
  let ancestor := rtc (edge (workspace_id this) (parent_links (db c))) p child in
  ((∃ c', check = Done tt c') ↔ ¬ ancestor)
  ∧ (check = Failed (Conflict "Ticket parent link would contain a cycle") ↔ ancestor).
Proof.
  intros Hac Hnf. cbv zeta. set (ancestor := rtc _ p child).
  pose proof (acyclic_safe this child (Some p) env c) as Hsafe.
  assert (Hdone : ∀ v c', require_acyclic_parent this child (Some p) env c = Done v c' →
                    ¬ ancestor).
  { intros v c' Hd Ha. by eapply (acyclic_no_ancestor this child (Some p)). }
  assert (Hfail : ∀ e, require_acyclic_parent this child (Some p) env c = Failed e →
            e = Conflict "Ticket parent link would contain a cycle" ∧ ancestor).
  { intros e. unfold require_acyclic_parent, bind, query. rewrite Hnf. cbn [db].
    intros Hw. apply walk_refused in Hw as (-> & i & [= <-] & Hr); [done|done|apply Hac|].
    set_solver. }
  destruct (require_acyclic_parent this child (Some p) env c) as [[] c'|e|]; [| |done].
  - split; [split; [intros _; by eapply Hdone|by eauto]|]. split; [done|].
    intros Ha. by destruct (Hdone tt c').
  - destruct (Hfail e eq_refl) as [-> Ha]. split; [split; [by intros []|done]|done].
Qed.

(** The pages of children are exact: reading page after page, each from the cursor the
    previous one returned, gives every child of the ticket once, in the order of their ids,
    as long as the table does not change meanwhile. *)
Theorem children_pages_exact (reason_from_json : string → option TicketClosureReason)
    (cursor_text : ChildrenCursor → string)
    (cursor_from_text : string → option ChildrenCursor)
    (this : Backend) (d : Db) (p : TicketIdOrSlug) (lim : nat) (ids : list string) :
  (∀ cu, cursor_from_text (cursor_text cu) = Some cu) →
  pages reason_from_json cursor_text cursor_from_text this d p lim None ids →
  StronglySorted str_lt ids
  ∧ ∃ tid, ∀ x, x ∈ ids ↔ edge (workspace_id this) (parent_links d) x tid.
Proof.
  intros Hrt (tid & a & _ & Hcur & ->)%pages_spec; [|done]. simpl in Hcur. subst a.
  rewrite filter_all_true by (by apply Forall_true). split; [apply children_sorted|].
  exists tid. intros x. apply children_elem.
Qed.

(** ** Witnesses *)

Lemma hookless_keeps_tables : hook_keeps_tables Example.backend.
Proof. done. Qed.

Lemma parents_acyclic_witness : acyclic Example.db2.
Proof.
  apply (parents_acyclic (λ _, None) Example.digest Example.input (λ _, EmptyString) ticket_id
           (λ _, Some Example.receipt) Example.db0); [done|].
  apply rtc_l with Example.db1.
  - eapply (step_set _ _ _ _ _ _ Example.backend (Id "b") Example.link_b_to_a Example.env0);
      [apply hookless_keeps_tables|vm_compute; reflexivity].
  - apply rtc_once.
    eapply (step_set _ _ _ _ _ _ Example.backend (Id "b") Example.unlink_b Example.env0);
      [apply hookless_keeps_tables|vm_compute; reflexivity].
Defined.

Lemma observation_never_recurs_witness :
  observation_of Example.backend "b" Example.db2 ≠ observation_of Example.backend "b" Example.db0.
Proof.
  apply (observation_never_recurs (λ _, None) Example.digest Example.input (λ _, EmptyString)
           ticket_id (λ _, Some Example.receipt) Example.backend "b" Example.db0 Example.db0
           Example.db1 Example.db2); [done|apply rtc_refl|apply rtc_once..|by vm_compute].
  - eapply (step_set _ _ _ _ _ _ Example.backend (Id "b") Example.link_b_to_a Example.env0);
      [apply hookless_keeps_tables|vm_compute; reflexivity].
  - eapply (step_set _ _ _ _ _ _ Example.backend (Id "b") Example.unlink_b Example.env0);
      [apply hookless_keeps_tables|vm_compute; reflexivity].
Defined.

Lemma set_parent_link_outcome_witness :
  ∃ res d', Example.set_link Example.backend (Id "a")
              (mkSetRequest (mkObservation None None) (Some "b") "k3") Example.env0 Example.db1
            = Some (res, d')
    ∧ set_outcome Example.input ticket_id (λ _, Some Example.receipt) Example.backend
        Example.db1 d' (Id "a") (mkSetRequest (mkObservation None None) (Some "b") "k3") res.
Proof. apply set_parent_link_outcome. apply hookless_keeps_tables. Defined.

Lemma retry_returns_receipt_witness :
  Example.set_link Example.backend (Id "b") Example.link_b_to_a Example.env0 Example.db1
  = Some (Ok Example.receipt, Example.db1).
Proof.
  apply (retry_returns_receipt (λ _, None) Example.digest Example.input (λ _, EmptyString)
           ticket_id (λ _, Some Example.receipt) Example.backend (Id "b") (Id "b")
           Example.link_b_to_a Example.link_b_to_a Example.env0 Example.env0 Example.db0
           Example.db1 Example.db1 Example.receipt);
    [done|done|done|vm_compute; reflexivity|apply rtc_refl|done..].
Defined.

Lemma cycle_refused_exactly_witness :
  require_acyclic_parent Example.backend "a" (Some "b") Example.env0 (mkConn Example.db1 1)
  = Failed (Conflict "Ticket parent link would contain a cycle").
Proof.
  apply (cycle_refused_exactly Example.backend "a" "b" Example.env0 (mkConn Example.db1 1)).
  - apply (step_acyclic (λ _, None) Example.digest Example.input (λ _, EmptyString) ticket_id
             (λ _, Some Example.receipt) Example.db0); [|by apply empty_acyclic].
    eapply (step_set _ _ _ _ _ _ Example.backend (Id "b") Example.link_b_to_a Example.env0);
      [apply hookless_keeps_tables|vm_compute; reflexivity].
  - done.
  - apply rtc_once. exists "k1". by vm_compute.
Defined.

Lemma children_pages_exact_witness :
  StronglySorted str_lt ["a"; "b"; "c"]
  ∧ ∃ tid, ∀ x, x ∈ ["a"; "b"; "c"] ↔ edge "w" (parent_links Example.db_children) x tid.
Proof.
  apply (children_pages_exact (λ _, None) Example.cursor_text Example.cursor_from_text
           Example.backend Example.db_children (Id "p") 2); [apply Example.cursor_roundtrip|].
  apply (pages_more _ _ _ _ _ _ _ None Example.env0
    (mkPage "p" [mkSummary "a" "T-a" "a" Open None; mkSummary "b" "T-b" "b" Open None]
       (Some (Example.cursor_text (mkCursor "w" "p" "b"))) true) Example.db_children
    (Example.cursor_text (mkCursor "w" "p" "b")) ["c"]); [vm_compute; reflexivity|done..|].
  apply (pages_last _ _ _ _ _ _ _ _ Example.env0
    (mkPage "p" [mkSummary "c" "T-c" "c" Open None] None false) Example.db_children);
    [vm_compute; reflexivity|done].
Defined.

End TicketParents.
