(* ===== verification/SessionLog.v ===== *)
(** * The segment log and its replay

    Models [src/crates/session-store/src/segment_log.rs] with the logged form of items of
    [logged_item.rs], the system items of [system_item.rs] and the second replay the worker
    uses, [restore_history_entries] of [src/crates/worker/src/session_history.rs].  A panic
    (an index out of range, an addition that overflows) is [None].  What replay only copies,
    request configurations, typed user segments, JSON payloads, provenance, is opaque. *)
From Stdlib Require Import ZArith String Ascii List Lia.
From stdpp Require Import base tactics numbers list strings pretty.
From S2P Require Import Prelude Conversation ContextBudget ImageRecovery.
Import Conversation.

Module SessionLog.
Import ContextBudget ImageRecovery.

(** ** Logged items *)

Inductive LoggedRole := LoggedUser | LoggedAssistant | LoggedSystem.

Inductive LoggedContentPart := LoggedText (text : string) | LoggedRefusal (refusal : string).

Inductive LoggedAttachment := LoggedImage (mime_type data : string).

Inductive LoggedItem :=
| LoggedMessage (role : LoggedRole) (content : list LoggedContentPart)
| LoggedAssistantResponseBoundary (response_id : string)
| LoggedToolCall (call_id name arguments : string) (call_index : option nat)
    (execution_id : option string) (status : option ItemStatus)
| LoggedToolResult (call_id summary : string) (content : option string)
    (attachments : list LoggedAttachment) (disposition : ToolResultDisposition) (is_error : bool)
| LoggedReasoning (text : string) (summary : list string)
    (encrypted_content signature : option string).

Definition role_to_logged (r : Role) : LoggedRole :=
  match r with User => LoggedUser | Assistant => LoggedAssistant | System => LoggedSystem end.

Definition role_from_logged (r : LoggedRole) : Role :=
  match r with LoggedUser => User | LoggedAssistant => Assistant | LoggedSystem => System end.

Definition part_to_logged (p : ContentPart) : LoggedContentPart :=
  match p with Text t => LoggedText t | Refusal r => LoggedRefusal r end.

Definition part_from_logged (p : LoggedContentPart) : ContentPart :=
  match p with LoggedText t => Text t | LoggedRefusal r => Refusal r end.

Definition attachment_to_logged (a : Attachment) : LoggedAttachment :=
  match a with Image image => LoggedImage (mime_type image) (data image) end.

Definition attachment_from_logged (a : LoggedAttachment) : Attachment :=
  match a with LoggedImage m d => Image (mkImageAttachment m d) end.

(** [LoggedItem::from(&Item)]. *)
Definition to_logged (i : Item) : LoggedItem :=
  match i with
  | Message m => LoggedMessage (role_to_logged (role m)) (part_to_logged <$> msg_content m)
  | AssistantResponseBoundary response_id => LoggedAssistantResponseBoundary response_id
  | ToolCall c => LoggedToolCall (tc_call_id c) (tc_name c) (tc_arguments c) (tc_call_index c)
                    (tc_execution_id c) (tc_status c)
  | ToolResult r => LoggedToolResult (tr_call_id r) (tr_summary r) (tr_content r)
                      (attachment_to_logged <$> tr_attachments r) (tr_disposition r)
                      (tr_is_error r)
  | Reasoning r => LoggedReasoning (r_text r) (r_summary r) (r_encrypted_content r)
                     (r_signature r)
  end.

Definition is_success (d : ToolResultDisposition) : bool :=
  match d with Success => true | _ => false end.

(** [Item::from(LoggedItem)]. *)
Definition from_logged (l : LoggedItem) : Item :=
  match l with
  | LoggedMessage r content =>
      Message (mkMessage None (role_from_logged r) (part_from_logged <$> content) None)
  | LoggedAssistantResponseBoundary response_id => AssistantResponseBoundary response_id
  | LoggedToolCall call_id name arguments call_index execution_id status =>
      ToolCall (mkToolCall None call_id name arguments call_index execution_id status)
  | LoggedToolResult call_id summary content attachments disposition is_error =>
      let disposition := if is_error && is_success disposition then Error else disposition in
      ToolResult (mkToolResult None call_id summary content disposition is_error
                    (attachment_from_logged <$> attachments))
  | LoggedReasoning text summary encrypted signature =>
      Reasoning (mkReasoning None text summary encrypted signature None)
  end.

Definition is_user_message (i : Item) : bool :=
  match i with Message m => match role m with User => true | _ => false end | _ => false end.

Definition is_tool_result (i : Item) : bool :=
  match i with ToolResult _ => true | _ => false end.

Definition system_message (text : string) : Item :=
  Message (mkMessage None System [Text text] None).

(** ** The log *)

(** What replay copies without looking at it. *)
Class Carrier := {
  Segment : Type;
  RequestConfig : Type;
  default_config : RequestConfig;
  Json : Type;
  Provenance : Type
}.

Inductive EngineResult := Finished | Paused | LimitReached | Yielded.

Inductive InvokeKind := UserSend | Notify | InvokeWorkerEvent | SystemReminder | Wakeup.

Inductive RunYieldReason := YieldCompaction.

Inductive RunResumeSource := ResumeCompaction | ResumePause.

Inductive RunFailureKind := FailureEngine | FailureCompaction.

Record SegmentOrigin := mkOrigin { origin_segment_id : string; at_turn_index : Z }.

Section log.
Context `{Carrier}.

Record LoggedSessionHistoryMetadata := mkMetadata {
  entry_id : string;
  provenance : Provenance
}.

Record LoggedHistoryEntry := mkLogged {
  logged_item : LoggedItem;
  metadata : LoggedSessionHistoryMetadata
}.

Inductive SystemItem :=
| Input (body : string)
| Notification (message body : string) (prompt_provenance : option Json)
| SystemWorkerEvent (event : Json) (body : string) (prompt_provenance : option Json)
| FileAttachment (path body : string)
| LegacyKnowledgeIgnored (slug body : string)
| LegacyIgnored (slug : string)
| TaskReminder (source : Json) (body : string) (prompt_provenance : option Json)
| Interrupt (body : string) (prompt_provenance : option Json).

Definition history_text (s : SystemItem) : string :=
  match s with
  | Input body | Notification _ body _ | SystemWorkerEvent _ body _ | FileAttachment _ body
  | TaskReminder _ body _ | Interrupt body _ => body
  | LegacyKnowledgeIgnored _ _ => EmptyString
  | LegacyIgnored slug => "Ignored legacy procedure item: /" +:+ slug
  end.

Definition to_history_item (s : SystemItem) : Item := system_message (history_text s).

Record LoggedSystemHistoryEntry := mkLoggedSystem {
  system_item : SystemItem;
  system_metadata : LoggedSessionHistoryMetadata
}.

Record SessionExtension := mkExtension { domain : string; payload : Json }.

Inductive LogEntry :=
| AnnotatedSegmentStart (ts : Z) (session_id : string) (system_prompt : option string)
    (config : RequestConfig) (history : list LoggedHistoryEntry)
    (forked_from compacted_from : option SegmentOrigin)
| InputSegmentsCheckpoint (ts : Z) (user_segments : list (list Segment))
| Invoke (ts : Z) (trigger : InvokeKind)
| AnnotatedUserInput (ts : Z) (segments : list Segment) (extensions : list SessionExtension)
    (history : list LoggedHistoryEntry)
| AnnotatedAssistantItem (ts : Z) (entry : LoggedHistoryEntry)
| AnnotatedToolResult (ts : Z) (entry : LoggedHistoryEntry)
| ToolResultCorrected (ts : Z) (entry : LoggedHistoryEntry)
| AnnotatedSystemItem (ts : Z) (entry : LoggedSystemHistoryEntry)
    (extensions : list SessionExtension)
| TurnEnd (ts : Z) (turn_count : Z)
| RunCompleted (entry_id : option string) (ts : Z) (interrupted : bool) (result : EngineResult)
    (active_run_turn_count : option Z)
| RunYielded (ts : Z) (entry_id : option string) (reason : RunYieldReason)
    (active_run_turn_count : Z)
| RunResumed (ts : Z) (entry_id : option string) (source : RunResumeSource)
    (active_run_turn_count : Z)
| RunCancelled (ts : Z) (entry_id : option string)
| RunErrored (ts : Z) (entry_id : option string) (interrupted : bool) (message : string)
    (failure : option RunFailureKind)
| ActiveRunCheckpoint (ts : Z) (active_turn_count total_turn_count : Z)
| PausedTurnAbandoned (ts : Z) (entry_id : option string)
| ConfigChanged (ts : Z) (config : RequestConfig)
| LlmUsage (ts : Z) (usage : UsageRecord)
| Extension (ts : Z) (domain : string) (payload : Json).

(** [ensure_session_entry_id] and [ensure_legacy_session_entry_id]: give a run transition
    without an identity the one supplied. *)
Definition ensure_entry_id (new_id : string) (e : LogEntry) : LogEntry :=
  let fill (o : option string) := Some (default new_id o) in
  match e with
  | RunCompleted i ts b r a => RunCompleted (fill i) ts b r a
  | PausedTurnAbandoned ts i => PausedTurnAbandoned ts (fill i)
  | RunYielded ts i r a => RunYielded ts (fill i) r a
  | RunResumed ts i s a => RunResumed ts (fill i) s a
  | RunCancelled ts i => RunCancelled ts (fill i)
  | RunErrored ts i b m f => RunErrored ts (fill i) b m f
  | _ => e
  end.

Definition legacy_entry_id (session_id segment_id : string) (record_start : Z) : string :=
  "l-run-" +:+ session_id +:+ "-" +:+ segment_id +:+ "-" +:+ pretty (Z.to_N record_start).

Definition ensure_legacy_session_entry_id (session_id segment_id : string) (record_start : Z)
    (e : LogEntry) : LogEntry :=
  ensure_entry_id (legacy_entry_id session_id segment_id record_start) e.

(** ** Replay *)

Record RestoredState := mkState {
  st_session_id : option string;
  st_system_prompt : option string;
  st_config : RequestConfig;
  st_history : list Item;
  st_annotated_history : list LoggedHistoryEntry;
  st_turn_count : Z;
  st_active_run_turn_count : option Z;
  st_last_run_interrupted : bool;
  st_entries_count : nat;
  st_usage_history : list UsageRecord;
  st_extensions : list (string * Json);
  st_user_segments : list (list Segment)
}.

Definition initial_state : RestoredState :=
  mkState None None default_config [] [] 0 None false 0 [] [] [].

(** Assignments to the fields of the state. *)
Definition with_seed (sid : string) (prompt : option string) (config : RequestConfig)
    (h : list LoggedHistoryEntry) (s : RestoredState) : RestoredState :=
  mkState (Some sid) prompt config (from_logged ∘ logged_item <$> h) h (st_turn_count s)
    (st_active_run_turn_count s) (st_last_run_interrupted s) (st_entries_count s)
    (st_usage_history s) (st_extensions s) (st_user_segments s).

Definition with_history (items : list Item) (h : list LoggedHistoryEntry) (s : RestoredState)
  : RestoredState :=
  mkState (st_session_id s) (st_system_prompt s) (st_config s) items h (st_turn_count s)
    (st_active_run_turn_count s) (st_last_run_interrupted s) (st_entries_count s)
    (st_usage_history s) (st_extensions s) (st_user_segments s).

Definition with_run (turns : Z) (active : option Z) (interrupted : bool) (s : RestoredState)
  : RestoredState :=
  mkState (st_session_id s) (st_system_prompt s) (st_config s) (st_history s)
    (st_annotated_history s) turns active interrupted (st_entries_count s)
    (st_usage_history s) (st_extensions s) (st_user_segments s).

Definition with_config (c : RequestConfig) (s : RestoredState) : RestoredState :=
  mkState (st_session_id s) (st_system_prompt s) c (st_history s) (st_annotated_history s)
    (st_turn_count s) (st_active_run_turn_count s) (st_last_run_interrupted s)
    (st_entries_count s) (st_usage_history s) (st_extensions s) (st_user_segments s).

Definition with_logs (n : nat) (usage : list UsageRecord) (ext : list (string * Json))
    (segs : list (list Segment)) (s : RestoredState) : RestoredState :=
  mkState (st_session_id s) (st_system_prompt s) (st_config s) (st_history s)
    (st_annotated_history s) (st_turn_count s) (st_active_run_turn_count s)
    (st_last_run_interrupted s) n usage ext segs.

Definition add_extensions (l : list (string * Json)) (s : RestoredState) : RestoredState :=
  with_logs (st_entries_count s) (st_usage_history s) (st_extensions s ++ l)
    (st_user_segments s) s.

Definition set_user_segments (l : list (list Segment)) (s : RestoredState) : RestoredState :=
  with_logs (st_entries_count s) (st_usage_history s) (st_extensions s) l s.

Definition push_entries (l : list LoggedHistoryEntry) (s : RestoredState) : RestoredState :=
  with_history (st_history s ++ (from_logged ∘ logged_item <$> l))
    (st_annotated_history s ++ l) s.

Definition extension_pairs (l : list SessionExtension) : list (string * Json) :=
  (λ x, (domain x, payload x)) <$> l.

(** [vec[index] = value]. *)
Definition set_at {A} (i : nat) (x : A) (l : list A) : option (list A) :=
  if (i <? length l)%nat then Some (<[i := x]> l) else None.

(** One iteration of the loop of [collect_state], after [entries_count += 1]. *)
Definition apply_entry (s : RestoredState) (e : LogEntry) : option RestoredState :=
  match e with
  | AnnotatedSegmentStart _ sid prompt config h _ _ => Some (with_seed sid prompt config h s)
  | InputSegmentsCheckpoint _ segs => Some (set_user_segments segs s)
  | Invoke _ _ => Some (with_run (st_turn_count s) (Some 0) true s)
  | AnnotatedUserInput _ segs exts h =>
      let s := push_entries h s in
      let s := set_user_segments (st_user_segments s ++ [segs]) s in
      Some (add_extensions (extension_pairs exts) s)
  | AnnotatedAssistantItem _ entry | AnnotatedToolResult _ entry =>
      Some (push_entries [entry] s)
  | ToolResultCorrected _ entry =>
      match position (λ x, String.eqb (entry_id (metadata x)) (entry_id (metadata entry)))
              (st_annotated_history s) with
      | None => Some s
      | Some index =>
          annotated ← set_at index entry (st_annotated_history s);
          items ← set_at index (from_logged (logged_item entry)) (st_history s);
          Some (with_history items annotated s)
      end
  | AnnotatedSystemItem _ entry exts =>
      let item := to_history_item (system_item entry) in
      let s := with_history (st_history s ++ [item])
                 (st_annotated_history s ++ [mkLogged (to_logged item) (system_metadata entry)]) s in
      Some (add_extensions (extension_pairs exts) s)
  | TurnEnd _ turns =>
      match st_active_run_turn_count s with
      | Some active =>
          active ← checked_add_u64 active (saturating_sub_u64 turns (st_turn_count s));
          Some (with_run turns (Some active) (st_last_run_interrupted s) s)
      | None => Some (with_run turns None (st_last_run_interrupted s) s)
      end
  | RunCompleted _ _ interrupted result active =>
      if interrupted && match result with Paused | Yielded => true | _ => false end then
        match active with
        | Some turns => Some (with_run (st_turn_count s) (Some turns) interrupted s)
        | None => Some (with_run (st_turn_count s) (st_active_run_turn_count s) interrupted s)
        end
      else Some (with_run (st_turn_count s) None interrupted s)
  | RunYielded _ _ _ active | RunResumed _ _ _ active =>
      Some (with_run (st_turn_count s) (Some active) true s)
  | RunCancelled _ _ => Some (with_run (st_turn_count s) None false s)
  | RunErrored _ _ interrupted _ _ => Some (with_run (st_turn_count s) None interrupted s)
  | ActiveRunCheckpoint _ active total => Some (with_run total (Some active) true s)
  | PausedTurnAbandoned _ _ => Some (with_run (st_turn_count s) None false s)
  | ConfigChanged _ config => Some (with_config config s)
  | LlmUsage _ usage =>
      Some (with_logs (st_entries_count s) (st_usage_history s ++ [usage]) (st_extensions s)
              (st_user_segments s) s)
  | Extension _ domain payload => Some (add_extensions [(domain, payload)] s)
  end.

Definition collect_step (s : RestoredState) (e : LogEntry) : option RestoredState :=
  apply_entry (with_logs (S (st_entries_count s)) (st_usage_history s) (st_extensions s)
                 (st_user_segments s) s) e.

Definition collect_from (s : RestoredState) (entries : list LogEntry) : option RestoredState :=
  foldl (λ o e, s ← o; collect_step s e) (Some s) entries.

Definition collect_state (entries : list LogEntry) : option RestoredState :=
  collect_from initial_state entries.

(** ** The worker's replay *)

Abbreviation WorkerEntry := (HistoryEntry LoggedSessionHistoryMetadata).

Definition to_logged_history_entry (e : WorkerEntry) : LoggedHistoryEntry :=
  mkLogged (to_logged (item e)) (annotation e).

Definition worker_from_logged (e : LoggedHistoryEntry) : WorkerEntry :=
  mkEntry (from_logged (logged_item e)) (metadata e).

(** The two call ids of a correction agree. *)
Definition same_call (target : Item) (replacement : LoggedItem) : bool :=
  match target, replacement with
  | ToolResult r, LoggedToolResult call_id _ _ _ _ _ => String.eqb (tr_call_id r) call_id
  | _, _ => false
  end.

Definition restore_entry (h : list WorkerEntry) (e : LogEntry)
  : result (list WorkerEntry) string :=
  match e with
  | AnnotatedSegmentStart _ _ _ _ seed _ _ => Ok (worker_from_logged <$> seed)
  | AnnotatedUserInput _ _ _ input => Ok (h ++ (worker_from_logged <$> input))
  | AnnotatedAssistantItem _ entry | AnnotatedToolResult _ entry =>
      Ok (h ++ [worker_from_logged entry])
  | ToolResultCorrected _ entry =>
      match position (λ x : WorkerEntry,
              String.eqb (entry_id (annotation x)) (entry_id (metadata entry))) h with
      | None => Err "tool result correction target is missing"
      | Some index =>
          match h !! index with
          | None => Err "tool result correction target is missing"
          | Some target =>
              if same_call (item target) (logged_item entry)
              then Ok (<[index := worker_from_logged entry]> h)
              else Err "tool result correction changed call identity"
          end
      end
  | AnnotatedSystemItem _ entry _ =>
      Ok (h ++ [mkEntry (to_history_item (system_item entry)) (system_metadata entry)])
  | _ => Ok h
  end.

Fixpoint restore_from (h : list WorkerEntry) (entries : list LogEntry)
  : result (list WorkerEntry) string :=
  match entries with
  | [] => Ok h
  | e :: rest => let? h := restore_entry h e in restore_from h rest
  end.

Definition restore_history_entries (entries : list LogEntry)
  : result (list WorkerEntry) string := restore_from [] entries.

(** The record the worker commits for a rejected image before the history is corrected. *)
Definition correction_record (ts : Z) (original : WorkerEntry) (replacement : Item) : LogEntry :=
  ToolResultCorrected ts (mkLogged (to_logged replacement) (annotation original)).
End log.

(** ** Lemmas: logged items *)

(** What is left of an item after it has been logged: output-side ids and the status of
    messages and reasoning are gone, and an error is not a success. *)
Definition strip (i : Item) : Item :=
  match i with
  | Message m => Message (mkMessage None (role m) (msg_content m) None)
  | AssistantResponseBoundary response_id => i
  | ToolCall c => ToolCall (mkToolCall None (tc_call_id c) (tc_name c) (tc_arguments c)
                              (tc_call_index c) (tc_execution_id c) (tc_status c))
  | ToolResult r =>
      ToolResult (mkToolResult None (tr_call_id r) (tr_summary r) (tr_content r)
        (if tr_is_error r && is_success (tr_disposition r) then Error else tr_disposition r)
        (tr_is_error r) (tr_attachments r))
  | Reasoning r => Reasoning (mkReasoning None (r_text r) (r_summary r) (r_encrypted_content r)
                                (r_signature r) None)
  end.

Lemma fmap_inverse {A B} (f : A → B) (g : B → A) (l : list A) :
  (∀ x, g (f x) = x) → g <$> (f <$> l) = l.
Proof. intros Hgf. induction l as [|x l IH]; csimpl; by rewrite ?Hgf, ?IH. Qed.

Lemma from_to_logged i : from_logged (to_logged i) = strip i.
Proof.
  destruct i as [m| |c|r|r]; cbn [from_logged to_logged strip]; try done.
  - rewrite fmap_inverse by (by intros []). by destruct (role m).
  - rewrite fmap_inverse by (by intros [[]]). done.
Qed.

Lemma strip_from_logged l : strip (from_logged l) = from_logged l.
Proof.
  destruct l as [| | |c s co at' d e|]; simpl; try done. by destruct e, d.
Qed.

Lemma strip_idemp i : strip (strip i) = strip i.
Proof. rewrite <- (from_to_logged i). apply strip_from_logged. Qed.

Lemma strip_system_message text : strip (system_message text) = system_message text.
Proof. done. Qed.

(** ** Lemmas: replay *)

Section replay.
Context `{Carrier}.

Lemma collect_from_app s l k :
  collect_from s (l ++ k) = s' ← collect_from s l; collect_from s' k.
Proof.
  unfold collect_from. rewrite foldl_app. destruct (foldl _ (Some s) l) as [s'|]; [done|].
  simpl. induction k; simpl; done.
Qed.

Lemma collect_from_cons s e l :
  collect_from s (e :: l) = s' ← collect_step s e; collect_from s' l.
Proof. apply (collect_from_app s [e] l). Qed.

(** The model-facing history is the projection of the annotated one. *)
Definition projected (s : RestoredState) : Prop :=
  st_history s = from_logged ∘ logged_item <$> st_annotated_history s.

(** The turns an entry can add to a run. *)
Definition entry_turns (e : LogEntry) : Z :=
  match e with
  | TurnEnd _ turns => turns
  | RunCompleted _ _ _ _ (Some turns) => turns
  | RunYielded _ _ _ turns | RunResumed _ _ _ turns => turns
  | ActiveRunCheckpoint _ active _ => active
  | _ => 0
  end.

(** Counts of a log are not negative, as [usize] values are. *)
Definition entry_counts_ok (e : LogEntry) : Prop :=
  0 ≤ entry_turns e
  ∧ match e with ActiveRunCheckpoint _ _ total => 0 ≤ total | _ => True end.

Definition total_turns (l : list LogEntry) : Z := foldr (λ e n, entry_turns e + n) 0 l.

Definition counts_bounded (n : Z) (s : RestoredState) : Prop :=
  0 ≤ st_turn_count s
  ∧ match st_active_run_turn_count s with Some a => 0 ≤ a ≤ n | None => True end.

Lemma set_at_Some {A} i (x : A) l :
  (i < length l)%nat → set_at i x l = Some (<[i := x]> l).
Proof. intros Hi. unfold set_at. by rewrite (proj2 (Nat.ltb_lt _ _) Hi). Qed.

Lemma position_lt {A} (p : A → bool) l i : position p l = Some i → (i < length l)%nat.
Proof. intros (x & Hx & _)%position_Some. by eapply lookup_lt_Some. Qed.

(** One entry: replay does not panic and the projection stays exact. *)
Lemma collect_step_ok n s e :
  projected s → counts_bounded n s → entry_counts_ok e → n + entry_turns e ≤ U64_MAX →
  0 ≤ n →
  ∃ s', collect_step s e = Some s' ∧ projected s' ∧ counts_bounded (n + entry_turns e) s'
        ∧ st_entries_count s' = S (st_entries_count s).
Proof.
  intros Hp [Ht Ha] [He Hc] Hn Hn0. unfold collect_step.
  destruct e; cbn [apply_entry entry_turns] in *;
    try (eexists; split; [reflexivity|]; split_and!;
         [unfold projected; simpl; rewrite ?fmap_app, ?Hp; done
         |split; simpl in *; destruct (st_active_run_turn_count s); lia|done]).
  - (* correction *)
    cbn [st_annotated_history with_logs].
    destruct (position _ _) as [i|] eqn:Hi;
      [|eexists; split; [reflexivity|]; split_and!; [exact Hp|split; simpl in *;
         destruct (st_active_run_turn_count s); lia|done]].
    apply position_lt in Hi. rewrite (set_at_Some i entry) by done. cbn [mbind option_bind].
    rewrite set_at_Some by (cbn [st_history with_logs]; by rewrite Hp, length_fmap).
    eexists. split; [reflexivity|].
    split_and!; [|split; simpl in *; destruct (st_active_run_turn_count s); lia|done].
    unfold projected. cbn [st_history st_annotated_history with_history with_logs].
    by rewrite Hp, list_fmap_insert.
  - (* the end of a turn *)
    cbn [st_active_run_turn_count st_turn_count with_logs].
    destruct (st_active_run_turn_count s) as [a|].
    + unfold checked_add_u64, saturating_sub_u64. rewrite (proj2 (Z.leb_le _ _)) by lia.
      simpl. eexists. split; [reflexivity|]. split_and!; [exact Hp|split; simpl; lia|done].
    + eexists. split; [reflexivity|]. split_and!; [exact Hp|split; simpl; done|done].
  - (* the end of a run *)
    destruct (interrupted && _); [destruct active_run_turn_count as [a|]|];
      eexists; (split; [reflexivity|]; split_and!; [exact Hp|split; simpl in *;
        try destruct (st_active_run_turn_count s); lia|done]).
Qed.

Lemma collect_from_ok l : ∀ n s,
  projected s → counts_bounded n s → Forall entry_counts_ok l → 0 ≤ n →
  n + total_turns l ≤ U64_MAX →
  ∃ s', collect_from s l = Some s' ∧ projected s'
        ∧ st_entries_count s' = (st_entries_count s + length l)%nat.
Proof.
  induction l as [|e l IH]; intros n s Hp Hb Hl Hn Hsum; cbn [total_turns foldr] in Hsum.
  { exists s. split_and!; [done..|simpl; lia]. }
  inversion_clear Hl as [|?? He Hl'].
  assert (0 ≤ total_turns l).
  { clear -Hl'. induction Hl' as [|x k [Hx _] _ IH]; simpl; lia. }
  change (foldr _ 0 l) with (total_turns l) in Hsum.
  destruct (collect_step_ok n s e) as (s1 & Hs1 & Hp1 & Hb1 & Hc1); [done..|lia|lia|].
  rewrite collect_from_cons, Hs1. cbn [mbind option_bind]. destruct He as [He _].
  destruct (IH (n + entry_turns e) s1) as (s2 & Hs2 & Hp2 & Hc2); [done..|lia|lia|].
  exists s2. split_and!; [done..|]. rewrite Hc2, Hc1. simpl. lia.
Qed.

Lemma collect_step_projected s e s' : collect_step s e = Some s' → projected s → projected s'.
Proof.
  unfold collect_step, projected. intros Hs Hp. destruct e; cbn [apply_entry] in Hs;
    try (injection Hs as <-; cbn; by rewrite ?fmap_app, ?Hp).
  - destruct (position _ _) as [i|]; [|by injection Hs as <-].
    apply bind_Some in Hs as (h & Hh & (items & Hi & [= <-])%bind_Some).
    unfold set_at in Hh, Hi. destruct (_ <? _)%nat in Hh; [|done].
    destruct (_ <? _)%nat in Hi; [|done]. injection Hh as <-. injection Hi as <-.
    cbn [st_history st_annotated_history with_history with_logs].
    by rewrite Hp, list_fmap_insert.
  - destruct (st_active_run_turn_count _); [|by injection Hs as <-].
    by apply bind_Some in Hs as (a & _ & [= <-]).
  - by destruct (interrupted && _), active_run_turn_count; injection Hs as <-.
Qed.

Lemma collect_from_projected l : ∀ s s',
  collect_from s l = Some s' → projected s → projected s'.
Proof.
  induction l as [|e l IH]; intros s s'; [by intros [= <-]|]. rewrite collect_from_cons.
  intros (s1 & Hs & Hc)%bind_Some Hp. eapply IH; [done|]. by eapply collect_step_projected.
Qed.

(** The identity of a run transition does not matter to replay. *)
Lemma collect_step_entry_id x s e : collect_step s (ensure_entry_id x e) = collect_step s e.
Proof. by destruct e. Qed.

(** A correction changes the histories only. *)
Lemma correction_keeps ts entry s s' :
  apply_entry s (ToolResultCorrected ts entry) = Some s' →
  ∃ items h, s' = with_history items h s.
Proof.
  cbn [apply_entry]. destruct (position _ _) as [i|].
  - intros (h & _ & (items & _ & [= <-])%bind_Some)%bind_Some. eauto.
  - intros [= <-]. exists (st_history s), (st_annotated_history s). by destruct s.
Qed.

(** What an entry says about the run it belongs to: [true] while it is not known how the run
    ended. *)
Definition run_mark (e : LogEntry) : option bool :=
  match e with
  | Invoke _ _ | RunYielded _ _ _ _ | RunResumed _ _ _ _ | ActiveRunCheckpoint _ _ _ => Some true
  | RunCompleted _ _ interrupted _ _ | RunErrored _ _ interrupted _ _ => Some interrupted
  | RunCancelled _ _ | PausedTurnAbandoned _ _ => Some false
  | _ => None
  end.

Lemma collect_step_interrupted s e s' :
  collect_step s e = Some s' →
  st_last_run_interrupted s' = default (st_last_run_interrupted s) (run_mark e).
Proof.
  unfold collect_step. destruct e; cbn [run_mark]; try (by intros [= <-]).
  - by intros (items & h & ->)%correction_keeps.
  - cbn [apply_entry]. destruct (st_active_run_turn_count _); [|by intros [= <-]].
    destruct (checked_add_u64 _ _); [|done]. by intros [= <-].
  - cbn [apply_entry].
    destruct (interrupted && _); [destruct active_run_turn_count|]; by intros [= <-].
Qed.

Lemma collect_from_interrupted l : ∀ s s',
  collect_from s l = Some s' →
  st_last_run_interrupted s' = default (st_last_run_interrupted s) (last (omap run_mark l)).
Proof.
  induction l as [|e l IH]; intros s s'; [by intros [= <-]|].
  rewrite collect_from_cons. destruct (collect_step s e) as [s1|] eqn:Hs; [|done].
  cbn [mbind option_bind]. intros Hc. apply IH in Hc. apply collect_step_interrupted in Hs.
  rewrite Hc, Hs. csimpl. destruct (run_mark e) as [b|]; [|done].
  rewrite last_cons. by destruct (last (omap run_mark l)).
Qed.

(** The turn counts of a log do not decrease. *)
Fixpoint turns_rise (t : Z) (l : list LogEntry) : Prop :=
  match l with
  | [] => True
  | TurnEnd _ turns :: l => t ≤ turns ∧ turns_rise turns l
  | _ :: l => turns_rise t l
  end.

Lemma collect_step_turns s e s' :
  collect_step s e = Some s' → run_mark e = None →
  match e with
  | TurnEnd _ turns =>
      st_turn_count s' = turns
      ∧ st_active_run_turn_count s'
        = (λ a, a + Z.max (turns - st_turn_count s) 0) <$> st_active_run_turn_count s
  | _ => st_turn_count s' = st_turn_count s
         ∧ st_active_run_turn_count s' = st_active_run_turn_count s
  end.
Proof.
  unfold collect_step. destruct e; cbn [run_mark]; try done;
    try (by intros [= <-] _).
  - by intros (items & h & ->)%correction_keeps _.
  - cbn [apply_entry st_active_run_turn_count with_logs st_turn_count].
    destruct (st_active_run_turn_count s) as [a|]; [|by intros [= <-] _].
    unfold checked_add_u64, saturating_sub_u64. destruct (_ <=? _); [|done]. by intros [= <-] _.
Qed.

Lemma collect_from_turns l : ∀ s s' a,
  collect_from s l = Some s' → Forall (λ e, run_mark e = None) l →
  turns_rise (st_turn_count s) l → st_active_run_turn_count s = Some a →
  st_active_run_turn_count s' = Some (a + (st_turn_count s' - st_turn_count s)).
Proof.
  induction l as [|e l IH]; intros s s' a; [intros [= <-] _ _ ->; f_equal; lia|].
  rewrite collect_from_cons. destruct (collect_step s e) as [s1|] eqn:Hs; [|done].
  cbn [mbind option_bind]. intros Hc Hl Hr Ha. inversion_clear Hl as [|?? He Hl'].
  apply collect_step_turns in Hs; [|done]. destruct e; try done; cbn [turns_rise] in Hr;
    destruct Hs as [Ht Hact]; rewrite Ha in Hact;
    try (rewrite (IH s1 s' a); [by rewrite Ht|done|done|by rewrite Ht|done]).
  destruct Hr as [Hle Hr]. cbn [fmap option_fmap option_map] in Hact.
  rewrite (IH s1 s' _ Hc Hl' ltac:(by rewrite Ht) Hact). f_equal. lia.
Qed.

(** ** Lemmas: the two replays *)

Lemma position_fmap {A B} (f : A → B) (p : B → bool) l :
  position p (f <$> l) = position (λ x, p (f x)) l.
Proof. induction l as [|x l IH]; csimpl; [done|]. by rewrite IH. Qed.

Lemma worker_from_logged_system entry :
  worker_from_logged (mkLogged (to_logged (to_history_item (system_item entry)))
                        (system_metadata entry))
  = mkEntry (to_history_item (system_item entry)) (system_metadata entry).
Proof. unfold worker_from_logged. cbn [logged_item metadata]. by rewrite from_to_logged. Qed.

Lemma restore_step_agrees s e h' s' :
  restore_entry (worker_from_logged <$> st_annotated_history s) e = Ok h' →
  collect_step s e = Some s' →
  h' = worker_from_logged <$> st_annotated_history s'.
Proof.
  unfold collect_step. destruct e; cbn [restore_entry apply_entry];
    try (by intros [= <-] [= <-]);
    try (intros [= <-] [= <-]; cbn; by rewrite fmap_app).
  - rewrite position_fmap. cbn [annotation worker_from_logged st_annotated_history with_logs].
    destruct (position _ _) as [i|] eqn:Hi; [|done]. apply position_lt in Hi.
    destruct ((worker_from_logged <$> _) !! i) as [t|]; [|done].
    destruct (same_call _ _); [|done]. intros [= <-]. rewrite (set_at_Some i entry) by done.
    cbn [mbind option_bind]. intros (items & _ & [= <-])%bind_Some. cbn.
    by rewrite list_fmap_insert.
  - intros [= <-]. cbn [st_active_run_turn_count with_logs].
    destruct (st_active_run_turn_count s); [|by intros [= <-]].
    destruct (checked_add_u64 _ _); [|done]. by intros [= <-].
  - intros [= <-]. destruct (interrupted && _); [destruct active_run_turn_count|];
      by intros [= <-].
Qed.

Lemma restore_from_agrees l : ∀ s h s',
  restore_from (worker_from_logged <$> st_annotated_history s) l = Ok h →
  collect_from s l = Some s' → h = worker_from_logged <$> st_annotated_history s'.
Proof.
  induction l as [|e l IH]; intros s h s'; cbn [restore_from]; [by intros [= <-] [= <-]|].
  destruct (restore_entry _ e) as [h1|] eqn:Hr; [|done]. intros Hrest.
  rewrite collect_from_cons. destruct (collect_step s e) as [s1|] eqn:Hc; [|done].
  cbn [mbind option_bind]. intros Hs'. pose proof (restore_step_agrees _ _ _ _ Hr Hc) as ->.
  by eapply IH.
Qed.

Lemma restore_from_app h l k :
  restore_from h (l ++ k) = let? h' := restore_from h l in restore_from h' k.
Proof.
  revert h. induction l as [|e l IH]; intros h; cbn [restore_from app]; [done|].
  destruct (restore_entry h e); [apply IH|done].
Qed.
End replay.

(** ** Lemmas: corrections of the history *)

Section corrections.
Context `{Carrier} {HttpError JsonError OtherError Stream : Type}.
Abbreviation WorkerEntry := (HistoryEntry LoggedSessionHistoryMetadata).
Context (blob_size : string → option (Z * Z)).
Context (handler : option (WorkerEntry → Item → option string)).
Context (open_stream :
  nat → list Item → result Stream (EngineError HttpError JsonError OtherError)).

(** An entry as it is restored from a log. *)
Definition normal (e : WorkerEntry) : WorkerEntry := mkEntry (strip (item e)) (annotation e).

Definition ids (h : list WorkerEntry) : list string := (λ e, entry_id (annotation e)) <$> h.

(** A log from which a history is restored. *)
Definition restores (log : list LogEntry) (h : list WorkerEntry) : Prop :=
  restore_history_entries log = Ok (normal <$> h).

(** The record of a correction that the handler, if there is one, has accepted. *)
Definition committed (ts : Z) (record : LogEntry) : Prop :=
  ∃ original, record = correction_record ts original (rejected_result (item original))
    ∧ ∀ commit, handler = Some commit → commit original (rejected_result (item original)) = None.

Lemma position_unique {A} (f : A → string) l i x :
  NoDup (f <$> l) → l !! i = Some x → position (λ y, String.eqb (f y) (f x)) l = Some i.
Proof.
  intros Hnd Hx. destruct (position _ l) as [j|] eqn:Hj.
  - apply position_Some in Hj as (y & Hy & He & _). apply String.eqb_eq in He. f_equal.
    eapply (NoDup_lookup (f <$> l)); [done|by rewrite list_lookup_fmap, Hy|].
    by rewrite list_lookup_fmap, Hx; simpl; rewrite He.
  - rewrite position_None in Hj. specialize (Hj x (list_elem_of_lookup_2 _ _ _ Hx)).
    by rewrite String.eqb_refl in Hj.
Qed.

Lemma insert_annotation {B} (f : LoggedSessionHistoryMetadata → B) (h : list WorkerEntry) i e x :
  h !! i = Some e →
  (λ e : WorkerEntry, f (annotation e)) <$> <[i := mkEntry x (annotation e)]> h
  = (λ e : WorkerEntry, f (annotation e)) <$> h.
Proof.
  intros He. rewrite list_fmap_insert. apply list_insert_id.
  by rewrite list_lookup_fmap, He.
Qed.

(** One correction: the history in memory is the one restored from the log with the
    record. *)
Lemma recover_durable ts log h request h' request' :
  restores log h → NoDup (ids h) →
  recover_rejected_image (HttpError:=HttpError) (JsonError:=JsonError) (OtherError:=OtherError)
    blob_size handler h request = (Ok true, h', request') →
  ids h' = ids h
  ∧ ∃ original,
      (∀ commit, handler = Some commit → commit original (rejected_result (item original)) = None)
      ∧ restores (log ++ [correction_record ts original (rejected_result (item original))]) h'.
Proof.
  intros Hr Hnd. unfold recover_rejected_image.
  destruct (largest_candidate blob_size h request) as [[i q]|] eqn:Hl; [|done].
  apply largest_candidate_Some in Hl as (r & image & Helig & _).
  destruct Helig as ((e & He & Hitem) & _). rewrite He.
  destruct (match handler with Some commit => _ | None => _ end) eqn:Hc; [done|].
  intros [= <- <-]. split; [by apply (insert_annotation entry_id)|]. exists e. split.
  { intros commit ->. exact Hc. }
  unfold restores, restore_history_entries in *. rewrite restore_from_app, Hr.
  cbn [restore_from restore_entry correction_record].
  rewrite position_fmap. cbn [annotation normal metadata].
  rewrite (position_unique (λ e, entry_id (annotation e)) h i e Hnd He).
  rewrite list_lookup_fmap, He. cbn [fmap option_fmap option_map item normal logged_item].
  rewrite Hitem. cbn. rewrite String.eqb_refl. f_equal. rewrite list_fmap_insert.
  unfold normal, worker_from_logged. cbn [item annotation logged_item metadata]. done.
Qed.

(** The whole loop of retries. *)
Lemma recovery_loop_durable ts fuel : ∀ attempt log h request res h' request',
  restores log h → NoDup (ids h) →
  open_stream_with_image_recovery blob_size handler open_stream fuel attempt h request
  = Some (res, h', request') →
  ∃ records, Forall (committed ts) records ∧ restores (log ++ records) h'.
Proof.
  induction fuel as [|fuel IH]; intros attempt log h request res h' request' Hr Hnd; [done|].
  assert (Hsame : ∃ records, Forall (committed ts) records ∧ restores (log ++ records) h).
  { exists []. by rewrite app_nil_r. }
  cbn [open_stream_with_image_recovery]. destruct (open_stream attempt request) as [s|err];
    [by intros [= _ <- _]|].
  destruct err as [ce|m|o]; [|by intros [= _ <- _]..].
  destruct (is_image_size_rejection ce); [|by intros [= _ <- _]].
  destruct (recover_rejected_image _ _ _ _) as [[[[]|e] h1] q1] eqn:Hrec.
  - intros Hrest. eapply (recover_durable ts) in Hrec as (Hids & original & Hcommit & Hr1); [|done..].
    destruct (IH _ _ _ _ _ _ _ Hr1 ltac:(by rewrite Hids) Hrest) as (records & Hf & Hr').
    exists (correction_record ts original (rejected_result (item original)) :: records).
    split; [constructor; [by exists original|done]|].
    by rewrite <- app_assoc in Hr'.
  - pose proof (recover_cases (HttpError:=HttpError) (JsonError:=JsonError)
                  (OtherError:=OtherError) blob_size handler h request) as Hcases.
    rewrite Hrec in Hcases. destruct Hcases as [-> _]. by intros [= _ <- _].
  - pose proof (recover_cases (HttpError:=HttpError) (JsonError:=JsonError)
                  (OtherError:=OtherError) blob_size handler h request) as Hcases.
    rewrite Hrec in Hcases. destruct Hcases as [-> _]. by intros [= _ <- _].
Qed.
End corrections.

(** ** Properties *)

(** C34.  Replay of a segment log does not panic, however records are ordered: the position a
    correction is written to exists in both histories, and the turns of a run do not
    overflow as long as the counts of the log add up to a [u64].  The history the model
    sees is exactly the projection of the annotated one. *)
Theorem replay_never_panics `{Carrier} (entries : list LogEntry) :
  Forall entry_counts_ok entries → total_turns entries ≤ U64_MAX →
  ∃ s, collect_state entries = Some s
       ∧ st_history s = from_logged ∘ logged_item <$> st_annotated_history s
       ∧ st_entries_count s = length entries.
Proof.
  intros Hok Hsum. destruct (collect_from_ok entries 0 initial_state) as (s & Hs & Hp & Hc);
    [done|done|done|lia|lia|]. by exists s.
Qed.

(** The two replays agree: when the worker can restore its history from a log, it is
    the annotated history the store restores from it, entry by entry, with identities and
    provenance. *)
Theorem replays_agree `{Carrier} (entries : list LogEntry)
    (h : list (HistoryEntry LoggedSessionHistoryMetadata)) (s : RestoredState) :
  restore_history_entries entries = Ok h → collect_state entries = Some s →
  h = worker_from_logged <$> st_annotated_history s.
Proof. apply (restore_from_agrees entries initial_state). Qed.

(** A run counts as interrupted until its end is on record: after a replay the flag is
    what the last record about a run says, and a start, yield, resumption or checkpoint that
    no end follows says interrupted. *)
Theorem interrupted_until_proven `{Carrier} (entries : list LogEntry) (s : RestoredState) :
  collect_state entries = Some s →
  st_last_run_interrupted s = default false (last (omap run_mark entries)).
Proof. apply (collect_from_interrupted entries initial_state). Qed.

(** The turn budget of a run survives replay: if after the start of a run no other run
    record follows and turn counts do not decrease, the turns of the run are the turns
    completed since it started. *)
Theorem turn_budget_exact `{Carrier} (before run : list LogEntry) (ts : Z) (k : InvokeKind)
    (s0 s : RestoredState) :
  collect_state before = Some s0 →
  collect_state (before ++ Invoke ts k :: run) = Some s →
  Forall (λ e, run_mark e = None) run → turns_rise (st_turn_count s0) run →
  st_active_run_turn_count s = Some (st_turn_count s - st_turn_count s0).
Proof.
  intros Hs0. unfold collect_state. rewrite collect_from_app.
  unfold collect_state in Hs0. rewrite Hs0. cbn [mbind option_bind]. rewrite collect_from_cons.
  intros Hs Hrun Hrise.
  by rewrite (collect_from_turns run _ _ 0 Hs Hrun Hrise eq_refl).
Qed.

(** Logging an item and reading it back loses only what is meant to be lost, the ids of
    outputs and the status of messages and reasoning; a failed result is not read back as a
    success, and what was read back once is stable under logging it again, so forks and
    compactions do not change items. *)
Theorem logged_items_roundtrip (i : Item) (l : LoggedItem) :
  from_logged (to_logged i) = strip i
  ∧ strip (strip i) = strip i
  ∧ from_logged (to_logged (from_logged l)) = from_logged l
  ∧ (∀ r, from_logged l = ToolResult r → tr_is_error r = true → tr_disposition r ≠ Success).
Proof.
  split_and!; [apply from_to_logged|apply strip_idemp| |].
  - by rewrite from_to_logged, strip_from_logged.
  - intros r Hr. destruct l as [| | |c s co at' d e|]; try done. injection Hr as <-.
    cbn. by destruct e, d.
Qed.

(** C25.  Corrections made while a stream is opened are durable: whatever the provider
    answers, the history the retries leave in memory is the one restored from the log with
    records of corrections that the handler has accepted. *)
Theorem recovery_is_durable `{Carrier} {HttpError JsonError OtherError Stream : Type}
    (blob_size : string → option (Z * Z))
    (handler : option (HistoryEntry LoggedSessionHistoryMetadata → Item → option string))
    (open_stream : nat → list Item → result Stream (EngineError HttpError JsonError OtherError))
    (fuel attempt : nat) (ts : Z) (log : list LogEntry)
    (h h' : list (HistoryEntry LoggedSessionHistoryMetadata)) (request request' : list Item)
    (res : result Stream (EngineError HttpError JsonError OtherError)) :
  restore_history_entries log = Ok (normal <$> h) →
  NoDup ((λ e, entry_id (annotation e)) <$> h) →
  open_stream_with_image_recovery blob_size handler open_stream fuel attempt h request
  = Some (res, h', request') →
  ∃ records, Forall (committed handler ts) records
             ∧ restore_history_entries (log ++ records) = Ok (normal <$> h').
Proof. apply recovery_loop_durable. Qed.

(** ** Witnesses *)

Module Example.

Definition carrier : Carrier := Build_Carrier unit unit tt unit unit.

Definition entry (i : Item) (id : string) : @LoggedHistoryEntry carrier :=
  @mkLogged carrier (to_logged i) (@mkMetadata carrier id tt).

Definition call : Item :=
  ToolCall (mkToolCall None "c1" "ViewImage" "{}" None None None).

Definition image_result : Item :=
  ToolResult (mkToolResult None "c1" "attached" None Success false
                [Image (mkImageAttachment "image/png" "data")]).

Definition start : list (@LogEntry carrier) :=
  [@AnnotatedSegmentStart carrier 0 "s" None tt [] None None].

Definition run : list (@LogEntry carrier) :=
  [AnnotatedAssistantItem 2 (entry call "e1"); AnnotatedToolResult 3 (entry image_result "e2");
   TurnEnd 4 1].

Definition log : list (@LogEntry carrier) := start ++ Invoke 1 UserSend :: run.

Definition live : list (HistoryEntry (@LoggedSessionHistoryMetadata carrier)) :=
  [mkEntry call (@mkMetadata carrier "e1" tt); mkEntry image_result (@mkMetadata carrier "e2" tt)].

Definition corrected_live : list (HistoryEntry (@LoggedSessionHistoryMetadata carrier)) :=
  (λ e, mkEntry (rejected_result (item e)) (annotation e)) <$> live.

(** A provider that rejects the first request and accepts the second. *)
Definition provider (attempt : nat) (_ : list Item)
  : result unit (EngineError unit unit unit) :=
  match attempt with
  | O => Err (Client (Api (Some 413) (Some "image_too_large") "too large" None))
  | _ => Ok tt
  end.

End Example.

Lemma replay_never_panics_witness :
  ∃ s, collect_state Example.log = Some s
       ∧ st_history s = from_logged ∘ logged_item <$> st_annotated_history s
       ∧ st_entries_count s = 5%nat.
Proof.
  apply (@replay_never_panics Example.carrier Example.log);
    [repeat constructor; vm_compute; congruence|vm_compute; congruence].
Defined.

Lemma replays_agree_witness :
  ∃ s, collect_state Example.log = Some s
       ∧ (normal <$> Example.live) = worker_from_logged <$> st_annotated_history s.
Proof.
  eexists. split; [vm_compute; reflexivity|].
  apply (@replays_agree Example.carrier Example.log); vm_compute; reflexivity.
Defined.

Lemma interrupted_until_proven_witness :
  ∃ s, collect_state Example.log = Some s ∧ st_last_run_interrupted s = true.
Proof.
  eexists. split; [vm_compute; reflexivity|].
  apply (@interrupted_until_proven Example.carrier Example.log). vm_compute. reflexivity.
Defined.

Lemma turn_budget_exact_witness :
  ∃ s0 s, collect_state Example.start = Some s0 ∧ collect_state Example.log = Some s
          ∧ st_active_run_turn_count s = Some (st_turn_count s - st_turn_count s0).
Proof.
  eexists _, _. split; [vm_compute; reflexivity|]. split; [vm_compute; reflexivity|].
  apply (@turn_budget_exact Example.carrier Example.start Example.run 1 UserSend);
    [vm_compute; reflexivity..|repeat constructor|vm_compute; split; [congruence|exact I]].
Defined.

Lemma recovery_is_durable_witness :
  ∃ records, Forall (@committed Example.carrier (Some (λ _ _, None)) 9) records
    ∧ restore_history_entries (Example.log ++ records) = Ok (normal <$> Example.corrected_live).
Proof.
  apply (@recovery_is_durable Example.carrier unit unit unit unit (λ _, None)
           (Some (λ _ _, None)) Example.provider 3 0 9 Example.log Example.live _ (item <$> Example.live)
           (item <$> Example.corrected_live) (Ok tt));
    [vm_compute; reflexivity|by apply (bool_decide_unpack _)|vm_compute; reflexivity].
Defined.

End SessionLog.
