(* ===== verification/CompactControl.v ===== *)
(** * Automatic compaction and the accounting of usage

    Models [src/crates/worker/src/compact/state.rs] (when the worker may compact on its own),
    [compact/usage_tracker.rs] (what a request cost), [commit_usage_boundary] of the log writer
    in [worker.rs], and the parts of [worker.rs] and [ipc/interceptor.rs] that act on their
    decisions.  Locks are left out: each operation holds its own for its whole length.  The
    theorems: one attempt at a time, no request above the safety threshold, and usage that is
    neither lost nor counted twice however often the log refuses an entry. *)
From Stdlib Require Import ZArith String List Lia.
From stdpp Require Import base tactics numbers list strings pretty.
From S2P Require Import Prelude BTree Conversation ContextBudget ImageRecovery Timeline SessionLog.

Module CompactControl.
Import ContextBudget.

(** ** The guard of automatic compaction *)

Inductive CompactFailureCategory :=
| CategoryCancelled | SummaryMissing | SummaryTooLarge | ActiveSegmentCommit | Storage
| InternalWorker | Preparation | OtherCategory.

Inductive AutomaticCompactGuard :=
| Ready
| SuppressedForCurrentRun (failure_category : CompactFailureCategory)
| AwaitingPostCompactRequest.

Inductive CompactionOutcome := Succeeded | Failed (c : CompactFailureCategory) | Cancelled.

Inductive AutomaticCompactTrigger := PreRun | RequestThreshold.

Inductive AutomaticCompactBlock :=
| Attempted | Thrash | BlockFailed (c : CompactFailureCategory) | BlockCancelled.

Inductive AutomaticCompactDecision :=
| Continue | Start (t : AutomaticCompactTrigger) | Block (b : AutomaticCompactBlock).

Record CompactState := mkCompact {
  compact_threshold : option Z;
  request_threshold : option Z;
  retained_tokens : Z;
  guard : AutomaticCompactGuard;
  attempt_claimed : bool;
  cancelled_attempt : bool;
  pending_request_block : option AutomaticCompactBlock
}.

Definition compact_new (compact_threshold request_threshold : option Z) (retained_tokens : Z)
  : CompactState :=
  mkCompact compact_threshold request_threshold retained_tokens Ready false false None.

(** [Option::is_some_and(|threshold| total_tokens > threshold)]. *)
Definition exceeds (threshold : option Z) (total_tokens : Z) : bool :=
  match threshold with Some t => t <? total_tokens | None => false end.

Definition pre_run_eligible (s : CompactState) (total_tokens : Z) : bool :=
  exceeds (compact_threshold s) total_tokens
  && match guard s with Ready => negb (attempt_claimed s) | _ => false end.

(** The fields of the runtime, under the lock. *)
Definition set_runtime (s : CompactState) (g : AutomaticCompactGuard) (claimed cancelled : bool)
    (block : option AutomaticCompactBlock) : CompactState :=
  mkCompact (compact_threshold s) (request_threshold s) (retained_tokens s) g claimed cancelled block.

Definition clear_logical_run (s : CompactState) : CompactState := set_runtime s Ready false false None.

Definition begin_logical_run (s : CompactState) : CompactState := clear_logical_run s.
Definition finish_logical_run (s : CompactState) : CompactState := clear_logical_run s.

Definition claim_attempt (s : CompactState) (trigger : AutomaticCompactTrigger)
  : AutomaticCompactDecision * CompactState :=
  match guard s with
  | Ready =>
      if negb (attempt_claimed s)
      then (Start trigger,
            set_runtime s Ready true (cancelled_attempt s) (pending_request_block s))
      else if cancelled_attempt s then (Block BlockCancelled, s) else (Block Attempted, s)
  | SuppressedForCurrentRun c => (Block (BlockFailed c), s)
  | AwaitingPostCompactRequest => (Block Thrash, s)
  end.

Definition evaluate_pre_run (s : CompactState) (total_tokens : Z)
  : AutomaticCompactDecision * CompactState :=
  if exceeds (compact_threshold s) total_tokens then claim_attempt s PreRun else (Continue, s).

Definition evaluate_request (s : CompactState) (total_tokens : Z)
  : AutomaticCompactDecision * CompactState :=
  if exceeds (request_threshold s) total_tokens then claim_attempt s RequestThreshold
  else (Continue, s).

Definition claim_hook_yield (s : CompactState) : AutomaticCompactDecision * CompactState :=
  claim_attempt s RequestThreshold.

Definition has_claimed_attempt (s : CompactState) : bool := attempt_claimed s.

Definition record_request_block (s : CompactState) (b : AutomaticCompactBlock) : CompactState :=
  set_runtime s (guard s) (attempt_claimed s) (cancelled_attempt s) (Some b).

Definition take_pending_request_block (s : CompactState)
  : option AutomaticCompactBlock * CompactState :=
  (pending_request_block s,
   set_runtime s (guard s) (attempt_claimed s) (cancelled_attempt s) None).

(** Completes the claimed attempt, once. *)
Definition complete_automatic (s : CompactState) (outcome : CompactionOutcome)
  : bool * CompactState :=
  if negb (attempt_claimed s) || negb match guard s with Ready => true | _ => false end
     || cancelled_attempt s
  then (false, s)
  else (true,
        match outcome with
        | Succeeded => set_runtime s AwaitingPostCompactRequest (attempt_claimed s)
                         (cancelled_attempt s) (pending_request_block s)
        | Failed c => set_runtime s (SuppressedForCurrentRun c) (attempt_claimed s)
                        (cancelled_attempt s) (pending_request_block s)
        | Cancelled => set_runtime s (guard s) (attempt_claimed s) true (pending_request_block s)
        end).

Definition post_compact_request_committed (s : CompactState) : CompactState :=
  match guard s with
  | AwaitingPostCompactRequest => set_runtime s Ready false false (pending_request_block s)
  | _ => s
  end.

(** ** The tracker of usage *)

Inductive PostRequestMetric := Prune | Compaction.

#[export] Instance PostRequestMetric_eq_dec : EqDecision PostRequestMetric.
Proof. solve_decision. Defined.

Definition metric_name (m : PostRequestMetric) : string :=
  match m with Prune => "prune.post_request" | Compaction => "compact.post_request" end.

Record PostRequestLink := mkLink { correlation_id : string; metric : PostRequestMetric }.

Record RecordedUsage := mkRecorded {
  record : UsageRecord;
  post_requests : list PostRequestLink;
  completed_with_occupancy : bool
}.

Record PendingRequest := mkPending {
  request_id : Z;
  request_history_len : nat;
  usage_recorded : bool
}.

Record PendingRecordedUsage := mkPendingRecord {
  record_id : Z;
  has_input_occupancy : bool;
  usage : RecordedUsage
}.

Record UsageTracker := mkTracker {
  next_request_id : Z;
  pending_request : option PendingRequest;
  pending_correlations : list PostRequestLink;
  pending_records : list PendingRecordedUsage
}.

Definition tracker_new : UsageTracker := mkTracker 0 None [] [].

Definition note_request (t : UsageTracker) (history_len : nat) : UsageTracker :=
  mkTracker ((next_request_id t + 1) mod 2 ^ 64)
    (Some (mkPending (next_request_id t) history_len false))
    (pending_correlations t) (pending_records t).

Definition note_post_request (t : UsageTracker) (id : string) (m : PostRequestMetric) : UsageTracker :=
  mkTracker (next_request_id t) (pending_request t)
    (List.filter (λ link, negb (bool_decide (metric link = m))) (pending_correlations t) ++ [mkLink id m])
    (pending_records t).

(** The record of a request, from the event of its usage. *)
Definition usage_record (len : nat) (event : Timeline.UsageEvent) : UsageRecord :=
  ContextBudget.mkUsage len (default 0 (Timeline.input_tokens event))
    (default 0 (Timeline.cache_read_input_tokens event))
    (default 0 (Timeline.cache_creation_input_tokens event))
    (default 0 (Timeline.output_tokens event)).

Definition record_usage (t : UsageTracker) (event : Timeline.UsageEvent) : UsageTracker :=
  match pending_request t with
  | None => t
  | Some pending =>
      if usage_recorded pending then t
      else
        mkTracker (next_request_id t)
          (Some (mkPending (request_id pending) (request_history_len pending) true))
          (pending_correlations t)
          (pending_records t
             ++ [mkPendingRecord (request_id pending)
                   (match Timeline.input_tokens event with Some _ => true | None => false end)
                   (mkRecorded (usage_record (request_history_len pending) event) [] false)])
  end.

(** [iter().rposition(p)]. *)
Fixpoint rposition {A} (p : A → bool) (l : list A) : option nat :=
  match l with
  | [] => None
  | x :: r => match rposition p r with
              | Some i => Some (S i)
              | None => if p x then Some 0%nat else None
              end
  end.

Definition request_completed (t : UsageTracker) : UsageTracker :=
  match pending_request t with
  | None => t
  | Some pending =>
      let t := mkTracker (next_request_id t) None (pending_correlations t) (pending_records t) in
      match rposition (λ r, record_id r =? request_id pending) (pending_records t) with
      | None => t
      | Some index =>
          match pending_records t !! index with
          | Some r =>
              if has_input_occupancy r then
                mkTracker (next_request_id t) None []
                  (<[index := mkPendingRecord (record_id r) (has_input_occupancy r)
                       (mkRecorded (record (usage r)) (pending_correlations t) true)]> (pending_records t))
              else t
          | None => t
          end
      end
  end.

Definition records (t : UsageTracker) : list UsageRecord := record ∘ usage <$> pending_records t.

Definition pending_record_count (t : UsageTracker) : nat := length (pending_records t).

Definition set_records (t : UsageTracker) (rs : list PendingRecordedUsage) : UsageTracker :=
  mkTracker (next_request_id t) (pending_request t) (pending_correlations t) rs.

Definition take_next (t : UsageTracker) : option RecordedUsage * UsageTracker :=
  match pending_records t with
  | [] => (None, t)
  | r :: rest => (Some (usage r), set_records t rest)
  end.

Definition restore_front (t : UsageTracker) (u : RecordedUsage) : UsageTracker :=
  set_records t (mkPendingRecord U64_MAX (completed_with_occupancy u) u :: pending_records t).

(** At the end of a turn that is taken back. *)
Definition drain (t : UsageTracker) : list RecordedUsage * UsageTracker :=
  (usage <$> pending_records t, mkTracker (next_request_id t) None (pending_correlations t) []).

(** ** The log *)

(** Without the time it was made, which nothing here reads. *)
Record Metric := mkMetric {
  m_name : string;
  m_correlation_id : string;
  m_value : Z;
  m_dimensions : btree string
}.

Definition MAX_SAFE_INTEGER : Z := 2 ^ 53 - 1.

(** Exact in a float. *)
Definition safe_metric_number (value : Z) : Z := value `min` MAX_SAFE_INTEGER.

Definition correlated_post_request_metric (kind : PostRequestMetric) (correlation_id : string)
    (r : UsageRecord) : Metric :=
  let value := match kind with Prune => cache_read_tokens r | Compaction => input_total_tokens r end in
  let number (z : Z) := pretty (Z.to_N z) in
  mkMetric (metric_name kind) correlation_id (safe_metric_number value)
    (bt_insert "output_tokens" (number (output_tokens r))
      (bt_insert "cache_write_tokens" (number (cache_write_tokens r))
        (bt_insert "cache_read_tokens" (number (cache_read_tokens r))
          (bt_insert "input_total_tokens" (number (input_total_tokens r))
            (bt_insert "history_len" (pretty (history_len r)) []))))).

Section ledger.
Context `{SessionLog.Carrier}.

(** What appends to the log: which attempts succeed, what time it is, and how a metric is
    written.  An append that fails leaves the log as it was. *)
Record Writer := mkWriter {
  appends : nat → bool;
  now_millis : nat → Z;
  metric_payload : Metric → SessionLog.Json
}.

Record Ledger := mkLedger {
  tracker : UsageTracker;
  usage_history : list UsageRecord;
  compact_state : option CompactState;
  log : list SessionLog.LogEntry;
  clock : nat
}.

Context (writer : Writer).

Definition set_tracker (w : Ledger) (t : UsageTracker) : Ledger :=
  mkLedger t (usage_history w) (compact_state w) (log w) (clock w).

Definition append_entry (w : Ledger) (e : SessionLog.LogEntry) : bool * Ledger :=
  let ok := appends writer (clock w) in
  (ok, mkLedger (tracker w) (usage_history w) (compact_state w)
         (if ok then log w ++ [e] else log w) (S (clock w))).

Definition DOMAIN : string := "metrics".

(** Metrics after the usage; a failure to write one is ignored. *)
Definition append_metrics (w : Ledger) (metrics : list Metric) : Ledger :=
  foldl (λ w m, (append_entry w (SessionLog.Extension (now_millis writer (clock w)) DOMAIN
                                   (metric_payload writer m))).2) w metrics.

Definition commit_usage_boundary (w : Ledger) (e : SessionLog.LogEntry) (after_commit : Ledger → Ledger)
    (post_metrics : list Metric) : bool * Ledger :=
  let '(ok, w) := append_entry w e in
  if ok then (true, append_metrics (after_commit w) post_metrics) else (false, w).

(** The usage enters the history in memory; one that ran after a compaction rearms it. *)
Definition publish_committed_usage (u : RecordedUsage) (w : Ledger) : Ledger :=
  mkLedger (tracker w) (usage_history w ++ [record u])
    (if completed_with_occupancy u && existsb (λ l, bool_decide (metric l = Compaction)) (post_requests u)
     then post_compact_request_committed <$> compact_state w else compact_state w)
    (log w) (clock w).

(** The loop of [persist_pending_usage]; [None] is that it would go on. *)
Fixpoint persist_loop (fuel : nat) (metrics : list Metric) (w : Ledger)
  : option (option (list Metric) * Ledger) :=
  match take_next (tracker w) with
  | (None, _) => Some (Some metrics, w)
  | (Some u, t) =>
      match fuel with
      | O => None
      | S fuel =>
          let post_metrics :=
            (λ l, correlated_post_request_metric (metric l) (correlation_id l) (record u)) <$> post_requests u in
          let w := set_tracker w t in
          let entry := SessionLog.LlmUsage (now_millis writer (clock w)) (record u) in
          let '(ok, w) := commit_usage_boundary w entry (publish_committed_usage u) post_metrics in
          if ok : bool then persist_loop fuel (metrics ++ post_metrics) w
          else Some (None, set_tracker w (restore_front (tracker w) u))
      end
  end.

Definition persist_pending_usage (w : Ledger) : option (option (list Metric) * Ledger) :=
  persist_loop (pending_record_count (tracker w)) [] w.

(** What the rollback of an empty turn does to the usage, for the lengths its snapshot has:
    what is in memory goes back first, and the log is cut last, which may fail. *)
Definition rollback_usage (truncates : bool) (usage_history_len entries_written : nat) (w : Ledger) : Ledger :=
  mkLedger (drain (tracker w)).2 (take usage_history_len (usage_history w)) (compact_state w)
    (if truncates then take entries_written (log w) else log w) (clock w).

(** ** Sequences of operations *)

(** What happens in a turn; its rollback, if there is one, comes at its end. *)
Inductive UsageOp :=
| NoteRequest (history_len : nat)
| NoteLink (id : string) (m : PostRequestMetric)
| RecordUsage (event : Timeline.UsageEvent)
| RequestCompleted
| PersistUsage
| OtherEntry (e : SessionLog.LogEntry).

Definition apply_op (w : Ledger) (op : UsageOp) : option Ledger :=
  match op with
  | NoteRequest len => Some (set_tracker w (note_request (tracker w) len))
  | NoteLink id m => Some (set_tracker w (note_post_request (tracker w) id m))
  | RecordUsage event => Some (set_tracker w (record_usage (tracker w) event))
  | RequestCompleted => Some (set_tracker w (request_completed (tracker w)))
  | PersistUsage => '(_, w) ← persist_pending_usage w; Some w
  | OtherEntry e => Some (append_entry w e).2
  end.

Fixpoint apply_ops (w : Ledger) (ops : list UsageOp) : option Ledger :=
  match ops with
  | [] => Some w
  | op :: ops => w ← apply_op w op; apply_ops w ops
  end.

Definition usage_of (e : SessionLog.LogEntry) : option UsageRecord :=
  match e with SessionLog.LlmUsage _ u => Some u | _ => None end.

(** ** What is to be accounted *)

(** The current request, with whether its usage came and had an occupancy; whether a compaction
    waits for its next request; and the usage so far, marked where that request was the one. *)
Record Account := mkAccount {
  current : option (nat * option bool);
  awaited : bool;
  accepted : list (UsageRecord * bool)
}.

(** Marks the last element. *)
Fixpoint mark_last (b : bool) (l : list (UsageRecord * bool)) : list (UsageRecord * bool) :=
  match l with
  | [] => []
  | [x] => [(x.1, b)]
  | x :: r => x :: mark_last b r
  end.

Definition account_step (a : Account) (op : UsageOp) : Account :=
  match op with
  | NoteRequest len => mkAccount (Some (len, None)) (awaited a) (accepted a)
  | NoteLink _ Compaction => mkAccount (current a) true (accepted a)
  | RecordUsage event =>
      match current a with
      | Some (len, None) =>
          mkAccount (Some (len, Some match Timeline.input_tokens event with Some _ => true | None => false end))
            (awaited a) (accepted a ++ [(usage_record len event, false)])
      | _ => a
      end
  | RequestCompleted =>
      match current a with
      | Some (_, Some true) => mkAccount None false (mark_last (awaited a) (accepted a))
      | _ => mkAccount None (awaited a) (accepted a)
      end
  | _ => a
  end.

(** A request completes before its usage is written; [written] is that nothing is known of the
    request before. *)
Fixpoint orderly (written : bool) (ops : list UsageOp) : bool :=
  match ops with
  | [] => true
  | NoteRequest _ :: ops => orderly false ops
  | PersistUsage :: ops => orderly true ops
  | RequestCompleted :: ops => negb written && orderly written ops
  | _ :: ops => orderly written ops
  end.

(** Not an entry of usage that another part writes. *)
Definition no_other_usage (op : UsageOp) : bool :=
  match op with OtherEntry e => bool_decide (usage_of e = None) | _ => true end.

(** *** Persisting *)

Definition is_rearming (u : RecordedUsage) : bool :=
  completed_with_occupancy u && existsb (λ l, bool_decide (metric l = Compaction)) (post_requests u).

Definition marked (r : PendingRecordedUsage) : UsageRecord * bool := (record (usage r), is_rearming (usage r)).

(** The account a tracker starts from. *)
Definition account_of (t : UsageTracker) : Account :=
  mkAccount ((λ p, (request_history_len p, if usage_recorded p then Some false else None)) <$> pending_request t)
    (existsb (λ l, bool_decide (metric l = Compaction)) (pending_correlations t))
    (marked <$> pending_records t).

(** Requests are numbered below the next one; what could not be written has the last number. *)
Definition numbered (t : UsageTracker) : Prop :=
  0 <= next_request_id t
  ∧ Forall (λ r, record_id r < next_request_id t ∨ record_id r = U64_MAX) (pending_records t)
  ∧ Forall (λ p, request_id p < next_request_id t) (option_list (pending_request t)).

Definition rearm (b : bool) (cs : option CompactState) : option CompactState :=
  if b then post_compact_request_committed <$> cs else cs.

Lemma rearm_app b1 b2 cs : rearm b2 (rearm b1 cs) = rearm (b1 || b2) cs.
Proof.
  destruct b1, b2, cs as [s|]; try done. simpl. f_equal. unfold post_compact_request_committed.
  by destruct (guard s) eqn:Hg; simpl; rewrite ?Hg.
Qed.

Lemma append_metrics_keeps metrics : ∀ w,
  let w' := append_metrics w metrics in
  tracker w' = tracker w ∧ usage_history w' = usage_history w ∧ compact_state w' = compact_state w
  ∧ omap usage_of (log w') = omap usage_of (log w) ∧ prefix (log w) (log w').
Proof.
  induction metrics as [|m metrics IH]; intros w; [done|].
  destruct (IH (append_entry w (SessionLog.Extension (now_millis writer (clock w)) DOMAIN
                                  (metric_payload writer m))).2) as (T & U & C & L & P). simpl in *.
  split_and!; [done..| |].
  - rewrite L. destruct (appends _ _); [|done]. by rewrite omap_app, app_nil_r.
  - etrans; [|exact P]. by destruct (appends _ _); [apply prefix_app_r|].
Qed.

(** Some records have been written, in order, and the rest are still there. *)
Lemma persist_loop_ok fuel : ∀ metrics w,
  (length (pending_records (tracker w)) <= fuel)%nat →
  ∃ r w' done rest, persist_loop fuel metrics w = Some (r, w')
    ∧ marked <$> pending_records (tracker w) = done ++ (marked <$> rest)
    ∧ pending_records (tracker w') = rest
    ∧ Forall (λ x, record_id x = U64_MAX ∨ x ∈ pending_records (tracker w)) rest
    ∧ next_request_id (tracker w') = next_request_id (tracker w)
    ∧ pending_request (tracker w') = pending_request (tracker w)
    ∧ pending_correlations (tracker w') = pending_correlations (tracker w)
    ∧ usage_history w' = usage_history w ++ done.*1
    ∧ omap usage_of (log w') = omap usage_of (log w) ++ done.*1
    ∧ compact_state w' = rearm (existsb snd done) (compact_state w)
    ∧ prefix (log w) (log w')
    ∧ ((∀ n, appends writer n = true) → rest = []).
Proof.
  induction fuel as [|fuel IH]; intros metrics w Hf; unfold persist_loop; fold persist_loop;
    unfold take_next; destruct (pending_records (tracker w)) as [|x rest] eqn:Hp.
  1,3: exists (Some metrics), w, [], []; rewrite !app_nil_r; split_and!; done.
  { simpl in Hf. lia. }
  unfold commit_usage_boundary, append_entry. cbn [clock set_tracker].
  destruct (appends writer (clock w)) eqn:Hap.
  - match goal with |- context [append_metrics ?w0 ?ms] => set (w1 := w0); set (post := ms) end.
    destruct (append_metrics_keeps post w1) as (T & U & C & L & P).
    destruct (IH (metrics ++ post) (append_metrics w1 post)) as
      (r & w' & don & rest' & Hl & Hd & Hr & Hin & Hn & Hq & Hc & Hu & Hlog & Hcs & Hpre & Hok).
    { rewrite T. simpl in *. lia. }
    rewrite T in *. simpl in Hd, Hn, Hq, Hc, Hin.
    exists r, w', (marked x :: don), rest'. split_and!; try done.
    + by rewrite fmap_cons, Hd.
    + eapply Forall_impl; [exact Hin|]. intros y [?|?]; [by left|right; by right].
    + rewrite Hu, U. simpl. by rewrite <-app_assoc.
    + rewrite Hlog, L. simpl. by rewrite omap_app, <-app_assoc.
    + rewrite Hcs, C. simpl. fold (is_rearming (usage x)). by rewrite <-rearm_app.
    + etrans; [|exact Hpre]. etrans; [|exact P]. by apply prefix_app_r.
  - eexists None, _, [], (mkPendingRecord U64_MAX (completed_with_occupancy (usage x)) (usage x) :: rest).
    split; [done|]. simpl. rewrite !app_nil_r. split_and!; try done.
    + constructor; [by left|]. apply Forall_forall. intros y Hy. right. by right.
    + intros Hall. by rewrite Hall in Hap.
Qed.

(** *** The invariant *)

Context (cs0 : option CompactState) (usage0 : list UsageRecord).

(** [good] is that the operations were in order so far. *)
Record accounts (a : Account) (written good : bool) (w : Ledger) (committed : list (UsageRecord * bool))
  : Prop := {
  ac_records : (accepted a).*1 = (committed ++ (marked <$> pending_records (tracker w))).*1;
  ac_accepted : good = true → accepted a = committed ++ (marked <$> pending_records (tracker w));
  ac_history : usage_history w = usage0 ++ committed.*1;
  ac_log : omap usage_of (log w) = usage0 ++ committed.*1;
  ac_compact : compact_state w = rearm (existsb snd committed) cs0;
  ac_awaited :
    good = true → awaited a = existsb (λ l, bool_decide (metric l = Compaction)) (pending_correlations (tracker w));
  ac_ids : Forall (λ r, (record_id r < next_request_id (tracker w)) ∨ record_id r = U64_MAX)
             (pending_records (tracker w));
  ac_current :
    match pending_request (tracker w), current a with
    | None, None => True
    | Some p, Some (len, status) =>
        request_id p < next_request_id (tracker w) ∧ request_history_len p = len
        ∧ usage_recorded p = match status with Some _ => true | None => false end
        ∧ (written = false →
           match status with
           | None => Forall (λ r, record_id r ≠ request_id p) (pending_records (tracker w))
           | Some occupancy =>
               ∃ rs r, pending_records (tracker w) = rs ++ [r] ∧ record_id r = request_id p
                 ∧ has_input_occupancy r = occupancy
           end)
    | _, _ => False
    end
}.

Lemma existsb_filter_keep {X} (p q : X → bool) l :
  (∀ x, p x = true → q x = true) → existsb p (List.filter q l) = existsb p l.
Proof.
  intros Hpq. induction l as [|x l IH]; [done|]. simpl. destruct (q x) eqn:Hq; simpl; [by rewrite IH|].
  destruct (p x) eqn:Hp; [|done]. apply Hpq in Hp. congruence.
Qed.

Lemma accounts_request a written good w committed len :
  accounts a written good w committed → 0 <= next_request_id (tracker w) < U64_MAX →
  accounts (account_step a (NoteRequest len)) false good (set_tracker w (note_request (tracker w) len)) committed
  ∧ next_request_id (note_request (tracker w) len) = next_request_id (tracker w) + 1.
Proof.
  intros [Rs A U L C W I _] Hn. assert (next_request_id (note_request (tracker w) len) = next_request_id (tracker w) + 1) as Hid.
  { simpl. apply Z.mod_small. unfold U64_MAX in Hn. lia. }
  split; [|done]. split; simpl in *; try done; rewrite Hid.
  - eapply Forall_impl; [exact I|]. intros r [?|?]; [left; lia|by right].
  - split_and!; [lia|done..|]. intros _. eapply Forall_impl; [exact I|]. simpl. intros r [?|?]; lia.
Qed.

Lemma accounts_link a written good w committed id m :
  accounts a written good w committed →
  accounts (account_step a (NoteLink id m)) written good (set_tracker w (note_post_request (tracker w) id m)) committed.
Proof.
  intros [Rs A U L C W I R]. split; simpl; destruct m; simpl; try done.
  - rewrite existsb_app. simpl. rewrite orb_false_r, existsb_filter_keep; [done|].
    by intros [i []].
  - rewrite existsb_app. simpl. by rewrite orb_true_r.
Qed.

Lemma accounts_record a written good w committed event :
  accounts a written good w committed →
  accounts (account_step a (RecordUsage event)) written good (set_tracker w (record_usage (tracker w) event)) committed.
Proof.
  intros Hac. pose proof Hac as [Rs A U L C W I R]. unfold record_usage, account_step.
  destruct (pending_request (tracker w)) as [p|] eqn:Hp, (current a) as [[len status]|] eqn:Hc; try done.
  2: { by destruct w. }
  destruct R as (Hlt & Hlen & Hrec & Hw). destruct status as [o|]; rewrite Hrec; [by destruct w|].
  split; simpl; try done.
  - rewrite (fmap_app marked), app_assoc, !(fmap_app fst), Rs, fmap_app. simpl. by rewrite Hlen.
  - intros Hg. rewrite (A Hg), fmap_app, <-app_assoc. simpl. by rewrite Hlen.
  - apply Forall_app. split; [done|]. apply Forall_singleton. by left.
  - split_and!; [done..|]. intros _. eexists _, _. split_and!; [done..|]. by destruct (Timeline.input_tokens event).
Qed.

Lemma rposition_last {X} (p : X → bool) l x : p x = true → rposition p (l ++ [x]) = Some (length l).
Proof. intros Hx. induction l as [|y l IH]; simpl; [by rewrite Hx|by rewrite IH]. Qed.

Lemma rposition_none {X} (p : X → bool) l : Forall (λ x, p x = false) l → rposition p l = None.
Proof. induction 1 as [|x l Hx _ IH]; simpl; [done|by rewrite IH, Hx]. Qed.

Lemma mark_last_app b l x : mark_last b (l ++ [x]) = l ++ [(x.1, b)].
Proof.
  induction l as [|y l IH]; [done|]. simpl. rewrite IH. by destruct l.
Qed.

Lemma mark_last_fst b l : (mark_last b l).*1 = l.*1.
Proof. induction l as [|x [|y l] IH]; [done..|]. cbn [mark_last fmap list_fmap] in *. by rewrite IH. Qed.

Lemma marked_insert_fst rs i r r' :
  rs !! i = Some r → record (usage r') = record (usage r) →
  (marked <$> <[i := r']> rs).*1 = (marked <$> rs).*1.
Proof.
  intros Hi Hr. rewrite <-!list_fmap_compose, list_fmap_insert. apply list_insert_id.
  rewrite list_lookup_fmap, Hi. simpl. by rewrite Hr.
Qed.

Lemma request_completed_records t :
  (marked <$> pending_records (request_completed t)).*1 = (marked <$> pending_records t).*1.
Proof.
  unfold request_completed. destruct (pending_request t); [|done]. cbn [pending_records].
  destruct (rposition _ _) as [i|]; [|done]. destruct (pending_records t !! i) as [r|] eqn:Hi; [|done].
  destruct (has_input_occupancy r); [|done]. by eapply marked_insert_fst.
Qed.

(** In order. *)
Lemma accounts_completed a good w committed :
  accounts a false good w committed →
  accounts (account_step a RequestCompleted) false good (set_tracker w (request_completed (tracker w))) committed.
Proof.
  intros Hac. pose proof Hac as [Rs A U L C W I R]. pose proof (request_completed_records (tracker w)) as Hrs.
  unfold request_completed, account_step in *.
  destruct (pending_request (tracker w)) as [p|] eqn:Hp, (current a) as [[len status]|] eqn:Hc; try done.
  2: { destruct w as [t ? ? ? ?], t, a. simpl in *. by subst. }
  destruct R as (Hlt & Hlen & Hrec & Hw). specialize (Hw eq_refl). cbn [pending_records] in *.
  destruct status as [o|].
  - destruct Hw as (rs & r & Heq & Hid & Hocc). rewrite Heq in *.
    rewrite rposition_last in * by (by apply Z.eqb_eq). rewrite lookup_app_r, Nat.sub_diag in * by lia. simpl in *.
    rewrite Hocc in *. destruct o; [|by split; simpl; try done; rewrite <-Heq].
    split; simpl; try done.
    + cbn [pending_records] in Hrs. by rewrite mark_last_fst, Rs, !(fmap_app fst), Hrs.
    + intros Hg. rewrite (A Hg), fmap_app. change (marked <$> [r]) with [marked r]. rewrite app_assoc, mark_last_app.
      rewrite insert_app_r_alt, Nat.sub_diag, fmap_app, app_assoc by lia. by rewrite (W Hg).
    + rewrite insert_app_r_alt, Nat.sub_diag by lia. apply Forall_app in I as [I Ir].
      apply Forall_app. split; [done|]. apply Forall_cons in Ir as [Ir _]. by apply Forall_singleton.
  - rewrite rposition_none; [by split|]. eapply Forall_impl; [exact Hw|]. intros r Hr. by apply Z.eqb_neq.
Qed.

Lemma accounts_persist a written good w committed :
  accounts a written good w committed →
  ∃ r w' don, persist_pending_usage w = Some (r, w') ∧ prefix (log w) (log w') ∧ accounts a true good w' (committed ++ don)
    ∧ next_request_id (tracker w') = next_request_id (tracker w).
Proof.
  intros [Rs A U L C W I R].
  destruct (persist_loop_ok (pending_record_count (tracker w)) [] w) as
    (r & w' & don & rest & Hl & Hd & Hr & Hin & Hn & Hq & Hc & Hu & Hlog & Hcs & Hpre & _); [done|].
  exists r, w', don. split; [done|]. split; [done|]. split; [|done]. split.
  - by rewrite Rs, Hd, Hr, app_assoc.
  - intros Hg. by rewrite (A Hg), Hd, Hr, app_assoc.
  - by rewrite Hu, U, fmap_app, app_assoc.
  - by rewrite Hlog, L, fmap_app, app_assoc.
  - by rewrite Hcs, C, rearm_app, existsb_app.
  - intros Hg. by rewrite (W Hg), Hc.
  - rewrite Hr, Hn. eapply Forall_impl; [exact Hin|]. intros x [?|Hx]; [by right|].
    rewrite Forall_forall in I. by apply I.
  - rewrite Hq, Hn. destruct (pending_request (tracker w)) as [p|], (current a) as [[len status]|]; try done.
    destruct R as (? & ? & ? & _). by split_and!.
Qed.

Lemma accounts_other a written good w committed e :
  accounts a written good w committed → usage_of e = None →
  accounts a written good (append_entry w e).2 committed.
Proof.
  intros [Rs A U L C W I R] He. split; simpl; try done.
  destruct (appends writer (clock w)); [|done]. rewrite omap_app, L. simpl. by rewrite He, app_nil_r.
Qed.

(** Out of order. *)
Lemma accounts_completed_late a written good w committed :
  accounts a written good w committed →
  accounts (account_step a RequestCompleted) false false (set_tracker w (request_completed (tracker w))) committed.
Proof.
  intros [Rs A U L C W I R]. pose proof (request_completed_records (tracker w)) as Hrs. split; try done; simpl.
  - rewrite fmap_app, Hrs, <-fmap_app, <-Rs. unfold account_step.
    by destruct (current a) as [[len [[]|]]|]; simpl; rewrite ?mark_last_fst.
  - revert I. unfold request_completed. destruct (pending_request (tracker w)) as [p|]; [|done]. cbn [pending_records].
    destruct (rposition _ _) as [i|]; [|done]. destruct (pending_records _ !! i) as [r|] eqn:Hi; [|done].
    destruct (has_input_occupancy r); [|done]. simpl. intros I. apply Forall_insert; [done|].
    rewrite Forall_lookup in I. by apply (I i r).
  - unfold request_completed, account_step.
    destruct (pending_request (tracker w)) as [p|] eqn:Hp, (current a) as [[len status]|]; try done.
    + destruct status as [[]|]; repeat case_match; done.
    + by rewrite Hp.
Qed.

Lemma record_usage_next t event : next_request_id (record_usage t event) = next_request_id t.
Proof. unfold record_usage. by repeat case_match. Qed.

Lemma request_completed_next t : next_request_id (request_completed t) = next_request_id t.
Proof. unfold request_completed. by repeat case_match. Qed.

Lemma accounts_ops ops : ∀ a written good w committed,
  accounts a written good w committed → forallb no_other_usage ops = true →
  0 <= next_request_id (tracker w) → next_request_id (tracker w) + Z.of_nat (length ops) < U64_MAX →
  ∃ w' don written', apply_ops w ops = Some w' ∧ prefix (log w) (log w')
    ∧ 0 <= next_request_id (tracker w')
    ∧ accounts (foldl account_step a ops) written' (good && orderly written ops) w' (committed ++ don).
Proof.
  induction ops as [|op ops IH]; intros a written good w committed Hac Ho H0 Hn.
  { exists w, [], written. by rewrite app_nil_r, andb_true_r. }
  cbn [length forallb] in Hn, Ho. apply andb_true_iff in Ho as [Hop Ho].
  destruct op as [len|id m|event| | |e]; cbn [apply_ops apply_op orderly mbind option_bind] in *.
  - destruct (accounts_request _ _ _ _ _ len Hac) as [Hac1 Hid]; [lia|].
    apply (IH _ false _ _ _ Hac1 Ho); cbn [tracker set_tracker]; rewrite Hid; lia.
  - apply (IH _ written _ _ _ (accounts_link _ _ _ _ _ id m Hac) Ho); simpl; lia.
  - apply (IH _ written _ _ _ (accounts_record _ _ _ _ _ event Hac) Ho);
      cbn [tracker set_tracker]; rewrite record_usage_next; lia.
  - destruct written.
    + replace (good && (negb true && orderly true ops)) with (false && orderly false ops) by (by destruct good).
      apply (IH _ false _ _ _ (accounts_completed_late _ _ _ _ _ Hac) Ho);
        cbn [tracker set_tracker]; rewrite request_completed_next; lia.
    + apply (IH _ false _ _ _ (accounts_completed _ _ _ _ Hac) Ho);
        cbn [tracker set_tracker]; rewrite request_completed_next; lia.
  - destruct (accounts_persist _ _ _ _ _ Hac) as (r & w' & don & Hp & Hpre & Hac1 & Hid). rewrite Hp. simpl.
    destruct (IH _ true _ _ _ Hac1 Ho) as (w2 & don2 & b & Hw & Hpre2 & Hw0 & Hac2); [lia..|].
    exists w2, (don ++ don2), b. rewrite app_assoc. split_and!; [done|by etrans|done..].
  - apply bool_decide_eq_true in Hop.
    destruct (IH _ written _ _ _ (accounts_other _ _ _ _ _ _ Hac Hop) Ho) as (w2 & don & b & Hw & Hpre & Hw0 & Hac2);
      [simpl; lia..|].
    exists w2, don, b. split_and!; [done| |done..]. etrans; [|exact Hpre]. simpl.
    by destruct (appends _ _); [apply prefix_app_r|].
Qed.

Lemma replay_usage entries : ∀ s s',
  SessionLog.collect_from s entries = Some s' →
  SessionLog.st_usage_history s' = SessionLog.st_usage_history s ++ omap usage_of entries.
Proof.
  induction entries as [|e entries IH]; intros s s' Hc.
  { injection Hc as <-. by rewrite app_nil_r. }
  rewrite SessionLog.collect_from_cons in Hc.
  destruct (SessionLog.collect_step s e) as [s1|] eqn:He; [|done]. apply IH in Hc. rewrite Hc. clear IH Hc.
  unfold SessionLog.collect_step in He.
  destruct e; simpl in He; repeat case_match; simplify_eq/=; try done; try (by rewrite <-app_assoc).
  all: repeat (apply bind_Some in He as (? & _ & He)); by simplify_eq/=.
Qed.

End ledger.

(** C13.  Usage is neither lost nor counted twice.  Take a turn that starts with any tracker whose
    requests are numbered, usage of earlier turns that could not be written included, and a
    history in memory that is what the log has.  Whatever requests, callbacks, attempts to write
    and entries other than usage come in whatever order, and whichever of the appends fail: the
    usage accepted so far, at most one for each request, is what the log got followed by what
    still waits, in order; the history in memory is what the log has, and so is what a replay of
    the log restores; and writing once more with a log that works writes all the rest.  When the
    usage of a request is only written after it completed or was given up, automatic compaction
    is rearmed exactly when the log got the usage of a request that completed, with an occupancy,
    after a compaction.  Taking the turn back, when the log can be cut, leaves the log and the
    history of its start, and nothing that waits. *)
Theorem usage_accounted `{SessionLog.Carrier} (writer : Writer) (ops : list UsageOp) (w : Ledger) :
  numbered (tracker w) → usage_history w = omap usage_of (log w) → forallb no_other_usage ops = true →
  next_request_id (tracker w) + Z.of_nat (length ops) < U64_MAX →
  let accepted := accepted (foldl account_step (account_of (tracker w)) ops) in
  ∃ w' committed pending, apply_ops writer w ops = Some w'
    ∧ accepted.*1 = committed.*1 ++ pending.*1
    ∧ omap usage_of (log w') = omap usage_of (log w) ++ committed.*1
    ∧ usage_history w' = omap usage_of (log w')
    ∧ records (tracker w') = pending.*1
    ∧ (∀ s, SessionLog.collect_state (log w') = Some s → SessionLog.st_usage_history s = usage_history w')
    ∧ ((∀ n, appends writer n = true) →
       ∃ r w2, persist_pending_usage writer w' = Some (r, w2) ∧ records (tracker w2) = []
         ∧ omap usage_of (log w2) = omap usage_of (log w) ++ accepted.*1)
    ∧ (orderly true ops = true →
       accepted = committed ++ pending ∧ compact_state w' = rearm (existsb snd committed) (compact_state w))
    ∧ let back := rollback_usage true (length (usage_history w)) (length (log w)) w' in
      log back = log w ∧ usage_history back = usage_history w ∧ records (tracker back) = []
      ∧ numbered (tracker back).
Proof.
  intros (Hn0 & Hids & Hcur) Hu Ho Hn accepted.
  destruct (accounts_ops writer (compact_state w) (omap usage_of (log w)) ops (account_of (tracker w)) true true w [])
    as (w' & don & b & Hw & Hpre & Hw0 & [Rs A U L C _ _ _]); [|done..|].
  { split; rewrite ?app_nil_r; try done. simpl. destruct (pending_request (tracker w)) as [p|]; [|done].
    apply Forall_cons in Hcur as [Hp _]. split_and!; [done..|by destruct (usage_recorded p)|done]. }
  simpl in *. exists w', don, (marked <$> pending_records (tracker w')).
  assert (records (tracker w') = (marked <$> pending_records (tracker w')).*1) as Hr.
  { unfold records. rewrite <-list_fmap_compose. by apply list_fmap_ext. }
  destruct Hpre as [more Hpre].
  split_and!; [done|by rewrite <-fmap_app|done|by rewrite L|done| | | | | |done|].
  - intros s Hs%replay_usage. by rewrite Hs, L.
  - intros Hall. destruct (persist_loop_ok writer (pending_record_count (tracker w')) [] w') as
      (r & w2 & don2 & rest & Hl & Hd & Hrest & _ & _ & _ & _ & _ & Hlog & _ & _ & Hempty); [done|].
    specialize (Hempty Hall). subst rest. exists r, w2. split; [done|]. split.
    + unfold records. by rewrite Hempty.
    + rewrite Hlog, L. unfold accepted. rewrite Rs, Hd, Hempty. simpl.
      by rewrite app_nil_r, fmap_app, app_assoc.
  - intros Hord. by rewrite <-(A Hord), C.
  - by rewrite Hpre, take_app_length.
  - by rewrite U, Hu, take_app_length.
  - split_and!; [done|constructor..].
Qed.

(** ** The worker and its interceptor *)

(** How [compact_with_cancel] ends; [fatal] errors are those of a segment half activated. *)
Inductive CompactResult :=
| Compacted
| CompactFailed (c : CompactFailureCategory) (fatal : bool)
| CompactCancelled.

Definition outcome_of (r : CompactResult) : CompactionOutcome :=
  match r with Compacted => Succeeded | CompactFailed c _ => Failed c | CompactCancelled => Cancelled end.

(** [complete_automatic] with the [debug_assert!] that it completes; [None] is that it fails. *)
Definition complete (s : CompactState) (r : CompactResult) : option CompactState :=
  let '(completed, s) := complete_automatic s (outcome_of r) in
  if completed : bool then Some s else None.

(** [try_pre_run_compact]: whether a compaction ran, and whether the run may go on. *)
Definition try_pre_run_compact (cs : option CompactState) (current_tokens : Z) (r : CompactResult)
  : option (bool * bool * option CompactState) :=
  match cs with
  | None => Some (false, true, cs)
  | Some s =>
      match evaluate_pre_run s current_tokens with
      | (Start PreRun, s) =>
          s ← complete s r;
          Some (true, match r with CompactFailed _ fatal => negb fatal | _ => true end, Some s)
      | (Start RequestThreshold, _) => None
      | (_, s) => Some (false, true, Some s)
      end
  end.

(** The compaction of [prepare_for_run]. *)
Definition prepare_for_run (cs : option CompactState) (current_tokens : Z) (r : CompactResult)
  : option (bool * bool * option CompactState) :=
  if match cs with Some s => pre_run_eligible s current_tokens | None => false end
  then try_pre_run_compact cs current_tokens r
  else Some (false, true, cs).

(** [FailRun] is an [InterceptorError]. *)
Inductive GateAction := Proceed | YieldRun | CancelRun (reason : string) | FailRun (message : string).

Definition THRESHOLD_COMPACT_BLOCKED_DIAGNOSTIC : string :=
  "automatic compaction could not make the provider request context safe".

Definition request_compact_decision (cs : option CompactState) (current_tokens : option Z)
  : AutomaticCompactDecision * option CompactState :=
  match cs with
  | None => (Continue, None)
  | Some s => let '(d, s) := evaluate_request s (default 0 current_tokens) in (d, Some s)
  end.

Definition decision_action (cs : option CompactState) (d : AutomaticCompactDecision)
  : option GateAction * option CompactState :=
  match d with
  | Continue => (None, cs)
  | Start _ => (Some YieldRun, cs)
  | Block b => (Some (CancelRun THRESHOLD_COMPACT_BLOCKED_DIAGNOSTIC),
                (λ s, record_request_block s b) <$> cs)
  end.

(** What the parts around the request answer: whether protected inputs of the history are
    refused; the tokens of the request; whether a hook fails or runs out of time, the first
    reason to cancel, and whether a hook asks to yield; whether what the hooks add is refused, if
    there is anything; the tokens with it; the failure to log it; and what cancels a compaction
    worker over its budget.  A warning of that budget is appended after the tokens were taken. *)
Record HookResults := mkHooks {
  refused : option string;
  initial_tokens : option Z;
  hook_error : option string;
  cancellation : option string;
  should_yield : bool;
  additions_refused : option string;
  additions : bool;
  effective_tokens : option Z;
  commit_error : option string;
  budget_cancel : option string;
  budget_warning : bool
}.

(** The end of [pre_llm_request], where the request is within the threshold; it is noted before
    what the hooks added is logged. *)
Definition send_request (h : HookResults) : GateAction :=
  match budget_cancel h with
  | Some reason => CancelRun reason
  | None =>
      if additions h || budget_warning h then
        match commit_error h with
        | Some error => CancelRun ("session persistence failed: " +:+ error)
        | None => Proceed
        end
      else Proceed
  end.

(** The part of [pre_llm_request] after the hooks. *)
Definition gate_additions (cs : option CompactState) (h : HookResults) : GateAction * option CompactState :=
  match additions_refused h with
  | Some reason => (FailRun ("protected input supply rejected: " +:+ reason), cs)
  | None =>
      let '(d, cs) := request_compact_decision cs (effective_tokens h) in
      match d, commit_error h with
      | Continue, _ => (send_request h, cs)
      | _, Some error => (CancelRun ("session persistence failed: " +:+ error), cs)
      | _, None => let '(action, cs) := decision_action cs d in (default Proceed action, cs)
      end
  end.

(** [pre_llm_request]; the usage tracker is told apart, in [note_request]. *)
Definition pre_llm_request (cs : option CompactState) (h : HookResults)
  : GateAction * option CompactState :=
  match refused h with
  | Some reason => (FailRun ("protected input supply rejected: " +:+ reason), cs)
  | None =>
      let '(d, cs) := request_compact_decision cs (initial_tokens h) in
      match decision_action cs d with
      | (Some action, cs) => (action, cs)
      | (None, cs) =>
          match hook_error h, cancellation h with
          | Some error, _ => (FailRun error, cs)
          | None, Some reason => (CancelRun reason, cs)
          | None, None =>
              if should_yield h then
                match cs with
                | Some s =>
                    match claim_hook_yield s with
                    | (Start _, s) => (YieldRun, Some s)
                    | (Block b, s) =>
                        (CancelRun THRESHOLD_COMPACT_BLOCKED_DIAGNOSTIC, Some (record_request_block s b))
                    | (Continue, s) => (CancelRun THRESHOLD_COMPACT_BLOCKED_DIAGNOSTIC, Some s)
                    end
                | None => (YieldRun, None)
                end
              else gate_additions cs h
          end
      end
  end.

(** [do_compact_and_resume], up to the run that is resumed: whether it is. *)
Definition do_compact_and_resume (cs : option CompactState) (r : CompactResult) (current_tokens : Z)
    (pre_run : CompactResult) : option (nat * bool * option CompactState) :=
  match cs with
  | Some s =>
      if negb (has_claimed_attempt s) then Some (0%nat, false, cs)
      else
        s ← complete s r;
        match r with
        | Compacted =>
            '(again, go_on, cs) ← prepare_for_run (Some s) current_tokens pre_run;
            Some (if again : bool then 2%nat else 1%nat, go_on,
                  if go_on : bool then cs else fmap (M := option) finish_logical_run cs)
        | _ => Some (1%nat, false, Some (finish_logical_run s))
        end
  | None => Some (1%nat, match r with Compacted => true | _ => false end, None)
  end.

(** [handle_worker_result] of a run that was cancelled or failed: the block is taken and the logical run
    is over. *)
Definition end_run (cs : option CompactState) : option CompactState :=
  (λ s, finish_logical_run (take_pending_request_block s).2) <$> cs.

(** ** Logical runs *)

Inductive RunEvent :=
| Prepare (current_tokens : Z) (r : CompactResult)
| Request (h : HookResults) (r : CompactResult) (current_tokens : Z) (pre_run : CompactResult)
| UsageCommitted.

(** A run in progress: the requests it has sent, with their tokens, its attempts to compact,
    and how often a request after a compaction has rearmed it. *)
Record Run := mkRun {
  compact : option CompactState;
  over : bool;
  sent : list (option Z * option Z);
  attempts : nat;
  rearms : nat
}.

Definition awaiting (cs : option CompactState) : bool :=
  match cs with Some s => match guard s with AwaitingPostCompactRequest => true | _ => false end | None => false end.

Definition run_step (r : Run) (e : RunEvent) : option Run :=
  if over r then Some r
  else
    match e with
    | Prepare tokens result =>
        '(ran, go_on, cs) ← prepare_for_run (compact r) tokens result;
        Some (mkRun cs (negb go_on) (sent r) (attempts r + if ran : bool then 1 else 0)%nat (rearms r))
    | UsageCommitted =>
        Some (mkRun (post_compact_request_committed <$> compact r) false (sent r) (attempts r)
                (rearms r + if awaiting (compact r) then 1 else 0)%nat)
    | Request h result tokens pre_run =>
        match pre_llm_request (compact r) h with
        | (Proceed, cs) =>
            Some (mkRun cs false (sent r ++ [(initial_tokens h, effective_tokens h)]) (attempts r) (rearms r))
        | (CancelRun _, cs) | (FailRun _, cs) => Some (mkRun (end_run cs) true (sent r) (attempts r) (rearms r))
        | (YieldRun, cs) =>
            '(n, go_on, cs) ← do_compact_and_resume cs result tokens pre_run;
            Some (mkRun cs (negb go_on) (sent r) (attempts r + n)%nat (rearms r))
        end
    end.

Fixpoint run_events (r : Run) (es : list RunEvent) : option Run :=
  match es with
  | [] => Some r
  | e :: es => r ← run_step r e; run_events r es
  end.

(** [begin_logical_run] of a worker with compaction configured. *)
Definition run_start (s : CompactState) : Run := mkRun (Some (begin_logical_run s)) false [] 0 0.

(** Whether an attempt may be claimed. *)
Definition fresh (s : CompactState) : bool :=
  match guard s with Ready => negb (attempt_claimed s) | _ => false end.

(** Between two steps no attempt is under way. *)
Definition settled (s : CompactState) : Prop :=
  match guard s with
  | Ready => attempt_claimed s = cancelled_attempt s
  | _ => attempt_claimed s = true ∧ cancelled_attempt s = false
  end.

Record disciplined (s0 : CompactState) (r : Run) : Prop := {
  ds_sent : Forall (λ t, exceeds (request_threshold s0) (default 0 t.1) = false
                       ∧ exceeds (request_threshold s0) (default 0 t.2) = false) (sent r);
  ds_attempts : (attempts r <= 1 + rearms r)%nat;
  ds_running : over r = false → ∃ s, compact r = Some s ∧ settled s
    ∧ request_threshold s = request_threshold s0
    ∧ (attempts r + (if fresh s then 1 else 0) <= 1 + rearms r)%nat
}.

(** An attempt that is claimed completes, whatever its result. *)
Lemma claim_complete s t d s1 r :
  settled s → claim_attempt s t = (d, s1) →
  match d with
  | Continue => False
  | Start _ => fresh s = true ∧ ∃ s2, complete s1 r = Some s2 ∧ settled s2 ∧ fresh s2 = false
      ∧ request_threshold s2 = request_threshold s ∧ has_claimed_attempt s1 = true ∧ awaiting (Some s2) = match r with Compacted => true | _ => false end
  | Block _ => s1 = s
  end.
Proof.
  unfold settled, claim_attempt, complete, complete_automatic, fresh. intros Hs.
  destruct (guard s) eqn:Hg.
  - destruct (attempt_claimed s) eqn:Hc; simpl.
    + rewrite <-Hs. by intros [= <- <-].
    + intros [= <- <-]. simpl. rewrite <-Hs. destruct r; simpl; split; [done| |done| |done|]; eexists; by split_and!.
  - by intros [= <- <-].
  - by intros [= <- <-].
Qed.

Lemma prepare_ok s tokens result :
  settled s →
  ∃ ran go_on s', prepare_for_run (Some s) tokens result = Some (ran, go_on, Some s')
    ∧ settled s' ∧ request_threshold s' = request_threshold s
    ∧ ((if ran : bool then 1 else 0) + (if fresh s' then 1 else 0) <= if fresh s then 1 else 0)%nat.
Proof.
  intros Hs. unfold prepare_for_run, pre_run_eligible. fold (fresh s).
  destruct (exceeds (compact_threshold s) tokens) eqn:He, (fresh s) eqn:Hf; simpl.
  2-4: exists false, true, s; rewrite Hf; split_and!; [done..|lia].
  unfold try_pre_run_compact, evaluate_pre_run. rewrite He.
  destruct (claim_attempt s PreRun) as [d s1] eqn:Hc.
  pose proof (claim_complete _ _ _ _ result Hs Hc) as Hd.
  unfold claim_attempt in Hc. unfold fresh in Hf. destruct (guard s); [|done..].
  destruct (attempt_claimed s); [done|]. injection Hc as <- <-.
  destruct Hd as (_ & s2 & -> & Hs2 & Hf2 & Ht & _). simpl. eexists true, _, s2. rewrite Hf2.
  split_and!; [done..|lia].
Qed.

(** What the gate of a request decides. *)
Lemma gate_ok s h action cs :
  settled s → pre_llm_request (Some s) h = (action, cs) →
  match action with
  | Proceed => cs = Some s ∧ exceeds (request_threshold s) (default 0 (initial_tokens h)) = false
               ∧ exceeds (request_threshold s) (default 0 (effective_tokens h)) = false
  | YieldRun => ∃ s1 t t', cs = Some s1 ∧ claim_attempt s t = (Start t', s1)
  | CancelRun _ | FailRun _ => True
  end.
Proof.
  intros Hs. unfold pre_llm_request, gate_additions, request_compact_decision, evaluate_request, claim_hook_yield.
  destruct (refused h); [by intros [= <- <-]|].
  destruct (exceeds (request_threshold s) (default 0 (initial_tokens h))) eqn:He1.
  { destruct (claim_attempt s RequestThreshold) as [[|t|b] s1] eqn:Hc; simpl.
    - destruct (claim_complete _ _ _ _ Compacted Hs Hc).
    - intros [= <- <-]. by eexists _, _, _.
    - by intros [= <- <-]. }
  simpl. destruct (hook_error h), (cancellation h); try by intros [= <- <-]. destruct (should_yield h).
  { destruct (claim_attempt s RequestThreshold) as [[|t|b] s1] eqn:Hc; intros [= <- <-]; try done.
    by eexists _, _, _. }
  destruct (additions_refused h); [by intros [= <- <-]|].
  destruct (exceeds (request_threshold s) (default 0 (effective_tokens h))) eqn:He2.
  - destruct (claim_attempt s RequestThreshold) as [[|t|b] s1] eqn:Hc, (commit_error h); simpl;
      try (by intros [= <- <-]); try (by destruct (claim_complete _ _ _ _ Compacted Hs Hc)).
    intros [= <- <-]. by eexists _, _, _.
  - intros [= <- <-]. unfold send_request.
    by destruct (budget_cancel h), (additions h || budget_warning h), (commit_error h).
Qed.

Lemma compact_and_resume_ok s s1 t t' result tokens pre_run :
  settled s → claim_attempt s t = (Start t', s1) →
  fresh s = true ∧ ∃ go_on s2, do_compact_and_resume (Some s1) result tokens pre_run = Some (1%nat, go_on, Some s2)
    ∧ (go_on = true → settled s2 ∧ fresh s2 = false ∧ request_threshold s2 = request_threshold s).
Proof.
  intros Hs Hc. destruct (claim_complete _ _ _ _ result Hs Hc) as (Hf & s2 & Hcomp & Hs2 & Hf2 & Ht & Hcl & _).
  split; [done|]. unfold do_compact_and_resume. rewrite Hcl, Hcomp. simpl.
  destruct result as [| |]; [|by eexists false, _..].
  destruct (prepare_ok s2 tokens pre_run Hs2) as (ran & go_on & s3 & -> & Hs3 & Ht3 & Hle). simpl.
  rewrite Hf2 in Hle. destruct ran; [lia|]. destruct (fresh s3) eqn:Hf3; [lia|].
  destruct go_on; eexists _, _; (split; [done|]); [|done]. intros _. split_and!; [done..|congruence].
Qed.

Lemma disciplined_step s0 r e : disciplined s0 r → ∃ r', run_step r e = Some r' ∧ disciplined s0 r'.
Proof.
  intros Hd. pose proof Hd as [Hsent Hatt Hrun]. unfold run_step. destruct (over r) eqn:Ho; [by exists r|].
  destruct (Hrun eq_refl) as (s & Hs & Hset & Ht & Hn). rewrite Hs.
  destruct e as [tokens result|h result tokens pre_run|].
  - destruct (prepare_ok s tokens result Hset) as (ran & go_on & s' & -> & Hset' & Ht' & Hle). simpl.
    eexists. split; [done|]. split; simpl; [done|destruct ran; lia|].
    intros Hgo. exists s'. split_and!; [done|done|congruence|destruct ran; lia].
  - destruct (pre_llm_request (Some s) h) as [action cs] eqn:Hg. apply gate_ok in Hg; [|done].
    destruct action as [| |reason|message].
    + destruct Hg as (-> & H1 & H2). eexists. split; [done|]. split; simpl; [|lia|].
      * rewrite <-Ht. apply Forall_app. rewrite Ht. split; [done|]. apply Forall_singleton. by rewrite <-Ht.
      * intros _. by exists s.
    + destruct Hg as (s1 & t & t' & -> & Hc).
      destruct (compact_and_resume_ok s s1 t t' result tokens pre_run Hset Hc) as (Hf & go_on & s2 & -> & Hgo).
      rewrite Hf in Hn. simpl. eexists. split; [done|]. split; simpl; [done|lia|].
      intros Hng. destruct go_on; [|done]. destruct (Hgo eq_refl) as (Hs2 & Hf2 & Ht2). exists s2.
      rewrite Hf2. split_and!; [done|done|congruence|lia].
    + eexists. split; [done|]. by split; simpl; [|lia|].
    + eexists. split; [done|]. by split; simpl; [|lia|].
  - simpl. eexists. split; [done|]. split; simpl; [done|lia|]. intros _. eexists. split; [done|].
    unfold settled, fresh, post_compact_request_committed in *.
    destruct (guard s) eqn:Hg; simpl; rewrite ?Hg; split_and!; try done; try lia; by destruct Hset.
Qed.

(** C16.  Automatic compaction is kept within bounds.  Whatever a logical run goes through
    (preparations, requests with hooks that fail, cancel or yield, compactions that succeed, fail or are cancelled, usage
    that is written): no assertion fails; no request is sent whose tokens, before or after what
    hooks add, exceed the safety threshold; and there is one attempt, and one more for each
    time a request after a compaction was accounted, so compaction cannot go round in circles. *)
Theorem compaction_disciplined (s : CompactState) (es : list RunEvent) :
  ∃ r, run_events (run_start s) es = Some r
    ∧ Forall (λ t, exceeds (request_threshold s) (default 0 t.1) = false
                 ∧ exceeds (request_threshold s) (default 0 t.2) = false) (sent r)
    ∧ (attempts r <= 1 + rearms r)%nat.
Proof.
  assert (disciplined s (run_start s)) as Hd.
  { split; simpl; [constructor|lia|]. intros _. eexists. by split_and!. }
  revert Hd. generalize (run_start s). induction es as [|e es IH]; intros r Hd.
  - destruct Hd as [H1 H2 _]. by exists r.
  - destruct (disciplined_step _ _ e Hd) as (r' & Hr & Hd'). destruct (IH r' Hd') as (r2 & Hr2 & Hrest).
    exists r2. simpl. by rewrite Hr.
Qed.

(** ** Examples *)

Module Example.

#[local] Instance carrier : SessionLog.Carrier :=
  {| SessionLog.Segment := unit; SessionLog.RequestConfig := unit; SessionLog.default_config := tt;
     SessionLog.Json := string; SessionLog.Provenance := unit |}.

(** A log that refuses every second entry. *)
Definition example_writer : Writer := mkWriter Nat.even Z.of_nat m_name.

Definition example_usage (input : option Z) : Timeline.UsageEvent :=
  Timeline.mkUsageEvent input (Some 5) None None None.

(** A request that breaks off, and after a compaction one that completes. *)
Definition example_ops : list UsageOp :=
  [NoteRequest 2; RecordUsage (example_usage (Some 100)); PersistUsage;
   NoteLink "c" Compaction; NoteRequest 4; RecordUsage (example_usage (Some 40));
   RecordUsage (example_usage (Some 41)); RequestCompleted; PersistUsage; PersistUsage].

Definition awaiting_state : CompactState :=
  mkCompact (Some 80) (Some 90) 10 AwaitingPostCompactRequest true false None.

Definition example_ledger : Ledger :=
  mkLedger tracker_new [] (Some awaiting_state) [] 1.

Lemma usage_accounted_witness :
  ∃ w', apply_ops example_writer example_ledger example_ops = Some w'
    ∧ usage_history w' = omap usage_of (log w')
    ∧ compact_state w' = Some (post_compact_request_committed awaiting_state)
    ∧ log (rollback_usage true 0 0 w') = [].
Proof.
  destruct (usage_accounted example_writer example_ops example_ledger)
    as (w' & committed & pending & Hw & Ha & Hl & Hh & Hr & Hc & _ & Hord & Hback & _).
  - split; [|split; constructor]. vm_compute. congruence.
  - reflexivity.
  - vm_compute. reflexivity.
  - vm_compute. reflexivity.
  - exists w'. split; [exact Hw|]. split; [exact Hh|]. split; [|exact Hback].
    vm_compute in Hw. injection Hw as <-. reflexivity.
Defined.

(** The order matters for the rearming: the same request, written before it completes, is in the
    log and leaves compaction unarmed. *)
Lemma usage_written_early_does_not_rearm :
  match apply_ops (mkWriter (λ _, true) Z.of_nat m_name) example_ledger
      [NoteLink "c" Compaction; NoteRequest 4; RecordUsage (example_usage (Some 40)); PersistUsage;
       RequestCompleted; PersistUsage] with
  | Some w => length (usage_history w) = 1%nat ∧ compact_state w = Some awaiting_state
  | None => False
  end.
Proof. vm_compute. by split. Qed.

End Example.

End CompactControl.
