(* ===== verification/WorkerRuns.v ===== *)
(** * Runs of a Worker and its log

    Models the runs of [src/crates/worker/src/worker.rs] over the log of a Segment: input,
    notifications and resumption, the annotator that records what the engine appends, the
    commits of the interceptor ([ipc/interceptor.rs]), the end of a run with its records, the
    rollback of a turn in which nothing happened, the closing of interrupted history
    ([interrupt_prep.rs]), rewinding, and the switch to a compacted Segment.  An append may fail
    anywhere.  What the engine does in a run is any sequence of steps on the history, the turn
    counts, the usage and the Flow state.  Inputs with Feature invocations, uploaded files and
    the events of clients are left out, as are locks, which serialize the operations.

    The theorem is that the log restores the live Worker, after every operation; the examples
    at the end are the cases where it does not. *)
From Stdlib Require Import ZArith String List Lia.
From stdpp Require Import base tactics numbers list strings pretty.
From S2P Require Import Prelude Conversation ContextBudget ImageRecovery Timeline EngineCore SessionLog CompactControl.

Module WorkerRuns.
Import SessionLog.
Import ImageRecovery(HistoryEntry, mkEntry, item, annotation, rejected_result).
Import EngineCore(EngineRunExit, ExitFinished, ExitPaused, ExitYielded, ExitInterrupted).

Abbreviation Item := Conversation.Item.

(** ** Equality of items *)

#[local] Instance Role_eq_dec : EqDecision Conversation.Role.
Proof. solve_decision. Defined.
#[local] Instance ItemStatus_eq_dec : EqDecision Conversation.ItemStatus.
Proof. solve_decision. Defined.
#[local] Instance ContentPart_eq_dec : EqDecision Conversation.ContentPart.
Proof. solve_decision. Defined.
#[local] Instance Disposition_eq_dec : EqDecision Conversation.ToolResultDisposition.
Proof. solve_decision. Defined.
#[local] Instance MessageItem_eq_dec : EqDecision Conversation.MessageItem.
Proof. solve_decision. Defined.
#[local] Instance ToolCallItem_eq_dec : EqDecision Conversation.ToolCallItem.
Proof. solve_decision. Defined.
#[local] Existing Instance Conversation.Attachment_eq_dec.
#[local] Instance ToolResultItem_eq_dec : EqDecision Conversation.ToolResultItem.
Proof. solve_decision. Defined.
#[local] Instance ReasoningItem_eq_dec : EqDecision Conversation.ReasoningItem.
Proof. solve_decision. Defined.
#[local] Instance Item_eq_dec : EqDecision Item.
Proof. solve_decision. Defined.

(** ** Interrupted calls *)

(** The first open call with this id is answered. *)
Fixpoint answer (call_id : string) (pending : list (option string)) : list (option string) :=
  match pending with
  | [] => []
  | p :: rest => if bool_decide (p = Some call_id) then None :: rest else p :: answer call_id rest
  end.

Definition pending_step (pending : list (option string)) (i : Item) : list (option string) :=
  match i with
  | Conversation.ToolCall c => pending ++ [Some (Conversation.tc_call_id c)]
  | Conversation.ToolResult r => answer (Conversation.tr_call_id r) pending
  | _ => pending
  end.

Definition OUTCOME_UNKNOWN_CONTENT : string :=
  "Execution ended before completion could be confirmed. Completion and side effects are unknown.".

Definition closure (summary call_id : string) : Item :=
  Conversation.ToolResult (Conversation.mkToolResult None call_id summary (Some OUTCOME_UNKNOWN_CONTENT)
    Conversation.OutcomeUnknown true []).

Definition orphan_tool_result_closures (history : list Item) (summary : string) : list Item :=
  closure summary <$> omap id (foldl pending_step [] history).

Definition is_ai_materialized_item (i : Item) : bool :=
  match i with
  | Conversation.Message m => bool_decide (Conversation.role m = Conversation.Assistant)
  | _ => true
  end.

Definition user_message (text : string) : Item :=
  Conversation.Message (Conversation.mkMessage None Conversation.User [Conversation.Text text] None).

Definition FLOW_RUNTIME_EXTENSION_DOMAIN : string := "flow.runtime.v1".

Section worker.
Context `{Carrier} {Flow HttpError JsonError : Type}.

Abbreviation WorkerEntry := (HistoryEntry LoggedSessionHistoryMetadata).
Abbreviation Exit := (EngineRunExit (HttpError := HttpError) (JsonError := JsonError)).
Abbreviation EngineError := (EngineCore.EngineError HttpError JsonError).

(** The host: the writer of the log with its clock, the ids it makes, the provenance it gives,
    the prompts it renders (which may fail), the codec of Flow states, and the policy of
    compaction that comes with an input ([compaction_use]). *)
Record Host := mkHost {
  writer : CompactControl.Writer;
  new_id : nat → string;
  run_entry_id : nat → string;
  tool_output : Provenance;
  model_output : Provenance;
  legacy_unknown : Provenance;
  backend_instruction : Provenance;
  interrupt_tool_result_summary : option string;
  interrupt_system_note : option string;
  interrupt_prompt_provenance : Json;
  block_message : CompactControl.AutomaticCompactBlock → string;
  error_message : EngineError → string;
  flow_json : Flow → Json;
  flow_of_json : Json → option Flow;
  flow_active : Flow → bool;
  compaction_retains : Provenance → bool
}.

(** The ledger has the log, the clock and the accounting of usage; as many entries are written
    as the log has. *)
Record Worker := mkWorker {
  ledger : CompactControl.Ledger;
  history : list WorkerEntry;
  pending_committed_history : list WorkerEntry;
  pending_attachments : list SystemItem;
  user_segments : list (list Segment);
  turn_count : Z;
  active_run_turn_count : option Z;
  last_run_interrupted : bool;
  ai_activity : nat;
  flow_runtime_state : option Flow;
  next_id : nat
}.

(** Assignments to the fields. *)
Definition set_ledger (w : Worker) (x : CompactControl.Ledger) : Worker :=
  mkWorker x (history w) (pending_committed_history w) (pending_attachments w) (user_segments w)
    (turn_count w) (active_run_turn_count w) (last_run_interrupted w) (ai_activity w)
    (flow_runtime_state w) (next_id w).
Definition set_history (w : Worker) (x : list WorkerEntry) : Worker :=
  mkWorker (ledger w) x (pending_committed_history w) (pending_attachments w) (user_segments w)
    (turn_count w) (active_run_turn_count w) (last_run_interrupted w) (ai_activity w)
    (flow_runtime_state w) (next_id w).
Definition set_pending (w : Worker) (x : list WorkerEntry) : Worker :=
  mkWorker (ledger w) (history w) x (pending_attachments w) (user_segments w)
    (turn_count w) (active_run_turn_count w) (last_run_interrupted w) (ai_activity w)
    (flow_runtime_state w) (next_id w).
Definition set_attachments (w : Worker) (x : list SystemItem) : Worker :=
  mkWorker (ledger w) (history w) (pending_committed_history w) x (user_segments w)
    (turn_count w) (active_run_turn_count w) (last_run_interrupted w) (ai_activity w)
    (flow_runtime_state w) (next_id w).
Definition set_segments (w : Worker) (x : list (list Segment)) : Worker :=
  mkWorker (ledger w) (history w) (pending_committed_history w) (pending_attachments w) x
    (turn_count w) (active_run_turn_count w) (last_run_interrupted w) (ai_activity w)
    (flow_runtime_state w) (next_id w).
Definition set_run (w : Worker) (turns : Z) (active : option Z) (interrupted : bool) : Worker :=
  mkWorker (ledger w) (history w) (pending_committed_history w) (pending_attachments w)
    (user_segments w) turns active interrupted (ai_activity w) (flow_runtime_state w) (next_id w).
Definition set_activity (w : Worker) (x : nat) : Worker :=
  mkWorker (ledger w) (history w) (pending_committed_history w) (pending_attachments w)
    (user_segments w) (turn_count w) (active_run_turn_count w) (last_run_interrupted w) x
    (flow_runtime_state w) (next_id w).
Definition set_flow (w : Worker) (x : option Flow) : Worker :=
  mkWorker (ledger w) (history w) (pending_committed_history w) (pending_attachments w)
    (user_segments w) (turn_count w) (active_run_turn_count w) (last_run_interrupted w)
    (ai_activity w) x (next_id w).
Definition set_next_id (w : Worker) (x : nat) : Worker :=
  mkWorker (ledger w) (history w) (pending_committed_history w) (pending_attachments w)
    (user_segments w) (turn_count w) (active_run_turn_count w) (last_run_interrupted w)
    (ai_activity w) (flow_runtime_state w) x.

Definition set_interrupted (w : Worker) (b : bool) : Worker :=
  set_run w (turn_count w) (active_run_turn_count w) b.
Definition set_active (w : Worker) (a : option Z) : Worker :=
  set_run w (turn_count w) a (last_run_interrupted w).

Definition log (w : Worker) : list LogEntry := CompactControl.log (ledger w).
Definition usage_history (w : Worker) : list ContextBudget.UsageRecord :=
  CompactControl.usage_history (ledger w).

Context (host : Host).

Definition now (w : Worker) : Z :=
  CompactControl.now_millis (writer host) (CompactControl.clock (ledger w)).

(** ** Commits *)

(** Whether the entry is in the log now. *)
Definition commit_entry (w : Worker) (e : LogEntry) : bool * Worker :=
  let e := ensure_entry_id (run_entry_id host (CompactControl.clock (ledger w))) e in
  let '(ok, l) := CompactControl.append_entry (writer host) (ledger w) e in (ok, set_ledger w l).

(** [new_history_metadata]. *)
Definition new_history_metadata (w : Worker) (p : Provenance) : LoggedSessionHistoryMetadata * Worker :=
  (mkMetadata (new_id host (next_id w)) p, set_next_id w (S (next_id w))).

Definition push_entry (w : Worker) (e : WorkerEntry) : Worker := set_history w (history w ++ [e]).

Definition origin_of (i : Item) : Provenance :=
  match i with
  | Conversation.ToolResult _ => tool_output host
  | Conversation.Message m =>
      match Conversation.role m with Conversation.Assistant => model_output host | _ => legacy_unknown host end
  | _ => model_output host
  end.

(** [history_annotator]: the annotation of an item, recorded before it is in the history.  An
    item of the input or of the interceptor is on record already.  The first component is what
    is left of the input. *)
Definition annotate (input : list WorkerEntry) (i : Item) (w : Worker)
  : list WorkerEntry * option LoggedSessionHistoryMetadata * Worker :=
  match input with
  | entry :: input => (input, Some (annotation entry), w)
  | [] =>
      let record (w : Worker) :=
        let '(metadata, w) := new_history_metadata w (origin_of i) in
        let entry := mkLogged (to_logged i) metadata in
        let e := if is_tool_result i then AnnotatedToolResult (now w) entry
                 else AnnotatedAssistantItem (now w) entry in
        let '(ok, w) := commit_entry w e in
        ([], if ok : bool then Some metadata else None, w) in
      match pending_committed_history w with
      | entry :: rest =>
          if bool_decide (item entry = i) then ([], Some (annotation entry), set_pending w rest) else record w
      | [] => record w
      end
  end.

(** [append_history_items]; whether all of them are in the history. *)
Fixpoint append_history_items (input : list WorkerEntry) (items : list Item) (w : Worker)
  : list WorkerEntry * bool * Worker :=
  match items with
  | [] => (input, true, w)
  | i :: items =>
      match annotate input i w with
      | (input, Some metadata, w) => append_history_items input items (push_entry w (mkEntry i metadata))
      | (input, None, w) => (input, false, w)
      end
  end.

(** [commit_system_items]: each item is recorded and waits for the engine to append it. *)
Fixpoint commit_system_items (items : list SystemItem) (w : Worker) : bool * Worker :=
  match items with
  | [] => (true, w)
  | i :: items =>
      let '(metadata, w) := new_history_metadata w (backend_instruction host) in
      let '(ok, w) := commit_entry w (AnnotatedSystemItem (now w) (mkLoggedSystem i metadata) []) in
      if ok : bool
      then commit_system_items items
             (set_pending w (pending_committed_history w ++ [mkEntry (to_history_item i) metadata]))
      else (false, w)
  end.

(** What is on record but never reached the history is put there. *)
Definition materialize_committed_history (w : Worker) : Worker :=
  foldl (λ w entry,
      if existsb (λ e : WorkerEntry, String.eqb (entry_id (annotation e)) (entry_id (annotation entry)))
           (history w)
      then w else push_entry w entry)
    (set_pending w []) (pending_committed_history w).

(** ** The engine *)

(** What a run of the engine does to the worker, one step at a time. *)
Inductive EngineStep :=
| AppendItems (items : list Item)
| AppendSystemItems (items : list SystemItem)
| CorrectResult (index : nat)
| CountTurn
| ModelActivity
| NoteRequest (history_len : nat)
| RecordUsage (event : Timeline.UsageEvent)
| RequestCompleted
| PersistUsage
| CommitFlow (state : Flow)
| BlockRequest (block : CompactControl.AutomaticCompactBlock).

Definition change_tracker (w : Worker) (f : CompactControl.UsageTracker → CompactControl.UsageTracker) : Worker :=
  set_ledger w (CompactControl.set_tracker (ledger w) (f (CompactControl.tracker (ledger w)))).

Definition change_guard (w : Worker) (f : CompactControl.CompactState → CompactControl.CompactState) : Worker :=
  let l := ledger w in
  set_ledger w (CompactControl.mkLedger (CompactControl.tracker l) (CompactControl.usage_history l)
    (f <$> CompactControl.compact_state l) (CompactControl.log l) (CompactControl.clock l)).

(** A step, and whether the run goes on. *)
Definition engine_step (s : EngineStep) (w : Worker) : option (bool * Worker) :=
  match s with
  | AppendItems items => let '(_, _, w) := append_history_items [] items w in Some (true, w)
  | AppendSystemItems items =>
      let '(ok, w) := commit_system_items items w in
      if ok : bool then
        let '(_, _, w) := append_history_items [] (to_history_item <$> items) w in Some (true, w)
      else Some (false, w)
  | CorrectResult index =>
      match history w !! index with
      | Some original =>
          if is_tool_result (item original) then
            let replacement := rejected_result (item original) in
            let '(ok, w) := commit_entry w (correction_record (now w) original replacement) in
            if ok : bool
            then Some (true, set_activity (set_history w (<[index := mkEntry replacement (annotation original)]> (history w)))
                               (S (ai_activity w)))
            else Some (false, w)
          else Some (true, w)
      | None => Some (true, w)
      end
  | CountTurn =>
      Some (true, set_run w (turn_count w + 1) (Some (default 0 (active_run_turn_count w) + 1)) (last_run_interrupted w))
  | ModelActivity => Some (true, set_activity w (S (ai_activity w)))
  | NoteRequest len => Some (true, change_tracker w (λ t, CompactControl.note_request t len))
  | RecordUsage event => Some (true, change_tracker w (λ t, CompactControl.record_usage t event))
  | RequestCompleted => Some (true, change_tracker w CompactControl.request_completed)
  | PersistUsage =>
      '(_, l) ← CompactControl.persist_pending_usage (writer host) (ledger w); Some (true, set_ledger w l)
  | CommitFlow state =>
      let '(ok, w) := commit_entry w (Extension (now w) FLOW_RUNTIME_EXTENSION_DOMAIN (flow_json host state)) in
      Some (true, if ok : bool then set_flow w (Some state) else w)
  | BlockRequest block => Some (true, change_guard w (λ s, CompactControl.record_request_block s block))
  end.

Fixpoint engine_steps (steps : list EngineStep) (w : Worker) : option (bool * Worker) :=
  match steps with
  | [] => Some (true, w)
  | s :: steps => '(go_on, w) ← engine_step s w; if go_on : bool then engine_steps steps w else Some (false, w)
  end.

(** A run of the engine: its steps and the exit it comes to, unless a commit of the interceptor
    fails. *)
Record EngineRun := mkEngineRun { steps : list EngineStep; exit : Exit }.

Definition persistence_failed : Exit :=
  EngineCore.run_exit (Err (EngineCore.fail_with (EngineCore.Aborted "session persistence failed"))).

(** [finalize_run_exit] and [finish_logical_run]: only a run that may go on keeps its count. *)
Definition finish_logical_run (e : Exit) (w : Worker) : Worker :=
  match e with ExitPaused | ExitYielded => w | _ => set_active w None end.

Definition run_turn_loop (r : EngineRun) (w : Worker) : option (Exit * Worker) :=
  '(go_on, w) ← engine_steps (steps r) w;
  Some (if go_on : bool then exit r else persistence_failed, w).

(** [on_prompt_submit]: what is to be appended behind the input, unless it is refused. *)
Definition on_prompt_submit (refused : bool) (w : Worker) : option (list Item) * Worker :=
  if refused then (None, w)
  else
    let extras := pending_attachments w in
    let w := set_attachments w [] in
    let prepared := item <$> pending_committed_history w in
    match extras with
    | [] => (Some prepared, w)
    | _ =>
        let '(ok, w) := commit_system_items extras w in
        (if ok : bool then Some (prepared ++ (to_history_item <$> extras)) else None, w)
    end.

(** [run_with_annotation]: whether the input was refused, the exit, and the worker. *)
Definition run_with_annotation (refused : bool) (input : list WorkerEntry) (text : string) (r : EngineRun) (w : Worker)
  : option (bool * Exit * Worker) :=
  let w := set_active w (Some 0) in
  match on_prompt_submit refused w with
  | (None, w) =>
      let e : Exit := EngineCore.run_exit (Err (EngineCore.fail_with (EngineCore.Aborted "refused"))) in
      Some (true, e, finish_logical_run e w)
  | (Some extras, w) =>
      let '(input, _, w) := append_history_items input [user_message text] w in
      let '(_, _, w) := append_history_items input extras w in
      '(e, w) ← run_turn_loop r w; Some (false, e, finish_logical_run e w)
  end.

(** [resume_with_annotation], which makes sure that there is a count. *)
Definition resume_with_annotation (r : EngineRun) (w : Worker) : option (Exit * Worker) :=
  let w := set_active w (Some (default 0 (active_run_turn_count w))) in
  '(e, w) ← run_turn_loop r w; Some (e, finish_logical_run e w).

(** ** Closing interrupted history *)

Fixpoint commit_closures (closures : list Item) (w : Worker) : bool * Worker :=
  match closures with
  | [] => (true, w)
  | i :: closures =>
      let '(metadata, w) := new_history_metadata w (tool_output host) in
      let entry := mkEntry i metadata in
      let '(ok, w) := commit_entry w (AnnotatedToolResult (now w) (to_logged_history_entry entry)) in
      if ok : bool then commit_closures closures (push_entry w entry) else (false, w)
  end.

Definition terminalize_orphan_tool_calls (w : Worker) : bool * Worker :=
  match interrupt_tool_result_summary host with
  | None => (false, w)
  | Some summary => commit_closures (orphan_tool_result_closures (item <$> history w) summary) w
  end.

Definition apply_interrupt_prep (w : Worker) : bool * Worker :=
  let '(ok, w) := terminalize_orphan_tool_calls w in
  if negb ok then (false, w)
  else
    match interrupt_system_note host with
    | None => (false, w)
    | Some note =>
        let '(metadata, w) := new_history_metadata w (backend_instruction host) in
        let '(ok, w) := commit_entry w (AnnotatedSystemItem (now w)
          (mkLoggedSystem (Interrupt note (Some (interrupt_prompt_provenance host))) metadata) []) in
        (ok, if ok : bool then push_entry w (mkEntry (system_message note) metadata) else w)
    end.

Definition prepare_interrupted_history_for_fresh_run (w : Worker) : bool * Worker :=
  if last_run_interrupted w then
    let '(ok, w) := apply_interrupt_prep w in
    (ok, if ok : bool then set_run w (turn_count w) None false else w)
  else (true, w).

Definition cancel_paused_turn (w : Worker) : bool * Worker :=
  if negb (last_run_interrupted w) then (true, w)
  else
    let '(ok, w) := apply_interrupt_prep w in
    if ok : bool
    then let w := set_interrupted w false in commit_entry w (PausedTurnAbandoned (now w) None)
    else (false, w).

(** ** The end of a run *)

Inductive WorkerRunResult :=
| Finished | Paused | LimitReached | Cancelled | Interrupted | RolledBack
(** The run waits for a compaction, after which it is resumed. *)
| Yielding.

(** The records of a turn.  [metrics] are those that were buffered. *)
Definition persist_turn (e : Exit) (metrics : list CompactControl.Metric)
    (compaction_failure : option string) (w : Worker) : option (bool * Worker) :=
  let '(ok, w) := commit_entry w (TurnEnd (now w) (turn_count w)) in
  if negb ok then Some (false, w)
  else
    let w := set_ledger w (CompactControl.append_metrics (writer host) (ledger w) metrics) in
    '(r, l) ← CompactControl.persist_pending_usage (writer host) (ledger w);
    let w := set_ledger w l in
    match r with
    | None => Some (false, w)
    | Some _ =>
        let ts := now w in
        match compaction_failure, e with
        | Some message, (ExitFinished | ExitPaused | ExitInterrupted _) =>
            Some (commit_entry w (RunErrored ts None false message (Some FailureCompaction)))
        | _, ExitFinished =>
            Some (commit_entry w (RunCompleted None ts false SessionLog.Finished (active_run_turn_count w)))
        | _, ExitPaused =>
            Some (commit_entry w (RunCompleted None ts true SessionLog.Paused (active_run_turn_count w)))
        | _, ExitYielded =>
            active ← active_run_turn_count w;
            Some (commit_entry w (RunYielded ts None YieldCompaction active))
        | _, ExitInterrupted EngineCore.RunLimitReached =>
            Some (commit_entry w (RunCompleted None ts false SessionLog.LimitReached (active_run_turn_count w)))
        | _, ExitInterrupted EngineCore.RunCancelled => Some (commit_entry w (RunCancelled ts None))
        | _, ExitInterrupted EngineCore.RunContextWindowExceeded =>
            Some (commit_entry w (RunErrored ts None true "model context window reached" (Some FailureEngine)))
        | _, ExitInterrupted (EngineCore.Unexpected error) =>
            Some (commit_entry w (RunErrored ts None true
                    ("unexpected engine failure: " +:+ error_message host error) (Some FailureEngine)))
        end
    end.

Definition persist_compaction_run_failure (message : string) (w : Worker) : bool * Worker :=
  let '(ok, w) := commit_entry w (RunErrored (now w) None false message (Some FailureCompaction)) in
  (ok, if ok : bool then set_run w (turn_count w) None false else w).

(** The block of a request that the guard of compaction recorded. *)
Definition take_request_block (w : Worker) : option CompactControl.AutomaticCompactBlock * Worker :=
  (s ← CompactControl.compact_state (ledger w); (CompactControl.take_pending_request_block s).1,
   change_guard w (λ s, (CompactControl.take_pending_request_block s).2)).

(** [None] is an error of the run. *)
Definition handle_worker_result (e : Exit) (metrics : list CompactControl.Metric) (w : Worker)
  : option (option WorkerRunResult * Worker) :=
  let w := materialize_committed_history w in
  let '(ok, w) := match e with
                  | ExitInterrupted _ => terminalize_orphan_tool_calls w
                  | _ => (true, w)
                  end in
  if negb ok then Some (None, w)
  else
    let '(block, w) := take_request_block w in
    let message := (λ b, "mid-run compaction could not continue: " +:+ block_message host b) <$> block in
    '(ok, w) ← persist_turn e metrics message w;
    if negb ok then Some (None, w)
    else
      match message, e with
      | Some message, ExitYielded =>
          let '(_, w) := persist_compaction_run_failure message w in
          Some (None, change_guard w CompactControl.finish_logical_run)
      | Some _, _ => Some (None, change_guard w CompactControl.finish_logical_run)
      | None, ExitYielded => Some (Some Yielding, set_interrupted w true)
      | None, ExitPaused => Some (Some Paused, set_interrupted w true)
      | None, _ =>
          let w := change_guard w CompactControl.finish_logical_run in
          match e with
          | ExitInterrupted EngineCore.RunLimitReached => Some (Some LimitReached, set_interrupted w false)
          | ExitInterrupted EngineCore.RunCancelled => Some (Some Cancelled, set_interrupted w false)
          | ExitInterrupted _ => Some (Some Interrupted, set_interrupted w true)
          | _ => Some (Some Finished, set_interrupted w false)
          end
      end.

(** ** The rollback of an empty turn *)

Record EmptyTurnRollbackSnapshot := mkSnapshot {
  history_len : nat;
  user_segments_len : nat;
  entries_written : nat;
  snapshot_attachments : list SystemItem;
  usage_history_len : nat;
  ai_activity_count : nat;
  snapshot_interrupted : bool;
  snapshot_active : option Z;
  snapshot_flow : option Flow
}.

Definition capture_empty_turn_rollback_snapshot (w : Worker) : EmptyTurnRollbackSnapshot :=
  mkSnapshot (length (history w)) (length (user_segments w)) (length (log w)) (pending_attachments w)
    (length (usage_history w)) (ai_activity w) (last_run_interrupted w) (active_run_turn_count w)
    (flow_runtime_state w).

Definition should_rollback_empty_turn (e : Exit) (s : EmptyTurnRollbackSnapshot) (w : Worker) : bool :=
  match e with ExitPaused | ExitInterrupted EngineCore.RunCancelled => true | _ => false end
  && (ai_activity w =? ai_activity_count s)%nat
  && negb (existsb (λ e : WorkerEntry, is_ai_materialized_item (item e)) (drop (history_len s) (history w))).

(** What is in memory goes back first; the log is cut last, which may fail. *)
Definition rollback_empty_turn (truncates : bool) (s : EmptyTurnRollbackSnapshot) (w : Worker) : bool * Worker :=
  let w := set_history w (take (history_len s) (history w)) in
  let w := set_run w (turn_count w) (snapshot_active s) (snapshot_interrupted s) in
  let w := set_flow w (snapshot_flow s) in
  let w := set_segments w (take (user_segments_len s) (user_segments w)) in
  let w := set_attachments w (snapshot_attachments s) in
  (truncates,
   set_ledger w (CompactControl.rollback_usage truncates (usage_history_len s) (entries_written s) (ledger w))).

(** ** Compaction *)

(** Entries with new ids, as [derived_entry] makes them. *)
Fixpoint new_entries (l : list (Item * Provenance)) (w : Worker) : list WorkerEntry * Worker :=
  match l with
  | [] => ([], w)
  | (i, p) :: l =>
      let '(metadata, w) := new_history_metadata w p in
      let '(rest, w) := new_entries l w in (mkEntry i metadata :: rest, w)
  end.

(** What a compaction found: the items it puts before and behind those it retains, which it
    may project, the entry of the new Segment, and its metrics.  [activates] is that the Segment
    is created and made the current one. *)
Record Compaction := mkCompaction {
  activates : bool;
  front_items : list (Item * Provenance);
  retain_from : nat;
  project_item : Item → Item;
  back_items : list (Item * Provenance);
  session : string;
  prompt : option string;
  config : RequestConfig;
  origin : SegmentOrigin;
  protected_inputs : Json;
  pending_activations : Json;
  start_metrics : list CompactControl.Metric;
  end_metrics : list CompactControl.Metric;
  correlation : string
}.

Definition SESSION_PENDING_ACTIVATIONS_EXTENSION_DOMAIN : string := "worker.pending_activations.v1".
Definition PROTECTED_INPUTS_DOMAIN : string := "worker.protected_inputs.v1".

Definition active_run_checkpoint_entry (ts : Z) (active : option Z) (total : Z) : list LogEntry :=
  match active with Some active => [ActiveRunCheckpoint ts active total] | None => [] end.

Definition record_metrics (w : Worker) (metrics : list CompactControl.Metric) : Worker :=
  set_ledger w (CompactControl.append_metrics (writer host) (ledger w) metrics).

(** The entries of the new Segment. *)
Definition initial_entries (c : Compaction) (compacted : list WorkerEntry)
    (retained_user_segments : list (list Segment)) (w : Worker) : list LogEntry :=
  let ts := now w in
  [AnnotatedSegmentStart ts (session c) (prompt c) (config c) (to_logged_history_entry <$> compacted) None
     (Some (origin c)); InputSegmentsCheckpoint ts retained_user_segments]
  ++ active_run_checkpoint_entry ts (active_run_turn_count w) (turn_count w)
  ++ [Extension ts PROTECTED_INPUTS_DOMAIN (protected_inputs c);
      Extension ts SESSION_PENDING_ACTIVATIONS_EXTENSION_DOMAIN (pending_activations c)]
  ++ match flow_runtime_state w with
     | Some state => [Extension ts FLOW_RUNTIME_EXTENSION_DOMAIN (flow_json host state)]
     | None => []
     end.

(** The end of [compact_impl], where the new Segment is made the current one. *)
Definition compact_impl (c : Compaction) (w : Worker) : Worker :=
  let retained := (λ e : WorkerEntry, mkEntry (project_item c (item e)) (annotation e))
                    <$> List.filter (λ e : WorkerEntry, compaction_retains host (provenance (annotation e)))
                          (drop (retain_from c) (history w)) in
  let '(front, w) := new_entries (front_items c) w in
  let '(back, w) := new_entries (back_items c) w in
  let compacted := front ++ retained ++ back in
  let retained_user_msgs := length (List.filter (λ e : WorkerEntry, is_user_message (item e)) retained) in
  let segments := drop (length (user_segments w) - retained_user_msgs) (user_segments w) in
  let l := ledger w in
  let w := set_ledger w (CompactControl.mkLedger (CompactControl.tracker l) [] (CompactControl.compact_state l)
                           (initial_entries c compacted segments w) (CompactControl.clock l)) in
  set_history (set_segments w segments) compacted.

(** [compact_with_cancel]. *)
Definition compact (c : Compaction) (w : Worker) : bool * Worker :=
  if negb (CompactControl.pending_record_count (CompactControl.tracker (ledger w)) =? 0)%nat then (false, w)
  else
    let w := record_metrics w (start_metrics c) in
    if negb (activates c) then (false, record_metrics w (end_metrics c))
    else
      let w := record_metrics (compact_impl c w) (end_metrics c) in
      (true, change_tracker w (λ t, CompactControl.note_post_request t (correlation c) CompactControl.Compaction)).

(** ** Rewinding *)

Definition is_logged_user_message (e : LoggedHistoryEntry) : bool :=
  match logged_item e with LoggedMessage LoggedUser _ => true | _ => false end.

(** Whether an entry is the input with this id. *)
Definition is_rewind_input (id : string) (e : LogEntry) : bool :=
  match e with
  | AnnotatedUserInput _ _ _ h =>
      match List.find is_logged_user_message h with
      | Some user => String.eqb (entry_id (metadata user)) id
      | None => false
      end
  | _ => false
  end.

Definition resolve_rewind_input (entries : list LogEntry) (id : string) : option nat :=
  position (is_rewind_input id) entries.

Definition rewind_truncate_entries (entries : list LogEntry) (index : nat) : nat :=
  match index with
  | S before => match entries !! before with Some (Invoke _ _) => before | _ => index end
  | O => index
  end.

(** [rewind_to]: the checkpoint of activations is written when there is any.  [None] is that
    replay panics. *)
Definition rewind_to (id : string) (activations : option Json) (protected : Json) (creates : bool) (w : Worker)
  : option (bool * Worker) :=
  match resolve_rewind_input (log w) id with
  | None => Some (false, w)
  | Some index =>
      let retained := take (rewind_truncate_entries (log w) index) (log w) in
      state ← collect_state retained;
      if negb creates then Some (false, w)
      else
        let ts := now w in
        let replacement := retained
          ++ match activations with
             | Some payload => [Extension ts SESSION_PENDING_ACTIVATIONS_EXTENSION_DOMAIN payload]
             | None => []
             end
          ++ [Extension ts PROTECTED_INPUTS_DOMAIN protected] in
        let l := ledger w in
        let with_log (usage : list ContextBudget.UsageRecord) :=
          set_ledger w (CompactControl.mkLedger (CompactControl.tracker l) usage (CompactControl.compact_state l)
                          replacement (CompactControl.clock l)) in
        match restore_history_entries retained with
        | Err _ => Some (false, with_log (usage_history w))
        | Ok h =>
            let w := set_history (with_log (st_usage_history state)) h in
            let w := set_run w (st_turn_count state) (st_active_run_turn_count state) (st_last_run_interrupted state) in
            Some (true, set_attachments (set_segments w (st_user_segments state)) [])
        end
  end.

(** ** Operations of the controller *)

(** What [prepare_for_run] does: a compaction before the run, and whether the run may start. *)
Record Preparation := mkPreparation { pre_run : option Compaction; prepared : bool }.

Definition prepare_for_run (p : Preparation) (w : Worker) : bool * Worker :=
  (prepared p, match pre_run p with Some c => (compact c w).2 | None => w end).

Record RunInput := mkInput {
  segments : list Segment;
  input_extensions : list SessionExtension;
  input_flow : option Flow;
  projection : list (string * Provenance);
  last_text : string;
  last_provenance : Provenance;
  file_attachments : list SystemItem;
  prompt_refused : bool;
  preparation : Preparation;
  engine_run : EngineRun;
  buffered_metrics : list CompactControl.Metric;
  truncates : bool
}.

(** The result, [None] for an error; whether the input was refused before it reached the
    history; whether the log could not be cut. *)
Record Outcome := mkOutcome { result_of : option WorkerRunResult; refused : bool; uncut : bool }.

Definition failed : Outcome := mkOutcome None false false.

Definition ends (r : option (option WorkerRunResult * Worker)) (refused : bool) : option (Outcome * Worker) :=
  '(r, w) ← r; Some (mkOutcome r refused false, w).

(** [run_with_input_extensions_and_commit_hook], after the input is prepared. *)
Definition run_prepared (i : RunInput) (projected : list WorkerEntry) (w : Worker) : option (Outcome * Worker) :=
  let snapshot := capture_empty_turn_rollback_snapshot w in
  let '(ok, w) := commit_entry w (Invoke (now w) UserSend) in
  if negb ok then Some (failed, w)
  else
    let extensions := input_extensions i
      ++ match input_flow i with
         | Some state => [mkExtension FLOW_RUNTIME_EXTENSION_DOMAIN (flow_json host state)]
         | None => []
         end in
    let '(ok, w) := commit_entry w (AnnotatedUserInput (now w) (segments i) extensions
                                      (to_logged_history_entry <$> projected)) in
    if negb ok then Some (failed, w)
    else
      let w := match input_flow i with Some state => set_flow w (Some state) | None => w end in
      let w := set_segments w (user_segments w ++ [segments i]) in
      let w := match file_attachments i with [] => w | l => set_attachments w l end in
      let '(input, _, w) := append_history_items projected (user_message ∘ fst <$> projection i) w in
      '(refused, e, w) ← run_with_annotation (prompt_refused i) input (last_text i) (engine_run i) w;
      if should_rollback_empty_turn e snapshot w then
        let '(cut, w) := rollback_empty_turn (truncates i) snapshot w in
        Some (mkOutcome (if cut : bool then Some RolledBack else None) refused (negb cut), w)
      else ends (handle_worker_result e (buffered_metrics i) w) refused.

Definition run (i : RunInput) (w : Worker) : option (Outcome * Worker) :=
  if match input_flow i, flow_runtime_state w with
     | Some _, Some live => flow_active host live
     | _, _ => false
     end then Some (failed, w)
  else
    let '(projected, w) :=
      new_entries (((λ x, (user_message x.1, x.2)) <$> projection i) ++ [(user_message (last_text i), last_provenance i)]) w in
    let '(ok, w) := prepare_interrupted_history_for_fresh_run w in
    if negb ok then Some (failed, w)
    else
      let w := change_guard w CompactControl.begin_logical_run in
      let '(ok, w) := prepare_for_run (preparation i) w in
      if negb ok then Some (failed, w) else run_prepared i projected w.

Definition run_for_notification (kind : InvokeKind) (p : Preparation) (r : EngineRun)
    (metrics : list CompactControl.Metric) (w : Worker) : option (Outcome * Worker) :=
  let '(ok, w) := prepare_interrupted_history_for_fresh_run w in
  if negb ok then Some (failed, w)
  else
    let w := change_guard w CompactControl.begin_logical_run in
    let '(ok, w) := prepare_for_run p w in
    if negb ok then Some (failed, w)
    else
      let '(ok, w) := commit_entry w (Invoke (now w) kind) in
      if negb ok then Some (failed, w)
      else '(e, w) ← resume_with_annotation r w; ends (handle_worker_result e metrics w) false.

(** [resume_prepared], which panics without a count of turns. *)
Definition resume_prepared (source : RunResumeSource) (r : EngineRun) (metrics : list CompactControl.Metric)
    (w : Worker) : option (Outcome * Worker) :=
  active ← active_run_turn_count w;
  let '(ok, w) := commit_entry w (RunResumed (now w) None source active) in
  if negb ok then Some (failed, w)
  else '(e, w) ← resume_with_annotation r w; ends (handle_worker_result e metrics w) false.

Definition resume (source : RunResumeSource) (p : Preparation) (r : EngineRun)
    (metrics : list CompactControl.Metric) (w : Worker) : option (Outcome * Worker) :=
  let '(ok, w) := prepare_for_run p w in
  if negb ok then Some (failed, w) else resume_prepared source r metrics w.

(** A yielded run is resumed after [CompactSegment], or ended by [EndYielded]. *)
Inductive Op :=
| Run (i : RunInput)
| RunForNotification (kind : InvokeKind) (p : Preparation) (r : EngineRun) (metrics : list CompactControl.Metric)
| Resume (source : RunResumeSource) (p : Preparation) (r : EngineRun) (metrics : list CompactControl.Metric)
| CancelPausedTurn
| CompactSegment (c : Compaction)
| EndYielded (message : string)
| RewindTo (id : string) (activations : option Json) (protected : Json) (creates : bool).

Definition plain (w : bool * Worker) : Outcome * Worker := (failed, w.2).

Definition apply_op (op : Op) (w : Worker) : option (Outcome * Worker) :=
  match op with
  | Run i => run i w
  | RunForNotification kind p r metrics => run_for_notification kind p r metrics w
  | Resume source p r metrics => resume source p r metrics w
  | CancelPausedTurn => Some (plain (cancel_paused_turn w))
  | CompactSegment c => Some (plain (compact c w))
  | EndYielded message => Some (plain (persist_compaction_run_failure message w))
  | RewindTo id activations protected creates => plain <$> rewind_to id activations protected creates w
  end.

Fixpoint apply_ops (ops : list Op) (w : Worker) : option (list Outcome * Worker) :=
  match ops with
  | [] => Some ([], w)
  | op :: ops => '(o, w) ← apply_op op w; '(os, w) ← apply_ops ops w; Some (o :: os, w)
  end.

(** ** Restoring *)

(** [restored_flow_runtime_state]: the last record of the domain; [None] is that it does not
    decode. *)
Definition restored_flow_runtime_state (extensions : list (string * Json)) : option (option Flow) :=
  match List.find (λ x, String.eqb x.1 FLOW_RUNTIME_EXTENSION_DOMAIN) (rev extensions) with
  | None => Some None
  | Some (_, payload) => Some <$> flow_of_json host payload
  end.

(** ** Lemmas: what an entry does to a replay *)









(** *** Histories on record *)













(** *** The invariant *)

Context (new_id_inj : ∀ j k, new_id host j = new_id host k → j = k).
Context (flow_codec : ∀ f, flow_of_json host (flow_json host f) = Some f).




#[local] Opaque commit_entry.






(** *** Appends *)











(** *** Closing calls *)








(** *** Metrics and usage *)











(** *** Steps of the engine *)













(** *** Rolling back *)

















(** *** The end of a run *)























(** *** Between runs *)














(** *** Compaction *)











(** *** Rewinding *)




(** *** Runs *)





















(** *** Operations return *)














(** ** Properties *)



End worker.

(** ** Examples *)

Module Example.

#[local] Instance carrier : Carrier :=
  {| Segment := string; RequestConfig := unit; default_config := tt; Json := string; Provenance := bool |}.

(** One entry is refused. *)
Definition example_writer : CompactControl.Writer :=
  CompactControl.mkWriter (λ n, negb (n =? 25)%nat) Z.of_nat CompactControl.m_name.

(** A Flow state is a string, which is its own encoding. *)
Definition example_host : Host (Flow := string) (HttpError := unit) (JsonError := unit) :=
  mkHost example_writer (λ n, "e" +:+ pretty n) (λ n, "r" +:+ pretty n) true true true true
    (Some "interrupted") (Some "the run was interrupted") "prompt" (λ _, "blocked") (λ _, "failed")
    id Some (λ s, negb (String.eqb s "done")) id.


Definition example_worker (cs : option CompactControl.CompactState) : Worker (Flow := string) :=
  mkWorker (CompactControl.mkLedger CompactControl.tracker_new [] cs
      [AnnotatedSegmentStart 0 "session" None tt [] None None] 1)
    [] [] [] [] 0 None false 0 None 0.

Definition no_preparation : Preparation := mkPreparation None true.

Definition example_call (call_id : string) : Item :=
  Conversation.ToolCall (Conversation.mkToolCall None call_id "Read" "{}" None None None).

Definition example_answer : Item :=
  Conversation.Message (Conversation.mkMessage (Some "m") Conversation.Assistant [Conversation.Text "hello"] None).

Definition example_input (flow : option string) (refused : bool) (r : EngineRun) : RunInput (HttpError := unit) (JsonError := unit) :=
  mkInput ["text"] [mkExtension "feature" "x"] flow [("instructions", false)] "hi" true
    [FileAttachment "a.txt" "content"] refused no_preparation r [] true.

(** A run that is paused with two open calls. *)
Definition paused_run : EngineRun (Flow := string) (HttpError := unit) (JsonError := unit) :=
  mkEngineRun [CountTurn; NoteRequest 3; RecordUsage (CompactControl.Example.example_usage (Some 100));
    RequestCompleted; PersistUsage; ModelActivity; CommitFlow "second";
    AppendItems [example_answer; example_call "a"; example_call "b"];
    AppendItems [closure "result" "a"]] ExitPaused.




(** The log does not restore the worker after a hook has refused an input: the input is on
    record, but not in the history. *)
Example refused_input_comes_back :
  ∃ o w', run example_host (example_input None true (mkEngineRun [] ExitFinished)) (example_worker None) = Some (o, w')
    ∧ result_of o = Some Interrupted ∧ item <$> history w' = [user_message "instructions"]
    ∧ ∃ h, restore_history_entries (log w') = Ok h
        ∧ item <$> h = [user_message "instructions"; user_message "hi"].
Proof.
  eexists _, _. split; [vm_compute; reflexivity|]. split; [reflexivity|]. split; [reflexivity|].
  eexists. split; vm_compute; reflexivity.
Qed.

(** After a pause, a fresh run that is taken back leaves a worker that is not interrupted, and a
    log that says it is. *)
Example rolled_back_after_pause :
  ∃ outs w' s,
    apply_ops example_host
      [Run (example_input None false paused_run); Run (example_input None false (mkEngineRun [] ExitPaused))]
      (example_worker None) = Some (outs, w')
    ∧ result_of <$> outs = [Some Paused; Some RolledBack] ∧ collect_state (log w') = Some s
    ∧ last_run_interrupted w' = false ∧ st_last_run_interrupted s = true
    ∧ active_run_turn_count w' = None ∧ st_active_run_turn_count s = Some 1.
Proof.
  eexists _, _, _. split; [vm_compute; reflexivity|]. split; [reflexivity|].
  split; [vm_compute; reflexivity|]. by vm_compute.
Qed.

(** Rewinding to before the input that started a Flow leaves the Flow in memory, where it keeps a
    new one from being started. *)
Example rewound_flow_stays :
  ∃ outs w' s,
    apply_ops example_host
      [Run (example_input (Some "first") false (mkEngineRun [CountTurn; AppendItems [example_answer]] ExitFinished));
       RewindTo "e0" None "protected" true;
       Run (example_input (Some "other") false (mkEngineRun [CountTurn; AppendItems [example_answer]] ExitFinished))]
      (example_worker None) = Some (outs, w')
    ∧ result_of <$> outs = [Some Finished; None; None] ∧ history w' = [] ∧ collect_state (log w') = Some s
    ∧ flow_runtime_state w' = Some "first"
    ∧ restored_flow_runtime_state example_host (st_extensions s) = Some None.
Proof.
  eexists _, _, _. split; [vm_compute; reflexivity|]. split; [reflexivity|]. split; [reflexivity|].
  split; [vm_compute; reflexivity|]. by vm_compute.
Qed.

(** A resumed run that the guard of compaction blocks has ended for the log, but counts as
    interrupted in memory. *)
Example blocked_resume_stays_interrupted :
  ∃ outs w' s,
    apply_ops example_host
      [Run (example_input None false paused_run);
       Resume ResumePause no_preparation
         (mkEngineRun [BlockRequest CompactControl.Thrash] (ExitInterrupted EngineCore.RunCancelled)) []]
      (example_worker (Some (CompactControl.compact_new (Some 80) (Some 90) 10))) = Some (outs, w')
    ∧ result_of <$> outs = [Some Paused; None] ∧ collect_state (log w') = Some s
    ∧ last_run_interrupted w' = true ∧ st_last_run_interrupted s = false.
Proof.
  eexists _, _, _. split; [vm_compute; reflexivity|]. split; [reflexivity|].
  split; [vm_compute; reflexivity|]. by vm_compute.
Qed.

End Example.

End WorkerRuns.
