(* ===== verification/InFlight.v ===== *)
(** * Output in flight

    Models [src/crates/worker/src/in_flight.rs]: the blocks a worker is streaming, the commands
    its tools run with the last of their output, and the positions of alerts among them, from
    which a client that reconnects gets its snapshot.  Locks are left out: every operation
    changes the state under the one lock, which all but [publish_command_event] also hold while
    they send their event, so the events of commands may be sent in another order than they
    were applied; [sent] has the order in which they were applied.  A [Weak] reference to an alert's position is a
    location of a heap, dead once its alert is dropped.  The theorems: the output kept of a
    command is the bounded end of what it wrote, and committing a response clears its blocks,
    unless it has several texts. *)
From Stdlib Require Import ZArith String Ascii List Lia.
From stdpp Require Import base tactics numbers list strings gmap sets.
From S2P Require Import Prelude Conversation ImageRecovery Tool Timeline SessionLog EngineCore ToolExecution Streaming.

Module InFlight.

(** ** Commands *)

Inductive CommandStream := Stdout | Stderr.

Inductive CommandStatus := Running | Completed | Failed | TimedOut | Cancelled.

Record CommandStreamSlice := mkSlice {
  start_offset : Z;
  end_offset : Z;
  content : string;
  truncated : bool
}.

Definition slice_default : CommandStreamSlice := mkSlice 0 0 EmptyString false.

Record CommandSnapshot := mkCommand {
  command_id : string;
  tool_call_id : option string;
  status : CommandStatus;
  started_at_ms : Z;
  observed_at_ms : Z;
  last_output_at_ms : option Z;
  stdout : CommandStreamSlice;
  stderr : CommandStreamSlice;
  exit_code : option Z
}.

Inductive CommandEvent :=
| Started (command_id : string) (tool_call_id : option string) (observed_at_ms : Z)
| Output (command_id : string) (stream : CommandStream) (start_offset end_offset : Z)
    (content : string) (observed_at_ms : Z)
| Terminal (command_id : string) (status : CommandStatus) (exit_code : option Z)
    (stdout_end_offset stderr_end_offset observed_at_ms : Z).

Definition COMMAND_SNAPSHOT_STREAM_BYTES : nat := Z.to_nat (32 * 1024).

(** [while cut < s.len() && !s.is_char_boundary(cut) { cut += 1 }]. *)
Fixpoint ceil_boundary (fuel : nat) (s : string) (cut : nat) : nat :=
  match fuel with
  | O => cut
  | S fuel =>
      if (cut <? String.length s)%nat && negb (is_char_boundary s cut)
      then ceil_boundary fuel s (S cut) else cut
  end.

(** [content.drain(..cut)]. *)
Definition drain_front (cut : nat) (s : string) : string :=
  String.substring cut (String.length s - cut) s.

(** A slice that may be too long is cut to the limit. *)
Definition cut_slice (limit : nat) (t : CommandStreamSlice) : CommandStreamSlice :=
  let len := String.length (content t) in
  if (limit <? len)%nat then
    let kept := drain_front (ceil_boundary len (content t) (len - limit)) (content t) in
    mkSlice (saturating_sub_u64 (end_offset t) (Z.of_nat (String.length kept))) (end_offset t) kept true
  else t.

(** The output of one stream is taken in. *)
Definition take_output (limit : nat) (t : CommandStreamSlice) (start end_ : Z) (text : string)
  : CommandStreamSlice :=
  let t := if end_offset t =? start then t
           else mkSlice start (end_offset t) EmptyString (0 <? start) in
  cut_slice limit (mkSlice (start_offset t) end_ (content t +:+ text) (truncated t)).

(** ** Blocks *)

Inductive InFlightToolCallState := Pending | StreamingArgs | Done.

(** The positions that watch a text are locations of the heap. *)
Inductive TrackedBlock :=
| TextBlock (block_id : Z) (text : string) (finished : bool) (alert_positions : list nat)
| ThinkingBlock (block_id : Z) (text : string) (finished : bool)
| ToolCallBlock (block_id : Z) (id name args : string) (state : InFlightToolCallState).

Inductive AlertPosition :=
| AtStart | AfterEntry (entry_id : string) | AfterToolCall (call_id : string) | AfterInFlight (block_id : Z).

Inductive InFlightBlock :=
| ShownText (text : string) (finished : bool)
| ShownThinking (text : string) (finished : bool)
| ShownToolCall (id name args : string) (state : InFlightToolCallState).

Section in_flight.
Context {Compaction : Type}.

Inductive Event :=
| TextDelta (text : string)
| TextDone (text : string)
| ThinkingStart
| ThinkingDelta (text : string)
| ThinkingDone (text : string)
| ToolCallStart (id name : string)
| ToolCallArgsDelta (id json : string)
| ToolCallDone (id name arguments : string)
| CommandPublished (event : CommandEvent)
| CompactionProgress (compaction : option Compaction).

Record InFlightSnapshot := mkSnapshot {
  block_ids : list Z;
  shown : list InFlightBlock;
  shown_commands : list CommandSnapshot;
  shown_compaction : option Compaction
}.

(** The inner state, what has been sent, and the heap of positions. *)
Record InFlightEvents := mkInFlight {
  next_block_id : Z;
  blocks : list TrackedBlock;
  known_tool_call_ids : gset string;
  commands : list CommandSnapshot;
  compaction : option Compaction;
  sent : list Event;
  positions : gmap nat AlertPosition
}.

Definition in_flight_new : InFlightEvents := mkInFlight 1 [] ∅ [] None [] ∅.

Definition set_blocks (f : InFlightEvents) (bs : list TrackedBlock) : InFlightEvents :=
  mkInFlight (next_block_id f) bs (known_tool_call_ids f) (commands f) (compaction f) (sent f) (positions f).
Definition set_commands (f : InFlightEvents) (cs : list CommandSnapshot) : InFlightEvents :=
  mkInFlight (next_block_id f) (blocks f) (known_tool_call_ids f) cs (compaction f) (sent f) (positions f).
Definition set_positions (f : InFlightEvents) (p : gmap nat AlertPosition) : InFlightEvents :=
  mkInFlight (next_block_id f) (blocks f) (known_tool_call_ids f) (commands f) (compaction f) (sent f) p.
Definition send (f : InFlightEvents) (e : Event) : InFlightEvents :=
  mkInFlight (next_block_id f) (blocks f) (known_tool_call_ids f) (commands f) (compaction f)
    (sent f ++ [e]) (positions f).

Definition block_id (b : TrackedBlock) : Z :=
  match b with TextBlock i _ _ _ | ThinkingBlock i _ _ | ToolCallBlock i _ _ _ _ => i end.

Definition push_block (f : InFlightEvents) (b : Z → TrackedBlock) : Z * InFlightEvents :=
  let id := next_block_id f in
  (id, mkInFlight (saturating_add_u64 id 1) (blocks f ++ [b id]) (known_tool_call_ids f) (commands f)
         (compaction f) (sent f) (positions f)).

(** [find_block_mut] and the change of the block it finds. *)
Fixpoint change_first (id : Z) (g : TrackedBlock → TrackedBlock) (bs : list TrackedBlock)
  : list TrackedBlock :=
  match bs with
  | [] => []
  | b :: rest => if block_id b =? id then g b :: rest else b :: change_first id g rest
  end.

Definition on_block (f : InFlightEvents) (id : Z) (g : TrackedBlock → TrackedBlock) : InFlightEvents :=
  set_blocks f (change_first id g (blocks f)).

(** *** Text and reasoning *)

Definition start_text_block (f : InFlightEvents) : Z * InFlightEvents :=
  push_block f (λ id, TextBlock id EmptyString false []).

Definition text_delta (f : InFlightEvents) (id : Z) (text : string) : InFlightEvents :=
  send (on_block f id (λ b, match b with
                            | TextBlock i current _ ps => TextBlock i (current +:+ text) false ps
                            | _ => b end)) (TextDelta text).

Definition text_done (f : InFlightEvents) (id : Z) (text : string) : InFlightEvents :=
  send (on_block f id (λ b, match b with
                            | TextBlock i current _ ps =>
                                TextBlock i (if bool_decide (current = EmptyString) then text else current) true ps
                            | _ => b end)) (TextDone text).

Definition thinking_start (f : InFlightEvents) : Z * InFlightEvents :=
  let '(id, f) := push_block f (λ id, ThinkingBlock id EmptyString false) in (id, send f ThinkingStart).

Definition thinking_delta (f : InFlightEvents) (id : Z) (text : string) : InFlightEvents :=
  send (on_block f id (λ b, match b with
                            | ThinkingBlock i current _ => ThinkingBlock i (current +:+ text) false
                            | _ => b end)) (ThinkingDelta text).

Definition thinking_done (f : InFlightEvents) (id : Z) (text : string) : InFlightEvents :=
  send (on_block f id (λ b, match b with
                            | ThinkingBlock i current _ =>
                                ThinkingBlock i (if bool_decide (current = EmptyString) then text else current) true
                            | _ => b end)) (ThinkingDone text).

(** *** Tool calls *)

Definition tool_call_start (f : InFlightEvents) (id name : string) : Z * InFlightEvents :=
  let f := mkInFlight (next_block_id f) (blocks f) ({[id]} ∪ known_tool_call_ids f) (commands f)
             (compaction f) (sent f) (positions f) in
  let '(block, f) := push_block f (λ b, ToolCallBlock b id name EmptyString Pending) in
  (block, send f (ToolCallStart id name)).

Definition tool_call_args_delta (f : InFlightEvents) (block : Z) (id delta : string) : InFlightEvents :=
  send (on_block f block (λ b, match b with
                               | ToolCallBlock i call name args _ => ToolCallBlock i call name (args +:+ delta) StreamingArgs
                               | _ => b end)) (ToolCallArgsDelta id delta).

Definition tool_call_done (f : InFlightEvents) (block : Z) (id args : string) : InFlightEvents :=
  let name := match List.find (λ b, block_id b =? block) (blocks f) with
              | Some (ToolCallBlock _ _ name _ _) => name
              | _ => EmptyString
              end in
  send (on_block f block (λ b, match b with
                               | ToolCallBlock i call name current _ =>
                                   ToolCallBlock i call name (if bool_decide (current = EmptyString) then args else current) Done
                               | _ => b end)) (ToolCallDone id name args).

(** *** Commands *)

Definition accepts_command_event (f : InFlightEvents) (e : CommandEvent) : bool :=
  match e with
  | Started _ (Some tool_call_id) _ => bool_decide (tool_call_id ∈ known_tool_call_ids f)
  | Started _ None _ => false
  | Output id _ _ _ _ _ | Terminal id _ _ _ _ _ =>
      existsb (λ c, bool_decide (command_id c = id)) (commands f)
  end.

Definition without (id : string) (cs : list CommandSnapshot) : list CommandSnapshot :=
  List.filter (λ c, negb (bool_decide (command_id c = id))) cs.

Definition output_of (c : CommandSnapshot) (stream : CommandStream) (start end_ : Z) (text : string)
    (at_ms : Z) : CommandSnapshot :=
  let take t := take_output COMMAND_SNAPSHOT_STREAM_BYTES t start end_ text in
  mkCommand (command_id c) (tool_call_id c) (status c) (started_at_ms c) at_ms (Some at_ms)
    (match stream with Stdout => take (stdout c) | Stderr => stdout c end)
    (match stream with Stdout => stderr c | Stderr => take (stderr c) end) (exit_code c).

Fixpoint output_to (id : string) (g : CommandSnapshot → CommandSnapshot) (cs : list CommandSnapshot)
  : list CommandSnapshot :=
  match cs with
  | [] => []
  | c :: rest => if bool_decide (command_id c = id) then g c :: rest else c :: output_to id g rest
  end.

Definition apply_command_event (f : InFlightEvents) (e : CommandEvent) : InFlightEvents :=
  match e with
  | Started id tool_call_id at_ms =>
      set_commands f (without id (commands f)
        ++ [mkCommand id tool_call_id Running at_ms at_ms None slice_default slice_default None])
  | Output id stream start end_ text at_ms =>
      let cs := if existsb (λ c, bool_decide (command_id c = id)) (commands f) then commands f
                else commands f ++ [mkCommand id None Running at_ms at_ms (Some at_ms) slice_default
                                      slice_default None] in
      set_commands f (output_to id (λ c, output_of c stream start end_ text at_ms) cs)
  | Terminal id _ _ _ _ _ => set_commands f (without id (commands f))
  end.

Definition publish_command_event (f : InFlightEvents) (e : CommandEvent) : InFlightEvents :=
  if accepts_command_event f e then send (apply_command_event f e) (CommandPublished e) else f.

Definition replace_command_snapshot (f : InFlightEvents) (cs : list CommandSnapshot) : InFlightEvents :=
  set_commands f (List.filter (λ c, match tool_call_id c with
                                    | Some id => bool_decide (id ∈ known_tool_call_ids f)
                                    | None => false end) cs).

Definition set_compaction (f : InFlightEvents) (c : option Compaction) : InFlightEvents :=
  send (mkInFlight (next_block_id f) (blocks f) (known_tool_call_ids f) (commands f) c (sent f) (positions f))
    (CompactionProgress c).

Definition clear (f : InFlightEvents) : InFlightEvents :=
  mkInFlight (next_block_id f) [] ∅ [] (compaction f) (sent f) (positions f).

(** *** Commits *)

(** Removes the first block that matches; whether there was one. *)
Definition remove_first (p : TrackedBlock → bool) (f : InFlightEvents) : bool * InFlightEvents :=
  match position p (blocks f) with
  | Some index => (true, set_blocks f (vec_remove index (blocks f)))
  | None => (false, f)
  end.

Definition is_text (committed : string) (b : TrackedBlock) : bool :=
  match b with TextBlock _ text _ _ => bool_decide (text = committed) | _ => false end.

Definition is_thinking (committed : string) (b : TrackedBlock) : bool :=
  match b with ThinkingBlock _ text _ => bool_decide (text = committed) | _ => false end.

Definition is_hidden_thinking (b : TrackedBlock) : bool :=
  match b with ThinkingBlock _ text finished => bool_decide (text = EmptyString) && finished | _ => false end.

Definition is_tool_call (call_id : string) (b : TrackedBlock) : bool :=
  match b with ToolCallBlock _ id _ _ _ => bool_decide (id = call_id) | _ => false end.

(** The live watchers of a block move to the entry that was committed. *)
Definition rebind (entry_id : string) (watchers : list nat) (heap : gmap nat AlertPosition)
  : gmap nat AlertPosition :=
  foldl (λ heap l, alter (λ _, AfterEntry entry_id) l heap) heap watchers.

Definition remove_first_text_matching (f : InFlightEvents) (committed : string) (entry_id : option string)
  : InFlightEvents :=
  let f := match List.find (is_text committed) (blocks f), entry_id with
           | Some (TextBlock _ _ _ watchers), Some entry_id => set_positions f (rebind entry_id watchers (positions f))
           | _, _ => f
           end in
  (remove_first (is_text committed) f).2.

Definition remove_thinking (text : string) (rf : bool * InFlightEvents) : bool * InFlightEvents :=
  if bool_decide (text = EmptyString) then rf
  else let '(removed, f) := remove_first (is_thinking text) rf.2 in (rf.1 || removed, f).

Definition clear_for_committed_item (f : InFlightEvents) (item : SessionLog.LoggedItem)
    (entry_id : option string) : InFlightEvents :=
  match item with
  | SessionLog.LoggedMessage SessionLog.LoggedAssistant content =>
      let text := String.concat EmptyString
        ((λ part, match part with SessionLog.LoggedText t => t | SessionLog.LoggedRefusal t => t end) <$> content) in
      if bool_decide (text = EmptyString) then f else remove_first_text_matching f text entry_id
  | SessionLog.LoggedReasoning text summary encrypted_content _ =>
      let '(removed, f) := foldl (λ rf t, remove_thinking t rf) (false, f) (text :: summary) in
      match encrypted_content with
      | Some _ => if removed : bool then f else (remove_first is_hidden_thinking f).2
      | None => f
      end
  | SessionLog.LoggedToolCall call_id _ _ _ _ _ => (remove_first (is_tool_call call_id) f).2
  | _ => f
  end.

(** *** Alerts *)

Definition prune_watchers (heap : gmap nat AlertPosition) (b : TrackedBlock) : TrackedBlock :=
  match b with
  | TextBlock i text finished watchers =>
      TextBlock i text finished (List.filter (λ l, match heap !! l with Some _ => true | None => false end) watchers)
  | _ => b
  end.

(** The last block that is a row of the conversation gets a watcher, when it is a text. *)
Fixpoint watch_last_row (l : nat) (bs : list TrackedBlock) : option (AlertPosition * list TrackedBlock) :=
  match bs with
  | [] => None
  | b :: rest =>
      match watch_last_row l rest with
      | Some (p, rest) => Some (p, b :: rest)
      | None =>
          match b with
          | TextBlock i text finished watchers =>
              if bool_decide (text = EmptyString) then None
              else Some (AfterInFlight i, TextBlock i text finished (watchers ++ [l]) :: rest)
          | ToolCallBlock _ id _ _ _ => Some (AfterToolCall id, b :: rest)
          | ThinkingBlock _ _ _ => None
          end
      end
  end.

Definition capture_alert_position (f : InFlightEvents) : option nat * InFlightEvents :=
  let f := set_blocks f (prune_watchers (positions f) <$> blocks f) in
  let l := fresh (dom (positions f)) in
  match watch_last_row l (blocks f) with
  | Some (p, bs) => (Some l, set_positions (set_blocks f bs) (<[l := p]> (positions f)))
  | None => (None, f)
  end.

(** ** Snapshots *)

Definition to_snapshot_block (b : TrackedBlock) : option InFlightBlock :=
  match b with
  | TextBlock _ text finished _ => if bool_decide (text = EmptyString) then None else Some (ShownText text finished)
  | ThinkingBlock _ text finished =>
      if bool_decide (text = EmptyString) && finished then None else Some (ShownThinking text finished)
  | ToolCallBlock _ id name args state => Some (ShownToolCall id name args state)
  end.

Definition snapshot (f : InFlightEvents) : InFlightSnapshot :=
  let rows := omap (λ b, s ← to_snapshot_block b; Some (block_id b, s)) (blocks f) in
  mkSnapshot rows.*1 rows.*2 (commands f) (compaction f).

(** ** Sequences of operations *)

Inductive Op :=
| StartText
| DeltaText (id : Z) (text : string)
| EndText (id : Z) (text : string)
| StartThinking
| DeltaThinking (id : Z) (text : string)
| EndThinking (id : Z) (text : string)
| StartToolCall (id name : string)
| DeltaToolCall (block : Z) (id delta : string)
| EndToolCall (block : Z) (id args : string)
| PublishCommand (e : CommandEvent)
| ReplaceCommands (cs : list CommandSnapshot)
| SetCompaction (c : option Compaction)
| CommitItem (item : SessionLog.LoggedItem) (entry_id : option string)
| CaptureAlert
| DropAlert (l : nat)
| ClearAll.

Definition apply_op (f : InFlightEvents) (op : Op) : InFlightEvents :=
  match op with
  | StartText => (start_text_block f).2
  | DeltaText id text => text_delta f id text
  | EndText id text => text_done f id text
  | StartThinking => (thinking_start f).2
  | DeltaThinking id text => thinking_delta f id text
  | EndThinking id text => thinking_done f id text
  | StartToolCall id name => (tool_call_start f id name).2
  | DeltaToolCall block id delta => tool_call_args_delta f block id delta
  | EndToolCall block id args => tool_call_done f block id args
  | PublishCommand e => publish_command_event f e
  | ReplaceCommands cs => replace_command_snapshot f cs
  | SetCompaction c => set_compaction f c
  | CommitItem item entry_id => clear_for_committed_item f item entry_id
  | CaptureAlert => (capture_alert_position f).2
  | DropAlert l => set_positions f (delete l (positions f))
  | ClearAll => clear f
  end.

(** ** What commands wrote *)













(** *** The cut *)







(** *** The operations on commands *)













(** ** Commits clear what they commit *)

(** What a block is recognised by when its item is committed. *)
Inductive Key := KText (text : string) | KThinking (text : string) | KHidden | KCall (call_id : string) | KNone.

#[global] Instance Key_eq_dec : EqDecision Key.
Proof. solve_decision. Defined.

Definition block_key (b : TrackedBlock) : Key :=
  match b with
  | TextBlock _ text _ _ => KText text
  | ThinkingBlock _ text finished =>
      if bool_decide (text = EmptyString) then if finished then KHidden else KNone else KThinking text
  | ToolCallBlock _ id _ _ _ => KCall id
  end.

(** The blocks an item was streamed as: reasoning has one for its text and one for each
    summary, or a hidden one. *)
Definition item_keys (item : SessionLog.LoggedItem) : list Key :=
  match item with
  | SessionLog.LoggedMessage SessionLog.LoggedAssistant content =>
      let text := String.concat EmptyString
        ((λ part, match part with SessionLog.LoggedText t => t | SessionLog.LoggedRefusal t => t end) <$> content) in
      if bool_decide (text = EmptyString) then [] else [KText text]
  | SessionLog.LoggedReasoning text summary encrypted_content _ =>
      match omap (λ t, if bool_decide (t = EmptyString) then None else Some (KThinking t)) (text :: summary) with
      | [] => match encrypted_content with Some _ => [KHidden] | None => [] end
      | keys => keys
      end
  | SessionLog.LoggedToolCall call_id _ _ _ _ _ => [KCall call_id]
  | _ => []
  end.

Definition commit_items (f : InFlightEvents) (items : list (SessionLog.LoggedItem * option string)) : InFlightEvents :=
  foldl (λ f i, clear_for_committed_item f i.1 i.2) f items.

(** A removal takes the one block with the key, where there is one. *)
Lemma remove_first_key p k f rest :
  (∀ b, p b = bool_decide (block_key b = k)) → block_key <$> blocks f ≡ₚ k :: rest →
  ∃ f', remove_first p f = (true, f') ∧ block_key <$> blocks f' ≡ₚ rest.
Proof.
  intros Hp Hk. unfold remove_first. destruct (position p (blocks f)) as [i|] eqn:Hpos.
  - apply position_Some in Hpos as (b & Hb & Hpb & _). eexists. split; [done|]. simpl.
    rewrite Hp in Hpb. apply bool_decide_eq_true in Hpb.
    rewrite (proj1 (EngineCore.vec_remove_lookup _ _ _ Hb)) in Hk. simpl in Hk. rewrite Hpb in Hk. by apply Permutation_cons_inv in Hk.
  - rewrite position_None in Hpos. assert (k ∈ block_key <$> blocks f) as Hin by (rewrite Hk; by left).
    apply list_elem_of_fmap in Hin as (b & -> & Hin). specialize (Hpos b Hin). rewrite Hp in Hpos.
    by rewrite bool_decide_true in Hpos.
Qed.

Lemma remove_thinking_key t removed f rest :
  block_key <$> blocks f ≡ₚ (if bool_decide (t = EmptyString) then [] else [KThinking t]) ++ rest →
  ∃ f', remove_thinking t (removed, f) = (removed || negb (bool_decide (t = EmptyString)), f')
    ∧ block_key <$> blocks f' ≡ₚ rest.
Proof.
  intros Hk. unfold remove_thinking. case_bool_decide as Ht; simpl in *; [exists f; by rewrite orb_false_r|].
  destruct (remove_first_key (is_thinking t) (KThinking t) f rest) as (f' & -> & Hf'); [|done|by exists f'].
  intros [i x fin ps|i x fin|i c n a st]; simpl; [done| |done]. apply bool_decide_ext.
  destruct (decide (x = EmptyString)) as [->|Hx]; [rewrite bool_decide_true by done; by destruct fin|].
  rewrite bool_decide_false by done. split; [by intros ->|by intros [= ->]].
Qed.

Lemma remove_summaries_keys l : ∀ removed f rest,
  block_key <$> blocks f
    ≡ₚ omap (λ t, if bool_decide (t = EmptyString) then None else Some (KThinking t)) l ++ rest →
  ∃ f', foldl (λ rf t, remove_thinking t rf) (removed, f) l
      = (removed || existsb (λ t, negb (bool_decide (t = EmptyString))) l, f')
    ∧ block_key <$> blocks f' ≡ₚ rest.
Proof.
  induction l as [|t l IH]; intros removed f rest Hk; simpl in *.
  - exists f. by rewrite orb_false_r.
  - destruct (remove_thinking_key t removed f
      (omap (λ t, if bool_decide (t = EmptyString) then None else Some (KThinking t)) l ++ rest)) as (f1 & -> & Hf1).
    { by case_bool_decide. }
    destruct (IH (removed || negb (bool_decide (t = EmptyString))) f1 rest Hf1) as (f2 & -> & Hf2). exists f2. by rewrite orb_assoc.
Qed.

Lemma omap_keys_nil l :
  omap (λ t, if bool_decide (t = EmptyString) then None else Some (KThinking t)) l = []
  ↔ existsb (λ t, negb (bool_decide (t = EmptyString))) l = false.
Proof. induction l as [|t l IH]; simpl; [done|]. case_bool_decide; simpl; [done|]. split; done. Qed.

Lemma clear_item_keys f item entry_id rest :
  block_key <$> blocks f ≡ₚ item_keys item ++ rest →
  block_key <$> blocks (clear_for_committed_item f item entry_id) ≡ₚ rest.
Proof.
  destruct item as [[] parts|?|call ? ? ? ? ?|? ? ? ? ? ?|text summary enc sg]; try done; cbn [item_keys clear_for_committed_item].
  - case_bool_decide; [done|]. intros Hk. unfold remove_first_text_matching.
    set (g := match List.find _ _ with Some _ => _ | None => _ end).
    assert (blocks g = blocks f) as Hg by (unfold g; by destruct (List.find _ _) as [[]|], entry_id).
    match goal with |- context [is_text ?t] =>
      destruct (remove_first_key (is_text t) (KText t) g rest) as (f' & -> & Hf') end; [|by rewrite Hg|done].
    intros [i x fin ps|i x [] |i c n a st]; simpl; try done; [|by repeat case_bool_decide..].
    apply bool_decide_ext. split; [by intros ->|by intros [= ->]].
  - intros Hk. destruct (remove_first_key (is_tool_call call) (KCall call) f rest) as (f' & -> & Hf'); [|done|done].
    intros [i x fin ps|i x []|i c n a st]; simpl; try done; [by repeat case_bool_decide..|].
    apply bool_decide_ext. split; [by intros ->|by intros [= ->]].
  - set (keys := omap _ _). intros Hk.
    destruct (remove_summaries_keys (text :: summary) false f
      (match keys with [] => match enc with Some _ => [KHidden] | None => [] end | _ => [] end ++ rest))
      as (f' & -> & Hf').
    { fold keys. by destruct keys. }
    pose proof (omap_keys_nil (text :: summary)) as Hn. fold keys in Hn. rewrite orb_false_l.
    destruct (existsb _ (text :: summary)), keys as [|k keys];
      [discriminate (proj1 Hn eq_refl)|by destruct enc| |discriminate (proj2 Hn eq_refl)].
    destruct enc; [|done].
    destruct (remove_first_key is_hidden_thinking KHidden f' rest) as (f2 & -> & Hf2); [|done|done].
    intros [i x fin ps|i x fin|i c n a st]; simpl; try done. destruct fin; by repeat case_bool_decide.
Qed.

Lemma commit_items_keys items : ∀ f rest,
  block_key <$> blocks f ≡ₚ concat (item_keys ∘ fst <$> items) ++ rest →
  block_key <$> blocks (commit_items f items) ≡ₚ rest.
Proof.
  induction items as [|i items IH]; intros f rest Hk; [done|]. simpl in *.
  apply IH. apply clear_item_keys. by rewrite app_assoc.
Qed.

End in_flight.
Arguments InFlightEvents : clear implicits.
Arguments Op : clear implicits.


(** C35.  Committing a response clears it, and nothing else.  When the items of a response are
    committed and each was streamed as the blocks of its own -- one for a message, one for each
    part of a reasoning that has text, or a hidden one, one for a call -- the blocks that remain
    are the others, so a client that reconnects does not see a committed item again as one in
    flight. *)
Theorem commit_clears_response {Compaction : Type} (f : InFlightEvents Compaction)
    (items : list (SessionLog.LoggedItem * option string)) (rest : list Key) :
  block_key <$> blocks f ≡ₚ concat (item_keys ∘ fst <$> items) ++ rest →
  block_key <$> blocks (commit_items f items) ≡ₚ rest
  ∧ (rest = [] → shown (snapshot (commit_items f items)) = []).
Proof.
  intros Hk. pose proof (commit_items_keys items f rest Hk) as Hr. split; [done|]. intros ->.
  apply Permutation_nil_r, fmap_nil_inv in Hr. unfold snapshot. by rewrite Hr.
Qed.

(** ** Examples *)



(** A response with a thought, a text and a call, as it is streamed. *)
Definition example_stream : list (Op unit) :=
  [StartThinking; DeltaThinking 1 "Hm."; EndThinking 1 "Hm."; StartText; DeltaText 2 "Reading.";
   EndText 2 "Reading."; StartToolCall "a" "Read"; DeltaToolCall 3 "a" "{}"; EndToolCall 3 "a" "{}"].

Definition example_items : list (SessionLog.LoggedItem * option string) :=
  [(SessionLog.LoggedReasoning "Hm." [] None None, Some "e1");
   (SessionLog.LoggedMessage SessionLog.LoggedAssistant [SessionLog.LoggedText "Reading."], Some "e2");
   (SessionLog.LoggedToolCall "a" "Read" "{}" None None None, Some "e3")].

Lemma commit_clears_response_witness :
  shown (snapshot (foldl apply_op in_flight_new example_stream)) ≠ []
  ∧ shown (snapshot (commit_items (foldl apply_op in_flight_new example_stream) example_items)) = [].
Proof.
  split; [vm_compute; discriminate|].
  apply (commit_clears_response (foldl apply_op in_flight_new example_stream) example_items []); reflexivity.
Defined.

(** Two texts of one response stay in flight.  The engine commits the texts of a response as one
    message, which is compared with the text of each block: when there are two, neither is
    equal to it, and a client that reconnects gets both again after the message. *)
Theorem several_texts_linger {A : Type} (env : EngineCore.Env A bool) :
  let f := foldl apply_op in_flight_new
             ([StartText; DeltaText 1 "Reading."; EndText 1 "Reading."; StartText; DeltaText 2 "Done.";
               EndText 2 "Done."] : list (Op unit)) in
  let items := (λ i, (SessionLog.to_logged i, Some "e"))
                 <$> Streaming.build_assistant_items env [] ["Reading."; "Done."] [] in
  shown (snapshot (commit_items f items)) = [ShownText "Reading." true; ShownText "Done." true].
Proof. reflexivity. Qed.

End InFlight.
