(* ===== verification/SessionStore.v ===== *)
(** * Segments of a session store

    Models [src/crates/session-store/src/segment.rs] over the [Store] trait of
    [src/crates/session-store/src/store.rs].  The trait is a class of operations on the state
    of a store, each in an environment that decides its failures, and its documented contract
    a class of laws about the records a segment holds; the operations on segments are proved
    against the laws.  Identifiers and times that the source generates are arguments. *)
From Stdlib Require Import ZArith String Ascii List Lia.
From stdpp Require Import base tactics numbers list strings pretty gmap.
From S2P Require Import Prelude Conversation ContextBudget SessionLog.
Import Conversation.

Module SessionStore.
Import SessionLog.

(** The errors the operations of this file and the log files give. *)
Inductive StoreError :=
| Io (message : string)
| Serde (message : string)
| InvalidInputMetadata (message : string)
| NotFound (segment_id : string)
| Corrupt (line : Z) (message : string)
| SessionErased (session_id : string).

(** ** The interface *)

(** [Store]: [St] is the state of the store, [Env] what a call meets. *)
Class Store `{Carrier} (St Env : Type) := {
  append : Env → St → string → string → LogEntry → St * result unit StoreError;
  read_all : Env → St → string → string → result (list LogEntry) StoreError;
  create_segment : Env → St → string → string → list LogEntry → St * result unit StoreError;
  read_entry_count : Env → St → string → string → result nat StoreError;
  lookup_session_of : Env → St → string → result (option string) StoreError
}.

(** An entry whose identity, if it is a run transition, is stored with it. *)
Definition identified `{Carrier} (e : LogEntry) : Prop := ∀ x, ensure_entry_id x e = e.

(** The contract: a well-formed store holds records of segments; a read gives them; an append
    adds its entry or, if it fails, nothing; a replacement writes all entries or, if it
    fails, leaves the old records or all of the new ones; other segments are not touched. *)
Class StoreLaws `{Store} := {
  store_ok : St → Prop;
  records : St → string → string → list LogEntry;
  records_identified s sid seg : store_ok s → Forall identified (records s sid seg);
  read_all_records env s sid seg l :
    store_ok s → read_all env s sid seg = Ok l → records s sid seg = l;
  count_records env s sid seg n :
    store_ok s → read_entry_count env s sid seg = Ok n → n = length (records s sid seg);
  append_records env s sid seg e s' res :
    store_ok s → identified e → append env s sid seg e = (s', res) →
    store_ok s' ∧ records s' sid seg = records s sid seg ++ (if is_ok res then [e] else []);
  create_records env s sid seg l s' res :
    store_ok s → Forall identified l → create_segment env s sid seg l = (s', res) →
    store_ok s'
    ∧ (records s' sid seg = l ∨ (is_ok res = false ∧ records s' sid seg = records s sid seg));
  append_elsewhere env s sid seg e s' res sid' seg' :
    append env s sid seg e = (s', res) → (sid', seg') ≠ (sid, seg) →
    records s' sid' seg' = records s sid' seg';
  create_elsewhere env s sid seg l s' res sid' seg' :
    create_segment env s sid seg l = (s', res) → (sid', seg') ≠ (sid, seg) →
    records s' sid' seg' = records s sid' seg'
}.

Section segments.
Context `{Store}.

(** ** Creating segments *)

Record SegmentStartState := mkStart {
  start_system_prompt : option string;
  start_config : RequestConfig;
  start_history : list LoggedHistoryEntry;
  start_user_segments : list (list Segment)
}.

Definition seed_entries (ts : Z) (session_id : string) (state : SegmentStartState)
    (forked_from compacted_from : option SegmentOrigin) : list LogEntry :=
  AnnotatedSegmentStart ts session_id (start_system_prompt state) (start_config state)
    (start_history state) forked_from compacted_from
  :: match start_user_segments state with
     | [] => []
     | _ => [InputSegmentsCheckpoint ts (start_user_segments state)]
     end.

Definition create_segment_with_ids (env : Env) (s : St) (ts : Z) (session_id segment_id : string)
    (state : SegmentStartState) : St * result unit StoreError :=
  create_segment env s session_id segment_id (seed_entries ts session_id state None None).

Definition create_compacted_segment (env : Env) (s : St) (ts : Z) (new_id : string)
    (state : SegmentStartState) (source_session_id source_segment_id : string)
    (source_turn_count : Z) : St * result string StoreError :=
  let '(s', res) :=
    create_segment env s source_session_id new_id
      (seed_entries ts source_session_id state None
         (Some (mkOrigin source_segment_id source_turn_count))) in
  (s', let? _ := res in Ok new_id).

(** ** Restoring *)

(** [None] when the replay panics. *)
Definition restore (env : Env) (s : St) (session_id segment_id : string)
  : option (result RestoredState StoreError) :=
  match read_all env s session_id segment_id with
  | Err e => Some (Err e)
  | Ok entries => state ← collect_state entries; Some (Ok state)
  end.

Definition restore_by_segment (env env' : Env) (s : St) (segment_id : string)
  : option (result RestoredState StoreError) :=
  match lookup_session_of env s segment_id with
  | Err e => Some (Err e)
  | Ok None => Some (Err (NotFound segment_id))
  | Ok (Some session_id) => restore env' s session_id segment_id
  end.

(** ** Appending *)

Definition append_entry (env : Env) (s : St) (new_id session_id segment_id : string)
    (entry : LogEntry) : St * result unit StoreError :=
  append env s session_id segment_id (ensure_entry_id new_id entry).

Definition save_user_input_with_extensions (env : Env) (s : St) (ts : Z)
    (session_id segment_id : string) (segments : list Segment)
    (history : list LoggedHistoryEntry) (extensions : list SessionExtension)
  : St * result unit StoreError :=
  append_entry env s EmptyString session_id segment_id
    (AnnotatedUserInput ts segments extensions history).

Definition classify_logged_history_entry (entry : LoggedHistoryEntry) (ts : Z) : LogEntry :=
  if is_tool_result (from_logged (logged_item entry)) then AnnotatedToolResult ts entry
  else AnnotatedAssistantItem ts entry.

(** The loop of [save_delta]; the n-th append meets [env n]. *)
Fixpoint save_delta_from (env : nat → Env) (n : nat) (s : St) (ts : Z)
    (session_id segment_id : string) (new_items : list LoggedHistoryEntry)
  : St * result unit StoreError :=
  match new_items with
  | [] => (s, Ok tt)
  | entry :: rest =>
      if is_user_message (from_logged (logged_item entry))
      then save_delta_from env n s ts session_id segment_id rest
      else
        match append_entry (env n) s EmptyString session_id segment_id
                (classify_logged_history_entry entry ts) with
        | (s', Err e) => (s', Err e)
        | (s', Ok _) => save_delta_from env (S n) s' ts session_id segment_id rest
        end
  end.

Definition save_delta (env : nat → Env) (s : St) (ts : Z) (session_id segment_id : string)
    (new_items : list LoggedHistoryEntry) : St * result unit StoreError :=
  save_delta_from env 0 s ts session_id segment_id new_items.

Definition append_system_item (env : Env) (s : St) (ts : Z) (session_id segment_id : string)
    (entry : LoggedSystemHistoryEntry) : St * result unit StoreError :=
  append_entry env s EmptyString session_id segment_id (AnnotatedSystemItem ts entry []).

Definition save_turn_end (env : Env) (s : St) (ts : Z) (session_id segment_id : string)
    (turn_count : Z) : St * result unit StoreError :=
  append_entry env s EmptyString session_id segment_id (TurnEnd ts turn_count).

Definition save_run_completed (env : Env) (s : St) (ts : Z)
    (new_id session_id segment_id : string) (result : EngineResult) (interrupted : bool)
    (active_run_turn_count : option Z) : St * Prelude.result unit StoreError :=
  append_entry env s new_id session_id segment_id
    (RunCompleted None ts interrupted result active_run_turn_count).

Definition save_run_yielded (env : Env) (s : St) (ts : Z) (new_id session_id segment_id : string)
    (reason : RunYieldReason) (active_run_turn_count : Z) : St * result unit StoreError :=
  append_entry env s new_id session_id segment_id
    (RunYielded ts None reason active_run_turn_count).

Definition save_run_resumed (env : Env) (s : St) (ts : Z) (new_id session_id segment_id : string)
    (source : RunResumeSource) (active_run_turn_count : Z) : St * result unit StoreError :=
  append_entry env s new_id session_id segment_id
    (RunResumed ts None source active_run_turn_count).

Definition save_run_errored (env : Env) (s : St) (ts : Z) (new_id session_id segment_id : string)
    (message : string) (interrupted : bool) : St * result unit StoreError :=
  append_entry env s new_id session_id segment_id
    (RunErrored ts None interrupted message (Some FailureEngine)).

Definition save_usage (env : Env) (s : St) (ts : Z) (session_id segment_id : string)
    (usage : ContextBudget.UsageRecord) : St * result unit StoreError :=
  append_entry env s EmptyString session_id segment_id (LlmUsage ts usage).

Definition save_extension (env : Env) (s : St) (ts : Z) (session_id segment_id domain : string)
    (payload : Json) : St * result unit StoreError :=
  append_entry env s EmptyString session_id segment_id (Extension ts domain payload).

Definition save_config_changed (env : Env) (s : St) (ts : Z) (session_id segment_id : string)
    (config : RequestConfig) : St * result unit StoreError :=
  append_entry env s EmptyString session_id segment_id (ConfigChanged ts config).

(** [Store::truncate], the default method. *)
Definition truncate (env env' : Env) (s : St) (session_id segment_id : string)
    (entries_len : nat) : St * result unit StoreError :=
  match read_all env s session_id segment_id with
  | Err e => (s, Err e)
  | Ok entries =>
      if (length entries <? entries_len)%nat
      then (s, Err (Corrupt (Z.of_nat entries_len)
                      ("cannot truncate segment " +:+ segment_id +:+ " to "
                       +:+ pretty entries_len +:+ " entries; only " +:+ pretty (length entries)
                       +:+ " entries stored")))
      else create_segment env' s session_id segment_id (take entries_len entries)
  end.

(** ** Forking *)

(** The writer's segment and tally after the check. *)
Definition ensure_head_or_fork (env env' : Env) (s : St) (ts : Z) (new_id session_id : string)
    (segment_id : string) (entries_written : nat) (at_turn : Z) (state : SegmentStartState)
  : St * result (string * nat) StoreError :=
  match read_entry_count env s session_id segment_id with
  | Err e => (s, Err e)
  | Ok store_count =>
      if (store_count =? entries_written)%nat then (s, Ok (segment_id, entries_written))
      else
        let entries := seed_entries ts session_id state (Some (mkOrigin segment_id at_turn)) None in
        let '(s', res) := create_segment env' s session_id new_id entries in
        (s', let? _ := res in Ok (new_id, length entries))
  end.

Definition is_seed (e : LogEntry) : bool :=
  match e with
  | AnnotatedSegmentStart _ _ _ _ _ _ _ | InputSegmentsCheckpoint _ _ => true
  | _ => false
  end.

Definition ends_turn (at_turn : Z) (e : LogEntry) : bool :=
  match e with TurnEnd _ turn_count => turn_count =? at_turn | _ => false end.

(** How many entries a fork keeps. *)
Definition fork_cut (at_turn : Z) (entries : list LogEntry) : nat :=
  if at_turn =? 0
  then default (length entries) (position (λ e, negb (is_seed e)) entries)
  else default (length entries) (S <$> position (ends_turn at_turn) entries).

Definition start_of (state : RestoredState) : SegmentStartState :=
  mkStart (st_system_prompt state) (st_config state) (st_annotated_history state)
    (st_user_segments state).

Definition fork_at (env env' : Env) (s : St) (ts : Z) (new_id source_session_id source_id : string)
    (at_turn : Z) : option (St * result string StoreError) :=
  match read_all env s source_session_id source_id with
  | Err e => Some (s, Err e)
  | Ok entries =>
      state ← collect_state (take (fork_cut at_turn entries) entries);
      let '(s', res) :=
        create_segment env' s source_session_id new_id
          (seed_entries ts source_session_id (start_of state)
             (Some (mkOrigin source_id at_turn)) None) in
      Some (s', let? _ := res in Ok new_id)
  end.
End segments.

(** ** Lemmas *)

Section store_lemmas.
Context `{StoreLaws}.

Lemma ensure_entry_id_identified x e : identified (ensure_entry_id x e).
Proof. intros y. by destruct e. Qed.

Lemma seed_identified ts sid state f c : Forall identified (seed_entries ts sid state f c).
Proof.
  unfold seed_entries. constructor; [by intros x|]. destruct (start_user_segments state);
    repeat constructor; by intros x.
Qed.

(** The state a seed restores. *)
Definition seed_state (sid : string) (n : nat) (state : SegmentStartState) : RestoredState :=
  mkState (Some sid) (start_system_prompt state) (start_config state)
    (from_logged ∘ logged_item <$> start_history state) (start_history state) 0 None false n
    [] [] (start_user_segments state).

Lemma collect_seed ts sid state f c :
  collect_state (seed_entries ts sid state f c)
  = Some (seed_state sid (length (seed_entries ts sid state f c)) state).
Proof.
  unfold seed_entries, seed_state. destruct (start_user_segments state) as [|x l] eqn:Hs;
    cbn [length]; [reflexivity|]. reflexivity.
Qed.

Lemma create_Ok env s sid seg l s' :
  store_ok s → Forall identified l → create_segment env s sid seg l = (s', Ok tt) →
  store_ok s' ∧ records s' sid seg = l.
Proof. intros Hs Hl Hc. by apply create_records in Hc as [? [?|[? _]]]. Qed.

(** The turn after which a fork cuts. *)
Lemma collect_last_turn s l ts k s' :
  collect_from s (l ++ [TurnEnd ts k]) = Some s' → st_turn_count s' = k.
Proof.
  rewrite collect_from_app. intros (s1 & _ & Hs)%bind_Some. rewrite collect_from_cons in Hs.
  apply bind_Some in Hs as (s2 & Hs2 & [= <-]).
  by destruct (collect_step_turns s1 (TurnEnd ts k) s2 Hs2 eq_refl) as [-> _].
Qed.

Lemma fork_cut_turn k entries st :
  k ≠ 0 → Exists (λ e, ends_turn k e = true) entries →
  collect_state (take (fork_cut k entries) entries) = Some st → st_turn_count st = k.
Proof.
  intros Hk Hex. unfold fork_cut. rewrite (proj2 (Z.eqb_neq k 0) Hk).
  destruct (position (ends_turn k) entries) as [i|] eqn:Hi.
  - apply position_Some in Hi as (e & He & Hends & _).
    cbn [fmap option_fmap option_map default from_option Datatypes.id].
    rewrite (take_S_r _ _ _ He). destruct e; try done. cbn in Hends.
    apply Z.eqb_eq in Hends as ->. apply collect_last_turn.
  - exfalso. rewrite position_None in Hi. apply Exists_exists in Hex as (e & He & Hends).
    by rewrite (Hi e He) in Hends.
Qed.

(** A sequence of appends to one segment, each with its environment and the identity it
    would be given; the entries that were committed. *)
Fixpoint append_entries (s : St) (sid seg : string) (l : list (Env * string * LogEntry))
  : St * list LogEntry :=
  match l with
  | [] => (s, [])
  | (env, new_id, e) :: l =>
      let '(s1, res) := append_entry env s new_id sid seg e in
      let '(s2, committed) := append_entries s1 sid seg l in
      (s2, (if is_ok res then [ensure_entry_id new_id e] else []) ++ committed)
  end.

Lemma append_entry_records env s new_id sid seg e s' res :
  store_ok s → append_entry env s new_id sid seg e = (s', res) →
  store_ok s' ∧ records s' sid seg
                = records s sid seg ++ (if is_ok res then [ensure_entry_id new_id e] else []).
Proof. intros Hs. apply append_records; [done|apply ensure_entry_id_identified]. Qed.

Lemma append_entries_records sid seg l : ∀ s s' committed,
  store_ok s → append_entries s sid seg l = (s', committed) →
  store_ok s' ∧ records s' sid seg = records s sid seg ++ committed.
Proof.
  induction l as [|[[env new_id] e] l IH]; intros s s' committed Hs; cbn [append_entries].
  { intros [= <- <-]. by rewrite app_nil_r. }
  destruct (append_entry env s new_id sid seg e) as [s1 res] eqn:He.
  destruct (append_entries s1 sid seg l) as [s2 k] eqn:Hl. intros [= <- <-].
  apply append_entry_records in He as [Hs1 He]; [|done].
  apply IH in Hl as [Hs2 Hl]; [|done]. split; [done|]. by rewrite Hl, He, <- app_assoc.
Qed.

(** The part of a delta that is logged. *)
Definition logged_part (items : list LoggedHistoryEntry) : list LoggedHistoryEntry :=
  List.filter (λ e, negb (is_user_message (from_logged (logged_item e)))) items.

Lemma classify_identified e ts x :
  ensure_entry_id x (classify_logged_history_entry e ts) = classify_logged_history_entry e ts.
Proof. unfold classify_logged_history_entry. by destruct (is_tool_result _). Qed.

Lemma save_delta_records env ts sid seg items : ∀ n s s' res,
  store_ok s → save_delta_from env n s ts sid seg items = (s', res) →
  ∃ saved rest, items = saved ++ rest ∧ (is_ok res = true → rest = [])
    ∧ records s' sid seg = records s sid seg
        ++ ((λ e, classify_logged_history_entry e ts) <$> logged_part saved).
Proof.
  induction items as [|e items IH]; intros n s s' res Hs; cbn [save_delta_from].
  { intros [= <- <-]. exists [], []. split_and!; [done..|]. by rewrite app_nil_r. }
  destruct (is_user_message (from_logged (logged_item e))) eqn:Hu.
  - intros (saved & rest & -> & Hrest & Hrec)%IH; [|done]. exists (e :: saved), rest.
    split_and!; [done..|]. unfold logged_part. cbn [List.filter]. by rewrite Hu.
  - destruct (append_entry _ _ _ _ _ _) as [s1 res1] eqn:Ha.
    apply append_entry_records in Ha as [Hs1 Ha]; [|done]. destruct res1 as [u|err].
    + intros (saved & rest & -> & Hrest & Hrec)%IH; [|done]. exists (e :: saved), rest.
      split_and!; [done..|]. rewrite Hrec, Ha. cbn [is_ok]. rewrite classify_identified.
      unfold logged_part. cbn [List.filter]. rewrite Hu. cbn [negb].
      rewrite <- app_assoc. done.
    + intros [= <- <-]. exists [], (e :: items). split_and!; [done..|]. by rewrite Ha.
Qed.

Lemma collect_classified l ts : ∀ s,
  ∃ s', collect_from s ((λ e, classify_logged_history_entry e ts) <$> l) = Some s'
        ∧ st_annotated_history s' = st_annotated_history s ++ l.
Proof.
  induction l as [|e l IH]; intros s; csimpl.
  { exists s. by rewrite app_nil_r. }
  rewrite collect_from_cons.
  assert (Hstep : ∃ s1, collect_step s (classify_logged_history_entry e ts) = Some s1
                        ∧ st_annotated_history s1 = st_annotated_history s ++ [e]).
  { unfold classify_logged_history_entry. destruct (is_tool_result _); by eexists. }
  destruct Hstep as (s1 & -> & Hs1). cbn [mbind option_bind].
  destruct (IH s1) as (s2 & Hs2 & Hh). exists s2. split; [done|].
  by rewrite Hh, Hs1, <- app_assoc.
Qed.
End store_lemmas.

(** ** A store in memory *)

(** The simplest store that keeps the contract, for examples: a call fails when its
    environment says so. *)
Module Memory.
Section memory.
Context `{Carrier}.

Definition state : Type := gmap (string * string) (list LogEntry).

Definition get (s : state) (sid seg : string) : list LogEntry := default [] (s !! (sid, seg)).

Definition put (s : state) (sid seg : string) (l : list LogEntry) : state :=
  <[(sid, seg) := l]> s.

Definition answer (fails : bool) : result unit StoreError :=
  if fails then Err (Io "failed") else Ok tt.

Definition append (fails : bool) (s : state) (sid seg : string) (e : LogEntry)
  : state * result unit StoreError :=
  (if fails then s else put s sid seg (get s sid seg ++ [ensure_entry_id "x" e]), answer fails).

Definition read_all (fails : bool) (s : state) (sid seg : string)
  : result (list LogEntry) StoreError :=
  if fails then Err (Io "failed") else Ok (ensure_entry_id "x" <$> get s sid seg).

Definition create_segment (fails : bool) (s : state) (sid seg : string) (l : list LogEntry)
  : state * result unit StoreError :=
  (if fails then s else put s sid seg l, answer fails).

Definition read_entry_count (fails : bool) (s : state) (sid seg : string)
  : result nat StoreError :=
  if fails then Err (Io "failed") else Ok (length (get s sid seg)).

Definition lookup_session_of (fails : bool) (s : state) (seg : string)
  : result (option string) StoreError := Err (NotFound seg).

#[export] Instance store : Store state bool :=
  Build_Store _ state bool append read_all create_segment read_entry_count lookup_session_of.

Lemma put_same s sid seg l : get (put s sid seg l) sid seg = l.
Proof. unfold get, put. by setoid_rewrite lookup_insert_eq. Qed.

Lemma put_other s sid seg l sid' seg' :
  (sid', seg') ≠ (sid, seg) → get (put s sid seg l) sid' seg' = get s sid' seg'.
Proof. intros Hne. unfold get, put. by setoid_rewrite lookup_insert_ne. Qed.

Lemma identified_fmap l : Forall identified l → ensure_entry_id "x" <$> l = l.
Proof. induction 1 as [|e l He _ IH]; csimpl; [done|]. by rewrite He, IH. Qed.

#[export] Instance store_laws : StoreLaws (St:=state) (Env:=bool).
Proof.
  refine {| store_ok := λ _, True; records := λ s sid seg, ensure_entry_id "x" <$> get s sid seg |}.
  - intros s sid seg _. apply Forall_fmap, Forall_true. intros e. apply ensure_entry_id_identified.
  - intros [] s sid seg l _; simpl; [done|]. by intros [= <-].
  - intros [] s sid seg n _; simpl; [done|]. intros [= <-]. by rewrite length_fmap.
  - intros [] s sid seg e s' res _ He; intros [= <- <-]; cbn [is_ok answer]; split; try done.
    + by rewrite app_nil_r.
    + rewrite put_same, fmap_app. csimpl. by rewrite !He.
  - intros [] s sid seg l s' res _ Hl; simpl; intros [= <- <-]; split; try done; [by right|].
    left. rewrite put_same. by apply identified_fmap.
  - intros [] s sid seg e s' res sid' seg'; simpl; intros [= <- <-] Hne; [done|].
    by rewrite put_other.
  - intros [] s sid seg l s' res sid' seg'; simpl; intros [= <- <-] Hne; [done|].
    by rewrite put_other.
Defined.
End memory.
End Memory.

(** ** Properties *)

Section store_properties.
Context `{StoreLaws}.

(** C31.  A fork is exact and leaves its source alone: the new segment restores the prompt,
    configuration, annotated and model-facing history and user input that replaying the
    source up to the cut gives, with no run in progress; for a turn of the source the cut is
    right after that turn; and no other segment changes. *)
Theorem fork_at_exact (env env' : Env) (s s' : St) (ts : Z)
    (new_id sid source_id id : string) (turn : Z) :
  store_ok s → fork_at env env' s ts new_id sid source_id turn = Some (s', Ok id) →
  let entries := records s sid source_id in
  id = new_id
  ∧ (∃ st st', collect_state (take (fork_cut turn entries) entries) = Some st
      ∧ collect_state (records s' sid new_id) = Some st'
      ∧ st_system_prompt st' = st_system_prompt st ∧ st_config st' = st_config st
      ∧ st_annotated_history st' = st_annotated_history st ∧ st_history st' = st_history st
      ∧ st_user_segments st' = st_user_segments st
      ∧ st_last_run_interrupted st' = false
      ∧ (turn ≠ 0 → Exists (λ e, ends_turn turn e = true) entries → st_turn_count st = turn))
  ∧ ∀ sid' seg', (sid', seg') ≠ (sid, new_id) → records s' sid' seg' = records s sid' seg'.
Proof.
  intros Hok. unfold fork_at.
  destruct (read_all env s sid source_id) as [entries|e] eqn:Hr; [|done].
  apply read_all_records in Hr; [|done]. rewrite Hr. intros (st & Hst & Hc)%bind_Some.
  destruct (create_segment _ _ _ _ _) as [s1 [u|e]] eqn:Hcreate; [|done].
  injection Hc as <- <-. destruct u. cbv zeta. split; [done|]. split.
  - exists st. destruct (create_Ok _ _ _ _ _ _ Hok (seed_identified _ _ _ _ _) Hcreate) as [_ ->].
    rewrite collect_seed. eexists. split; [done|]. split; [reflexivity|].
    split_and!; [done..| |done|done|].
    + symmetry. by apply (collect_from_projected _ _ _ Hst).
    + intros Hk Hex. by eapply fork_cut_turn.
  - intros sid' seg' Hne. by eapply create_elsewhere.
Qed.

(** C33.  A writer never appends behind another one: after the check its tally is the number
    of records of the segment it will append to.  If the tally was right nothing changes;
    otherwise it writes to a fresh segment that restores exactly the state it was seeded
    with, and the segment with the other writer's records is left as it is. *)
Theorem writer_owns_tail (env env' : Env) (s s' : St) (ts : Z) (new_id sid seg seg' : string)
    (written written' : nat) (turn : Z) (state : SegmentStartState) :
  store_ok s →
  ensure_head_or_fork env env' s ts new_id sid seg written turn state
  = (s', Ok (seg', written')) →
  written' = length (records s' sid seg')
  ∧ (if (length (records s sid seg) =? written)%nat then s' = s ∧ seg' = seg
     else seg' = new_id
       ∧ collect_state (records s' sid new_id) = Some (seed_state sid written' state))
  ∧ ∀ sid' x, (sid', x) ≠ (sid, new_id) → records s' sid' x = records s sid' x.
Proof.
  intros Hok. unfold ensure_head_or_fork.
  destruct (read_entry_count env s sid seg) as [n|e] eqn:Hn; [|done].
  apply count_records in Hn as ->; [|done]. destruct (_ =? written)%nat eqn:Heq.
  - intros [= <- <- <-]. apply Nat.eqb_eq in Heq. split_and!; done.
  - destruct (create_segment _ _ _ _ _) as [s1 [u|e]] eqn:Hcreate; [|done].
    intros [= <- <- <-]. destruct u.
    destruct (create_Ok _ _ _ _ _ _ Hok (seed_identified _ _ _ _ _) Hcreate) as [_ ->].
    split_and!; [done|done|apply collect_seed|]. intros sid' x Hne. by eapply create_elsewhere.
Qed.

(** What is restored is what was committed: after any sequence of appends to a segment,
    some of which fail, the records are the old ones and the committed entries in order, and
    replay continues from the state before with exactly those. *)
Theorem restored_is_committed (s s' : St) (sid seg : string)
    (l : list (Env * string * LogEntry)) (committed : list LogEntry) :
  store_ok s → append_entries s sid seg l = (s', committed) →
  records s' sid seg = records s sid seg ++ committed
  ∧ collect_state (records s' sid seg)
    = (st ← collect_state (records s sid seg); collect_from st committed).
Proof.
  intros Hok [_ Ha]%append_entries_records; [|done]. split; [done|]. rewrite Ha.
  apply collect_from_app.
Qed.

(** A delta extends the restored history by its items that are not user messages, in
    order; a failure in between has saved a prefix of it. *)
Theorem delta_extends_history (env : nat → Env) (s s' : St) (ts : Z) (sid seg : string)
    (items : list LoggedHistoryEntry) (res : result unit StoreError) (st : RestoredState) :
  store_ok s → save_delta env s ts sid seg items = (s', res) →
  collect_state (records s sid seg) = Some st →
  ∃ saved rest st', items = saved ++ rest ∧ (is_ok res = true → rest = [])
    ∧ collect_state (records s' sid seg) = Some st'
    ∧ st_annotated_history st' = st_annotated_history st ++ logged_part saved.
Proof.
  intros Hok (saved & rest & -> & Hrest & Hrec)%save_delta_records Hst; [|done].
  destruct (collect_classified (logged_part saved) ts st) as (st' & Hst' & Hh).
  exists saved, rest, st'. split_and!; [done..| |done].
  rewrite Hrec. unfold collect_state in *. by rewrite collect_from_app, Hst.
Qed.

(** Truncating a segment to a number of entries leaves exactly that prefix; if it fails
    the segment is as it was or already truncated, never anything in between, and more
    entries than there are is refused. *)
Theorem truncate_keeps_prefix (env env' : Env) (s s' : St) (sid seg : string) (n : nat)
    (res : result unit StoreError) :
  store_ok s → truncate env env' s sid seg n = (s', res) →
  if is_ok res then (n ≤ length (records s sid seg))%nat
                    ∧ records s' sid seg = take n (records s sid seg)
  else records s' sid seg = records s sid seg
       ∨ ((n ≤ length (records s sid seg))%nat ∧ records s' sid seg = take n (records s sid seg)).
Proof.
  intros Hs. unfold truncate. destruct (read_all env s sid seg) as [entries|e] eqn:Hr;
    [|intros [= <- <-]; by left].
  apply read_all_records in Hr; [|done]. destruct (Nat.ltb_spec (length entries) n).
  { intros [= <- <-]. by left. }
  pose proof (records_identified s sid seg Hs) as Hid. rewrite Hr in *.
  intros Hc. apply create_records in Hc as [_ [Hrec|[Hok Hrec]]]; [| |done|by apply Forall_take].
  - destruct (is_ok res); [done|]. by right.
  - rewrite Hok. left. by rewrite Hrec, Hr.
Qed.
End store_properties.

(** ** Witnesses *)

Module Example.

Definition carrier : Carrier := SessionLog.Example.carrier.

Definition mem : Store Memory.state bool := @Memory.store carrier.

Definition laws : @StoreLaws carrier Memory.state bool mem := @Memory.store_laws carrier.

(** A store whose segment [a] holds the log of one turn. *)
Definition store : @Memory.state carrier :=
  @Memory.put carrier ∅ "s" "a" SessionLog.Example.log.

Definition state : @SegmentStartState carrier := @mkStart carrier None tt [] [].

(** The store after a writer found another one's records. *)
Definition forked : @Memory.state carrier :=
  fst (@ensure_head_or_fork carrier _ _ mem false false store 9 "b" "s" "a" 3 0 state).

Definition delta : list (@LoggedHistoryEntry carrier) :=
  [SessionLog.Example.entry SessionLog.Example.call "e3"].

End Example.

Lemma fork_at_exact_witness :
  ∃ s', @fork_at Example.carrier _ _ Example.mem false false Example.store 9 "b" "s" "a" 1
        = Some (s', Ok "b")
    ∧ @records Example.carrier _ _ Example.mem Example.laws s' "s" "a"
      = @records Example.carrier _ _ Example.mem Example.laws Example.store "s" "a".
Proof.
  eexists. split; [vm_compute; reflexivity|].
  eapply (@fork_at_exact Example.carrier _ _ Example.mem Example.laws false false Example.store _ 9
            "b" "s" "a" "b" 1); [exact I|vm_compute; reflexivity|done].
Defined.

Lemma writer_owns_tail_witness :
  1%nat = length (@records Example.carrier _ _ Example.mem Example.laws Example.forked "s" "b").
Proof.
  destruct (@writer_owns_tail Example.carrier _ _ Example.mem Example.laws false false
              Example.store Example.forked 9 "b" "s" "a" "b" 3 1 0 Example.state) as [Hn _];
    [exact I|vm_compute; reflexivity|exact Hn].
Defined.

Lemma restored_is_committed_witness :
  ∃ s', @append_entries Example.carrier _ _ Example.mem Example.store "s" "a"
          [(true, "r1", RunCancelled 5 None); (false, "r2", RunCancelled 6 None)]
        = (s', [RunCancelled 6 (Some "r2")])
    ∧ @records Example.carrier _ _ Example.mem Example.laws s' "s" "a"
      = SessionLog.Example.log ++ [RunCancelled 6 (Some "r2")].
Proof.
  eexists. split; [vm_compute; reflexivity|].
  eapply (@restored_is_committed Example.carrier _ _ Example.mem Example.laws Example.store _ "s"
            "a" [(true, "r1", RunCancelled 5 None); (false, "r2", RunCancelled 6 None)]);
    [exact I|vm_compute; reflexivity].
Defined.

Lemma delta_extends_history_witness :
  ∃ s' st, @save_delta Example.carrier _ _ Example.mem (λ _, false) Example.store 9 "s" "a" Example.delta
           = (s', Ok tt)
    ∧ collect_state (@records Example.carrier _ _ Example.mem Example.laws Example.store "s" "a")
      = Some st
    ∧ ∃ saved rest st', Example.delta = saved ++ rest ∧ (true = true → rest = [])
        ∧ collect_state (@records Example.carrier _ _ Example.mem Example.laws s' "s" "a") = Some st'
        ∧ st_annotated_history st' = st_annotated_history st ++ logged_part saved.
Proof.
  eexists _, _. split; [vm_compute; reflexivity|]. split; [vm_compute; reflexivity|].
  eapply (@delta_extends_history Example.carrier _ _ Example.mem Example.laws (λ _, false)
            Example.store _ 9 "s" "a" Example.delta (Ok tt)); [exact I|vm_compute; reflexivity..].
Defined.

Lemma truncate_keeps_prefix_witness :
  ∃ s', @truncate Example.carrier _ _ Example.mem false false Example.store "s" "a" 2 = (s', Ok tt)
    ∧ @records Example.carrier _ _ Example.mem Example.laws s' "s" "a"
      = take 2 (@records Example.carrier _ _ Example.mem Example.laws Example.store "s" "a").
Proof.
  eexists. split; [vm_compute; reflexivity|].
  eapply (@truncate_keeps_prefix Example.carrier _ _ Example.mem Example.laws false false
            Example.store _ "s" "a" 2 (Ok tt)); [exact I|vm_compute; reflexivity].
Defined.

End SessionStore.
