(* ===== verification/FsStore.v ===== *)
(** * The segment store on files

    Models the log operations of [src/crates/session-store/src/fs_store.rs] on the bytes of
    files: appends with torn writes and their rollback, the repair of an unterminated tail
    by a backward scan in chunks, the parse of the committed lines, and the atomic
    replacement of a segment.  The store is an instance of the interface of [SessionStore].
    The JSON text of an entry and the validation of one history entry are arguments; the
    directory listings, the migration of directories of older schemas and the artifacts of a
    session are not modelled.  The texts of errors of libraries are fixed words. *)
From Stdlib Require Import ZArith String Ascii List Lia.
From stdpp Require Import base tactics numbers list strings gmap.
From S2P Require Import Prelude Conversation ContextBudget SessionLog SessionStore.

Module FsStore.
Import SessionLog SessionStore.

(** ** Lines of a file *)

Definition nl : ascii := ascii_of_nat 10.
Definition cr : ascii := ascii_of_nat 13.

Definition is_nl (c : ascii) : bool := Ascii.eqb c nl.

(** [iter().rposition(p)]. *)
Definition rposition {A} (p : A → bool) (l : list A) : option nat :=
  match position p (rev l) with
  | Some k => Some (length l - S k)%nat
  | None => None
  end.

Definition complete_jsonl_prefix (content : list ascii) : list ascii :=
  if bool_decide (last content = Some nl) then content
  else match rposition is_nl content with
       | Some index => take (S index) content
       | None => []
       end.

(** [str::split_inclusive('\n')]. *)
Fixpoint split_inclusive_from (current : list ascii) (l : list ascii) : list (list ascii) :=
  match l with
  | [] => if bool_decide (current = []) then [] else [current]
  | c :: l =>
      if is_nl c then (current ++ [c]) :: split_inclusive_from [] l
      else split_inclusive_from (current ++ [c]) l
  end.

Definition split_inclusive (l : list ascii) : list (list ascii) := split_inclusive_from [] l.

(** [strip_suffix(c)] for a single-byte character, the text itself without it. *)
Definition strip_suffix_or_self (c : ascii) (l : list ascii) : list ascii :=
  if bool_decide (last l = Some c) then take (length l - 1) l else l.

(** A line of [str::lines]: the newline, and a carriage return before it, are stripped. *)
Definition line_of (l : list ascii) : list ascii :=
  if bool_decide (last l = Some nl)
  then strip_suffix_or_self cr (strip_suffix_or_self nl l) else l.

Definition text (l : list ascii) : string := string_of_list_ascii l.

(** [Utf8Error::valid_up_to]: the length of the longest valid prefix. *)
Fixpoint valid_up_to_from (n : nat) (l : list ascii) : nat :=
  if valid_utf8 (text (take n l)) then n
  else match n with O => O | S n => valid_up_to_from n l end.

Definition valid_up_to (l : list ascii) : nat := valid_up_to_from (length l) l.

(** The line an invalid byte is reported at. *)
Definition corrupt_line (complete : list ascii) : Z :=
  Z.of_nat (length (List.filter is_nl (take (valid_up_to complete) complete))) + 1.

Definition invalid_utf8 (complete : list ascii) : StoreError :=
  Corrupt (corrupt_line complete) "invalid utf-8 sequence".

(** ** The repair of the tail *)

Definition SCAN_BYTES : nat := 8 * 1024.

(** The loop of [truncate_uncommitted_tail]: the committed length; [None] when the fuel runs
    out. *)
Fixpoint scan_back (fuel : nat) (content : list ascii) (end_ : nat) : option nat :=
  match fuel with
  | O => None
  | S fuel =>
      if (end_ =? 0)%nat then Some 0%nat
      else
        let start := (end_ - SCAN_BYTES)%nat in
        let chunk := take (end_ - start) (drop start content) in
        match rposition is_nl chunk with
        | Some index => Some (start + index + 1)%nat
        | None => scan_back fuel content start
        end
  end.

Definition truncate_uncommitted_tail (content : list ascii) : option nat :=
  match last content with
  | None => Some 0%nat
  | Some c =>
      if is_nl c then Some (length content)
      else scan_back (S (length content)) content (length content)
  end.

(** ** The store *)

(** What a call meets; a message where a step fails.  A write that fails has written some
    bytes of its record. *)
Record FsEnv := mkFsEnv {
  erased : bool;
  lock_error : option string;
  open_error : option string;
  migrate_error : option StoreError;
  repair_error : option string;
  write_error : option (nat * string);
  rollback_error : option string;
  replace_error : option string;
  sync_error : option string;
  read_error : option string
}.

Definition no_faults : FsEnv := mkFsEnv false None None None None None None None None None.

Section fs.
Context `{Carrier}.
Context (entry_text : LogEntry → result string string).
Context (entry_of_text : string → option LogEntry).
Context (validate_entry : LoggedHistoryEntry → option string).
Context (validate_system_entry : LoggedSystemHistoryEntry → option string).

(** The first failure of a [?] in a loop over a history. *)
Fixpoint validate_history (history : list LoggedHistoryEntry) : option string :=
  match history with
  | [] => None
  | e :: history =>
      match validate_entry e with Some m => Some m | None => validate_history history end
  end.

Definition validate_input_metadata (e : LogEntry) : option string :=
  match e with
  | AnnotatedSegmentStart _ _ _ _ history _ _ | AnnotatedUserInput _ _ _ history =>
      validate_history history
  | AnnotatedAssistantItem _ entry | AnnotatedToolResult _ entry
  | ToolResultCorrected _ entry => validate_entry entry
  | AnnotatedSystemItem _ entry _ => validate_system_entry entry
  | _ => None
  end.

Record FsStore := mkFs { files : gmap (string * string) (list ascii) }.

Definition set_file (s : FsStore) (sid seg : string) (content : list ascii) : FsStore :=
  mkFs (<[(sid, seg) := content]> (files s)).

(** [append_line], from the file's content on; [None] only if the scan ran out of fuel. *)
Definition append_line (env : FsEnv) (content : list ascii) (line : string)
  : option (list ascii * result unit StoreError) :=
  match repair_error env with
  | Some m => Some (content, Err (Io m))
  | None =>
      committed_len ← truncate_uncommitted_tail content;
      let committed := take committed_len content in
      let record := list_ascii_of_string line ++ [nl] in
      match write_error env with
      | None => Some (committed ++ record, Ok tt)
      | Some (n, m) =>
          let partial := take (n `min` (length record - 1)) record in
          match rollback_error env with
          | None => Some (committed, Err (Io m))
          | Some m' =>
              Some (committed ++ partial,
                    Err (Io ("session append failed (" +:+ m
                             +:+ ") and partial-write rollback failed: " +:+ m')))
          end
      end
  end.

Definition append (env : FsEnv) (s : FsStore) (sid seg : string) (entry : LogEntry)
  : option (FsStore * result unit StoreError) :=
  match validate_input_metadata entry with
  | Some m => Some (s, Err (InvalidInputMetadata m))
  | None =>
      if erased env then Some (s, Err (SessionErased sid))
      else match entry_text entry with
      | Err m => Some (s, Err (Serde m))
      | Ok line =>
          match lock_error env, open_error env with
          | Some m, _ | None, Some m => Some (s, Err (Io m))
          | None, None =>
              '(content, res) ← append_line env (default [] (files s !! (sid, seg))) line;
              Some (set_file s sid seg content, res)
          end
      end
  end.

(** The loop of [parse_jsonl]. *)
Fixpoint parse_records (sid seg : string) (index record_start : Z) (l : list (list ascii))
  : result (list LogEntry) StoreError :=
  match l with
  | [] => Ok []
  | record :: l =>
      let line := text (strip_suffix_or_self nl record) in
      let next := saturating_add_u64 record_start (Z.of_nat (length record)) in
      if trim_is_empty line then parse_records sid seg (index + 1) next l
      else
        match entry_of_text line with
        | None => Err (Corrupt (index + 1) "invalid record")
        | Some entry =>
            let? entries := parse_records sid seg (index + 1) next l in
            Ok (ensure_legacy_session_entry_id sid seg record_start entry :: entries)
        end
  end.

Definition parse_jsonl (content : list ascii) (sid seg : string)
  : result (list LogEntry) StoreError :=
  let complete := complete_jsonl_prefix content in
  if valid_utf8 (text complete)
  then parse_records sid seg 0 0 (split_inclusive complete)
  else Err (invalid_utf8 complete).

Definition read_all (env : FsEnv) (s : FsStore) (sid seg : string)
  : result (list LogEntry) StoreError :=
  match files s !! (sid, seg) with
  | None => Err (NotFound seg)
  | Some content =>
      match read_error env with
      | Some m => Err (Io m)
      | None => parse_jsonl content sid seg
      end
  end.

Definition read_entry_count (env : FsEnv) (s : FsStore) (sid seg : string)
  : result nat StoreError :=
  match files s !! (sid, seg) with
  | None => Err (NotFound seg)
  | Some content =>
      match read_error env with
      | Some m => Err (Io m)
      | None =>
          let complete := complete_jsonl_prefix content in
          if valid_utf8 (text complete)
          then Ok (length (List.filter (λ r, negb (trim_is_empty (text (line_of r))))
                             (split_inclusive complete)))
          else Err (invalid_utf8 complete)
      end
  end.

(** The bytes of entries, each on its line. *)
Fixpoint lines_of (entries : list LogEntry) : result (list ascii) StoreError :=
  match entries with
  | [] => Ok []
  | e :: entries =>
      match entry_text e with
      | Err m => Err (Serde m)
      | Ok t => let? content := lines_of entries in
                Ok ((list_ascii_of_string t ++ [nl]) ++ content)
      end
  end.

Fixpoint first_invalid (entries : list LogEntry) : option string :=
  match entries with
  | [] => None
  | e :: entries =>
      match validate_input_metadata e with Some m => Some m | None => first_invalid entries end
  end.

(** [create_segment], with [atomic_write_bytes]: the replacement file is written and renamed,
    then the directory is synced.  [migrate_fs_session] is that of a directory of the current
    schema, which changes no file: [migrate_error] is what it reports. *)
Definition create_segment (env : FsEnv) (s : FsStore) (sid seg : string)
    (entries : list LogEntry) : FsStore * result unit StoreError :=
  match first_invalid entries with
  | Some m => (s, Err (InvalidInputMetadata m))
  | None =>
      if erased env then (s, Err (SessionErased sid))
      else match open_error env, migrate_error env, lines_of entries with
      | Some m, _, _ => (s, Err (Io m))
      | None, Some e, _ | None, None, Err e => (s, Err e)
      | None, None, Ok content =>
          match lock_error env, replace_error env with
          | Some m, _ | None, Some m => (s, Err (Io m))
          | None, None =>
              (set_file s sid seg content,
               match sync_error env with Some m => Err (Io m) | None => Ok tt end)
          end
      end
  end.

(** The first directory with a file of that name, in some order of the directories. *)
Definition lookup_session_of (env : FsEnv) (s : FsStore) (seg : string)
  : result (option string) StoreError :=
  match read_error env with
  | Some m => Err (Io m)
  | None => Ok ((λ kv : string * string * list ascii, fst (fst kv))
                  <$> List.find (λ kv, String.eqb (snd (fst kv)) seg) (map_to_list (files s)))
  end.
End fs.

(** ** Lemmas: complete lines *)

(** A list of whole lines. *)
Definition ends_line (p : list ascii) : Prop := p = [] ∨ ∃ q, p = q ++ [nl].

Lemma is_nl_true c : is_nl c = true ↔ c = nl.
Proof. apply Ascii.eqb_eq. Qed.

Lemma is_nl_false c : is_nl c = false ↔ c ≠ nl.
Proof. rewrite <- is_nl_true. by destruct (is_nl c). Qed.

(** The last newline cuts a list in two. *)
Lemma nl_split l : nl ∉ l ∨ ∃ q t, l = q ++ nl :: t ∧ nl ∉ t.
Proof.
  destruct (decide (nl ∈ l)) as [Hin|]; [right|by left].
  apply list_elem_of_split_r in Hin as (q & t & Hl & Ht); eauto.
Qed.

Lemma position_app_not {A} (p : A → bool) a c b :
  (∀ x, x ∈ a → p x = false) → p c = true → position p (a ++ c :: b) = Some (length a).
Proof.
  intros Ha Hc. induction a as [|x a IH]; simpl; [by rewrite Hc|].
  rewrite (Ha x) by apply list_elem_of_here.
  rewrite IH; [done|]. intros y Hy. apply Ha. by apply list_elem_of_further.
Qed.

Lemma rposition_app q t : nl ∉ t → rposition is_nl (q ++ nl :: t) = Some (length q).
Proof.
  intros Ht. unfold rposition. rewrite rev_app_distr. simpl. rewrite <- app_assoc. simpl.
  rewrite position_app_not.
  - f_equal. rewrite length_app, length_rev. simpl. lia.
  - intros x Hx. apply is_nl_false. intros ->. apply Ht.
    by rewrite list_elem_of_In, <- in_rev, <- list_elem_of_In in Hx.
  - by apply is_nl_true.
Qed.

Lemma rposition_not l : nl ∉ l → rposition is_nl l = None.
Proof.
  intros Hl. unfold rposition. rewrite (proj2 (position_None is_nl (rev l))); [done|].
  intros x Hx. apply is_nl_false. intros ->. apply Hl.
  by rewrite list_elem_of_In, <- in_rev, <- list_elem_of_In in Hx.
Qed.

(** The complete prefix of whole lines and a tail without a newline is the lines. *)
Lemma complete_app p t : ends_line p → nl ∉ t → complete_jsonl_prefix (p ++ t) = p.
Proof.
  intros [->|[q ->]] Ht; unfold complete_jsonl_prefix; simpl.
  - rewrite bool_decide_false, rposition_not; [done..|].
    intros (t' & ->)%last_Some. apply Ht. set_solver.
  - case_bool_decide as Hl.
    + destruct t as [|c t _] using rev_ind; [by rewrite app_nil_r|].
      rewrite app_assoc, last_snoc in Hl. injection Hl as ->. set_solver.
    + rewrite <- app_assoc. simpl. rewrite rposition_app by done.
      rewrite (cons_middle nl q t), app_assoc, take_app_length'; [done|].
      rewrite length_app. simpl. lia.
Qed.

Lemma complete_spec l :
  ∃ t, l = complete_jsonl_prefix l ++ t ∧ (nl ∉ t) ∧ ends_line (complete_jsonl_prefix l).
Proof.
  destruct (nl_split l) as [Hl|(q & (t & (-> & Ht)))].
  - exists l. assert (Hc : complete_jsonl_prefix l = []).
    { apply (complete_app [] l); [by left|done]. }
    rewrite Hc. split_and!; [done..|by left].
  - exists t. assert (Hc : complete_jsonl_prefix (q ++ nl :: t) = q ++ [nl]).
    { rewrite (cons_middle nl q t), app_assoc. apply complete_app; [right; eauto|done]. }
    rewrite Hc, <- app_assoc. split_and!; [done..|right; eauto].
Qed.

Lemma ends_line_app p q : ends_line p → ends_line q → ends_line (p ++ q).
Proof.
  intros Hp [->|[q' ->]]; [by rewrite app_nil_r|]. right. exists (p ++ q'). by rewrite app_assoc.
Qed.

Lemma complete_ends p : ends_line p → complete_jsonl_prefix p = p.
Proof. intros Hp. rewrite <- (app_nil_r p) at 1. apply complete_app; [done|set_solver]. Qed.

Lemma complete_length l :
  take (length (complete_jsonl_prefix l)) l = complete_jsonl_prefix l.
Proof.
  destruct (complete_spec l) as (t & Hl & _ & _). rewrite Hl at 2. by rewrite take_app_length.
Qed.

(** The scan in chunks finds the end of the complete prefix. *)
Lemma scan_back_spec content fuel : ∀ end_,
  nl ∉ drop end_ content → (end_ ≤ length content)%nat → (end_ < fuel)%nat →
  scan_back fuel content end_ = Some (length (complete_jsonl_prefix content)).
Proof.
  induction fuel as [|fuel IH]; intros end_ Hdrop Hlen Hfuel; [lia|].
  cbn [scan_back]. destruct (Nat.eqb_spec end_ 0) as [->|Hnz].
  - f_equal. by rewrite (complete_app [] content : _ → _ → complete_jsonl_prefix content = [])
      by (first [by left|done]).
  - set (start := (end_ - SCAN_BYTES)%nat).
    assert (start < end_)%nat by (subst start; unfold SCAN_BYTES; lia).
    set (chunk := take (end_ - start) (drop start content)).
    assert (Hc : drop start content = chunk ++ drop end_ content).
    { unfold chunk. rewrite <- (take_drop (end_ - start) (drop start content)) at 1.
      rewrite drop_drop. do 2 f_equal. lia. }
    destruct (nl_split chunk) as [Hno|(q & t & Hq & Ht)].
    + rewrite (rposition_not _ Hno). apply IH; [|lia..].
      rewrite Hc. intros [|]%elem_of_app; done.
    + rewrite Hq, (rposition_app _ _ Ht). f_equal.
      assert (Hall : content = (take start content ++ q ++ [nl]) ++ t ++ drop end_ content).
      { rewrite <- (take_drop start content) at 1. rewrite Hc, Hq.
        by rewrite <- !app_assoc. }
      rewrite Hall, complete_app.
      * rewrite !length_app, length_take. simpl. lia.
      * right. exists (take start content ++ q). by rewrite app_assoc.
      * intros [|]%elem_of_app; done.
Qed.

Lemma truncate_spec content :
  truncate_uncommitted_tail content = Some (length (complete_jsonl_prefix content)).
Proof.
  unfold truncate_uncommitted_tail. destruct (last content) as [c|] eqn:Hl.
  - destruct (is_nl c) eqn:Hc.
    + apply is_nl_true in Hc as ->. apply last_Some in Hl as (q & ->).
      rewrite complete_ends; [done|right; eauto].
    + apply scan_back_spec; [|lia..]. rewrite drop_ge by lia. set_solver.
  - apply last_None in Hl as ->. done.
Qed.

(** ** Lemmas: records *)

Lemma ends_line_cons c p :
  ends_line (c :: p) → (c = nl ∧ p = []) ∨ (p ≠ [] ∧ ends_line p).
Proof.
  intros [|[[|c' q] Hq]]; [done| |]; simplify_eq/=; [by left|right].
  split; [by destruct q|right; eauto].
Qed.

Lemma split_from_app p b : ∀ current,
  ends_line p → p ≠ [] →
  split_inclusive_from current (p ++ b) = split_inclusive_from current p ++ split_inclusive b.
Proof.
  induction p as [|c p IH]; intros current Hp Hne; [done|]. simpl.
  apply ends_line_cons in Hp as [[-> ->]|[Hne' Hp]]; [done|].
  destruct (is_nl c); [|by rewrite IH]. simpl. f_equal. by rewrite IH.
Qed.

Lemma split_app p b :
  ends_line p → split_inclusive (p ++ b) = split_inclusive p ++ split_inclusive b.
Proof.
  intros Hp. destruct p as [|c p]; [done|]. by apply split_from_app.
Qed.

Lemma split_from_line a : ∀ current,
  nl ∉ a → split_inclusive_from current (a ++ [nl]) = [current ++ a ++ [nl]].
Proof.
  induction a as [|c a IH]; intros current Ha; [done|]. simpl.
  rewrite not_elem_of_cons in Ha. destruct Ha as [Hc Ha].
  rewrite (proj2 (is_nl_false c)) by done. rewrite IH by done. by rewrite <- app_assoc.
Qed.

Lemma split_line a : nl ∉ a → split_inclusive (a ++ [nl]) = [a ++ [nl]].
Proof. apply split_from_line. Qed.

Lemma text_app a b : text (a ++ b) = text a +:+ text b.
Proof.
  induction a as [|c a IH]; [done|]. unfold text in *. simpl. by rewrite IH, string_app_cons.
Qed.

Lemma strip_nl a : strip_suffix_or_self nl (a ++ [nl]) = a.
Proof.
  unfold strip_suffix_or_self. rewrite bool_decide_true by apply last_snoc.
  rewrite length_app. simpl. apply take_app_length'. lia.
Qed.

(** A record of valid text: a valid line and its newline. *)
Definition record_ok (r : list ascii) : Prop :=
  ∃ a, r = a ++ [nl] ∧ valid_utf8 (text a) = true.

(** The first line of whole lines. *)
Lemma first_line p :
  ends_line p → p ≠ [] → ∃ a q, p = (a ++ [nl]) ++ q ∧ (nl ∉ a) ∧ ends_line q.
Proof.
  induction p as [|c p IH]; intros Hp Hne; [done|].
  destruct (decide (c = nl)) as [->|Hc].
  - exists [], p. split_and!; [done|set_solver|].
    apply ends_line_cons in Hp as [[_ ->]|[_ Hp]]; [by left|done].
  - apply ends_line_cons in Hp as [[-> _]|[Hne' Hp]]; [done|].
    destruct (IH Hp Hne') as (a & q & -> & Ha & Hq).
    exists (c :: a), q. split_and!; [done|set_solver|done].
Qed.

Lemma split_records n : ∀ p, (length p < n)%nat →
  ends_line p → valid_utf8 (text p) = true → Forall record_ok (split_inclusive p).
Proof.
  induction n as [|n IH]; intros p Hn Hp Hv; [lia|].
  destruct (decide (p = [])) as [->|Hne]; [constructor|].
  destruct (first_line p Hp Hne) as (a & q & -> & Ha & Hq).
  rewrite split_app, split_line by (done || (right; eauto)).
  rewrite <- app_assoc, text_app in Hv. apply valid_utf8_split in Hv as [Hva Hvq]; [|done].
  simpl. constructor; [by exists a|]. apply IH; [|done..].
  rewrite !length_app in Hn. simpl in Hn. lia.
Qed.

Lemma trim_app a b :
  valid_utf8 a = true → trim_is_empty (a +:+ b) = trim_is_empty a && trim_is_empty b.
Proof. intros Ha. unfold trim_is_empty. by rewrite chars_app, forallb_app. Qed.

(** A carriage return at the end of a line is blank: [str::lines] and [split_inclusive]
    agree on the blank lines. *)
Lemma trim_line_of r :
  record_ok r →
  trim_is_empty (text (line_of r)) = trim_is_empty (text (strip_suffix_or_self nl r)).
Proof.
  intros (a & -> & Ha). unfold line_of. rewrite bool_decide_true by apply last_snoc.
  rewrite strip_nl. unfold strip_suffix_or_self. case_bool_decide as Hl; [|done].
  apply last_Some in Hl as (b & ->). rewrite text_app in Ha.
  apply valid_utf8_split in Ha as [Hb _]; [|done].
  rewrite length_app. simpl. rewrite take_app_length' by lia.
  rewrite text_app, trim_app by done. by rewrite andb_true_r.
Qed.

(** ** The interface of segments, on files *)

(** What the JSON text of an entry is relied on for: it reads back as the entry, and is valid
    text on one line that is not blank. *)
Class Codec `{Carrier} (entry_text : LogEntry → result string string)
    (entry_of_text : string → option LogEntry) : Prop := {
  text_roundtrip e t : entry_text e = Ok t → entry_of_text t = Some e;
  text_one_line e t : entry_text e = Ok t → nl ∉ list_ascii_of_string t;
  text_not_blank e t : entry_text e = Ok t → trim_is_empty t = false;
  text_valid e t : entry_text e = Ok t → valid_utf8 t = true
}.

Section laws.
Context `{Carrier} {entry_text : LogEntry → result string string}.
Context {entry_of_text : string → option LogEntry} `{!Codec entry_text entry_of_text}.
Context (validate_entry : LoggedHistoryEntry → option string).
Context (validate_system_entry : LoggedSystemHistoryEntry → option string).

Abbreviation parse := (parse_jsonl entry_of_text).

(** The bytes of a text and its newline. *)
Abbreviation record_of t := (list_ascii_of_string t ++ [nl]).

Lemma parse_records_app sid seg a b lb : ∀ index start l,
  parse_records entry_of_text sid seg index start a = Ok l →
  (∀ index start, parse_records entry_of_text sid seg index start b = Ok lb) →
  parse_records entry_of_text sid seg index start (a ++ b) = Ok (l ++ lb).
Proof.
  induction a as [|r a IH]; intros index start l Ha Hb; [by simplify_eq/=|].
  cbn [parse_records app] in *. destruct (trim_is_empty _); [by apply IH|].
  destruct (entry_of_text _) as [e|]; [|done].
  destruct (parse_records _ _ _ _ _ a) as [l'|] eqn:Hl; simplify_eq/=.
  by rewrite (IH _ _ _ Hl Hb).
Qed.

Lemma text_of_list t : text (list_ascii_of_string t) = t.
Proof. apply string_of_list_ascii_of_string. Qed.

Lemma parse_line sid seg e t index start :
  entry_text e = Ok t → identified e →
  parse_records entry_of_text sid seg index start (split_inclusive (record_of t)) = Ok [e].
Proof.
  intros Ht He. rewrite split_line by by eapply text_one_line.
  cbn [parse_records]. rewrite strip_nl, text_of_list.
  rewrite (text_not_blank e t), (text_roundtrip e t) by done.
  cbn. f_equal. unfold ensure_legacy_session_entry_id. by rewrite He.
Qed.

Lemma valid_line e t : entry_text e = Ok t → valid_utf8 (text (record_of t)) = true.
Proof.
  intros Ht. rewrite text_app, text_of_list. by apply valid_utf8_app; [by eapply text_valid|].
Qed.

(** The bytes of entries are valid lines that parse as the entries. *)
Lemma lines_of_spec l content :
  Forall identified l → lines_of entry_text l = Ok content →
  ends_line content ∧ valid_utf8 (text content) = true
  ∧ ∀ sid seg index start,
      parse_records entry_of_text sid seg index start (split_inclusive content) = Ok l.
Proof.
  intros Hl. revert content. induction Hl as [|e l He Hl IH]; intros content Hc; cbn in Hc.
  { simplify_eq. split_and!; [by left|done..]. }
  destruct (entry_text e) as [t|] eqn:Ht; [|done].
  destruct (lines_of entry_text l) as [rest|] eqn:Hr; simplify_eq/=.
  destruct (IH _ eq_refl) as (Hends & Hv & Hp). split_and!.
  - apply ends_line_app; [right; eauto|done].
  - rewrite text_app. by apply valid_utf8_app; [by eapply valid_line|].
  - intros sid seg index start. rewrite split_app by (right; eauto).
    apply (parse_records_app _ _ _ _ _ _ _ [e]); [by apply parse_line|done].
Qed.

Lemma parse_records_identified sid seg recs : ∀ index start l,
  parse_records entry_of_text sid seg index start recs = Ok l → Forall identified l.
Proof.
  induction recs as [|r recs IH]; intros index start l Hl; [simplify_eq/=; constructor|].
  cbn [parse_records] in Hl. destruct (trim_is_empty _); [eauto|].
  destruct (entry_of_text _) as [e|]; [|done].
  destruct (parse_records _ _ _ _ _ recs) as [l'|] eqn:Hl'; simplify_eq/=.
  constructor; [apply ensure_entry_id_identified|eauto].
Qed.

Lemma parse_records_count sid seg recs : ∀ index start l,
  Forall record_ok recs →
  parse_records entry_of_text sid seg index start recs = Ok l →
  length (List.filter (λ r, negb (trim_is_empty (text (line_of r)))) recs) = length l.
Proof.
  induction recs as [|r recs IH]; intros index start l Hok Hl; [by simplify_eq/=|].
  apply Forall_cons in Hok as [Hr Hok]. cbn [parse_records List.filter] in *.
  rewrite trim_line_of by done. destruct (trim_is_empty _); [eauto|].
  destruct (entry_of_text _) as [e|]; [|done].
  destruct (parse_records _ _ _ _ _ recs) as [l'|] eqn:Hl'; simplify_eq/=.
  f_equal. eauto.
Qed.

(** A parse sees the complete lines only. *)
Lemma parse_tail p t sid seg : ends_line p → nl ∉ t → parse (p ++ t) sid seg = parse p sid seg.
Proof. intros Hp Ht. unfold parse_jsonl. by rewrite complete_app, complete_ends. Qed.

Lemma complete_complete l : ends_line (complete_jsonl_prefix l).
Proof. by destruct (complete_spec l) as (_ & _ & _ & ?). Qed.

Lemma parse_complete content sid seg :
  parse (complete_jsonl_prefix content) sid seg = parse content sid seg.
Proof. unfold parse_jsonl. by rewrite (complete_ends _ (complete_complete content)). Qed.

(** A write of some bytes of a record is seen when it has the newline. *)
Lemma parse_partial content sid seg l e t k :
  parse content sid seg = Ok l → identified e → entry_text e = Ok t →
  parse (complete_jsonl_prefix content ++ take k (record_of t)) sid seg
  = Ok (l ++ if (k <? length (record_of t))%nat then [] else [e]).
Proof.
  intros Hl He Ht. pose proof (complete_complete content) as Hc.
  destruct (Nat.ltb_spec k (length (record_of t))) as [Hk|Hk].
  - rewrite app_nil_r, parse_tail, parse_complete; [done..|].
    rewrite length_app in Hk. simpl in Hk. rewrite take_app_le by lia.
    intros Hin. apply (text_one_line e t); [done|]. by eapply (subseteq_take k).
  - rewrite take_ge by lia. unfold parse_jsonl in *.
    rewrite complete_ends by (apply ends_line_app; [done|right; eauto]).
    destruct (valid_utf8 (text (complete_jsonl_prefix content))) eqn:Hv; [|done].
    rewrite text_app, valid_utf8_app by (done || by eapply valid_line).
    rewrite split_app by done. apply parse_records_app; [done|]. intros. by apply parse_line.
Qed.

(** What an append leaves in the file, on every path. *)
Lemma append_line_spec env content e t sid seg l :
  parse content sid seg = Ok l → identified e → entry_text e = Ok t →
  ∃ content' res, append_line env content t = Some (content', res)
    ∧ parse content' sid seg = Ok (l ++ if is_ok res then [e] else []).
Proof.
  intros Hl He Ht. pose proof (parse_partial content sid seg l e t) as Hpartial.
  unfold append_line.
  destruct (repair_error env); [eexists _, _; split; [done|]; by rewrite app_nil_r|].
  rewrite truncate_spec. cbn -[take]. rewrite complete_length.
  destruct (write_error env) as [[n m]|].
  - destruct (rollback_error env); eexists _, _; (split; [done|]); cbn [is_ok].
    + rewrite Hpartial by done. rewrite (proj2 (Nat.ltb_lt _ _)); [done|].
      rewrite length_app. simpl. lia.
    + by rewrite app_nil_r, parse_complete.
  - eexists _, _. split; [done|]. cbn [is_ok].
    rewrite <- (take_ge (record_of t) (length (record_of t))), Hpartial by done.
    by rewrite Nat.ltb_irrefl.
Qed.

Abbreviation fs_append := (append entry_text validate_entry validate_system_entry).

(** The scan never runs out of fuel: an append always answers. *)
Lemma append_total env s sid seg e : is_Some (fs_append env s sid seg e).
Proof.
  unfold append, append_line. destruct (validate_input_metadata _ _ e), (erased env),
    (entry_text e), (lock_error env), (open_error env), (repair_error env); simpl; eauto.
  rewrite truncate_spec. simpl. destruct (write_error env) as [[]|], (rollback_error env); eauto.
Qed.

Definition answer (s : FsStore) (o : option (FsStore * result unit StoreError))
  : FsStore * result unit StoreError := default (s, Err (Io "no answer")) o.

#[export] Instance fs_store : Store FsStore FsEnv :=
  Build_Store _ FsStore FsEnv (λ env s sid seg e, answer s (fs_append env s sid seg e))
    (read_all entry_of_text) (create_segment entry_text validate_entry validate_system_entry)
    read_entry_count lookup_session_of.

Lemma fs_append_total env s sid seg e s' res :
  SessionStore.append env s sid seg e = (s', res) ↔ fs_append env s sid seg e = Some (s', res).
Proof.
  cbn. destruct (append_total env s sid seg e) as [[s1 r1] Hs]. unfold answer. rewrite Hs. simpl.
  split; congruence.
Qed.

(** Every file reads. *)
Definition files_ok (s : FsStore) : Prop :=
  ∀ sid seg content, files s !! (sid, seg) = Some content →
  is_ok (parse content sid seg) = true.

Definition file_records (s : FsStore) (sid seg : string) : list LogEntry :=
  match parse (default [] (files s !! (sid, seg))) sid seg with Ok l => l | Err _ => [] end.

Lemma files_ok_parse s sid seg :
  files_ok s → parse (default [] (files s !! (sid, seg))) sid seg = Ok (file_records s sid seg).
Proof.
  intros Hs. unfold file_records. destruct (files s !! (sid, seg)) as [c|] eqn:Hc; [|done].
  apply Hs in Hc. simpl. by destruct (parse c sid seg).
Qed.

Lemma files_ok_set s sid seg content l :
  files_ok s → parse content sid seg = Ok l →
  files_ok (set_file s sid seg content)
  ∧ file_records (set_file s sid seg content) sid seg = l.
Proof.
  intros Hs Hp. split.
  - intros sid' seg' c. cbn. intros [[[= -> ->] <-]|[_ Hc]]%lookup_insert_Some; [by rewrite Hp|].
    by eapply Hs.
  - unfold file_records. cbn [files set_file]. rewrite lookup_insert_eq.
    change (default [] (Some content)) with content. by rewrite Hp.
Qed.

Lemma file_records_other s sid seg content sid' seg' :
  (sid', seg') ≠ (sid, seg) →
  file_records (set_file s sid seg content) sid' seg' = file_records s sid' seg'.
Proof. intros Hne. unfold file_records. cbn [files set_file]. by rewrite lookup_insert_ne. Qed.

(** The cases of a successful branch of [append]. *)
Lemma append_cases env s sid seg e s' res :
  fs_append env s sid seg e = Some (s', res) →
  (s' = s ∧ is_ok res = false)
  ∨ ∃ t content, entry_text e = Ok t
      ∧ append_line env (default [] (files s !! (sid, seg))) t = Some (content, res)
      ∧ s' = set_file s sid seg content.
Proof.
  unfold append. destruct (validate_input_metadata _ _ e); [by intros [= <- <-]; left|].
  destruct (erased env); [by intros [= <- <-]; left|].
  destruct (entry_text e) as [t|]; [|by intros [= <- <-]; left].
  destruct (lock_error env); [by intros [= <- <-]; left|].
  destruct (open_error env); [by intros [= <- <-]; left|].
  intros ([content r] & Hc & [= <- <-])%bind_Some. right. eauto.
Qed.

Lemma create_cases env s sid seg l s' res :
  create_segment entry_text validate_entry validate_system_entry env s sid seg l = (s', res) →
  (s' = s ∧ is_ok res = false)
  ∨ ∃ content, lines_of entry_text l = Ok content ∧ s' = set_file s sid seg content.
Proof.
  unfold create_segment. destruct (first_invalid _ _ l); [by intros [= <- <-]; left|].
  destruct (erased env); [by intros [= <- <-]; left|].
  destruct (open_error env); [by intros [= <- <-]; left|].
  destruct (migrate_error env); [by intros [= <- <-]; left|].
  destruct (lines_of entry_text l) as [content|]; [|by intros [= <- <-]; left].
  destruct (lock_error env); [by intros [= <- <-]; left|].
  destruct (replace_error env); [by intros [= <- <-]; left|].
  intros [= <- _]. right. eauto.
Qed.

Lemma parse_Ok content sid seg l :
  parse content sid seg = Ok l →
  valid_utf8 (text (complete_jsonl_prefix content)) = true
  ∧ parse_records entry_of_text sid seg 0 0 (split_inclusive (complete_jsonl_prefix content))
    = Ok l.
Proof. unfold parse_jsonl. by destruct (valid_utf8 _). Qed.

Lemma parse_identified content sid seg l : parse content sid seg = Ok l → Forall identified l.
Proof. intros [_ Hp]%parse_Ok. by eapply parse_records_identified. Qed.

(** The two readers agree: the count is the number of entries. *)
Lemma count_parse env s sid seg n :
  files_ok s → read_entry_count env s sid seg = Ok n → n = length (file_records s sid seg).
Proof.
  intros Hs Hn. pose proof (files_ok_parse s sid seg Hs) as Hp. unfold read_entry_count in Hn.
  destruct (files s !! (sid, seg)) as [c|]; [|done]. destruct (read_error env); [done|].
  apply parse_Ok in Hp as [Hv Hp]. simpl in Hv, Hp. rewrite Hv in Hn. injection Hn as <-.
  eapply parse_records_count; [|exact Hp].
  eapply split_records; [apply Nat.lt_succ_diag_r|apply complete_complete|done].
Qed.

Lemma parse_lines l content sid seg :
  Forall identified l → lines_of entry_text l = Ok content → parse content sid seg = Ok l.
Proof.
  intros Hl Hc. destruct (lines_of_spec l content Hl Hc) as (He & Hv & Hp).
  unfold parse_jsonl. by rewrite complete_ends, Hv by done.
Qed.

#[export] Instance fs_store_laws : StoreLaws (St:=FsStore) (Env:=FsEnv).
Proof.
  refine {| store_ok := files_ok; records := file_records |}.
  - intros s sid seg Hs. eapply parse_identified. by apply files_ok_parse.
  - intros env s sid seg l Hs Hr. cbn in Hr. unfold read_all in Hr. unfold file_records.
    destruct (files s !! (sid, seg)) as [c|]; [|done]. destruct (read_error env); [done|].
    simpl. by rewrite Hr.
  - intros env s sid seg n. apply count_parse.
  - intros env s sid seg e s' res Hs He Ha%fs_append_total.
    apply append_cases in Ha as [[-> ->]|(t & content & Ht & Ha & ->)]; [by rewrite app_nil_r|].
    destruct (append_line_spec env _ e t sid seg _ (files_ok_parse s sid seg Hs) He Ht)
      as (content' & res' & Ha' & Hp). rewrite Ha in Ha'. injection Ha' as <- <-.
    by apply files_ok_set.
  - intros env s sid seg l s' res Hs Hl [[-> Hres]|(content & Hc & ->)]%create_cases; [by auto|].
    destruct (files_ok_set s sid seg content l Hs) as [? ?]; [by apply parse_lines|]. auto.
  - intros env s sid seg e s' res sid' seg' Ha%fs_append_total Hne.
    apply append_cases in Ha as [[-> _]|(t & content & _ & _ & ->)]; [done|].
    by apply file_records_other.
  - intros env s sid seg l s' res sid' seg' [[-> _]|(content & _ & ->)]%create_cases Hne; [done|].
    by apply file_records_other.
Defined.
Lemma append_entry_file env s new_id sid seg e s' res k :
  append_entry env s new_id sid seg e = (s', res) →
  is_Some (files s !! k) → is_Some (files s' !! k).
Proof.
  intros [[-> _]|(t & content & _ & _ & ->)]%fs_append_total%append_cases Hk; [done|].
  cbn [files set_file]. destruct (decide (k = (sid, seg))) as [->|Hne].
  - rewrite lookup_insert_eq. eauto.
  - by rewrite lookup_insert_ne.
Qed.

Lemma append_entries_file sid seg k l : ∀ s s' committed,
  append_entries s sid seg l = (s', committed) →
  is_Some (files s !! k) → is_Some (files s' !! k).
Proof.
  induction l as [|[[env new_id] e] l IH]; intros s s' committed; cbn [append_entries].
  { by intros [= <- _]. }
  destruct (append_entry env s new_id sid seg e) as [s1 res] eqn:He.
  destruct (append_entries s1 sid seg l) as [s2 k2] eqn:Hl. intros [= <- _] Hk.
  eapply IH; [exact Hl|]. by eapply append_entry_file.
Qed.

(** A file that exists reads, as its records and as their number. *)
Lemma read_file env s sid seg :
  files_ok s → is_Some (files s !! (sid, seg)) → read_error env = None →
  read_all entry_of_text env s sid seg = Ok (file_records s sid seg)
  ∧ read_entry_count env s sid seg = Ok (length (file_records s sid seg)).
Proof.
  intros Hs [c Hc] Henv. pose proof (files_ok_parse s sid seg Hs) as Hp.
  pose proof (count_parse env s sid seg) as Hcount.
  unfold read_all, read_entry_count in *. rewrite Hc, Henv in *. simpl in Hp.
  split; [exact Hp|]. apply parse_Ok in Hp as [Hv _]. rewrite Hv in *. f_equal. by apply Hcount.
Qed.

(** ** Properties *)

(** C2.  A segment on disk survives faults: after it was created, whatever appends meet (torn
    writes whose rollback fails, failed repairs, poisoned locks, an erased session), a read
    gives the seed and exactly the entries whose append was reported as done, in order, the
    count is their number, and the session restores to the state they replay to. *)
Theorem segment_survives_faults (env env' : FsEnv) (s s1 s2 : FsStore) (ts : Z)
    (sid seg : string) (state : SegmentStartState) (l : list (FsEnv * string * LogEntry))
    (committed : list LogEntry) :
  files_ok s → create_segment_with_ids env s ts sid seg state = (s1, Ok tt) →
  append_entries s1 sid seg l = (s2, committed) → read_error env' = None →
  let log := seed_entries ts sid state None None ++ committed in
  read_all entry_of_text env' s2 sid seg = Ok log
  ∧ read_entry_count env' s2 sid seg = Ok (length log)
  ∧ restore env' s2 sid seg = (st ← collect_state log; Some (Ok st)).
Proof.
  intros Hs Hcreate Happend Henv log. change (store_ok s) in Hs.
  assert (is_Some (files s1 !! (sid, seg))) as Hfile.
  { apply create_cases in Hcreate as [[_ ?]|(c & _ & ->)]; [done|]. cbn [files set_file].
    rewrite lookup_insert_eq. eauto. }
  destruct (create_Ok _ _ _ _ _ _ Hs (seed_identified _ _ _ _ _) Hcreate) as [Hs1 Hr1].
  destruct (append_entries_records _ _ _ _ _ _ Hs1 Happend) as [Hs2 Hr2].
  destruct (read_file env' s2 sid seg Hs2 (append_entries_file _ _ _ _ _ _ _ Happend Hfile) Henv)
    as [Hread Hcount].
  assert (file_records s2 sid seg = log) as Hlog by (subst log; rewrite <- Hr1; exact Hr2).
  rewrite Hlog in *. split_and!; [done..|]. unfold restore. cbn [SessionStore.read_all fs_store].
  by rewrite Hread.
Qed.

(** C29.  A record is committed by its newline and nothing less: on a log that reads as some
    entries, an append in any environment leaves the log with its entry when it reports
    success and unchanged otherwise; and when the process dies after any number of bytes of
    the record reached the file, the entry is there exactly if all of them did. *)
Theorem append_all_or_nothing (content : list ascii) (sid seg t : string)
    (entries : list LogEntry) (e : LogEntry) :
  parse content sid seg = Ok entries → identified e → entry_text e = Ok t →
  (∀ env, ∃ content' res, append_line env content t = Some (content', res)
     ∧ parse content' sid seg = Ok (entries ++ if is_ok res then [e] else []))
  ∧ ∀ bytes, parse (complete_jsonl_prefix content ++ take bytes (record_of t)) sid seg
             = Ok (entries ++ if (bytes <? length (record_of t))%nat then [] else [e]).
Proof.
  intros Hc He Ht. split; intros x; [by apply append_line_spec|by apply parse_partial].
Qed.
End laws.

(** The repair cuts a file where the readers stop: the scan in chunks from the end, which
    never reads the whole file, finds the length of the prefix the readers parse; that prefix
    is empty or ends with a newline, and no newline follows it. *)
Theorem tail_scan_exact (content : list ascii) :
  truncate_uncommitted_tail content = Some (length (complete_jsonl_prefix content))
  ∧ ∃ tail, content = complete_jsonl_prefix content ++ tail ∧ (nl ∉ tail)
      ∧ ends_line (complete_jsonl_prefix content).
Proof. split; [apply truncate_spec|apply complete_spec]. Qed.

(** ** Witnesses *)

Module Example.

Definition carrier : Carrier := SessionLog.Example.carrier.

(** A text for the seed of an empty session and for cancelled runs. *)
Definition entry_text (e : @LogEntry carrier) : result string string :=
  match e with
  | AnnotatedSegmentStart ts id None tt [] None None =>
      if bool_decide (ts = 0 ∧ id = "s") then Ok "S" else Err "unsupported"
  | RunCancelled ts (Some id) =>
      if bool_decide (ts = 1 ∧ id = "r1") then Ok "C1"
      else if bool_decide (ts = 1 ∧ id = "r2") then Ok "C2" else Err "unsupported"
  | _ => Err "unsupported"
  end.

Definition entry_of_text (t : string) : option (@LogEntry carrier) :=
  if bool_decide (t = "S") then Some (@AnnotatedSegmentStart carrier 0 "s" None tt [] None None)
  else if bool_decide (t = "C1") then Some (RunCancelled 1 (Some "r1"))
  else if bool_decide (t = "C2") then Some (RunCancelled 1 (Some "r2"))
  else None.

Lemma entry_text_cases e t :
  entry_text e = Ok t →
  (e = @AnnotatedSegmentStart carrier 0 "s" None tt [] None None ∧ t = "S")
  ∨ (e = RunCancelled 1 (Some "r1") ∧ t = "C1")
  ∨ (e = RunCancelled 1 (Some "r2") ∧ t = "C2").
Proof.
  unfold entry_text. intros Ht. repeat (case_match; try done); simplify_eq;
    repeat match goal with H : bool_decide _ = true |- _ => apply bool_decide_eq_true in H end;
    destruct_and?; subst; auto.
Qed.

#[export] Instance codec : Codec entry_text entry_of_text.
Proof.
  split; intros e t [[-> ->]|[[-> ->]|[-> ->]]]%entry_text_cases; try reflexivity;
    apply (bool_decide_eq_false_1 _); reflexivity.
Qed.

Definition validate (_ : @LoggedHistoryEntry carrier) : option string := None.

Definition validate_system (_ : @LoggedSystemHistoryEntry carrier) : option string := None.

Definition store : Store FsStore FsEnv :=
  @fs_store carrier entry_text entry_of_text validate validate_system.

Definition state : @SegmentStartState carrier := @mkStart carrier None tt [] [].

(** A write that stops after one byte, with a rollback that fails as well. *)
Definition torn : FsEnv :=
  mkFsEnv false None None None None (Some (1%nat, "full")) (Some "full") None None None.

Definition created : FsStore :=
  fst (@create_segment_with_ids carrier _ _ store no_faults (mkFs ∅) 0 "s" "a" state).

(** The file has a torn record between two appends. *)
Definition appended : FsStore :=
  fst (@append_entries carrier _ _ store created "s" "a"
         [(torn, "r1", RunCancelled 1 None); (no_faults, "r2", RunCancelled 1 None)]).

End Example.

Lemma segment_survives_faults_witness :
  @read_all Example.carrier Example.entry_of_text no_faults Example.appended "s" "a"
  = Ok [@AnnotatedSegmentStart Example.carrier 0 "s" None tt [] None None;
        RunCancelled 1 (Some "r2")].
Proof.
  destruct (@segment_survives_faults Example.carrier _ _ Example.codec Example.validate
              Example.validate_system no_faults
              no_faults (mkFs ∅) Example.created Example.appended 0 "s" "a" Example.state
              [(Example.torn, "r1", RunCancelled 1 None); (no_faults, "r2", RunCancelled 1 None)]
              [RunCancelled 1 (Some "r2")]) as [Hread _].
  - intros sid seg content Hc. discriminate Hc.
  - vm_compute. reflexivity.
  - vm_compute. reflexivity.
  - reflexivity.
  - exact Hread.
Defined.

Lemma append_all_or_nothing_witness :
  @parse_jsonl Example.carrier Example.entry_of_text
    (complete_jsonl_prefix ["S"%char; nl; "C"%char] ++ take 3 ["C"%char; "1"%char; nl]) "s" "a"
  = Ok [@AnnotatedSegmentStart Example.carrier 0 "s" None tt [] None None;
        RunCancelled 1 (Some "r1")].
Proof.
  destruct (@append_all_or_nothing Example.carrier _ _ Example.codec ["S"%char; nl; "C"%char] "s"
              "a" "C1" [@AnnotatedSegmentStart Example.carrier 0 "s" None tt [] None None]
              (RunCancelled 1 (Some "r1"))) as [_ Hbytes];
    [vm_compute; reflexivity|by intros x|reflexivity|exact (Hbytes 3%nat)].
Defined.

End FsStore.
